(* ===== verification/_CoqProject ===== *)
-Q . S2P
Prelude.v
Float.v
Value.v
HashMap.v
Schema.v
Core.v
Policy.v
Sort.v
Query.v
Tx.v
TxConc.v
Codec.v
Wal.v
GroupCommit.v
Snapshot.v
Durability.v
Rotation.v
Shard.v
Admission.v
Window.v
Changes.v
Jobs.v
Text.v
Wasm.v
Runtime.v
Deploy.v
Server.v
Dispatch.v
Serving.v
Session.v
Feed.v
Bridge.v
Http.v
Install.v
Dev.v
Metrics.v
Api.v
Index.v
Client.v
Store.v
Cluster.v
Streams.v
Recovery.v
FullText.v
Compat.v
Bundle.v
Generate.v
Cli.v
