(* ===== verification/Prelude.v ===== *)
(** * BlitzDB, verified

    BlitzDB is an in-memory database server written in Rust: tables of dynamically typed
    rows with unique indexes, optimistic transactions over them, a write-ahead log with
    group commit and snapshots, a binary protocol over TCP with a JSON bridge over HTTP,
    stored procedures, background jobs, change feeds, and a client library. This
    development models the server's crates as pure functions over explicit states and
    proves what they promise. File names below are under [src/crates/].

    ** How the parts fit together

    A connection is admitted ([Admission]), served read by read until it ends ([Session]),
    its bytes are cut into frames and decoded ([Codec]; for HTTP [Http] and [Bridge]), and
    each request is dispatched ([Dispatch]):
    the caller is authorized ([Policy], [Server]), the table and the row id are routed to
    a physical shard ([Shard]), and the operation runs against the transaction manager
    ([Tx]) over the engine ([Core]). A write that the engine accepts is handed to the log's
    group-commit thread ([GroupCommit]), which appends to the file ([Wal]); then the change
    log, the push hub and the search index are told ([Changes]), and an idempotency key is
    recorded ([Server]). A restart reads the newest snapshot ([Snapshot]) and replays the
    log ([Durability]). Procedures ([Runtime], deployed by [Deploy]) reach the engine only
    through the backend interface that [Dispatch] implements. [Client] is the other end of
    the wire; its retry is proved against the server's idempotency table.

    ** Files, and the code each models

    Foundations
    - [Prelude]: results of fallible code, machine integers, bytes, orders, filters.
    - [Float]: [f32]/[f64] by their bits; [Sort]: the standard library's stable sort;
      [HashMap]: the standard library's hash map over values.
    - [Value], [Schema]: blitz-types ([value.rs]; [column.rs], [schema.rs], [row.rs],
      [error.rs]). [Api]: the conversions of [value.rs], [id.rs], and blitz-api's router.

    The engine
    - [Core]: blitz-core/table.rs, refined against a table that keeps no index.
    - [Index]: the hash and B-tree indexes of blitz-index and blitz-core/index.rs, behind
      one class, [Postings].
    - [Store]: blitz-memory, blitz-table, blitz-core/pool.rs.
    - [Query]: blitz-query. [FullText]: blitz-search.

    Transactions and durability
    - [Tx]: blitz-tx, a call at a time; [TxConc]: the same manager with its stripe locks,
      threads interleaving at every atomic step, over the class [RowStore] of stores.
    - [Wal], [Snapshot]: blitz-wal and blitz-snapshot, with crashes that keep any prefix of
      what was not synced. [GroupCommit], [Durability], [Rotation]:
      blitz-server/durability.rs, its commit thread, its recovery, and what is around the
      logs: the bridge and the cluster, polling, the offline rotation.
    - [Recovery]: blitz-storage/recovery.rs, the storage crate's own recovery.

    The server
    - [Policy]: blitz-auth and blitz-policy. [Shard], [Admission], [Changes], [Server]:
      blitz-server/server.rs and social.rs. [Jobs], [Wasm]: blitz-jobs, its queue and
      manager, and the sandboxed call of executor.rs. [Runtime], [Deploy]: blitz-runtime.
      [Text]: the texts of errors. [Metrics]: the metrics page of server.rs, and
      blitz-observability.
    - [Codec]: blitz-protocol. [Window], [Dispatch]: blitz-server/transport.rs, the window of
      a scan and the dispatch of requests; [Serving]: what they guarantee together;
      [Session]: [handle_stream], a connection from its arrival to its end.
    - [Feed]: fan-out worker, push and event streams. [Bridge]: http_bridge.rs. [Http]:
      the HTTP half of transport.rs.
    - [Streams]: blitz-events, blitz-realtime, and the server's observed writes.

    Around the server
    - [Client]: blitz-client. [Cluster]: blitz-cluster and blitz-replication.
    - blitz-cli: [Compat] (templates and their resolver), [Bundle] (build.rs), [Generate]
      (the code generator), [Install] (install.rs), [Dev] (dev.rs), [Cli] (main.rs).

    ** How code is read

    A struct is a Record, an enum an Inductive, a handler one function from a state to an
    answer and a state. [&mut self] under a lock that is held from start to end is one
    transition. Where locks are taken apart, or atomics retried, the steps are steps of a
    relation and interleave freely: [TxConc.cstep], [GroupCommit.gc_step],
    [Admission.adm_step], and the races at the end of [Changes]. Integers are [Z] with
    their wrap-around written out ([wrap], [sign]); a release build's overflow is meant.
    Strings are bytes. [result] is [Result]; a panic of a task is [None] or a constructor
    of its own. A [HashMap] whose iteration order shows is iterated by an arbitrary
    enumeration, of which only that it is a permutation is assumed ([MapOrder], [RowOrder],
    [StoreOrder], [EnumOrder] and the like), one for each kind of map.

    Code outside the repository is a class of operations with a class of the documented
    laws that a theorem needs, and every theorem with such laws is applied to a concrete
    instance: [serde_json] and its text, [chrono], [uuid], [base64], [bincode], [crc32fast],
    [semver], wasmtime's guests, the Unicode tables, the directory order of the file
    system, tokio's channels.

    ** What is shown

    - The engine: an indexed table answers what a table without indexes answers
      ([Core.table_refines_scan]), unique columns stay unique, indexes are the pairs put
      into them ([Index]).
    - Transactions: conflicts are reported exactly ([Tx.commit_conflict_iff]), no update is
      lost, and under interleaving reads hold until commit, rows torn by a commit that failed
      half-way excepted, and commits never deadlock and give their locks back.
    - Durability: a crash loses nothing synced, wherever it cuts the log
      ([Wal.crash_keeps_synced]), recovery rebuilds the engine that was
      ([Durability.recover_after_crash]), group commit keeps order, replacing a snapshot is
      atomic, rotating the logs offline loses nothing.
    - Serving: each operation's outcome on every branch, row ownership, authorization that
      denies by default, atomic batches, that procedures cannot escalate, that a guest is
      contained, that the fast path and the HTTP bridge answer what dispatch answers.
    - The wire: messages read back as they were written; a connection serves every frame
      of the reads it accepts, however they cut the frames, closes at the first read that
      does not fit, and gives its slot back; decoding is total and what is decoded is well
      formed.
    - Feeds and observers: change history, fan-out, event streams, subscriber filters,
      deltas.
    - The client: each call gets one reply, only repeatable calls are resent, a resent
      insert is applied once - proved against the server's handler.
    - Around: full-text search, templates (what is pinned was checked, the bundle is the
      directory it was built from), generated names, that only a verified release is
      installed, that a watched directory leaves the last valid save deployed.

    ** Bounds and fuel

    Fuel stands only where the source loops over bytes or queues, and is always computed
    from the input (the length of what is left to read, the number of queued commands), so
    that running out is impossible; the round trips, [Wal.crash_keeps_synced],
    [Serving.staging_is_bounded] and [Client.every_call_answered_once] contain that fact, and
    [Rotation.flush_all_ends] proves it of the loop that waits for the logs. The fuel of
    procedures and jobs is the program's own budget. Constants (frame limit,
    history and fan-out caps, pool sizes) are the source's.

    ** Not modelled

    Sockets, TLS, listeners and tokio's scheduler (a connection is what its socket yields);
    input/output errors other than an early end of file, a failed read and a failed write
    of an installed file; poisoned locks; log lines and the printing of the command line;
    wasmtime's execution of a guest, [curl] and SHA-256; the parsing of arguments and the
    timers of main.rs; the Windows registry that install.rs edits; clients in other
    languages, benchmarks, examples and tests. A request handler runs without another
    connection's engine calls in between, except where a file says otherwise; what
    interleaving can add is in [TxConc], [GroupCommit], [Admission] and [Changes].
    [serde_json] is taken to read back the integers and strings it wrote, not floats. *)
From Stdlib Require Export ZArith Lia Strings.Byte.
From stdpp Require Export base tactics option list gmap strings sorting.

Create HintDb blitz.

(** ** Results of fallible code: Rust's [Result<A, E>] *)

Inductive result (E A : Type) : Type :=
| Ok (a : A)
| Err (e : E).
Arguments Ok {E A} a.
Arguments Err {E A} e.

#[export] Instance result_ret {E} : MRet (result E) := fun A a => Ok a.
#[export] Instance result_bind {E} : MBind (result E) := fun A B f r =>
  match r with Ok a => f a | Err e => Err e end.
#[export] Instance result_fmap {E} : FMap (result E) := fun A B f r =>
  match r with Ok a => Ok (f a) | Err e => Err e end.
#[export] Instance result_eq_dec {E A} `{EqDecision E, EqDecision A} :
  EqDecision (result E A).
Proof. solve_decision. Defined.

(** [r.map_err(f)] *)
Definition map_err {E F A} (f : E → F) (r : result E A) : result F A :=
  match r with Ok a => Ok a | Err e => Err (f e) end.

(** [r.ok()] *)
Definition ok {E A} (r : result E A) : option A :=
  match r with Ok a => Some a | Err _ => None end.

(** [o.ok_or(e)] *)
Definition ok_or {E A} (o : option A) (e : E) : result E A :=
  match o with Some a => Ok a | None => Err e end.

Definition is_ok {E A} (r : result E A) : bool :=
  match r with Ok _ => true | Err _ => false end.

Lemma result_bind_Ok {E A B} (r : result E A) (f : A → result E B) b :
  r ≫= f = Ok b ↔ ∃ a, r = Ok a ∧ f a = Ok b.
Proof.
  destruct r as [a|e']; unfold mbind; simpl; split.
  - intros. eauto.
  - intros (? & [= ->] & ?). done.
  - done.
  - intros (? & ? & ?). done.
Qed.

Lemma result_bind_Err {E A B} (r : result E A) (f : A → result E B) e :
  r ≫= f = Err e ↔ r = Err e ∨ ∃ a, r = Ok a ∧ f a = Err e.
Proof.
  destruct r as [a|e']; unfold mbind; simpl; split.
  - intros. right. eauto.
  - intros [?|(? & ? & ?)]; naive_solver.
  - intros [= ->]. by left.
  - intros [[= ->]|(? & ? & ?)]; naive_solver.
Qed.

Lemma ok_or_Ok {E A} (o : option A) (e : E) a : ok_or o e = Ok a ↔ o = Some a.
Proof. destruct o; naive_solver. Qed.

Lemma map_err_Ok {E F A} (f : E → F) (r : result E A) a :
  map_err f r = Ok a ↔ r = Ok a.
Proof. destruct r; naive_solver. Qed.

(** Names the parts of a triple whose first component is known to be [Ok],
    without evaluating the triple. *)
Lemma triple_ok {E A B C} (x : result E A * B * C) :
  is_ok x.1.1 = true → ∃ a b c, x = (Ok a, b, c).
Proof. destruct x as [[[a|e] b] c]; [eauto|done]. Qed.

(** ** Machine integers, as [Z] with their width written out *)

Local Open Scope Z_scope.

(** An unsigned operation of [w] bits keeps its result modulo [2^w] (Rust's
    release profile; the debug profile panics instead). *)
Definition wrap (w z : Z) : Z := z mod 2 ^ w.

(** Two's complement reinterpretation of the low [w] bits. *)
Definition sign (w z : Z) : Z :=
  let u := z mod 2 ^ w in if u <? 2 ^ (w - 1) then u else u - 2 ^ w.

Definition is_uint (w z : Z) : bool := (0 <=? z) && (z <? 2 ^ w).
Definition is_sint (w z : Z) : bool := (- 2 ^ (w - 1) <=? z) && (z <? 2 ^ (w - 1)).

Definition u64_max : Z := 2 ^ 64 - 1.

Lemma is_uint_spec w z : is_uint w z = true ↔ 0 <= z < 2 ^ w.
Proof. unfold is_uint. rewrite andb_true_iff, Z.leb_le, Z.ltb_lt. tauto. Qed.

Lemma is_sint_spec w z : is_sint w z = true ↔ - 2 ^ (w - 1) <= z < 2 ^ (w - 1).
Proof. unfold is_sint. rewrite andb_true_iff, Z.leb_le, Z.ltb_lt. tauto. Qed.

Lemma wrap_small w z : 0 <= z < 2 ^ w → wrap w z = z.
Proof. intros. by apply Z.mod_small. Qed.

Lemma wrap_range w z : 0 <= w → 0 <= wrap w z < 2 ^ w.
Proof. intros. apply Z.mod_pos_bound. lia. Qed.

Lemma pow2_half w : 0 < w → 2 ^ w = 2 * 2 ^ (w - 1).
Proof. intros. rewrite <- Z.pow_succ_r by lia. f_equal. lia. Qed.

Lemma sign_mod w z : 0 < w → is_sint w z = true → sign w (z mod 2 ^ w) = z.
Proof.
  intros Hw [H1 H2]%is_sint_spec. unfold sign. rewrite Z.mod_mod by lia.
  pose proof (pow2_half w Hw). pose proof (Z.pow_pos_nonneg 2 (w - 1)).
  destruct (decide (0 <= z)).
  - rewrite Z.mod_small by lia. case_match; lia.
  - rewrite <- (Z.mod_unique z (2 ^ w) (-1) (z + 2 ^ w)) by lia.
    case_match; lia.
Qed.

Lemma sign_range w z : 0 < w → is_sint w (sign w z) = true.
Proof.
  intros Hw. apply is_sint_spec. unfold sign.
  pose proof (pow2_half w Hw). pose proof (Z.pow_pos_nonneg 2 (w - 1)).
  pose proof (Z.mod_pos_bound z (2 ^ w)). case_match; lia.
Qed.

(** ** Bytes and little-endian integers *)

Definition byte_Z (b : byte) : Z := Z.of_N (Byte.to_N b).
Definition Z_byte (z : Z) : byte := default x00 (Byte.of_N (Z.to_N (z mod 256))).

#[export] Instance byte_eq_dec : EqDecision byte := Byte.byte_eq_dec.
#[export] Program Instance byte_countable : Countable byte :=
  inj_countable Byte.to_N Byte.of_N Byte.of_to_N.

(** [u8::to_ascii_lowercase] *)
Definition ascii_lower (b : byte) : byte :=
  let z := byte_Z b in if (65 <=? z) && (z <=? 90) then Z_byte (z + 32) else b.

Lemma byte_Z_range b : 0 <= byte_Z b < 256.
Proof.
  unfold byte_Z. pose proof (Byte.to_N_bounded b). lia.
Qed.

Lemma Z_byte_Z b : Z_byte (byte_Z b) = b.
Proof.
  unfold Z_byte. rewrite Z.mod_small by apply byte_Z_range.
  unfold byte_Z. rewrite N2Z.id, Byte.of_to_N. done.
Qed.

Lemma byte_Z_byte z : byte_Z (Z_byte z) = z mod 256.
Proof.
  unfold Z_byte, byte_Z. pose proof (Z.mod_pos_bound z 256).
  destruct (Byte.of_N (Z.to_N (z mod 256))) as [b|] eqn:E; simpl.
  - apply Byte.to_of_N in E. rewrite E. lia.
  - apply Byte.of_N_None_iff in E. lia.
Qed.

Lemma byte_Z_inj a b : byte_Z a = byte_Z b → a = b.
Proof. intros H. rewrite <- (Z_byte_Z a), H. apply Z_byte_Z. Qed.

(** [z.to_le_bytes()] for an [n]-byte integer. *)
Fixpoint le_bytes (n : nat) (z : Z) : list byte :=
  match n with
  | O => []
  | S n => Z_byte z :: le_bytes n (z / 256)
  end.

(** [uN::from_le_bytes(l)] *)
Fixpoint le_val (l : list byte) : Z :=
  match l with
  | [] => 0
  | b :: l => byte_Z b + 256 * le_val l
  end.

Lemma length_le_bytes n z : length (le_bytes n z) = n.
Proof. revert z. induction n; intros; simpl; auto. Qed.

Lemma pow256_S n : 256 ^ Z.of_nat (S n) = 256 * 256 ^ Z.of_nat n.
Proof. rewrite Nat2Z.inj_succ, Z.pow_succ_r by lia. done. Qed.

Lemma le_val_range l : 0 <= le_val l < 256 ^ Z.of_nat (length l).
Proof.
  induction l as [|b l IH]; simpl length; [simpl; lia|].
  rewrite pow256_S. simpl le_val. pose proof (byte_Z_range b). lia.
Qed.

Lemma le_val_le_bytes n z : le_val (le_bytes n z) = z mod 256 ^ Z.of_nat n.
Proof.
  revert z. induction n as [|n IH]; intros z.
  - simpl. by rewrite Z.mod_1_r.
  - rewrite pow256_S. simpl le_bytes. simpl le_val.
    rewrite IH, byte_Z_byte. rewrite Z.rem_mul_r by lia. lia.
Qed.

Lemma le_bytes_le_val l : le_bytes (length l) (le_val l) = l.
Proof.
  induction l as [|b l IH]; simpl; [done|].
  pose proof (byte_Z_range b).
  replace ((byte_Z b + 256 * le_val l) / 256) with (le_val l)
    by (rewrite Z.mul_comm, Z.div_add, Z.div_small by lia; lia).
  rewrite IH. f_equal. rewrite <- (Z_byte_Z b) at 2. unfold Z_byte.
  do 3 f_equal. rewrite Z.mul_comm, Z.mod_add by lia. done.
Qed.

Lemma le_bytes_inj n a b :
  0 <= a < 256 ^ Z.of_nat n → 0 <= b < 256 ^ Z.of_nat n →
  le_bytes n a = le_bytes n b → a = b.
Proof.
  intros Ha Hb H. apply (f_equal le_val) in H.
  rewrite !le_val_le_bytes, !Z.mod_small in H by done. done.
Qed.

(** ** Three-way comparisons: the contract of Rust's [Ord::cmp] *)

(** [f] behaves as a total preorder around [x]: reflexive, antisymmetric in
    the sense of [reverse], transitive, and equal elements compare alike. *)
Record cmp_at {A} (f : A → A → comparison) (x : A) : Prop := {
  cmp_at_refl : f x x = Eq;
  cmp_at_anti : ∀ y, f y x = CompOpp (f x y);
  cmp_at_eq : ∀ y z, f x y = Eq → f x z = f y z;
  cmp_at_lt : ∀ y z, f x y = Lt → f y z ≠ Gt → f x z = Lt;
  cmp_at_gt : ∀ y z, f x y = Gt → f y z ≠ Lt → f x z = Gt
}.

Definition total_cmp {A} (f : A → A → comparison) : Prop := ∀ x, cmp_at f x.

(** A comparison that agrees with an integer key is total. *)
Lemma total_cmp_key {A} (f : A → A → comparison) (k : A → Z) :
  (∀ x y, f x y = (k x ?= k y)) → total_cmp f.
Proof.
  intros E x. split; intros *; rewrite !E;
    rewrite ?Z.compare_lt_iff, ?Z.compare_gt_iff, ?Z.compare_eq_iff, ?Z.compare_ge_iff,
      ?Z.compare_le_iff; try lia.
  - by rewrite Z.compare_antisym.
  - by intros ->.
Qed.

Lemma total_cmp_Z : total_cmp Z.compare.
Proof. by apply (total_cmp_key _ id). Qed.
Lemma total_cmp_bool : total_cmp Bool.compare.
Proof. apply (total_cmp_key _ Z.b2z). by intros [] []. Qed.
Lemma total_cmp_nat : total_cmp Nat.compare.
Proof. apply (total_cmp_key _ Z.of_nat). intros. symmetry. apply Nat2Z.inj_compare. Qed.
Lemma total_cmp_map {A B} (g : B → A) (f : A → A → comparison) :
  total_cmp f → total_cmp (λ x y, f (g x) (g y)).
Proof. intros T x. destruct (T (g x)); split; eauto. Qed.

#[export] Hint Resolve total_cmp_Z total_cmp_bool total_cmp_nat total_cmp_map : blitz.

(** ** Filters *)

Lemma filter_fmap {A B} (f : A → B) (Q : B → Prop) `{∀ x, Decision (Q x)} (l : list A) :
  filter Q (f <$> l) = f <$> filter (λ x, Q (f x)) l.
Proof.
  induction l as [|x l IH]; [done|]. rewrite fmap_cons, !filter_cons, IH. by case_decide.
Qed.

Lemma map_to_list_filter {A} (P : string * A → Prop) `{∀ x, Decision (P x)} (m : gmap string A) :
  map_to_list (filter P m) ≡ₚ filter P (map_to_list m).
Proof.
  rewrite map_filter_alt, map_to_list_to_map; [done|].
  apply (sublist_NoDup _ (map_to_list m).*1); [apply NoDup_fst_map_to_list|].
  apply fmap_sublist, sublist_filter.
Qed.

Lemma NoDup_singleton_or_nil {A} (x : A) (l : list A) :
  NoDup l → (∀ y, y ∈ l → y = x) → l = [] ∨ l = [x].
Proof.
  intros N E. destruct l as [|y [|z l]]; [by left|right; f_equal; apply E; left|]. exfalso.
  assert (y = x) as -> by (apply E; left). assert (z = x) as -> by (apply E; right; left).
  apply NoDup_cons in N as [N _]. apply N. left.
Qed.
