(* ===== verification/Float.v ===== *)
(** IEEE-754 numbers as the source sees them: a [f32]/[f64] is its bit pattern
    ([f.to_bits()]), read through the Standard Library's [SpecFloat]. The wire
    codec and [Ord for Value] use the bits; [PartialEq] and arithmetic use the
    numeric reading. *)
From Stdlib Require Import Floats.SpecFloat.
From S2P Require Import Prelude.

Local Open Scope Z_scope.

(** A binary format: [ew] exponent bits, [mw] mantissa bits. *)
Record fmt : Type := Fmt { ew : Z; mw : Z }.
Definition F32 : fmt := Fmt 8 23.
Definition F64 : fmt := Fmt 11 52.

Definition f_width (F : fmt) : Z := 1 + ew F + mw F.
Definition f_prec (F : fmt) : Z := mw F + 1.
Definition f_emax (F : fmt) : Z := 2 ^ (ew F - 1).
Definition f_emin (F : fmt) : Z := 3 - f_emax F - f_prec F.

Definition f_sign (F : fmt) (b : Z) : bool := 2 ^ (ew F + mw F) <=? b.
Definition f_exp (F : fmt) (b : Z) : Z := (b / 2 ^ mw F) mod 2 ^ ew F.
Definition f_man (F : fmt) (b : Z) : Z := b mod 2 ^ mw F.

(** [f.is_nan()] and [f == 0.0], on the bits. *)
Definition f_is_nan (F : fmt) (b : Z) : bool :=
  (f_exp F b =? 2 ^ ew F - 1) && negb (f_man F b =? 0).
Definition f_is_zero (F : fmt) (b : Z) : bool :=
  (f_exp F b =? 0) && (f_man F b =? 0).

(** [a == b] on floats: NaN differs from everything, the zeros are equal. *)
Definition f_eqb (F : fmt) (a b : Z) : bool :=
  negb (f_is_nan F a) && negb (f_is_nan F b) &&
  ((a =? b) || (f_is_zero F a && f_is_zero F b)).

(** The number a bit pattern denotes. *)
Definition f_decode (F : fmt) (b : Z) : spec_float :=
  let s := f_sign F b in
  let e := f_exp F b in
  let m := f_man F b in
  if e =? 2 ^ ew F - 1 then (if m =? 0 then S754_infinity s else S754_nan)
  else if e =? 0 then
    (if m =? 0 then S754_zero s else S754_finite s (Z.to_pos m) (f_emin F))
  else S754_finite s (Z.to_pos (m + 2 ^ mw F)) (e + f_emin F - 1).

(** The bit pattern of a canonical number (NaN: the quiet NaN). *)
Definition f_encode (F : fmt) (x : spec_float) : Z :=
  let sgn (s : bool) := if s then 2 ^ (ew F + mw F) else 0 in
  match x with
  | S754_zero s => sgn s
  | S754_infinity s => sgn s + (2 ^ ew F - 1) * 2 ^ mw F
  | S754_nan => (2 ^ ew F - 1) * 2 ^ mw F + 2 ^ (mw F - 1)
  | S754_finite s m e =>
      if Zpos m <? 2 ^ mw F then sgn s + Zpos m
      else sgn s + (e - f_emin F + 1) * 2 ^ mw F + (Zpos m - 2 ^ mw F)
  end.

Definition f64_add (a b : Z) : Z :=
  f_encode F64 (SFadd (f_prec F64) (f_emax F64) (f_decode F64 a) (f_decode F64 b)).
Definition f64_div (a b : Z) : Z :=
  f_encode F64 (SFdiv (f_prec F64) (f_emax F64) (f_decode F64 a) (f_decode F64 b)).
(** [n as f64] for an integer. *)
Definition f64_of_Z (n : Z) : Z :=
  f_encode F64 (binary_normalize (f_prec F64) (f_emax F64) n 0 false).
(** [x as f64] for an [f32]. *)
Definition f64_of_f32 (b : Z) : Z :=
  match f_decode F32 b with
  | S754_finite s m e =>
      f_encode F64 (binary_normalize (f_prec F64) (f_emax F64)
                      (if s then Zneg m else Zpos m) e s)
  | x => f_encode F64 x
  end.

(** Numeric comparison ([a.partial_cmp(&b)]). *)
Definition f_compare (F : fmt) (a b : Z) : option comparison :=
  SFcompare (f_decode F a) (f_decode F b).

Example f64_of_Z_3 : f64_of_Z 3 = 0x4008000000000000.
Proof. vm_compute. reflexivity. Qed.
Example f64_add_ex : f64_add (f64_of_Z 3) (f64_of_Z (-5)) = f64_of_Z (-2).
Proof. vm_compute. reflexivity. Qed.
Example f64_div_ex : f64_div (f64_of_Z 1) (f64_of_Z 2) = 0x3FE0000000000000.
Proof. vm_compute. reflexivity. Qed.
Example f32_ex : f64_of_f32 0x3FC00000 = 0x3FF8000000000000.
Proof. vm_compute. reflexivity. Qed.

(** ** Facts *)

Lemma f_eqb_refl F b : f_eqb F b b = negb (f_is_nan F b).
Proof. unfold f_eqb. rewrite Z.eqb_refl. by destruct (f_is_nan F b). Qed.

Lemma f_eqb_bits F a b : f_eqb F a b = true → a = b ∨ (f_is_zero F a = true ∧ f_is_zero F b = true).
Proof.
  unfold f_eqb. rewrite !andb_true_iff, orb_true_iff, andb_true_iff, Z.eqb_eq. naive_solver.
Qed.

(** The fields of a pattern determine it. *)
Lemma f_split F b :
  0 <= ew F → 0 <= mw F → 0 <= b < 2 ^ f_width F →
  b = (if f_sign F b then 2 ^ (ew F + mw F) else 0) + f_exp F b * 2 ^ mw F + f_man F b.
Proof.
  intros He Hm Hb. unfold f_width, f_sign, f_exp, f_man in *.
  pose proof (Z.div_mod b (2 ^ mw F)) as D.
  pose proof (Z.pow_pos_nonneg 2 (mw F)). pose proof (Z.pow_pos_nonneg 2 (ew F)).
  assert (2 ^ (1 + ew F + mw F) = 2 * (2 ^ ew F * 2 ^ mw F)) as E1.
  { rewrite <- Z.pow_add_r by lia. rewrite <- Z.pow_succ_r by lia. f_equal. lia. }
  assert (2 ^ (ew F + mw F) = 2 ^ ew F * 2 ^ mw F) as E2 by (apply Z.pow_add_r; lia).
  rewrite E2. rewrite E1 in Hb.
  pose proof (Z.mod_pos_bound b (2 ^ mw F)).
  set (q := b / 2 ^ mw F) in *.
  destruct (Z.leb_spec (2 ^ ew F * 2 ^ mw F) b).
  - assert (2 ^ ew F <= q < 2 * 2 ^ ew F) by nia.
    rewrite <- (Z.mod_unique q (2 ^ ew F) 1 (q - 2 ^ ew F)) by lia. nia.
  - assert (0 <= q < 2 ^ ew F) by nia. rewrite Z.mod_small by lia. nia.
Qed.

(** For two non-negative, non-NaN patterns the order of the bits is the
    numeric order. *)
Lemma f_compare_pos F a b :
  0 < ew F → 0 < mw F →
  0 <= a < 2 ^ (ew F + mw F) → 0 <= b < 2 ^ (ew F + mw F) →
  f_is_nan F a = false → f_is_nan F b = false →
  f_compare F a b = Some (a ?= b).
Proof.
  intros He Hm Ha Hb Na Nb.
  assert (forall c, 0 <= c < 2 ^ (ew F + mw F) → f_sign F c = false) as Hs.
  { intros c Hc. unfold f_sign. apply Z.leb_gt. lia. }
  assert (2 ^ f_width F = 2 * 2 ^ (ew F + mw F)) as Ew.
  { unfold f_width. rewrite <- Z.pow_succ_r by lia. f_equal. lia. }
  pose proof (f_split F a) as Sa. pose proof (f_split F b) as Sb.
  rewrite (Hs a Ha) in Sa. rewrite (Hs b Hb) in Sb.
  specialize (Sa ltac:(lia) ltac:(lia) ltac:(lia)).
  specialize (Sb ltac:(lia) ltac:(lia) ltac:(lia)).
  unfold f_compare, f_decode. rewrite (Hs a Ha), (Hs b Hb).
  unfold f_is_nan in *.
  assert (0 <= f_man F a < 2 ^ mw F) by (apply Z.mod_pos_bound; lia).
  assert (0 <= f_man F b < 2 ^ mw F) by (apply Z.mod_pos_bound; lia).
  assert (0 <= f_exp F a < 2 ^ ew F) by (apply Z.mod_pos_bound; lia).
  assert (0 <= f_exp F b < 2 ^ ew F) by (apply Z.mod_pos_bound; lia).
  set (ea := f_exp F a) in *. set (eb := f_exp F b) in *.
  set (ma := f_man F a) in *. set (mb := f_man F b) in *.
  assert (1 < 2 ^ ew F) by (apply Z.pow_gt_1; lia).
  assert (∀ x y : Z, x < y → (x ?= y) = Lt) as CL by (intros; by apply Z.compare_lt_iff).
  assert (∀ x y : Z, y < x → (x ?= y) = Gt) as CG by (intros; by apply Z.compare_gt_iff).
  assert (∀ x y : Z, 0 < x → 0 < y → Pos.compare_cont Eq (Z.to_pos x) (Z.to_pos y) = (x ?= y)) as CP.
  { intros x y ? ?. destruct x, y; try lia; reflexivity. }
  destruct (ea =? 2 ^ ew F - 1) eqn:Xa; destruct (eb =? 2 ^ ew F - 1) eqn:Xb;
    destruct (ma =? 0) eqn:Ya; destruct (mb =? 0) eqn:Yb; try discriminate;
    try (destruct (ea =? 0) eqn:Za); try (destruct (eb =? 0) eqn:Zb);
    rewrite ?Z.eqb_eq, ?Z.eqb_neq in *; simpl SFcompare; try (f_equal; symmetry).
  all: try (apply CL; nia). all: try (apply CG; nia).
  all: try (apply Z.compare_eq_iff; nia).
  all: try (destruct (Z.compare_spec (ea + f_emin F - 1) (eb + f_emin F - 1)));
       try (destruct (Z.compare_spec (f_emin F) (eb + f_emin F - 1)));
       try (destruct (Z.compare_spec (ea + f_emin F - 1) (f_emin F)));
       rewrite ?Z.compare_refl, ?CP by lia; try lia;
       try (apply CL; nia); try (apply CG; nia).
  all: destruct (Z.compare_spec a b);
       [ try (symmetry; apply Z.compare_eq_iff; nia)
       | symmetry; apply CL; nia | symmetry; apply CG; nia ].
Qed.

(** Setting the sign bit negates the number. *)
Lemma f_decode_neg F a :
  0 < ew F → 0 < mw F → 0 <= a < 2 ^ (ew F + mw F) →
  f_decode F (a + 2 ^ (ew F + mw F)) = SFopp (f_decode F a).
Proof.
  intros He Hm Ha. unfold f_decode.
  assert (2 ^ (ew F + mw F) = 2 ^ ew F * 2 ^ mw F) as E by (apply Z.pow_add_r; lia).
  pose proof (Z.pow_pos_nonneg 2 (mw F)). pose proof (Z.pow_pos_nonneg 2 (ew F)).
  assert (f_exp F (a + 2 ^ (ew F + mw F)) = f_exp F a) as ->.
  { unfold f_exp. rewrite E, Z.div_add by lia.
    replace (a / 2 ^ mw F + 2 ^ ew F) with (a / 2 ^ mw F + 1 * 2 ^ ew F) by lia.
    by rewrite Z.mod_add by lia. }
  assert (f_man F (a + 2 ^ (ew F + mw F)) = f_man F a) as ->.
  { unfold f_man. by rewrite E, Z.mod_add by lia. }
  assert (f_sign F (a + 2 ^ (ew F + mw F)) = true) as -> by (apply Z.leb_le; lia).
  assert (f_sign F a = false) as -> by (apply Z.leb_gt; lia).
  repeat case_match; reflexivity.
Qed.

Lemma SFcompare_opp x y :
  SFcompare (SFopp x) (SFopp y) = CompOpp <$> SFcompare x y.
Proof.
  destruct x as [[]|[]| |[] m e], y as [[]|[]| |[] m' e']; simpl; try done;
    rewrite (Z.compare_antisym e e') || idtac; destruct (Z.compare_spec e e'); simpl; try done.
  all: change (Pos.compare_cont Eq m m') with (Pos.compare m m'); destruct (Pos.compare_spec m m'); done.
Qed.

(** A non-negative, non-NaN pattern denotes zero, infinity or a positive
    finite number. *)
Lemma f_decode_pos F c :
  0 < ew F → 0 < mw F → 0 <= c < 2 ^ (ew F + mw F) → f_is_nan F c = false →
  (c = 0 ∧ f_decode F c = S754_zero false) ∨
  (0 < c ∧ (f_decode F c = S754_infinity false ∨ ∃ m e, f_decode F c = S754_finite false m e)).
Proof.
  intros He Hm Hc Nc. assert (f_sign F c = false) as Hs by (apply Z.leb_gt; lia).
  pose proof (f_split F c) as S.
  assert (2 ^ f_width F = 2 * 2 ^ (ew F + mw F)) as Ew.
  { unfold f_width. rewrite <- Z.pow_succ_r by lia. f_equal. lia. }
  specialize (S ltac:(lia) ltac:(lia) ltac:(lia)). rewrite Hs in S.
  pose proof (Z.pow_pos_nonneg 2 (mw F)). pose proof (Z.pow_pos_nonneg 2 (ew F)).
  assert (0 <= f_man F c < 2 ^ mw F) by (apply Z.mod_pos_bound; lia).
  assert (0 <= f_exp F c < 2 ^ ew F) by (apply Z.mod_pos_bound; lia).
  assert (1 < 2 ^ ew F) by (apply Z.pow_gt_1; lia).
  unfold f_decode, f_is_nan in *. rewrite Hs.
  destruct (f_exp F c =? 2 ^ ew F - 1) eqn:X, (f_man F c =? 0) eqn:Y,
    (f_exp F c =? 0) eqn:W; rewrite ?Z.eqb_eq, ?Z.eqb_neq in *; try done;
    first [ left; split; [nia|done] | right; split; [nia|eauto] ].
Qed.

(** A number with the sign bit is at most one without it. *)
Lemma f_compare_neg_pos F a b :
  0 < ew F → 0 < mw F → 0 <= a < 2 ^ (ew F + mw F) → 0 <= b < 2 ^ (ew F + mw F) →
  f_is_nan F a = false → f_is_nan F b = false →
  f_compare F (a + 2 ^ (ew F + mw F)) b =
    Some (if (a =? 0) && (b =? 0) then Eq else Lt).
Proof.
  intros He Hm Ha Hb Na Nb. unfold f_compare. rewrite f_decode_neg by done.
  destruct (f_decode_pos F a He Hm Ha Na) as [[-> ->]|[? D]];
    destruct (f_decode_pos F b He Hm Hb Nb) as [[-> ->]|[? D']];
    repeat match goal with
    | D : _ ∨ _ |- _ => destruct D as [->|(? & ? & ->)]
    end; simpl; try done;
    repeat first [ rewrite (proj2 (Z.eqb_neq a 0)) by lia
                 | rewrite (proj2 (Z.eqb_neq b 0)) by lia ]; done.
Qed.

(** Two numbers with the sign bit compare in the reverse order of their
    magnitudes. *)
Lemma f_compare_neg_neg F a b :
  0 < ew F → 0 < mw F → 0 <= a < 2 ^ (ew F + mw F) → 0 <= b < 2 ^ (ew F + mw F) →
  f_is_nan F a = false → f_is_nan F b = false →
  f_compare F (a + 2 ^ (ew F + mw F)) (b + 2 ^ (ew F + mw F)) = Some (b ?= a).
Proof.
  intros He Hm Ha Hb Na Nb. unfold f_compare.
  rewrite !f_decode_neg, SFcompare_opp by done.
  pose proof (f_compare_pos F a b He Hm Ha Hb Na Nb) as E. unfold f_compare in E.
  rewrite E. simpl. by rewrite <- Z.compare_antisym.
Qed.
