(* ===== verification/Value.v ===== *)
(** [blitz-types/src/value.rs]: the dynamically typed value, its equality
    ([PartialEq]), its order ([Ord]), what [Hash] feeds to a hasher, and the
    scalar conversions. *)
From S2P Require Import Prelude Float.

Local Open Scope Z_scope.

(** ** Data *)

(** [serde_json::Number] without [arbitrary_precision]: a non-negative
    integer, a negative integer, or a finite [f64] (its bits). *)
Inductive json_num : Type :=
| PosInt (n : Z)
| NegInt (n : Z)
| JFloat (bits : Z).

(** [serde_json::Value]; an object is a [BTreeMap], here its entries in key
    order. *)
Inductive json : Type :=
| JNull
| JBool (b : bool)
| JNumber (n : json_num)
| JString (s : string)
| JArray (items : list json)
| JObject (entries : list (string * json)).

(** [Value]. Integers are [Z] at their width (see [value_okb] of [Codec]); floats are bit
    patterns; a [Uuid] is its 16 bytes, a [DateTime<Utc>] its nanoseconds
    since the epoch, a [NaiveDate] its day number counted from 0001-01-01. *)
Inductive value : Type :=
| VBoolean (b : bool)
| VInt8 (n : Z)
| VInt16 (n : Z)
| VInt32 (n : Z)
| VInt64 (n : Z)
| VUInt8 (n : Z)
| VUInt16 (n : Z)
| VUInt32 (n : Z)
| VUInt64 (n : Z)
| VFloat32 (bits : Z)
| VFloat64 (bits : Z)
| VDecimal (s : string)
| VString (s : string)
| VBytes (b : list byte)
| VUuid (u : list byte)
| VTimestamp (t : Z)
| VDate (d : Z)
| VJson (j : json)
| VArray (items : list value)
| VNull.

(** ** Induction principles that see through the nested lists *)

Section json_induction.
Context (P : json → Prop).
Context (Hnull : P JNull) (Hbool : ∀ b, P (JBool b)) (Hnum : ∀ n, P (JNumber n))
  (Hstr : ∀ s, P (JString s))
  (Harr : ∀ l, Forall P l → P (JArray l))
  (Hobj : ∀ m, Forall (λ kv, P kv.2) m → P (JObject m)).

Fixpoint json_nested_ind (j : json) : P j :=
  match j with
  | JNull => Hnull
  | JBool b => Hbool b
  | JNumber n => Hnum n
  | JString s => Hstr s
  | JArray l => Harr l
      ((fix go l : Forall P l :=
          match l with
          | [] => Forall_nil_2 P
          | x :: l => Forall_cons_2 P x l (json_nested_ind x) (go l)
          end) l)
  | JObject m => Hobj m
      ((fix go m : Forall (λ kv, P kv.2) m :=
          match m with
          | [] => Forall_nil_2 _
          | kv :: m => Forall_cons_2 _ kv m (json_nested_ind kv.2) (go m)
          end) m)
  end.
End json_induction.

Section value_induction.
Context (P : value → Prop).
Context (Harr : ∀ l, Forall P l → P (VArray l)).
Context (Hleaf : ∀ v, (∀ l, v ≠ VArray l) → P v).

Fixpoint value_nested_ind (v : value) : P v :=
  match v with
  | VArray l => Harr l
      ((fix go l : Forall P l :=
          match l with
          | [] => Forall_nil_2 P
          | x :: l => Forall_cons_2 P x l (value_nested_ind x) (go l)
          end) l)
  | v => Hleaf v ltac:(done)
  end.
End value_induction.

(** ** Decidable equality and countability, by an encoding into trees *)

Abbreviation tree := (gen_tree (Z + (string + list byte))).

Definition leafZ (z : Z) : tree := GenLeaf (inl z).
Definition leafS (s : string) : tree := GenLeaf (inr (inl s)).
Definition leafB (b : list byte) : tree := GenLeaf (inr (inr b)).

Fixpoint json_tree (j : json) : tree :=
  match j with
  | JNull => GenNode 0 []
  | JBool b => GenNode 1 [leafZ (Z.b2z b)]
  | JNumber (PosInt n) => GenNode 2 [leafZ n]
  | JNumber (NegInt n) => GenNode 3 [leafZ n]
  | JNumber (JFloat n) => GenNode 4 [leafZ n]
  | JString s => GenNode 5 [leafS s]
  | JArray l => GenNode 6 (json_tree <$> l)
  | JObject m => GenNode 7 ((λ kv, GenNode 8 [leafS kv.1; json_tree kv.2]) <$> m)
  end.

Fixpoint tree_json (t : tree) : json :=
  match t with
  | GenNode 1 [GenLeaf (inl z)] => JBool (Z.eqb z 1)
  | GenNode 2 [GenLeaf (inl n)] => JNumber (PosInt n)
  | GenNode 3 [GenLeaf (inl n)] => JNumber (NegInt n)
  | GenNode 4 [GenLeaf (inl n)] => JNumber (JFloat n)
  | GenNode 5 [GenLeaf (inr (inl s))] => JString s
  | GenNode 6 l => JArray (tree_json <$> l)
  | GenNode 7 m =>
      JObject ((λ t, match t with
                     | GenNode 8 [GenLeaf (inr (inl k)); t'] => (k, tree_json t')
                     | _ => (EmptyString, JNull)
                     end) <$> m)
  | _ => JNull
  end.

Lemma tree_json_tree j : tree_json (json_tree j) = j.
Proof.
  induction j as [| |[]| |l IH|m IH] using json_nested_ind; simpl; try done.
  - by destruct b.
  - f_equal. induction IH; simpl; [done|]. by f_equal.
  - f_equal. induction IH as [|[k v] m E _ IH]; simpl; [done|].
    simpl in E. f_equal; [by rewrite E|exact IH].
Qed.

#[export] Instance json_eq_dec : EqDecision json.
Proof.
  refine (λ a b, cast_if (decide (json_tree a = json_tree b))).
  - by rewrite <- (tree_json_tree a), e, tree_json_tree.
  - intros ->. done.
Defined.

Fixpoint value_tree (v : value) : tree :=
  match v with
  | VBoolean b => GenNode 0 [leafZ (Z.b2z b)]
  | VInt8 n => GenNode 1 [leafZ n]
  | VInt16 n => GenNode 2 [leafZ n]
  | VInt32 n => GenNode 3 [leafZ n]
  | VInt64 n => GenNode 4 [leafZ n]
  | VUInt8 n => GenNode 5 [leafZ n]
  | VUInt16 n => GenNode 6 [leafZ n]
  | VUInt32 n => GenNode 7 [leafZ n]
  | VUInt64 n => GenNode 8 [leafZ n]
  | VFloat32 n => GenNode 9 [leafZ n]
  | VFloat64 n => GenNode 10 [leafZ n]
  | VDecimal s => GenNode 11 [leafS s]
  | VString s => GenNode 12 [leafS s]
  | VBytes b => GenNode 13 [leafB b]
  | VUuid b => GenNode 14 [leafB b]
  | VTimestamp n => GenNode 15 [leafZ n]
  | VDate n => GenNode 16 [leafZ n]
  | VJson j => GenNode 17 [json_tree j]
  | VArray l => GenNode 18 (value_tree <$> l)
  | VNull => GenNode 19 []
  end.

Fixpoint tree_value (t : tree) : value :=
  match t with
  | GenNode 0 [GenLeaf (inl z)] => VBoolean (Z.eqb z 1)
  | GenNode 1 [GenLeaf (inl n)] => VInt8 n
  | GenNode 2 [GenLeaf (inl n)] => VInt16 n
  | GenNode 3 [GenLeaf (inl n)] => VInt32 n
  | GenNode 4 [GenLeaf (inl n)] => VInt64 n
  | GenNode 5 [GenLeaf (inl n)] => VUInt8 n
  | GenNode 6 [GenLeaf (inl n)] => VUInt16 n
  | GenNode 7 [GenLeaf (inl n)] => VUInt32 n
  | GenNode 8 [GenLeaf (inl n)] => VUInt64 n
  | GenNode 9 [GenLeaf (inl n)] => VFloat32 n
  | GenNode 10 [GenLeaf (inl n)] => VFloat64 n
  | GenNode 11 [GenLeaf (inr (inl s))] => VDecimal s
  | GenNode 12 [GenLeaf (inr (inl s))] => VString s
  | GenNode 13 [GenLeaf (inr (inr b))] => VBytes b
  | GenNode 14 [GenLeaf (inr (inr b))] => VUuid b
  | GenNode 15 [GenLeaf (inl n)] => VTimestamp n
  | GenNode 16 [GenLeaf (inl n)] => VDate n
  | GenNode 17 [t] => VJson (tree_json t)
  | GenNode 18 l => VArray (tree_value <$> l)
  | _ => VNull
  end.

Lemma tree_value_tree v : tree_value (value_tree v) = v.
Proof.
  induction v as [l IH|v Hv] using value_nested_ind.
  - simpl. f_equal. induction IH; simpl; [done|]. by f_equal.
  - destruct v; simpl; rewrite ?tree_json_tree; try done.
    + by destruct b.
    + by destruct (Hv items).
Qed.

#[export] Instance value_eq_dec : EqDecision value.
Proof.
  refine (λ a b, cast_if (decide (value_tree a = value_tree b))).
  - by rewrite <- (tree_value_tree a), e, tree_value_tree.
  - intros ->. done.
Defined.

#[export] Program Instance json_countable : Countable json :=
  inj_countable' json_tree tree_json tree_json_tree.

#[export] Program Instance value_countable : Countable value :=
  inj_countable' value_tree tree_value tree_value_tree.

(** ** [PartialEq] *)

Definition list_eqb {A} (f : A → A → bool) : list A → list A → bool :=
  fix go l1 l2 :=
    match l1, l2 with
    | [], [] => true
    | x :: l1, y :: l2 => f x y && go l1 l2
    | _, _ => false
    end.

Definition json_num_eqb (a b : json_num) : bool :=
  match a, b with
  | PosInt a, PosInt b => a =? b
  | NegInt a, NegInt b => a =? b
  | JFloat a, JFloat b => f_eqb F64 a b
  | _, _ => false
  end.

Fixpoint json_eqb (a b : json) : bool :=
  match a, b with
  | JNull, JNull => true
  | JBool a, JBool b => Bool.eqb a b
  | JNumber a, JNumber b => json_num_eqb a b
  | JString a, JString b => String.eqb a b
  | JArray a, JArray b => list_eqb json_eqb a b
  | JObject a, JObject b =>
      list_eqb (λ x y, String.eqb x.1 y.1 && json_eqb x.2 y.2) a b
  | _, _ => false
  end.

(** [a == b]: derived, so floats compare numerically. *)
Fixpoint value_eqb (a b : value) : bool :=
  match a, b with
  | VBoolean a, VBoolean b => Bool.eqb a b
  | VInt8 a, VInt8 b => a =? b
  | VInt16 a, VInt16 b => a =? b
  | VInt32 a, VInt32 b => a =? b
  | VInt64 a, VInt64 b => a =? b
  | VUInt8 a, VUInt8 b => a =? b
  | VUInt16 a, VUInt16 b => a =? b
  | VUInt32 a, VUInt32 b => a =? b
  | VUInt64 a, VUInt64 b => a =? b
  | VFloat32 a, VFloat32 b => f_eqb F32 a b
  | VFloat64 a, VFloat64 b => f_eqb F64 a b
  | VDecimal a, VDecimal b => String.eqb a b
  | VString a, VString b => String.eqb a b
  | VBytes a, VBytes b => bool_decide (a = b)
  | VUuid a, VUuid b => bool_decide (a = b)
  | VTimestamp a, VTimestamp b => a =? b
  | VDate a, VDate b => a =? b
  | VJson a, VJson b => json_eqb a b
  | VArray a, VArray b => list_eqb value_eqb a b
  | VNull, VNull => true
  | _, _ => false
  end.

(** ** [serde_json]'s printer, third-party code *)

Class JsonText : Type := json_to_string : json → string.

(** ** [Ord] *)

(** A slice comparison as the [Array] arm writes it: the loop over the zipped
    elements, then the lengths. [Vec<u8>], [str] and [Uuid] compare the same
    way in the standard library. *)
Definition zip_cmp {A} (f : A → A → comparison) : list A → list A → comparison :=
  fix go l1 l2 :=
    match l1, l2 with
    | x :: l1, y :: l2 => match f x y with Eq => go l1 l2 | other => other end
    | _, _ => Eq
    end.
Definition slice_cmp {A} (f : A → A → comparison) (a b : list A) : comparison :=
  match zip_cmp f a b with
  | Eq => Nat.compare (length a) (length b)
  | other => other
  end.

Definition byte_cmp (a b : byte) : comparison := byte_Z a ?= byte_Z b.
Definition bytes_cmp : list byte → list byte → comparison := slice_cmp byte_cmp.
Definition str_bytes (s : string) : list byte := String.list_byte_of_string s.
Definition str_cmp (a b : string) : comparison := bytes_cmp (str_bytes a) (str_bytes b).

Lemma str_bytes_of l : str_bytes (String.string_of_list_byte l) = l.
Proof. apply String.list_byte_of_string_of_list_byte. Qed.
Lemma str_bytes_app (a b : string) : str_bytes (a +:+ b) = str_bytes a ++ str_bytes b.
Proof. unfold str_bytes. induction a as [|x a IH]; [done|].
  exact (f_equal (cons _) IH).
Qed.

(** [self_idx]/[other_idx] *)
Definition variant_idx (v : value) : nat :=
  match v with
  | VBoolean _ => 0
  | VInt8 _ => 1
  | VInt16 _ => 2
  | VInt32 _ => 3
  | VInt64 _ => 4
  | VUInt8 _ => 5
  | VUInt16 _ => 6
  | VUInt32 _ => 7
  | VUInt64 _ => 8
  | VFloat32 _ => 9
  | VFloat64 _ => 10
  | VDecimal _ => 11
  | VString _ => 12
  | VBytes _ => 13
  | VUuid _ => 14
  | VTimestamp _ => 15
  | VDate _ => 16
  | VJson _ => 17
  | VArray _ => 18
  | VNull => 19
  end%nat.

Section ord.
Context `{JsonText}.

Fixpoint value_cmp (a b : value) : comparison :=
  match a, b with
  | VNull, VNull => Eq
  | VNull, _ => Lt
  | _, VNull => Gt
  | VBoolean a, VBoolean b => Bool.compare a b
  | VInt8 a, VInt8 b => a ?= b
  | VInt16 a, VInt16 b => a ?= b
  | VInt32 a, VInt32 b => a ?= b
  | VInt64 a, VInt64 b => a ?= b
  | VUInt8 a, VUInt8 b => a ?= b
  | VUInt16 a, VUInt16 b => a ?= b
  | VUInt32 a, VUInt32 b => a ?= b
  | VUInt64 a, VUInt64 b => a ?= b
  | VFloat32 a, VFloat32 b => a ?= b
  | VFloat64 a, VFloat64 b => a ?= b
  | VDecimal a, VDecimal b => str_cmp a b
  | VString a, VString b => str_cmp a b
  | VBytes a, VBytes b => bytes_cmp a b
  | VUuid a, VUuid b => bytes_cmp a b
  | VTimestamp a, VTimestamp b => a ?= b
  | VDate a, VDate b => a ?= b
  | VJson a, VJson b => str_cmp (json_to_string a) (json_to_string b)
  | VArray a, VArray b => slice_cmp value_cmp a b
  | _, _ => Nat.compare (variant_idx a) (variant_idx b)
  end.

Definition value_ltb (a b : value) : bool := match value_cmp a b with Lt => true | _ => false end.
Definition value_leb (a b : value) : bool := match value_cmp a b with Gt => false | _ => true end.

(** Two values feed the same data to a [Hasher]: [Hash for Value]. *)
Fixpoint value_hash_eqb (a b : value) : bool :=
  match a, b with
  | VBoolean a, VBoolean b => Bool.eqb a b
  | VInt8 a, VInt8 b => a =? b
  | VInt16 a, VInt16 b => a =? b
  | VInt32 a, VInt32 b => a =? b
  | VInt64 a, VInt64 b => a =? b
  | VUInt8 a, VUInt8 b => a =? b
  | VUInt16 a, VUInt16 b => a =? b
  | VUInt32 a, VUInt32 b => a =? b
  | VUInt64 a, VUInt64 b => a =? b
  | VFloat32 a, VFloat32 b => a =? b
  | VFloat64 a, VFloat64 b => a =? b
  | VDecimal a, VDecimal b => String.eqb a b
  | VString a, VString b => String.eqb a b
  | VBytes a, VBytes b => bool_decide (a = b)
  | VUuid a, VUuid b => bool_decide (a = b)
  | VTimestamp a, VTimestamp b => a =? b
  | VDate a, VDate b => a =? b
  | VJson a, VJson b => String.eqb (json_to_string a) (json_to_string b)
  | VArray a, VArray b => list_eqb value_hash_eqb a b
  | VNull, VNull => true
  | _, _ => false
  end.
End ord.

(** ** Inherent methods *)

Definition is_null (v : value) : bool := match v with VNull => true | _ => false end.

Definition type_name (v : value) : string :=
  match v with
  | VBoolean _ => "boolean" | VInt8 _ => "int8" | VInt16 _ => "int16"
  | VInt32 _ => "int32" | VInt64 _ => "int64" | VUInt8 _ => "uint8"
  | VUInt16 _ => "uint16" | VUInt32 _ => "uint32" | VUInt64 _ => "uint64"
  | VFloat32 _ => "float32" | VFloat64 _ => "float64" | VDecimal _ => "decimal"
  | VString _ => "string" | VBytes _ => "bytes" | VUuid _ => "uuid"
  | VTimestamp _ => "timestamp" | VDate _ => "date" | VJson _ => "json"
  | VArray _ => "array" | VNull => "null"
  end.

Definition as_i64 (v : value) : option Z :=
  match v with
  | VInt8 n | VInt16 n | VInt32 n | VInt64 n | VUInt8 n | VUInt16 n | VUInt32 n => Some n
  | _ => None
  end.

Definition as_u64 (v : value) : option Z :=
  match v with
  | VUInt8 n | VUInt16 n | VUInt32 n | VUInt64 n => Some n
  | VInt8 n | VInt16 n | VInt32 n | VInt64 n => if 0 <=? n then Some n else None
  | _ => None
  end.

Definition as_f64 (v : value) : option Z :=
  match v with
  | VFloat32 b => Some (f64_of_f32 b)
  | VFloat64 b => Some b
  | VInt8 n | VInt16 n | VInt32 n | VInt64 n
  | VUInt8 n | VUInt16 n | VUInt32 n | VUInt64 n => Some (f64_of_Z n)
  | _ => None
  end.

Definition as_str (v : value) : option string :=
  match v with VString s => Some s | _ => None end.

Definition as_bool (v : value) : option bool :=
  match v with VBoolean b => Some b | _ => None end.

(** [Number::as_i64], [as_u64], [as_f64]; [json!(n)] for an [i64]. *)
Definition num_as_i64 (n : json_num) : option Z :=
  match n with
  | PosInt n => if n <? 2 ^ 63 then Some n else None
  | NegInt n => Some n
  | JFloat _ => None
  end.
Definition num_as_u64 (n : json_num) : option Z :=
  match n with PosInt n => Some n | _ => None end.
Definition num_as_f64 (n : json_num) : option Z :=
  match n with
  | PosInt n | NegInt n => Some (f64_of_Z n)
  | JFloat b => Some b
  end.
Definition json_of_i64 (n : Z) : json :=
  JNumber (if 0 <=? n then PosInt n else NegInt n).
Definition json_of_u64 (n : Z) : json := JNumber (PosInt n).
(** [json!(f)]: a float that is not finite becomes [null]. *)
Definition json_of_f64 (b : Z) : json :=
  if f_exp F64 b =? 2 ^ ew F64 - 1 then JNull else JNumber (JFloat b).

(** ** The order is a total preorder *)

Lemma slice_cmp_nil_l {A} (f : A → A → comparison) ys :
  slice_cmp f [] ys = Nat.compare 0 (length ys).
Proof. by destruct ys. Qed.
Lemma slice_cmp_nil_r {A} (f : A → A → comparison) x xs :
  slice_cmp f (x :: xs) [] = Gt.
Proof. done. Qed.
Lemma slice_cmp_cons {A} (f : A → A → comparison) x y xs ys :
  slice_cmp f (x :: xs) (y :: ys) =
  match f x y with Eq => slice_cmp f xs ys | other => other end.
Proof. unfold slice_cmp. simpl. by destruct (f x y). Qed.

Lemma slice_cmp_at {A} (f : A → A → comparison) xs :
  Forall (cmp_at f) xs → cmp_at (slice_cmp f) xs.
Proof.
  induction 1 as [|x xs [R A1 E L G] _ [R' A' E' L' G']].
  - split; rewrite ?slice_cmp_nil_l; simpl; try done.
    + intros [|y ys]; simpl; done.
    + intros [|y ys]; simpl; [|done]. by intros [|??].
    + intros [|y ys] [|z zs]; simpl; try done.
    + intros [|y ys] z; simpl; done.
  - split.
    + by rewrite slice_cmp_cons, R.
    + intros [|y ys]; [done|]. rewrite !slice_cmp_cons, A1.
      destruct (f x y); simpl; auto.
    + intros [|y ys]; [done|]. intros [|z zs]; rewrite ?slice_cmp_cons; [done|].
      destruct (f x y) eqn:Exy; try done. intros Hs.
      rewrite (E _ _ Exy). destruct (f y z); auto.
    + intros [|y ys]; [done|]. intros [|z zs]; rewrite ?slice_cmp_cons; [done|].
      destruct (f x y) eqn:Exy; intros H1 H2; [|clear H1|done].
      * rewrite (E _ _ Exy). destruct (f y z) eqn:Eyz; eauto; done.
      * destruct (f y z) eqn:Eyz; [| |done];
          rewrite (L y z) by (rewrite ?Eyz; done); done.
    + intros [|y ys]; [by destruct z as [|z zs]; rewrite ?slice_cmp_cons; simpl|].
      intros [|z zs]; rewrite ?slice_cmp_cons; [done|].
      destruct (f x y) eqn:Exy; intros H1 H2; [|done|clear H1].
      * rewrite (E _ _ Exy). destruct (f y z) eqn:Eyz; eauto; done.
      * destruct (f y z) eqn:Eyz; [|done|];
          rewrite (G y z) by (rewrite ?Eyz; done); done.
Qed.

Lemma total_cmp_slice {A} (f : A → A → comparison) : total_cmp f → total_cmp (slice_cmp f).
Proof. intros T x. apply slice_cmp_at, Forall_forall. auto. Qed.

Lemma total_cmp_bytes : total_cmp bytes_cmp.
Proof. apply total_cmp_slice. by apply (total_cmp_key _ byte_Z). Qed.
Lemma total_cmp_str : total_cmp str_cmp.
Proof. apply (total_cmp_map str_bytes), total_cmp_bytes. Qed.

Section ord_facts.
Context `{JsonText}.

(** [Null] sorts first although its index is the highest. *)
Definition value_rank (v : value) : nat :=
  match v with VNull => 0 | v => S (variant_idx v) end.

Lemma value_cmp_rank a b :
  value_rank a ≠ value_rank b → value_cmp a b = Nat.compare (value_rank a) (value_rank b).
Proof. destruct a, b; simpl; intros; try done. Qed.

(** Around a value whose same-variant comparison is [g] on the payload. *)
Lemma value_cmp_at_variant {A} (K : A → value) (g : A → A → comparison) r p :
  (∀ p q, value_cmp (K p) (K q) = g p q) →
  (∀ q, value_rank (K q) = r) →
  (∀ v, value_rank v = r → ∃ q, v = K q) →
  cmp_at g p → cmp_at value_cmp (K p).
Proof.
  intros EK RK IK [R A1 E L G].
  assert (∀ y, (∃ q, y = K q) ∨ value_rank y ≠ r) as C.
  { intros y. destruct (decide (value_rank y = r)); eauto. }
  assert (∀ q y, value_rank y ≠ r → value_cmp (K q) y = Nat.compare r (value_rank y)) as CL.
  { intros q y Hy. rewrite value_cmp_rank; rewrite RK; done. }
  assert (∀ q y, value_rank y ≠ r → value_cmp y (K q) = Nat.compare (value_rank y) r) as CR.
  { intros q y Hy. rewrite value_cmp_rank; rewrite RK; done. }
  split.
  - by rewrite EK.
  - intros y. destruct (C y) as [[q ->]|Hy]; [by rewrite !EK|].
    rewrite CL, CR by done. apply Nat.compare_antisym.
  - intros y z Hxy. destruct (C y) as [[q ->]|Hy].
    + rewrite EK in Hxy. destruct (C z) as [[q' ->]|Hz]; [rewrite !EK; eauto|].
      by rewrite !CL.
    + rewrite CL in Hxy by done. by apply Nat.compare_eq_iff in Hxy.
  - intros y z Hxy Hyz. destruct (C y) as [[q ->]|Hy].
    + rewrite EK in Hxy. destruct (C z) as [[q' ->]|Hz].
      * rewrite EK in *. eauto.
      * rewrite CL in * by done. destruct (Nat.compare_spec r (value_rank z)); done.
    + rewrite CL in Hxy by done. apply Nat.compare_lt_iff in Hxy.
      destruct (C z) as [[q' ->]|Hz].
      * rewrite CR in Hyz by done. by destruct (Nat.compare_spec (value_rank y) r); [lia|lia|].
      * rewrite CL by done. apply Nat.compare_lt_iff.
        destruct (decide (value_rank y = value_rank z)) as [|N]; [lia|].
        rewrite value_cmp_rank in Hyz by done.
        by destruct (Nat.compare_spec (value_rank y) (value_rank z)); [lia|lia|].
  - intros y z Hxy Hyz. destruct (C y) as [[q ->]|Hy].
    + rewrite EK in Hxy. destruct (C z) as [[q' ->]|Hz].
      * rewrite EK in *. eauto.
      * rewrite CL in * by done. destruct (Nat.compare_spec r (value_rank z)); done.
    + rewrite CL in Hxy by done. apply Nat.compare_gt_iff in Hxy.
      destruct (C z) as [[q' ->]|Hz].
      * rewrite CR in Hyz by done. by destruct (Nat.compare_spec (value_rank y) r); [lia| |lia].
      * rewrite CL by done. apply Nat.compare_gt_iff.
        destruct (decide (value_rank y = value_rank z)) as [|N]; [lia|].
        rewrite value_cmp_rank in Hyz by done.
        by destruct (Nat.compare_spec (value_rank y) (value_rank z)); [lia| |lia].
Qed.

Ltac solve_variant K r :=
  eapply (value_cmp_at_variant K _ r);
  [ intros; reflexivity | intros; reflexivity
  | let v := fresh in intros v; destruct v; simpl; intros; try discriminate; eauto
  | ].

Lemma value_cmp_total : total_cmp value_cmp.
Proof.
  intros v. induction v as [l IH|v Hv] using value_nested_ind.
  - solve_variant VArray 19%nat. by apply slice_cmp_at.
  - destruct v.
    + solve_variant VBoolean 1%nat. apply total_cmp_bool.
    + solve_variant VInt8 2%nat. apply total_cmp_Z.
    + solve_variant VInt16 3%nat. apply total_cmp_Z.
    + solve_variant VInt32 4%nat. apply total_cmp_Z.
    + solve_variant VInt64 5%nat. apply total_cmp_Z.
    + solve_variant VUInt8 6%nat. apply total_cmp_Z.
    + solve_variant VUInt16 7%nat. apply total_cmp_Z.
    + solve_variant VUInt32 8%nat. apply total_cmp_Z.
    + solve_variant VUInt64 9%nat. apply total_cmp_Z.
    + solve_variant VFloat32 10%nat. apply total_cmp_Z.
    + solve_variant VFloat64 11%nat. apply total_cmp_Z.
    + solve_variant VDecimal 12%nat. apply total_cmp_str.
    + solve_variant VString 13%nat. apply total_cmp_str.
    + solve_variant VBytes 14%nat. apply total_cmp_bytes.
    + solve_variant VUuid 15%nat. apply total_cmp_bytes.
    + solve_variant VTimestamp 16%nat. apply total_cmp_Z.
    + solve_variant VDate 17%nat. apply total_cmp_Z.
    + solve_variant VJson 18%nat. apply (total_cmp_map json_to_string), total_cmp_str.
    + by destruct (Hv items).
    + eapply (value_cmp_at_variant (λ _ : unit, VNull) (λ _ _, Eq) 0%nat tt); try done.
      intros [] ?; try discriminate. by exists tt.
Qed.
End ord_facts.

(** ** [Ord] and [Hash] distinguish the same values *)

Lemma slice_cmp_eq {A} (f : A → A → comparison) (eqb : A → A → bool) l :
  Forall (λ x, ∀ y, f x y = Eq ↔ eqb x y = true) l →
  ∀ l', slice_cmp f l l' = Eq ↔ list_eqb eqb l l' = true.
Proof.
  induction 1 as [|x l Hx _ IH]; intros [|y l']; try done.
  rewrite slice_cmp_cons. simpl. rewrite andb_true_iff, <- Hx, <- IH.
  destruct (f x y); naive_solver.
Qed.

Lemma byte_cmp_eq x y : byte_cmp x y = Eq ↔ bool_decide (x = y) = true.
Proof.
  unfold byte_cmp. rewrite Z.compare_eq_iff, bool_decide_eq_true.
  split; [apply byte_Z_inj|by intros ->].
Qed.

Lemma list_eqb_bool_decide {A} `{EqDecision A} (l l' : list A) :
  list_eqb (λ x y, bool_decide (x = y)) l l' = true ↔ l = l'.
Proof.
  revert l'. induction l as [|x l IH]; intros [|y l']; simpl; try done.
  rewrite andb_true_iff, bool_decide_eq_true, IH. naive_solver.
Qed.

Lemma bytes_cmp_eq l l' : bytes_cmp l l' = Eq ↔ l = l'.
Proof.
  unfold bytes_cmp. rewrite <- list_eqb_bool_decide. apply slice_cmp_eq.
  apply Forall_forall. intros x _ y. apply byte_cmp_eq.
Qed.

Lemma str_cmp_eq a b : str_cmp a b = Eq ↔ a = b.
Proof.
  unfold str_cmp, str_bytes. rewrite bytes_cmp_eq. split; [|by intros ->].
  intros E. apply (f_equal String.string_of_list_byte) in E.
  by rewrite !String.string_of_list_byte_of_string in E.
Qed.

Lemma value_cmp_eq `{JsonText} a : ∀ b, value_cmp a b = Eq ↔ value_hash_eqb a b = true.
Proof.
  induction a as [l IH|a Ha] using value_nested_ind; intros b.
  - destruct b; simpl; try (split; [by intros ?%Nat.compare_eq_iff|done]); try done.
    by apply slice_cmp_eq.
  - destruct a; destruct b; simpl; try done; try (by destruct (Ha items));
      rewrite ?Z.compare_eq_iff, ?Z.eqb_eq, ?str_cmp_eq, ?bytes_cmp_eq, ?String.eqb_eq,
        ?bool_decide_eq_true; try done.
    all: by destruct b, b0.
Qed.

(** ** Properties *)

(** The order on values ([Ord for Value]) is a total preorder around every
    value: reflexive, antisymmetric under [reverse], transitive in each
    direction, with [Null] below everything; and [cmp] says [Equal] exactly when
    [Hash] feeds the hasher the same data. *)
Theorem value_order_total `{JsonText} :
  total_cmp value_cmp ∧ (∀ v, v ≠ VNull → value_cmp VNull v = Lt) ∧
  ∀ a b, value_cmp a b = Eq ↔ value_hash_eqb a b = true.
Proof.
  split; [apply value_cmp_total|]. split; [by intros []|intros; apply value_cmp_eq].
Qed.

(** Floats are ordered by their bits: for two non-NaN [Float64]s this is the
    numeric order when both are non-negative, the reverse of the numeric order
    when both have the sign bit, and every float with the sign bit sorts above
    every float without it, although it is numerically at most as large. *)
Theorem float_order_is_bit_order `{JsonText} (a b : Z) :
  0 <= a < 2 ^ 63 → 0 <= b < 2 ^ 63 → f_is_nan F64 a = false → f_is_nan F64 b = false →
  Some (value_cmp (VFloat64 a) (VFloat64 b)) = f_compare F64 a b ∧
  Some (CompOpp (value_cmp (VFloat64 (a + 2 ^ 63)) (VFloat64 (b + 2 ^ 63)))) =
    f_compare F64 (a + 2 ^ 63) (b + 2 ^ 63) ∧
  value_cmp (VFloat64 (a + 2 ^ 63)) (VFloat64 b) = Gt ∧
  f_compare F64 (a + 2 ^ 63) b = Some (if (a =? 0) && (b =? 0) then Eq else Lt).
Proof.
  intros Ha Hb Na Nb. change (2 ^ 63) with (2 ^ (ew F64 + mw F64)) in *.
  rewrite f_compare_pos, f_compare_neg_neg, f_compare_neg_pos by done.
  split_and!; [done| | |done].
  - simpl value_cmp. rewrite <- Z.compare_antisym. f_equal.
    destruct (Z.compare_spec b a);
      [apply Z.compare_eq_iff|apply Z.compare_lt_iff|apply Z.compare_gt_iff]; lia.
  - simpl. apply Z.compare_gt_iff. simpl in *. lia.
Qed.

Lemma float_order_is_bit_order_witness :
  value_cmp (H := λ _, ""%string) (VFloat64 (f64_of_Z 1 + 2 ^ 63)) (VFloat64 (f64_of_Z 2)) = Gt.
Proof.
  apply (float_order_is_bit_order (H := λ _, ""%string) (f64_of_Z 1) (f64_of_Z 2));
    try (vm_compute; intuition discriminate); vm_compute; reflexivity.
Defined.
