(* ===== verification/HashMap.v ===== *)
(** The standard library's [HashMap<Value, A>], as [blitz-core] keys its
    unique indexes with it. A lookup finds an entry whose key feeds the hasher
    the same data ([Hash for Value], by [to_bits] on floats) and is [==] to the
    key ([PartialEq], numeric on floats); collisions between different hasher
    inputs are left out. So a key that is not [==] to itself (a NaN inside) is
    stored but never found again: [hm_lost] keeps those entries. *)
From stdpp Require Import pretty.
From S2P Require Import Prelude Float Value.

(** What the model relies on of [serde_json]'s printer: two documents that are
    [==] and print alike are the same document. *)
Class JsonTextLaws `{JsonText} : Prop :=
  json_text_eq : ∀ a b, json_eqb a b = true → json_to_string a = json_to_string b → a = b.

(** A printer that satisfies the law, for concrete evaluations. *)
Definition demo_json_text : JsonText := λ j, pretty (Npos (encode j)).

Lemma demo_json_text_laws : @JsonTextLaws demo_json_text.
Proof.
  intros a b _ E. unfold json_to_string, demo_json_text in E.
  apply (inj pretty) in E. injection E as E. by apply (inj encode).
Qed.

(** The test a probe makes on a candidate entry. *)
Definition key_match `{JsonText} (a b : value) : bool := value_hash_eqb a b && value_eqb a b.

Record hmap (A : Type) : Type := HMap {
  hm_map : gmap value A;
  hm_lost : list (value * A)
}.
Arguments HMap {A} _ _.
Arguments hm_map {A} _.
Arguments hm_lost {A} _.

Section hmap.
Context {A : Type}.
Implicit Types (m : hmap A) (v : value) (x : A).

#[export] Instance hm_empty : Empty (hmap A) := HMap ∅ [].

Definition hm_get m v : option A := if value_eqb v v then hm_map m !! v else None.
Definition hm_contains_key m v : bool := bool_decide (is_Some (hm_get m v)).
Definition hm_insert m v x : hmap A :=
  if value_eqb v v then HMap (<[v := x]> (hm_map m)) (hm_lost m)
  else HMap (hm_map m) ((v, x) :: hm_lost m).
Definition hm_remove m v : hmap A :=
  if value_eqb v v then HMap (delete v (hm_map m)) (hm_lost m) else m.
Definition hm_len m : nat := size (hm_map m) + length (hm_lost m).
Definition hm_entries m : list (value * A) := map_to_list (hm_map m) ++ hm_lost m.

Lemma hm_get_empty v : hm_get ∅ v = None.
Proof. unfold hm_get. by case_match. Qed.

Lemma hm_get_insert_eq m v x : value_eqb v v = true → hm_get (hm_insert m v x) v = Some x.
Proof. intros E. unfold hm_get, hm_insert. rewrite E. simpl. by simplify_map_eq. Qed.

Lemma hm_get_insert_ne m v w x : v ≠ w → hm_get (hm_insert m v x) w = hm_get m w.
Proof.
  intros N. unfold hm_get, hm_insert. repeat case_match; simpl; by simplify_map_eq.
Qed.

Lemma hm_get_insert m v w x :
  hm_get (hm_insert m v x) w = if decide (v = w) then (if value_eqb v v then Some x else None)
                               else hm_get m w.
Proof.
  case_decide; subst; [|by apply hm_get_insert_ne].
  case_match; [by apply hm_get_insert_eq|]. unfold hm_get. by rewrite H.
Qed.

Lemma hm_get_remove m v w :
  hm_get (hm_remove m v) w = if decide (v = w) then None else hm_get m w.
Proof.
  unfold hm_get, hm_remove. case_decide; subst; repeat case_match; simpl;
    by simplify_map_eq.
Qed.

Lemma hm_get_self m v x : hm_get m v = Some x → value_eqb v v = true.
Proof. unfold hm_get. by case_match. Qed.
End hmap.

#[export] Hint Rewrite @hm_get_empty @hm_get_insert @hm_get_remove : blitz.

(** ** The map against the probing it stands for *)

Section probe.
Context `{JsonTextLaws}.

Lemma value_hash_match a : ∀ b,
  key_match a b = true ↔ a = b ∧ value_eqb a a = true.
Proof.
  induction a as [l IH|a Ha] using value_nested_ind; intros b; unfold key_match.
  - destruct b as [| | | | | | | | | | | | | | | | | |l'|]; simpl;
      try (split; [done|intros [[=] _]]).
    transitivity (l = l' ∧ list_eqb value_eqb l l = true); [|naive_solver].
    revert l'. induction IH as [|x l Hx _ IHl]; intros [|y l']; simpl;
      try (split; [done|intros [[=] _]]); [naive_solver|].
    specialize (Hx y). specialize (IHl l'). unfold key_match in Hx.
    rewrite !andb_true_iff in *. naive_solver.
  - destruct a; destruct b; simpl; try (split; [done|intros [[=] _]]);
      try (by destruct (Ha items));
      rewrite ?andb_true_iff, ?Bool.eqb_true_iff, ?Z.eqb_eq, ?String.eqb_eq,
        ?bool_decide_eq_true; try naive_solver.
    split; [|by intros [[= ->] ?]]. intros [E1 E2].
    assert (j = j0) as -> by by apply json_text_eq. done.
Qed.

(** [hm_get] returns exactly what scanning all the entries with the probe's
    test would find. *)
Lemma hm_get_probe {A} (m : hmap A) v x :
  (∀ w y, (w, y) ∈ hm_lost m → value_eqb w w = false) →
  hm_get m v = Some x ↔ ∃ w, (w, x) ∈ hm_entries m ∧ key_match v w = true.
Proof.
  intros L. unfold hm_get, hm_entries. setoid_rewrite elem_of_app.
  setoid_rewrite elem_of_map_to_list. setoid_rewrite value_hash_match. split.
  - case_match; [|done]. eauto.
  - intros (w & [Hw|Hw] & [-> E]); [by rewrite E|].
    apply L in Hw. congruence.
Qed.

Lemma hm_lost_insert {A} (m : hmap A) v x :
  (∀ w y, (w, y) ∈ hm_lost m → value_eqb w w = false) →
  (∀ w y, (w, y) ∈ hm_lost (hm_insert m v x) → value_eqb w w = false).
Proof.
  intros L w y. unfold hm_insert. case_match; simpl; [by apply L|].
  rewrite elem_of_cons. intros [[= -> ->]|?]; [done|eauto].
Qed.
End probe.

(** ** Keys on which [==] is identity: no NaN and no negative zero inside *)

Definition f_key_ok (F : fmt) (b : Z) : bool :=
  negb (f_is_nan F b) && (negb (f_is_zero F b) || (b =? 0)%Z).

Fixpoint json_key_ok (j : json) : bool :=
  match j with
  | JNumber (JFloat b) => f_key_ok F64 b
  | JArray l => forallb json_key_ok l
  | JObject m => forallb (λ kv, json_key_ok kv.2) m
  | _ => true
  end.

Fixpoint key_ok (v : value) : bool :=
  match v with
  | VFloat32 b => f_key_ok F32 b
  | VFloat64 b => f_key_ok F64 b
  | VJson j => json_key_ok j
  | VArray l => forallb key_ok l
  | _ => true
  end.

Lemma f_eqb_key_ok F a b :
  f_key_ok F a = true → f_key_ok F b = true → f_eqb F a b = true ↔ a = b.
Proof.
  unfold f_key_ok, f_eqb. rewrite !andb_true_iff, !orb_true_iff, !negb_true_iff, !Z.eqb_eq.
  intros [-> Ha] [-> Hb]. simpl. rewrite andb_true_iff.
  destruct Ha as [Ha|Ha], Hb as [Hb|Hb]; rewrite ?Ha, ?Hb; naive_solver.
Qed.

Lemma list_eqb_eq {A} (f : A → A → bool) (ok : A → bool) l :
  Forall (λ x, ∀ y, ok x = true → ok y = true → f x y = true ↔ x = y) l →
  ∀ l', forallb ok l = true → forallb ok l' = true → list_eqb f l l' = true ↔ l = l'.
Proof.
  induction 1 as [|x l Hx _ IH]; intros [|y l']; simpl; try done.
  rewrite !andb_true_iff. intros [??] [??]. rewrite Hx, IH by done. naive_solver.
Qed.

Lemma json_eqb_key_ok a : ∀ b,
  json_key_ok a = true → json_key_ok b = true → json_eqb a b = true ↔ a = b.
Proof.
  induction a as [| |n| |l IH|m IH] using json_nested_ind; intros []; simpl; try done.
  - intros _ _. rewrite Bool.eqb_true_iff. naive_solver.
  - destruct n, n0; simpl; try done; intros; rewrite ?Z.eqb_eq, ?f_eqb_key_ok by done; naive_solver.
  - intros _ _. rewrite String.eqb_eq. naive_solver.
  - intros. rewrite (list_eqb_eq _ json_key_ok) by done. naive_solver.
  - intros. rewrite (list_eqb_eq _ (λ kv, json_key_ok kv.2)); [naive_solver|..|done|done].
    eapply Forall_impl; [exact IH|]. simpl. intros [k v] Hv [k' v'] ??. simpl in *.
    rewrite andb_true_iff, String.eqb_eq, Hv by done. naive_solver.
Qed.

Lemma value_eqb_key_ok a : ∀ b,
  key_ok a = true → key_ok b = true → value_eqb a b = true ↔ a = b.
Proof.
  induction a as [l IH|a Ha] using value_nested_ind; intros b.
  - destruct b; simpl; try done. intros. rewrite (list_eqb_eq _ key_ok) by done. naive_solver.
  - destruct a; destruct b; simpl; try done; try (by destruct (Ha items)); intros;
      rewrite ?Bool.eqb_true_iff, ?Z.eqb_eq, ?String.eqb_eq, ?bool_decide_eq_true,
        ?f_eqb_key_ok, ?json_eqb_key_ok by done; naive_solver.
Qed.

Lemma key_ok_refl v : key_ok v = true → value_eqb v v = true.
Proof. intros. by apply value_eqb_key_ok. Qed.
#[export] Hint Resolve key_ok_refl : blitz.
