(* ===== verification/Schema.v ===== *)
(** [blitz-types]: columns, table and database schemas, rows and their
    validation ([column.rs], [schema.rs], [row.rs], [id.rs], [error.rs]). *)
From S2P Require Import Prelude Float Value.

Local Open Scope Z_scope.

(** ** Data *)

(** What a [TypeError::SchemaError] message is formatted from. *)
Inductive schema_error : Type :=
| ColumnNotFound (col : string)
| ColumnExpects (col : string) (expected actual : string)
| PrimaryKeyRequired (col : string)
| ColumnRequired (col : string)
| SchemaTableExists (table : string)
| SchemaTableNotFound (table : string).

(** [TypeError] *)
Inductive type_error : Type :=
| TypeMismatch (expected actual : string)
| NullValue
| InvalidValue (why : string)
| InvalidId (why : string)
| SchemaError (e : schema_error)
| Overflow (why : string)
| OutOfRange (why : string).

#[export] Instance schema_error_eq_dec : EqDecision schema_error.
Proof. solve_decision. Defined.
#[export] Instance type_error_eq_dec : EqDecision type_error.
Proof. solve_decision. Defined.

Inductive column_type : Type :=
| TBoolean | TInt8 | TInt16 | TInt32 | TInt64 | TUInt8 | TUInt16 | TUInt32 | TUInt64
| TFloat32 | TFloat64 | TDecimal | TString | TBytes | TUuid | TTimestamp | TDate | TJson
| TArray.

#[export] Instance column_type_eq_dec : EqDecision column_type.
Proof. solve_decision. Defined.

(** [Display for ColumnType] *)
Definition column_type_name (t : column_type) : string :=
  match t with
  | TBoolean => "boolean" | TInt8 => "int8" | TInt16 => "int16" | TInt32 => "int32"
  | TInt64 => "int64" | TUInt8 => "uint8" | TUInt16 => "uint16" | TUInt32 => "uint32"
  | TUInt64 => "uint64" | TFloat32 => "float32" | TFloat64 => "float64"
  | TDecimal => "decimal" | TString => "string" | TBytes => "bytes" | TUuid => "uuid"
  | TTimestamp => "timestamp" | TDate => "date" | TJson => "json" | TArray => "array"
  end.

Record ColumnDef : Type := MkColumnDef {
  col_name : string;
  col_type : column_type;
  nullable : bool;
  primary_key : bool;
  unique : bool;
  col_default : option value
}.

Definition ColumnDef_new (name : string) (t : column_type) : ColumnDef :=
  MkColumnDef name t false false false None.
Definition with_nullable (c : ColumnDef) : ColumnDef :=
  MkColumnDef (col_name c) (col_type c) true (primary_key c) (unique c) (col_default c).
Definition with_primary_key (c : ColumnDef) : ColumnDef :=
  MkColumnDef (col_name c) (col_type c) false true (unique c) (col_default c).
Definition with_unique (c : ColumnDef) : ColumnDef :=
  MkColumnDef (col_name c) (col_type c) (nullable c) (primary_key c) true (col_default c).
Definition default_value (c : ColumnDef) (v : value) : ColumnDef :=
  MkColumnDef (col_name c) (col_type c) (nullable c) (primary_key c) (unique c) (Some v).

(** [TableSchema]; [schema_id] is the 16 bytes of the random table id. *)
Record TableSchema : Type := MkTableSchema {
  schema_id : list byte;
  schema_name : string;
  columns : list ColumnDef;
  column_index_of : gmap string nat
}.

(** A row's values: [HashMap<String, Value>]. *)
Abbreviation values := (gmap string value).

Record Row : Type := MkRow { row_id : Z; row_values : values }.

(** ** [TableSchema] *)

(** [TableId::new()] draws a random id: an argument here. *)
Definition TableSchema_new (id : list byte) (name : string) : TableSchema :=
  MkTableSchema id name [] ∅.

Definition with_column (s : TableSchema) (c : ColumnDef) : TableSchema :=
  MkTableSchema (schema_id s) (schema_name s) (columns s ++ [c])
    (<[col_name c := length (columns s)]> (column_index_of s)).

Definition column_index (s : TableSchema) (name : string) : result type_error nat :=
  ok_or (column_index_of s !! name) (SchemaError (ColumnNotFound name)).

Definition column (s : TableSchema) (name : string) : result type_error ColumnDef :=
  ok_or (column_index_of s !! name ≫= λ idx, columns s !! idx)
    (SchemaError (ColumnNotFound name)).

Definition primary_key_columns (s : TableSchema) : list ColumnDef :=
  filter (λ c, primary_key c = true) (columns s).

Definition has_primary_key (s : TableSchema) : bool := existsb primary_key (columns s).

Definition column_count (s : TableSchema) : nat := length (columns s).

(** ** Row validation *)

Definition value_matches_type (v : value) (t : column_type) : bool :=
  match v, t with
  | VBoolean _, TBoolean | VInt8 _, TInt8 | VInt16 _, TInt16 | VInt32 _, TInt32
  | VInt64 _, TInt64 | VUInt8 _, TUInt8 | VUInt16 _, TUInt16 | VUInt32 _, TUInt32
  | VUInt64 _, TUInt64 | VFloat32 _, TFloat32 | VFloat64 _, TFloat64
  | VDecimal _, TDecimal | VString _, TString | VBytes _, TBytes | VUuid _, TUuid
  | VTimestamp _, TTimestamp | VDate _, TDate | VJson _, TJson | VArray _, TArray => true
  | _, _ => false
  end.

(** One turn of the loop of [validate_row_values], its arms in order. *)
Definition validate_column (vs : values) (c : ColumnDef) : result type_error () :=
  match vs !! col_name c with
  | Some v =>
      if is_null v && negb (nullable c) then Err NullValue
      else if negb (is_null v) && negb (value_matches_type v (col_type c)) then
        Err (SchemaError (ColumnExpects (col_name c) (column_type_name (col_type c))
                            (type_name v)))
      else Ok ()
  | None =>
      if bool_decide (is_Some (col_default c)) then Ok ()
      else if primary_key c then Err (SchemaError (PrimaryKeyRequired (col_name c)))
      else if negb (nullable c) then Err (SchemaError (ColumnRequired (col_name c)))
      else Ok ()
  end.

Fixpoint validate_columns (cs : list ColumnDef) (vs : values) : result type_error () :=
  match cs with
  | [] => Ok ()
  | c :: cs => validate_column vs c ;; validate_columns cs vs
  end.

Definition validate_row_values (s : TableSchema) (vs : values) : result type_error () :=
  validate_columns (columns s) vs.

(** ** [TableSchema::from_json] *)

(** The messages of [from_json], with the column index they quote. *)
Inductive schema_json_error : Type :=
| SchemaNotObject
| MissingTable
| BadTableName
| MissingColumns
| BadColumnCount
| ColNotObject (i : nat)
| ColMissingName (i : nat)
| ColBadName (i : nat)
| ColUnknownType (i : nat) (other : string).

(** [serde_json]'s accessors. *)
Definition as_object (j : json) : option (list (string * json)) :=
  match j with JObject m => Some m | _ => None end.
Definition as_array (j : json) : option (list json) :=
  match j with JArray l => Some l | _ => None end.
Definition json_as_str (j : json) : option string :=
  match j with JString s => Some s | _ => None end.
Definition json_as_bool (j : json) : option bool :=
  match j with JBool b => Some b | _ => None end.
(** [map.get(key)] on the object's entries, whose keys are distinct. *)
Fixpoint obj_get (m : list (string * json)) (k : string) : option json :=
  match m with
  | [] => None
  | (k', v) :: m => if String.eqb k k' then Some v else obj_get m k
  end.

Definition type_of_name (s : string) : option column_type :=
  match s with
  | "bool" | "boolean" => Some TBoolean
  | "int8" => Some TInt8 | "int16" => Some TInt16 | "int32" => Some TInt32
  | "int64" => Some TInt64 | "uint8" => Some TUInt8 | "uint16" => Some TUInt16
  | "uint32" => Some TUInt32 | "uint64" => Some TUInt64 | "float32" => Some TFloat32
  | "float64" => Some TFloat64 | "decimal" => Some TDecimal | "string" => Some TString
  | "bytes" => Some TBytes | "uuid" => Some TUuid | "timestamp" => Some TTimestamp
  | "date" => Some TDate | "json" => Some TJson | "array" => Some TArray
  | _ => None
  end%string.

Definition name_ok (s : string) : bool :=
  negb (Nat.eqb (String.length s) 0) && (String.length s <=? 128)%nat.

(** The body of the loop over ["columns"]. *)
Definition column_from_json (i : nat) (c : json) : result schema_json_error ColumnDef :=
  co ← ok_or (as_object c) (ColNotObject i);
  name ← ok_or (obj_get co "name" ≫= json_as_str) (ColMissingName i);
  if negb (name_ok name) then Err (ColBadName i) else
  let tname := default ""%string (obj_get co "type" ≫= json_as_str) in
  ctype ← ok_or (type_of_name tname) (ColUnknownType i tname);
  let flag key := default false (obj_get co key ≫= json_as_bool) in
  let def := ColumnDef_new name ctype in
  let def := if flag "nullable"%string then with_nullable def else def in
  let def := if flag "pk"%string then with_primary_key def else def in
  let def := if flag "unique"%string then with_unique def else def in
  Ok def.

Fixpoint columns_from_json (i : nat) (cols : list json) (s : TableSchema)
    : result schema_json_error TableSchema :=
  match cols with
  | [] => Ok s
  | c :: cols =>
      def ← column_from_json i c;
      columns_from_json (S i) cols (with_column s def)
  end.

Definition from_json (id : list byte) (v : json) : result schema_json_error TableSchema :=
  obj ← ok_or (as_object v) SchemaNotObject;
  table ← ok_or (obj_get obj "table" ≫= json_as_str) MissingTable;
  if negb (name_ok table) then Err BadTableName else
  cols ← ok_or (obj_get obj "columns" ≫= as_array) MissingColumns;
  if Nat.eqb (length cols) 0 || (256 <? length cols)%nat then Err BadColumnCount else
  columns_from_json 0 cols (TableSchema_new id table).

(** ** [Schema], the schema of a database *)

Definition add_table (ts : list TableSchema) (t : TableSchema)
    : result type_error (list TableSchema) :=
  if existsb (λ t', String.eqb (schema_name t') (schema_name t)) ts
  then Err (SchemaError (SchemaTableExists (schema_name t)))
  else Ok (ts ++ [t]).

Definition get_table (ts : list TableSchema) (name : string) : result type_error TableSchema :=
  ok_or (snd <$> list_find (λ t, schema_name t = name) ts) (SchemaError (SchemaTableNotFound name)).

(** ** [Row] *)

Definition Row_new (id : Z) : Row := MkRow id ∅.
Definition Row_auto_id : Row := Row_new 0.
Definition Row_set (r : Row) (name : string) (v : value) : Row :=
  MkRow (row_id r) (<[name := v]> (row_values r)).
Definition Row_get (r : Row) (name : string) : option value := row_values r !! name.
Definition has_column (r : Row) (name : string) : bool :=
  bool_decide (is_Some (row_values r !! name)).
Definition Row_remove (r : Row) (name : string) : option value * Row :=
  (row_values r !! name, MkRow (row_id r) (delete name (row_values r))).
Definition from_values (id : Z) (vs : values) (s : TableSchema) : result type_error Row :=
  validate_row_values s vs ;; Ok (MkRow id vs).
Definition primary_key_values (r : Row) (s : TableSchema) : list value :=
  (λ c, default VNull (row_values r !! col_name c)) <$> primary_key_columns s.
(** The loop of [project]: columns the row lacks are skipped. *)
Fixpoint project_into (vs : values) (cols : list string) (acc : values) : values :=
  match cols with
  | [] => acc
  | c :: cols =>
      project_into vs cols
        (match vs !! c with Some v => <[c := v]> acc | None => acc end)
  end.
Definition project (r : Row) (cols : list string) : Row :=
  MkRow (row_id r) (project_into (row_values r) cols ∅).

#[export] Instance ColumnDef_eq_dec : EqDecision ColumnDef.
Proof. solve_decision. Defined.
#[export] Instance TableSchema_eq_dec : EqDecision TableSchema.
Proof. solve_decision. Defined.
#[export] Instance Row_eq_dec : EqDecision Row.
Proof. solve_decision. Defined.

(** ** Row validation, declaratively *)

(** What a row must satisfy at one column. *)
Inductive col_conforms (vs : values) (c : ColumnDef) : Prop :=
| conforms_null :
    vs !! col_name c = Some VNull → nullable c = true → col_conforms vs c
| conforms_typed v :
    vs !! col_name c = Some v → v ≠ VNull → value_matches_type v (col_type c) = true →
    col_conforms vs c
| conforms_default :
    vs !! col_name c = None → is_Some (col_default c) → col_conforms vs c
| conforms_absent :
    vs !! col_name c = None → primary_key c = false → nullable c = true →
    col_conforms vs c.

Lemma is_null_spec v : is_null v = true ↔ v = VNull.
Proof. by destruct v. Qed.

Lemma validate_column_spec vs c : validate_column vs c = Ok () ↔ col_conforms vs c.
Proof.
  unfold validate_column. split.
  - destruct (vs !! col_name c) as [v|] eqn:E.
    + destruct (is_null v) eqn:N, (nullable c) eqn:L, (value_matches_type v (col_type c)) eqn:T;
        simpl; intros; try done;
        first [ apply is_null_spec in N as ->; by apply conforms_null
              | by apply (conforms_typed _ _ v); [| intros ->|] ].
    + case_bool_decide; [intros _; by apply conforms_default|].
      destruct (primary_key c) eqn:P, (nullable c) eqn:L; simpl; intros; try done.
      by apply conforms_absent.
  - destruct 1 as [E N|v E N T|E D|E P N]; rewrite E; simpl.
    + by rewrite N.
    + rewrite T. by destruct v.
    + by rewrite bool_decide_true.
    + case_bool_decide; [done|]. by rewrite P, N.
Qed.

Lemma validate_columns_ok cs vs : validate_columns cs vs = Ok () ↔ Forall (col_conforms vs) cs.
Proof.
  induction cs as [|c cs IH]; simpl; [by split; constructor|].
  rewrite result_bind_Ok, Forall_cons, <- validate_column_spec, <- IH.
  split; [intros ([] & ? & ?); done|intros [? ?]; eauto].
Qed.

Lemma validate_columns_err cs vs e :
  validate_columns cs vs = Err e ↔
  ∃ pre c post, cs = pre ++ c :: post ∧ Forall (col_conforms vs) pre ∧
    validate_column vs c = Err e.
Proof.
  induction cs as [|c cs IH]; simpl.
  { split; [done|]. by intros ([|??] & ? & ? & ? & _). }
  rewrite result_bind_Err. setoid_rewrite IH. split.
  - intros [E|([] & E & pre & c' & post & -> & F & E')].
    + by exists [], c, cs.
    + exists (c :: pre), c', post. apply validate_column_spec in E. by auto.
  - intros ([|c' pre] & d & post & [= -> ->] & F & E); [by left|right].
    inversion F as [|? ? C F']; subst. exists (). split; [by apply validate_column_spec|].
    by exists pre, d, post.
Qed.

(** ** Well-formed schemas: the name index points at the last column of that
    name *)

Definition last_column (cs : list ColumnDef) (n : string) (i : nat) : Prop :=
  (∃ c, cs !! i = Some c ∧ col_name c = n) ∧
  ∀ j c, cs !! j = Some c → col_name c = n → (j <= i)%nat.

Definition schema_wf (s : TableSchema) : Prop :=
  ∀ n i, column_index_of s !! n = Some i ↔ last_column (columns s) n i.

Lemma schema_wf_new id name : schema_wf (TableSchema_new id name).
Proof. intros n i. simpl. split; [done|]. by intros [(c & ? & ?) _]. Qed.

Lemma schema_wf_with_column s c : schema_wf s → schema_wf (with_column s c).
Proof.
  intros W n i. simpl. destruct (decide (col_name c = n)) as [<-|N].
  - rewrite lookup_insert_eq. split.
    + intros [= <-]. split.
      * exists c. by rewrite list_lookup_middle.
      * intros j c' Hj _. apply lookup_lt_Some in Hj. rewrite length_app in Hj. simpl in Hj. lia.
    + intros [(c' & Hi & _) L]. f_equal.
      apply lookup_lt_Some in Hi as Hl. rewrite length_app in Hl. simpl in Hl.
      specialize (L (length (columns s)) c). rewrite list_lookup_middle in L by done.
      specialize (L eq_refl eq_refl). lia.
  - rewrite lookup_insert_ne by done. rewrite (W n i). unfold last_column.
    assert (∀ j d, (columns s ++ [c]) !! j = Some d ∧ col_name d = n ↔
                   columns s !! j = Some d ∧ col_name d = n) as E.
    { intros j d. rewrite lookup_app_Some, list_lookup_singleton_Some. naive_solver. }
    setoid_rewrite E. split; intros [? L]; (split; [done|]); intros j d Hj Hd;
      destruct (E j d); naive_solver.
Qed.

(** [column] finds a column with the asked name. *)
Lemma column_of_wf s n c :
  schema_wf s → column s n = Ok c → col_name c = n ∧ c ∈ columns s.
Proof.
  intros W E. unfold column in E. apply ok_or_Ok, bind_Some in E as (i & Hi & Hc).
  apply W in Hi as [(c' & Hc' & <-) _]. simplify_eq.
  split; [done|by eapply list_elem_of_lookup_2].
Qed.

(** ** [from_json] *)

(** What a column read from JSON satisfies. *)
Definition json_column_ok (c : ColumnDef) : Prop :=
  (1 <= String.length (col_name c) <= 128)%nat ∧ col_default c = None ∧
  (primary_key c = true → nullable c = false).

Lemma name_ok_spec s : name_ok s = true ↔ (1 <= String.length s <= 128)%nat.
Proof.
  unfold name_ok. rewrite andb_true_iff, negb_true_iff, Nat.eqb_neq, Nat.leb_le. lia.
Qed.

Lemma column_from_json_ok i j c : column_from_json i j = Ok c → json_column_ok c.
Proof.
  unfold column_from_json. rewrite result_bind_Ok. intros (co & _ & H).
  rewrite result_bind_Ok in H. destruct H as (name & _ & H).
  destruct (name_ok name) eqn:N; [|done]. apply name_ok_spec in N.
  simpl in H. rewrite result_bind_Ok in H. destruct H as (ty & _ & [= <-]).
  unfold json_column_ok. by repeat case_match; simpl.
Qed.

Lemma columns_from_json_ok cols : ∀ i s s',
  columns_from_json i cols s = Ok s' →
  schema_wf s → Forall json_column_ok (columns s) →
  schema_wf s' ∧ Forall json_column_ok (columns s') ∧
  schema_id s' = schema_id s ∧ schema_name s' = schema_name s ∧
  length (columns s') = (length (columns s) + length cols)%nat.
Proof.
  induction cols as [|j cols IH]; intros i s s' H W F; simpl in H.
  - injection H as <-. simpl. by rewrite Nat.add_0_r.
  - rewrite result_bind_Ok in H. destruct H as (d & Hd & H).
    apply IH in H as (? & ? & E1 & E2 & E3).
    + simpl in *. rewrite length_app in E3. simpl in E3. split_and!; try done; lia.
    + by apply schema_wf_with_column.
    + simpl. apply Forall_app. split; [done|].
      constructor; [by eapply column_from_json_ok|done].
Qed.

(** ** Properties *)

(** [validate_row_values] accepts exactly the rows that satisfy every
    column's nullability, type, default and primary-key rule, and a rejection
    carries the error of the first column that fails. *)
Theorem validate_row_values_spec (s : TableSchema) (vs : values) :
  (validate_row_values s vs = Ok () ↔ Forall (col_conforms vs) (columns s)) ∧
  ∀ e, validate_row_values s vs = Err e ↔
    ∃ pre c post, columns s = pre ++ c :: post ∧ Forall (col_conforms vs) pre ∧
      validate_column vs c = Err e.
Proof. split; [apply validate_columns_ok|intros; apply validate_columns_err]. Qed.

(** A schema accepted by [from_json] has the id drawn for it, a table name
    of 1 to 128 bytes and 1 to 256 columns; every column has a name of 1 to 128
    bytes, no default, and is non-null when it is a primary key; and the
    column lookup by name returns a column of that name. *)
Theorem from_json_sound (id : list byte) (j : json) (s : TableSchema) :
  from_json id j = Ok s →
  schema_id s = id ∧ (1 <= String.length (schema_name s) <= 128)%nat ∧
  (1 <= column_count s <= 256)%nat ∧ Forall json_column_ok (columns s) ∧
  ∀ n c, column s n = Ok c → col_name c = n ∧ c ∈ columns s.
Proof.
  unfold from_json. rewrite result_bind_Ok. intros (obj & _ & H).
  rewrite result_bind_Ok in H. destruct H as (t & _ & H).
  destruct (name_ok t) eqn:N; [|done]. apply name_ok_spec in N. simpl in H.
  rewrite result_bind_Ok in H. destruct H as (cols & _ & H).
  destruct (Nat.eqb_spec (length cols) 0); [done|]. simpl in H.
  destruct (Nat.ltb_spec 256 (length cols)); [done|].
  apply columns_from_json_ok in H as (W & F & E1 & E2 & E3);
    [|apply schema_wf_new|constructor].
  simpl in *. unfold column_count. rewrite E2. split_and!; try done; try lia.
  intros. by apply column_of_wf.
Qed.

Definition demo_schema_json : json :=
  JObject [("columns"%string,
              JArray [JObject [("name"%string, JString "id"); ("type"%string, JString "int64");
                               ("pk"%string, JBool true)];
                      JObject [("name"%string, JString "email"); ("type"%string, JString "string");
                               ("nullable"%string, JBool true); ("unique"%string, JBool true)]]);
           ("table"%string, JString "users")].

Definition demo_schema : TableSchema :=
  MkTableSchema [] "users"
    [MkColumnDef "id" TInt64 false true false None;
     MkColumnDef "email" TString true false true None]
    (<["email"%string := 1%nat]> (<["id"%string := 0%nat]> ∅)).

Lemma from_json_sound_witness :
  from_json [] demo_schema_json = Ok demo_schema ∧
  ((1 <= column_count demo_schema <= 256)%nat ∧
   ∀ n c, column demo_schema n = Ok c → col_name c = n ∧ c ∈ columns demo_schema).
Proof.
  assert (from_json [] demo_schema_json = Ok demo_schema) as E by (vm_compute; reflexivity).
  destruct (from_json_sound [] demo_schema_json demo_schema E) as (_ & _ & L & _ & C).
  exact (conj E (conj L C)).
Defined.
