(* ===== verification/Core.v ===== *)
(** [blitz-core/src/table.rs]: the in-memory table engine. A table keeps its
    rows by id, the id allocator and a unique index per primary-key or unique
    column; every operation holds the table's lock from start to end, so it is
    one transition of that table. [Arc<Row>] handles are shared immutable rows
    ([Arc::make_mut] copies on write), so a row is a value here. *)
From S2P Require Import Prelude Float Value HashMap Schema.

Local Open Scope Z_scope.

(** ** Data *)

(** What a [CoreError::DuplicateKey] message quotes. *)
Inductive dup_key : Type :=
| DupColumn (col : string) (v : value)
| DupRow (id : Z).

Inductive core_error : Type :=
| TableNotFound (name : string)
| TableAlreadyExists (name : string)
| RowNotFound (id : Z)
| DuplicateKey (d : dup_key)
| ConstraintViolation (col : string)
| CoreTypeError (e : type_error)
| CoreInternal (why : string).

#[export] Instance dup_key_eq_dec : EqDecision dup_key.
Proof. solve_decision. Defined.
#[export] Instance core_error_eq_dec : EqDecision core_error.
Proof. solve_decision. Defined.

Record InMemoryTable : Type := MkTable {
  t_schema : TableSchema;
  t_rows : gmap Z Row;
  t_next_id : Z;
  t_uniq : gmap string (hmap Z)
}.

(** [InMemoryTableEngine]: the map of tables. *)
Abbreviation Engine := (gmap string InMemoryTable).

(** The order in which a [HashMap<RowId, Arc<Row>>] is iterated: any. *)
Class RowOrder : Type := row_enum : gmap Z Row → list (Z * Row).
Class RowOrderLaws `{RowOrder} : Prop := row_enum_perm m : row_enum m ≡ₚ map_to_list m.

(** ** [InMemoryTable] *)

Definition InMemoryTable_new (s : TableSchema) : InMemoryTable := MkTable s ∅ 1 ∅.

Definition next_row_id (t : InMemoryTable) : Z * InMemoryTable :=
  (t_next_id t, MkTable (t_schema t) (t_rows t) (wrap 64 (t_next_id t + 1)) (t_uniq t)).

Definition uniq_cols (t : InMemoryTable) : list string :=
  col_name <$> filter (λ c, primary_key c || unique c = true) (columns (t_schema t)).

Fixpoint check_uniq (t : InMemoryTable) (cols : list string) (vs : values)
    (self_id : option Z) : result core_error () :=
  match cols with
  | [] => Ok ()
  | col :: cols =>
      match vs !! col with
      | Some v =>
          if is_null v then check_uniq t cols vs self_id else
          match t_uniq t !! col with
          | Some idx =>
              match hm_get idx v with
              | Some owner =>
                  if bool_decide (Some owner ≠ self_id)
                  then Err (DuplicateKey (DupColumn col v))
                  else check_uniq t cols vs self_id
              | None => check_uniq t cols vs self_id
              end
          | None => check_uniq t cols vs self_id
          end
      | None => check_uniq t cols vs self_id
      end
  end.

(** [self.uniq.entry(col).or_default().insert(v, id)] *)
Definition uniq_insert (col : string) (v : value) (id : Z) (u : gmap string (hmap Z))
    : gmap string (hmap Z) :=
  <[col := hm_insert (default ∅ (u !! col)) v id]> u.

(** [if idx.get(v) == Some(&id) { idx.remove(v) }] on [self.uniq.get_mut(col)]. *)
Definition uniq_remove (col : string) (v : value) (id : Z) (u : gmap string (hmap Z))
    : gmap string (hmap Z) :=
  match u !! col with
  | Some idx =>
      if bool_decide (hm_get idx v = Some id) then <[col := hm_remove idx v]> u else u
  | None => u
  end.

Definition set_uniq (t : InMemoryTable) (u : gmap string (hmap Z)) : InMemoryTable :=
  MkTable (t_schema t) (t_rows t) (t_next_id t) u.
Definition set_rows (t : InMemoryTable) (r : gmap Z Row) : InMemoryTable :=
  MkTable (t_schema t) r (t_next_id t) (t_uniq t).
Definition set_next_id (t : InMemoryTable) (n : Z) : InMemoryTable :=
  MkTable (t_schema t) (t_rows t) n (t_uniq t).

Fixpoint index_cols (cols : list string) (id : Z) (vs : values) (u : gmap string (hmap Z))
    : gmap string (hmap Z) :=
  match cols with
  | [] => u
  | col :: cols =>
      index_cols cols id vs
        (match vs !! col with
         | Some v => if is_null v then u else uniq_insert col v id u
         | None => u
         end)
  end.

Definition index_row (t : InMemoryTable) (cols : list string) (id : Z) (vs : values)
    : InMemoryTable := set_uniq t (index_cols cols id vs (t_uniq t)).

Fixpoint unindex_cols (cols : list string) (id : Z) (vs : values) (u : gmap string (hmap Z))
    : gmap string (hmap Z) :=
  match cols with
  | [] => u
  | col :: cols =>
      unindex_cols cols id vs
        (match vs !! col with Some v => uniq_remove col v id u | None => u end)
  end.

Definition unindex_row (t : InMemoryTable) (cols : list string) (id : Z) (vs : values)
    : InMemoryTable := set_uniq t (unindex_cols cols id vs (t_uniq t)).

(** ** [TableEngine for InMemoryTableEngine], the part under the table lock *)

(** The tail [insert] and [insert_unchecked] share: uniqueness, allocation,
    indexing, storage. *)
Definition t_insert_unchecked (t : InMemoryTable) (row : Row)
    : result core_error Z * InMemoryTable :=
  let cols := uniq_cols t in
  match check_uniq t cols (row_values row) None with
  | Err e => (Err e, t)
  | Ok _ =>
      let '(id, t) := next_row_id t in
      let row := MkRow id (row_values row) in
      let t := index_row t cols id (row_values row) in
      (Ok id, set_rows t (<[id := row]> (t_rows t)))
  end.

Definition t_insert (t : InMemoryTable) (row : Row) : result core_error Z * InMemoryTable :=
  match validate_row_values (t_schema t) (row_values row) with
  | Err e => (Err (CoreTypeError e), t)
  | Ok _ => t_insert_unchecked t row
  end.

Definition t_get (t : InMemoryTable) (id : Z) : option Row := t_rows t !! id.

(** The columns of [cols] the row has, with their values. *)
Definition col_values (cols : list string) (vs : values) : list (string * value) :=
  omap (λ c, (λ v, (c, v)) <$> vs !! c) cols.

(** "drop stale keys": [new_row.values.get(&c) != Some(&v)] is [PartialEq]. *)
Definition drop_stale (old_uniq : list (string * value)) (new_vs : values) (id : Z)
    (u : gmap string (hmap Z)) : gmap string (hmap Z) :=
  foldl (λ u cv,
    let same := match new_vs !! cv.1 with Some w => value_eqb w cv.2 | None => false end in
    if same then u else uniq_remove cv.1 cv.2 id u) u old_uniq.

(** "add current" *)
Definition add_current (cur : list (string * value)) (id : Z) (u : gmap string (hmap Z))
    : gmap string (hmap Z) :=
  foldl (λ u cv, if is_null cv.2 then u else uniq_insert cv.1 cv.2 id u) u cur.

Definition t_update (t : InMemoryTable) (id : Z) (vs : values)
    : result core_error Row * InMemoryTable :=
  match t_rows t !! id with
  | None => (Err (RowNotFound id), t)
  | Some cur =>
      let old_uniq := col_values (uniq_cols t) (row_values cur) in
      let cols := uniq_cols t in
      match check_uniq t cols vs (Some id) with
      | Err e => (Err e, t)
      | Ok _ =>
          let new_row := MkRow (row_id cur) (vs ∪ row_values cur) in
          let t := set_rows t (<[id := new_row]> (t_rows t)) in
          let t := set_uniq t (drop_stale old_uniq (row_values new_row) id (t_uniq t)) in
          let t := set_uniq t (add_current (col_values cols (row_values new_row)) id (t_uniq t)) in
          (Ok new_row, t)
      end
  end.

Definition t_take (t : InMemoryTable) (id : Z) : option Row * InMemoryTable :=
  let removed := t_rows t !! id in
  let t := set_rows t (delete id (t_rows t)) in
  (removed,
   match removed with
   | Some row => unindex_row t (uniq_cols t) id (row_values row)
   | None => t
   end).

Definition t_scan `{RowOrder} (t : InMemoryTable) : list Row := (row_enum (t_rows t)).*2.

Definition t_count (t : InMemoryTable) : nat := size (t_rows t).

Definition t_lookup_by_unique (t : InMemoryTable) (col : string) (v : value)
    : result core_error (option Row) :=
  let is_uniq := existsb (λ c, String.eqb (col_name c) col && (primary_key c || unique c))
                   (columns (t_schema t)) in
  if negb is_uniq then Err (ConstraintViolation col)
  else if is_null v then Ok None
  else match t_uniq t !! col ≫= λ idx, hm_get idx v with
       | Some rid => Ok (t_rows t !! rid)
       | None => Ok None
       end.

Definition t_insert_preserving_id (t : InMemoryTable) (row : Row)
    : result core_error Z * InMemoryTable :=
  let want := row_id row in
  match t_rows t !! want with
  | Some _ => (Err (DuplicateKey (DupRow want)), t)
  | None =>
      let cols := uniq_cols t in
      match check_uniq t cols (row_values row) (Some want) with
      | Err e => (Err e, t)
      | Ok _ =>
          let t := if t_next_id t <=? want then set_next_id t (wrap 64 (want + 1)) else t in
          let t := index_row t cols want (row_values row) in
          (Ok want, set_rows t (<[want := row]> (t_rows t)))
      end
  end.

(** ** The engine: resolve the table, lock it, run the operation *)

Definition table (e : Engine) (name : string) : result core_error InMemoryTable :=
  ok_or (e !! name) (TableNotFound name).

(** An operation under the table's write lock. *)
Definition with_table {A} (e : Engine) (name : string)
    (f : InMemoryTable → result core_error A * InMemoryTable) : result core_error A * Engine :=
  match table e name with
  | Err er => (Err er, e)
  | Ok t => let '(r, t') := f t in (r, <[name := t']> e)
  end.

Definition insert (e : Engine) (name : string) (row : Row) : result core_error Z * Engine :=
  with_table e name (λ t, t_insert t row).
Definition insert_unchecked (e : Engine) (name : string) (row : Row)
    : result core_error Z * Engine := with_table e name (λ t, t_insert_unchecked t row).
Definition get (e : Engine) (name : string) (id : Z) : result core_error (option Row) :=
  t ← table e name; Ok (t_get t id).
Definition update (e : Engine) (name : string) (id : Z) (vs : values)
    : result core_error Row * Engine := with_table e name (λ t, t_update t id vs).
Definition take (e : Engine) (name : string) (id : Z) : result core_error (option Row) * Engine :=
  with_table e name (λ t, let '(r, t) := t_take t id in (Ok r, t)).
Definition delete_row (e : Engine) (name : string) (id : Z) : result core_error bool * Engine :=
  let '(r, e) := take e name id in ((λ o, bool_decide (is_Some o)) <$> r, e).
Definition scan `{RowOrder} (e : Engine) (name : string) : result core_error (list Row) :=
  t ← table e name; Ok (t_scan t).
Definition engine_schema (e : Engine) (name : string) : result core_error TableSchema :=
  t ← table e name; Ok (t_schema t).
Definition count (e : Engine) (name : string) : result core_error nat :=
  t ← table e name; Ok (t_count t).
Definition lookup_by_unique (e : Engine) (name col : string) (v : value)
    : result core_error (option Row) := t ← table e name; t_lookup_by_unique t col v.
Definition insert_preserving_id (e : Engine) (name : string) (row : Row)
    : result core_error Z * Engine := with_table e name (λ t, t_insert_preserving_id t row).
Definition table_exists (e : Engine) (name : string) : bool := bool_decide (is_Some (e !! name)).

(** [create_table] takes no lock across its test and its insertion: two steps. *)
Definition create_check (e : Engine) (s : TableSchema) : result core_error () :=
  if table_exists e (schema_name s) then Err (TableAlreadyExists (schema_name s)) else Ok ().
Definition create_put (e : Engine) (s : TableSchema) : Engine :=
  <[schema_name s := InMemoryTable_new s]> e.
Definition create_table (e : Engine) (s : TableSchema) : result core_error () * Engine :=
  match create_check e s with
  | Err er => (Err er, e)
  | Ok _ => (Ok (), create_put e s)
  end.

Definition drop_table (e : Engine) (name : string) : result core_error () * Engine :=
  match e !! name with
  | Some _ => (Ok (), delete name e)
  | None => (Err (TableNotFound name), e)
  end.

(** ** The view of the unique indexes *)

(** The owner of value [v] in column [c]. *)
Definition idx (u : gmap string (hmap Z)) (c : string) (v : value) : option Z :=
  u !! c ≫= λ m, hm_get m v.

Lemma idx_empty c v : idx ∅ c v = None.
Proof. unfold idx. by rewrite lookup_empty. Qed.

Lemma idx_self u c v id : idx u c v = Some id → value_eqb v v = true.
Proof. unfold idx. destruct (u !! c); [apply hm_get_self|done]. Qed.

Lemma idx_insert u c v id c' v' :
  idx (uniq_insert c v id u) c' v' =
  if decide (c = c' ∧ v = v') then (if value_eqb v v then Some id else None) else idx u c' v'.
Proof.
  unfold idx, uniq_insert. destruct (decide (c = c')) as [<-|N].
  - rewrite lookup_insert_eq. simpl. rewrite hm_get_insert.
    destruct (decide (v = v')), (decide (c = c ∧ v = v')); try naive_solver.
    destruct (u !! c); simpl; [done|]. by rewrite hm_get_empty.
  - rewrite lookup_insert_ne by done. by rewrite decide_False by naive_solver.
Qed.

Lemma idx_remove u c v id c' v' :
  idx (uniq_remove c v id u) c' v' =
  if decide (c = c' ∧ v = v' ∧ idx u c v = Some id) then None else idx u c' v'.
Proof.
  unfold uniq_remove. destruct (u !! c) as [m|] eqn:E.
  - assert (idx u c v = hm_get m v) as Ei by (unfold idx; by rewrite E).
    rewrite Ei. case_bool_decide as B.
    + unfold idx. destruct (decide (c = c')) as [<-|N].
      * rewrite lookup_insert_eq, E. simpl. rewrite hm_get_remove.
        destruct (decide (v = v')), (decide (c = c ∧ v = v' ∧ _)); naive_solver.
      * rewrite lookup_insert_ne by done. by rewrite decide_False by naive_solver.
    + by rewrite decide_False by naive_solver.
  - rewrite decide_False; [done|]. unfold idx. rewrite E. naive_solver.
Qed.

Lemma idx_index_cols cols : ∀ id vs u c v,
  idx (index_cols cols id vs u) c v =
  if decide (c ∈ cols ∧ vs !! c = Some v ∧ v ≠ VNull ∧ value_eqb v v = true)
  then Some id else idx u c v.
Proof.
  induction cols as [|c0 cols IH]; intros id vs u c v; cbn [index_cols unindex_cols].
  { by rewrite decide_False by (rewrite elem_of_nil; naive_solver). }
  rewrite IH. clear IH. destruct (decide (c ∈ cols ∧ _)) as [D|D].
  { rewrite decide_True; [done|]. rewrite elem_of_cons. naive_solver. }
  destruct (vs !! c0) as [w|] eqn:E.
  - destruct (is_null w) eqn:Nw.
    + apply is_null_spec in Nw as ->. rewrite decide_False; [done|].
      rewrite elem_of_cons. naive_solver.
    + assert (w ≠ VNull) by (intros ->; done). rewrite idx_insert.
      destruct (decide (c0 = c ∧ w = v)) as [[-> ->]|N].
      * destruct (value_eqb v v) eqn:V.
        -- rewrite decide_True; [done|]. rewrite elem_of_cons. naive_solver.
        -- rewrite decide_False by naive_solver. symmetry.
           destruct (idx u c v) eqn:I; [|done]. apply idx_self in I. congruence.
      * rewrite decide_False; [done|]. rewrite elem_of_cons. naive_solver.
  - rewrite decide_False; [done|]. rewrite elem_of_cons. naive_solver.
Qed.

Lemma idx_unindex_cols cols : ∀ id vs u c v,
  idx (unindex_cols cols id vs u) c v =
  if decide (c ∈ cols ∧ vs !! c = Some v ∧ idx u c v = Some id) then None else idx u c v.
Proof.
  induction cols as [|c0 cols IH]; intros id vs u c v; cbn [index_cols unindex_cols].
  { by rewrite decide_False by (rewrite elem_of_nil; naive_solver). }
  rewrite IH. clear IH. destruct (vs !! c0) as [w|] eqn:E.
  - rewrite !idx_remove. destruct (decide (c0 = c ∧ w = v ∧ _)) as [(-> & -> & I)|N].
    + rewrite decide_False by naive_solver. rewrite decide_True; [done|].
      rewrite elem_of_cons. naive_solver.
    + destruct (decide (c ∈ cols ∧ _)), (decide (c ∈ c0 :: cols ∧ _)) as [|N2];
        rewrite ?elem_of_cons in *; naive_solver.
  - destruct (decide (c ∈ cols ∧ _)), (decide (c ∈ c0 :: cols ∧ _)) as [|N2];
      rewrite ?elem_of_cons in *; naive_solver.
Qed.

Lemma add_current_index cols : ∀ vs id u,
  add_current (col_values cols vs) id u = index_cols cols id vs u.
Proof.
  unfold add_current, col_values.
  induction cols as [|c cols IH]; intros vs id u; simpl; [done|].
  destruct (vs !! c); simpl; [apply IH|apply IH].
Qed.

(** [new.get(c) == Some(&v)] *)
Definition same_key (new_vs : values) (c : string) (v : value) : bool :=
  match new_vs !! c with Some w => value_eqb w v | None => false end.

Lemma idx_drop_stale cols : ∀ old new_vs id u c v,
  idx (drop_stale (col_values cols old) new_vs id u) c v =
  if decide (c ∈ cols ∧ old !! c = Some v ∧ same_key new_vs c v = false ∧ idx u c v = Some id)
  then None else idx u c v.
Proof.
  unfold drop_stale, col_values.
  induction cols as [|c0 cols IH]; intros old new_vs id u c v; cbn [omap list_omap foldl].
  { by rewrite decide_False by (rewrite elem_of_nil; naive_solver). }
  destruct (old !! c0) as [w|] eqn:E; cbn [fmap option_fmap option_map foldl fst snd].
  - rewrite IH. fold (same_key new_vs c0 w). clear IH.
    destruct (same_key new_vs c0 w) eqn:S.
    + destruct (decide (c ∈ cols ∧ _)), (decide (c ∈ c0 :: cols ∧ _)) as [|N2];
        rewrite ?elem_of_cons in *; intuition (subst; congruence).
    + rewrite !idx_remove. destruct (decide (c0 = c ∧ w = v ∧ _)) as [(-> & -> & I)|N].
      * rewrite decide_False by naive_solver. rewrite decide_True; [done|].
        rewrite elem_of_cons. naive_solver.
      * destruct (decide (c ∈ cols ∧ _)), (decide (c ∈ c0 :: cols ∧ _)) as [|N2];
          rewrite ?elem_of_cons in *; naive_solver.
  - rewrite IH. destruct (decide (c ∈ cols ∧ _)), (decide (c ∈ c0 :: cols ∧ _)) as [|N2];
      rewrite ?elem_of_cons in *; naive_solver.
Qed.

(** ** The specification: a table without indexes, checked by scanning *)

Record atable : Type := ATable {
  a_schema : TableSchema;
  a_rows : gmap Z values;
  a_next : Z
}.

(** Another row holds a value [==] to [v] in column [c]: an O(N) scan. *)
Definition clash (rows : gmap Z values) (c : string) (v : value) (self_id : option Z) : bool :=
  existsb (λ p, bool_decide (Some p.1 ≠ self_id) &&
                match p.2 !! c with Some w => value_eqb v w | None => false end)
    (map_to_list rows).

Fixpoint spec_check (rows : gmap Z values) (cols : list string) (vs : values)
    (self_id : option Z) : result core_error () :=
  match cols with
  | [] => Ok ()
  | c :: cols =>
      match vs !! c with
      | Some v =>
          if negb (is_null v) && clash rows c v self_id
          then Err (DuplicateKey (DupColumn c v)) else spec_check rows cols vs self_id
      | None => spec_check rows cols vs self_id
      end
  end.

Definition schema_uniq_cols (s : TableSchema) : list string :=
  col_name <$> filter (λ c, primary_key c || unique c = true) (columns s).

(** The operations of a table and what they return. *)
Inductive table_op : Type :=
| OpInsert (r : Row)
| OpInsertUnchecked (r : Row)
| OpInsertPreserving (r : Row)
| OpUpdate (id : Z) (vs : values)
| OpTake (id : Z)
| OpGet (id : Z)
| OpLookup (col : string) (v : value)
| OpCount.

Inductive op_result : Type :=
| ResId (r : result core_error Z)
| ResRow (r : result core_error Row)
| ResOpt (r : result core_error (option Row))
| ResCount (n : nat).

Definition run_op (op : table_op) (t : InMemoryTable) : op_result * InMemoryTable :=
  match op with
  | OpInsert r => let '(x, t) := t_insert t r in (ResId x, t)
  | OpInsertUnchecked r => let '(x, t) := t_insert_unchecked t r in (ResId x, t)
  | OpInsertPreserving r => let '(x, t) := t_insert_preserving_id t r in (ResId x, t)
  | OpUpdate id vs => let '(x, t) := t_update t id vs in (ResRow x, t)
  | OpTake id => let '(x, t) := t_take t id in (ResOpt (Ok x), t)
  | OpGet id => (ResOpt (Ok (t_get t id)), t)
  | OpLookup c v => (ResOpt (t_lookup_by_unique t c v), t)
  | OpCount => (ResCount (t_count t), t)
  end.

Definition spec_insert (a : atable) (vs : values) : op_result * atable :=
  match spec_check (a_rows a) (schema_uniq_cols (a_schema a)) vs None with
  | Err e => (ResId (Err e), a)
  | Ok _ =>
      (ResId (Ok (a_next a)),
       ATable (a_schema a) (<[a_next a := vs]> (a_rows a)) (a_next a + 1))
  end.

(** The row whose column [c] is [==] to [v], by scanning. *)
Definition spec_find (rows : gmap Z values) (c : string) (v : value) : option Row :=
  (λ p : nat * (Z * values), MkRow p.2.1 p.2.2) <$>
    list_find (λ p : Z * values, match p.2 !! c with Some w => value_eqb v w | None => false end = true)
      (map_to_list rows).

Definition spec_op (op : table_op) (a : atable) : op_result * atable :=
  match op with
  | OpInsert r =>
      match validate_row_values (a_schema a) (row_values r) with
      | Err e => (ResId (Err (CoreTypeError e)), a)
      | Ok _ => spec_insert a (row_values r)
      end
  | OpInsertUnchecked r => spec_insert a (row_values r)
  | OpInsertPreserving r =>
      match a_rows a !! row_id r with
      | Some _ => (ResId (Err (DuplicateKey (DupRow (row_id r)))), a)
      | None =>
          match spec_check (a_rows a) (schema_uniq_cols (a_schema a)) (row_values r)
                  (Some (row_id r)) with
          | Err e => (ResId (Err e), a)
          | Ok _ =>
              (ResId (Ok (row_id r)),
               ATable (a_schema a) (<[row_id r := row_values r]> (a_rows a))
                 (Z.max (a_next a) (row_id r + 1)))
          end
      end
  | OpUpdate id vs =>
      match a_rows a !! id with
      | None => (ResRow (Err (RowNotFound id)), a)
      | Some old =>
          match spec_check (a_rows a) (schema_uniq_cols (a_schema a)) vs (Some id) with
          | Err e => (ResRow (Err e), a)
          | Ok _ => (ResRow (Ok (MkRow id (vs ∪ old))),
                     ATable (a_schema a) (<[id := vs ∪ old]> (a_rows a)) (a_next a))
          end
      end
  | OpTake id =>
      (ResOpt (Ok (MkRow id <$> a_rows a !! id)),
       ATable (a_schema a) (delete id (a_rows a)) (a_next a))
  | OpGet id => (ResOpt (Ok (MkRow id <$> a_rows a !! id)), a)
  | OpLookup c v =>
      (ResOpt (if bool_decide (c ∈ schema_uniq_cols (a_schema a))
               then Ok (if is_null v then None else spec_find (a_rows a) c v)
               else Err (ConstraintViolation c)), a)
  | OpCount => (ResCount (size (a_rows a)), a)
  end.

Definition abs (t : InMemoryTable) : atable :=
  ATable (t_schema t) (row_values <$> t_rows t) (t_next_id t).

(** ** The invariant *)

Record table_inv (t : InMemoryTable) : Prop := {
  inv_next : 0 <= t_next_id t <= u64_max;
  inv_ids id r : t_rows t !! id = Some r → row_id r = id ∧ 0 <= id < t_next_id t;
  inv_keys id r c v :
    t_rows t !! id = Some r → c ∈ uniq_cols t → row_values r !! c = Some v → key_ok v = true;
  inv_idx c v id : c ∈ uniq_cols t →
    idx (t_uniq t) c v = Some id ↔
    ∃ r, t_rows t !! id = Some r ∧ row_values r !! c = Some v ∧ v ≠ VNull
}.

(** Values that index the unique columns are comparable keys. *)
Definition vals_ok (s : TableSchema) (vs : values) : Prop :=
  ∀ c v, c ∈ schema_uniq_cols s → vs !! c = Some v → key_ok v = true.

(** What an operation may be given: comparable keys, and an id space that is
    not exhausted. *)
Definition op_ok (s : TableSchema) (next : Z) (op : table_op) : Prop :=
  match op with
  | OpInsert r | OpInsertUnchecked r => vals_ok s (row_values r) ∧ next < u64_max
  | OpInsertPreserving r => vals_ok s (row_values r) ∧ 0 <= row_id r < u64_max
  | OpUpdate _ vs => vals_ok s vs
  | OpLookup _ v => key_ok v = true
  | OpTake _ | OpGet _ | OpCount => True
  end.

(** ** The index check is the scan *)

Lemma abs_lookup t id : a_rows (abs t) !! id = row_values <$> t_rows t !! id.
Proof. simpl. by rewrite lookup_fmap. Qed.

Lemma clash_spec t c v self :
  table_inv t → c ∈ uniq_cols t → key_ok v = true → v ≠ VNull →
  clash (a_rows (abs t)) c v self = true ↔
  ∃ owner, idx (t_uniq t) c v = Some owner ∧ Some owner ≠ self.
Proof.
  intros I C K N. unfold clash. rewrite existsb_exists. split.
  - intros ([id vs] & Hin & H). apply list_elem_of_In, elem_of_map_to_list in Hin.
    rewrite abs_lookup in Hin. apply fmap_Some in Hin as (r & Hr & ->). simpl in H.
    apply andb_true_iff in H as [Hs H]. apply bool_decide_eq_true in Hs.
    destruct (row_values r !! c) as [w|] eqn:Ew; [|done].
    pose proof (inv_keys t I _ _ _ _ Hr C Ew).
    apply value_eqb_key_ok in H as <-; [|done..].
    exists id. split; [|done]. apply (inv_idx t I); eauto.
  - intros (id & Hi & Hs). apply (inv_idx t I) in Hi as (r & Hr & Hv & _); [|done].
    exists (id, row_values r). split.
    + apply list_elem_of_In, elem_of_map_to_list. by rewrite abs_lookup, Hr.
    + simpl. rewrite bool_decide_true by done. rewrite Hv. simpl. by apply key_ok_refl.
Qed.

Lemma check_uniq_spec t cols vs self :
  table_inv t → cols ⊆ uniq_cols t → vals_ok (t_schema t) vs →
  check_uniq t cols vs self = spec_check (a_rows (abs t)) cols vs self.
Proof.
  intros I. induction cols as [|c cols IH]; intros S V; cbn [check_uniq spec_check]; [done|].
  rewrite <- IH by (done || set_solver). clear IH.
  destruct (vs !! c) as [v|] eqn:E; [|done].
  assert (c ∈ uniq_cols t) as C by set_solver.
  destruct (is_null v) eqn:N; [done|].
  assert (v ≠ VNull) as Nv by (intros ->; done).
  pose proof (clash_spec t c v self I C (V _ _ C E) Nv) as CS. unfold idx in CS.
  destruct (clash _ c v self) eqn:CL; simpl.
  - destruct (proj1 CS eq_refl) as (o & (m & Em & Ho)%bind_Some & Hs).
    rewrite Em, Ho. by rewrite bool_decide_true.
  - destruct (t_uniq t !! c) as [m|]; [|done]. destruct (hm_get m v) as [o|] eqn:Ho; [|done].
    rewrite bool_decide_false; [done|]. intros Hs. simpl in CS.
    assert (false = true) as [=]. apply CS. eauto.
Qed.

Lemma check_uniq_ok t cols vs self :
  check_uniq t cols vs self = Ok () →
  ∀ c v o, c ∈ cols → vs !! c = Some v → v ≠ VNull → idx (t_uniq t) c v = Some o → Some o = self.
Proof.
  induction cols as [|c0 cols IH]; cbn [check_uniq]; intros H c v o C E N Ho.
  { by apply elem_of_nil in C. }
  apply elem_of_cons in C as [->|C].
  - rewrite E in H. destruct (is_null v) eqn:Nv; [by apply is_null_spec in Nv|].
    unfold idx in Ho. apply bind_Some in Ho as (m & Em & Em'). rewrite Em, Em' in H.
    destruct (decide (Some o = self)) as [|B]; [done|]. by rewrite bool_decide_true in H.
  - eapply IH; eauto. repeat case_match; try done.
Qed.

Lemma check_uniq_err t cols vs self e :
  check_uniq t cols vs self = Err e → ∃ c v, c ∈ cols ∧ vs !! c = Some v ∧ e = DuplicateKey (DupColumn c v).
Proof.
  induction cols as [|c0 cols IH]; cbn [check_uniq]; intros H; [done|].
  assert (check_uniq t cols vs self = Err e → ∃ c v, c ∈ c0 :: cols ∧ vs !! c = Some v ∧
    e = DuplicateKey (DupColumn c v)) as IH'.
  { intros (c & v & ? & ? & ?)%IH. exists c, v. by rewrite elem_of_cons; auto. }
  destruct (vs !! c0) as [v|] eqn:E; [|by apply IH'].
  repeat case_match; try (by apply IH'). injection H as <-.
  exists c0, v. rewrite elem_of_cons. auto.
Qed.

(** ** Preservation *)

Lemma inv_new s : table_inv (InMemoryTable_new s).
Proof.
  split; unfold u64_max; simpl.
  - lia.
  - intros id r. by rewrite lookup_empty.
  - intros id r c v. by rewrite lookup_empty.
  - intros c v id _. rewrite idx_empty. split; [done|]. intros (r & H & _).
    by rewrite lookup_empty in H.
Qed.

(** Storing a row under a fresh id. *)
Lemma inv_add t id vs next self :
  table_inv t → t_rows t !! id = None → 0 <= id < next → t_next_id t <= next <= u64_max →
  vals_ok (t_schema t) vs → check_uniq t (uniq_cols t) vs self = Ok () →
  self = None ∨ self = Some id →
  table_inv (MkTable (t_schema t) (<[id := MkRow id vs]> (t_rows t)) next
               (index_cols (uniq_cols t) id vs (t_uniq t))).
Proof.
  intros I F Hid Hn V CK Hself. pose proof (inv_next t I). split; simpl.
  - lia.
  - intros id' r. rewrite lookup_insert_Some. intros [[<- <-]|[? Hr]]; [done|].
    apply (inv_ids t I) in Hr as [??]. split; [done|lia].
  - intros id' r c v. rewrite lookup_insert_Some. intros [[<- <-]|[? Hr]] C Hv.
    + by eapply V.
    + by eapply (inv_keys t I).
  - intros c v id' C. rewrite idx_index_cols. change (uniq_cols _) with (uniq_cols t) in *.
    case_decide as D.
    + destruct D as (_ & Hv & N & K). split.
      * intros [= <-]. exists (MkRow id vs). rewrite lookup_insert_eq. done.
      * intros (r & Hr & Hrv & _). apply lookup_insert_Some in Hr as [[-> _]|[Hne Hr]]; [done|].
        exfalso. assert (idx (t_uniq t) c v = Some id') as Hi by (apply (inv_idx t I); eauto).
        pose proof (check_uniq_ok _ _ _ _ CK c v id' C Hv N Hi). naive_solver.
    + rewrite (inv_idx t I) by done. split.
      * intros (r & Hr & Hv & N). exists r. rewrite lookup_insert_ne by congruence. done.
      * intros (r & Hr & Hv & N). apply lookup_insert_Some in Hr as [[<- <-]|[Hne Hr]]; [|eauto].
        exfalso. apply D. simpl in Hv. split_and!; try done. apply key_ok_refl. eauto.
Qed.

Lemma inv_take t id row :
  table_inv t → t_rows t !! id = Some row →
  table_inv (unindex_row (set_rows t (delete id (t_rows t))) (uniq_cols t) id (row_values row)).
Proof.
  intros I F. split; simpl.
  - apply (inv_next t I).
  - intros id' r [_ Hr]%lookup_delete_Some. by apply (inv_ids t I).
  - intros id' r c v [_ Hr]%lookup_delete_Some. by apply (inv_keys t I id' r).
  - intros c v id' C. change (uniq_cols _) with (uniq_cols t) in C.
    rewrite idx_unindex_cols. setoid_rewrite lookup_delete_Some. case_decide as D.
    + split; [done|]. intros (r & [Hne Hr] & Hv & N). destruct D as (_ & _ & Hi).
      assert (idx (t_uniq t) c v = Some id') by (apply (inv_idx t I); eauto). congruence.
    + rewrite (inv_idx t I) by done. split.
      * intros (r & Hr & Hv & N). exists r. split_and!; try done. intros <-.
        apply D. assert (r = row) as -> by congruence. split_and!; [done..|].
        apply (inv_idx t I); eauto.
      * intros (r & [_ Hr] & ?). eauto.
Qed.

Lemma same_key_ok new_vs c v :
  (∀ w, new_vs !! c = Some w → key_ok w = true) → key_ok v = true →
  same_key new_vs c v = true ↔ new_vs !! c = Some v.
Proof.
  intros K Kv. unfold same_key. destruct (new_vs !! c) as [w|]; [|naive_solver].
  rewrite value_eqb_key_ok by auto. naive_solver.
Qed.

Lemma inv_update t id cur vs :
  table_inv t → t_rows t !! id = Some cur → vals_ok (t_schema t) vs →
  check_uniq t (uniq_cols t) vs (Some id) = Ok () →
  table_inv (MkTable (t_schema t) (<[id := MkRow (row_id cur) (vs ∪ row_values cur)]> (t_rows t))
    (t_next_id t)
    (add_current (col_values (uniq_cols t) (vs ∪ row_values cur)) id
       (drop_stale (col_values (uniq_cols t) (row_values cur)) (vs ∪ row_values cur) id (t_uniq t)))).
Proof.
  intros I F V CK. set (new_vs := vs ∪ row_values cur).
  assert (∀ c v, c ∈ uniq_cols t → new_vs !! c = Some v → key_ok v = true) as K.
  { intros c v C [?|[_ ?]]%lookup_union_Some_raw; [by eapply V|by eapply (inv_keys t I)]. }
  split; simpl.
  - apply (inv_next t I).
  - intros id' r [[<- <-]|[? Hr]]%lookup_insert_Some; [|by apply (inv_ids t I)].
    exact (inv_ids t I id cur F).
  - intros id' r c v [[<- <-]|[? Hr]]%lookup_insert_Some C Hv; [by eapply K|].
    by eapply (inv_keys t I).
  - intros c v id' C. change (uniq_cols _) with (uniq_cols t) in C.
    rewrite add_current_index, idx_index_cols, idx_drop_stale.
    case_decide as D.
    + destruct D as (_ & Hv & N & _). split.
      * intros [= <-]. exists (MkRow (row_id cur) new_vs). by rewrite lookup_insert_eq.
      * intros (r & Hr & Hrv & _). apply lookup_insert_Some in Hr as [[-> _]|[Hne Hr]]; [done|].
        exfalso. assert (idx (t_uniq t) c v = Some id') as Hi by (apply (inv_idx t I); eauto).
        apply lookup_union_Some_raw in Hv as [Hv|[_ Hv]].
        -- pose proof (check_uniq_ok _ _ _ _ CK c v id' C Hv N Hi). congruence.
        -- assert (idx (t_uniq t) c v = Some id) by (apply (inv_idx t I); eauto). congruence.
    + assert (¬ (new_vs !! c = Some v ∧ v ≠ VNull)) as D'.
      { intros [Hv N]. apply D. split_and!; try done. apply key_ok_refl. eauto. }
      setoid_rewrite lookup_insert_Some. case_decide as S.
      * split; [done|]. destruct S as (_ & _ & _ & Hi).
        intros (r & [[<- <-]|[Hne Hr]] & Hv & N); [by destruct D'|].
        assert (idx (t_uniq t) c v = Some id') by (apply (inv_idx t I); eauto). congruence.
      * rewrite (inv_idx t I) by done. split.
        -- intros (r & Hr & Hv & N). destruct (decide (id = id')) as [<-|]; [|by eauto 10].
           exfalso. assert (r = cur) as -> by congruence. apply S. split_and!; try done.
           ++ apply not_true_iff_false. intros E.
              apply same_key_ok in E; [by apply D'|eauto|by eapply (inv_keys t I)].
           ++ apply (inv_idx t I); eauto.
        -- intros (r & [[<- <-]|[Hne Hr]] & Hv & N); [by destruct D'|eauto].
Qed.

(** ** Refinement, one operation at a time *)

Definition refines (t : InMemoryTable) (x : op_result * InMemoryTable) (y : op_result * atable)
    : Prop := table_inv x.2 ∧ x.1 = y.1 ∧ abs x.2 = y.2 ∧ t_schema x.2 = t_schema t.

Lemma uniq_cols_schema t : uniq_cols t = schema_uniq_cols (t_schema t).
Proof. done. Qed.

Lemma insert_unchecked_refines t r :
  table_inv t → vals_ok (t_schema t) (row_values r) → t_next_id t < u64_max →
  refines t (let '(x, t') := t_insert_unchecked t r in (ResId x, t'))
    (spec_insert (abs t) (row_values r)).
Proof.
  intros I V L. pose proof (inv_next t I) as Hn.
  unfold t_insert_unchecked, spec_insert.
  pose proof (check_uniq_spec t (uniq_cols t) (row_values r) None I ltac:(done) V) as CS.
  change (schema_uniq_cols (a_schema (abs t))) with (uniq_cols t). rewrite <- CS.
  destruct (check_uniq t (uniq_cols t) (row_values r) None) as [[]|e] eqn:CK; [|by split_and!].
  unfold next_row_id, refines. cbn -[uniq_cols].
  assert (wrap 64 (t_next_id t + 1) = t_next_id t + 1) as W.
  { apply wrap_small. unfold u64_max in *. lia. }
  rewrite W. change (uniq_cols _) with (uniq_cols t).
  split_and!; [|done| |done].
  - eapply (inv_add t (t_next_id t) (row_values r) (t_next_id t + 1) None); eauto; try lia.
    destruct (t_rows t !! t_next_id t) as [r'|] eqn:E; [|done].
    apply (inv_ids t I) in E. lia.
  - unfold abs. simpl. f_equal. by rewrite fmap_insert.
Qed.

Lemma insert_preserving_refines t r :
  table_inv t → vals_ok (t_schema t) (row_values r) → 0 <= row_id r < u64_max →
  refines t (let '(x, t') := t_insert_preserving_id t r in (ResId x, t'))
    (spec_op (OpInsertPreserving r) (abs t)).
Proof.
  intros I V L. pose proof (inv_next t I) as Hn.
  unfold t_insert_preserving_id. cbn [spec_op]. rewrite abs_lookup.
  destruct (t_rows t !! row_id r) as [r'|] eqn:F; [by split_and!|]. simpl.
  pose proof (check_uniq_spec t (uniq_cols t) (row_values r) (Some (row_id r)) I ltac:(done) V) as CS.
  change (schema_uniq_cols (t_schema t)) with (uniq_cols t).
  change (row_values <$> t_rows t) with (a_rows (abs t)). rewrite <- CS.
  destruct (check_uniq t (uniq_cols t) (row_values r) _) as [[]|e] eqn:CK; [|by split_and!].
  assert (wrap 64 (row_id r + 1) = row_id r + 1) as W.
  { apply wrap_small. unfold u64_max in *. lia. }
  rewrite W. destruct r as [id vs]. cbn [row_id row_values] in *.
  assert (∀ next, next = Z.max (t_next_id t) (id + 1) →
    refines t (ResId (Ok id), MkTable (t_schema t) (<[id := MkRow id vs]> (t_rows t)) next
                 (index_cols (uniq_cols t) id vs (t_uniq t)))
      (ResId (Ok id), ATable (t_schema t) (<[id := vs]> (a_rows (abs t)))
                        (Z.max (t_next_id t) (id + 1)))) as G.
  { intros next ->. split_and!; [|done| |done].
    - eapply inv_add; eauto; lia.
    - unfold abs. simpl. f_equal. by rewrite fmap_insert. }
  destruct (Z.leb_spec (t_next_id t) id); apply G; simpl; lia.
Qed.

Lemma update_refines t id vs :
  table_inv t → vals_ok (t_schema t) vs →
  refines t (let '(x, t') := t_update t id vs in (ResRow x, t')) (spec_op (OpUpdate id vs) (abs t)).
Proof.
  intros I V. unfold t_update. cbn [spec_op]. rewrite abs_lookup.
  destruct (t_rows t !! id) as [cur|] eqn:F; [|by split_and!]. simpl.
  pose proof (check_uniq_spec t (uniq_cols t) vs (Some id) I ltac:(done) V) as CS.
  change (schema_uniq_cols (t_schema t)) with (uniq_cols t).
  change (row_values <$> t_rows t) with (a_rows (abs t)). rewrite <- CS.
  destruct (check_uniq t (uniq_cols t) vs _) as [[]|e] eqn:CK; [|by split_and!].
  destruct (inv_ids t I _ _ F) as [Eid _].
  split_and!; [|simpl; by rewrite Eid| |done].
  - exact (inv_update t id cur vs I F V CK).
  - unfold abs. simpl. f_equal. by rewrite fmap_insert.
Qed.

Lemma take_refines t id :
  table_inv t →
  refines t (let '(x, t') := t_take t id in (ResOpt (Ok x), t')) (spec_op (OpTake id) (abs t)).
Proof.
  intros I. unfold t_take. cbn [spec_op]. rewrite abs_lookup.
  assert (row_values <$> delete id (t_rows t) = delete id (a_rows (abs t))) as D
    by apply fmap_delete.
  destruct (t_rows t !! id) as [row|] eqn:F.
  - destruct (inv_ids t I _ _ F) as [Eid _]. split_and!; [exact (inv_take t id row I F)|..|done].
    + simpl. by destruct row; simpl in *; subst.
    + unfold abs. simpl. by rewrite D.
  - assert (delete id (t_rows t) = t_rows t) as E by by apply delete_id.
    split_and!; simpl; [|done|by unfold abs; simpl; rewrite D|done].
    destruct t. unfold set_rows. simpl in *. by rewrite E.
Qed.

(** Scanning for a key of a unique column finds the index's row. *)
Lemma spec_find_idx t c v :
  table_inv t → c ∈ uniq_cols t → key_ok v = true → v ≠ VNull →
  spec_find (a_rows (abs t)) c v = idx (t_uniq t) c v ≫= λ id, t_rows t !! id.
Proof.
  intros I C K N. unfold spec_find.
  destruct (list_find _ _) as [[n [id vs]]|] eqn:E; simpl.
  - apply list_find_Some in E as (Hin & H & _). simpl in H.
    apply list_elem_of_lookup_2, elem_of_map_to_list in Hin. rewrite abs_lookup in Hin.
    apply fmap_Some in Hin as (r & Hr & ->).
    destruct (row_values r !! c) as [w|] eqn:Ew; [|done].
    pose proof (inv_keys t I _ _ _ _ Hr C Ew).
    apply value_eqb_key_ok in H as <-; [|done..].
    assert (idx (t_uniq t) c v = Some id) as -> by (apply (inv_idx t I); eauto). simpl.
    rewrite Hr. destruct (inv_ids t I _ _ Hr) as [<- _]. by destruct r.
  - apply list_find_None in E. destruct (idx (t_uniq t) c v) as [id|] eqn:Hi; [|done].
    exfalso. apply (inv_idx t I) in Hi as (r & Hr & Hv & _); [|done].
    rewrite Forall_forall in E. apply (E (id, row_values r)).
    + apply elem_of_map_to_list. by rewrite abs_lookup, Hr.
    + simpl. rewrite Hv. by apply key_ok_refl.
Qed.

Lemma uniq_cols_existsb s c :
  existsb (λ d, String.eqb (col_name d) c && (primary_key d || unique d)) (columns s) =
  bool_decide (c ∈ schema_uniq_cols s).
Proof.
  apply eq_true_iff_eq. rewrite existsb_exists, bool_decide_eq_true.
  unfold schema_uniq_cols. rewrite list_elem_of_fmap. split.
  - intros (d & Hd & [E P]%andb_true_iff). apply String.eqb_eq in E as <-.
    exists d. split; [done|]. apply list_elem_of_filter. split; [done|].
    by apply list_elem_of_In.
  - intros (d & -> & [P Hd]%list_elem_of_filter). exists d.
    split; [by apply list_elem_of_In|]. by rewrite String.eqb_refl, P.
Qed.

Lemma lookup_refines t c v :
  table_inv t → key_ok v = true →
  refines t (ResOpt (t_lookup_by_unique t c v), t) (spec_op (OpLookup c v) (abs t)).
Proof.
  intros I K. split_and!; try done. unfold t_lookup_by_unique. cbn [fst snd spec_op].
  rewrite uniq_cols_existsb. simpl. case_bool_decide as C; [|done]. simpl.
  destruct (is_null v) eqn:N; [done|]. do 2 f_equal.
  assert (v ≠ VNull) by (intros ->; done).
  change (row_values <$> t_rows t) with (a_rows (abs t)). rewrite spec_find_idx by done.
  fold (idx (t_uniq t) c v). by destruct (idx (t_uniq t) c v).
Qed.

Lemma run_op_refines t op :
  table_inv t → op_ok (t_schema t) (t_next_id t) op →
  refines t (run_op op t) (spec_op op (abs t)).
Proof.
  intros I O. destruct op as [r|r|r|id vs|id|id|c v|]; cbn [op_ok] in O.
  - cbn [run_op spec_op]. unfold t_insert. simpl.
    destruct (validate_row_values _ _); [|by split_and!].
    destruct O. by apply insert_unchecked_refines.
  - destruct O. by apply insert_unchecked_refines.
  - destruct O. by apply insert_preserving_refines.
  - by apply update_refines.
  - by apply take_refines.
  - split_and!; try done. cbn [fst run_op spec_op]. rewrite abs_lookup. unfold t_get.
    destruct (t_rows t !! id) as [r|] eqn:F; [|done]. simpl.
    destruct (inv_ids t I _ _ F) as [<- _]. by destruct r.
  - by apply lookup_refines.
  - split_and!; try done. simpl. unfold t_count. by rewrite map_size_fmap.
Qed.

(** ** Traces *)

Fixpoint run_ops (ops : list table_op) (t : InMemoryTable) : list op_result * InMemoryTable :=
  match ops with
  | [] => ([], t)
  | op :: ops =>
      let '(r, t) := run_op op t in let '(rs, t) := run_ops ops t in (r :: rs, t)
  end.

Fixpoint spec_ops (ops : list table_op) (a : atable) : list op_result * atable :=
  match ops with
  | [] => ([], a)
  | op :: ops =>
      let '(r, a) := spec_op op a in let '(rs, a) := spec_ops ops a in (r :: rs, a)
  end.

(** Every operation of the trace is admissible where it runs. *)
Fixpoint trace_ok (ops : list table_op) (a : atable) : Prop :=
  match ops with
  | [] => True
  | op :: ops => op_ok (a_schema a) (a_next a) op ∧ trace_ok ops (spec_op op a).2
  end.

Lemma run_ops_refines ops : ∀ t,
  table_inv t → trace_ok ops (abs t) →
  table_inv (run_ops ops t).2 ∧ (run_ops ops t).1 = (spec_ops ops (abs t)).1 ∧
  abs (run_ops ops t).2 = (spec_ops ops (abs t)).2 ∧ t_schema (run_ops ops t).2 = t_schema t.
Proof.
  induction ops as [|op ops IH]; intros t I T; [done|]. destruct T as [O T]. simpl.
  destruct (run_op_refines t op I O) as (I' & Er & Ea & Es).
  destruct (run_op op t) as [r t'], (spec_op op (abs t)) as [ar a']. simpl in *. subst.
  destruct (IH t' I' T) as (I2 & Er2 & Ea2 & Es2).
  destruct (run_ops ops t') as [rs t2], (spec_ops ops (abs t')) as [ars a2]. simpl in *.
  split_and!; [done|congruence..].
Qed.

Lemma inv_unique t id1 id2 r1 r2 c v1 v2 :
  table_inv t → c ∈ uniq_cols t → t_rows t !! id1 = Some r1 → t_rows t !! id2 = Some r2 →
  row_values r1 !! c = Some v1 → row_values r2 !! c = Some v2 → v1 ≠ VNull →
  value_eqb v1 v2 = true → id1 = id2.
Proof.
  intros I C H1 H2 E1 E2 N Q. pose proof (inv_keys t I id1 r1 c v1 H1 C E1). pose proof (inv_keys t I id2 r2 c v2 H2 C E2).
  apply value_eqb_key_ok in Q as <-; [|done..].
  assert (idx (t_uniq t) c v1 = Some id1) by (apply (inv_idx t I); eauto).
  assert (idx (t_uniq t) c v1 = Some id2) by (apply (inv_idx t I); eauto). congruence.
Qed.

(** The allocator only grows, and an id it hands out is below it afterwards. *)
Definition allocates (op : table_op) : bool :=
  match op with OpInsert _ | OpInsertUnchecked _ => true | _ => false end.

Lemma spec_insert_next a vs r a' :
  spec_insert a vs = (r, a') → a_next a <= a_next a' ∧
  (∀ x, r = ResId (Ok x) → x = a_next a ∧ x < a_next a').
Proof.
  unfold spec_insert. destruct (spec_check _ _ _ _); intros [= <- <-]; simpl.
  - split; [lia|]. intros x [= <-]. lia.
  - split; [lia|]. done.
Qed.

Lemma spec_op_next op a r a' :
  spec_op op a = (r, a') → a_next a <= a_next a' ∧
  (∀ x, allocates op = true → r = ResId (Ok x) → x = a_next a ∧ x < a_next a').
Proof.
  destruct op as [r0|r0|r0|id vs|id|id|c v|]; cbn [spec_op allocates]; intros H.
  - destruct (validate_row_values _ _).
    + apply spec_insert_next in H. naive_solver.
    + injection H as <- <-. split; [lia|done].
  - apply spec_insert_next in H. naive_solver.
  - repeat case_match; simplify_eq/=; (split; [lia|done]).
  - repeat case_match; simplify_eq/=; (split; [lia|done]).
  - simplify_eq/=. split; [lia|done].
  - simplify_eq/=. split; [lia|done].
  - simplify_eq/=. split; [lia|done].
  - simplify_eq/=. split; [lia|done].
Qed.

Lemma spec_ops_next ops : ∀ a rs a' j op y,
  spec_ops ops a = (rs, a') → ops !! j = Some op → allocates op = true →
  rs !! j = Some (ResId (Ok y)) → a_next a <= y.
Proof.
  induction ops as [|op0 ops IH]; intros a rs a' j op y H Hj A Hr; [done|].
  simpl in H. destruct (spec_op op0 a) as [r a1] eqn:E1.
  destruct (spec_ops ops a1) as [rs' a2] eqn:E2. injection H as <- <-.
  apply spec_op_next in E1 as [L N]. destruct j as [|j]; simpl in *.
  - simplify_eq. destruct (N y); auto. lia.
  - assert (a_next a1 <= y) by eauto. lia.
Qed.

Lemma spec_ops_fresh ops : ∀ a rs a' i j op1 op2 x y,
  spec_ops ops a = (rs, a') → (i < j)%nat → ops !! i = Some op1 → ops !! j = Some op2 →
  allocates op1 = true → allocates op2 = true →
  rs !! i = Some (ResId (Ok x)) → rs !! j = Some (ResId (Ok y)) → x < y.
Proof.
  induction ops as [|op0 ops IH]; intros a rs a' i j op1 op2 x y H Hij H1 H2 A1 A2 R1 R2; [done|].
  simpl in H. destruct (spec_op op0 a) as [r a1] eqn:E1.
  destruct (spec_ops ops a1) as [rs' a2] eqn:E2. injection H as <- <-.
  destruct i as [|i], j as [|j]; simpl in *; try lia.
  - simplify_eq. apply spec_op_next in E1 as [_ N]. destruct (N x) as [_ L]; auto.
    assert (a_next a1 <= y) by (eapply spec_ops_next; eauto). lia.
  - eapply (IH a1 rs' a2 i j); eauto. lia.
Qed.

(** ** Operations of the engine *)

(** Any operation under the lock of table [n]. *)
Definition on_table (e : Engine) (n : string) (op : table_op) : result core_error op_result * Engine :=
  with_table e n (λ t, let '(r, t) := run_op op t in (Ok r, t)).

Lemma with_table_commute {A B} (f : InMemoryTable → result core_error A * InMemoryTable)
    (g : InMemoryTable → result core_error B * InMemoryTable) e n m :
  n ≠ m →
  let '(ra, e1) := with_table e n f in let '(rb, e2) := with_table e1 m g in
  let '(rb', e1') := with_table e m g in let '(ra', e2') := with_table e1' n f in
  ra = ra' ∧ rb = rb' ∧ e2 = e2'.
Proof.
  intros N. unfold with_table, table.
  destruct (e !! n) as [t|] eqn:En, (e !! m) as [u|] eqn:Em; simpl.
  - destruct (f t) as [ra t'] eqn:Ef, (g u) as [rb u'] eqn:Eg.
    rewrite !lookup_insert_ne, Em, En by done. simpl. rewrite Ef, Eg.
    split_and!; [done..|]. apply insert_insert_ne. congruence.
  - destruct (f t) as [ra t'] eqn:Ef. rewrite lookup_insert_ne, Em, En by done. simpl.
    by rewrite Ef.
  - destruct (g u) as [rb u'] eqn:Eg. rewrite Em. simpl. rewrite Eg.
    rewrite lookup_insert_ne, En by done. done.
  - by rewrite Em, En.
Qed.

Lemma with_table_err {A} (f : InMemoryTable → result core_error A * InMemoryTable) e n err e' :
  (∀ t er t', f t = (Err er, t') → t' = t) →
  with_table e n f = (Err err, e') → e' = e.
Proof.
  intros F. unfold with_table, table. destruct (e !! n) as [t|] eqn:E; simpl; [|by intros [= _ <-]].
  destruct (f t) as [r t'] eqn:Ef. intros [= -> <-]. apply F in Ef as ->. by apply insert_id.
Qed.

Lemma t_insert_unchecked_err t r er t' : t_insert_unchecked t r = (Err er, t') → t' = t.
Proof. unfold t_insert_unchecked. by case_match; intros [=]. Qed.
Lemma t_insert_err t r er t' : t_insert t r = (Err er, t') → t' = t.
Proof. unfold t_insert. case_match; [by apply t_insert_unchecked_err|by intros [=]]. Qed.
Lemma t_insert_preserving_err t r er t' : t_insert_preserving_id t r = (Err er, t') → t' = t.
Proof. unfold t_insert_preserving_id. repeat case_match; intros [=]; congruence. Qed.
Lemma t_update_err t id vs er t' : t_update t id vs = (Err er, t') → t' = t.
Proof. unfold t_update. repeat case_match; intros [=]; congruence. Qed.

(** ** What each operation does to the rows *)

Lemma t_insert_unchecked_rows t r id t' :
  t_insert_unchecked t r = (Ok id, t') →
  id = t_next_id t ∧ t_rows t' = <[id := MkRow id (row_values r)]> (t_rows t) ∧
  t_next_id t' = wrap 64 (t_next_id t + 1) ∧ t_schema t' = t_schema t.
Proof. unfold t_insert_unchecked. case_match; by intros [= <- <-]. Qed.

Lemma t_insert_rows t r id t' :
  t_insert t r = (Ok id, t') →
  id = t_next_id t ∧ t_rows t' = <[id := MkRow id (row_values r)]> (t_rows t) ∧
  t_next_id t' = wrap 64 (t_next_id t + 1) ∧ t_schema t' = t_schema t.
Proof. unfold t_insert. case_match; [apply t_insert_unchecked_rows|done]. Qed.

Lemma t_update_rows t id vs row t' :
  t_update t id vs = (Ok row, t') →
  ∃ cur, t_rows t !! id = Some cur ∧ row = MkRow (row_id cur) (vs ∪ row_values cur) ∧
    t_rows t' = <[id := row]> (t_rows t) ∧ t_next_id t' = t_next_id t ∧
    t_schema t' = t_schema t.
Proof.
  unfold t_update. destruct (t_rows t !! id) as [cur|] eqn:E; [|done].
  case_match; [|done]. intros [= <- <-]. by exists cur.
Qed.

Lemma t_take_rows t id r t' :
  t_take t id = (r, t') →
  r = t_rows t !! id ∧ t_rows t' = delete id (t_rows t) ∧ t_next_id t' = t_next_id t ∧
  t_schema t' = t_schema t.
Proof. unfold t_take. intros [= <- <-]. by case_match. Qed.

(** The row a key addresses. *)
Definition row_at (e : Engine) (k : string * Z) : option Row :=
  e !! k.1 ≫= λ t, t_rows t !! k.2.

Lemma get_row_at e n id :
  get e n id = if table_exists e n then Ok (row_at e (n, id)) else Err (TableNotFound n).
Proof.
  unfold get, table, table_exists, row_at, t_get. simpl.
  destruct (e !! n); simpl. all: reflexivity.
Qed.

Lemma with_table_ok {A} (f : InMemoryTable → result core_error A * InMemoryTable) e n a e' :
  with_table e n f = (Ok a, e') →
  ∃ t t', e !! n = Some t ∧ f t = (Ok a, t') ∧ e' = <[n := t']> e.
Proof.
  unfold with_table, table. destruct (e !! n) as [t|]; simpl; [|done].
  destruct (f t) as [r t'] eqn:F. intros [= -> <-]. eauto.
Qed.

Lemma row_at_insert e n t k :
  row_at (<[n := t]> e) k = if decide (n = k.1) then t_rows t !! k.2 else row_at e k.
Proof.
  unfold row_at. case_decide as D; [subst; by rewrite lookup_insert_eq|].
  by rewrite lookup_insert_ne.
Qed.

(** ** Deciding admissibility, for concrete traces *)

Definition vals_okb (s : TableSchema) (vs : values) : bool :=
  forallb (λ c, match vs !! c with Some v => key_ok v | None => true end) (schema_uniq_cols s).

Definition op_okb (s : TableSchema) (next : Z) (op : table_op) : bool :=
  match op with
  | OpInsert r | OpInsertUnchecked r => vals_okb s (row_values r) && (next <? u64_max)
  | OpInsertPreserving r => vals_okb s (row_values r) && (0 <=? row_id r) && (row_id r <? u64_max)
  | OpUpdate _ vs => vals_okb s vs
  | OpLookup _ v => key_ok v
  | OpTake _ | OpGet _ | OpCount => true
  end.

Fixpoint trace_okb (ops : list table_op) (a : atable) : bool :=
  match ops with
  | [] => true
  | op :: ops => op_okb (a_schema a) (a_next a) op && trace_okb ops (spec_op op a).2
  end.

Lemma vals_okb_ok s vs : vals_okb s vs = true → vals_ok s vs.
Proof.
  unfold vals_okb. rewrite forallb_forall. intros H c v C E.
  specialize (H c). rewrite E in H. apply H. by apply list_elem_of_In.
Qed.

Lemma op_okb_ok s next op : op_okb s next op = true → op_ok s next op.
Proof.
  destruct op; simpl; rewrite ?andb_true_iff, ?Z.ltb_lt, ?Z.leb_le; try done;
    intuition (by apply vals_okb_ok).
Qed.

Lemma trace_okb_ok ops : ∀ a, trace_okb ops a = true → trace_ok ops a.
Proof.
  induction ops as [|op ops IH]; intros a; simpl; [done|].
  intros [? ?]%andb_true_iff. split; [by apply op_okb_ok|auto].
Qed.

(** ** Properties *)

(** C1: on any admissible sequence of operations started on a fresh table, the
    indexed engine returns exactly what the specification returns, a table
    with no index that scans every row for duplicates and lookups; in
    particular the O(1) unique check and lookup are the O(N) scans, errors
    included, and the rows and the id allocator agree. *)
Theorem table_refines_scan (s : TableSchema) (ops : list table_op) :
  trace_ok ops (ATable s ∅ 1) →
  let '(rs, t) := run_ops ops (InMemoryTable_new s) in
  let '(rs', a) := spec_ops ops (ATable s ∅ 1) in
  rs = rs' ∧ abs t = a.
Proof.
  intros T. assert (abs (InMemoryTable_new s) = ATable s ∅ 1) as E
    by (unfold abs; simpl; by rewrite fmap_empty).
  rewrite <- E in *. destruct (run_ops_refines ops _ (inv_new s) T) as (_ & Er & Ea & _).
  destruct (run_ops _ _), (spec_ops _ _). done.
Qed.

Definition demo_row (id : Z) (email : string) : Row :=
  MkRow 0 (<["id"%string := VInt64 id]> (<["email"%string := VString email]> ∅)).

Definition demo_ops : list table_op :=
  [OpInsert (demo_row 7 "a@x"); OpInsert (demo_row 8 "a@x"); OpInsert (demo_row 8 "b@x");
   OpUpdate 2 (<["email"%string := VString "a@x"]> ∅);
   OpUpdate 2 (<["email"%string := VNull]> ∅); OpTake 1; OpInsert (demo_row 9 "a@x");
   OpLookup "email" (VString "a@x"); OpLookup "email" (VString "b@x"); OpCount].

Lemma table_refines_scan_witness :
  trace_ok demo_ops (ATable demo_schema ∅ 1) ∧
  (let '(rs, t) := run_ops demo_ops (InMemoryTable_new demo_schema) in
   let '(rs', a) := spec_ops demo_ops (ATable demo_schema ∅ 1) in rs = rs' ∧ abs t = a).
Proof.
  assert (trace_ok demo_ops (ATable demo_schema ∅ 1)) as T
    by (apply trace_okb_ok; vm_compute; reflexivity).
  pose proof (table_refines_scan demo_schema demo_ops T) as H. split; [exact T|exact H].
Defined.

(** C18: after any admissible sequence of operations, no two rows hold values
    that are [==] and non-null in a primary-key or unique column, and every row
    is stored under its own id, below the next id. *)
Theorem unique_columns_hold (s : TableSchema) (ops : list table_op) :
  trace_ok ops (ATable s ∅ 1) →
  let t := (run_ops ops (InMemoryTable_new s)).2 in
  (∀ id1 id2 r1 r2 c v1 v2,
     c ∈ uniq_cols t → t_rows t !! id1 = Some r1 → t_rows t !! id2 = Some r2 →
     row_values r1 !! c = Some v1 → row_values r2 !! c = Some v2 → v1 ≠ VNull →
     value_eqb v1 v2 = true → id1 = id2) ∧
  (∀ id r, t_rows t !! id = Some r → row_id r = id ∧ 0 <= id < t_next_id t).
Proof.
  intros T. assert (abs (InMemoryTable_new s) = ATable s ∅ 1) as E
    by (unfold abs; simpl; by rewrite fmap_empty).
  rewrite <- E in T. destruct (run_ops_refines ops _ (inv_new s) T) as (I & _).
  split; [intros; by eapply inv_unique|apply (inv_ids _ I)].
Qed.

Lemma unique_columns_hold_witness :
  trace_ok demo_ops (ATable demo_schema ∅ 1) ∧
  ∀ id r, t_rows (run_ops demo_ops (InMemoryTable_new demo_schema)).2 !! id = Some r → row_id r = id ∧
    0 <= id < t_next_id (run_ops demo_ops (InMemoryTable_new demo_schema)).2.
Proof.
  assert (trace_ok demo_ops (ATable demo_schema ∅ 1)) as T
    by (apply trace_okb_ok; vm_compute; reflexivity).
  exact (conj T (proj2 (unique_columns_hold demo_schema demo_ops T))).
Defined.

(** Ids handed out by [insert] are never reused: in an admissible run, of
    two successful inserts the later one gets the larger id, whatever updates,
    deletes and restores happen in between. *)
Theorem insert_ids_increase (s : TableSchema) (ops : list table_op) (i j : nat)
    (op1 op2 : table_op) (x y : Z) :
  trace_ok ops (ATable s ∅ 1) → (i < j)%nat →
  ops !! i = Some op1 → allocates op1 = true → ops !! j = Some op2 → allocates op2 = true →
  (run_ops ops (InMemoryTable_new s)).1 !! i = Some (ResId (Ok x)) →
  (run_ops ops (InMemoryTable_new s)).1 !! j = Some (ResId (Ok y)) → x < y.
Proof.
  intros T Hij H1 A1 H2 A2.
  destruct (run_ops_refines ops _ (inv_new s)) as (_ & -> & _).
  { unfold abs. simpl. by rewrite fmap_empty. }
  intros R1 R2. destruct (spec_ops ops _) as [rs a'] eqn:E.
  exact (spec_ops_fresh _ _ _ _ _ _ _ _ _ _ E Hij H1 H2 A1 A2 R1 R2).
Qed.

Lemma insert_ids_increase_witness : trace_ok demo_ops (ATable demo_schema ∅ 1) ∧ 1 < 3.
Proof.
  assert (trace_ok demo_ops (ATable demo_schema ∅ 1)) as T
    by (apply trace_okb_ok; vm_compute; reflexivity).
  split; [exact T|].
  apply (insert_ids_increase demo_schema demo_ops 0 6 (OpInsert (demo_row 7 "a@x"))
           (OpInsert (demo_row 9 "a@x")) 1 3 T); [lia|..]; vm_compute; reflexivity.
Defined.

(** An engine operation that returns an error leaves every table exactly as
    it was: a rejected insert, update, restore, creation or drop has no partial
    effect. *)
Theorem failed_op_changes_nothing (e e' : Engine) (n : string) (r : Row) (id : Z) (vs : values)
    (s : TableSchema) (er : core_error) :
  (insert e n r = (Err er, e') ∨ insert_unchecked e n r = (Err er, e') ∨
   insert_preserving_id e n r = (Err er, e') ∨ update e n id vs = (Err er, e') ∨
   take e n id = (Err er, e') ∨ create_table e s = (Err er, e') ∨
   drop_table e n = (Err er, e')) → e' = e.
Proof.
  intros [H|[H|[H|[H|[H|[H|H]]]]]].
  - eapply (with_table_err (λ t, t_insert t r)); [intros *; apply t_insert_err|exact H].
  - eapply (with_table_err (λ t, t_insert_unchecked t r)); [intros *; apply t_insert_unchecked_err|exact H].
  - eapply (with_table_err (λ t, t_insert_preserving_id t r)); [intros *; apply t_insert_preserving_err|exact H].
  - eapply (with_table_err (λ t, t_update t id vs)); [intros *; apply t_update_err|exact H].
  - eapply (with_table_err (λ t, let '(r, t) := t_take t id in (Ok r, t))); [|exact H].
    intros t ? ?. by destruct (t_take t id); intros [=].
  - unfold create_table, create_check in H. by case_match; simplify_eq.
  - unfold drop_table in H. by case_match; simplify_eq.
Qed.

Lemma failed_op_changes_nothing_witness :
  ∃ e, update e "users" 1 ∅ = (Err (RowNotFound 1), e) ∧ e = e.
Proof.
  exists {["users"%string := InMemoryTable_new demo_schema]}.
  assert (update {["users"%string := InMemoryTable_new demo_schema]} "users" 1 ∅ =
    (Err (RowNotFound 1), {["users"%string := InMemoryTable_new demo_schema]})) as H
    by (vm_compute; reflexivity).
  split; [exact H|].
  exact (failed_op_changes_nothing _ _ "users" Row_auto_id 1 ∅ demo_schema _
           (or_intror (or_intror (or_intror (or_introl H))))).
Defined.

(** Any two operations on two different tables commute: either order gives
    the same two results and the same engine, so the per-table locks let them
    run in parallel. *)
Theorem ops_on_different_tables_commute (e : Engine) (n m : string) (op1 op2 : table_op) :
  n ≠ m →
  let '(ra, e1) := on_table e n op1 in let '(rb, e2) := on_table e1 m op2 in
  let '(rb', e1') := on_table e m op2 in let '(ra', e2') := on_table e1' n op1 in
  ra = ra' ∧ rb = rb' ∧ e2 = e2'.
Proof. apply with_table_commute. Qed.

Lemma ops_on_different_tables_commute_witness :
  let e := <["a"%string := InMemoryTable_new demo_schema]>
             {["b"%string := InMemoryTable_new demo_schema]} in
  let '(ra, e1) := on_table e "a" (OpInsert (demo_row 1 "x")) in
  let '(rb, e2) := on_table e1 "b" (OpInsert (demo_row 1 "x")) in
  let '(rb', e1') := on_table e "b" (OpInsert (demo_row 1 "x")) in
  let '(ra', e2') := on_table e1' "a" (OpInsert (demo_row 1 "x")) in
  ra = ra' ∧ rb = rb' ∧ e2 = e2'.
Proof. apply ops_on_different_tables_commute. done. Defined.

(** ** What the model shows the code gets wrong *)

Definition float_schema : TableSchema :=
  with_column (TableSchema_new [] "m") (MkColumnDef "k" TFloat64 false false true None).
Definition float_row (bits : Z) : Row := MkRow 0 {["k"%string := VFloat64 bits]}.
Definition neg_zero : Z := 2 ^ 63.

(** After [0.0] is updated to [-0.0] and the row deleted, the table is empty
    but still rejects an insert of [0.0]: the stale-key test is [==], the index
    is keyed by the bits. *)
Example phantom_duplicate :
  let '(rs, t) := run_ops
    [OpInsert (float_row 0); OpUpdate 1 {["k"%string := VFloat64 neg_zero]}; OpTake 1; OpCount;
     OpInsert (float_row 0)] (InMemoryTable_new float_schema) in
  rs !! 3%nat = Some (ResCount 0) ∧
  rs !! 4%nat = Some (ResId (Err (DuplicateKey (DupColumn "k" (VFloat64 0))))).
Proof. vm_compute. done. Qed.

(** [0.0] and [-0.0] are [==] but both are accepted in a unique column. *)
Example zeros_not_unique :
  let '(rs, t) := run_ops [OpInsert (float_row 0); OpInsert (float_row neg_zero)]
    (InMemoryTable_new float_schema) in
  rs = [ResId (Ok 1); ResId (Ok 2)] ∧ value_eqb (VFloat64 0) (VFloat64 neg_zero) = true.
Proof. vm_compute. done. Qed.

(** [update] does not validate: it stores what [insert] rejects. *)
Example update_skips_validation :
  let bad := {["id"%string := VString "x"]} : values in
  let '(_, t) := t_insert (InMemoryTable_new demo_schema) (demo_row 7 "a@x") in
  is_ok (t_update t 1 bad).1 = true ∧
  is_ok (validate_row_values demo_schema (bad ∪ row_values (demo_row 7 "a@x"))) = false.
Proof. vm_compute. done. Qed.

(** Restoring a row with the largest id wraps the allocator to 0 in release
    builds; the next insert takes id 0 instead of failing. *)
Example restore_wraps_allocator :
  let '(rs, t) := run_ops
    [OpInsertPreserving (MkRow u64_max ∅); OpInsertUnchecked Row_auto_id]
    (InMemoryTable_new demo_schema) in
  rs = [ResId (Ok u64_max); ResId (Ok 0)] ∧ t_next_id t = 1.
Proof. vm_compute. done. Qed.

(** Two [create_table] calls for one name, interleaved between the test and the
    insertion: both succeed, and the second wipes the rows inserted between. *)
Example create_table_race :
  let e : Engine := ∅ in
  let e1 := create_put e demo_schema in
  let '(r, e2) := insert e1 "users" (demo_row 7 "a@x") in
  let e3 := create_put e2 demo_schema in
  create_check e demo_schema = Ok () ∧ r = Ok 1 ∧ count e2 "users" = Ok 1%nat ∧
  count e3 "users" = Ok 0%nat.
Proof. vm_compute. done. Qed.
