(* ===== verification/Policy.v ===== *)
(** [blitz-auth] identities, sessions and tokens, and [blitz-policy]'s rule engine. *)
From S2P Require Import Prelude.

Local Open Scope Z_scope.

(** ** [blitz-auth/src/identity.rs] *)

Inductive Permission : Type := PRead | PWrite | PDelete | PAdmin | PCustom (s : string).

#[export] Instance Permission_eq_dec : EqDecision Permission.
Proof. solve_decision. Defined.
#[export] Instance Permission_countable : Countable Permission.
Proof.
  refine (inj_countable' (λ p, match p with
    | PRead => inl 0 | PWrite => inl 1 | PDelete => inl 2 | PAdmin => inl 3 | PCustom s => inr s end)
    (λ x, match x with
    | inl 0 => PRead | inl 1 => PWrite | inl 2 => PDelete | inl _ => PAdmin | inr s => PCustom s end) _).
  by intros [].
Defined.

Definition permission_as_str (p : Permission) : string :=
  match p with
  | PRead => "read" | PWrite => "write" | PDelete => "delete" | PAdmin => "admin" | PCustom s => s
  end.

(** [Identity]; [Uuid::new_v4] draws the id, an argument of the constructor. *)
Record Identity : Type := MkIdentity {
  ident_id : list byte;
  ident_subject : string;
  ident_roles : list string;
  ident_permissions : list Permission;
  ident_claims : gmap string string
}.

Definition Identity_new (uuid : list byte) (subject : string) : Identity :=
  MkIdentity uuid subject [] [] ∅.
Definition has_role (i : Identity) (role : string) : bool := bool_decide (role ∈ ident_roles i).
Definition with_role (i : Identity) (role : string) : Identity :=
  MkIdentity (ident_id i) (ident_subject i) (ident_roles i ++ [role]) (ident_permissions i)
    (ident_claims i).
Definition with_permission (i : Identity) (p : Permission) : Identity :=
  MkIdentity (ident_id i) (ident_subject i) (ident_roles i) (ident_permissions i ++ [p])
    (ident_claims i).
Definition has_permission (i : Identity) (p : Permission) : bool :=
  if existsb (λ q, bool_decide (q = p)) (ident_permissions i) then true
  else if has_role i "admin" then true else false.
Definition with_claim (i : Identity) (k v : string) : Identity :=
  MkIdentity (ident_id i) (ident_subject i) (ident_roles i) (ident_permissions i)
    (<[k := v]> (ident_claims i)).
Definition get_claim (i : Identity) (k : string) : option string := ident_claims i !! k.

(** *** Sessions and tokens; the clock is an argument. *)

Record Session : Type := MkSession {
  session_id : list byte;
  session_identity : Identity;
  created_at : Z;
  expires_at : Z
}.
Definition Session_new (uuid : list byte) (now : Z) (i : Identity) (expires : Z) : Session :=
  MkSession uuid i now expires.
Definition session_is_expired (now : Z) (s : Session) : bool := expires_at s <? now.

(** [AccessToken] and [RefreshToken] have the same fields and methods. *)
Record Token : Type := MkToken { token : string; token_expires_at : Z }.
Definition token_is_expired (now : Z) (t : Token) : bool := token_expires_at t <? now.

(** ** [blitz-policy/src/policy.rs] *)

Inductive Effect : Type := Allow | Deny.

Record PolicyRule : Type := MkPolicyRule {
  rule_roles : list string;
  rule_resource : string;
  rule_permission : Permission;
  rule_effect : Effect
}.
Definition rule_allow (roles : list string) (resource : string) (p : Permission) : PolicyRule :=
  MkPolicyRule roles resource p Allow.
Definition rule_deny (roles : list string) (resource : string) (p : Permission) : PolicyRule :=
  MkPolicyRule roles resource p Deny.

Inductive policy_error : Type :=
| AccessDenied (m : string)
| PolicyNotFound (m : string)
| PolicyInternal (m : string).

(** [PolicyEngine]: its rules in the order they were added. *)
Abbreviation PolicyEngine := (list PolicyRule).
Definition add_rule (e : PolicyEngine) (r : PolicyRule) : PolicyEngine := e ++ [r].

(** The three tests of the loops. *)
Definition resource_matches (r : PolicyRule) (resource : string) : bool :=
  String.eqb (rule_resource r) "*" || String.eqb (rule_resource r) resource.
Definition permission_matches (r : PolicyRule) (p : Permission) : bool :=
  bool_decide (rule_permission r = p).
Definition role_matches (r : PolicyRule) (i : Identity) : bool := existsb (has_role i) (rule_roles r).

(** The loop of [check]: the flags [matched_deny] and [matched_allow] when it ends. *)
Fixpoint check_loop (rules : list PolicyRule) (i : Identity) (resource : string) (p : Permission)
    (matched_allow : bool) : bool * bool :=
  match rules with
  | [] => (false, matched_allow)
  | r :: rules =>
      if negb (resource_matches r resource) then check_loop rules i resource p matched_allow else
      if negb (permission_matches r p) then check_loop rules i resource p matched_allow else
      if negb (role_matches r i) then check_loop rules i resource p matched_allow else
      match rule_effect r with
      | Deny => (true, matched_allow)
      | Allow => check_loop rules i resource p true
      end
  end.

Definition check (e : PolicyEngine) (i : Identity) (resource : string) (p : Permission)
    : result policy_error bool :=
  let '(matched_deny, matched_allow) := check_loop e i resource p false in
  if matched_deny then Ok false else if matched_allow then Ok true else Ok false.

(** A [HashSet] turned into a list has no fixed order: the sets. *)
Definition allowed_resources (e : PolicyEngine) (i : Identity) (p : Permission) : gset string :=
  foldl (λ s r, match rule_effect r with
    | Deny => s
    | Allow =>
        if negb (permission_matches r p) then s else
        if negb (role_matches r i) then s else
        if String.eqb (rule_resource r) "*" then s ∪ {["*"%string]} else s ∪ {[rule_resource r]}
    end) ∅ e.

Definition permissions_for_resource (e : PolicyEngine) (i : Identity) (resource : string)
    : gset Permission :=
  foldl (λ s r, match rule_effect r with
    | Deny => s
    | Allow =>
        if negb (resource_matches r resource) then s else
        if negb (role_matches r i) then s else s ∪ {[rule_permission r]}
    end) ∅ e.

(** ** What the engine decides *)

(** A rule speaks about a request. *)
Definition applies (r : PolicyRule) (i : Identity) (resource : string) (p : Permission) : Prop :=
  (rule_resource r = "*"%string ∨ rule_resource r = resource) ∧ rule_permission r = p ∧
  ∃ role, role ∈ rule_roles r ∧ role ∈ ident_roles i.

Lemma role_matches_spec r i :
  role_matches r i = true ↔ ∃ role, role ∈ rule_roles r ∧ role ∈ ident_roles i.
Proof.
  unfold role_matches, has_role. rewrite existsb_exists.
  split; intros (role & H1 & H2); exists role; rewrite list_elem_of_In in *;
    by rewrite bool_decide_eq_true, ?list_elem_of_In in *.
Qed.

Lemma resource_matches_spec r resource :
  resource_matches r resource = true ↔ rule_resource r = "*"%string ∨ rule_resource r = resource.
Proof. unfold resource_matches. by rewrite orb_true_iff, !String.eqb_eq. Qed.

Lemma applies_spec r i resource p :
  resource_matches r resource && permission_matches r p && role_matches r i = true ↔
  applies r i resource p.
Proof.
  rewrite !andb_true_iff, resource_matches_spec, role_matches_spec. unfold permission_matches, applies.
  rewrite bool_decide_eq_true. tauto.
Qed.

Lemma check_loop_step r rules i resource p m :
  check_loop (r :: rules) i resource p m =
    if resource_matches r resource && permission_matches r p && role_matches r i
    then match rule_effect r with
         | Deny => (true, m)
         | Allow => check_loop rules i resource p true
         end
    else check_loop rules i resource p m.
Proof.
  cbn [check_loop]. by destruct (resource_matches r resource), (permission_matches r p), (role_matches r i).
Qed.

Lemma exists_cons {A} (P : A → Prop) x l : (∃ y, y ∈ x :: l ∧ P y) ↔ P x ∨ ∃ y, y ∈ l ∧ P y.
Proof.
  split.
  - intros (y & [->|Hy]%elem_of_cons & Py); [by left|right; eauto].
  - intros [Px|(y & Hy & Py)]; [exists x; split; [by left|done]|exists y; split; [by right|done]].
Qed.

Lemma check_loop_spec rules i resource p : ∀ m,
  let '(d, a) := check_loop rules i resource p m in
  (d = true ↔ ∃ r, r ∈ rules ∧ rule_effect r = Deny ∧ applies r i resource p) ∧
  (d = false → (a = true ↔ m = true ∨ ∃ r, r ∈ rules ∧ rule_effect r = Allow ∧ applies r i resource p)).
Proof.
  induction rules as [|r rules IH]; intros m.
  - cbn [check_loop]. split.
    + split; [done|]. by intros (r & []%not_elem_of_nil & _).
    + intros _. split; [by left|]. intros [?|(r & []%not_elem_of_nil & _)]. done.
  - rewrite check_loop_step. pose proof (applies_spec r i resource p) as A.
    pose proof (exists_cons (λ r, rule_effect r = Deny ∧ applies r i resource p) r rules) as XD.
    pose proof (exists_cons (λ r, rule_effect r = Allow ∧ applies r i resource p) r rules) as XA.
    cbv beta in XD, XA. destruct (_ && _) eqn:E.
    + assert (applies r i resource p) as Ap by by apply A.
      destruct (rule_effect r) eqn:Er; [|split; [|done]; rewrite XD; split; [by auto|done]].
      specialize (IH true). destruct (check_loop rules i resource p true) as [d a].
      destruct IH as [I1 I2]. split.
      * rewrite I1, XD. split; [by auto|]. intros [[? _]|?]; done.
      * intros Hd. rewrite (I2 Hd), XA. split; by auto.
    + assert (¬ applies r i resource p) as N by (intros ?%A; congruence).
      specialize (IH m). destruct (check_loop rules i resource p m) as [d a].
      destruct IH as [I1 I2]. split.
      * rewrite I1, XD. split; [by auto|]. intros [[_ ?]|?]; done.
      * intros Hd. rewrite (I2 Hd), XA. split; [tauto|]. intros [?|[[_ ?]|?]]; auto; done.
Qed.

(** The policy engine allows a request exactly when some applicable rule allows
    it and no applicable rule denies it, in whatever order the rules were added;
    it never fails. *)
Theorem check_deny_overrides (e : PolicyEngine) (i : Identity) (resource : string) (p : Permission) :
  ∃ allowed, check e i resource p = Ok allowed ∧
  (allowed = true ↔
    (∃ r, r ∈ e ∧ rule_effect r = Allow ∧ applies r i resource p) ∧
    ¬ (∃ r, r ∈ e ∧ rule_effect r = Deny ∧ applies r i resource p)).
Proof.
  unfold check. pose proof (check_loop_spec e i resource p false) as S.
  destruct (check_loop e i resource p false) as [d a]. destruct S as [S1 S2].
  exists (if d then false else a). split; [by destruct d, a|].
  rewrite <- S1. destruct d.
  - split; [done|]. intros [_ N]. by destruct N.
  - rewrite (S2 eq_refl). split.
    + intros [?|?]; [done|]. by split.
    + intros [? _]. by right.
Qed.

Lemma check_true e i resource p :
  check e i resource p = Ok true ↔
    (∃ r, r ∈ e ∧ rule_effect r = Allow ∧ applies r i resource p) ∧
    ¬ (∃ r, r ∈ e ∧ rule_effect r = Deny ∧ applies r i resource p).
Proof.
  unfold check. pose proof (check_loop_spec e i resource p false) as S.
  destruct (check_loop e i resource p false) as [d a]. destruct S as [<- S2].
  destruct d; [naive_solver|]. specialize (S2 eq_refl). destruct a.
  - destruct (proj1 S2 eq_refl) as [?|?]; [done|]. naive_solver.
  - split; [done|]. intros [E _]. by rewrite (proj2 S2 (or_intror E)).
Qed.

(** [allowed_resources] lists a resource every request for which is denied. *)
Example listed_but_denied :
  let e := [rule_allow ["user"%string] "t" PRead; rule_deny ["user"%string] "*" PRead] in
  let i := with_role (Identity_new [] "bob") "user" in
  check e i "t" PRead = Ok false ∧ "t"%string ∈ allowed_resources e i PRead.
Proof. split; [reflexivity|]. apply (bool_decide_unpack _). vm_compute. exact I. Qed.
