(* ===== verification/Sort.v ===== *)
(** Rust's stable [sort_by]: its result is the one stable sorted permutation of its
    input, here computed by insertion. *)
From S2P Require Import Prelude.

Section sort.
Context {A : Type} (cmp : A → A → comparison).

Fixpoint insert_by (x : A) (l : list A) : list A :=
  match l with
  | [] => [x]
  | y :: l' => match cmp x y with Gt => y :: insert_by x l' | _ => x :: l end
  end.
Definition sort_by (l : list A) : list A := foldr insert_by [] l.

Definition le_by (x y : A) : Prop := cmp x y ≠ Gt.
Definition class_of (a : A) (l : list A) : list A := filter (λ x, cmp a x = Eq) l.

Lemma insert_by_perm x l : insert_by x l ≡ₚ x :: l.
Proof.
  induction l as [|y l IH]; [done|]. cbn [insert_by]. destruct (cmp x y); try done.
  rewrite IH. apply perm_swap.
Qed.

Lemma sort_by_perm l : sort_by l ≡ₚ l.
Proof. induction l as [|x l IH]; [done|]. cbn [sort_by foldr]. rewrite insert_by_perm. by f_equiv. Qed.

Lemma sort_by_length l : length (sort_by l) = length l.
Proof. by rewrite sort_by_perm. Qed.

Context (T : total_cmp cmp).

Lemma cmp_sym x y : cmp y x = CompOpp (cmp x y).
Proof. apply cmp_at_anti, T. Qed.

Lemma cmp_refl x : cmp x x = Eq.
Proof. apply cmp_at_refl, T. Qed.

Lemma le_by_trans x y z : le_by x y → le_by y z → le_by x z.
Proof.
  unfold le_by. intros H1 H2. destruct (cmp x y) eqn:E.
  - by rewrite (cmp_at_eq _ _ (T x) _ z E).
  - by rewrite (cmp_at_lt _ _ (T x) _ z E H2).
  - done.
Qed.

Lemma insert_by_sorted x l : StronglySorted le_by l → StronglySorted le_by (insert_by x l).
Proof.
  induction 1 as [|y l S IH F]; cbn [insert_by]; [repeat constructor|].
  assert (L : cmp x y ≠ Gt → StronglySorted le_by (x :: y :: l)).
  { intros Hxy. constructor; [by constructor|]. constructor; [done|].
    eapply Forall_impl; [exact F|]. intros z. by apply le_by_trans. }
  destruct (cmp x y) eqn:E; [by apply L|by apply L|]. constructor; [done|].
  rewrite insert_by_perm. constructor; [|done]. unfold le_by. by rewrite cmp_sym, E.
Qed.

Lemma sort_by_sorted l : StronglySorted le_by (sort_by l).
Proof. induction l; [constructor|]. by apply insert_by_sorted. Qed.

Lemma insert_by_class a x l : class_of a (insert_by x l) = class_of a (x :: l).
Proof.
  induction l as [|y l IH]; [done|]. cbn [insert_by]. destruct (cmp x y) eqn:E; try done.
  unfold class_of in *. rewrite (filter_cons _ y), IH, !filter_cons.
  destruct (decide (cmp a y = Eq)) as [Ey|]; [|done].
  destruct (decide (cmp a x = Eq)) as [Ex|]; [|done].
  exfalso. pose proof (cmp_at_eq _ _ (T a) _ y Ex) as E'. congruence.
Qed.

(** Stability: elements that compare equal keep their order. *)
Lemma sort_by_class a l : class_of a (sort_by l) = class_of a l.
Proof.
  induction l as [|x l IH]; [done|]. change (sort_by (x :: l)) with (insert_by x (sort_by l)).
  rewrite insert_by_class. unfold class_of in *. rewrite !filter_cons. by rewrite IH.
Qed.

(** Sorted and stable determine the result: [sort_by] is Rust's. Elements that compare
    equal need only agree on the part [f] that is observed. *)
Lemma le_by_anti x y : le_by x y → le_by y x → cmp x y = Eq.
Proof. unfold le_by. intros H1 H2. rewrite cmp_sym in H2. by destruct (cmp x y). Qed.

Lemma class_of_head a x l : cmp a x = Eq → class_of a (x :: l) = x :: class_of a l.
Proof. intros E. unfold class_of. by rewrite filter_cons, decide_True. Qed.

Lemma class_of_nohead a x l : cmp a x ≠ Eq → class_of a (x :: l) = class_of a l.
Proof. intros E. unfold class_of. by rewrite filter_cons, decide_False. Qed.

Lemma class_witness {B} (f : A → B) x l l' :
  f <$> class_of x l = f <$> class_of x l' → x ∈ l → ∃ y, y ∈ l' ∧ cmp x y = Eq.
Proof.
  intros C Hx. assert (x ∈ class_of x l) as Hc by (apply list_elem_of_filter; by rewrite cmp_refl).
  apply (list_elem_of_fmap_2 f) in Hc. rewrite C in Hc.
  apply list_elem_of_fmap_1 in Hc as (y & _ & [? ?]%list_elem_of_filter). eauto.
Qed.

Lemma head_le {B} (f : A → B) x y l1 l2 :
  StronglySorted le_by (x :: l1) → f <$> class_of y (x :: l1) = f <$> class_of y (y :: l2) → le_by x y.
Proof.
  intros [_ F]%StronglySorted_inv C. symmetry in C.
  destruct (class_witness f y (y :: l2) (x :: l1) C) as (z & [->|Hz]%elem_of_cons & E); [by left|..].
  - unfold le_by. by rewrite cmp_sym, E.
  - apply (le_by_trans x z y); [exact (proj1 (Forall_forall _ _) F z Hz)|]. unfold le_by. by rewrite cmp_sym, E.
Qed.

Lemma sorted_unique_by {B} (f : A → B) l1 : ∀ l2,
  StronglySorted le_by l1 → StronglySorted le_by l2 →
  (∀ a, f <$> class_of a l1 = f <$> class_of a l2) → f <$> l1 = f <$> l2.
Proof.
  induction l1 as [|x l1 IH]; intros l2 S1 S2 C.
  { destruct l2 as [|y l2]; [done|]. specialize (C y). by rewrite class_of_head in C by apply cmp_refl. }
  destruct l2 as [|y l2].
  { specialize (C x). by rewrite class_of_head in C by apply cmp_refl. }
  assert (Exy : cmp x y = Eq).
  { apply le_by_anti; [by apply (head_le f x y l1 l2)|by apply (head_le f y x l2 l1)]. }
  pose proof (C x) as Cx. rewrite !class_of_head in Cx by (done || apply cmp_refl).
  injection Cx as Ef _. simpl. f_equal; [exact Ef|].
  apply StronglySorted_inv in S1 as [S1 _], S2 as [S2 _]. apply IH; [done|done|]. intros a.
  pose proof (C a) as Ca. assert (cmp a x = Eq ↔ cmp a y = Eq) as EQ.
  { assert (cmp y x = Eq) as Eyx by (by rewrite cmp_sym, Exy).
    split; intros E; rewrite cmp_sym in E |- *.
    - rewrite (cmp_at_eq _ _ (T y) x a Eyx). exact E.
    - rewrite (cmp_at_eq _ _ (T x) y a Exy). exact E. }
  destruct (decide (cmp a x = Eq)) as [E|E].
  - rewrite !class_of_head in Ca by tauto. by injection Ca.
  - rewrite !class_of_nohead in Ca by tauto. exact Ca.
Qed.

Lemma sorted_unique l1 l2 :
  StronglySorted le_by l1 → StronglySorted le_by l2 →
  (∀ a, class_of a l1 = class_of a l2) → l1 = l2.
Proof.
  intros S1 S2 C. rewrite <- (list_fmap_id l1), <- (list_fmap_id l2).
  apply (sorted_unique_by id); [done|done|]. intros a. by rewrite C.
Qed.

Lemma sort_by_head l x : head (sort_by l) = Some x → x ∈ l ∧ Forall (le_by x) l.
Proof.
  intros E. pose proof (sort_by_sorted l) as S. pose proof (sort_by_perm l) as P.
  destruct (sort_by l) as [|y l']; [done|]. injection E as ->. rewrite <- P. split; [by left|].
  apply StronglySorted_inv in S as [_ F]. constructor; [|done]. unfold le_by. by rewrite cmp_refl.
Qed.
End sort.

(** Comparing by one key after another, each ascending or descending. *)
Lemma sort_by_head_None {A} (cmp : A → A → comparison) l : head (sort_by cmp l) = None → l = [].
Proof.
  intros E. pose proof (sort_by_perm cmp l) as P. destruct (sort_by cmp l); [|done].
  by apply Permutation_nil_l in P.
Qed.

Definition then_cmp (c d : comparison) : comparison := match c with Eq => d | _ => c end.

Lemma total_cmp_then {A} (f g : A → A → comparison) :
  total_cmp f → total_cmp g → total_cmp (λ x y, then_cmp (f x y) (g x y)).
Proof.
  intros Tf Tg x. destruct (Tf x) as [R A1 E L G], (Tg x) as [R' A' E' L' G']. split.
  - by rewrite R, R'.
  - intros y. rewrite A1, A'. by destruct (f x y), (g x y).
  - intros y z. destruct (f x y) eqn:Ef; cbn [then_cmp]; try done. intros Eg.
    by rewrite (E _ _ Ef), (E' _ _ Eg).
  - intros y z. destruct (f x y) eqn:Ef; cbn [then_cmp]; try done.
    + rewrite (E _ _ Ef). destruct (f y z); cbn [then_cmp]; [eauto|done|done].
    + intros _ H2. rewrite (L y z Ef); [done|]. by destruct (f y z).
  - intros y z. destruct (f x y) eqn:Ef; cbn [then_cmp]; try done.
    + rewrite (E _ _ Ef). destruct (f y z); cbn [then_cmp]; [eauto|done|done].
    + intros _ H2. rewrite (G y z Ef); [done|]. by destruct (f y z).
Qed.

Lemma total_cmp_opp {A} (f : A → A → comparison) : total_cmp f → total_cmp (λ x y, CompOpp (f x y)).
Proof.
  intros T x. destruct (T x) as [R A1 E L G]. split.
  - by rewrite R.
  - intros y. by rewrite A1.
  - intros y z H. rewrite (E y z); [done|]. by destruct (f x y).
  - intros y z H1 H2. rewrite (G y z); [done| |]; [by destruct (f x y)|by destruct (f y z)].
  - intros y z H1 H2. rewrite (L y z); [done| |]; [by destruct (f x y)|by destruct (f y z)].
Qed.

Lemma total_cmp_const {A} : total_cmp (λ _ _ : A, Eq).
Proof. by intros x. Qed.

(** A missing value after every value: the match on two options the code writes. *)
Definition option_last_cmp {A} (f : A → A → comparison) (x y : option A) : comparison :=
  match x, y with
  | Some x, Some y => f x y
  | Some _, None => Lt
  | None, Some _ => Gt
  | None, None => Eq
  end.

Lemma total_cmp_option_last {A} (f : A → A → comparison) : total_cmp f → total_cmp (option_last_cmp f).
Proof.
  intros T [x|].
  - destruct (T x) as [R A1 E L G]. split; cbn.
    + done.
    + intros [y|]; cbn; [apply A1|done].
    + intros [y|] [z|]; cbn; try done. apply E.
    + intros [y|] [z|]; cbn; try done; [apply L].
    + intros [y|] [z|]; cbn; try done; [apply G].
  - split; cbn; [done|by intros [y|]|by intros [y|] [z|]|by intros [y|]|by intros [y|] [z|]].
Qed.
#[export] Hint Resolve total_cmp_then total_cmp_opp total_cmp_const total_cmp_option_last : blitz.
