(* ===== verification/Query.v ===== *)
(** [blitz-query]: filters, ordering, paging, grouping and aggregates over a slice of
    rows ([planner.rs] and [executor.rs]). *)
From S2P Require Import Prelude Float Value HashMap Schema Sort.

Local Open Scope Z_scope.

(** ** Data *)

Inductive Filter : Type :=
| FEq (col : string) (v : value)
| FNe (col : string) (v : value)
| FGt (col : string) (v : value)
| FLt (col : string) (v : value)
| FGte (col : string) (v : value)
| FLte (col : string) (v : value)
| FIn (col : string) (vs : list value)
| FNotIn (col : string) (vs : list value)
| FBetween (col : string) (low high : value)
| FLike (col : string) (pattern : string)
| FIsNull (col : string)
| FIsNotNull (col : string)
| FAnd (fs : list Filter)
| FOr (fs : list Filter)
| FNot (f : Filter).

Inductive SortDirection : Type := Asc | Desc.
Record Sort : Type := MkSort { sort_column : string; sort_direction : SortDirection }.
Definition sort_asc (c : string) : Sort := MkSort c Asc.
Definition sort_desc (c : string) : Sort := MkSort c Desc.

Inductive AggFunction : Type :=
| Count
| CountColumn (col : string)
| Sum (col : string)
| Avg (col : string)
| Min (col : string)
| Max (col : string).

Record Query : Type := MkQuery {
  q_table : string;
  q_filter : option Filter;
  q_projections : option (list string);
  q_sorts : list Sort;
  q_limit : option nat;
  q_offset : option nat;
  q_aggregations : list (string * AggFunction);
  q_group_by : list string
}.

Inductive query_error : Type :=
| QTableNotFound (t : string)
| QColumnNotFound (c : string)
| InvalidQuery (m : string)
| QInternal (m : string).

(** *** The builder *)

Definition Query_new (table : string) : Query := MkQuery table None None [] None None [] [].
Definition with_filter (q : Query) (f : Filter) : Query :=
  MkQuery (q_table q) (Some f) (q_projections q) (q_sorts q) (q_limit q) (q_offset q)
    (q_aggregations q) (q_group_by q).
Definition select (q : Query) (cols : list string) : Query :=
  MkQuery (q_table q) (q_filter q) (Some cols) (q_sorts q) (q_limit q) (q_offset q)
    (q_aggregations q) (q_group_by q).
Definition order_by (q : Query) (s : Sort) : Query :=
  MkQuery (q_table q) (q_filter q) (q_projections q) (q_sorts q ++ [s]) (q_limit q) (q_offset q)
    (q_aggregations q) (q_group_by q).
Definition limit (q : Query) (n : nat) : Query :=
  MkQuery (q_table q) (q_filter q) (q_projections q) (q_sorts q) (Some n) (q_offset q)
    (q_aggregations q) (q_group_by q).
Definition offset (q : Query) (n : nat) : Query :=
  MkQuery (q_table q) (q_filter q) (q_projections q) (q_sorts q) (q_limit q) (Some n)
    (q_aggregations q) (q_group_by q).
Definition aggregate (q : Query) (alias : string) (f : AggFunction) : Query :=
  MkQuery (q_table q) (q_filter q) (q_projections q) (q_sorts q) (q_limit q) (q_offset q)
    (q_aggregations q ++ [(alias, f)]) (q_group_by q).
Definition q_count (q : Query) (alias : string) : Query := aggregate q alias Count.
Definition q_sum (q : Query) (col alias : string) : Query := aggregate q alias (Sum col).
Definition q_avg (q : Query) (col alias : string) : Query := aggregate q alias (Avg col).
Definition q_min (q : Query) (col alias : string) : Query := aggregate q alias (Min col).
Definition q_max (q : Query) (col alias : string) : Query := aggregate q alias (Max col).
Definition group_by (q : Query) (cols : list string) : Query :=
  MkQuery (q_table q) (q_filter q) (q_projections q) (q_sorts q) (q_limit q) (q_offset q)
    (q_aggregations q) cols.

(** ** LIKE *)

(** [str::to_lowercase] maps by the Unicode tables of the standard library, which
    the model takes as given; on ASCII it maps letter by letter. *)
Class Lowercase : Type := to_lowercase : string → string.

Definition is_ascii (s : string) : bool := forallb (λ b, byte_Z b <? 128) (str_bytes s).
Class LowercaseLaws `{Lowercase} : Prop :=
  lowercase_ascii s : is_ascii s = true → str_bytes (to_lowercase s) = ascii_lower <$> str_bytes s.

(** [split('%')]: at least one piece. *)
Fixpoint split_byte (c : byte) (l : list byte) : list (list byte) :=
  match l with
  | [] => [[]]
  | b :: l =>
      if bool_decide (b = c) then [] :: split_byte c l
      else match split_byte c l with p :: ps => (b :: p) :: ps | [] => [[b]] end
  end.

Fixpoint starts_with (p l : list byte) : bool :=
  match p, l with
  | [], _ => true
  | x :: p, y :: l => bool_decide (x = y) && starts_with p l
  | _ :: _, [] => false
  end.

(** [str::find]: the first place [p] occurs at. *)
Fixpoint find_sub (p l : list byte) : option nat :=
  if starts_with p l then Some O else
  match l with [] => None | _ :: l => S <$> find_sub p l end.

(** The loop over the pieces; [s] is [s_lower[pos..]]. *)
Fixpoint like_loop (i : nat) (parts : list (list byte)) (s : list byte) : bool :=
  match parts with
  | [] => true
  | part :: parts =>
      if Nat.eqb (length part) 0 then like_loop (S i) parts s else
      match find_sub part s with
      | Some idx =>
          if Nat.eqb i 0 && negb (Nat.eqb idx 0) then false
          else like_loop (S i) parts (drop (idx + length part) s)
      | None => false
      end
  end.

Definition like `{Lowercase} (s pattern : string) : bool :=
  let s_lower := str_bytes (to_lowercase s) in
  let p_lower := str_bytes (to_lowercase pattern) in
  let parts := split_byte "%"%byte p_lower in
  if Nat.eqb (length parts) 1 then bool_decide (s_lower = p_lower) else like_loop 0 parts s_lower.

(** ** [QueryExecutor] *)

(** The order in which a [HashMap<Vec<Value>, Vec<&Row>>] is iterated: any. *)
Class GroupOrder : Type :=
  group_enum : list (list value * list Row) → list (list value * list Row).
Class GroupOrderLaws `{GroupOrder} : Prop := group_enum_perm gs : group_enum gs ≡ₚ gs.

Section executor.
Context `{JsonText} `{Lowercase} `{GroupOrder}.

Definition map_or {A B} (o : option A) (d : B) (f : A → B) : B :=
  match o with Some a => f a | None => d end.
Definition value_gtb (a b : value) : bool := match value_cmp a b with Gt => true | _ => false end.
Definition value_geb (a b : value) : bool := match value_cmp a b with Lt => false | _ => true end.

Fixpoint matches_filter (row : Row) (f : Filter) : bool :=
  match f with
  | FEq col v => map_or (Row_get row col) false (λ x, value_eqb x v)
  | FNe col v => map_or (Row_get row col) true (λ x, negb (value_eqb x v))
  | FGt col v => map_or (Row_get row col) false (λ x, value_gtb x v)
  | FLt col v => map_or (Row_get row col) false (λ x, value_ltb x v)
  | FGte col v => map_or (Row_get row col) false (λ x, value_geb x v)
  | FLte col v => map_or (Row_get row col) false (λ x, value_leb x v)
  | FIn col vs => map_or (Row_get row col) false (λ x, existsb (λ v, value_eqb v x) vs)
  | FNotIn col vs => map_or (Row_get row col) true (λ x, negb (existsb (λ v, value_eqb v x) vs))
  | FBetween col low high =>
      map_or (Row_get row col) false (λ x, value_geb x low && value_leb x high)
  | FLike col pattern =>
      map_or (Row_get row col) false (λ x, match x with VString s => like s pattern | _ => false end)
  | FIsNull col => map_or (Row_get row col) true is_null
  | FIsNotNull col => map_or (Row_get row col) false (λ x, negb (is_null x))
  | FAnd fs => forallb (matches_filter row) fs
  | FOr fs => existsb (matches_filter row) fs
  | FNot f => negb (matches_filter row f)
  end.

Definition filter_rows (rows : list Row) (f : Filter) : list Row :=
  filter (λ r, matches_filter r f = true) rows.

(** The comparison closure of [sort_rows]. *)
Definition col_cmp (col : string) (a b : Row) : comparison :=
  option_last_cmp value_cmp (Row_get a col) (Row_get b col).
Definition sort_cmp (s : Sort) (a b : Row) : comparison :=
  let ord := col_cmp (sort_column s) a b in
  match sort_direction s with Asc => ord | Desc => CompOpp ord end.
Fixpoint row_cmp (sorts : list Sort) (a b : Row) : comparison :=
  match sorts with
  | [] => Eq
  | s :: sorts => then_cmp (sort_cmp s a b) (row_cmp sorts a b)
  end.

Definition sort_rows (rows : list Row) (sorts : list Sort) : list Row :=
  match sorts with [] => rows | _ => sort_by (row_cmp sorts) rows end.

(** *** Aggregates *)

(** The values of a column, in row order. *)
Definition col_of (col : string) (rows : list Row) : list value := omap (λ r, Row_get r col) rows.
Definition numbers_of (col : string) (rows : list Row) : list Z := omap as_f64 (col_of col rows).
Definition non_null (col : string) (rows : list Row) : list value :=
  filter (λ v, is_null v = false) (col_of col rows).

Definition keep_min (m : option value) (v : value) : option value :=
  match m with None => Some v | Some c => if value_ltb v c then Some v else m end.
Definition keep_max (m : option value) (v : value) : option value :=
  match m with None => Some v | Some c => if value_gtb v c then Some v else m end.

Definition agg_value (rows : list Row) (f : AggFunction) : value :=
  match f with
  | Count => VInt64 (Z.of_nat (length rows))
  | CountColumn col => VInt64 (Z.of_nat (length (non_null col rows)))
  | Sum col => VFloat64 (foldl f64_add 0 (numbers_of col rows))
  | Avg col =>
      let ns := numbers_of col rows in
      match ns with
      | [] => VNull
      | _ => VFloat64 (f64_div (foldl f64_add 0 ns) (f64_of_Z (Z.of_nat (length ns))))
      end
  | Min col => default VNull (foldl keep_min None (non_null col rows))
  | Max col => default VNull (foldl keep_max None (non_null col rows))
  end.

Definition compute_aggregations (rows : list Row) (aggs : list (string * AggFunction)) : values :=
  foldl (λ m a, <[a.1 := agg_value rows a.2]> m) ∅ aggs.

(** *** Groups *)

Definition row_key (cols : list string) (r : Row) : list value :=
  (λ col, default VNull (Row_get r col)) <$> cols.

(** Two [Vec<Value>] keys a probe takes for the same. *)
Definition keys_match (a b : list value) : bool :=
  list_eqb value_hash_eqb a b && list_eqb value_eqb a b.

(** [groups.entry(key).or_default().push(row)] *)
Fixpoint group_add (key : list value) (r : Row) (gs : list (list value * list Row)) :=
  match gs with
  | [] => [(key, [r])]
  | (k, rs) :: gs =>
      if keys_match key k then (k, rs ++ [r]) :: gs else (k, rs) :: group_add key r gs
  end.
Definition group_rows (cols : list string) (rows : list Row) : list (list value * list Row) :=
  foldl (λ gs r, group_add (row_key cols r) r gs) [] rows.

Definition group_row (q : Query) (g : list value * list Row) : Row :=
  let row := foldl (λ row cv, Row_set row cv.1 cv.2) (Row_new 0) (zip (q_group_by q) g.1) in
  MkRow (row_id row) (compute_aggregations g.2 (q_aggregations q) ∪ row_values row).

(** [truncate] by an optional limit. *)
Definition truncated (l : list Row) (n : option nat) : list Row :=
  match n with Some n => take n l | None => l end.

Definition execute_aggregation (rows : list Row) (q : Query) : result query_error (list Row) :=
  match q_group_by q with
  | [] => Ok [MkRow 0 (compute_aggregations rows (q_aggregations q))]
  | _ =>
      let results := group_row q <$> group_enum (group_rows (q_group_by q) rows) in
      let results := sort_by (row_cmp (sort_asc <$> q_group_by q)) results in
      Ok (truncated results (q_limit q))
  end.

Definition execute (rows : list Row) (q : Query) : result query_error (list Row) :=
  let result := match q_filter q with Some f => filter_rows rows f | None => rows end in
  if negb (Nat.eqb (length (q_group_by q)) 0) || negb (Nat.eqb (length (q_aggregations q)) 0)
  then execute_aggregation result q else
  let result := sort_rows result (q_sorts q) in
  match q_offset q with
  | Some offset =>
      if (length result <=? offset)%nat then Ok [] else
      let output := truncated (drop offset result) (q_limit q) in
      Ok (match q_projections q with Some cols => (λ r, project r cols) <$> output | None => output end)
  | None =>
      let output := truncated result (q_limit q) in
      Ok (match q_projections q with Some cols => (λ r, project r cols) <$> output | None => output end)
  end.
End executor.

(** ** LIKE means what its loop finds *)

(** The pieces occur in order, with anything between them. *)
Fixpoint pieces (ps : list (list byte)) (s : list byte) : Prop :=
  match ps with
  | [] => True
  | p :: ps => ∃ pre rest, s = pre ++ p ++ rest ∧ pieces ps rest
  end.

(** ... the first of them at the start. *)
Definition anchored (ps : list (list byte)) (s : list byte) : Prop :=
  match ps with
  | [] => True
  | p :: ps => ∃ rest, s = p ++ rest ∧ pieces ps rest
  end.

Lemma starts_with_spec p l : starts_with p l = true ↔ ∃ rest, l = p ++ rest.
Proof.
  revert l. induction p as [|x p IH]; intros l.
  - split; [by exists l|done].
  - destruct l as [|y l]; cbn [starts_with].
    + split; [done|by intros [? [=]]].
    + rewrite andb_true_iff, bool_decide_eq_true, IH. split.
      * intros [-> [rest ->]]. by exists rest.
      * intros [rest [= -> ->]]. eauto.
Qed.

Lemma starts_with_app p rest : starts_with p (p ++ rest) = true.
Proof. apply starts_with_spec. eauto. Qed.

Lemma drop_app_exact {A} (pre p rest : list A) :
  drop (length pre + length p) (pre ++ p ++ rest) = rest.
Proof. rewrite app_assoc, <- length_app. apply drop_app_length. Qed.

Lemma find_sub_some p l : ∀ i,
  find_sub p l = Some i → ∃ pre rest, l = pre ++ p ++ rest ∧ length pre = i.
Proof.
  induction l as [|x l IH]; intros i; cbn [find_sub].
  - destruct (starts_with p []) eqn:E; [|done]. intros [= <-].
    apply starts_with_spec in E as [rest E]. by exists [], rest.
  - destruct (starts_with p (x :: l)) eqn:E.
    + intros [= <-]. apply starts_with_spec in E as [rest E]. by exists [], rest.
    + destruct (find_sub p l) as [j|]; [|done]. intros [= <-].
      destruct (IH j eq_refl) as (pre & rest & -> & <-). by exists (x :: pre), rest.
Qed.

(** The place found is no later than any occurrence. *)
Lemma find_sub_first p pre rest :
  ∃ i, find_sub p (pre ++ p ++ rest) = Some i ∧ (i <= length pre)%nat.
Proof.
  induction pre as [|x pre IH]; cbn [app].
  - exists O. split; [|simpl; lia]. pose proof (starts_with_app p rest) as E.
    destruct (p ++ rest); cbn [find_sub]; by rewrite E.
  - cbn [find_sub]. destruct (starts_with p (x :: pre ++ p ++ rest)); [exists O; simpl; split; [done|lia]|].
    destruct IH as (i & -> & L). exists (S i). simpl. split; [done|lia].
Qed.

Lemma pieces_weaken ps x s : pieces ps s → pieces ps (x ++ s).
Proof.
  destruct ps as [|p ps]; [done|]. intros (pre & rest & -> & P). exists (x ++ pre), rest.
  by rewrite <- app_assoc.
Qed.

(** Taking the first occurrence loses nothing. *)
Lemma pieces_greedy p ps s :
  pieces (p :: ps) s ↔ ∃ i, find_sub p s = Some i ∧ pieces ps (drop (i + length p) s).
Proof.
  split.
  - intros (pre & rest & -> & P). destruct (find_sub_first p pre rest) as (i & E & L).
    exists i. split; [done|]. destruct (find_sub_some _ _ _ E) as (pre' & rest' & E' & Li).
    rewrite E'. subst i. rewrite drop_app_exact.
    assert (rest `suffix_of` rest') as [x ->]; [|by apply pieces_weaken].
    apply (f_equal (drop (length pre' + length p))) in E'. rewrite drop_app_exact in E'.
    exists (drop (length pre' + length p) (pre ++ p)). rewrite <- E', app_assoc.
    rewrite drop_app_le; [done|]. rewrite length_app. lia.
  - intros (i & E & P). destruct (find_sub_some _ _ _ E) as (pre & rest & -> & <-).
    rewrite drop_app_exact in P. by exists pre, rest.
Qed.

Lemma pieces_nil_piece ps s : pieces ([] :: ps) s ↔ pieces ps s.
Proof.
  split.
  - intros (pre & rest & -> & P). by apply pieces_weaken.
  - intros P. by exists [], s.
Qed.

Lemma like_loop_pieces ps : ∀ i s, like_loop (S i) ps s = true ↔ pieces ps s.
Proof.
  induction ps as [|p ps IH]; intros i s; [done|]. cbn [like_loop].
  destruct (Nat.eqb_spec (length p) 0) as [E%nil_length_inv|N].
  - subst. rewrite IH. symmetry. apply pieces_nil_piece.
  - rewrite pieces_greedy. destruct (find_sub p s) as [idx|].
    + cbn [Nat.eqb andb]. rewrite IH. split; [by eauto|by intros (? & [= <-] & ?)].
    + split; [done|by intros (? & [=] & ?)].
Qed.

Lemma find_sub_prefix p rest : find_sub p (p ++ rest) = Some O.
Proof.
  pose proof (starts_with_app p rest) as E. destruct (p ++ rest); cbn [find_sub]; by rewrite E.
Qed.

Lemma like_loop_anchored ps s : like_loop 0 ps s = true ↔ anchored ps s.
Proof.
  destruct ps as [|p ps]; [done|]. cbn [like_loop anchored].
  destruct (Nat.eqb_spec (length p) 0) as [E%nil_length_inv|N].
  - subst. rewrite like_loop_pieces. cbn [app]. split; [by eauto|by intros (? & -> & ?)].
  - destruct (find_sub p s) as [idx|] eqn:E.
    + destruct (find_sub_some _ _ _ E) as (pre & rest & -> & <-). rewrite drop_app_exact.
      destruct pre as [|x pre]; cbn [length Nat.eqb andb negb].
      * rewrite like_loop_pieces. cbn [app]. split; [by eauto|].
        intros (r & Er & P). by apply app_inv_head in Er as ->.
      * split; [done|]. intros (r & Er & _). rewrite Er, find_sub_prefix in E. done.
    + split; [done|]. intros (r & -> & _). by rewrite find_sub_prefix in E.
Qed.

(** ** Order *)

Section order.
Context `{JsonText}.

Lemma col_cmp_total col : total_cmp (col_cmp col).
Proof. apply (total_cmp_map (λ r, Row_get r col)), total_cmp_option_last, value_cmp_total. Qed.

Lemma sort_cmp_total s : total_cmp (sort_cmp s).
Proof.
  unfold sort_cmp. destruct (sort_direction s); [apply col_cmp_total|].
  apply total_cmp_opp, col_cmp_total.
Qed.

Lemma row_cmp_total sorts : total_cmp (row_cmp sorts).
Proof.
  induction sorts as [|s sorts IH]; [apply total_cmp_const|].
  apply (total_cmp_then (sort_cmp s)); [apply sort_cmp_total|apply IH].
Qed.

Lemma le_by_const_sorted {A} (l : list A) : StronglySorted (le_by (λ _ _, Eq)) l.
Proof. induction l; constructor; [done|]. by apply Forall_true. Qed.

Lemma class_of_const {A} (a : A) l : class_of (λ _ _, Eq) a l = l.
Proof. unfold class_of. induction l as [|x l IH]; [done|]. rewrite filter_cons_True by done. by f_equal. Qed.

Lemma sort_rows_spec rows sorts :
  sort_rows rows sorts ≡ₚ rows ∧ StronglySorted (le_by (row_cmp sorts)) (sort_rows rows sorts) ∧
  ∀ r, class_of (row_cmp sorts) r (sort_rows rows sorts) = class_of (row_cmp sorts) r rows.
Proof.
  destruct sorts as [|s sorts]; cbn [sort_rows].
  - split; [done|]. split; [apply le_by_const_sorted|done].
  - split; [apply sort_by_perm|]. split.
    + apply sort_by_sorted, row_cmp_total.
    + intros. apply sort_by_class, row_cmp_total.
Qed.

(** ** Extrema *)

(** [keep_min], and [keep_max] for the reversed order. *)
Definition keep_best (cmp : value → value → comparison) (m : option value) (v : value) : option value :=
  match m with None => Some v | Some c => match cmp v c with Lt => Some v | _ => m end end.

Lemma keep_best_step cmp m x :
  total_cmp cmp →
  ∃ y, keep_best cmp m x = Some y ∧ (m = Some y ∨ y = x) ∧ cmp y x ≠ Gt ∧
    ∀ w, m = Some w → cmp y w ≠ Gt.
Proof.
  intros T. unfold keep_best. destruct m as [c|].
  - pose proof (cmp_sym _ T x c) as Sx. destruct (cmp x c) eqn:E.
    1, 3: exists c; split; [done|]; split; [by left|]; split; [by rewrite Sx|];
      intros w [= <-]; by rewrite (cmp_refl _ T).
    exists x. split; [done|]. split; [by right|]. split; [by rewrite (cmp_refl _ T)|].
    intros w [= <-]. by rewrite E.
  - exists x. split; [done|]. split; [by right|]. split; [by rewrite (cmp_refl _ T)|done].
Qed.

Lemma keep_best_spec cmp vs : total_cmp cmp → ∀ m,
  match foldl (keep_best cmp) m vs with
  | None => m = None ∧ vs = []
  | Some v => (m = Some v ∨ v ∈ vs) ∧ ∀ w, m = Some w ∨ w ∈ vs → cmp v w ≠ Gt
  end.
Proof.
  intros T. induction vs as [|x vs IH]; intros m; cbn [foldl].
  - destruct m as [v|]; [|done]. split; [by left|].
    intros w [[= ->]|[]%not_elem_of_nil]. by rewrite (cmp_refl _ T).
  - specialize (IH (keep_best cmp m x)). destruct (keep_best_step cmp m x T) as (y & Ey & Hy & Lx & Lm).
    rewrite Ey in *. destruct (foldl _ (Some y) vs) as [v|]; [|by destruct IH].
    destruct IH as [I1 I2]. pose proof (I2 y (or_introl eq_refl)) as Ly. split.
    + destruct I1 as [[= ->]|Hin]; [|right; by constructor].
      destruct Hy as [? | ->]; [by left|right; by constructor].
    + intros w [Hw%Lm|[->|Hin]%elem_of_cons].
      * by apply (le_by_trans _ T v y w).
      * by apply (le_by_trans _ T v y x).
      * apply I2. by right.
Qed.

Lemma keep_max_best vs : ∀ m,
  foldl keep_max m vs = foldl (keep_best (λ a b, CompOpp (value_cmp a b))) m vs.
Proof.
  induction vs as [|v vs IH]; intros m; [done|]. cbn [foldl]. rewrite IH. f_equal.
  unfold keep_max, keep_best, value_gtb. destruct m as [c|]; [|done]. by destruct (value_cmp v c).
Qed.

Lemma keep_min_best vs : ∀ m, foldl keep_min m vs = foldl (keep_best value_cmp) m vs.
Proof.
  induction vs as [|v vs IH]; intros m; [done|]. cbn [foldl]. rewrite IH. f_equal.
  unfold keep_min, keep_best, value_ltb. destruct m as [c|]; [|done]. by destruct (value_cmp v c).
Qed.
End order.

(** ** Groups partition the rows *)

Section groups.
Context `{JsonTextLaws}.

Definition self_eq (k : list value) : bool := forallb (λ v, value_eqb v v) k.

Lemma keys_match_spec a : ∀ b, keys_match a b = true ↔ a = b ∧ self_eq a = true.
Proof.
  unfold keys_match, self_eq. induction a as [|x a IH]; intros [|y b]; cbn [list_eqb forallb];
    try by (split; [|intros [? _]]).
  rewrite !andb_true_iff. specialize (IH b). rewrite andb_true_iff in IH.
  pose proof (value_hash_match x y) as M. unfold key_match in M. rewrite andb_true_iff in M.
  split.
  - intros [[H1 H2] [H3 H4]]. destruct (proj1 M) as [-> ?]; [done|].
    destruct (proj1 IH) as [-> ?]; done.
  - intros [[= -> ->] [H3 H4]]. destruct (proj2 M) as [? ?]; [done|].
    destruct (proj2 IH) as [? ?]; done.
Qed.

Lemma group_add_keys key r gs :
  ((group_add key r gs).*1 = gs.*1 ∧ key ∈ gs.*1 ∨
   (group_add key r gs).*1 = gs.*1 ++ [key] ∧ (self_eq key = true → key ∉ gs.*1)).
Proof.
  induction gs as [|[k rs] gs IH]; cbn [group_add fmap list_fmap fst].
  - right. split; [done|]. intros _. apply not_elem_of_nil.
  - destruct (keys_match key k) eqn:E; cbn [fmap list_fmap fst].
    + apply keys_match_spec in E as [-> _]. left. split; [done|]. by left.
    + destruct IH as [[-> Hin]|[-> Hn]]; [left; split; [done|by right]|right].
      split; [done|]. intros Se [->|?]%elem_of_cons; [|by apply Hn].
      assert (keys_match k k = true) as E' by by apply keys_match_spec. congruence.
Qed.

Lemma group_add_rows key r gs : mjoin (group_add key r gs).*2 ≡ₚ r :: mjoin gs.*2.
Proof.
  induction gs as [|[k rs] gs IH]; [done|]. cbn [group_add].
  destruct (keys_match key k); cbn [fmap list_fmap snd mjoin list_join].
  - change ((rs ++ [r]) ++ mjoin gs.*2 ≡ₚ r :: rs ++ mjoin gs.*2).
    rewrite <- app_assoc. symmetry. apply Permutation_middle.
  - change (rs ++ mjoin (group_add key r gs).*2 ≡ₚ r :: rs ++ mjoin gs.*2).
    rewrite IH. symmetry. apply Permutation_middle.
Qed.

Definition group_ok (cols : list string) (g : list value * list Row) : Prop :=
  g.2 ≠ [] ∧ Forall (λ r, row_key cols r = g.1) g.2.

Lemma group_add_ok cols r gs :
  Forall (group_ok cols) gs → Forall (group_ok cols) (group_add (row_key cols r) r gs).
Proof.
  induction 1 as [|[k rs] gs [G1 G2] F IH]; cbn [group_add].
  - constructor; [|done]. split; [done|]. by constructor.
  - destruct (keys_match _ k) eqn:E; constructor; try done.
    apply keys_match_spec in E as [E _]. cbn [fst snd] in *. split.
    + by destruct rs.
    + apply Forall_app. split; [done|]. by constructor.
Qed.

Lemma group_rows_spec cols rows :
  let gs := group_rows cols rows in
  mjoin gs.*2 ≡ₚ rows ∧ Forall (group_ok cols) gs ∧ NoDup (filter (λ k, self_eq k = true) gs.*1).
Proof.
  cbv zeta. unfold group_rows.
  assert (G : ∀ gs, Forall (group_ok cols) gs → NoDup (filter (λ k, self_eq k = true) gs.*1) →
    let gs' := foldl (λ gs r, group_add (row_key cols r) r gs) gs rows in
    mjoin gs'.*2 ≡ₚ mjoin gs.*2 ++ rows ∧ Forall (group_ok cols) gs' ∧
    NoDup (filter (λ k, self_eq k = true) gs'.*1)).
  { induction rows as [|r rows IH]; intros gs F N; cbv zeta; cbn [foldl]; [by rewrite app_nil_r|].
    destruct (IH (group_add (row_key cols r) r gs)) as (P & F' & N').
    - by apply group_add_ok.
    - destruct (group_add_keys (row_key cols r) r gs) as [[-> _]|[-> Hn]]; [done|].
      rewrite filter_app. destruct (self_eq (row_key cols r)) eqn:E.
      + rewrite filter_cons_True by done. apply NoDup_app. split; [done|]. split.
        * intros k [_ Hk]%list_elem_of_filter ->%list_elem_of_singleton. by apply Hn in Hk.
        * apply NoDup_singleton.
      + rewrite filter_cons_False by congruence. by rewrite app_nil_r.
    - split; [|done]. rewrite P, group_add_rows. by rewrite <- Permutation_middle. }
  destruct (G []) as (P & F & N); [constructor|constructor|]. done.
Qed.
End groups.

(** ** Properties *)

(** The rows a query is about. *)
Definition selected `{JsonText} `{Lowercase} (rows : list Row) (q : Query) : list Row :=
  match q_filter q with Some f => filter_rows rows f | None => rows end.

(** A query without aggregates returns one page of its matching rows: there is
    a permutation of them, sorted by the ORDER BY columns and stable on ties, of
    which the result is the part after the offset, cut at the limit, with the
    projection applied row by row. *)
Theorem execute_page `{JsonText} `{Lowercase} `{GroupOrder} (rows : list Row) (q : Query)
    (NG : q_group_by q = []) (NA : q_aggregations q = []) :
  ∃ sorted, sorted ≡ₚ selected rows q ∧
    StronglySorted (le_by (row_cmp (q_sorts q))) sorted ∧
    (∀ r, class_of (row_cmp (q_sorts q)) r sorted = class_of (row_cmp (q_sorts q)) r (selected rows q)) ∧
    execute rows q =
      Ok ((λ r, match q_projections q with Some cols => project r cols | None => r end) <$>
          truncated (drop (default O (q_offset q)) sorted) (q_limit q)).
Proof.
  unfold execute. rewrite NG, NA. cbn [length Nat.eqb negb orb].
  change (match q_filter q with Some f => filter_rows rows f | None => rows end) with (selected rows q).
  exists (sort_rows (selected rows q) (q_sorts q)).
  destruct (sort_rows_spec (selected rows q) (q_sorts q)) as (P & S & C).
  split; [done|]. split; [done|]. split; [done|].
  destruct (q_offset q) as [o|]; [|by destruct (q_projections q); rewrite ?list_fmap_id].
  change (default O (Some o)) with o. destruct (Nat.leb_spec (length (sort_rows (selected rows q) (q_sorts q))) o) as [L|L].
  - rewrite drop_ge by done. by destruct (q_limit q) as [[|n]|].
  - by destruct (q_projections q); rewrite ?list_fmap_id.
Qed.

(** GROUP BY partitions the matching rows: every row is in exactly one group,
    all rows of a group have the group's key, no group is empty and no two groups
    share a key that equals itself (only keys with a NaN do not). The result has
    one row per group, sorted by the group columns and cut at the limit. *)
Theorem group_by_partitions `{JsonTextLaws} `{Lowercase} `{GroupOrderLaws} (rows : list Row) (q : Query)
    (G : q_group_by q ≠ []) :
  ∃ gs out, mjoin gs.*2 ≡ₚ selected rows q ∧
    Forall (group_ok (q_group_by q)) gs ∧
    NoDup (filter (λ k, self_eq k = true) gs.*1) ∧
    out ≡ₚ group_row q <$> gs ∧
    StronglySorted (le_by (row_cmp (sort_asc <$> q_group_by q))) out ∧
    execute rows q = Ok (truncated out (q_limit q)).
Proof.
  destruct (group_rows_spec (q_group_by q) (selected rows q)) as (P & F & N).
  exists (group_rows (q_group_by q) (selected rows q)).
  exists (sort_by (row_cmp (sort_asc <$> q_group_by q))
    (group_row q <$> group_enum (group_rows (q_group_by q) (selected rows q)))).
  split; [done|]. split; [done|]. split; [done|]. split.
  { rewrite sort_by_perm. by rewrite group_enum_perm. }
  split; [apply sort_by_sorted, row_cmp_total|].
  unfold execute, execute_aggregation, selected. destruct (q_group_by q) as [|c cs]; [done|].
  cbn [length Nat.eqb negb orb]. done.
Qed.

(** MIN and MAX of a column are null when the rows have no non-null value in it,
    and otherwise a value of the column that no other value precedes, respectively
    follows, in the order of [Value]. *)
Theorem extrema_are_extreme `{JsonText} (rows : list Row) (col : string) :
  (non_null col rows = [] → agg_value rows (Min col) = VNull ∧ agg_value rows (Max col) = VNull) ∧
  (non_null col rows ≠ [] →
     agg_value rows (Min col) ∈ non_null col rows ∧ agg_value rows (Max col) ∈ non_null col rows ∧
     ∀ v, v ∈ non_null col rows →
       value_cmp (agg_value rows (Min col)) v ≠ Gt ∧ value_cmp (agg_value rows (Max col)) v ≠ Lt).
Proof.
  unfold agg_value. rewrite keep_min_best, keep_max_best. split; [by intros ->|]. intros N.
  pose proof (keep_best_spec value_cmp (non_null col rows) value_cmp_total None) as Smin.
  pose proof (keep_best_spec _ (non_null col rows) (total_cmp_opp _ value_cmp_total) None) as Smax.
  destruct (foldl (keep_best value_cmp) _ _) as [mn|]; [|by destruct Smin].
  destruct (foldl _ _ _) as [mx|]; [|by destruct Smax].
  destruct Smin as [[?|In1] Lmin], Smax as [[?|In2] Lmax]; try done. cbn [default].
  split; [done|]. split; [done|]. intros v Hv. split; [apply Lmin; by right|].
  specialize (Lmax v (or_intror Hv)). by destruct (value_cmp _ v).
Qed.

(** LIKE holds exactly when, ignoring case, a pattern without a percent sign
    equals the text, and otherwise the pieces between the signs occur in the text
    in order and disjoint, the first one at its start: taking the first
    occurrence of each piece never misses a match. The last piece need not be at
    the end. *)
Theorem like_finds_pieces `{Lowercase} (s pattern : string) :
  let text := str_bytes (to_lowercase s) in
  let parts := split_byte "%"%byte (str_bytes (to_lowercase pattern)) in
  like s pattern = true ↔
    (if Nat.eqb (length parts) 1 then text = str_bytes (to_lowercase pattern) else anchored parts text).
Proof.
  cbv zeta. unfold like. case_match; [apply bool_decide_eq_true|]. apply like_loop_anchored.
Qed.

(** ** Witnesses and concrete runs *)

Definition demo_lowercase : Lowercase :=
  λ s, String.string_of_list_byte (ascii_lower <$> str_bytes s).
Lemma demo_lowercase_laws : @LowercaseLaws demo_lowercase.
Proof.
  intros s _. unfold to_lowercase, demo_lowercase. apply String.list_byte_of_string_of_list_byte.
Qed.
Definition demo_group_order : GroupOrder := λ gs, gs.
Lemma demo_group_order_laws : @GroupOrderLaws demo_group_order.
Proof. by intros gs. Qed.

Definition person (id : Z) (dept : string) (age : Z) : Row :=
  MkRow id (<["dept"%string := VString dept]> {["age"%string := VInt64 age]}).
Definition people : list Row :=
  [person 1 "eng" 25; person 2 "sales" 30; person 3 "eng" 22; person 4 "ops" 25].
Definition demo_query : Query :=
  offset (limit (order_by (with_filter (Query_new "p") (FGt "age" (VInt64 22))) (sort_desc "age")) 1) 1.

Lemma execute_page_witness :
  ∃ sorted, sorted ≡ₚ @selected demo_json_text demo_lowercase people demo_query ∧
    StronglySorted (le_by (@row_cmp demo_json_text (q_sorts demo_query))) sorted ∧
    (∀ r, class_of (@row_cmp demo_json_text (q_sorts demo_query)) r sorted =
      class_of (@row_cmp demo_json_text (q_sorts demo_query)) r
        (@selected demo_json_text demo_lowercase people demo_query)) ∧
    @execute demo_json_text demo_lowercase demo_group_order people demo_query =
      Ok ((λ r, match q_projections demo_query with Some cols => project r cols | None => r end) <$>
          truncated (drop (default O (q_offset demo_query)) sorted) (q_limit demo_query)).
Proof.
  apply (@execute_page demo_json_text demo_lowercase demo_group_order people demo_query); reflexivity.
Defined.

Definition demo_group_query : Query :=
  q_count (group_by (Query_new "p") ["dept"%string]) "n".

Lemma group_by_partitions_witness :
  ∃ gs out, mjoin gs.*2 ≡ₚ @selected demo_json_text demo_lowercase people demo_group_query ∧
    Forall (group_ok (q_group_by demo_group_query)) gs ∧
    NoDup (filter (λ k, @self_eq k = true) gs.*1) ∧
    out ≡ₚ @group_row demo_json_text demo_group_query <$> gs ∧
    StronglySorted (le_by (@row_cmp demo_json_text (sort_asc <$> q_group_by demo_group_query))) out ∧
    @execute demo_json_text demo_lowercase demo_group_order people demo_group_query =
      Ok (truncated out (q_limit demo_group_query)).
Proof.
  apply (@group_by_partitions demo_json_text demo_json_text_laws demo_lowercase demo_group_order
    demo_group_order_laws people demo_group_query). discriminate.
Defined.

(** A pattern that ends in text does not anchor there. *)
Example like_not_anchored_at_end :
  @like demo_lowercase "alice@example.com.evil.org" "%@example.com" = true.
Proof. vm_compute. reflexivity. Qed.

(** The minimum of two negative floats is the larger one. *)
Definition float_col (bits : Z) : Row := MkRow 1 {["x"%string := VFloat64 bits]}.
Definition minus_one : Z := 0xBFF0000000000000.
Definition minus_two : Z := 0xC000000000000000.

Example min_of_negatives :
  f_compare F64 minus_two minus_one = Some Lt ∧
  @agg_value demo_json_text [float_col minus_one; float_col minus_two] (Min "x") = VFloat64 minus_one.
Proof. split; vm_compute; reflexivity. Qed.

(** OFFSET and SELECT have no effect on a query with aggregates. *)
Example aggregates_ignore_offset :
  @execute demo_json_text demo_lowercase demo_group_order people
    (select (offset demo_group_query 2) []) =
  @execute demo_json_text demo_lowercase demo_group_order people demo_group_query.
Proof. vm_compute. reflexivity. Qed.
