(* ===== verification/Tx.v ===== *)
(** [blitz-tx]: transactions ([transaction.rs]) and the transaction manager
    ([manager.rs]), one call at a time. The interleaving of concurrent commits,
    with the stripe locks, is modelled in [TxConc]. *)
From S2P Require Import Prelude Float Value HashMap Schema Core.

Local Open Scope Z_scope.

(** ** Data *)

Inductive IsolationLevel : Type := ReadUncommitted | ReadCommitted | RepeatableRead | Serializable.
Inductive TxState : Type := Active | Committed | RolledBack.

#[export] Instance isolation_eq_dec : EqDecision IsolationLevel.
Proof. solve_decision. Defined.
#[export] Instance tx_state_eq_dec : EqDecision TxState.
Proof. solve_decision. Defined.

Inductive WriteOp : Type :=
| WInsert (table : string) (row : Row)
| WUpdate (table : string) (id : Z) (vs : values)
| WDelete (table : string) (id : Z).

#[export] Instance write_op_eq_dec : EqDecision WriteOp.
Proof. solve_decision. Defined.

(** A row's key: table name and row id. *)
Abbreviation key := (string * Z)%type.

Inductive tx_error : Type :=
| TxNotFound (why : string)
| TxAlreadyCommitted (why : string)
| TxAlreadyRolledBack (why : string)
| ReadWriteConflict (k : key)
| WriteWriteConflict
| SerializationFailure (why : string)
| TxCoreError (e : core_error)
| TxTypeError (e : type_error)
| TxNotActive.

#[export] Instance tx_error_eq_dec : EqDecision tx_error.
Proof. solve_decision. Defined.

Record Transaction : Type := MkTx {
  tx_id : Z;
  tx_state : TxState;
  isolation : IsolationLevel;
  writes : list WriteOp;
  read_set : list (key * Z);
  start_seq : Z
}.

Definition Transaction_new (id : Z) (iso : IsolationLevel) : Transaction :=
  MkTx id Active iso [] [] 0.
Definition is_active (tx : Transaction) : bool := bool_decide (tx_state tx = Active).
Definition is_committed (tx : Transaction) : bool := bool_decide (tx_state tx = Committed).
Definition is_rolled_back (tx : Transaction) : bool := bool_decide (tx_state tx = RolledBack).

Definition set_tx_state (tx : Transaction) (s : TxState) : Transaction :=
  MkTx (tx_id tx) s (isolation tx) (writes tx) (read_set tx) (start_seq tx).
Definition set_writes (tx : Transaction) (w : list WriteOp) : Transaction :=
  MkTx (tx_id tx) (tx_state tx) (isolation tx) w (read_set tx) (start_seq tx).
Definition set_start_seq (tx : Transaction) (s : Z) : Transaction :=
  MkTx (tx_id tx) (tx_state tx) (isolation tx) (writes tx) (read_set tx) s.

(** Buffering: the three calls push one [WriteOp] if the transaction is active. *)
Definition buffer (tx : Transaction) (w : WriteOp) : result tx_error () * Transaction :=
  if is_active tx then (Ok (), set_writes tx (writes tx ++ [w])) else (Err TxNotActive, tx).
Definition tx_insert (tx : Transaction) (table : string) (row : Row) :=
  buffer tx (WInsert table row).
Definition tx_update (tx : Transaction) (table : string) (id : Z) (vs : values) :=
  buffer tx (WUpdate table id vs).
Definition tx_delete (tx : Transaction) (table : string) (id : Z) :=
  buffer tx (WDelete table id).

Definition record_read (tx : Transaction) (k : key) (version : Z) : Transaction :=
  MkTx (tx_id tx) (tx_state tx) (isolation tx) (writes tx) (read_set tx ++ [(k, version)])
    (start_seq tx).

Definition tx_commit (tx : Transaction) : result tx_error () * Transaction :=
  if is_active tx then (Ok (), set_tx_state tx Committed) else (Err TxNotActive, tx).
Definition tx_rollback (tx : Transaction) : result tx_error () * Transaction :=
  if is_active tx then (Ok (), set_writes (set_tx_state tx RolledBack) [])
  else (Err TxNotActive, tx).
Definition write_count (tx : Transaction) : nat := length (writes tx).
Definition has_writes (tx : Transaction) : bool := negb (Nat.eqb (length (writes tx)) 0).

(** ** The manager's shared state; the stripes matter only to interleavings *)

Record Manager : Type := MkManager {
  engine : Engine;
  next_tx_id : Z;
  commit_seq : Z;
  versions : gmap key Z
}.

Definition Manager_new (e : Engine) : Manager := MkManager e 1 0 ∅.
Definition set_engine (m : Manager) (e : Engine) : Manager :=
  MkManager e (next_tx_id m) (commit_seq m) (versions m).
Definition set_versions (m : Manager) (v : gmap key Z) : Manager :=
  MkManager (engine m) (next_tx_id m) (commit_seq m) v.

Definition begin (m : Manager) (iso : IsolationLevel) : Transaction * Manager :=
  let id := next_tx_id m in
  let m := MkManager (engine m) (wrap 64 (id + 1)) (commit_seq m) (versions m) in
  (set_start_seq (Transaction_new id iso) (commit_seq m), m).

Definition version_of (vers : gmap key Z) (k : key) : Z := default 0 (vers !! k).
Definition current_version (m : Manager) (k : key) : Z := version_of (versions m) k.

(** The newest buffered update or delete of a row, as the loop over
    [tx.writes.iter().rev()] finds it. *)
Definition touches (k : key) (w : WriteOp) : bool :=
  match w with
  | WUpdate t id _ | WDelete t id => bool_decide ((t, id) = k)
  | WInsert _ _ => false
  end.
Definition newest_write (ws : list WriteOp) (k : key) : option WriteOp :=
  snd <$> list_find (λ w, touches k w = true) (rev ws).

Definition tx_core {A} (r : result core_error A) : result tx_error A := map_err TxCoreError r.

(** [TransactionManager::get] *)
Definition tx_get (m : Manager) (tx : Transaction) (k : key)
    : result tx_error (option Row) * Transaction :=
  if negb (is_active tx) then (Err TxNotActive, tx) else
  let version := current_version m k in
  match newest_write (writes tx) k with
  | Some (WDelete _ _) => (Ok None, record_read tx k version)
  | Some (WUpdate _ _ vs) =>
      match get (engine m) k.1 k.2 with
      | Err e => (Err (TxCoreError e), tx)
      | Ok None => (Err (TxCoreError (RowNotFound k.2)), tx)
      | Ok (Some base) =>
          (Ok (Some (MkRow (row_id base) (vs ∪ row_values base))), record_read tx k version)
      end
  | _ =>
      match get (engine m) k.1 k.2 with
      | Err e => (Err (TxCoreError e), tx)
      | Ok row => (Ok row, record_read tx k version)
      end
  end.

(** *** [commit]: validation, application, stamping *)

(** [matches!(tx.isolation, Serializable | RepeatableRead)] *)
Definition checks_reads (iso : IsolationLevel) : bool :=
  match iso with Serializable | RepeatableRead => true | _ => false end.

Definition write_key (w : WriteOp) : option key :=
  match w with WInsert _ _ => None | WUpdate t id _ | WDelete t id => Some (t, id) end.

(** The first read whose version has changed. *)
Definition stale_read (vers : gmap key Z) (reads : list (key * Z)) : option key :=
  (λ p, p.2.1) <$> list_find (λ r, version_of vers r.1 ≠ r.2) reads.

Definition write_conflict (vers : gmap key Z) (start : Z) (w : WriteOp) : bool :=
  match write_key w with
  | None => false
  | Some k => match vers !! k with Some v => start <? v | None => false end
  end.

Definition validate (vers : gmap key Z) (tx : Transaction) : option tx_error :=
  match (if checks_reads (isolation tx) then stale_read vers (read_set tx) else None) with
  | Some k => Some (ReadWriteConflict k)
  | None => if existsb (write_conflict vers (start_seq tx)) (writes tx)
            then Some WriteWriteConflict else None
  end.

(** One turn of the loop over [tx.writes.drain(..)]. *)
Definition apply_write (e : Engine) (w : WriteOp) : result core_error key * Engine :=
  match w with
  | WInsert t row => let '(r, e) := insert e t row in ((λ id, (t, id)) <$> r, e)
  | WUpdate t id vs => let '(r, e) := update e t id vs in ((λ _, (t, id)) <$> r, e)
  | WDelete t id => let '(r, e) := delete_row e t id in ((λ _, (t, id)) <$> r, e)
  end.

(** The loop: it stops at the first failure, keeping what is applied. *)
Fixpoint apply_writes (e : Engine) (ws : list WriteOp) : result core_error (list key) * Engine :=
  match ws with
  | [] => (Ok [], e)
  | w :: ws =>
      match apply_write e w with
      | (Err er, e) => (Err er, e)
      | (Ok k, e) =>
          match apply_writes e ws with
          | (Err er, e) => (Err er, e)
          | (Ok ks, e) => (Ok (k :: ks), e)
          end
      end
  end.

Fixpoint stamp (vers : gmap key Z) (seq : Z) (ks : list key) : gmap key Z :=
  match ks with
  | [] => vers
  | k :: ks => stamp (<[k := seq]> vers) seq ks
  end.

(** [TransactionManager::commit]; the [?] in the loop leaves the transaction
    active with its buffer drained and the touched rows unstamped. *)
Definition commit (m : Manager) (tx : Transaction)
    : result tx_error (list key) * Transaction * Manager :=
  if negb (is_active tx) then (Err TxNotActive, tx, m) else
  if negb (has_writes tx) then (Ok [], (tx_commit tx).2, m) else
  match validate (versions m) tx with
  | Some er => (Err er, (tx_rollback tx).2, m)
  | None =>
      let seq := wrap 64 (commit_seq m + 1) in
      let m := MkManager (engine m) (next_tx_id m) seq (versions m) in
      let '(r, e) := apply_writes (engine m) (writes tx) in
      let m := set_engine m e in
      let tx := set_writes tx [] in
      match r with
      | Err er => (Err (TxCoreError er), tx, m)
      | Ok touched => (Ok touched, (tx_commit tx).2, set_versions m (stamp (versions m) seq touched))
      end
  end.

Definition rollback (m : Manager) (tx : Transaction) : result tx_error () * Transaction :=
  tx_rollback tx.

(** ** Facts *)

(** What applying one write does to the rows. *)
Lemma apply_write_err e w er e' : apply_write e w = (Err er, e') → e' = e.
Proof.
  destruct w as [t r|t id vs|t id]; simpl.
  - destruct (insert e t r) as [[?|?] ?] eqn:E; [done|]. intros [= -> <-].
    eapply (with_table_err (λ t, t_insert t r)); [intros *; apply t_insert_err|exact E].
  - destruct (update e t id vs) as [[?|?] ?] eqn:E; [done|]. intros [= -> <-].
    eapply (with_table_err (λ t, t_update t id vs)); [intros *; apply t_update_err|exact E].
  - unfold delete_row. destruct (take e t id) as [[?|?] ?] eqn:E; [done|]. intros [= -> <-].
    eapply (with_table_err (λ t, let '(r, t) := t_take t id in (Ok r, t))); [|exact E].
    intros u ? ?. by destruct (t_take u id); intros [=].
Qed.

(** The row a successful write leaves under its key, and the key it needs. *)
Definition write_table (w : WriteOp) : string :=
  match w with WInsert t _ | WUpdate t _ _ | WDelete t _ => t end.

Lemma apply_write_ok e w k e' :
  apply_write e w = (Ok k, e') →
  k.1 = write_table w ∧ (∀ k', write_key w = Some k' → k = k') ∧
  (∀ k', k' ≠ k → row_at e' k' = row_at e k') ∧
  match w with
  | WInsert _ r => row_at e' k = Some (MkRow k.2 (row_values r))
  | WUpdate _ _ vs => ∃ cur, row_at e k = Some cur ∧
      row_at e' k = Some (MkRow (row_id cur) (vs ∪ row_values cur))
  | WDelete _ _ => row_at e' k = None
  end.
Proof.
  destruct w as [t r|t id vs|t id]; simpl.
  - destruct (insert e t r) as [[id|?] e1] eqn:E; [|done]. intros [= <- <-].
    apply (with_table_ok (λ t, t_insert t r)) in E as (u & u' & Hu & E & ->).
    apply t_insert_rows in E as (-> & Er & _).
    split_and!; [done|done| |].
    + intros [n i] N. rewrite row_at_insert. simpl. case_decide as D; [|done].
      unfold row_at. simpl. rewrite <- D, Hu. simpl. rewrite Er.
      apply lookup_insert_ne. congruence.
    + rewrite row_at_insert. simpl. rewrite decide_True by done. rewrite Er.
      by rewrite lookup_insert_eq.
  - destruct (update e t id vs) as [[row|?] e1] eqn:E; [|done]. intros [= <- <-].
    apply (with_table_ok (λ t, t_update t id vs)) in E as (u & u' & Hu & E & ->).
    apply t_update_rows in E as (cur & Hc & -> & Er & _).
    split_and!; [done|by intros ? [= <-]| |].
    + intros [n i] N. rewrite row_at_insert. simpl. case_decide as D; [|done].
      unfold row_at. simpl. rewrite <- D, Hu. simpl. rewrite Er.
      apply lookup_insert_ne. congruence.
    + exists cur. unfold row_at at 1. simpl. rewrite Hu. split; [done|].
      rewrite row_at_insert. simpl. rewrite decide_True by done. rewrite Er.
      by rewrite lookup_insert_eq.
  - unfold delete_row. destruct (take e t id) as [[row|?] e1] eqn:E; [|done]. intros [= <- <-].
    apply (with_table_ok (λ t, let '(r, t) := t_take t id in (Ok r, t)))
      in E as (u & u' & Hu & E & ->).
    destruct (t_take u id) as [x u1] eqn:Ex. injection E as <- <-.
    apply t_take_rows in Ex as (-> & Er & _).
    split_and!; [done|by intros ? [= <-]| |].
    + intros [n i] N. rewrite row_at_insert. simpl. case_decide as D; [|done].
      unfold row_at. simpl. rewrite <- D, Hu. simpl. rewrite Er.
      apply lookup_delete_ne. congruence.
    + rewrite row_at_insert. simpl. rewrite decide_True by done. rewrite Er.
      by rewrite lookup_delete_eq.
Qed.

(** A write and the key returned for it. *)
Definition key_of (w : WriteOp) (k : key) : Prop :=
  k.1 = write_table w ∧ ∀ k', write_key w = Some k' → k = k'.

Lemma apply_writes_ok ws : ∀ e ks e',
  apply_writes e ws = (Ok ks, e') →
  Forall2 key_of ws ks ∧ ∀ k, k ∉ ks → row_at e' k = row_at e k.
Proof.
  induction ws as [|w ws IH]; intros e ks e'; simpl.
  { by intros [= <- <-]. }
  destruct (apply_write e w) as [[k|?] e1] eqn:Ew; [|done].
  destruct (apply_writes e1 ws) as [[ks'|?] e2] eqn:Es; [|done].
  intros [= <- <-]. apply apply_write_ok in Ew as (T & K & F & _).
  apply IH in Es as (F2 & G). split; [by constructor|].
  intros k' [N1 N2]%not_elem_of_cons. rewrite G by done. by apply F.
Qed.

Lemma stamp_spec vers seq ks k :
  stamp vers seq ks !! k = if decide (k ∈ ks) then Some seq else vers !! k.
Proof.
  revert vers. induction ks as [|k0 ks IH]; intros vers; cbn [stamp].
  { by rewrite decide_False by apply not_elem_of_nil. }
  rewrite IH. destruct (decide (k ∈ ks)).
  { rewrite decide_True; [done|]. by apply elem_of_cons; right. }
  destruct (decide (k0 = k)) as [->|].
  - rewrite lookup_insert_eq, decide_True; [done|]. apply elem_of_cons. by left.
  - rewrite lookup_insert_ne by done. rewrite decide_False; [done|].
    rewrite elem_of_cons. naive_solver.
Qed.

Lemma apply_writes_split pre w post : ∀ e kpre k kpost e',
  apply_writes e (pre ++ w :: post) = (Ok (kpre ++ k :: kpost), e') → length kpre = length pre →
  ∃ e1 e2, apply_writes e pre = (Ok kpre, e1) ∧ apply_write e1 w = (Ok k, e2) ∧
    apply_writes e2 post = (Ok kpost, e').
Proof.
  induction pre as [|v pre IH]; intros e [|k0 kpre] k kpost e'; simpl; try done.
  - destruct (apply_write e w) as [[k1|?] e1] eqn:E1; [|done].
    destruct (apply_writes e1 post) as [[ks|?] e2] eqn:E2; [|done].
    intros [= -> -> ->] _. by exists e, e1.
  - destruct (apply_write e v) as [[k1|?] e1] eqn:E1; [|done].
    destruct (apply_writes e1 _) as [[ks|?] e2] eqn:E2; [|done].
    intros [= -> -> ->] [= L]. apply IH in E2 as (e3 & e4 & H1 & ? & ?); [|done].
    exists e3, e4. by rewrite H1.
Qed.

Lemma touches_spec k w : touches k w = true ↔ write_key w = Some k.
Proof. destruct w; simpl; rewrite ?bool_decide_eq_true; naive_solver. Qed.

Lemma newest_write_unique k pre w post :
  write_key w = Some k → Forall (λ v, touches k v = false) post →
  newest_write (pre ++ w :: post) k = Some w.
Proof.
  intros K F. unfold newest_write. rewrite rev_app_distr. simpl. rewrite <- app_assoc.
  rewrite list_find_app_r.
  - simpl. rewrite decide_True; [done|]. by apply touches_spec.
  - apply list_find_None, Forall_rev. eapply Forall_impl; [exact F|]. simpl. congruence.
Qed.

(** A key that no applied write returned is addressed by none of them. *)
Lemma keys_untouched ws ks k :
  Forall2 key_of ws ks → k ∉ ks → Forall (λ v, touches k v = false) ws.
Proof.
  induction 1 as [|w k' ws ks [_ K] _ IH]; intros N; [done|].
  apply not_elem_of_cons in N as [N1 N2]. constructor; [|by apply IH].
  apply not_true_iff_false. intros T%touches_spec. apply N1. symmetry. by apply K.
Qed.

(** ** Conflicts, declaratively *)

(** A row the transaction read has been rewritten since, at the isolation
    levels that check reads. *)
Definition read_changed (m : Manager) (tx : Transaction) : Prop :=
  checks_reads (isolation tx) = true ∧ ∃ k v, (k, v) ∈ read_set tx ∧ current_version m k ≠ v.

(** A row the transaction updates or deletes was written by a commit newer than
    its snapshot. *)
Definition write_newer (m : Manager) (tx : Transaction) : Prop :=
  ∃ w k v, w ∈ writes tx ∧ write_key w = Some k ∧ versions m !! k = Some v ∧ start_seq tx < v.

Lemma stale_read_None vers reads :
  stale_read vers reads = None ↔ ∀ k v, (k, v) ∈ reads → version_of vers k = v.
Proof.
  unfold stale_read. rewrite fmap_None, list_find_None, Forall_forall. split.
  - intros H k v Hin. apply dec_stable, (H (k, v) Hin).
  - intros H [k v] Hin. simpl. rewrite (H k v Hin). tauto.
Qed.

Lemma stale_read_Some vers reads k :
  stale_read vers reads = Some k → ∃ v, (k, v) ∈ reads ∧ version_of vers k ≠ v.
Proof.
  unfold stale_read. intros ([i [k' v]] & E & ->)%fmap_Some.
  apply list_find_Some in E as (Hi & N & _). exists v. split; [|done].
  by eapply list_elem_of_lookup_2.
Qed.

Lemma write_conflict_spec vers start w :
  write_conflict vers start w = true ↔
  ∃ k v, write_key w = Some k ∧ vers !! k = Some v ∧ start < v.
Proof.
  unfold write_conflict. destruct (write_key w) as [k|]; [|naive_solver].
  destruct (vers !! k) as [v|] eqn:E; [rewrite Z.ltb_lt|]; naive_solver.
Qed.

Lemma existsb_write_newer m tx :
  existsb (write_conflict (versions m) (start_seq tx)) (writes tx) = true ↔ write_newer m tx.
Proof.
  unfold write_newer. rewrite existsb_exists. setoid_rewrite write_conflict_spec.
  setoid_rewrite <- list_elem_of_In. naive_solver.
Qed.

Lemma validate_Some_conflict m tx er :
  validate (versions m) tx = Some er → read_changed m tx ∨ write_newer m tx.
Proof.
  unfold validate. destruct (if checks_reads _ then _ else _) as [k|] eqn:S.
  - intros _. left. destruct (checks_reads _) eqn:CR; [|done].
    apply stale_read_Some in S as (v & ? & ?). split; eauto.
  - destruct (existsb _ _) eqn:X; [|done]. intros _. right. by apply existsb_write_newer.
Qed.

Lemma validate_None m tx :
  validate (versions m) tx = None ↔ ¬ read_changed m tx ∧ ¬ write_newer m tx.
Proof.
  split.
  - unfold validate. destruct (if checks_reads _ then _ else _) as [k|] eqn:S; [done|].
    destruct (existsb _ _) eqn:X; [done|]. intros _. split.
    + intros (CR & k & v & Hin & Hne). rewrite CR, stale_read_None in S. by apply Hne, S.
    + intros Y%existsb_write_newer. congruence.
  - intros [N1 N2]. destruct (validate _ _) as [er|] eqn:V; [|done].
    apply validate_Some_conflict in V. tauto.
Qed.

Lemma validate_Some vers tx er :
  validate vers tx = Some er → er = WriteWriteConflict ∨ ∃ k, er = ReadWriteConflict k.
Proof. unfold validate. repeat case_match; naive_solver. Qed.

(** ** The manager and its clients, one call at a time *)

(** The shared manager and every client's transaction. *)
Record Sys : Type := MkSys { s_mgr : Manager; s_txs : gmap nat Transaction }.

(** A commit is taken only below the bound where the sequence counter wraps. *)
Inductive sys_step : Sys → Sys → Prop :=
| step_begin m txs t iso tx m' :
    txs !! t = None → begin m iso = (tx, m') → sys_step (MkSys m txs) (MkSys m' (<[t := tx]> txs))
| step_get m txs t tx k r tx' :
    txs !! t = Some tx → tx_get m tx k = (r, tx') →
    sys_step (MkSys m txs) (MkSys m (<[t := tx']> txs))
| step_buffer m txs t tx w r tx' :
    txs !! t = Some tx → buffer tx w = (r, tx') →
    sys_step (MkSys m txs) (MkSys m (<[t := tx']> txs))
| step_commit m txs t tx r tx' m' :
    txs !! t = Some tx → commit_seq m < u64_max → commit m tx = (r, tx', m') →
    sys_step (MkSys m txs) (MkSys m' (<[t := tx']> txs))
| step_rollback m txs t tx r tx' :
    txs !! t = Some tx → rollback m tx = (r, tx') →
    sys_step (MkSys m txs) (MkSys m (<[t := tx']> txs)).

(** Versions are commit numbers already handed out. *)
Definition mgr_inv (m : Manager) : Prop :=
  0 <= commit_seq m <= u64_max ∧ ∀ k v, versions m !! k = Some v → 0 < v <= commit_seq m.

(** What a transaction has seen is not newer than the manager. *)
Definition tx_inv (m : Manager) (tx : Transaction) : Prop :=
  0 <= start_seq tx <= commit_seq m ∧ ∀ k v, (k, v) ∈ read_set tx → v <= current_version m k.

Definition sys_inv (s : Sys) : Prop :=
  mgr_inv (s_mgr s) ∧ ∀ t tx, s_txs s !! t = Some tx → tx_inv (s_mgr s) tx.

(** [m'] is a later state of the manager than [m]. *)
Definition mgr_later (m m' : Manager) : Prop :=
  commit_seq m <= commit_seq m' ∧ ∀ k, current_version m k <= current_version m' k.

(** [tx'] is a later state of the same transaction. *)
Definition tx_later (tx tx' : Transaction) : Prop :=
  start_seq tx' = start_seq tx ∧ isolation tx' = isolation tx ∧
  ∀ r, r ∈ read_set tx → r ∈ read_set tx'.

#[export] Instance mgr_later_preorder : PreOrder mgr_later.
Proof.
  split; [split; [lia|intros; lia]|]. intros a b c [? H1] [? H2]. split; [lia|].
  intros k. specialize (H1 k). specialize (H2 k). lia.
Qed.
#[export] Instance tx_later_preorder : PreOrder tx_later.
Proof. split; unfold tx_later; [done|]. intros a b c ? ?. intuition (congruence || eauto). Qed.

Lemma mgr_inv_version m k : mgr_inv m → 0 <= current_version m k <= commit_seq m.
Proof.
  intros [? HV]. unfold current_version, version_of.
  destruct (versions m !! k) eqn:E; simpl; [apply HV in E|]; lia.
Qed.

Lemma tx_inv_later m m' tx : mgr_later m m' → tx_inv m tx → tx_inv m' tx.
Proof.
  intros [? L] [? HV]. split; [lia|]. intros k v Hin. specialize (HV k v Hin).
  specialize (L k). lia.
Qed.

Lemma begin_inv m iso tx m' :
  mgr_inv m → begin m iso = (tx, m') → mgr_inv m' ∧ mgr_later m m' ∧ tx_inv m' tx.
Proof.
  intros [? ?] [= <- <-]. split_and!; [done|split; [done|intros; reflexivity]|].
  split; simpl; [lia|]. by intros k v ?%elem_of_nil.
Qed.

Lemma record_read_later tx k v : tx_later tx (record_read tx k v).
Proof. split_and!; [done..|]. intros r Hr. simpl. apply elem_of_app. by left. Qed.

Lemma record_read_inv m tx k : tx_inv m tx → tx_inv m (record_read tx k (current_version m k)).
Proof.
  intros [? HV]. split; [done|]. intros k' v. simpl.
  rewrite elem_of_app, list_elem_of_singleton. intros [?|[= -> ->]]; [by apply HV|lia].
Qed.

Lemma tx_get_shape m tx k r tx' :
  tx_get m tx k = (r, tx') → tx' = tx ∨ tx' = record_read tx k (current_version m k).
Proof. unfold tx_get. repeat case_match; intros [= <- <-]; auto. Qed.

Lemma buffer_shape tx w r tx' :
  buffer tx w = (r, tx') → tx' = tx ∨ tx' = set_writes tx (writes tx ++ [w]).
Proof. unfold buffer. case_match; intros [= <- <-]; auto. Qed.

Lemma tx_rollback_later tx : tx_later tx (tx_rollback tx).2.
Proof. unfold tx_rollback. case_match; by split_and!. Qed.

(** A commit leaves the transaction's snapshot alone and only moves the
    manager forward. *)
Lemma commit_shape m tx r tx' m' :
  mgr_inv m → commit_seq m < u64_max → commit m tx = (r, tx', m') →
  tx_later tx tx' ∧ read_set tx' = read_set tx ∧ mgr_inv m' ∧ mgr_later m m'.
Proof.
  intros I B. unfold commit.
  destruct (is_active tx) eqn:A; simpl; [|by intros [= <- <- <-]].
  assert (tx_later tx (tx_commit tx).2 ∧ read_set (tx_commit tx).2 = read_set tx) as [TC RC]
    by (unfold tx_commit; rewrite A; by split_and!).
  assert (read_set (tx_rollback tx).2 = read_set tx) as RR
    by (unfold tx_rollback; by rewrite A).
  destruct (has_writes tx); simpl; [|by intros [= <- <- <-]].
  destruct (validate _ _); [intros [= <- <- <-]; split_and!; by try apply tx_rollback_later|].
  assert (wrap 64 (commit_seq m + 1) = commit_seq m + 1) as W.
  { apply wrap_small. destruct I as [? _]. unfold u64_max in *. lia. }
  rewrite W. destruct I as [I1 I2].
  destruct (apply_writes _ _) as [[ks|?] e]; intros [= <- <- <-].
  - unfold tx_commit. unfold is_active in *. simpl. rewrite A. split_and!; try done.
    + split; simpl; [lia|]. intros k v. rewrite stamp_spec. destruct (decide (k ∈ ks)).
      * intros [= <-]. lia.
      * intros Hv. apply I2 in Hv. lia.
    + split; simpl; [lia|]. intros k. unfold current_version, version_of. simpl.
      rewrite stamp_spec. destruct (decide (k ∈ ks)); simpl; [|lia].
      destruct (versions m !! k) eqn:E; simpl; [apply I2 in E|]; lia.
  - split_and!; try done.
    + split; simpl; [lia|]. intros k v Hv. apply I2 in Hv. lia.
    + split; simpl; [lia|]. intros k. reflexivity.
Qed.

Lemma sys_step_later s s' :
  sys_inv s → sys_step s s' →
  sys_inv s' ∧ mgr_later (s_mgr s) (s_mgr s') ∧
  ∀ t tx, s_txs s !! t = Some tx → ∃ tx', s_txs s' !! t = Some tx' ∧ tx_later tx tx'.
Proof.
  assert (∀ m m' txs t tx', (∀ u tx, txs !! u = Some tx → tx_inv m tx) →
    (∀ tx, txs !! t = Some tx → tx_later tx tx') → mgr_later m m' → mgr_inv m' → tx_inv m' tx' →
    sys_inv (MkSys m' (<[t := tx']> txs)) ∧ mgr_later m m' ∧
    ∀ u tx, txs !! u = Some tx → ∃ tx'', <[t := tx']> txs !! u = Some tx'' ∧ tx_later tx tx'') as G.
  { intros m m' txs t tx' IT LT LM IM IT'. split_and!; [split|..]; simpl; try done.
    - intros u tx [[<- <-]|[_ Hu]]%lookup_insert_Some; [done|].
      apply (tx_inv_later m); [done|by eapply IT].
    - intros u tx Hu. destruct (decide (t = u)) as [<-|].
      + exists tx'. rewrite lookup_insert_eq. auto.
      + exists tx. by rewrite lookup_insert_ne. }
  intros [IM IT] H. destruct H as [m txs t iso tx m' N B|m txs t tx k r tx' Ht E|
    m txs t tx w r tx' Ht E|m txs t tx r tx' m' Ht B E|m txs t tx r tx' Ht E]; simpl in *.
  - apply begin_inv in B as (? & ? & ?); [|done]. apply G; try done. intros ? ?. congruence.
  - apply G; try done.
    + intros tx0 ?. simplify_eq. apply tx_get_shape in E as [->| ->]; [done|apply record_read_later].
    + apply tx_get_shape in E as [->| ->]; [|apply record_read_inv]; eauto.
  - apply G; try done.
    + intros tx0 ?. simplify_eq. apply buffer_shape in E as [->| ->]; [done|by split_and!].
    + destruct (IT _ _ Ht). apply buffer_shape in E as [->| ->]; by split.
  - apply commit_shape in E as (L & ER & IM' & LM); [|done..]. apply G; try done.
    + intros tx0 ?. by simplify_eq.
    + destruct (tx_inv_later _ _ _ LM (IT _ _ Ht)) as [? ?]. destruct L as [Es _].
      split; rewrite ?Es, ?ER; done.
  - unfold rollback, tx_rollback in E. destruct (IT _ _ Ht). apply G; try done.
    + intros tx0 ?. simplify_eq. case_match; by simplify_eq.
    + case_match; by simplify_eq.
Qed.

Lemma sys_steps_later s s' :
  rtc sys_step s s' → sys_inv s →
  sys_inv s' ∧ mgr_later (s_mgr s) (s_mgr s') ∧
  ∀ t tx, s_txs s !! t = Some tx → ∃ tx', s_txs s' !! t = Some tx' ∧ tx_later tx tx'.
Proof.
  induction 1 as [s|s s1 s2 H _ IH]; intros I.
  { split; [exact I|]. split; [reflexivity|]. intros t tx Ht. exists tx. by split. }
  destruct (sys_step_later _ _ I H) as (I1 & L1 & T1).
  destruct (IH I1) as (I2 & L2 & T2). split; [exact I2|]. split; [by etrans|].
  intros t tx Ht. destruct (T1 _ _ Ht) as (tx1 & Ht1 & ?).
  destruct (T2 _ _ Ht1) as (tx2 & ? & ?). exists tx2. split; [done|by etrans].
Qed.

Lemma sys_inv_init e : sys_inv (MkSys (Manager_new e) ∅).
Proof.
  split; [split; [unfold u64_max; simpl; lia|]|]; simpl; intros k v; by rewrite lookup_empty.
Qed.

(** A conflicting commit, and the stamps of a successful one. *)
Lemma commit_conflict_cases m tx :
  tx_state tx = Active → writes tx ≠ [] → read_changed m tx ∨ write_newer m tx →
  let '(r, tx', m') := commit m tx in
  (r = Err WriteWriteConflict ∨ ∃ k, r = Err (ReadWriteConflict k)) ∧
  m' = m ∧ tx_state tx' = RolledBack ∧ writes tx' = [].
Proof.
  intros A W C. unfold commit, is_active, has_writes. rewrite bool_decide_true by done.
  destruct (writes tx) as [|w ws] eqn:Ew; [done|]. simpl.
  destruct (validate (versions m) tx) as [er|] eqn:V.
  - unfold tx_rollback, is_active. rewrite bool_decide_true by done. simpl.
    split; [|done]. apply validate_Some in V as [->|[k ->]]; eauto.
  - apply validate_None in V. tauto.
Qed.

Lemma commit_stamps m tx ks tx' m' :
  writes tx ≠ [] → commit m tx = (Ok ks, tx', m') →
  ∀ k, k ∈ ks → current_version m' k = wrap 64 (commit_seq m + 1) ∧
    commit_seq m' = wrap 64 (commit_seq m + 1).
Proof.
  intros W. unfold commit. destruct (is_active tx); [|done]. simpl.
  destruct (has_writes tx) eqn:Hw; simpl; [|by unfold has_writes in Hw; destruct (writes tx)].
  destruct (validate _ _); [done|].
  destruct (apply_writes _ _) as [[ks'|?] e]; [|done]. intros [= <- <- <-] k Hk.
  split; [|done]. unfold current_version, version_of. simpl. rewrite stamp_spec.
  by rewrite decide_True.
Qed.

(** ** Running a transaction alone *)

(** The calls a client makes between [begin] and [commit]. *)
Inductive client_call : Type := CallGet (k : key) | CallBuffer (w : WriteOp).

Fixpoint run_client (m : Manager) (cs : list client_call) (tx : Transaction) : Transaction :=
  match cs with
  | [] => tx
  | CallGet k :: cs => run_client m cs (tx_get m tx k).2
  | CallBuffer w :: cs => run_client m cs (buffer tx w).2
  end.

(** Active, with a current snapshot and current reads. *)
Definition fresh_tx (m : Manager) (tx : Transaction) : Prop :=
  tx_state tx = Active ∧ start_seq tx = commit_seq m ∧
  ∀ k v, (k, v) ∈ read_set tx → current_version m k = v.

Lemma run_client_fresh m cs : ∀ tx, fresh_tx m tx → fresh_tx m (run_client m cs tx).
Proof.
  induction cs as [|[k|w] cs IH]; intros tx F; simpl; [done|..]; apply IH.
  - destruct (tx_get m tx k) as [r tx'] eqn:E. destruct F as (? & ? & R).
    apply tx_get_shape in E as [->| ->]; [done|]. split_and!; [done..|].
    intros k' v. simpl. rewrite elem_of_app, list_elem_of_singleton.
    intros [?|[= -> ->]]; [by apply R|done].
  - destruct (buffer tx w) as [r tx'] eqn:E. by apply buffer_shape in E as [->| ->].
Qed.

Lemma fresh_no_conflict m tx :
  mgr_inv m → fresh_tx m tx → ¬ read_changed m tx ∧ ¬ write_newer m tx.
Proof.
  intros [_ V] (_ & S & R). split.
  - intros (_ & k & v & Hin & N). by apply N, R.
  - intros (w & k & v & _ & _ & Hv & L). apply V in Hv. lia.
Qed.

(** ** Properties *)

(** C21: [commit] of an active transaction with writes reports a conflict exactly
    when a row read at a read-checking isolation level has changed version, or a
    row to update or delete carries a version newer than the snapshot; a
    conflict leaves engine, versions and sequence untouched and rolls the
    transaction back with its buffer cleared. *)
Theorem commit_conflict_iff (m : Manager) (tx : Transaction) :
  tx_state tx = Active → writes tx ≠ [] →
  let '(r, tx', m') := commit m tx in
  ((r = Err WriteWriteConflict ∨ ∃ k, r = Err (ReadWriteConflict k)) ↔
     read_changed m tx ∨ write_newer m tx) ∧
  (read_changed m tx ∨ write_newer m tx →
     m' = m ∧ tx_state tx' = RolledBack ∧ writes tx' = []).
Proof.
  intros A W. unfold commit, is_active, has_writes. rewrite bool_decide_true by done.
  destruct (writes tx) as [|w ws] eqn:Ew; [done|]. rewrite <- Ew. simpl.
  replace (Nat.eqb (length (writes tx)) 0) with false by (rewrite Ew; done). simpl.
  destruct (validate (versions m) tx) as [er|] eqn:V.
  - pose proof (validate_Some_conflict _ _ _ V) as C.
    split; [|intros _; unfold tx_rollback, is_active; by rewrite bool_decide_true].
    split; [done|]. intros _. apply validate_Some in V as [->|[k ->]]; eauto.
  - apply validate_None in V as [V1 V2].
    destruct (apply_writes _ _) as [[ks|?] e]; (split; [|naive_solver]); split;
      [naive_solver..|]; naive_solver.
Qed.

Definition demo_engine : Engine :=
  (insert (create_put ∅ demo_schema) "users" (demo_row 7 "a@x")).2.
Definition demo_mgr : Manager := Manager_new demo_engine.
Definition demo_update (email : string) : WriteOp :=
  WUpdate "users" 1 {["email"%string := VString email]}.
Definition demo_tx (iso : IsolationLevel) (email : string) : Transaction :=
  run_client demo_mgr [CallGet ("users"%string, 1); CallBuffer (demo_update email)]
    (begin demo_mgr iso).1.

Lemma commit_conflict_iff_witness :
  let m := (commit demo_mgr (demo_tx Serializable "b@x")).2 in
  let tx := demo_tx Serializable "c@x" in
  tx_state tx = Active ∧ writes tx ≠ [] ∧
  let '(r, tx', m') := commit m tx in
  ((r = Err WriteWriteConflict ∨ ∃ k, r = Err (ReadWriteConflict k)) ↔
     read_changed m tx ∨ write_newer m tx) ∧
  (read_changed m tx ∨ write_newer m tx →
     m' = m ∧ tx_state tx' = RolledBack ∧ writes tx' = []).
Proof.
  intros m tx. split; [reflexivity|]. split; [vm_compute; discriminate|].
  apply (commit_conflict_iff m tx); [reflexivity|vm_compute; discriminate].
Defined.

(** A commit with writes that succeeds returns one key per buffered write, in
    order, with the row ids of updates and deletes kept; marks the transaction
    committed; takes the next sequence number and stamps exactly the returned
    keys with it; and leaves every row under another key as it was. *)
Theorem commit_success (m m' : Manager) (tx tx' : Transaction) (ks : list key) :
  writes tx ≠ [] → commit m tx = (Ok ks, tx', m') →
  Forall2 key_of (writes tx) ks ∧ tx_state tx' = Committed ∧ writes tx' = [] ∧
  commit_seq m' = wrap 64 (commit_seq m + 1) ∧
  (∀ k, versions m' !! k = if decide (k ∈ ks) then Some (commit_seq m') else versions m !! k) ∧
  (∀ k, k ∉ ks → row_at (engine m') k = row_at (engine m) k).
Proof.
  intros W. unfold commit. destruct (is_active tx) eqn:A; [|done]. simpl.
  unfold has_writes. destruct (writes tx) as [|w ws] eqn:Ew; [done|]. rewrite <- Ew.
  replace (Nat.eqb (length (writes tx)) 0) with false by (by rewrite Ew). simpl.
  destruct (validate _ _); [done|].
  destruct (apply_writes (engine m) (writes tx)) as [[ks'|?] e] eqn:Ea; [|done].
  intros [= <- <- <-]. apply apply_writes_ok in Ea as [F R].
  unfold tx_commit, is_active in *. simpl. rewrite A. split_and!; try done.
  intros k. apply stamp_spec.
Qed.

Lemma commit_success_witness :
  ∃ ks tx' m', commit demo_mgr (demo_tx Serializable "b@x") = (Ok ks, tx', m') ∧
    Forall2 key_of (writes (demo_tx Serializable "b@x")) ks ∧ tx_state tx' = Committed.
Proof.
  destruct (triple_ok (commit demo_mgr (demo_tx Serializable "b@x")) ltac:(vm_compute; reflexivity))
    as (ks & tx' & m' & E).
  exists ks, tx', m'. split; [exact E|].
  destruct (commit_success demo_mgr m' (demo_tx Serializable "b@x") tx' ks) as (F & S & _);
    [vm_compute; discriminate|exact E|]. exact (conj F S).
Defined.

(** Read-your-writes: when exactly one of the buffered writes addresses a row,
    as an update or a delete, [get] returns the row a successful commit of the
    whole buffer would leave there. *)
Theorem get_reads_own_write (m : Manager) (tx : Transaction) (k : key)
    (pre post : list WriteOp) (w : WriteOp) (kpre kpost : list key) (e' : Engine) :
  tx_state tx = Active → writes tx = pre ++ w :: post → write_key w = Some k →
  length kpre = length pre → k ∉ kpre → k ∉ kpost →
  apply_writes (engine m) (writes tx) = (Ok (kpre ++ k :: kpost), e') →
  (tx_get m tx k).1 = Ok (row_at e' k).
Proof.
  intros A Ew Kw L N1 N2 Ap. unfold tx_get, is_active. rewrite bool_decide_true by done. simpl.
  rewrite Ew in Ap. apply apply_writes_split in Ap as (e1 & e2 & A1 & A2 & A3); [|done].
  apply apply_writes_ok in A1 as [_ R1]. specialize (R1 k N1).
  pose proof (apply_writes_ok _ _ _ _ A3) as [F3 R3]. specialize (R3 k N2).
  assert (newest_write (writes tx) k = Some w) as ->.
  { rewrite Ew. apply newest_write_unique; [done|].
    by eapply (keys_untouched post kpost). }
  apply apply_write_ok in A2 as (_ & _ & _ & R). rewrite R3.
  destruct w as [t r|t id vs|t id]; simpl in Kw; simplify_eq/=; [|by rewrite R].
  destruct R as (cur & Hc & ->). rewrite R1 in Hc. rewrite get_row_at.
  unfold table_exists, row_at in *. simpl in *. apply bind_Some in Hc as (u & Hu & Hr).
  rewrite bool_decide_true by (rewrite Hu; eauto). by rewrite Hu; simpl; rewrite Hr.
Qed.

Lemma get_reads_own_write_witness :
  (tx_get demo_mgr (demo_tx Serializable "b@x") ("users"%string, 1)).1 =
  Ok (row_at (apply_writes demo_engine [demo_update "b@x"]).2 ("users"%string, 1)).
Proof.
  apply (get_reads_own_write demo_mgr (demo_tx Serializable "b@x") ("users"%string, 1) [] []
           (demo_update "b@x") [] []); try reflexivity; try apply not_elem_of_nil.
Defined.

(** A transaction that runs alone never conflicts: with no commit between its
    [begin] and its [commit], whatever it reads and buffers, at every isolation
    level, [commit] never returns a conflict, and with an engine that accepts its
    writes it commits. *)
Theorem solo_transaction_commits (m : Manager) (iso : IsolationLevel) (cs : list client_call) :
  mgr_inv m →
  let '(tx0, m0) := begin m iso in
  let tx := run_client m0 cs tx0 in
  let '(r, tx', _) := commit m0 tx in
  (∀ k, r ≠ Err (ReadWriteConflict k)) ∧ r ≠ Err WriteWriteConflict ∧
  (is_ok (apply_writes (engine m) (writes tx)).1 = true → is_ok r = true ∧ tx_state tx' = Committed).
Proof.
  intros I. destruct (begin m iso) as [tx0 m0] eqn:B.
  assert (fresh_tx m0 tx0 ∧ engine m0 = engine m) as [F0 Ee].
  { injection B as <- <-. split; [|done]. split_and!; try done. simpl. intros k v Hin. by apply elem_of_nil in Hin. }
  apply begin_inv in B as (I0 & _ & _); [|done].
  apply (run_client_fresh m0 cs) in F0 as F. pose proof (fresh_no_conflict _ _ I0 F) as V.
  apply validate_None in V. destruct F as (A & _ & _).
  set (tx := run_client m0 cs tx0) in *. unfold commit, is_active, tx_commit, is_active.
  rewrite !bool_decide_true by done. simpl. destruct (has_writes tx) eqn:W; simpl; [|done].
  rewrite V, Ee. destruct (apply_writes (engine m) (writes tx)) as [[ks|er] e]; simpl;
    rewrite ?bool_decide_true by done; done.
Qed.

Lemma demo_mgr_inv : mgr_inv demo_mgr.
Proof. split; [vm_compute; split; discriminate|]. intros k v. simpl. by rewrite lookup_empty. Qed.

Lemma solo_transaction_commits_witness :
  mgr_inv demo_mgr ∧
  let '(tx0, m0) := begin demo_mgr Serializable in
  let tx := run_client m0 [CallGet ("users"%string, 1); CallBuffer (demo_update "b@x")] tx0 in
  let '(r, tx', _) := commit m0 tx in
  (∀ k, r ≠ Err (ReadWriteConflict k)) ∧ r ≠ Err WriteWriteConflict ∧
  (is_ok (apply_writes (engine demo_mgr) (writes tx)).1 = true →
   is_ok r = true ∧ tx_state tx' = Committed).
Proof. exact (conj demo_mgr_inv (solo_transaction_commits demo_mgr Serializable _ demo_mgr_inv)). Defined.

(** C11: no lost update, call by call: take a reachable system in which
    transaction [t] is open; let another commit then succeed and write row [k];
    after any further calls of any clients, if [t] is still active and either
    updates or deletes [k], or had read [k] before that commit at a read-checking
    level and has any write, its commit is a conflict and changes nothing. *)
Theorem no_lost_update (s0 s1 s2 : Sys) (t u : nat) (tx0 txu txu' tx2 : Transaction)
    (ks : list key) (m1 : Manager) (k : key) :
  sys_inv s0 → s_txs s0 !! t = Some tx0 → t ≠ u →
  commit_seq (s_mgr s0) < u64_max → writes txu ≠ [] →
  commit (s_mgr s0) txu = (Ok ks, txu', m1) → k ∈ ks →
  s1 = MkSys m1 (<[u := txu']> (s_txs s0)) → s_txs s0 !! u = Some txu →
  rtc sys_step s1 s2 → s_txs s2 !! t = Some tx2 → tx_state tx2 = Active →
  (∃ w, w ∈ writes tx2 ∧ write_key w = Some k) ∨
  (checks_reads (isolation tx0) = true ∧ (∃ v, (k, v) ∈ read_set tx0) ∧ writes tx2 ≠ []) →
  let '(r, tx', m') := commit (s_mgr s2) tx2 in
  (r = Err WriteWriteConflict ∨ ∃ k', r = Err (ReadWriteConflict k')) ∧
  m' = s_mgr s2 ∧ tx_state tx' = RolledBack.
Proof.
  intros I0 Ht Ntu B Wu Cu Hk -> Hu Hs Ht2 A2 Hc.
  assert (sys_step s0 (MkSys m1 (<[u := txu']> (s_txs s0)))) as Hstep
    by (destruct s0; by eapply step_commit).
  destruct (commit_stamps _ _ _ _ _ Wu Cu _ Hk) as [Ev Es].
  destruct (sys_step_later _ _ I0 Hstep) as (I1 & _ & _). simpl in *.
  destruct (sys_steps_later _ _ Hs I1) as (I2 & [_ L2] & T2). specialize (L2 k). simpl in *.
  assert (<[u := txu']> (s_txs s0) !! t = Some tx0) as Ht1 by (by rewrite lookup_insert_ne).
  destruct (T2 _ _ Ht1) as (tx2' & Ht2' & LS & LI & LR). simplify_eq.
  destruct I0 as [[? ?] IT]. destruct (IT _ _ Ht) as [S0 R0].
  rewrite Ev, wrap_small in L2 by (unfold u64_max in *; lia).
  assert (read_changed (s_mgr s2) tx2 ∨ write_newer (s_mgr s2) tx2) as C.
  { destruct Hc as [(w & Hw & Kw)|(CR & [v Hv] & _)].
    - right. exists w, k, (current_version (s_mgr s2) k). split_and!; [done..| |lia].
      unfold current_version, version_of in *. destruct (versions (s_mgr s2) !! k); simpl in *; [done|lia].
    - left. split; [by rewrite LI|]. exists k, v. split; [by apply LR|].
      specialize (R0 k v Hv).
      pose proof (mgr_inv_version (s_mgr s0) k ltac:(by split)). lia. }
  assert (writes tx2 ≠ []) as W2.
  { destruct Hc as [(w & Hw & _)|(_ & _ & ?)]; [|done]. intros E. rewrite E in Hw.
    by apply elem_of_nil in Hw. }
  pose proof (commit_conflict_cases (s_mgr s2) tx2 A2 W2 C) as CC.
  destruct (commit (s_mgr s2) tx2) as [[r tx'] m']. naive_solver.
Qed.

Definition demo_tx0 : Transaction := demo_tx Serializable "b@x".
Definition demo_tx1 : Transaction := demo_tx Serializable "c@x".
Definition demo_sys : Sys := MkSys demo_mgr (<[0%nat := demo_tx0]> {[1%nat := demo_tx1]}).

Lemma demo_sys_inv : sys_inv demo_sys.
Proof.
  split; [exact demo_mgr_inv|].
  assert (∀ e, tx_inv demo_mgr (demo_tx Serializable e)) as G.
  { intros e. split; [vm_compute; split; discriminate|].
    intros k v. change (read_set _) with [(("users"%string, 1), 0)].
    rewrite list_elem_of_singleton. intros [= -> ->]. vm_compute. discriminate. }
  intros t tx. simpl. rewrite lookup_insert_Some, lookup_singleton_Some.
  intros [[_ <-]|(_ & _ & <-)]; apply G.
Qed.

Lemma no_lost_update_witness :
  ∃ r tx' m', commit (commit demo_mgr demo_tx1).2 demo_tx0 = (r, tx', m') ∧
    (r = Err WriteWriteConflict ∨ ∃ k', r = Err (ReadWriteConflict k')).
Proof.
  destruct (triple_ok (commit demo_mgr demo_tx1) ltac:(vm_compute; reflexivity))
    as (ks & txu' & m1 & E).
  rewrite E. assert (("users"%string, 1) ∈ ks) as Hk.
  { assert ((commit demo_mgr demo_tx1).1.1 = Ok [("users"%string, 1)]) as E2
      by (vm_compute; reflexivity).
    rewrite E in E2. injection E2 as ->. by apply list_elem_of_singleton. }
  pose proof (no_lost_update demo_sys (MkSys m1 (<[1%nat := txu']> (s_txs demo_sys)))
    (MkSys m1 (<[1%nat := txu']> (s_txs demo_sys))) 0 1 demo_tx0 demo_tx1 txu' demo_tx0 ks m1
    ("users"%string, 1) demo_sys_inv eq_refl ltac:(done) ltac:(vm_compute; reflexivity)
    ltac:(discriminate) E Hk eq_refl eq_refl (rtc_refl _ _) eq_refl eq_refl
    (or_introl (ex_intro _ (demo_update "b@x") (conj (list_elem_of_here _ _) eq_refl)))) as H.
  cbn [snd s_mgr] in H |- *. destruct (commit m1 demo_tx0) as [[r tx'] m'].
  exists r, tx', m'. exact (conj eq_refl (proj1 H)).
Defined.

(** ** What the model shows the code gets wrong *)

(** A commit whose second write fails keeps its first write, does not stamp it,
    and leaves the transaction active with an empty buffer: committing it again
    then succeeds. *)
Example partial_commit_is_unstamped :
  let tx := set_writes (begin demo_mgr Serializable).1
    [demo_update "z@x"; WUpdate "users" 99 ∅] in
  let '(r, tx', m') := commit demo_mgr tx in
  r = Err (TxCoreError (RowNotFound 99)) ∧
  (row_at (engine m') ("users"%string, 1) ≫= λ row, row_values row !! "email"%string) =
    Some (VString "z@x") ∧
  current_version m' ("users"%string, 1) = 0 ∧ tx_state tx' = Active ∧
  (commit m' tx').1.1 = Ok [].
Proof. vm_compute. done. Qed.

(** So an update of the same row by a transaction that read it before the partial
    commit is not a conflict: the partial write is lost. *)
Example partial_commit_loses_update :
  let tx := set_writes (begin demo_mgr Serializable).1
    [demo_update "z@x"; WUpdate "users" 99 ∅] in
  let '(_, _, m') := commit demo_mgr tx in
  let '(r, _, m2) := commit m' demo_tx0 in
  r = Ok [("users"%string, 1)] ∧
  (row_at (engine m2) ("users"%string, 1) ≫= λ row, row_values row !! "email"%string) =
    Some (VString "b@x").
Proof. vm_compute. done. Qed.

(** With two buffered updates of a row, [get] merges only the newest one: it does
    not show the first column's new value, which the commit will store. *)
Example get_misses_older_update :
  let tx := set_writes (begin demo_mgr Serializable).1
    [WUpdate "users" 1 {["email"%string := VString "n@x"]};
     WUpdate "users" 1 {["id"%string := VInt64 70]}] in
  let seen r := (r ≫= λ row, row_values row !! "email"%string) : option value in
  (ok (tx_get demo_mgr tx ("users"%string, 1)).1 ≫= seen) = Some (VString "a@x") ∧
  seen (row_at (engine (commit demo_mgr tx).2) ("users"%string, 1)) = Some (VString "n@x").
Proof. vm_compute. done. Qed.
