(* ===== verification/TxConc.v ===== *)
(** [blitz-tx/src/manager.rs] under concurrency: the atomic steps of [begin],
    [get] and [commit] (one lock, one validation, one sequence claim, one applied
    write, one stamping, one unlock at a time), interleaved arbitrarily between
    threads. The row store is used through the interface [RowStore], which the
    table engine implements. *)
From S2P Require Import Prelude Float Value HashMap Schema Core Tx.

Local Open Scope Z_scope.

(** ** The interface the manager relies on *)

Class RowStore (E : Type) : Type := {
  rs_row : E → key → option Row;
  rs_apply : E → WriteOp → result core_error key * E;
  (** The store is well formed; the write does not exhaust an id allocator. *)
  rs_ok : E → Prop;
  rs_fits : E → WriteOp → Prop
}.

Class RowStoreLaws (E : Type) `{RowStore E} : Prop := {
  rs_err e w er e' : rs_apply e w = (Err er, e') → e' = e;
  rs_key e w k e' k' : rs_apply e w = (Ok k, e') → write_key w = Some k' → k = k';
  rs_frame e w k e' k' : rs_apply e w = (Ok k, e') → k' ≠ k → rs_row e' k' = rs_row e k';
  rs_fresh e w k e' : rs_ok e → rs_apply e w = (Ok k, e') → write_key w = None → rs_row e k = None;
  rs_pres e w k e' : rs_ok e → rs_fits e w → rs_apply e w = (Ok k, e') → rs_ok e'
}.

(** ** The engine implements it *)

Definition engine_ok (e : Engine) : Prop :=
  ∀ n t, e !! n = Some t →
    0 <= t_next_id t <= u64_max ∧ ∀ id r, t_rows t !! id = Some r → id < t_next_id t.

Definition engine_fits (e : Engine) (w : WriteOp) : Prop :=
  match w with
  | WInsert n _ => ∀ t, e !! n = Some t → t_next_id t < u64_max
  | _ => True
  end.

#[export] Instance engine_store : RowStore Engine := {
  rs_row := row_at;
  rs_apply := apply_write;
  rs_ok := engine_ok;
  rs_fits := engine_fits
}.

(** The table a successful write replaces. *)
Lemma apply_write_table e w k e' :
  apply_write e w = (Ok k, e') →
  ∃ t t', e !! write_table w = Some t ∧ e' = <[write_table w := t']> e ∧
    match w with
    | WInsert _ r => k = (write_table w, t_next_id t) ∧
        t_rows t' = <[t_next_id t := MkRow (t_next_id t) (row_values r)]> (t_rows t) ∧
        t_next_id t' = wrap 64 (t_next_id t + 1)
    | WUpdate _ id _ => t_next_id t' = t_next_id t ∧
        ∃ row, is_Some (t_rows t !! id) ∧ t_rows t' = <[id := row]> (t_rows t)
    | WDelete _ id => t_next_id t' = t_next_id t ∧ t_rows t' = delete id (t_rows t)
    end.
Proof.
  destruct w as [n r|n id vs|n id]; simpl.
  - destruct (insert e n r) as [[id|?] e1] eqn:E; [|done]. intros [= <- <-].
    apply (with_table_ok (λ t, t_insert t r)) in E as (t & t' & Ht & E & ->).
    apply t_insert_rows in E as (-> & ? & ? & _). by exists t, t'.
  - destruct (update e n id vs) as [[row|?] e1] eqn:E; [|done]. intros [= <- <-].
    apply (with_table_ok (λ t, t_update t id vs)) in E as (t & t' & Ht & E & ->).
    apply t_update_rows in E as (cur & ? & -> & ? & ? & _). exists t, t'. eauto 10.
  - unfold delete_row. destruct (take e n id) as [[row|?] e1] eqn:E; [|done]. intros [= <- <-].
    apply (with_table_ok (λ t, let '(r, t) := t_take t id in (Ok r, t)))
      in E as (t & t' & Ht & E & ->).
    destruct (t_take t id) as [x t1] eqn:Ex. injection E as <- <-.
    apply t_take_rows in Ex as (_ & ? & ? & _). by exists t, t1.
Qed.

#[export] Instance engine_store_laws : RowStoreLaws Engine.
Proof.
  split; simpl.
  - apply apply_write_err.
  - intros e w k e' k' H%apply_write_ok Hk. naive_solver.
  - intros e w k e' k' H%apply_write_ok Hk. naive_solver.
  - intros e w k e' O A Kw. apply apply_write_table in A as (t & t' & Ht & _ & A).
    destruct w as [n r| |]; [|done..]. destruct A as (-> & _). unfold row_at. simpl in *.
    rewrite Ht. simpl. destruct (t_rows t !! t_next_id t) eqn:E; [|done].
    destruct (O _ _ Ht) as [_ L]. apply L in E. lia.
  - intros e w k e' O F A. apply apply_write_table in A as (t & t' & Ht & -> & A).
    intros n u [[<- <-]|[_ Hu]]%lookup_insert_Some; [|by eapply O].
    destruct (O _ _ Ht) as [B L]. destruct w as [n r|n id vs|n id]; simpl in *.
    + destruct A as (_ & -> & ->). specialize (F _ Ht).
      rewrite wrap_small by (unfold u64_max in *; lia). split; [lia|].
      intros id' r'. rewrite lookup_insert_Some. intros [[<- _]|[_ Hr]]; [lia|].
      apply L in Hr. lia.
    + destruct A as (-> & row & [r0 Hr0] & ->). split; [done|].
      intros id' r'. rewrite lookup_insert_Some. intros [[<- _]|[_ Hr]]; eauto.
    + destruct A as (-> & ->). split; [done|].
      intros id' r'. rewrite lookup_delete_Some. intros [_ Hr]. eauto.
Qed.

(** ** Threads and their steps *)

Inductive pc : Type :=
(** between calls *)
| PIdle
(** [begin]: the id is drawn, the sequence not yet loaded *)
| PBegin
(** [get]: the version is read, the row not yet *)
| PGet (k : key) (v : Z)
(** [commit]: acquiring the stripes, in order *)
| PLock (todo held : list nat)
(** [commit]: every stripe held, validation passed *)
| PValid (held : list nat)
(** [commit]: applying; [dn] are the writes applied, with their keys *)
| PApply (held : list nat) (seq : Z) (todo : list WriteOp) (dn : list (WriteOp * key))
(** [commit]: the guards are being dropped *)
| PRelease (held : list nat).

(** [obs] records, for each row read from the store, what was seen. *)
Record Thread : Type := MkThread {
  th_tx : Transaction;
  th_obs : list (key * Z * option Row);
  th_pc : pc
}.

Definition held_of (p : pc) : list nat :=
  match p with
  | PLock _ h | PValid h | PApply h _ _ _ | PRelease h => h
  | _ => []
  end.

(** [Vec::dedup]: drop each element equal to its predecessor. *)
Fixpoint dedup (l : list nat) : list nat :=
  match l with
  | x :: ((y :: _) as l') => if Nat.eqb x y then dedup l' else x :: dedup l'
  | l => l
  end.

Section conc.
Context {E : Type} `{RowStoreLaws E}.
(** [stripe_index], a hash of the key below [STRIPE_COUNT]. *)
Context (stripe_index : key → nat).

(** The stripes a commit covers, in the order it collects them. *)
Definition commit_stripes (tx : Transaction) : list nat :=
  (stripe_index <$> omap write_key (writes tx)) ++
  (if checks_reads (isolation tx) then (λ r, stripe_index r.1) <$> read_set tx else []).

(** [stripes.sort_unstable(); stripes.dedup();] *)
Definition sorted_stripes (tx : Transaction) : list nat :=
  dedup (merge_sort le (commit_stripes tx)).

Record Shared : Type := MkShared {
  c_eng : E;
  c_seq : Z;
  c_vers : gmap key Z;
  c_locks : gmap nat nat;
  (** History only, no step reads it: the rows that commits which failed half-way had
      updated or deleted before they failed; their versions were never stamped. *)
  c_torn : list key
}.

Inductive tstep (t : nat) : Shared → Thread → Shared → Thread → Prop :=
| t_begin_seq sh tx obs :
    tstep t sh (MkThread tx obs PBegin) sh (MkThread (set_start_seq tx (c_seq sh)) obs PIdle)
| t_get_version sh tx obs k :
    is_active tx = true →
    tstep t sh (MkThread tx obs PIdle) sh
      (match newest_write (writes tx) k with
       | Some (WDelete _ _) => MkThread (record_read tx k (version_of (c_vers sh) k)) obs PIdle
       | _ => MkThread tx obs (PGet k (version_of (c_vers sh) k))
       end)
| t_get_row sh tx obs k v :
    tstep t sh (MkThread tx obs (PGet k v)) sh
      (MkThread (record_read tx k v) ((k, v, rs_row (c_eng sh) k) :: obs) PIdle)
| t_get_err sh tx obs k v :
    tstep t sh (MkThread tx obs (PGet k v)) sh (MkThread tx obs PIdle)
| t_buffer sh tx obs w :
    tstep t sh (MkThread tx obs PIdle) sh (MkThread (buffer tx w).2 obs PIdle)
| t_commit_readonly sh tx obs :
    is_active tx = true → writes tx = [] →
    tstep t sh (MkThread tx obs PIdle) sh (MkThread (tx_commit tx).2 obs PIdle)
| t_commit_start sh tx obs :
    is_active tx = true → writes tx ≠ [] →
    tstep t sh (MkThread tx obs PIdle) sh (MkThread tx obs (PLock (sorted_stripes tx) []))
| t_lock e seq vers locks torn tx obs s todo held :
    locks !! s = None →
    tstep t (MkShared e seq vers locks torn) (MkThread tx obs (PLock (s :: todo) held))
      (MkShared e seq vers (<[s := t]> locks) torn) (MkThread tx obs (PLock todo (held ++ [s])))
| t_validate_ok sh tx obs held :
    validate (c_vers sh) tx = None →
    tstep t sh (MkThread tx obs (PLock [] held)) sh (MkThread tx obs (PValid held))
| t_validate_conflict sh tx obs held er :
    validate (c_vers sh) tx = Some er →
    tstep t sh (MkThread tx obs (PLock [] held)) sh (MkThread (tx_rollback tx).2 obs (PRelease held))
| t_claim e seq vers locks torn tx obs held :
    tstep t (MkShared e seq vers locks torn) (MkThread tx obs (PValid held))
      (MkShared e (wrap 64 (seq + 1)) vers locks torn) (MkThread tx obs (PApply held (wrap 64 (seq + 1)) (writes tx) []))
| t_apply e seq vers locks torn tx obs held sq w todo dn k e' :
    rs_apply e w = (Ok k, e') →
    tstep t (MkShared e seq vers locks torn) (MkThread tx obs (PApply held sq (w :: todo) dn))
      (MkShared e' seq vers locks torn) (MkThread tx obs (PApply held sq todo (dn ++ [(w, k)])))
(** the [?] in the loop: the guards are dropped, the transaction stays active with its
    buffer drained, and what is applied stays applied *)
| t_apply_err e seq vers locks torn tx obs held sq w todo dn er e' :
    rs_apply e w = (Err er, e') →
    tstep t (MkShared e seq vers locks torn) (MkThread tx obs (PApply held sq (w :: todo) dn))
      (MkShared e' seq vers locks (omap (λ a, write_key a.1) dn ++ torn)) (MkThread (set_writes tx []) obs (PRelease held))
| t_stamp e seq vers locks torn tx obs held sq dn :
    tstep t (MkShared e seq vers locks torn) (MkThread tx obs (PApply held sq [] dn))
      (MkShared e seq (stamp vers sq dn.*2) locks torn)
      (MkThread (tx_commit (set_writes tx [])).2 obs (PRelease held))
| t_unlock e seq vers locks torn tx obs s held :
    tstep t (MkShared e seq vers locks torn) (MkThread tx obs (PRelease (s :: held)))
      (MkShared e seq vers (delete s locks) torn) (MkThread tx obs (PRelease held))
| t_done sh tx obs :
    tstep t sh (MkThread tx obs (PRelease [])) sh (MkThread tx obs PIdle).

Record CState : Type := MkC { c_sh : Shared; c_threads : gmap nat Thread }.

Inductive cstep : CState → CState → Prop :=
| c_start sh ths t id iso :
    ths !! t = None →
    cstep (MkC sh ths) (MkC sh (<[t := MkThread (Transaction_new id iso) [] PBegin]> ths))
| c_step sh ths t th sh' th' :
    ths !! t = Some th → tstep t sh th sh' th' → cstep (MkC sh ths) (MkC sh' (<[t := th']> ths)).

(** The counters have room: the ids of the rows about to be inserted, and the sequence. *)
Definition has_room (c : CState) : Prop :=
  c_seq (c_sh c) < u64_max ∧
  ∀ t th held sq w todo dn, c_threads c !! t = Some th →
    th_pc th = PApply held sq (w :: todo) dn → rs_fits (c_eng (c_sh c)) w.

(** A step taken while no 64-bit counter is about to wrap. *)
Definition cstep_in_room (c c' : CState) : Prop := has_room c ∧ cstep c c'.

Definition c_init (e : E) : CState := MkC (MkShared e 0 ∅ ∅ []) ∅.

(** ** Sorting the stripes *)

Lemma dedup_elem_of l x : x ∈ dedup l ↔ x ∈ l.
Proof.
  induction l as [|a [|b l] IH]; [done..|]. cbn [dedup]. destruct (Nat.eqb_spec a b) as [->|].
  - rewrite IH, !elem_of_cons. tauto.
  - rewrite elem_of_cons, IH, (elem_of_cons _ _ a). done.
Qed.

Lemma dedup_sorted l : StronglySorted le l → StronglySorted lt (dedup l).
Proof.
  induction 1 as [|a l S IH F]; [constructor|].
  destruct l as [|b l]; [repeat constructor|]. cbn [dedup].
  destruct (Nat.eqb_spec a b) as [->|N]; [done|]. constructor; [done|].
  apply Forall_forall. intros x Hx. apply (dedup_elem_of (b :: l)) in Hx.
  inversion F as [|? ? Hab F' ]; subst. inversion S as [|? ? _ Fb]; subst.
  rewrite Forall_forall in Fb. apply elem_of_cons in Hx as [->|Hx]; [lia|].
  specialize (Fb x Hx). lia.
Qed.

Lemma sorted_stripes_spec tx :
  StronglySorted lt (sorted_stripes tx) ∧
  ∀ s, s ∈ sorted_stripes tx ↔ s ∈ commit_stripes tx.
Proof.
  split.
  - apply dedup_sorted. apply (StronglySorted_merge_sort le).
  - intros s. unfold sorted_stripes. rewrite dedup_elem_of, merge_sort_Permutation. done.
Qed.

(** ** Invariants of one thread *)

Definition pc_inv (tx : Transaction) (p : pc) : Prop :=
  match p with
  | PLock todo held => StronglySorted lt todo ∧ (∀ a b, a ∈ held → b ∈ todo → (a < b)%nat) ∧
      ∀ s, s ∈ commit_stripes tx → s ∈ held ∨ s ∈ todo
  | PValid held => ∀ s, s ∈ commit_stripes tx → s ∈ held
  | PApply held _ todo dn => (∀ s, s ∈ commit_stripes tx → s ∈ held) ∧
      writes tx = dn.*1 ++ todo ∧
      ∀ w k k', (w, k) ∈ dn → write_key w = Some k' → k = k'
  | _ => True
  end.

Record thread_inv (th : Thread) : Prop := {
  ti_nodup : NoDup (held_of (th_pc th));
  ti_pc : pc_inv (th_tx th) (th_pc th);
  ti_reads k v r : (k, v, r) ∈ th_obs th → (k, v) ∈ read_set (th_tx th)
}.

Lemma tstep_thread_inv t sh th sh' th' :
  tstep t sh th sh' th' → thread_inv th → thread_inv th'.
Proof.
  destruct 1; intros [N P R]; simpl in *; split; simpl; try done.
  all: try (by constructor).
  all: try (by intros; eapply R).
  all: try (intros k0 v0 r0 Hk; apply R in Hk; done).
  - destruct (newest_write _ _) as [[]|]; simpl; constructor.
  - destruct (newest_write _ _) as [[]|]; simpl; done.
  - intros k0 v0 r0 Hk. destruct (newest_write _ _) as [[]|]; simpl in *;
      rewrite ?elem_of_app; eauto.
  - intros k0 v0 r0 [[= -> -> ->]|Hk]%elem_of_cons; apply elem_of_app;
      [right; by apply list_elem_of_singleton|left; eauto].
  - unfold buffer. intros. case_match; simpl; eauto.
  - unfold tx_commit. intros. case_match; simpl; eauto.
  - destruct (sorted_stripes_spec tx) as [S M]. split_and!; [done|by intros a b ?%elem_of_nil|].
    intros s Hs. right. by apply M.
  - destruct P as (S & L & C). apply NoDup_app. split_and!; [done| |apply NoDup_singleton].
    intros x Hx ->%list_elem_of_singleton. specialize (L s s Hx). set_solver by lia.
  - destruct P as (S & L & C). inversion S as [|? ? S' F]; subst. split_and!; [done|..].
    + intros a b [Ha| ->%list_elem_of_singleton]%elem_of_app Hb; [apply L; set_solver|].
      rewrite Forall_forall in F. by apply F.
    + intros s0 [Hs|[->|Hs]%elem_of_cons]%C; set_solver.
  - destruct P as (S & L & C). intros s [Hs|Hs%elem_of_nil]%C; done.
  - unfold tx_rollback. intros. case_match; simpl; eauto.
  - split_and!; [done..|]. by intros ? ? ? ?%elem_of_nil.
  - destruct P as (C & W & K). split_and!; [done| |].
    + rewrite W, fmap_app. simpl. by rewrite <- app_assoc.
    + intros w0 k0 k' [Hin|[= -> ->]%list_elem_of_singleton]%elem_of_app Kw; [by eapply K|].
      by eapply rs_key.
  - unfold tx_commit. intros. case_match; simpl; eauto.
  - by apply NoDup_cons in N as [_ N].
Qed.

(** ** The stripe locks *)

Definition lock_inv (c : CState) : Prop :=
  ∀ s t, c_locks (c_sh c) !! s = Some t ↔
    ∃ th, c_threads c !! t = Some th ∧ s ∈ held_of (th_pc th).

Definition threads_inv (c : CState) : Prop :=
  ∀ t th, c_threads c !! t = Some th → thread_inv th.

Lemma cstep_threads_inv c c' : cstep c c' → threads_inv c → threads_inv c'.
Proof.
  destruct 1 as [sh ths t id iso N|sh ths t th sh' th' Ht S]; intros I u thu; simpl in *;
    intros [[<- <-]|[_ Hu]]%lookup_insert_Some; try by eapply I.
  - split; simpl; [constructor|done|by intros k v r ?%elem_of_nil].
  - eapply tstep_thread_inv; [exact S|by eapply I].
Qed.

(** A step changes the locks exactly as it changes what its thread holds. *)
Lemma tstep_locks t sh th sh' th' :
  tstep t sh th sh' th' →
  (c_locks sh' = c_locks sh ∧ held_of (th_pc th') = held_of (th_pc th)) ∨
  (∃ s, c_locks sh !! s = None ∧ c_locks sh' = <[s := t]> (c_locks sh) ∧
     held_of (th_pc th') = held_of (th_pc th) ++ [s]) ∨
  (∃ s, c_locks sh' = delete s (c_locks sh) ∧ held_of (th_pc th) = s :: held_of (th_pc th')).
Proof.
  destruct 1; simpl; eauto 10.
  left. split; [done|]. by destruct (newest_write _ _) as [[]|].
Qed.

Lemma cstep_lock_inv c c' : cstep c c' → threads_inv c → lock_inv c → lock_inv c'.
Proof.
  destruct 1 as [sh ths t id iso N|sh ths t th sh' th' Ht S]; intros T I s u; simpl in *.
  - specialize (I s u). simpl in I. rewrite I. split; intros (th & Hu & Hs); exists th.
    + rewrite lookup_insert_ne by congruence. done.
    + apply lookup_insert_Some in Hu as [[<- <-]|[_ Hu]]; [by apply elem_of_nil in Hs|done].
  - pose proof (I s u) as Is. simpl in Is.
    assert (NoDup (held_of (th_pc th))) as ND by apply (ti_nodup _ (T _ _ Ht)).
    assert ((∃ thu, <[t := th']> ths !! u = Some thu ∧ s ∈ held_of (th_pc thu)) ↔
      if decide (u = t) then s ∈ held_of (th_pc th')
      else ∃ thu, ths !! u = Some thu ∧ s ∈ held_of (th_pc thu)) as ->.
    { case_decide as D; [subst; rewrite lookup_insert_eq; naive_solver|].
      by rewrite lookup_insert_ne. }
    assert ((∃ thu, ths !! t = Some thu ∧ s ∈ held_of (th_pc thu)) ↔ s ∈ held_of (th_pc th)) as Et
      by naive_solver.
    apply tstep_locks in S as [[-> ->]|[(s0 & L & -> & ->)|(s0 & -> & Eh)]].
    + rewrite Is. case_decide; subst; [done|done].
    + rewrite lookup_insert_Some, Is. case_decide; subst.
      * rewrite Et, elem_of_app, list_elem_of_singleton. split; [naive_solver|].
        intros [Hs| ->]; [|by left]. right. split; [|done]. intros <-.
        destruct (I s0 t) as [_ I2]. simpl in I2. rewrite L in I2. naive_solver.
      * split; [naive_solver|]. intros Hs. right. split; [|done]. intros <-.
        destruct (I s0 u) as [_ I2]. simpl in I2. rewrite L in I2. naive_solver.
    + rewrite lookup_delete_Some, Is. rewrite Eh in ND, Et. apply NoDup_cons in ND as [ND _].
      case_decide; subst.
      * rewrite Et, elem_of_cons. naive_solver.
      * split; [naive_solver|]. intros Hs. split; [|done]. intros <-.
        destruct (I s0 u) as [_ I2]. destruct (I s0 t) as [_ I3]. simpl in *.
        specialize (I2 Hs).
        assert (c_locks sh !! s0 = Some t) by (apply I3; exists th; rewrite Eh; set_solver). congruence.
Qed.

(** Two threads never hold a common stripe. *)
Lemma held_exclusive c t u th thu s :
  lock_inv c → c_threads c !! t = Some th → c_threads c !! u = Some thu →
  s ∈ held_of (th_pc th) → s ∈ held_of (th_pc thu) → t = u.
Proof.
  intros I Ht Hu Hs Hs'. assert (c_locks (c_sh c) !! s = Some t) by (apply I; eauto).
  assert (c_locks (c_sh c) !! s = Some u) by (apply I; eauto). congruence.
Qed.

(** ** Versions and pending commits *)

(** The thread has seen version [v] somewhere. *)
Definition seen (th : Thread) (v : Z) : Prop :=
  (∃ k r, (k, v, r) ∈ th_obs th) ∨ ∃ k, th_pc th = PGet k v.

(** The sequence number of a commit that is applying. *)
Definition pend (th : Thread) : option Z :=
  match th_pc th with PApply _ sq _ _ => Some sq | _ => None end.

Record seq_inv (c : CState) : Prop := {
  si_seq : 0 <= c_seq (c_sh c);
  si_vers k : 0 <= version_of (c_vers (c_sh c)) k <= c_seq (c_sh c);
  si_seen t th v : c_threads c !! t = Some th → seen th v → v <= c_seq (c_sh c);
  si_pend t th sq : c_threads c !! t = Some th → pend th = Some sq → 0 < sq <= c_seq (c_sh c);
  si_fresh t th sq k : c_threads c !! t = Some th → pend th = Some sq →
    version_of (c_vers (c_sh c)) k ≠ sq;
  si_unseen t th sq u thu v : c_threads c !! t = Some th → pend th = Some sq →
    c_threads c !! u = Some thu → seen thu v → v ≠ sq;
  si_distinct t th sq u thu : c_threads c !! t = Some th → pend th = Some sq → u ≠ t →
    c_threads c !! u = Some thu → pend thu ≠ Some sq
}.

Lemma version_of_stamp vers sq ks k :
  version_of (stamp vers sq ks) k = if decide (k ∈ ks) then sq else version_of vers k.
Proof. unfold version_of. rewrite stamp_spec. by case_decide. Qed.

(** How a step moves the sequence, the versions, and what its thread has seen
    and is applying. *)
Inductive seq_effect (sh : Shared) (th : Thread) (sh' : Shared) (th' : Thread) : Prop :=
| eff_quiet :
    c_seq sh' = c_seq sh → c_vers sh' = c_vers sh →
    (∀ v, seen th' v → seen th v ∨ ∃ k, v = version_of (c_vers sh) k) →
    (pend th' = pend th ∨ pend th' = None) → seq_effect sh th sh' th'
| eff_claim :
    c_seq sh' = c_seq sh + 1 → c_vers sh' = c_vers sh → (∀ v, seen th' v → seen th v) →
    pend th' = Some (c_seq sh + 1) → seq_effect sh th sh' th'
| eff_stamp sq ks :
    c_seq sh' = c_seq sh → c_vers sh' = stamp (c_vers sh) sq ks →
    (∀ v, seen th' v → seen th v) → pend th = Some sq → pend th' = None →
    seq_effect sh th sh' th'.

Lemma tstep_seq_effect t sh th sh' th' :
  tstep t sh th sh' th' → 0 <= c_seq sh < u64_max → seq_effect sh th sh' th'.
Proof.
  destruct 1; intros B; try (apply eff_quiet; [done..| |by auto];
    intros v'; unfold seen; simpl; naive_solver).
  - apply eff_quiet; [done..| |]; destruct (newest_write _ _) as [[]|]; simpl; auto;
      intros v'; unfold seen; simpl; naive_solver.
  - apply eff_quiet; [done..| |by auto]. intros v'. unfold seen. simpl.
    intros [(k' & r & [[= -> -> ->]|Hin]%elem_of_cons)|[? ?]]; naive_solver.
  - simpl in B. rewrite wrap_small by (unfold u64_max in B; lia).
    apply eff_claim; [done..| |done]. intros v'. unfold seen. simpl. naive_solver.
  - eapply eff_stamp; [done..| |done|done]. intros v'. unfold seen. simpl. naive_solver.
Qed.

Lemma seq_inv_start sh ths t id iso :
  ths !! t = None → seq_inv (MkC sh ths) →
  seq_inv (MkC sh (<[t := MkThread (Transaction_new id iso) [] PBegin]> ths)).
Proof.
  intros N [S V SE PE FR UN DI].
  assert (∀ u thu, <[t := MkThread (Transaction_new id iso) [] PBegin]> ths !! u = Some thu →
    (u ≠ t ∧ ths !! u = Some thu) ∨ (∀ v, ¬ seen thu v) ∧ pend thu = None) as G.
  { intros u thu [[<- <-]|[? ?]]%lookup_insert_Some; [right|left; auto].
    split; [|done]. intros v [(k & r & Hin%elem_of_nil)|[k Hk]]; [done|discriminate]. }
  split; simpl in *; try done.
  - intros u thu v [[_ Hu]|[Hs _]]%G Hv; [by eapply SE|]. by destruct (Hs v).
  - intros u thu sq [[_ Hu]|[_ Hp]]%G Hq; [by eapply PE|congruence].
  - intros u thu sq k [[_ Hu]|[_ Hp]]%G Hq; [by eapply FR|congruence].
  - intros u thu sq w thw v [[_ Hu]|[_ Hp]]%G Hq Hw Hv; [|congruence].
    apply G in Hw as [[_ Hw]|[Hs _]]; [by eapply (UN u thu)|]. by destruct (Hs v).
  - intros u thu sq w thw [[_ Hu]|[_ Hp]]%G Hq Nwu Hw; [|congruence].
    apply G in Hw as [[_ Hw]|[_ Hp]]; [by eapply (DI u thu)|]. congruence.
Qed.

Lemma seq_inv_quiet sh ths t th sh' th' :
  seq_inv (MkC sh ths) → ths !! t = Some th →
  c_seq sh' = c_seq sh → c_vers sh' = c_vers sh →
  (∀ v, seen th' v → seen th v ∨ ∃ k, v = version_of (c_vers sh) k) →
  (pend th' = pend th ∨ pend th' = None) → seq_inv (MkC sh' (<[t := th']> ths)).
Proof.
  intros [S V SE PE FR UN DI] Ht Es Ev Hseen Hpend. simpl in *.
  assert (∀ u thu sq, <[t := th']> ths !! u = Some thu → pend thu = Some sq →
    ∃ tho, ths !! u = Some tho ∧ pend tho = Some sq) as GP.
  { intros u thu sq [[<- <-]|[_ Hu]]%lookup_insert_Some Hq; [|by eauto].
    exists th. destruct Hpend as [Hp|Hp]; [|congruence]. by rewrite <- Hp. }
  assert (∀ u thu v, <[t := th']> ths !! u = Some thu → seen thu v →
    (∃ tho, ths !! u = Some tho ∧ seen tho v) ∨ ∃ k, v = version_of (c_vers sh) k) as GS.
  { intros u thu v [[<- <-]|[_ Hu]]%lookup_insert_Some Hv; [|by eauto].
    destruct (Hseen v Hv); eauto. }
  split; simpl; rewrite ?Es, ?Ev; try done.
  - intros u thu v Hu Hv. destruct (GS _ _ _ Hu Hv) as [(tho & Ho & Hov)|[k ->]];
      [by eapply SE|apply V].
  - intros u thu sq Hu Hq. destruct (GP _ _ _ Hu Hq) as (tho & ? & ?). by eapply PE.
  - intros u thu sq k Hu Hq. destruct (GP _ _ _ Hu Hq) as (tho & ? & ?). by eapply FR.
  - intros u thu sq w thw v Hu Hq Hw Hv. destruct (GP _ _ _ Hu Hq) as (tho & ? & ?).
    destruct (GS _ _ _ Hw Hv) as [(thp & ? & ?)|[k ->]]; [by eapply (UN u tho)|by eapply FR].
  - intros u thu sq w thw Hu Hq N Hw Hp. destruct (GP _ _ _ Hu Hq) as (tho & ? & ?).
    destruct (GP _ _ _ Hw Hp) as (thp & ? & ?). by eapply (DI u tho sq w thp).
Qed.

Lemma seq_inv_claim sh ths t th sh' th' :
  seq_inv (MkC sh ths) → ths !! t = Some th →
  c_seq sh' = c_seq sh + 1 → c_vers sh' = c_vers sh → (∀ v, seen th' v → seen th v) →
  pend th' = Some (c_seq sh + 1) → seq_inv (MkC sh' (<[t := th']> ths)).
Proof.
  intros [S V SE PE FR UN DI] Ht Es Ev Hseen Hpend. simpl in *.
  assert (∀ u thu v, <[t := th']> ths !! u = Some thu → seen thu v →
    ∃ tho, ths !! u = Some tho ∧ seen tho v) as GS.
  { intros u thu v [[<- <-]|[_ Hu]]%lookup_insert_Some Hv; eauto. }
  split; simpl; rewrite ?Es, ?Ev; try done.
  - lia.
  - intros k. specialize (V k). lia.
  - intros u thu v Hu Hv. destruct (GS _ _ _ Hu Hv) as (tho & Ho & Hov).
    specialize (SE _ _ _ Ho Hov). lia.
  - intros u thu sq [[<- <-]|[_ Hu]]%lookup_insert_Some Hq; [simplify_eq; lia|].
    specialize (PE _ _ _ Hu Hq). lia.
  - intros u thu sq k [[<- <-]|[_ Hu]]%lookup_insert_Some Hq; [simplify_eq|by eapply FR].
    specialize (V k). lia.
  - intros u thu sq w thw v Hu Hq Hw Hv. destruct (GS _ _ _ Hw Hv) as (tho & Ho & Hov).
    apply lookup_insert_Some in Hu as [[<- <-]|[_ Hu]]; [|by eapply (UN u thu)].
    specialize (SE _ _ _ Ho Hov). simplify_eq. lia.
  - intros u thu sq w thw Hu Hq N Hw Hp.
    apply lookup_insert_Some in Hu as [[<- <-]|[? Hu]];
      apply lookup_insert_Some in Hw as [[<- <-]|[? Hw]]; try done.
    + specialize (PE _ _ _ Hw Hp). simplify_eq. lia.
    + specialize (PE _ _ _ Hu Hq). simplify_eq. lia.
    + by eapply (DI u thu sq w thw).
Qed.

Lemma seq_inv_stamp sh ths t th sh' th' sq0 ks :
  seq_inv (MkC sh ths) → ths !! t = Some th →
  c_seq sh' = c_seq sh → c_vers sh' = stamp (c_vers sh) sq0 ks →
  (∀ v, seen th' v → seen th v) → pend th = Some sq0 → pend th' = None →
  seq_inv (MkC sh' (<[t := th']> ths)).
Proof.
  intros [S V SE PE FR UN DI] Ht Es Ev Hseen Hp0 Hp1. simpl in *.
  assert (∀ u thu v, <[t := th']> ths !! u = Some thu → seen thu v →
    ∃ tho, ths !! u = Some tho ∧ seen tho v) as GS.
  { intros u thu v [[<- <-]|[_ Hu]]%lookup_insert_Some Hv; eauto. }
  assert (∀ u thu sq, <[t := th']> ths !! u = Some thu → pend thu = Some sq →
    u ≠ t ∧ ths !! u = Some thu) as GP.
  { intros u thu sq [[<- <-]|[? Hu]]%lookup_insert_Some Hq; [congruence|auto]. }
  split; simpl; rewrite ?Es, ?Ev; try done.
  - intros k. rewrite version_of_stamp. case_decide; [|apply V].
    specialize (PE _ _ _ Ht Hp0). lia.
  - intros u thu v Hu Hv. destruct (GS _ _ _ Hu Hv) as (tho & Ho & Hov). by eapply SE.
  - intros u thu sq Hu Hq. destruct (GP _ _ _ Hu Hq). by eapply PE.
  - intros u thu sq k Hu Hq. destruct (GP _ _ _ Hu Hq) as [N Hu']. rewrite version_of_stamp.
    case_decide; [|by eapply FR]. intros ->. by eapply (DI t th sq u thu).
  - intros u thu sq w thw v Hu Hq Hw Hv. destruct (GP _ _ _ Hu Hq).
    destruct (GS _ _ _ Hw Hv) as (tho & Ho & Hov). by eapply (UN u thu).
  - intros u thu sq w thw Hu Hq N Hw Hp. destruct (GP _ _ _ Hu Hq).
    destruct (GP _ _ _ Hw Hp). by eapply (DI u thu sq w thw).
Qed.

Lemma cstep_seq_inv c c' : cstep c c' → has_room c → seq_inv c → seq_inv c'.
Proof.
  destruct 1 as [sh ths t id iso N|sh ths t th sh' th' Ht S]; intros [R _] I.
  - by apply seq_inv_start.
  - apply tstep_seq_effect in S as [?|?|sq ks]; [..|split; [apply (si_seq _ I)|exact R]].
    + by eapply seq_inv_quiet.
    + by eapply seq_inv_claim.
    + by eapply (seq_inv_stamp _ _ _ _ _ _ sq ks).
Qed.

(** ** What a thread has read stays true *)

(** The thread has applied, not yet stamped, an update or delete of [k]. *)
Definition dirt (th : Thread) (k : key) : Prop :=
  ∃ held sq todo dn w, th_pc th = PApply held sq todo dn ∧ (w, k) ∈ dn ∧ write_key w = Some k.

Definition dirty (ths : gmap nat Thread) (k : key) : Prop :=
  ∃ u thu, ths !! u = Some thu ∧ dirt thu k.

(** Past validation. *)
Definition validated (th : Thread) : bool :=
  match th_pc th with PValid _ | PApply _ _ _ _ => true | _ => false end.

Definition obs_inv (c : CState) : Prop :=
  ∀ t th k v row, c_threads c !! t = Some th → (k, v, Some row) ∈ th_obs th →
    version_of (c_vers (c_sh c)) k ≠ v ∨ (dirty (c_threads c) k ∨ k ∈ c_torn (c_sh c)) ∨
    rs_row (c_eng (c_sh c)) k = Some row.

Definition valid_inv (c : CState) : Prop :=
  ∀ t th k v row, c_threads c !! t = Some th → validated th = true →
    checks_reads (isolation (th_tx th)) = true → (k, v, Some row) ∈ th_obs th →
    (dirt th k ∨ k ∈ c_torn (c_sh c)) ∨ rs_row (c_eng (c_sh c)) k = Some row.

(** What the thread is about to write fits the store. *)
Definition fits_next (sh : Shared) (th : Thread) : Prop :=
  ∀ held sq w todo dn, th_pc th = PApply held sq (w :: todo) dn → rs_fits (c_eng sh) w.

Inductive obs_effect (sh : Shared) (th : Thread) (sh' : Shared) (th' : Thread) : Prop :=
| oe_quiet :
    c_eng sh' = c_eng sh → c_vers sh' = c_vers sh → c_torn sh' = c_torn sh →
    (∀ k v r, (k, v, Some r) ∈ th_obs th' →
       (k, v, Some r) ∈ th_obs th ∨ rs_row (c_eng sh) k = Some r) →
    (∀ k, dirt th k → dirt th' k) → obs_effect sh th sh' th'
| oe_fail :
    c_eng sh' = c_eng sh → c_vers sh' = c_vers sh → (∀ k, k ∈ c_torn sh → k ∈ c_torn sh') →
    th_obs th' = th_obs th → (∀ k, dirt th k → k ∈ c_torn sh') → validated th' = false →
    obs_effect sh th sh' th'
| oe_apply w k :
    rs_fits (c_eng sh) w → rs_apply (c_eng sh) w = (Ok k, c_eng sh') → c_vers sh' = c_vers sh →
    c_torn sh' = c_torn sh → th_obs th' = th_obs th → (∀ k', dirt th k' → dirt th' k') →
    (write_key w ≠ None → dirt th' k) → validated th = true → th_tx th' = th_tx th →
    w ∈ writes (th_tx th) → obs_effect sh th sh' th'
| oe_stamp sq ks :
    c_eng sh' = c_eng sh → c_vers sh' = stamp (c_vers sh) sq ks → c_torn sh' = c_torn sh →
    th_obs th' = th_obs th → (∀ k, dirt th k → k ∈ ks) → pend th = Some sq → validated th' = false →
    obs_effect sh th sh' th'.

Lemma tstep_obs_effect t sh th sh' th' :
  tstep t sh th sh' th' → fits_next sh th → thread_inv th → obs_effect sh th sh' th'.
Proof.
  assert (∀ th k, (∀ a b c d, th_pc th ≠ PApply a b c d) → ¬ dirt th k) as ND.
  { intros x k N (? & ? & ? & ? & ? & Hp & _). by eapply N. }
  destruct 1; intros F TI;
    try (apply oe_quiet; simpl; [done..|by auto|intros k' D; exfalso; by eapply ND in D]).
  - apply oe_quiet; [done..| |intros k' D; exfalso; by eapply ND in D].
    destruct (newest_write _ _) as [[]|]; simpl; auto.
  - apply oe_quiet; [done..| |intros k' D; exfalso; by eapply ND in D]. simpl.
    intros k' v' r' [[= -> -> ?]|?]%elem_of_cons; auto.
  - destruct TI as [_ (_ & W & K) _]. simpl in *.
    apply (oe_apply _ _ _ _ w k); simpl; try done.
    + by eapply F.
    + intros k' (h & s & td & dn' & w' & [= <- <- <- <-] & Hin & Kw).
      exists held, sq, todo, (dn ++ [(w, k)]), w'. set_solver.
    + intros N. exists held, sq, todo, (dn ++ [(w, k)]), w. split_and!; [done|set_solver|].
      destruct (write_key w) as [k'|] eqn:Kw; [|done]. f_equal. symmetry. by eapply rs_key.
    + rewrite W. set_solver.
  - match goal with A : rs_apply _ _ = (Err _, _) |- _ => apply rs_err in A as -> end. apply oe_fail; simpl; try done; [set_solver|].
    intros k (h & s & td & dn' & w' & [= <- <- <- <-] & Hin & Kw).
    apply elem_of_app. left. apply list_elem_of_omap. by exists (w', k).
  - apply (oe_stamp _ _ _ _ sq dn.*2); try done.
    intros k (h & s & td & dn' & w' & [= <- <- <- <-] & Hin & Kw).
    apply list_elem_of_fmap. by exists (w', k).
Qed.

Lemma dirty_insert ths t th th' k :
  ths !! t = Some th → (dirt th k → dirt th' k) → dirty ths k → dirty (<[t := th']> ths) k.
Proof.
  intros Ht D (u & thu & Hu & Hd). destruct (decide (u = t)) as [->|].
  - exists t, th'. rewrite lookup_insert_eq. simplify_eq. auto.
  - exists u, thu. by rewrite lookup_insert_ne.
Qed.

Lemma rs_write_existing e w k e' k' row :
  rs_ok e → rs_apply e w = (Ok k, e') → rs_row e k' = Some row →
  (k' = k ∧ write_key w ≠ None) ∨ rs_row e' k' = Some row.
Proof.
  intros O A R. destruct (decide (k' = k)) as [->|N]; [|right; by erewrite rs_frame].
  left. split; [done|]. intros Kw. pose proof (rs_fresh _ _ _ _ O A Kw). congruence.
Qed.

Lemma cstep_obs_inv c c' :
  cstep c c' → has_room c → threads_inv c → seq_inv c → rs_ok (c_eng (c_sh c)) → obs_inv c → obs_inv c'.
Proof.
  destruct 1 as [sh ths t id iso N|sh ths t th sh' th' Ht S]; intros [_ F] T Q O I; unfold obs_inv in *; simpl in *.
  - intros u thu k v row Hu Hin. apply lookup_insert_Some in Hu as [[<- <-]|[_ Hu]];
      [by apply elem_of_nil in Hin|].
    destruct (I _ _ _ _ _ Hu Hin) as [?|[[(w & thw & Hw & Hd)|?]|?]]; [auto| |auto|auto].
    right; left; left. exists w, thw. simpl. rewrite lookup_insert_ne by congruence. done.
  - assert (∀ u thu k v row, <[t := th']> ths !! u = Some thu → (k, v, Some row) ∈ th_obs thu →
      (th_obs th' = th_obs th) → ∃ tho, ths !! u = Some tho ∧ (k, v, Some row) ∈ th_obs tho) as G.
    { intros u thu k v row [[<- <-]|[_ Hu]]%lookup_insert_Some Hin E'; [|eauto].
      rewrite E' in Hin. eauto. }
    apply tstep_obs_effect in S as [Ee Ev Er Ho Hd|Ee Ev Er Ho Hd _|w k0 Fw A Ev Er Ho Hd Hw _ _ _|sq ks Ee Ev Er Ho Hd Hp _];
      [..|by intros ?????; eapply F|by eapply T]; intros u thu k v row Hu Hin; simpl in *.
    + rewrite Ee, Ev. assert ((∃ tho, ths !! u = Some tho ∧ (k, v, Some row) ∈ th_obs tho) ∨
        rs_row (c_eng sh) k = Some row) as [(tho & Hu' & Hin')|?]; [|..|auto].
      { apply lookup_insert_Some in Hu as [[<- <-]|[_ Hu]]; [|eauto].
        apply Ho in Hin as [?|?]; eauto. }
      destruct (I _ _ _ _ _ Hu' Hin') as [?|[[D|?]|?]]; [auto| |rewrite Er; auto|auto].
      right; left; left. apply (dirty_insert ths t th); auto.
    + rewrite Ee, Ev. destruct (G _ _ _ _ _ Hu Hin Ho) as (tho & Hu' & Hin').
      destruct (I _ _ _ _ _ Hu' Hin') as [?|[[(x & thx & Hx & D)|?]|?]]; [by auto| |by auto|by auto].
      right; left. destruct (decide (x = t)) as [->|Nx]; [simpl in Hx; simplify_eq; auto|].
      left. exists x, thx. by rewrite lookup_insert_ne.
    + rewrite Ev, Er. destruct (G _ _ _ _ _ Hu Hin Ho) as (tho & Hu' & Hin').
      destruct (I _ _ _ _ _ Hu' Hin') as [?|[[D|?]|R]]; [auto| |auto|].
      * right; left; left. apply (dirty_insert ths t th); auto.
      * destruct (rs_write_existing _ _ _ _ _ _ O A R) as [[-> Nw]|?]; [|auto].
        right; left; left. exists t, th'. rewrite lookup_insert_eq. auto.
    + rewrite Ee, Ev, Er, version_of_stamp.
      destruct (G _ _ _ _ _ Hu Hin Ho) as (tho & Hu' & Hin').
      assert (v ≠ sq) as Nv.
      { eapply (si_unseen _ Q t th sq u tho); [done..|]. left. eauto. }
      destruct (I _ _ _ _ _ Hu' Hin') as [?|[[(x & thx & Hx & D)|?]|R]]; [| |auto|auto].
      * left. by case_decide.
      * destruct (decide (x = t)) as [->|Nx].
        -- simpl in Hx. simplify_eq. left. rewrite decide_True by auto. done.
        -- right; left; left. exists x, thx. by rewrite lookup_insert_ne.
Qed.

Lemma validate_reads vers tx k v :
  validate vers tx = None → checks_reads (isolation tx) = true → (k, v) ∈ read_set tx →
  version_of vers k = v.
Proof.
  unfold validate. intros Hv C Hin. rewrite C in Hv.
  destruct (stale_read vers (read_set tx)) eqn:S; [done|].
  rewrite stale_read_None in S. by apply S.
Qed.

Lemma read_in_stripes tx k v :
  checks_reads (isolation tx) = true → (k, v) ∈ read_set tx →
  stripe_index k ∈ commit_stripes tx.
Proof.
  intros C Hin. unfold commit_stripes. rewrite C. apply elem_of_app. right.
  apply list_elem_of_fmap. by exists (k, v).
Qed.

Lemma write_in_stripes tx w k :
  w ∈ writes tx → write_key w = Some k → stripe_index k ∈ commit_stripes tx.
Proof.
  intros Hw Kw. unfold commit_stripes. apply elem_of_app. left.
  apply list_elem_of_fmap. exists k. split; [done|]. apply list_elem_of_omap. eauto.
Qed.

(** A validated thread holds all its stripes. *)
Lemma validated_holds th s :
  thread_inv th → validated th = true → s ∈ commit_stripes (th_tx th) → s ∈ held_of (th_pc th).
Proof.
  intros [_ P _] V. unfold validated in V. destruct (th_pc th); try done; simpl in *;
    [by apply P|]. destruct P as [P _]. by apply P.
Qed.

Lemma dirt_validated th k :
  thread_inv th → dirt th k →
  validated th = true ∧ stripe_index k ∈ commit_stripes (th_tx th).
Proof.
  intros [_ P _] (h & sq & td & dn & w & Hp & Hin & Kw). rewrite Hp in P.
  destruct P as (_ & W & _). split; [unfold validated; by rewrite Hp|].
  eapply write_in_stripes; [|exact Kw]. rewrite W. apply elem_of_app. left.
  apply list_elem_of_fmap. by exists (w, k).
Qed.

(** What the thread's own steps do to its validated state. *)
Lemma tstep_validated t sh th sh' th' :
  tstep t sh th sh' th' → validated th' = true →
  (th_tx th' = th_tx th ∧ th_obs th' = th_obs th) ∧
  (validated th = true ∨
   c_eng sh' = c_eng sh ∧ validate (c_vers sh) (th_tx th) = None ∧ (∀ k, ¬ dirt th k) ∧
   ∀ s, thread_inv th → s ∈ commit_stripes (th_tx th) → s ∈ held_of (th_pc th)).
Proof.
  destruct 1; simpl; try done; try (intros _; split; [done|]; auto; fail).
  - by destruct (newest_write _ _) as [[]|].
  - intros _. split; [done|]. right. split_and!; try done.
    + by intros k (? & ? & ? & ? & ? & Hp & _).
    + simpl. intros s [_ (_ & _ & C) _] Hs. simpl in C.
      destruct (C s Hs) as [?|?%elem_of_nil]; done.
Qed.

Lemma cstep_valid_inv c c' :
  cstep c c' → has_room c → threads_inv c → lock_inv c → rs_ok (c_eng (c_sh c)) → obs_inv c →
  valid_inv c → valid_inv c'.
Proof.
  destruct 1 as [sh ths t id iso N|sh ths t th sh' th' Ht S]; intros [_ F] T L O B I;
    unfold valid_inv, obs_inv in *; simpl in *; intros u thu k v row Hu V C Hin.
  { apply lookup_insert_Some in Hu as [[<- <-]|[_ Hu]]; [done|]. by eapply I. }
  pose proof (T _ _ Ht) as TI. simpl in TI.
  pose proof (tstep_obs_effect _ _ _ _ _ S (λ h q w td dn, F t th h q w td dn Ht) TI) as OE.
  apply lookup_insert_Some in Hu as [[<- <-]|[Nu Hu]].
  - destruct (tstep_validated _ _ _ _ _ S V) as [[Etx Eo] Hv].
    rewrite Etx in C. rewrite Eo in Hin. destruct Hv as [Vo|(Ee & Va & ND & Hh)].
    + destruct OE as [Ee Ev Er Ho Hd|Ee Ev Er Ho Hd Hv|w k0 Fw A Ev Er Ho Hd Hw _ _ _|sq ks Ee Ev Er Ho Hd Hp Hv];
        [rewrite Ee, Er|congruence|rewrite Er|congruence];
        (destruct (I _ _ _ _ _ Ht Vo C Hin) as [[D|?]|R]; [by auto|by auto|]); [by auto|].
      destruct (rs_write_existing _ _ _ _ _ _ O A R) as [[-> Nw]|?]; auto.
    + rewrite Ee. pose proof (ti_reads _ TI _ _ _ Hin) as Hr.
      assert (∀ k, k ∈ c_torn sh → k ∈ c_torn sh') as Mo by (destruct OE as [? ? E0| |? ? ? ? ? E0|? ? ? ? E0]; by rewrite ?E0).
      destruct (B _ _ _ _ _ Ht Hin) as [Hne|[[(u & thu & Hu & Hd)|?]|R]]; [| |by auto|by auto].
      * exfalso. apply Hne. by eapply validate_reads.
      * exfalso. destruct (dirt_validated thu k (T _ _ Hu) Hd) as [Vu Su].
        assert (u = t) as ->; [|simplify_eq; by eapply ND].
        eapply (held_exclusive (MkC sh ths)); [exact L|exact Hu|exact Ht|..].
        -- by apply (validated_holds thu (stripe_index k) (T _ _ Hu)).
        -- apply Hh; [done|]. by eapply read_in_stripes.
  - assert (∀ k, k ∈ c_torn sh → k ∈ c_torn sh') as Mo by (destruct OE as [? ? E0| |? ? ? ? ? E0|? ? ? ? E0]; by rewrite ?E0).
    destruct (I _ _ _ _ _ Hu V C Hin) as [[D|?]|R]; [by auto|by auto|].
    destruct OE as [Ee _ _ _ _|Ee _ _ _ _ _|w k0 Fw A _ _ _ _ _ Vt Etx Hw|sq ks Ee _ _ _ _ _ _];
      [rewrite Ee; by auto|rewrite Ee; by auto| |rewrite Ee; by auto].
    destruct (rs_write_existing _ _ _ _ _ _ O A R) as [[-> Nw]|?]; [|auto].
    exfalso. apply Nu. destruct (write_key w) as [k1|] eqn:Kw; [|done].
    assert (k0 = k1) as <- by by eapply rs_key.
    eapply (held_exclusive (MkC sh ths)); [exact L|exact Ht|exact Hu|..].
    + apply (validated_holds th (stripe_index k0)); [done..|]. by eapply write_in_stripes.
    + apply (validated_holds thu (stripe_index k0) (T _ _ Hu) V).
      eapply read_in_stripes; [done|]. by eapply (ti_reads _ (T _ _ Hu)).
Qed.

(** ** The whole invariant, over reachable states *)

Record conc_inv (c : CState) : Prop := {
  co_ok : rs_ok (c_eng (c_sh c));
  co_threads : threads_inv c;
  co_locks : lock_inv c;
  co_seq : seq_inv c;
  co_obs : obs_inv c;
  co_valid : valid_inv c
}.

Lemma conc_inv_init e : rs_ok e → conc_inv (c_init e).
Proof.
  intros O. split; try done.
  intros s t. simpl. rewrite lookup_empty. split; [done|]. by intros (? & ? & _).
Qed.

Lemma tstep_eng_ok t sh th sh' th' :
  tstep t sh th sh' th' → fits_next sh th → thread_inv th → rs_ok (c_eng sh) → rs_ok (c_eng sh').
Proof.
  intros S F TI O. apply tstep_obs_effect in S as [Ee|Ee|w k Fw A|sq ks Ee]; [by rewrite Ee..| |by rewrite Ee|done|done].
  by eapply rs_pres.
Qed.

Lemma cstep_conc_inv c c' : cstep_in_room c c' → conc_inv c → conc_inv c'.
Proof.
  intros [R S] [O T L Q B V]. split.
  - destruct S as [sh ths t id iso N|sh ths t th sh' th' Ht S]; [done|].
    eapply tstep_eng_ok; [exact S|by intros ?????; eapply (proj2 R)|by eapply T|done].
  - by eapply cstep_threads_inv.
  - by eapply cstep_lock_inv.
  - by eapply cstep_seq_inv.
  - by eapply cstep_obs_inv.
  - by eapply cstep_valid_inv.
Qed.

Lemma reachable_conc_inv e c : rs_ok e → rtc cstep_in_room (c_init e) c → conc_inv c.
Proof.
  intros O R. apply conc_inv_init in O. revert O.
  induction R as [c|c c1 c2 S _ IH]; intros I; [done|]. by eapply IH, cstep_conc_inv.
Qed.

(** ** Deadlock freedom *)

(** What it needs of the invariant holds whatever the counters do. *)
Record locked_inv (c : CState) : Prop := { li_threads : threads_inv c; li_locks : lock_inv c }.

Lemma reachable_locked_inv e c : rtc cstep (c_init e) c → locked_inv c.
Proof.
  assert (locked_inv (c_init e)) as I.
  { split; [done|]. intros s t. simpl. rewrite lookup_empty. split; [done|]. by intros (? & ? & _). }
  revert I. generalize (c_init e). induction 2 as [c0|c0 c1 c2 S _ IH]; [done|]. apply IH. destruct I.
  split; [by eapply cstep_threads_inv|by eapply cstep_lock_inv].
Qed.

Definition in_commit (th : Thread) : bool :=
  match th_pc th with PLock _ _ | PValid _ | PApply _ _ _ _ | PRelease _ => true | _ => false end.

(** The thread is waiting for stripe [s]. *)
Definition waits_for (th : Thread) (s : nat) : Prop :=
  ∃ todo held, th_pc th = PLock (s :: todo) held.

(** Some step of the thread is enabled. *)
Definition can_move (t : nat) (sh : Shared) (th : Thread) : Prop :=
  ∃ sh' th', tstep t sh th sh' th'.

Lemma not_waiting_moves t sh th :
  in_commit th = true → (∀ s, waits_for th s → c_locks sh !! s = None) → can_move t sh th.
Proof.
  destruct sh as [e seq vers locks torn], th as [tx obs p]. intros C W. simpl in *.
  destruct p as [| | |[|s todo] held|held|held sq [|w todo] dn|[|s held]]; try done.
  - destruct (validate vers tx) as [er|] eqn:V; do 2 eexists.
    + by eapply t_validate_conflict.
    + by eapply t_validate_ok.
  - do 2 eexists. apply t_lock. apply W. by exists todo, held.
  - do 2 eexists. apply t_claim.
  - do 2 eexists. apply t_stamp.
  - destruct (rs_apply e w) as [[k|er] e'] eqn:A; do 2 eexists; [by eapply t_apply|by eapply t_apply_err].
  - do 2 eexists. apply t_done.
  - do 2 eexists. apply t_unlock.
Qed.

(** The stripes above [s] that are locked. *)
Definition locked_above (locks : gmap nat nat) (s : nat) : gset nat :=
  filter (λ x, (s < x)%nat) (dom locks).

Lemma waits_dec c th :
  (∀ s, waits_for th s → c_locks (c_sh c) !! s = None) ∨
  ∃ s u, waits_for th s ∧ c_locks (c_sh c) !! s = Some u.
Proof.
  destruct (th_pc th) as [| | |[|s todo] held|held|held sq td dn|held] eqn:Ep;
    try (left; intros s' (td' & h' & Hp); congruence).
  destruct (c_locks (c_sh c) !! s) as [u|] eqn:Lk.
  - right. exists s, u. split; [by exists todo, held|done].
  - left. intros s' (td' & h' & Hp). rewrite Hp in Ep. by simplify_eq.
Qed.

Lemma locked_above_lt locks s s' :
  (s < s')%nat → is_Some (locks !! s') →
  (size (locked_above locks s') < size (locked_above locks s))%nat.
Proof.
  intros Hlt Hs. apply subset_size. unfold locked_above. split.
  - intros y. rewrite !elem_of_filter. intuition lia.
  - intros Hsub. specialize (Hsub s'). rewrite !elem_of_filter, elem_of_dom in Hsub.
    destruct Hsub as [? _]; [done|lia].
Qed.

(** Following the owner of the awaited stripe climbs the stripe order, so it
    ends at a thread that moves. *)
Lemma no_deadlock_from c n : ∀ t th,
  locked_inv c → c_threads c !! t = Some th → in_commit th = true →
  (∀ s, waits_for th s → is_Some (c_locks (c_sh c) !! s) →
     (size (locked_above (c_locks (c_sh c)) s) < n)%nat) →
  ∃ u thu, c_threads c !! u = Some thu ∧ in_commit thu = true ∧ can_move u (c_sh c) thu.
Proof.
  induction n as [|n IH]; intros t th I Ht C Hn;
    (destruct (waits_dec c th) as [W|(s & u & Hs & Lk)];
     [exists t, th; split_and!; [done..|by apply not_waiting_moves]|]);
    pose proof (Hn s Hs ltac:(by eexists)) as Hsz; [lia|].
  apply (li_locks _ I) in Lk as Hu. destruct Hu as (thu & Hu & Hin).
  apply (IH u thu); try done.
  - unfold in_commit. destruct (th_pc thu); simpl in *; try done; by apply elem_of_nil in Hin.
  - intros s' (td & h & Hp) Lk'.
    assert (s < s')%nat as Hlt.
    { pose proof (ti_pc _ (li_threads _ I _ _ Hu)) as P. rewrite Hp in *.
      destruct P as (_ & P & _). apply P; [done|set_solver]. }
    pose proof (locked_above_lt _ _ _ Hlt Lk'). lia.
Qed.

Lemma no_deadlock c t th :
  locked_inv c → c_threads c !! t = Some th → in_commit th = true →
  ∃ u thu, c_threads c !! u = Some thu ∧ in_commit thu = true ∧ can_move u (c_sh c) thu.
Proof.
  intros. apply (no_deadlock_from c (S (size (dom (c_locks (c_sh c))))) t th); try done.
  intros s _ _. apply Nat.lt_succ_r, subseteq_size. unfold locked_above. set_solver.
Qed.
End conc.

(** ** Properties, for the table engine *)

Lemma engine_ok_init (s : TableSchema) : engine_ok (create_put ∅ s).
Proof.
  intros n t. unfold create_put. rewrite lookup_insert_Some, lookup_empty.
  intros [[_ <-]|[_ ?]]; [|done]. split; [unfold u64_max; simpl; lia|].
  intros id r. simpl. by rewrite lookup_empty.
Qed.

(** C3: isolation of transactions under interleaving. In any run of [begin], [get], the
    buffering of writes and [commit], interleaved at every atomic step and with commits
    that fail half-way among them, as long as no 64-bit counter wraps: when a
    repeatable-read or serializable commit has passed validation, every row it has read
    from the engine is still exactly the row it saw, from then until the commit itself
    writes that row - except the rows that a commit which failed half-way had updated or
    deleted, whose versions the code does not stamp. *)
Theorem reads_hold_until_commit (stripe : key → nat) (e0 : Engine) (c : CState (E := Engine))
    (t : nat) (th : Thread) (k : key) (v : Z) (row : Row) :
  engine_ok e0 → rtc (cstep_in_room stripe) (c_init e0) c → c_threads c !! t = Some th →
  validated th = true → checks_reads (isolation (th_tx th)) = true →
  (k, v, Some row) ∈ th_obs th → ¬ dirt th k → k ∉ c_torn (c_sh c) →
  row_at (c_eng (c_sh c)) k = Some row.
Proof.
  intros O R Ht V C Hin D N. apply (reachable_conc_inv stripe) in R as I; [|exact O].
  by destruct (co_valid stripe _ I _ _ _ _ _ Ht V C Hin) as [[?|?]|?].
Qed.

(** Two commits that both update or delete a row, or one that writes it and one
    that has read it at a read-checking level, are never both past validation:
    validation, application and stamping of a row happen under its stripe. *)
Theorem commits_on_a_row_exclude (stripe : key → nat) (e0 : Engine) (c : CState (E := Engine))
    (t u : nat) (tht thu : Thread) (k : key) (w : WriteOp) :
  rtc (cstep stripe) (c_init e0) c →
  c_threads c !! t = Some tht → c_threads c !! u = Some thu →
  validated tht = true → validated thu = true →
  w ∈ writes (th_tx tht) → write_key w = Some k →
  (∃ w', w' ∈ writes (th_tx thu) ∧ write_key w' = Some k) ∨
  (checks_reads (isolation (th_tx thu)) = true ∧ ∃ v, (k, v) ∈ read_set (th_tx thu)) →
  t = u.
Proof.
  intros R Ht Hu Vt Vu Hw Kw Hk. apply (reachable_locked_inv stripe) in R as [T L].
  eapply (held_exclusive c t u tht thu (stripe k) L Ht Hu).
  - apply (validated_holds stripe); [by eapply T|done|]. by eapply write_in_stripes.
  - apply (validated_holds stripe); [by eapply T|done|].
    destruct Hk as [(w' & Hw' & Kw')|(C & v & Hv)]; [by eapply write_in_stripes|].
    by eapply read_in_stripes.
Qed.

(** C22: commits never deadlock. In every reachable state - after any interleaving, with
    conflicts, failed writes and counters that wrap - if some thread is inside [commit],
    then some thread inside [commit] has an enabled step: stripes are acquired in
    increasing order, and a commit that ends, even in an error, gives all of them back. *)
Theorem commits_never_deadlock (stripe : key → nat) (e0 : Engine) (c : CState (E := Engine))
    (t : nat) (th : Thread) :
  rtc (cstep stripe) (c_init e0) c → c_threads c !! t = Some th →
  (in_commit th = true →
   ∃ u thu, c_threads c !! u = Some thu ∧ in_commit thu = true ∧ can_move stripe u (c_sh c) thu) ∧
  (in_commit th = false → ∀ s, c_locks (c_sh c) !! s ≠ Some t).
Proof.
  intros R Ht. apply (reachable_locked_inv stripe) in R as I. split; [intros C; by eapply no_deadlock|].
  intros C s Lk. apply (li_locks _ _ I) in Lk as (th' & Ht' & Hs). simplify_eq.
  unfold in_commit in C. destruct (th_pc th); simpl in *; try done; by apply elem_of_nil in Hs.
Qed.

(** *** A concrete run *)

(** A state in which nothing is being applied has room. *)
Lemma room_of_quiet (c : CState (E := Engine)) : c_seq (c_sh c) < u64_max →
  map_Forall (λ _ th, ∀ held sq todo dn, th_pc th ≠ PApply held sq todo dn) (c_threads c) → has_room c.
Proof. intros B Q. split; [exact B|]. intros t th held sq w todo dn Ht Hp. by destruct (Q t th Ht held sq (w :: todo) dn). Qed.

Ltac quiet_room :=
  apply room_of_quiet; [vm_compute; reflexivity|];
  repeat (apply map_Forall_insert_2; [intros ? ? ? ?; discriminate|]); apply map_Forall_empty.
Ltac run_in_room t rule :=
  eapply rtc_l; [split; [quiet_room|eapply (c_step _ _ _ t); [reflexivity|rule]]|]; simpl.
Ltac run_thread t rule := eapply rtc_l; [eapply (c_step _ _ _ t); [reflexivity|rule]|]; simpl.

Lemma demo_engine_ok : engine_ok demo_engine.
Proof.
  apply (@rs_pres Engine engine_store _ (create_put ∅ demo_schema) (WInsert "users" (demo_row 7 "a@x"))
           ("users"%string, 1) demo_engine).
  - apply engine_ok_init.
  - intros t. unfold create_put. simpl. rewrite lookup_insert_Some, lookup_empty.
    intros [[_ <-]|[_ ?]]; [|done]. vm_compute. reflexivity.
  - vm_compute. reflexivity.
Qed.

Definition demo_stripe (k : key) : nat := 5.
Definition demo_key : key := ("users"%string, 1).
Definition demo_seen : Row := MkRow 1 (row_values (demo_row 7 "a@x")).

(** Thread 0 begins, reads row 1, buffers an update of it and validates. *)
Lemma demo_run :
  ∃ c th, rtc (cstep_in_room demo_stripe) (c_init demo_engine) c ∧ c_threads c !! 0%nat = Some th ∧
    validated th = true ∧ checks_reads (isolation (th_tx th)) = true ∧
    (demo_key, 0, Some demo_seen) ∈ th_obs th ∧ ¬ dirt th demo_key ∧
    writes (th_tx th) = [demo_update "b@x"] ∧ in_commit th = true ∧ c_torn (c_sh c) = [].
Proof.
  eexists _, _. split.
  - eapply rtc_l; [split; [quiet_room|apply (c_start _ _ _ 0 1 Serializable); reflexivity]|].
    run_in_room 0%nat ltac:(apply t_begin_seq).
    run_in_room 0%nat ltac:(apply (t_get_version _ _ _ _ _ demo_key); reflexivity).
    run_in_room 0%nat ltac:(apply t_get_row).
    run_in_room 0%nat ltac:(apply (t_buffer _ _ _ _ _ (demo_update "b@x"))).
    run_in_room 0%nat ltac:(apply t_commit_start; [reflexivity|discriminate]).
    run_in_room 0%nat ltac:(apply t_lock; reflexivity).
    run_in_room 0%nat ltac:(apply t_validate_ok; vm_compute; reflexivity).
    apply rtc_refl.
  - split; [reflexivity|]. split; [reflexivity|]. split; [reflexivity|].
    split; [apply list_elem_of_here|].
    split; [intros (? & ? & ? & ? & ? & Hp & _); discriminate|].
    split_and!; reflexivity.
Qed.

Lemma run_anyhow (c c' : CState (E := Engine)) : rtc (cstep_in_room demo_stripe) c c' → rtc (cstep demo_stripe) c c'.
Proof. apply rtc_subrel. by intros ?? [_ ?]. Qed.

Lemma reads_hold_until_commit_witness :
  ∃ c, rtc (cstep_in_room demo_stripe) (c_init demo_engine) c ∧
    row_at (c_eng (c_sh c)) demo_key = Some demo_seen.
Proof.
  destruct demo_run as (c & th & R & Ht & V & C & Hin & D & _ & _ & N). exists c. split; [exact R|].
  refine (reads_hold_until_commit demo_stripe demo_engine c 0 th demo_key 0 demo_seen
           demo_engine_ok R Ht V C Hin D _).
  rewrite N. apply not_elem_of_nil.
Defined.

Lemma commits_on_a_row_exclude_witness :
  ∃ c th, rtc (cstep demo_stripe) (c_init demo_engine) c ∧ c_threads c !! 0%nat = Some th ∧
    validated th = true ∧ ∀ u thu, c_threads c !! u = Some thu → validated thu = true →
    demo_update "b@x" ∈ writes (th_tx thu) → 0%nat = u.
Proof.
  destruct demo_run as (c & th & R%run_anyhow & Ht & V & _ & _ & _ & W & _). exists c, th.
  split; [exact R|]. split; [exact Ht|]. split; [exact V|]. intros u thu Hu Vu Hw.
  apply (commits_on_a_row_exclude demo_stripe demo_engine c 0 u th thu demo_key (demo_update "b@x")
           R Ht Hu V Vu).
  - rewrite W. apply list_elem_of_here.
  - reflexivity.
  - left. exists (demo_update "b@x"). split; [exact Hw|reflexivity].
Defined.

Lemma commits_never_deadlock_witness :
  ∃ c, rtc (cstep demo_stripe) (c_init demo_engine) c ∧
    ∃ u thu, c_threads c !! u = Some thu ∧ in_commit thu = true ∧
      can_move demo_stripe u (c_sh c) thu.
Proof.
  destruct demo_run as (c & th & R%run_anyhow & Ht & _ & _ & _ & _ & _ & C & _). exists c. split; [exact R|].
  exact (proj1 (commits_never_deadlock demo_stripe demo_engine c 0 th R Ht) C).
Defined.

(** ** What the model shows the code gets wrong *)

(** The interleaving, for any store in which thread 1's write [w] of row [k]
    succeeds. *)
Lemma in_flight_run {E} `{RowStoreLaws E} (e e' : E) (k : key) (vs1 vs0 : values) :
  let w vs := WUpdate k.1 k.2 vs in
  rs_apply e (w vs1) = (Ok k, e') →
  ∃ c th, rtc (cstep demo_stripe) (c_init e) c ∧ c_threads c !! 0%nat = Some th ∧
    validated th = true ∧ isolation (th_tx th) = ReadCommitted ∧
    writes (th_tx th) = [w vs0] ∧ (k, 0, rs_row e k) ∈ th_obs th ∧
    start_seq (th_tx th) = 1 ∧ version_of (c_vers (c_sh c)) k = 1 ∧ c_eng (c_sh c) = e'.
Proof.
  intros w A. destruct k as [n id]. eexists _, _. split.
  - eapply rtc_l; [apply (c_start _ _ _ 1 1 ReadCommitted); reflexivity|].
    run_thread 1%nat ltac:(apply t_begin_seq).
    run_thread 1%nat ltac:(apply (t_buffer _ _ _ _ _ (w vs1))).
    run_thread 1%nat ltac:(apply t_commit_start; [reflexivity|discriminate]).
    run_thread 1%nat ltac:(apply t_lock; reflexivity).
    run_thread 1%nat ltac:(apply t_validate_ok; reflexivity).
    run_thread 1%nat ltac:(apply t_claim).
    eapply rtc_l; [apply (c_start _ _ _ 0 2 ReadCommitted); reflexivity|].
    run_thread 0%nat ltac:(apply t_begin_seq).
    run_thread 0%nat ltac:(apply (t_get_version _ _ _ _ _ (n, id)); reflexivity).
    run_thread 0%nat ltac:(apply t_get_row).
    run_thread 0%nat ltac:(apply (t_buffer _ _ _ _ _ (w vs0))).
    run_thread 1%nat ltac:(eapply t_apply; exact A).
    run_thread 1%nat ltac:(apply t_stamp).
    run_thread 1%nat ltac:(apply t_unlock).
    run_thread 0%nat ltac:(apply t_commit_start; [reflexivity|discriminate]).
    run_thread 0%nat ltac:(apply t_lock; reflexivity).
    run_thread 0%nat ltac:(apply t_validate_ok; simpl;
      unfold validate; simpl; unfold write_conflict; simpl; by rewrite lookup_insert_eq).
    apply rtc_refl.
  - split; [reflexivity|]. split; [reflexivity|]. split; [reflexivity|].
    split; [reflexivity|]. split; [apply list_elem_of_here|]. split; [reflexivity|].
    split; [|reflexivity]. simpl. unfold version_of. by rewrite lookup_insert_eq.
Qed.

(** A transaction that begins while another commit has claimed its sequence
    number but not yet applied starts with that number as its snapshot, reads the
    old row, and still passes the write-write check ([>] against its snapshot)
    after the other commit has replaced the row: below repeatable read, the other
    commit's update is lost. *)
Example in_flight_commit_missed :
  ∃ c th, rtc (cstep demo_stripe) (c_init demo_engine) c ∧ c_threads c !! 0%nat = Some th ∧
    validated th = true ∧ isolation (th_tx th) = ReadCommitted ∧
    writes (th_tx th) = [demo_update "b@x"] ∧ (demo_key, 0, Some demo_seen) ∈ th_obs th ∧
    row_at (c_eng (c_sh c)) demo_key ≠ Some demo_seen.
Proof.
  set (e' := (apply_write demo_engine (demo_update "z@x")).2).
  destruct (in_flight_run demo_engine e' demo_key {["email"%string := VString "z@x"]}
              {["email"%string := VString "b@x"]}) as (c & th & R & Ht & V & Iso & W & Hin & _ & _ & Ee).
  - vm_compute. reflexivity.
  - exists c, th. rewrite Ee. split; [exact R|]. split; [exact Ht|]. split; [exact V|].
    split; [exact Iso|]. split; [exact W|]. split; [exact Hin|]. vm_compute. discriminate.
Qed.
