(* ===== verification/Codec.v ===== *)
(** [blitz-protocol]: the wire messages ([message.rs]) and the binary codec
    ([codec.rs]): value encoding, frames, and the incremental decoder. *)
From S2P Require Import Prelude Float Value Schema.

Local Open Scope Z_scope.

(** ** Messages *)

Inductive Op : Type :=
| Ping | OInsert | OGet | OUpdate | ODelete | OScan | OSubscribe | OFind | OSearch | OCall
| OJobSubmit | OJobPoll | OProcDeploy | OProcList | OProcDrop | OVersion | OTableCreate.

#[export] Instance Op_eq_dec : EqDecision Op.
Proof. solve_decision. Defined.

Definition op_tag (o : Op) : Z :=
  match o with
  | Ping => 0 | OInsert => 1 | OGet => 2 | OUpdate => 3 | ODelete => 4 | OScan => 5
  | OSubscribe => 6 | OFind => 7 | OSearch => 8 | OCall => 9 | OJobSubmit => 10
  | OJobPoll => 11 | OProcDeploy => 12 | OProcList => 13 | OProcDrop => 14 | OVersion => 15
  | OTableCreate => 16
  end.

Definition op_from_tag (t : Z) : option Op :=
  match t with
  | 0 => Some Ping | 1 => Some OInsert | 2 => Some OGet | 3 => Some OUpdate
  | 4 => Some ODelete | 5 => Some OScan | 6 => Some OSubscribe | 7 => Some OFind
  | 8 => Some OSearch | 9 => Some OCall | 10 => Some OJobSubmit | 11 => Some OJobPoll
  | 12 => Some OProcDeploy | 13 => Some OProcList | 14 => Some OProcDrop
  | 15 => Some OVersion | 16 => Some OTableCreate
  | _ => None
  end.

Record Request : Type := MkRequest {
  req_id : Z;
  req_op : Op;
  req_table : string;
  req_row_id : option Z;
  req_values : option values
}.

Record RowView : Type := MkRowView { rv_id : Z; rv_values : values }.

Record Response : Type := MkResponse {
  resp_id : Z;
  resp_ok : bool;
  resp_rows : list RowView;
  resp_error : option string
}.

Record BatchRequest : Type := MkBatchRequest { breq_id : Z; breq_ops : list Request }.
Record BatchResponse : Type := MkBatchResponse { bresp_id : Z; bresp_results : list Response }.

Definition Request_ping (id : Z) : Request := MkRequest id Ping "" None None.
Definition Response_ok (id : Z) (rows : list RowView) : Response := MkResponse id true rows None.
Definition Response_err (id : Z) (msg : string) : Response := MkResponse id false [] (Some msg).

(** [Incoming] *)
Inductive Incoming : Type :=
| ISingle (r : Request)
| IBatch (b : BatchRequest)
| IAtomicBatch (b : BatchRequest).

(** ** Errors; [OutOfFuel] is the model's own, shown unreachable below *)

Inductive decode_error : Type :=
| Truncated (n pos : nat)
| InvalidUtf8
| BadTimestamp (micros : Z)
| BadDate
| ArrayTooLarge (n : Z)
| JsonObjectTooLarge (n : Z)
| JsonArrayTooLarge (n : Z)
| MapTooLarge (n : Z)
| RowCountTooLarge (n : Z)
| BatchTooLarge (n : Z)
| BatchResponseTooLarge (n : Z)
| UnknownValueTag (tag : Z)
| BadJsonTag (tag : Z)
| UnknownOpTag
| BadOptionTag (tag : Z)
| WrongKind (got want : Z)
| UnknownIncomingKind (kind : Z)
| TrailingBytes (n : nat)
| DecodeFrameTooLarge (n max : Z).

Inductive protocol_error : Type :=
| DecodeError (e : decode_error)
| EncodeFrameTooLarge (n max : Z)
| UnsupportedVersion (v : Z)
| OutOfFuel.

#[export] Instance decode_error_eq_dec : EqDecision decode_error.
Proof. solve_decision. Defined.
#[export] Instance protocol_error_eq_dec : EqDecision protocol_error.
Proof. solve_decision. Defined.

(** ** Third-party code: [chrono] *)

(** A timestamp is its nanoseconds since the epoch, a date its day number, as
    in [Value]. *)
Class Chrono : Type := {
  timestamp_micros : Z → Z;
  from_timestamp_micros : Z → option Z;
  date_month : Z → Z;
  date_day : Z → Z;
  from_num_days_from_ce_opt : Z → option Z
}.

(** The order in which a [HashMap<String, Value>] is iterated: any. *)
Class MapOrder : Type := map_enum : values → list (string * value).
Class MapOrderLaws `{MapOrder} : Prop := map_enum_perm m : map_enum m ≡ₚ map_to_list m.

(** ** UTF-8, as [std::str::from_utf8] accepts it *)

Definition utf8_cont (b : Z) : bool := (0x80 <=? b) && (b <=? 0xBF).

(** One character starts with [b]: how many bytes follow, and the range of the
    first of them. *)
Definition utf8_lead (b : Z) : option (nat * Z * Z) :=
  if b <=? 0x7F then Some (0%nat, 0, 0)
  else if (0xC2 <=? b) && (b <=? 0xDF) then Some (1%nat, 0x80, 0xBF)
  else if b =? 0xE0 then Some (2%nat, 0xA0, 0xBF)
  else if (0xE1 <=? b) && (b <=? 0xEC) then Some (2%nat, 0x80, 0xBF)
  else if b =? 0xED then Some (2%nat, 0x80, 0x9F)
  else if (0xEE <=? b) && (b <=? 0xEF) then Some (2%nat, 0x80, 0xBF)
  else if b =? 0xF0 then Some (3%nat, 0x90, 0xBF)
  else if (0xF1 <=? b) && (b <=? 0xF3) then Some (3%nat, 0x80, 0xBF)
  else if b =? 0xF4 then Some (3%nat, 0x80, 0x8F)
  else None.

(** [expect]: continuation bytes still due, and the range of the next one. *)
Fixpoint utf8_from (expect : nat) (lo hi : Z) (l : list byte) : bool :=
  match l with
  | [] => Nat.eqb expect 0
  | b :: l =>
      match expect with
      | O => match utf8_lead (byte_Z b) with
             | Some (n, lo, hi) => utf8_from n lo hi l
             | None => false
             end
      | S n => (lo <=? byte_Z b) && (byte_Z b <=? hi) && utf8_from n 0x80 0xBF l
      end
  end.
Definition utf8_valid (l : list byte) : bool := utf8_from 0 0 0 l.

Definition bytes_str (l : list byte) : string := String.string_of_list_byte l.

(** ** [Writer]: every method appends, so each is the bytes it appends *)

Definition w_u8 (z : Z) : list byte := le_bytes 1 z.
Definition w_u16 (z : Z) : list byte := le_bytes 2 z.
Definition w_u32 (z : Z) : list byte := le_bytes 4 z.
Definition w_u64 (z : Z) : list byte := le_bytes 8 z.
Definition len_u32 (n : nat) : Z := wrap 32 (Z.of_nat n).
Definition w_str (s : string) : list byte := w_u32 (len_u32 (String.length s)) ++ str_bytes s.

Definition w_number (n : json_num) : list byte :=
  match num_as_i64 n with
  | Some i => w_u8 0x05 ++ w_u64 i
  | None =>
      match num_as_u64 n with
      | Some u => w_u8 0x09 ++ w_u64 u
      | None => match num_as_f64 n with Some f => w_u8 0x0B ++ w_u64 f | None => [] end
      end
  end.

Fixpoint w_json (j : json) : list byte :=
  match j with
  | JNull => w_u8 0x00
  | JBool b => w_u8 0x01 ++ w_u8 (Z.b2z b)
  | JNumber n => w_number n
  | JString s => w_u8 0x0D ++ w_str s
  | JArray l => w_u8 0x13 ++ w_u32 (len_u32 (length l)) ++ mjoin (w_json <$> l)
  | JObject m =>
      w_u8 0x12 ++ w_u32 (len_u32 (length m)) ++
      mjoin ((λ kv, w_str kv.1 ++ w_json kv.2) <$> m)
  end.

Section codec.
Context `{Chrono} `{MapOrder}.

Fixpoint w_value (v : value) : list byte :=
  match v with
  | VNull => w_u8 0x00
  | VBoolean b => w_u8 0x01 ++ w_u8 (Z.b2z b)
  | VInt8 n => w_u8 0x02 ++ w_u8 n
  | VInt16 n => w_u8 0x03 ++ w_u16 n
  | VInt32 n => w_u8 0x04 ++ w_u32 n
  | VInt64 n => w_u8 0x05 ++ w_u64 n
  | VUInt8 n => w_u8 0x06 ++ w_u8 n
  | VUInt16 n => w_u8 0x07 ++ w_u16 n
  | VUInt32 n => w_u8 0x08 ++ w_u32 n
  | VUInt64 n => w_u8 0x09 ++ w_u64 n
  | VFloat32 b => w_u8 0x0A ++ w_u32 b
  | VFloat64 b => w_u8 0x0B ++ w_u64 b
  | VDecimal s => w_u8 0x0C ++ w_str s
  | VString s => w_u8 0x0D ++ w_str s
  | VBytes b => w_u8 0x0E ++ w_u32 (len_u32 (length b)) ++ b
  | VUuid u => w_u8 0x0F ++ u
  | VTimestamp t => w_u8 0x10 ++ w_u64 (timestamp_micros t)
  | VDate d => w_u8 0x11 ++ w_u32 d ++ w_u32 (date_month d) ++ w_u32 (date_day d)
  | VJson j => w_u8 0x12 ++ w_json j
  | VArray l => w_u8 0x13 ++ w_u32 (len_u32 (length l)) ++ mjoin (w_value <$> l)
  end.

Definition w_entry (kv : string * value) : list byte := w_str kv.1 ++ w_value kv.2.
Definition w_map (m : values) : list byte :=
  w_u32 (len_u32 (size m)) ++ mjoin (w_entry <$> map_enum m).

Definition w_option {A} (f : A → list byte) (o : option A) : list byte :=
  match o with Some a => w_u8 1 ++ f a | None => w_u8 0 end.

Definition w_request_body (r : Request) : list byte :=
  w_u64 (req_id r) ++ w_u8 (op_tag (req_op r)) ++ w_str (req_table r) ++
  w_option w_u64 (req_row_id r) ++ w_option w_map (req_values r).

Definition w_row_view (r : RowView) : list byte := w_u64 (rv_id r) ++ w_map (rv_values r).

Definition w_response_body (r : Response) : list byte :=
  w_u64 (resp_id r) ++ w_u8 (Z.b2z (resp_ok r)) ++ w_u32 (len_u32 (length (resp_rows r))) ++
  mjoin (w_row_view <$> resp_rows r) ++ w_option w_str (resp_error r).

Definition w_response_body_borrowed (id : Z) (rows : list (Z * values)) (error : option string)
    : list byte :=
  w_u64 id ++ w_u8 (Z.b2z (bool_decide (error = None))) ++ w_u32 (len_u32 (length rows)) ++
  mjoin ((λ r, w_u64 r.1 ++ w_map r.2) <$> rows) ++ w_option w_str error.
End codec.

(** ** [Reader] *)

Record Reader : Type := MkReader { rbuf : list byte; rpos : nat }.

(** A reading method: it fails, or returns a value and moves the position. *)
Definition R (A : Type) : Type := Reader → result protocol_error (A * Reader).

#[export] Instance R_ret : MRet R := λ A a r, Ok (a, r).
#[export] Instance R_bind : MBind R := λ A B f m r,
  match m r with Ok (a, r) => f a r | Err e => Err e end.
Definition r_fail {A} (e : decode_error) : R A := λ _, Err (DecodeError e).
Definition r_ok_or {A} (o : option A) (e : decode_error) : R A :=
  match o with Some a => mret a | None => r_fail e end.

Definition r_take (n : nat) : R (list byte) := λ r,
  if (length (rbuf r) <? rpos r + n)%nat then Err (DecodeError (Truncated n (rpos r)))
  else Ok (take n (drop (rpos r) (rbuf r)), MkReader (rbuf r) (rpos r + n)).

Definition r_uint (n : nat) : R Z := b ← r_take n; mret (le_val b).
Definition r_sint (n : nat) : R Z := b ← r_take n; mret (sign (8 * Z.of_nat n) (le_val b)).
Definition r_u8 : R Z := r_uint 1.
Definition r_u16 : R Z := r_uint 2.
Definition r_u32 : R Z := r_uint 4.
Definition r_u64 : R Z := r_uint 8.
Definition r_i8 : R Z := r_sint 1.
Definition r_i16 : R Z := r_sint 2.
Definition r_i32 : R Z := r_sint 4.
Definition r_i64 : R Z := r_sint 8.

Definition r_str : R string :=
  len ← r_u32; b ← r_take (Z.to_nat len);
  if utf8_valid b then mret (bytes_str b) else r_fail InvalidUtf8.

(** [for _ in 0..n { out.push(f()?) }] *)
Fixpoint r_repeat {A} (n : nat) (f : R A) : R (list A) :=
  match n with
  | O => mret []
  | S n => a ← f; l ← r_repeat n f; mret (a :: l)
  end.

(** A count with its cap, then that many items. *)
Definition r_counted {A} (cap : Z) (err : Z → decode_error) (f : R A) : R (list A) :=
  count ← r_u32; if cap <? count then r_fail (err count) else r_repeat (Z.to_nat count) f.

(** [map.insert(key, value)] on [serde_json::Map], a [BTreeMap]. *)
Fixpoint obj_insert (k : string) (v : json) (m : list (string * json)) : list (string * json) :=
  match m with
  | [] => [(k, v)]
  | (k', v') :: m' =>
      match str_cmp k k' with
      | Lt => (k, v) :: m
      | Eq => (k, v) :: m'
      | Gt => (k', v') :: obj_insert k v m'
      end
  end.
Definition obj_of_list (l : list (string * json)) : list (string * json) :=
  foldl (λ m kv, obj_insert kv.1 kv.2 m) [] l.

Fixpoint r_json (fuel : nat) : R json :=
  match fuel with
  | O => λ _, Err OutOfFuel
  | S fuel =>
      tag ← r_u8;
      match tag with
      | 0x00 => mret JNull
      | 0x01 => b ← r_u8; mret (JBool (negb (b =? 0)))
      | 0x05 => n ← r_i64; mret (json_of_i64 n)
      | 0x09 => n ← r_u64; mret (json_of_u64 n)
      | 0x0B => b ← r_u64; mret (json_of_f64 b)
      | 0x0D => s ← r_str; mret (JString s)
      | 0x12 =>
          l ← r_counted 4096 JsonObjectTooLarge (k ← r_str; v ← r_json fuel; mret (k, v));
          mret (JObject (obj_of_list l))
      | 0x13 => l ← r_counted 65536 JsonArrayTooLarge (r_json fuel); mret (JArray l)
      | other => r_fail (BadJsonTag other)
      end
  end.

(** [out.insert(key, value)] in order: a later entry wins. *)
Definition map_of_list (l : list (string * value)) : values :=
  foldl (λ m kv, <[kv.1 := kv.2]> m) ∅ l.

Section reader.
Context `{Chrono}.

Fixpoint r_value (fuel : nat) : R value :=
  match fuel with
  | O => λ _, Err OutOfFuel
  | S fuel =>
      tag ← r_u8;
      match tag with
      | 0x00 => mret VNull
      | 0x01 => b ← r_u8; mret (VBoolean (negb (b =? 0)))
      | 0x02 => n ← r_i8; mret (VInt8 n)
      | 0x03 => n ← r_i16; mret (VInt16 n)
      | 0x04 => n ← r_i32; mret (VInt32 n)
      | 0x05 => n ← r_i64; mret (VInt64 n)
      | 0x06 => n ← r_u8; mret (VUInt8 n)
      | 0x07 => n ← r_u16; mret (VUInt16 n)
      | 0x08 => n ← r_u32; mret (VUInt32 n)
      | 0x09 => n ← r_u64; mret (VUInt64 n)
      | 0x0A => b ← r_u32; mret (VFloat32 b)
      | 0x0B => b ← r_u64; mret (VFloat64 b)
      | 0x0C => s ← r_str; mret (VDecimal s)
      | 0x0D => s ← r_str; mret (VString s)
      | 0x0E => len ← r_u32; b ← r_take (Z.to_nat len); mret (VBytes b)
      | 0x0F => b ← r_take 16; mret (VUuid b)
      | 0x10 => m ← r_i64; t ← r_ok_or (from_timestamp_micros m) (BadTimestamp m);
                mret (VTimestamp t)
      | 0x11 =>
          days ← r_i32; month ← r_u32; day ← r_u32;
          d ← r_ok_or (from_num_days_from_ce_opt days ≫= λ d,
                         if (date_month d =? month) && (date_day d =? day) then Some d else None)
                BadDate;
          mret (VDate d)
      | 0x12 => j ← r_json fuel; mret (VJson j)
      | 0x13 => l ← r_counted 65536 ArrayTooLarge (r_value fuel); mret (VArray l)
      | other => r_fail (UnknownValueTag other)
      end
  end.

(** Enough fuel for any value in the buffer (shown below). *)
Definition buf_fuel (r : Reader) : nat := S (length (rbuf r)).
Definition r_value_top : R value := λ r, r_value (buf_fuel r) r.

Definition r_map : R values :=
  l ← r_counted 4096 MapTooLarge (k ← r_str; v ← r_value_top; mret (k, v));
  mret (map_of_list l).

Definition r_option {A} (f : R A) : R (option A) :=
  tag ← r_u8;
  match tag with
  | 0 => mret None
  | 1 => a ← f; mret (Some a)
  | other => r_fail (BadOptionTag other)
  end.

Definition r_request_body : R Request :=
  id ← r_u64; tag ← r_u8; op ← r_ok_or (op_from_tag tag) UnknownOpTag;
  table ← r_str; row_id ← r_option r_u64; vs ← r_option r_map;
  mret (MkRequest id op table row_id vs).

Definition r_row_view : R RowView := id ← r_u64; vs ← r_map; mret (MkRowView id vs).

Definition r_response_body : R Response :=
  id ← r_u64; ok ← r_u8;
  rows ← r_counted 1000000 RowCountTooLarge r_row_view;
  error ← r_option r_str;
  mret (MkResponse id (negb (ok =? 0)) rows error).

Definition r_end : R () := λ r,
  if negb (Nat.eqb (rpos r) (length (rbuf r)))
  then Err (DecodeError (TrailingBytes (length (rbuf r) - rpos r))) else Ok ((), r).

Definition expect_kind (want : Z) : R () :=
  got ← r_u8; if negb (got =? want) then r_fail (WrongKind got want) else mret ().

(** A reading method run on a whole payload. *)
Definition run_reader {A} (f : R A) (payload : list byte) : result protocol_error A :=
  fst <$> f (MkReader payload 0).
End reader.

(** ** [FrameCodec] *)

Definition PROTOCOL_VERSION : Z := 2.
Definition KIND_REQUEST : Z := 0x01.
Definition KIND_BATCH_REQUEST : Z := 0x02.
Definition KIND_ATOMIC_BATCH_REQUEST : Z := 0x03.
Definition KIND_RESPONSE : Z := 0x11.
Definition KIND_BATCH_RESPONSE : Z := 0x12.
Definition HEADER_LEN : nat := 5.
Definition DEFAULT_MAX_FRAME : Z := 8 * 1024 * 1024.

(** [FrameCodec] is its [max_frame]. *)
Definition frame (max : Z) (payload : list byte) : result protocol_error (list byte) :=
  if max <? Z.of_nat (length payload)
  then Err (EncodeFrameTooLarge (Z.of_nat (length payload)) max)
  else Ok (w_u8 PROTOCOL_VERSION ++ w_u32 (len_u32 (length payload)) ++ payload).

(** [feed] consumes a frame from the buffer when one is complete. *)
Definition feed (max : Z) (buf : list byte)
    : result protocol_error (option (list byte)) * list byte :=
  match buf with
  | ver :: b1 :: b2 :: b3 :: b4 :: rest =>
      if negb (byte_Z ver =? PROTOCOL_VERSION) then (Err (UnsupportedVersion (byte_Z ver)), buf) else
      let len := le_val [b1; b2; b3; b4] in
      if max <? len then (Err (DecodeError (DecodeFrameTooLarge len max)), buf)
      else if Z.of_nat (length buf) <? Z.of_nat HEADER_LEN + len then (Ok None, buf)
      else (Ok (Some (take (Z.to_nat len) rest)), drop (Z.to_nat len) rest)
  | _ => (Ok None, buf)
  end.

Section frames.
Context `{Chrono} `{MapOrder}.

Definition encode_request (max : Z) (r : Request) : result protocol_error (list byte) :=
  frame max (w_u8 KIND_REQUEST ++ w_request_body r).
Definition w_batch (kind : Z) (b : BatchRequest) : list byte :=
  w_u8 kind ++ w_u64 (breq_id b) ++ w_u32 (len_u32 (length (breq_ops b))) ++
  mjoin (w_request_body <$> breq_ops b).
Definition encode_batch_request (max : Z) (b : BatchRequest) : result protocol_error (list byte) :=
  frame max (w_batch KIND_BATCH_REQUEST b).
Definition encode_atomic_batch_request (max : Z) (b : BatchRequest)
    : result protocol_error (list byte) := frame max (w_batch KIND_ATOMIC_BATCH_REQUEST b).
Definition encode_response (max : Z) (r : Response) : result protocol_error (list byte) :=
  frame max (w_u8 KIND_RESPONSE ++ w_response_body r).
Definition encode_ok_single (max : Z) (id row_id : Z) (vs : values)
    : result protocol_error (list byte) :=
  frame max (w_u8 KIND_RESPONSE ++ w_response_body_borrowed id [(row_id, vs)] None).
Definition encode_ok_borrowed (max : Z) (id : Z) (rows : list (Z * values))
    : result protocol_error (list byte) :=
  frame max (w_u8 KIND_RESPONSE ++ w_response_body_borrowed id rows None).
Definition encode_batch_response (max : Z) (b : BatchResponse) : result protocol_error (list byte) :=
  frame max (w_u8 KIND_BATCH_RESPONSE ++ w_u64 (bresp_id b) ++
             w_u32 (len_u32 (length (bresp_results b))) ++
             mjoin (w_response_body <$> bresp_results b)).

Definition decode_request (payload : list byte) : result protocol_error Request :=
  run_reader (expect_kind KIND_REQUEST ;; r ← r_request_body; r_end ;; mret r) payload.

Definition decode_incoming (payload : list byte) : result protocol_error Incoming :=
  run_reader (
    kind ← r_u8;
    out ← (if kind =? KIND_REQUEST then r ← r_request_body; mret (ISingle r)
           else if (kind =? KIND_BATCH_REQUEST) || (kind =? KIND_ATOMIC_BATCH_REQUEST) then
             id ← r_u64; ops ← r_counted 4096 BatchTooLarge r_request_body;
             let batch := MkBatchRequest id ops in
             mret (if kind =? KIND_ATOMIC_BATCH_REQUEST then IAtomicBatch batch else IBatch batch)
           else r_fail (UnknownIncomingKind kind));
    r_end ;; mret out) payload.

Definition decode_response (payload : list byte) : result protocol_error Response :=
  run_reader (expect_kind KIND_RESPONSE ;; r ← r_response_body; r_end ;; mret r) payload.

Definition decode_batch_response (payload : list byte) : result protocol_error BatchResponse :=
  run_reader (
    expect_kind KIND_BATCH_RESPONSE ;; id ← r_u64;
    results ← r_counted 4096 BatchResponseTooLarge r_response_body;
    r_end ;; mret (MkBatchResponse id results)) payload.
End frames.

(** ** Well-formed data: what Rust's types and the decoder's caps guarantee *)

Definition str_okb (s : string) : bool :=
  utf8_valid (str_bytes s) && (Z.of_nat (String.length s) <? 2 ^ 32).

(** The keys of a [BTreeMap], in increasing order. *)
Fixpoint keys_sortedb (m : list (string * json)) : bool :=
  match m with
  | [] => true
  | kv :: m =>
      forallb (λ kv', match str_cmp kv.1 kv'.1 with Lt => true | _ => false end) m &&
      keys_sortedb m
  end.

Definition num_okb (n : json_num) : bool :=
  match n with
  | PosInt n => is_uint 64 n
  | NegInt n => is_sint 64 n && (n <? 0)
  | JFloat b => is_uint 64 b && negb (f_exp F64 b =? 2 ^ ew F64 - 1)
  end.

Fixpoint json_okb (j : json) : bool :=
  match j with
  | JNull | JBool _ => true
  | JNumber n => num_okb n
  | JString s => str_okb s
  | JArray l => (Z.of_nat (length l) <=? 65536) && forallb json_okb l
  | JObject m =>
      (Z.of_nat (length m) <=? 4096) && keys_sortedb m &&
      forallb (λ kv, str_okb kv.1 && json_okb kv.2) m
  end.

Section wf.
Context `{Chrono}.

Fixpoint value_okb (v : value) : bool :=
  match v with
  | VNull | VBoolean _ => true
  | VInt8 n => is_sint 8 n
  | VInt16 n => is_sint 16 n
  | VInt32 n => is_sint 32 n
  | VInt64 n => is_sint 64 n
  | VUInt8 n => is_uint 8 n
  | VUInt16 n => is_uint 16 n
  | VUInt32 n | VFloat32 n => is_uint 32 n
  | VUInt64 n | VFloat64 n => is_uint 64 n
  | VDecimal s | VString s => str_okb s
  | VBytes b => Z.of_nat (length b) <? 2 ^ 32
  | VUuid u => Nat.eqb (length u) 16
  | VTimestamp t =>
      is_sint 64 (timestamp_micros t) &&
      bool_decide (from_timestamp_micros (timestamp_micros t) = Some t)
  | VDate d =>
      is_sint 32 d && is_uint 32 (date_month d) && is_uint 32 (date_day d) &&
      bool_decide (from_num_days_from_ce_opt d = Some d)
  | VJson j => json_okb j
  | VArray l => (Z.of_nat (length l) <=? 65536) && forallb value_okb l
  end.

Definition values_okb (m : values) : bool :=
  (Z.of_nat (size m) <=? 4096) &&
  forallb (λ kv, str_okb kv.1 && value_okb kv.2) (map_to_list m).

Definition option_okb {A} (f : A → bool) (o : option A) : bool :=
  match o with Some a => f a | None => true end.

Definition request_okb (r : Request) : bool :=
  is_uint 64 (req_id r) && str_okb (req_table r) && option_okb (is_uint 64) (req_row_id r) &&
  option_okb values_okb (req_values r).

Definition row_view_okb (r : RowView) : bool := is_uint 64 (rv_id r) && values_okb (rv_values r).

Definition response_okb (r : Response) : bool :=
  is_uint 64 (resp_id r) && (Z.of_nat (length (resp_rows r)) <=? 1000000) &&
  forallb row_view_okb (resp_rows r) && option_okb str_okb (resp_error r).

Definition batch_okb (b : BatchRequest) : bool :=
  is_uint 64 (breq_id b) && (Z.of_nat (length (breq_ops b)) <=? 4096) &&
  forallb request_okb (breq_ops b).

Definition batch_response_okb (b : BatchResponse) : bool :=
  is_uint 64 (bresp_id b) && (Z.of_nat (length (bresp_results b)) <=? 4096) &&
  forallb response_okb (bresp_results b).

Definition incoming_okb (i : Incoming) : bool :=
  match i with ISingle r => request_okb r | IBatch b | IAtomicBatch b => batch_okb b end.
End wf.

(** ** Reading back what was written *)

(** [f] reads exactly [bs], wherever it stands, and returns [a]. *)
Definition reads {A} (f : R A) (bs : list byte) (a : A) : Prop :=
  ∀ pre rest, f (MkReader (pre ++ bs ++ rest) (length pre)) =
    Ok (a, MkReader (pre ++ bs ++ rest) (length pre + length bs)).

Lemma reads_ret {A} (a : A) : reads (mret a) [] a.
Proof. intros pre rest. simpl. by rewrite Nat.add_0_r. Qed.

Lemma reads_bind {A B} (f : R A) (g : A → R B) b1 b2 a c :
  reads f b1 a → reads (g a) b2 c → reads (f ≫= g) (b1 ++ b2) c.
Proof.
  intros Hf Hg pre rest. unfold mbind, R_bind. rewrite <- app_assoc, Hf.
  specialize (Hg (pre ++ b1) rest). rewrite length_app, <- app_assoc in Hg. rewrite Hg.
  rewrite length_app. by rewrite Nat.add_assoc.
Qed.

Lemma reads_bind_ret {A B} (f : R A) (g : A → R B) bs a c :
  reads f bs a → reads (g a) [] c → reads (f ≫= g) bs c.
Proof. intros. rewrite <- (app_nil_r bs). by eapply reads_bind. Qed.

Lemma reads_fmap {A B} (f : R A) (h : A → B) bs a :
  reads f bs a → reads (x ← f; mret (h x)) bs (h a).
Proof. intros. eapply reads_bind_ret; [done|apply reads_ret]. Qed.

Lemma reads_take bs : reads (r_take (length bs)) bs bs.
Proof.
  intros pre rest. unfold r_take. simpl.
  rewrite (proj2 (Nat.ltb_ge _ _)) by (rewrite !length_app; lia).
  by rewrite drop_app_length, take_app_length.
Qed.

Lemma reads_take_n n bs : length bs = n → reads (r_take n) bs bs.
Proof. intros <-. apply reads_take. Qed.

Lemma reads_uint n z : 0 <= z < 256 ^ Z.of_nat n → reads (r_uint n) (le_bytes n z) z.
Proof.
  intros Hz. unfold r_uint. rewrite <- (Z.mod_small z (256 ^ Z.of_nat n)) at 2 by done.
  rewrite <- le_val_le_bytes. apply reads_fmap, reads_take_n, length_le_bytes.
Qed.

Lemma reads_sint n z :
  (0 < n)%nat → is_sint (8 * Z.of_nat n) z = true → reads (r_sint n) (le_bytes n z) z.
Proof.
  intros Hn Hz. unfold r_sint. rewrite <- (sign_mod (8 * Z.of_nat n) z) at 2 by (done || lia).
  rewrite (Z.pow_mul_r 2 8) by lia. change (2 ^ 8) with 256.
  rewrite <- le_val_le_bytes. apply (reads_fmap _ (λ b, sign _ (le_val b))), reads_take_n, length_le_bytes.
Qed.

Lemma reads_u8 z : is_uint 8 z = true → reads r_u8 (w_u8 z) z.
Proof. rewrite is_uint_spec. apply (reads_uint 1). Qed.
Lemma reads_u16 z : is_uint 16 z = true → reads r_u16 (w_u16 z) z.
Proof. rewrite is_uint_spec. apply (reads_uint 2). Qed.
Lemma reads_u32 z : is_uint 32 z = true → reads r_u32 (w_u32 z) z.
Proof. rewrite is_uint_spec. apply (reads_uint 4). Qed.
Lemma reads_u64 z : is_uint 64 z = true → reads r_u64 (w_u64 z) z.
Proof. rewrite is_uint_spec. apply (reads_uint 8). Qed.
Lemma reads_i8 z : is_sint 8 z = true → reads r_i8 (w_u8 z) z.
Proof. apply (reads_sint 1). lia. Qed.
Lemma reads_i16 z : is_sint 16 z = true → reads r_i16 (w_u16 z) z.
Proof. apply (reads_sint 2). lia. Qed.
Lemma reads_i32 z : is_sint 32 z = true → reads r_i32 (w_u32 z) z.
Proof. apply (reads_sint 4). lia. Qed.
Lemma reads_i64 z : is_sint 64 z = true → reads r_i64 (w_u64 z) z.
Proof. apply (reads_sint 8). lia. Qed.

Lemma len_u32_small n : Z.of_nat n < 2 ^ 32 → len_u32 n = Z.of_nat n ∧ is_uint 32 (len_u32 n) = true.
Proof. intros. unfold len_u32. rewrite wrap_small by lia. split; [done|]. apply is_uint_spec. lia. Qed.

Lemma length_str_bytes s : length (str_bytes s) = String.length s.
Proof. unfold str_bytes. induction s; simpl; auto. Qed.

Lemma bytes_str_bytes s : bytes_str (str_bytes s) = s.
Proof. apply String.string_of_list_byte_of_string. Qed.

Lemma reads_str s : str_okb s = true → reads r_str (w_str s) s.
Proof.
  unfold str_okb. rewrite andb_true_iff, Z.ltb_lt. intros [U L].
  destruct (len_u32_small _ L) as [E I]. unfold r_str, w_str.
  eapply reads_bind; [by apply reads_u32|]. rewrite E, Nat2Z.id, <- length_str_bytes.
  eapply reads_bind_ret; [apply reads_take|]. rewrite U, bytes_str_bytes. apply reads_ret.
Qed.

Lemma reads_repeat {A} (f : R A) (enc : A → list byte) l :
  Forall (λ x, reads f (enc x) x) l → reads (r_repeat (length l) f) (mjoin (enc <$> l)) l.
Proof.
  induction 1 as [|x l Hx _ IH]; [apply reads_ret|]. simpl.
  eapply reads_bind; [exact Hx|]. by apply reads_fmap.
Qed.

Lemma reads_counted {A} (f : R A) (enc : A → list byte) cap err l :
  Z.of_nat (length l) <= cap → cap < 2 ^ 32 → Forall (λ x, reads f (enc x) x) l →
  reads (r_counted cap err f) (w_u32 (len_u32 (length l)) ++ mjoin (enc <$> l)) l.
Proof.
  intros L C F. destruct (len_u32_small (length l)) as [E I]; [lia|].
  unfold r_counted. eapply reads_bind; [by apply reads_u32|]. rewrite E.
  rewrite (proj2 (Z.ltb_ge _ _)) by lia. rewrite Nat2Z.id. by apply reads_repeat.
Qed.

(** *** Maps and objects *)

Lemma obj_insert_last k v m :
  Forall (λ kv, str_cmp kv.1 k = Lt) m → obj_insert k v m = m ++ [(k, v)].
Proof.
  induction 1 as [|[k' v'] m Hk _ IH]; simpl; [done|]. simpl in Hk.
  rewrite (cmp_at_anti _ _ (total_cmp_str k')), Hk. simpl. by rewrite IH.
Qed.

Lemma keys_sortedb_cons kv m :
  keys_sortedb (kv :: m) = true ↔
  Forall (λ kv', str_cmp kv.1 kv'.1 = Lt) m ∧ keys_sortedb m = true.
Proof.
  simpl. rewrite andb_true_iff, forallb_forall, Forall_forall.
  setoid_rewrite <- list_elem_of_In. split; intros [F ?]; (split; [|done]); intros x Hx;
    specialize (F x Hx); by destruct (str_cmp _ _).
Qed.

Lemma obj_of_sorted_from m : ∀ acc,
  Forall (λ kv, Forall (λ kv', str_cmp kv'.1 kv.1 = Lt) acc) m → keys_sortedb m = true →
  foldl (λ m kv, obj_insert kv.1 kv.2 m) acc m = acc ++ m.
Proof.
  induction m as [|[k v] m IH]; intros acc F S; simpl; [by rewrite app_nil_r|].
  apply Forall_cons in F as [F1 F2]. apply keys_sortedb_cons in S as [S1 S2].
  rewrite obj_insert_last by done. rewrite IH; [by rewrite <- app_assoc| |done].
  rewrite Forall_forall in *. intros x Hx. apply Forall_app. split; [by apply F2|].
  repeat constructor. by apply S1.
Qed.

Lemma obj_of_sorted m : keys_sortedb m = true → obj_of_list m = m.
Proof. intros. unfold obj_of_list. rewrite obj_of_sorted_from; [done| |done]. by apply Forall_forall. Qed.

Lemma map_of_list_spec l : map_of_list l = list_to_map (rev l).
Proof.
  unfold map_of_list. rewrite <- (rev_involutive l) at 1. generalize (rev l). clear l.
  induction l as [|[k v] l IH]; simpl; [done|]. rewrite foldl_app. simpl. by rewrite IH.
Qed.

Lemma map_of_list_enum `{MapOrderLaws} m : map_of_list (map_enum m) = m.
Proof.
  rewrite map_of_list_spec. rewrite <- (list_to_map_to_list m) at 2.
  assert (rev (map_enum m) ≡ₚ map_to_list m) as P.
  { rewrite <- (map_enum_perm m). symmetry. apply Permutation_rev. }
  apply list_to_map_proper; [|done]. rewrite P. apply NoDup_fst_map_to_list.
Qed.

(** *** JSON *)

Lemma mjoin_fmap_cons {A} (enc : A → list byte) x l :
  mjoin (enc <$> x :: l) = enc x ++ mjoin (enc <$> l).
Proof. done. Qed.

(** An item of a sequence is shorter than the sequence. *)
Lemma mjoin_item_length {A} (enc : A → list byte) l x :
  x ∈ l → (length (enc x) <= length (mjoin (enc <$> l)))%nat.
Proof.
  induction 1 as [x l|x y l _ IH]; rewrite mjoin_fmap_cons, length_app; lia.
Qed.

Lemma mjoin_fst_length {A} (f g : A → list byte) l x :
  x ∈ l → (length (g x) <= length (mjoin ((λ a, f a ++ g a) <$> l)))%nat.
Proof. intros H%(mjoin_item_length (λ a, f a ++ g a)). rewrite length_app in H. lia. Qed.

Lemma reads_number n fuel : num_okb n = true → reads (r_json (S fuel)) (w_number n) (JNumber n).
Proof.
  unfold w_number. destruct n as [n|n|b]; cbn [num_as_i64 num_as_u64 num_as_f64 num_okb]; intros Hn.
  - destruct (Z.ltb_spec n (2 ^ 63)).
    + eapply reads_bind; [by apply reads_u8|]. simpl.
      apply is_uint_spec in Hn. replace (JNumber (PosInt n)) with (json_of_i64 n)
        by (unfold json_of_i64; case_match; [done|lia]).
      apply reads_fmap, reads_i64. apply is_sint_spec. lia.
    + eapply reads_bind; [by apply reads_u8|]. simpl.
      apply (reads_fmap _ json_of_u64). by apply reads_u64.
  - apply andb_true_iff in Hn as [Hn Hneg%Z.ltb_lt].
    eapply reads_bind; [by apply reads_u8|]. simpl.
    replace (JNumber (NegInt n)) with (json_of_i64 n)
      by (unfold json_of_i64; case_match; [lia|done]).
    apply reads_fmap. by apply reads_i64.
  - apply andb_true_iff in Hn as [Hn Hf%negb_true_iff].
    eapply reads_bind; [by apply reads_u8|]. simpl.
    replace (JNumber (JFloat b)) with (json_of_f64 b)
      by (unfold json_of_f64; simpl in *; by rewrite Hf).
    apply reads_fmap. by apply reads_u64.
Qed.

Lemma reads_json j : json_okb j = true →
  ∀ n, (length (w_json j) < n)%nat → reads (r_json n) (w_json j) j.
Proof.
  induction j as [|b|x|s|l IH|m IH] using json_nested_ind; intros O [|n] L; try lia.
  - eapply reads_bind_ret; [by apply reads_u8|]. apply reads_ret.
  - eapply reads_bind; [by apply reads_u8|]. simpl.
    replace (JBool b) with (JBool (negb (Z.b2z b =? 0))) by by destruct b.
    apply (reads_fmap _ (λ z, JBool (negb (z =? 0)))). apply reads_u8. by destruct b.
  - by apply reads_number.
  - eapply reads_bind; [by apply reads_u8|]. simpl. apply reads_fmap. by apply reads_str.
  - simpl in O. apply andb_true_iff in O as [Ol%Z.leb_le O]. cbn [w_json] in L |- *.
    rewrite !length_app in L. change (length (w_u8 19)) with 1%nat in L.
    eapply reads_bind; [by apply reads_u8|]. cbv beta iota.
    apply reads_fmap, reads_counted; [done|done|].
    rewrite forallb_forall in O. rewrite Forall_forall in *. intros x Hx.
    apply IH; [done|apply O; by apply list_elem_of_In|].
    pose proof (mjoin_item_length w_json l x Hx). lia.
  - simpl in O. rewrite !andb_true_iff, Z.leb_le in O. destruct O as [[Ol Os] O].
    cbn [w_json] in L |- *. rewrite !length_app in L. change (length (w_u8 18)) with 1%nat in L.
    eapply reads_bind; [by apply reads_u8|]. cbv beta iota.
    replace (JObject m) with (JObject (obj_of_list m)) by (by rewrite obj_of_sorted).
    apply (reads_fmap _ (λ l, JObject (obj_of_list l))),
      (reads_counted _ (λ kv, w_str kv.1 ++ w_json kv.2)); [done|done|].
    rewrite forallb_forall in O. rewrite Forall_forall in *. intros [k v] Hx.
    pose proof (O (k, v) ltac:(by apply list_elem_of_In)) as [Ok Ov]%andb_true_iff.
    cbn [fst snd]. eapply reads_bind; [by apply reads_str|]. apply (reads_fmap _ (pair k)).
    apply (IH (k, v)); [done..|]. cbn [fst snd].
    pose proof (mjoin_fst_length (λ kv, w_str kv.1) (λ kv, w_json kv.2) m (k, v) Hx).
    simpl in *. lia.
Qed.

(** *** Values, rows and messages *)

Section roundtrip.
Context `{Chrono} `{MapOrderLaws}.

Lemma reads_value v : value_okb v = true →
  ∀ n, (length (w_value v) < n)%nat → reads (r_value n) (w_value v) v.
Proof.
  induction v as [l IH|v Hv] using value_nested_ind; intros O [|n] L; try lia.
  - simpl in O. apply andb_true_iff in O as [Ol%Z.leb_le O]. cbn [w_value] in L |- *.
    rewrite !length_app in L. change (length (w_u8 19)) with 1%nat in L.
    eapply reads_bind; [by apply reads_u8|]. cbv beta iota.
    apply reads_fmap, reads_counted; [done|done|].
    rewrite forallb_forall in O. rewrite Forall_forall in *. intros x Hx.
    apply IH; [done|apply O; by apply list_elem_of_In|].
    pose proof (mjoin_item_length w_value l x Hx). lia.
  - destruct v; cbn [value_okb] in O; cbn [w_value] in L |- *;
      try (eapply reads_bind; [by apply reads_u8|]; cbv beta iota);
      try (by apply reads_fmap, reads_i8 || by apply reads_fmap, reads_i16
           || by apply reads_fmap, reads_i32 || by apply reads_fmap, reads_i64
           || by apply reads_fmap, reads_u8 || by apply reads_fmap, reads_u16
           || by apply reads_fmap, reads_u32 || by apply reads_fmap, reads_u64
           || by apply reads_fmap, reads_str).
    + replace (VBoolean b) with (VBoolean (negb (Z.b2z b =? 0))) by by destruct b.
      apply (reads_fmap _ (λ z, VBoolean (negb (z =? 0)))). apply reads_u8. by destruct b.
    + apply Z.ltb_lt in O. destruct (len_u32_small _ O) as [E I].
      eapply reads_bind; [by apply reads_u32|]. rewrite E, Nat2Z.id.
      apply reads_fmap, reads_take.
    + apply Nat.eqb_eq in O. apply reads_fmap. by apply reads_take_n.
    + apply andb_true_iff in O as [O1 O2%bool_decide_eq_true].
      eapply reads_bind_ret; [by apply reads_i64|]. rewrite O2.
      eapply reads_bind_ret; [apply reads_ret|]. apply reads_ret.
    + rewrite !andb_true_iff, bool_decide_eq_true in O. destruct O as [[[O1 O2] O3] O4].
      eapply reads_bind; [by apply reads_i32|].
      eapply reads_bind; [by apply reads_u32|].
      eapply reads_bind_ret; [by apply reads_u32|].
      rewrite O4. simpl. rewrite !Z.eqb_refl. simpl.
      eapply reads_bind_ret; [apply reads_ret|]. apply reads_ret.
    + rewrite length_app in L. change (length (w_u8 18)) with 1%nat in L.
      apply reads_fmap, reads_json; [done|lia].
    + by destruct (Hv items).
    + eapply reads_bind_ret; [by apply reads_u8|]. apply reads_ret.
Qed.

Lemma reads_value_top v : value_okb v = true → reads r_value_top (w_value v) v.
Proof.
  intros O pre rest. unfold r_value_top, buf_fuel. cbn [rbuf]. apply reads_value; [done|].
  rewrite !length_app. lia.
Qed.

Lemma reads_map m : values_okb m = true → reads r_map (w_map m) m.
Proof.
  unfold values_okb. rewrite andb_true_iff, Z.leb_le. intros [L O].
  assert (reads r_map (w_map m) (map_of_list (map_enum m))); [|by rewrite map_of_list_enum in *].
  unfold r_map, w_map.
  assert (size m = length (map_enum m)) as ->.
  { rewrite (map_enum_perm m). by rewrite length_map_to_list. }
  apply (reads_fmap _ map_of_list). apply (reads_counted _ w_entry); [|done|].
  { rewrite (map_enum_perm m), length_map_to_list. done. }
  rewrite (map_enum_perm m). rewrite forallb_forall in O. apply Forall_forall.
  intros [k v] Hx. pose proof (O (k, v) ltac:(by apply list_elem_of_In)) as [Ok Ov]%andb_true_iff.
  eapply reads_bind; [by apply reads_str|]. apply (reads_fmap _ (pair k)).
  by apply reads_value_top.
Qed.

Lemma reads_option {A} (f : R A) (enc : A → list byte) o :
  (∀ a, o = Some a → reads f (enc a) a) → reads (r_option f) (w_option enc o) o.
Proof.
  intros F. unfold r_option, w_option. destruct o as [a|].
  - eapply reads_bind; [by apply reads_u8|]. simpl. apply reads_fmap. auto.
  - eapply reads_bind_ret; [by apply reads_u8|]. apply reads_ret.
Qed.

Lemma op_from_tag_tag o : op_from_tag (op_tag o) = Some o.
Proof. by destruct o. Qed.

Lemma reads_request_body r : request_okb r = true → reads r_request_body (w_request_body r) r.
Proof.
  destruct r as [id op table rid vs]. unfold request_okb. cbn [req_id req_op req_table req_row_id req_values]. rewrite !andb_true_iff.
  intros [[[O1 O2] O3] O4]. unfold r_request_body, w_request_body. cbn [req_id req_op req_table req_row_id req_values].
  eapply reads_bind; [by apply reads_u64|].
  eapply reads_bind; [apply reads_u8; by destruct op|].
  rewrite op_from_tag_tag. rewrite <- (app_nil_l (w_str table ++ _)).
  eapply reads_bind; [apply reads_ret|].
  eapply reads_bind; [by apply reads_str|].
  eapply reads_bind; [apply reads_option; intros a ->; by apply reads_u64|].
  apply (reads_fmap _ (MkRequest id op table rid)), reads_option.
  intros a ->. by apply reads_map.
Qed.

Lemma reads_row_view r : row_view_okb r = true → reads r_row_view (w_row_view r) r.
Proof.
  destruct r as [id vs]. unfold row_view_okb, w_row_view, r_row_view. cbn [rv_id rv_values].
  rewrite !andb_true_iff. intros [O1 O2].
  eapply reads_bind; [by apply reads_u64|]. apply (reads_fmap _ (MkRowView id)).
  by apply reads_map.
Qed.

Lemma reads_response_body r : response_okb r = true → reads r_response_body (w_response_body r) r.
Proof.
  destruct r as [id ok rows er]. unfold response_okb. cbn [resp_id resp_ok resp_rows resp_error].
  rewrite !andb_true_iff, Z.leb_le.
  intros [[[O1 O2] O3] O4]. unfold r_response_body, w_response_body. cbn [resp_id resp_ok resp_rows resp_error].
  eapply reads_bind; [by apply reads_u64|].
  eapply reads_bind; [apply reads_u8; by destruct ok|].
  rewrite (app_assoc (w_u32 _)).
  eapply reads_bind.
  { apply (reads_counted _ w_row_view); [done|done|].
    rewrite forallb_forall in O3. apply Forall_forall. intros x Hx.
    apply reads_row_view, O3. by apply list_elem_of_In. }
  replace (MkResponse id ok rows er) with (MkResponse id (negb (Z.b2z ok =? 0)) rows er)
    by by destruct ok.
  apply (reads_fmap _ (MkResponse id _ rows)), reads_option. intros a ->. by apply reads_str.
Qed.

(** [f] reads [bs] up to the end of the buffer. *)
Definition finishes {A} (f : R A) (bs : list byte) (a : A) : Prop :=
  ∀ pre, f (MkReader (pre ++ bs) (length pre)) =
    Ok (a, MkReader (pre ++ bs) (length pre + length bs)).

Lemma finishes_bind {A B} (f : R A) (g : A → R B) b1 b2 a c :
  reads f b1 a → finishes (g a) b2 c → finishes (f ≫= g) (b1 ++ b2) c.
Proof.
  intros Hf Hg pre. unfold mbind, R_bind. rewrite Hf.
  specialize (Hg (pre ++ b1)). rewrite length_app, <- app_assoc in Hg. rewrite Hg.
  rewrite length_app. by rewrite Nat.add_assoc.
Qed.

Lemma finishes_end_with {A B} (f : R A) (g : A → B) (a : A) bs :
  reads f bs a → finishes (x ← f; r_end ;; mret (g x)) bs (g a).
Proof.
  intros Hf. rewrite <- (app_nil_r bs). eapply finishes_bind; [exact Hf|].
  intros pre. unfold mbind, R_bind, r_end. simpl.
  rewrite app_nil_r, Nat.eqb_refl. simpl. by rewrite Nat.add_0_r.
Qed.

Lemma finishes_end {A} (f : R A) (a : A) bs :
  reads f bs a → finishes (x ← f; r_end ;; mret x) bs a.
Proof. apply (finishes_end_with f id). Qed.

Lemma run_reader_finishes {A} (f : R A) bs a : finishes f bs a → run_reader f bs = Ok a.
Proof. intros Hf. unfold run_reader. specialize (Hf []). simpl in Hf. by rewrite Hf. Qed.

Lemma expect_kind_reads k : is_uint 8 k = true → reads (expect_kind k) (w_u8 k) ().
Proof.
  intros Hk. unfold expect_kind. eapply reads_bind_ret; [by apply reads_u8|].
  rewrite Z.eqb_refl. apply reads_ret.
Qed.
End roundtrip.

(** ** Framing *)

(** The serving loop: pop frames until none is complete. *)
Fixpoint drain (fuel : nat) (max : Z) (buf : list byte)
    : list (list byte) * option protocol_error * list byte :=
  match fuel with
  | O => ([], None, buf)
  | S fuel =>
      match feed max buf with
      | (Err e, b) => ([], Some e, b)
      | (Ok None, b) => ([], None, b)
      | (Ok (Some p), b) => let '(ps, e, r) := drain fuel max b in (p :: ps, e, r)
      end
  end.
Definition drain_all (max : Z) (buf : list byte) := drain (S (length buf)) max buf.

(** A chunk arrives: append it and pop; after an error the connection is over. *)
Definition absorb (max : Z) (st : list (list byte) * option protocol_error * list byte)
    (chunk : list byte) : list (list byte) * option protocol_error * list byte :=
  match st with
  | (ps, Some e, b) => (ps, Some e, b)
  | (ps, None, b) => let '(ps', e, b') := drain_all max (b ++ chunk) in (ps ++ ps', e, b')
  end.

Lemma feed_frame max payload rest :
  Z.of_nat (length payload) <= max → Z.of_nat (length payload) < 2 ^ 32 →
  ∀ bs, frame max payload = Ok bs → feed max (bs ++ rest) = (Ok (Some payload), rest).
Proof.
  intros L1 L2 bs. unfold frame. rewrite (proj2 (Z.ltb_ge _ _)) by lia. intros [= <-].
  destruct (len_u32_small _ L2) as [E I]. unfold w_u8, w_u32. rewrite E.
  cbn [le_bytes app]. unfold feed. rewrite byte_Z_byte. change (PROTOCOL_VERSION mod 256) with 2.
  change (2 =? PROTOCOL_VERSION) with true. cbn [negb].
  change [_; _; _; _] with (le_bytes 4 (Z.of_nat (length payload))).
  rewrite le_val_le_bytes, Z.mod_small by (change (256 ^ Z.of_nat 4) with (2 ^ 32); lia).
  rewrite (proj2 (Z.ltb_ge _ _)) by lia.
  rewrite (proj2 (Z.ltb_ge _ _)).
  - by rewrite Nat2Z.id, take_app_length, drop_app_length.
  - unfold HEADER_LEN. cbn [length]. rewrite length_app. lia.
Qed.

Lemma feed_some max b p b' c :
  feed max b = (Ok (Some p), b') →
  feed max (b ++ c) = (Ok (Some p), b' ++ c) ∧ (length b' < length b)%nat.
Proof.
  unfold feed. destruct b as [|v [|b1 [|b2 [|b3 [|b4 rest]]]]]; try done. cbn [app].
  destruct (negb _); [done|]. set (len := le_val _). destruct (max <? len); [done|].
  assert (0 <= len) by apply le_val_range.
  destruct (Z.ltb_spec (Z.of_nat (length (v :: b1 :: b2 :: b3 :: b4 :: rest)))
              (Z.of_nat HEADER_LEN + len)) as [|G]; [done|]. intros [= <- <-].
  unfold HEADER_LEN in *. cbn [length] in *.
  rewrite (proj2 (Z.ltb_ge _ _)) by (rewrite length_app; lia).
  rewrite take_app_le, drop_app_le by lia. split; [done|]. rewrite length_drop. lia.
Qed.

Lemma feed_none max b b' : feed max b = (Ok None, b') → b' = b.
Proof. unfold feed. repeat case_match; intros [=]; congruence. Qed.

Lemma feed_err max b e b' c :
  feed max b = (Err e, b') → b' = b ∧ feed max (b ++ c) = (Err e, b ++ c).
Proof.
  unfold feed. destruct b as [|v [|b1 [|b2 [|b3 [|b4 rest]]]]]; try done. cbn [app].
  destruct (negb _); [by intros [= <- <-]|]. destruct (max <? _); [by intros [= <- <-]|].
  by case_match.
Qed.

Lemma drain_fuel max n : ∀ m b,
  (length b < n)%nat → (length b < m)%nat → drain n max b = drain m max b.
Proof.
  induction n as [|n IH]; intros [|m] b Hn Hm; try lia. cbn [drain].
  destruct (feed max b) as [[[p|]|e] b'] eqn:F; [|done|done].
  apply (feed_some _ _ _ _ []) in F as [_ L]. rewrite (IH m b') by lia. done.
Qed.

(** Draining a longer buffer continues where draining a prefix stopped. *)
Lemma drain_all_app max c n : ∀ b, (length b < n)%nat →
  drain_all max (b ++ c) =
  match drain n max b with
  | (ps, Some e, r) => (ps, Some e, r ++ c)
  | (ps, None, r) => let '(ps', e, r') := drain_all max (r ++ c) in (ps ++ ps', e, r')
  end.
Proof.
  induction n as [|n IH]; intros b Hn; [lia|]. cbn [drain].
  destruct (feed max b) as [[[p|]|e] b'] eqn:F.
  - destruct (feed_some _ _ _ _ c F) as [F' L]. unfold drain_all at 1. cbn [drain]. rewrite F'.
    rewrite (drain_fuel _ _ (S (length (b' ++ c)))) by (rewrite ?length_app; lia).
    fold (drain_all max (b' ++ c)). rewrite IH by lia.
    destruct (drain n max b') as [[ps [e|]] r]; [done|].
    by destruct (drain_all max (r ++ c)) as [[ps' e'] r'].
  - apply feed_none in F as ->. by destruct (drain_all max (b ++ c)) as [[ps' e'] r'].
  - destruct (feed_err _ _ _ _ c F) as [-> F']. unfold drain_all. cbn [drain]. by rewrite F'.
Qed.

Lemma drain_rest max n : ∀ b ps r,
  (length b < n)%nat → drain n max b = (ps, None, r) → feed max r = (Ok None, r).
Proof.
  induction n as [|n IH]; intros b ps r Hn; [lia|]. cbn [drain].
  destruct (feed max b) as [[[p|]|e] b'] eqn:F; [| |done].
  - destruct (feed_some _ _ _ _ [] F) as [_ L].
    destruct (drain n max b') as [[ps' e'] r'] eqn:D. intros [= <- -> ->].
    eapply IH; [|exact D]. lia.
  - intros [= <- <-]. by apply feed_none in F as F'; subst.
Qed.

Lemma absorb_all max chunks : ∀ ps b,
  let '(fs, e, _) := foldl (absorb max) (ps, None, b) chunks in
  let '(fs', e', _) := drain_all max (b ++ mjoin chunks) in
  drain_all max b = ([], None, b) → fs = ps ++ fs' ∧ e = e'.
Proof.
  induction chunks as [|c chunks IH]; intros ps b.
  - cbn [foldl]. change (mjoin []) with (@nil byte). rewrite app_nil_r.
    destruct (drain_all max b) as [[fs' e'] r']. intros [= -> -> ->]. by rewrite app_nil_r.
  - cbn [foldl absorb]. change (mjoin (c :: chunks)) with (c ++ mjoin chunks).
    rewrite app_assoc.
    pose proof (drain_all_app max (mjoin chunks) (S (length (b ++ c))) (b ++ c) ltac:(lia)) as D.
    fold (drain_all max (b ++ c)) in D. rewrite D. clear D.
    destruct (drain_all max (b ++ c)) as [[ps1 [e1|]] r1] eqn:D1.
    + assert (∀ l x, foldl (absorb max) (x, Some e1, r1) l = (x, Some e1, r1)) as ->
        by (induction l; simpl; auto). done.
    + specialize (IH (ps ++ ps1) r1).
      destruct (foldl (absorb max) _ chunks) as [[fs e] r].
      destruct (drain_all max (r1 ++ mjoin chunks)) as [[fs' e'] r'].
      intros _. destruct IH as [-> ->]; [|by rewrite app_assoc].
      apply drain_rest in D1; [|lia]. unfold drain_all. cbn [drain]. by rewrite D1.
Qed.

(** ** Decoding always terminates *)

(** The bytes left to read. *)
Definition remaining (r : Reader) : nat := length (rbuf r) - rpos r.

(** With more than [remaining] fuel, [f] does not run out of it, leaves the
    buffer alone and never moves backwards. *)
Definition total_at {A} (n : nat) (f : R A) : Prop :=
  ∀ r, (rpos r <= length (rbuf r))%nat → (remaining r < n)%nat →
    match f r with
    | Err e => e ≠ OutOfFuel
    | Ok (_, r') => rbuf r' = rbuf r ∧ (rpos r <= rpos r' <= length (rbuf r))%nat
    end.

Lemma total_ret {A} n (a : A) : total_at n (mret a).
Proof. intros r Hr _. unfold mret, R_ret. split; [done|lia]. Qed.
Lemma total_fail {A} n e : total_at n (@r_fail A e).
Proof. intros r Hr _. simpl. done. Qed.
Lemma total_bind {A B} n (f : R A) (g : A → R B) :
  total_at n f → (∀ a, total_at n (g a)) → total_at n (f ≫= g).
Proof.
  intros Hf Hg r Hr Hn. unfold mbind, R_bind. specialize (Hf r Hr Hn).
  destruct (f r) as [[a r1]|e]; [|done]. destruct Hf as [Eb Hp].
  specialize (Hg a r1). rewrite Eb in Hg. unfold remaining in *. rewrite Eb in Hg.
  specialize (Hg ltac:(lia) ltac:(lia)). destruct (g a r1) as [[c r2]|]; [|done].
  destruct Hg as [-> ?]. split; [done|lia].
Qed.
Lemma total_ok_or {A} n (o : option A) e : total_at n (r_ok_or o e).
Proof. destruct o; [apply total_ret|apply total_fail]. Qed.
Lemma total_if {A} n (b : bool) (f g : R A) :
  total_at n f → total_at n g → total_at n (if b then f else g).
Proof. by destruct b. Qed.
Lemma total_take n k : total_at n (r_take k).
Proof.
  intros r Hr _. unfold r_take. destruct (Nat.ltb_spec (length (rbuf r)) (rpos r + k)); simpl; [done|].
  split; [done|lia].
Qed.
Lemma total_repeat {A} n k (f : R A) : total_at n f → total_at n (r_repeat k f).
Proof.
  intros Hf. induction k as [|k IH]; simpl; [apply total_ret|].
  apply total_bind; [done|]. intros a. apply total_bind; [done|]. intros. apply total_ret.
Qed.
Lemma total_uint n k : total_at n (r_uint k).
Proof. apply total_bind; [apply total_take|]. intros. apply total_ret. Qed.
Lemma total_sint n k : total_at n (r_sint k).
Proof. apply total_bind; [apply total_take|]. intros. apply total_ret. Qed.
Lemma total_str n : total_at n r_str.
Proof.
  apply total_bind; [apply total_uint|]. intros. apply total_bind; [apply total_take|].
  intros. apply total_if; [apply total_ret|apply total_fail].
Qed.
Lemma total_counted {A} n cap err (f : R A) : total_at n f → total_at n (r_counted cap err f).
Proof.
  intros. apply total_bind; [apply total_uint|]. intros.
  apply total_if; [apply total_fail|by apply total_repeat].
Qed.

Create HintDb total.
#[export] Hint Resolve total_ret total_fail total_bind total_ok_or total_take total_repeat
  total_uint total_sint total_str total_counted : total.

(** A tag byte pays for one level of fuel. *)
Lemma total_tag {A} n (g : Z → R A) : (∀ tag, total_at n (g tag)) → total_at (S n) (r_u8 ≫= g).
Proof.
  intros Hg r Hr Hn. unfold mbind, R_bind, r_u8, r_uint. unfold mbind, R_bind, r_take, mret, R_ret.
  destruct (Nat.ltb_spec (length (rbuf r)) (rpos r + 1)); [done|].
  specialize (Hg (le_val (take 1 (drop (rpos r) (rbuf r)))) (MkReader (rbuf r) (rpos r + 1))).
  unfold remaining in *. cbn [rbuf rpos] in *. specialize (Hg ltac:(lia) ltac:(lia)).
  destruct (g _ _) as [[c r2]|]; [|done]. destruct Hg as [-> ?]. split; [done|lia].
Qed.

Ltac total_cases :=
  repeat match goal with
  | |- total_at _ (match ?t with _ => _ end) => destruct t
  end; unfold r_i8, r_i16, r_i32, r_i64, r_u8, r_u16, r_u32, r_u64; eauto 12 with total.

Lemma total_json n : total_at n (r_json n).
Proof.
  induction n as [|n IH]; [intros r _ ?; lia|]. cbn [r_json]. apply total_tag. intros tag.
  total_cases.
Qed.

Section total.
Context `{Chrono}.

Lemma total_value n : total_at n (r_value n).
Proof.
  pose proof total_json as TJ.
  induction n as [|n IH]; [intros r _ ?; lia|]. cbn [r_value]. apply total_tag. intros tag.
  total_cases.
Qed.

Lemma total_value_top n : total_at n r_value_top.
Proof. intros r Hr _. apply (total_value (buf_fuel r) r Hr). unfold remaining, buf_fuel. lia. Qed.
#[local] Hint Resolve total_value_top : total.

Lemma total_map n : total_at n r_map.
Proof. unfold r_map. eauto 10 with total. Qed.
#[local] Hint Resolve total_map : total.

Lemma total_option {A} n (f : R A) : total_at n f → total_at n (r_option f).
Proof. intros. unfold r_option. apply total_bind; [apply total_uint|]. intros tag. total_cases. Qed.
#[local] Hint Resolve total_option : total.

Lemma total_request_body n : total_at n r_request_body.
Proof. unfold r_request_body. unfold r_u64, r_u8. eauto 20 with total. Qed.

Lemma total_response_body n : total_at n r_response_body.
Proof. unfold r_response_body, r_row_view. unfold r_u64, r_u8. eauto 20 with total. Qed.

Lemma total_end n : total_at n r_end.
Proof. intros r Hr _. unfold r_end. by destruct (negb _). Qed.

Lemma run_reader_total {A} (f : R A) payload :
  (∀ n, total_at n f) → run_reader f payload ≠ Err OutOfFuel.
Proof.
  intros T. specialize (T (S (length payload)) (MkReader payload 0)). unfold remaining in T.
  cbn [rbuf rpos] in T. specialize (T ltac:(lia) ltac:(lia)). unfold run_reader.
  destruct (f _) as [[a r]|e]; simpl; [done|]. congruence.
Qed.
End total.

(** ** What the decoder accepts is well formed *)

(** Every value [f] returns satisfies [P]. *)
Definition sound {A} (f : R A) (P : A → Prop) : Prop :=
  ∀ r a r', f r = Ok (a, r') → P a.

Lemma sound_ret {A} (a : A) (P : A → Prop) : P a → sound (mret a) P.
Proof. intros HP r a' r' [= <- _]. done. Qed.
Lemma sound_fail {A} e (P : A → Prop) : sound (r_fail e) P.
Proof. by intros r a r'. Qed.
Lemma sound_bind {A B} (f : R A) (g : A → R B) P Q :
  sound f P → (∀ a, P a → sound (g a) Q) → sound (f ≫= g) Q.
Proof.
  intros Hf Hg r c r'. unfold mbind, R_bind. destruct (f r) as [[a r1]|] eqn:F; [|done].
  intros G. eapply Hg; [by eapply Hf|exact G].
Qed.
Lemma sound_map {A B} (f : R A) (h : A → B) P Q :
  sound f P → (∀ a, P a → Q (h a)) → sound (x ← f; mret (h x)) Q.
Proof. intros Hf Hh. eapply sound_bind; [exact Hf|]. intros a HP. apply sound_ret; auto. Qed.
Lemma sound_any {A} (f : R A) : sound f (λ _, True).
Proof. done. Qed.
Lemma sound_take k : sound (r_take k) (λ b, length b = k).
Proof.
  intros r a r'. unfold r_take. destruct (Nat.ltb_spec (length (rbuf r)) (rpos r + k)); [done|].
  intros [= <- _]. rewrite length_take, length_drop. lia.
Qed.
Lemma sound_uint k : sound (r_uint k) (λ z, 0 <= z < 256 ^ Z.of_nat k).
Proof.
  eapply sound_map; [apply sound_take|]. intros b <-. apply le_val_range.
Qed.
Lemma sound_sint k : (0 < k)%nat → sound (r_sint k) (λ z, is_sint (8 * Z.of_nat k) z = true).
Proof. intros. eapply sound_map; [apply sound_any|]. intros b _. apply sign_range. lia. Qed.
Lemma sound_u8 : sound r_u8 (λ z, is_uint 8 z = true).
Proof. intros r a r' E. apply is_uint_spec. by apply (sound_uint 1) in E. Qed.
Lemma sound_u16 : sound r_u16 (λ z, is_uint 16 z = true).
Proof. intros r a r' E. apply is_uint_spec. by apply (sound_uint 2) in E. Qed.
Lemma sound_u32 : sound r_u32 (λ z, is_uint 32 z = true).
Proof. intros r a r' E. apply is_uint_spec. by apply (sound_uint 4) in E. Qed.
Lemma sound_u64 : sound r_u64 (λ z, is_uint 64 z = true).
Proof. intros r a r' E. apply is_uint_spec. by apply (sound_uint 8) in E. Qed.
Lemma sound_i8 : sound r_i8 (λ z, is_sint 8 z = true).
Proof. apply (sound_sint 1). lia. Qed.
Lemma sound_i16 : sound r_i16 (λ z, is_sint 16 z = true).
Proof. apply (sound_sint 2). lia. Qed.
Lemma sound_i32 : sound r_i32 (λ z, is_sint 32 z = true).
Proof. apply (sound_sint 4). lia. Qed.
Lemma sound_i64 : sound r_i64 (λ z, is_sint 64 z = true).
Proof. apply (sound_sint 8). lia. Qed.

Lemma str_bytes_str b : str_bytes (bytes_str b) = b.
Proof. apply String.list_byte_of_string_of_list_byte. Qed.

Lemma sound_str : sound r_str (λ s, str_okb s = true).
Proof.
  eapply sound_bind; [apply sound_u32|]. intros len L%is_uint_spec.
  eapply sound_bind; [apply sound_take|]. intros b Hb. cbv beta in *.
  destruct (utf8_valid b) eqn:U; [|apply sound_fail]. apply sound_ret.
  unfold str_okb. rewrite <- length_str_bytes, str_bytes_str, U. apply Z.ltb_lt. lia.
Qed.

Lemma sound_repeat {A} k (f : R A) P :
  sound f P → sound (r_repeat k f) (λ l, length l = k ∧ Forall P l).
Proof.
  intros Hf. induction k as [|k IH]; simpl; [by apply sound_ret|].
  eapply sound_bind; [exact Hf|]. intros a Ha. eapply sound_map; [exact IH|].
  intros l [<- F]. split; [done|by constructor].
Qed.

Lemma sound_counted {A} cap err (f : R A) P :
  sound f P → sound (r_counted cap err f) (λ l, Z.of_nat (length l) <= cap ∧ Forall P l).
Proof.
  intros Hf. eapply sound_bind; [apply sound_u32|]. intros c C%is_uint_spec.
  destruct (Z.ltb_spec cap c); [apply sound_fail|].
  intros r l r' E. apply (sound_repeat _ _ _ Hf) in E as [E F]. split; [lia|done].
Qed.

Lemma Forall_forallb {A} (f : A → bool) l : Forall (λ x, f x = true) l → forallb f l = true.
Proof. rewrite forallb_forall, Forall_forall. setoid_rewrite <- list_elem_of_In. done. Qed.

(** *** Objects are sorted *)

Lemma str_cmp_lt_trans a b c : str_cmp a b = Lt → str_cmp b c = Lt → str_cmp a c = Lt.
Proof. intros H1 H2. apply (cmp_at_lt _ _ (total_cmp_str a) b); congruence. Qed.

Lemma str_cmp_gt a b : str_cmp a b = Gt → str_cmp b a = Lt.
Proof. intros E. by rewrite (cmp_at_anti _ _ (total_cmp_str a)), E. Qed.

Lemma obj_insert_Forall (P : string * json → Prop) k v m :
  P (k, v) → Forall P m → Forall P (obj_insert k v m).
Proof.
  intros Hk. induction 1 as [|[k' v'] m Hx F IH]; simpl; [by repeat constructor|].
  destruct (str_cmp k k'); repeat constructor; auto.
Qed.

Lemma obj_insert_sorted k v m : keys_sortedb m = true → keys_sortedb (obj_insert k v m) = true.
Proof.
  induction m as [|[k' v'] m IH]; intros S; [done|]. pose proof S as S0.
  apply keys_sortedb_cons in S as [S1 S2]. cbn [obj_insert].
  destruct (str_cmp k k') eqn:E.
  - apply str_cmp_eq in E as ->. by apply keys_sortedb_cons.
  - apply keys_sortedb_cons. split; [|done]. constructor; [done|].
    eapply Forall_impl; [exact S1|]. intros [k2 v2]. by apply str_cmp_lt_trans.
  - apply keys_sortedb_cons. split; [|by apply IH]. apply obj_insert_Forall; [|done].
    by apply str_cmp_gt.
Qed.

Lemma obj_insert_length k v m : (length (obj_insert k v m) <= S (length m))%nat.
Proof.
  induction m as [|[k' v'] m IH]; simpl; [lia|]. destruct (str_cmp k k'); simpl; lia.
Qed.

Lemma obj_of_list_ok P l :
  Forall P l →
  keys_sortedb (obj_of_list l) = true ∧ Forall P (obj_of_list l) ∧
  (length (obj_of_list l) <= length l)%nat.
Proof.
  unfold obj_of_list. intros F.
  assert (∀ acc, keys_sortedb acc = true → Forall P acc →
    let m := foldl (λ m kv, obj_insert kv.1 kv.2 m) acc l in
    keys_sortedb m = true ∧ Forall P m ∧ (length m <= length acc + length l)%nat) as G.
  { induction F as [|[k v] l Hx _ IH]; intros acc S Fa; simpl; [split_and!; [done..|lia]|].
    destruct (IH (obj_insert k v acc)) as (? & ? & ?).
    - by apply obj_insert_sorted.
    - by apply obj_insert_Forall.
    - pose proof (obj_insert_length k v acc). split_and!; [done..|lia]. }
  apply (G []); [done|constructor].
Qed.

Lemma sound_json n : sound (r_json n) (λ j, json_okb j = true).
Proof.
  induction n as [|n IH]; [done|]. cbn [r_json]. eapply sound_bind; [apply sound_u8|].
  intros tag _.
  repeat match goal with |- sound (match ?t with _ => _ end) _ => destruct t end;
    try apply sound_fail; try (by apply sound_ret).
  - eapply sound_map; [apply sound_counted, IH|]. intros l [L F]. simpl.
    rewrite (proj2 (Z.leb_le _ _)) by done. by apply Forall_forallb.
  - eapply sound_map; [apply sound_u64|]. intros b Hb. cbv beta in *. unfold json_of_f64.
    destruct (f_exp F64 b =? 2 ^ ew F64 - 1) eqn:X; [done|]. cbn [json_okb num_okb].
    by rewrite Hb, X.
  - eapply sound_map; [apply sound_str|done].
  - eapply sound_map; [apply sound_u64|]. done.
  - eapply sound_map; [apply sound_i64|]. intros z Hz. cbv beta in *. unfold json_of_i64.
    pose proof Hz as Hz2. apply is_sint_spec in Hz2.
    destruct (Z.leb_spec 0 z); cbn [json_okb num_okb].
    + apply is_uint_spec. lia.
    + rewrite Hz. apply Z.ltb_lt. done.
  - eapply sound_map.
    { apply (sound_counted _ _ _ (λ kv, str_okb kv.1 && json_okb kv.2 = true)).
      eapply sound_bind; [apply sound_str|]. intros k Hk. cbv beta in *. eapply sound_map; [apply IH|].
      intros j Hj. cbv beta in *. simpl. by rewrite Hk, Hj. }
    intros l [L F]. apply obj_of_list_ok in F as (S & F & L'). cbn [json_okb].
    rewrite S, (Forall_forallb _ _ F), (proj2 (Z.leb_le _ _)) by lia. done.
  - by eapply sound_map; [apply sound_any|].
Qed.

(** *** Values and messages *)

(** What the model relies on of [chrono]: its conversions invert each other
    where the decoder uses them. *)
Class ChronoLaws `{Chrono} : Prop := {
  timestamp_micros_of m t : from_timestamp_micros m = Some t → timestamp_micros t = m;
  num_days_of d d' : from_num_days_from_ce_opt d = Some d' → d' = d
}.

Section sound.
Context `{ChronoLaws}.

Lemma sound_value n : sound (r_value n) (λ v, value_okb v = true).
Proof.
  induction n as [|n IH]; [done|]. cbn [r_value]. eapply sound_bind; [apply sound_u8|].
  intros tag _.
  repeat match goal with |- sound (match ?t with _ => _ end) _ => destruct t end;
    try apply sound_fail; try (by apply sound_ret);
    try (by eapply sound_map; [first [apply sound_u8|apply sound_u16|apply sound_u32|apply sound_u64
      |apply sound_i8|apply sound_i16|apply sound_i32|apply sound_i64|apply sound_str
      |apply sound_json]|]).
  - eapply sound_map; [apply sound_take|]. intros b Hb. cbv beta in *. cbn [value_okb]. by rewrite Hb.
  - eapply sound_map; [apply sound_counted, IH|]. intros l [L F]. simpl.
    rewrite (proj2 (Z.leb_le _ _)) by done. by apply Forall_forallb.
  - eapply sound_bind; [apply sound_i32|]. intros days Hd. cbv beta in *.
    eapply sound_bind; [apply sound_u32|]. intros month Hm. cbv beta in *.
    eapply sound_bind; [apply sound_u32|]. intros day Hday. cbv beta in *.
    destruct (from_num_days_from_ce_opt days ≫= _) as [d|] eqn:E; [|by intros r a r'].
    apply bind_Some in E as (d' & E & E2). apply num_days_of in E as Ed. subst d'.
    destruct (Z.eqb_spec (date_month days) month); [|done]. simpl in E2.
    destruct (Z.eqb_spec (date_day days) day); [|done]. injection E2 as <-. subst.
    apply sound_ret. cbn [value_okb]. rewrite Hd, Hm, Hday, E. by rewrite bool_decide_true.
  - eapply sound_bind; [apply sound_u32|]. intros len L%is_uint_spec.
    eapply sound_map; [apply sound_take|]. intros b Hb. cbv beta in *. cbn [value_okb]. apply Z.ltb_lt. lia.
  - eapply sound_bind; [apply sound_i64|]. intros m Hm. cbv beta in *.
    destruct (from_timestamp_micros m) as [t|] eqn:E; [|by intros r a r'].
    apply sound_ret. cbn [value_okb]. rewrite (timestamp_micros_of _ _ E), Hm, E.
    by rewrite bool_decide_true.
Qed.

Lemma size_list_to_map (l : list (string * value)) :
  (size (list_to_map l : values) <= length l)%nat.
Proof.
  induction l as [|[k v] l IH]; simpl; [by rewrite map_size_empty|].
  destruct ((list_to_map l : values) !! k) eqn:E.
  - rewrite map_size_insert_Some by eauto. lia.
  - rewrite map_size_insert_None by done. lia.
Qed.

Lemma sound_values : sound r_map (λ m, values_okb m = true).
Proof.
  eapply sound_map.
  { apply (sound_counted _ _ _ (λ kv, str_okb kv.1 && value_okb kv.2 = true)).
    eapply sound_bind; [apply sound_str|]. intros k Hk. cbv beta in *.
    eapply (sound_map _ _ (λ v, value_okb v = true)).
    - intros r a r'. apply sound_value.
    - intros v Hv. simpl. by rewrite Hk, Hv. }
  intros l [L F]. unfold values_okb. rewrite map_of_list_spec.
  pose proof (size_list_to_map (rev l)) as Sz. rewrite length_rev in Sz.
  rewrite (proj2 (Z.leb_le _ _)) by lia. apply Forall_forallb, Forall_forall.
  intros [k v] Hin%elem_of_map_to_list%elem_of_list_to_map_2.
  rewrite Forall_forall in F. apply F.
  by apply list_elem_of_In, in_rev, list_elem_of_In in Hin.
Qed.

Lemma sound_option {A} (f : R A) (ok : A → bool) :
  sound f (λ a, ok a = true) → sound (r_option f) (λ o, option_okb ok o = true).
Proof.
  intros Hf. eapply sound_bind; [apply sound_u8|]. intros tag _.
  repeat match goal with |- sound (match ?t with _ => _ end) _ => destruct t end;
    try apply sound_fail; [by apply sound_ret|]. by eapply sound_map.
Qed.

Lemma sound_request_body : sound r_request_body (λ r, request_okb r = true).
Proof.
  eapply sound_bind; [apply sound_u64|]. intros id Hid. cbv beta in *.
  eapply sound_bind; [apply sound_u8|]. intros tag _.
  eapply sound_bind; [apply sound_any|]. intros op _.
  eapply sound_bind; [apply sound_str|]. intros table Ht. cbv beta in *.
  eapply sound_bind; [apply (sound_option _ _ sound_u64)|]. intros rid Hr. cbv beta in *.
  eapply sound_map; [apply (sound_option _ _ sound_values)|]. intros vs Hv. cbv beta in *.
  unfold request_okb. cbn [req_id req_table req_row_id req_values].
  by rewrite Hid, Ht, Hr, Hv.
Qed.

Lemma sound_row_view : sound r_row_view (λ r, row_view_okb r = true).
Proof.
  eapply sound_bind; [apply sound_u64|]. intros id Hid. cbv beta in *.
  eapply sound_map; [apply sound_values|]. intros vs Hv. cbv beta in *.
  unfold row_view_okb. cbn [rv_id rv_values]. by rewrite Hid, Hv.
Qed.

Lemma sound_response_body : sound r_response_body (λ r, response_okb r = true).
Proof.
  eapply sound_bind; [apply sound_u64|]. intros id Hid. cbv beta in *.
  eapply sound_bind; [apply sound_any|]. intros ok _.
  eapply sound_bind; [apply sound_counted, sound_row_view|]. intros rows [L F].
  eapply sound_map; [apply (sound_option _ _ sound_str)|]. intros er He. cbv beta in *.
  unfold response_okb. cbn [resp_id resp_rows resp_error].
  rewrite Hid, He, (proj2 (Z.leb_le _ _)), (Forall_forallb _ _ F) by done. done.
Qed.

Lemma run_reader_sound {A} (f : R A) P payload a :
  sound f P → run_reader f payload = Ok a → P a.
Proof.
  intros Hf. unfold run_reader. destruct (f _) as [[x r]|] eqn:E; [|done].
  intros [= <-]. by eapply Hf.
Qed.
End sound.

(** ** A calendar and a map order, for concrete evaluations *)

(** The proleptic Gregorian calendar: month and day of a day number, where day 1
    is 0001-01-01. *)
Definition civil (days : Z) : Z * Z :=
  let z := days + 305 in
  let era := z / 146097 in
  let doe := z - era * 146097 in
  let yoe := (doe - doe / 1460 + doe / 36524 - doe / 146096) / 365 in
  let doy := doe - (365 * yoe + yoe / 4 - yoe / 100) in
  let mp := (5 * doy + 2) / 153 in
  (if mp <? 10 then mp + 3 else mp - 9, doy - (153 * mp + 2) / 5 + 1).

Definition demo_chrono : Chrono := {|
  timestamp_micros t := t / 1000;
  from_timestamp_micros m := if is_sint 64 (m * 1000) then Some (m * 1000) else None;
  date_month d := (civil d).1;
  date_day d := (civil d).2;
  from_num_days_from_ce_opt d := if (1 <=? d) && (d <=? 3652059) then Some d else None
|}.

(** 2024-02-29 and 0001-01-01. *)
Example civil_ex : civil 738945 = (2, 29) ∧ civil 1 = (1, 1).
Proof. split; vm_compute; reflexivity. Qed.

Lemma demo_chrono_laws : @ChronoLaws demo_chrono.
Proof.
  split; simpl.
  - intros m t. case_match; [|done]. intros [= <-]. by apply Z.div_mul.
  - intros d d'. case_match; [|done]. by intros [= <-].
Qed.

Definition demo_order : MapOrder := map_to_list.
Lemma demo_order_laws : @MapOrderLaws demo_order.
Proof. by intros m. Qed.

Definition demo_request : Request :=
  MkRequest 7 OInsert "users" (Some 3)
    (Some (<["at"%string := VTimestamp 1700000000123456000]>
           (<["day"%string := VDate 738945]>
           (<["tags"%string := VArray [VString "a"; VNull; VArray [VFloat64 0x3FF8000000000000]]]>
           {["doc"%string := VJson (JObject [("k"%string, JArray [JNumber (NegInt (-5)); JNull])])]})))).

(** ** Properties *)

Lemma frame_ok max payload bs :
  max < 2 ^ 32 → frame max payload = Ok bs →
  ∀ rest, feed max (bs ++ rest) = (Ok (Some payload), rest).
Proof.
  intros M E rest. assert (Z.of_nat (length payload) <= max) as L.
  { unfold frame in E. destruct (Z.ltb_spec max (Z.of_nat (length payload))); [done|lia]. }
  apply feed_frame; [lia|lia|done].
Qed.

Section decode.
Context `{Chrono} `{MapOrderLaws}.

Lemma reads_batch_body (b : BatchRequest) :
  batch_okb b = true →
  reads (id ← r_u64; ops ← r_counted 4096 BatchTooLarge r_request_body; mret (MkBatchRequest id ops))
    (w_u64 (breq_id b) ++ w_u32 (len_u32 (length (breq_ops b))) ++ mjoin (w_request_body <$> breq_ops b))
    b.
Proof.
  destruct b as [id ops]. unfold batch_okb. cbn [breq_id breq_ops].
  rewrite !andb_true_iff, Z.leb_le, forallb_forall. intros [[O1 O2] O3].
  eapply reads_bind; [by apply reads_u64|]. apply (reads_fmap _ (MkBatchRequest id)).
  apply reads_counted; [done|done|]. apply Forall_forall. intros x Hx.
  apply reads_request_body, O3. by apply list_elem_of_In.
Qed.

Lemma decode_incoming_single r :
  request_okb r = true → decode_incoming (w_u8 KIND_REQUEST ++ w_request_body r) = Ok (ISingle r).
Proof.
  intros O. apply run_reader_finishes. eapply finishes_bind; [by apply reads_u8|].
  cbv beta. change (KIND_REQUEST =? KIND_REQUEST) with true. cbv iota.
  apply finishes_end. apply (reads_fmap _ ISingle). by apply reads_request_body.
Qed.

Lemma decode_incoming_batch kind b :
  batch_okb b = true → kind = KIND_BATCH_REQUEST ∨ kind = KIND_ATOMIC_BATCH_REQUEST →
  decode_incoming (w_batch kind b) =
    Ok (if kind =? KIND_ATOMIC_BATCH_REQUEST then IAtomicBatch b else IBatch b).
Proof.
  intros O Hk. apply run_reader_finishes. unfold w_batch.
  eapply finishes_bind; [apply reads_u8; by destruct Hk as [-> | ->]|]. cbv beta.
  assert (kind =? KIND_REQUEST = false) as -> by by destruct Hk as [-> | ->].
  assert ((kind =? KIND_BATCH_REQUEST) || (kind =? KIND_ATOMIC_BATCH_REQUEST) = true) as ->
    by by destruct Hk as [-> | ->]. cbv iota.
  apply finishes_end. pose proof (reads_batch_body b O) as RB.
  intros pre rest. specialize (RB pre rest). revert RB. unfold mbind, R_bind.
  destruct (r_u64 _) as [[id r1]|]; [|done]. destruct (r_counted _ _ _ r1) as [[ops r2]|]; [|done].
  unfold mret, R_ret. intros [= -> ->]. done.
Qed.

Lemma decode_response_payload r :
  response_okb r = true → decode_response (w_u8 KIND_RESPONSE ++ w_response_body r) = Ok r.
Proof.
  intros O. apply run_reader_finishes. eapply finishes_bind; [by apply expect_kind_reads|].
  apply finishes_end. by apply reads_response_body.
Qed.

Lemma decode_batch_response_payload b :
  batch_response_okb b = true →
  decode_batch_response (w_u8 KIND_BATCH_RESPONSE ++ w_u64 (bresp_id b) ++
    w_u32 (len_u32 (length (bresp_results b))) ++ mjoin (w_response_body <$> bresp_results b)) = Ok b.
Proof.
  destruct b as [id rs]. unfold batch_response_okb. cbn [bresp_id bresp_results].
  rewrite !andb_true_iff, Z.leb_le, forallb_forall. intros [[O1 O2] O3].
  apply run_reader_finishes. eapply finishes_bind; [by apply expect_kind_reads|].
  eapply finishes_bind; [by apply reads_u64|]. cbv beta.
  apply (finishes_end_with _ (MkBatchResponse id)).
  apply reads_counted; [done|done|]. apply Forall_forall. intros x Hx.
  apply reads_response_body, O3. by apply list_elem_of_In.
Qed.
End decode.

(** C7: a well-formed request survives the wire: framed and fed to the decoder
    with any bytes behind it, it is popped as one frame, leaves those bytes, and
    decodes to itself, as a request and as an incoming frame, whatever order the
    value map is iterated in. *)
Theorem request_roundtrip `{Chrono} `{MapOrderLaws} (max : Z) (r : Request) (bs rest : list byte) :
  request_okb r = true → max < 2 ^ 32 → encode_request max r = Ok bs →
  ∃ payload, feed max (bs ++ rest) = (Ok (Some payload), rest) ∧
    decode_request payload = Ok r ∧ decode_incoming payload = Ok (ISingle r).
Proof.
  intros O M E. exists (w_u8 KIND_REQUEST ++ w_request_body r).
  split; [by apply frame_ok|]. split; [|by apply decode_incoming_single].
  apply run_reader_finishes. eapply finishes_bind; [by apply expect_kind_reads|].
  apply finishes_end. by apply reads_request_body.
Qed.

(** Batches and atomic batches of at most 4096 well-formed requests survive the
    wire and arrive as the same batch under the kind they were sent with. *)
Theorem batch_roundtrip `{Chrono} `{MapOrderLaws} (max : Z) (b : BatchRequest)
    (bs1 bs2 rest : list byte) :
  batch_okb b = true → max < 2 ^ 32 →
  encode_batch_request max b = Ok bs1 → encode_atomic_batch_request max b = Ok bs2 →
  ∃ p1 p2, feed max (bs1 ++ rest) = (Ok (Some p1), rest) ∧
    feed max (bs2 ++ rest) = (Ok (Some p2), rest) ∧
    decode_incoming p1 = Ok (IBatch b) ∧ decode_incoming p2 = Ok (IAtomicBatch b).
Proof.
  intros O M E1 E2. exists (w_batch KIND_BATCH_REQUEST b), (w_batch KIND_ATOMIC_BATCH_REQUEST b).
  split; [by apply frame_ok|]. split; [by apply frame_ok|].
  rewrite !decode_incoming_batch by auto. done.
Qed.

(** Responses survive the wire; the borrowed encoders of the read paths send
    byte for byte what the owned response encoder sends. *)
Theorem response_roundtrip `{Chrono} `{MapOrderLaws} (max : Z) (r : Response) (bs rest : list byte) :
  response_okb r = true → max < 2 ^ 32 → encode_response max r = Ok bs →
  (∃ payload, feed max (bs ++ rest) = (Ok (Some payload), rest) ∧ decode_response payload = Ok r) ∧
  (∀ id rows, r = Response_ok id ((λ p, MkRowView p.1 p.2) <$> rows) →
     encode_ok_borrowed max id rows = Ok bs ∧
     (∀ row_id vs, rows = [(row_id, vs)] → encode_ok_single max id row_id vs = Ok bs)).
Proof.
  intros O M E. split.
  - exists (w_u8 KIND_RESPONSE ++ w_response_body r). split; [by apply frame_ok|].
    by apply decode_response_payload.
  - intros id rows ->.
    assert (w_response_body_borrowed id rows None =
      w_response_body (Response_ok id ((λ p, MkRowView p.1 p.2) <$> rows))) as Eb.
    { unfold w_response_body, w_response_body_borrowed, Response_ok.
      cbn [resp_id resp_ok resp_rows resp_error]. rewrite bool_decide_true by done.
      rewrite length_fmap, <- list_fmap_compose. done. }
    unfold encode_ok_borrowed, encode_ok_single. rewrite Eb. split; [exact E|].
    intros row_id vs ->. by rewrite Eb.
Qed.

(** Framing does not depend on how the stream is cut: feeding chunk by chunk
    pops the same frames and hits the same error as feeding everything at once. *)
Theorem chunking_is_invisible (max : Z) (chunks : list (list byte)) :
  let '(fs, e, _) := foldl (absorb max) ([], None, []) chunks in
  let '(fs', e', _) := drain_all max (mjoin chunks) in
  fs = fs' ∧ e = e'.
Proof.
  pose proof (absorb_all max chunks [] []) as A.
  destruct (foldl (absorb max) _ chunks) as [[fs e] r]. cbn [app] in A.
  destruct (drain_all max (mjoin chunks)) as [[fs' e'] r']. by apply A.
Qed.

(** Decoding is total: on any payload whatever, every decoder returns a message
    or a protocol error; nesting and counts never exhaust the recursion the model
    allows, which is one level per byte of the payload. *)
Theorem decoders_total `{Chrono} (payload : list byte) :
  decode_request payload ≠ Err OutOfFuel ∧ decode_incoming payload ≠ Err OutOfFuel ∧
  decode_response payload ≠ Err OutOfFuel ∧ decode_batch_response payload ≠ Err OutOfFuel.
Proof.
  pose proof total_request_body as T1. pose proof total_response_body as T2.
  pose proof total_end as T3.
  assert (∀ n k, total_at n (expect_kind k)) as T4.
  { intros. apply total_bind; [apply total_uint|]. intros. apply total_if; auto with total. }
  unfold decode_request, decode_incoming, decode_response, decode_batch_response, r_u8, r_u64.
  split_and!; apply run_reader_total; intros n; eauto 12 with total.
  apply total_bind; [apply total_uint|]. intros kind. apply total_bind; [|eauto with total].
  apply total_if; [eauto with total|]. apply total_if; eauto 12 with total.
Qed.

(** C36: whatever bytes a client sends, a frame the decoder accepts is well formed:
    integers in range, strings valid UTF-8, object keys sorted, and at most 4096
    requests, 4096 map entries and 65536 array items. *)
Theorem decoded_is_well_formed `{ChronoLaws} (payload : list byte) (i : Incoming) :
  decode_incoming payload = Ok i → incoming_okb i = true.
Proof.
  apply (run_reader_sound _ (λ i, incoming_okb i = true)).
  eapply sound_bind; [apply sound_u8|]. intros kind _.
  eapply (sound_bind _ _ (λ i, incoming_okb i = true)).
  - destruct (kind =? KIND_REQUEST).
    { eapply sound_map; [apply sound_request_body|done]. }
    destruct (_ || _); [|apply sound_fail].
    eapply sound_bind; [apply sound_u64|]. intros id Hid. cbv beta in *.
    eapply sound_map; [apply sound_counted, sound_request_body|]. intros ops [L F].
    assert (batch_okb (MkBatchRequest id ops) = true); [|by case_match].
    unfold batch_okb. cbn [breq_id breq_ops].
    rewrite Hid, (proj2 (Z.leb_le _ _)), (Forall_forallb _ _ F) by done. done.
  - intros x Hx. cbv beta in *. eapply sound_bind; [apply sound_any|]. intros _ _.
    by apply sound_ret.
Qed.

Lemma request_roundtrip_witness :
  ∃ bs, @encode_request demo_chrono demo_order 4096 demo_request = Ok bs ∧
    ∃ payload, feed 4096 (bs ++ [x01]) = (Ok (Some payload), [x01]) ∧
      @decode_request demo_chrono payload = Ok demo_request ∧
      @decode_incoming demo_chrono payload = Ok (ISingle demo_request).
Proof.
  destruct (@encode_request demo_chrono demo_order 4096 demo_request) as [bs|] eqn:E;
    [|vm_compute in E; discriminate].
  exists bs. split; [reflexivity|].
  apply (@request_roundtrip demo_chrono demo_order demo_order_laws 4096 demo_request bs [x01]);
    [vm_compute; reflexivity|lia|exact E].
Defined.

Definition demo_batch : BatchRequest := MkBatchRequest 9 [Request_ping 1; demo_request].

Lemma batch_roundtrip_witness :
  ∃ b1 b2 p1 p2, feed 4096 (b1 ++ []) = (Ok (Some p1), []) ∧
    feed 4096 (b2 ++ []) = (Ok (Some p2), []) ∧
    @decode_incoming demo_chrono p1 = Ok (IBatch demo_batch) ∧
    @decode_incoming demo_chrono p2 = Ok (IAtomicBatch demo_batch).
Proof.
  destruct (@encode_batch_request demo_chrono demo_order 4096 demo_batch) as [b1|] eqn:E1;
    [|vm_compute in E1; discriminate].
  destruct (@encode_atomic_batch_request demo_chrono demo_order 4096 demo_batch) as [b2|] eqn:E2;
    [|vm_compute in E2; discriminate].
  exists b1, b2.
  apply (@batch_roundtrip demo_chrono demo_order demo_order_laws 4096 demo_batch b1 b2 []);
    [vm_compute; reflexivity|lia|exact E1|exact E2].
Defined.

Lemma response_roundtrip_witness :
  ∃ bs, @encode_response demo_chrono demo_order 4096
          (Response_ok 5 [MkRowView 3 {["a"%string := VInt8 (-1)]}]) = Ok bs ∧
    @encode_ok_single demo_chrono demo_order 4096 5 3 {["a"%string := VInt8 (-1)]} = Ok bs.
Proof.
  destruct (@encode_response demo_chrono demo_order 4096
    (Response_ok 5 [MkRowView 3 {["a"%string := VInt8 (-1)]}])) as [bs|] eqn:E;
    [|vm_compute in E; discriminate].
  exists bs. split; [reflexivity|].
  apply (@response_roundtrip demo_chrono demo_order demo_order_laws 4096
    (Response_ok 5 [MkRowView 3 {["a"%string := VInt8 (-1)]}]) bs [])
    with (rows := [(3, {["a"%string := VInt8 (-1)]})]);
    [vm_compute; reflexivity|lia|exact E|reflexivity|reflexivity].
Defined.

Lemma decoded_is_well_formed_witness :
  incoming_okb (H := demo_chrono) (ISingle (Request_ping 1)) = true.
Proof.
  apply (@decoded_is_well_formed demo_chrono demo_chrono_laws
    (w_u8 KIND_REQUEST ++ @w_request_body demo_chrono demo_order (Request_ping 1))).
  vm_compute. reflexivity.
Defined.

(** ** What the model shows the code gets wrong *)

(** A map of more than 4096 entries is encoded without complaint and rejected by
    every decoder: the limit is only on the reading side. *)
Lemma large_map_rejected `{Chrono} `{MapOrder} (m : values) (r : Reader) rest :
  4096 < Z.of_nat (size m) < 2 ^ 32 → rbuf r = w_map m ++ rest → rpos r = 0%nat →
  r_map r = Err (DecodeError (MapTooLarge (Z.of_nat (size m)))).
Proof.
  intros L Eb Ep. destruct r as [b p]. cbn [rbuf rpos] in *. subst.
  destruct (len_u32_small (size m)) as [E I]; [lia|].
  unfold r_map, r_counted, w_map. rewrite <- app_assoc.
  pose proof (reads_u32 _ I [] (mjoin (w_entry <$> map_enum m) ++ rest)) as Rd.
  cbn [app length] in Rd. unfold mbind, R_bind. rewrite Rd, E. by rewrite (proj2 (Z.ltb_lt _ _)) by lia.
Qed.

(** An array nested [n] deep takes [5 n + 1] bytes and is accepted whatever [n]:
    the decoder recurses once per level with no bound but the frame size. *)
Fixpoint nested_array (n : nat) : value :=
  match n with O => VNull | S n => VArray [nested_array n] end.

Lemma nested_array_accepted `{Chrono} `{MapOrderLaws} (n : nat) :
  reads r_value_top (w_value (nested_array n)) (nested_array n) ∧
  length (w_value (nested_array n)) = (5 * n + 1)%nat.
Proof.
  split.
  - apply reads_value_top. induction n as [|n IH]; [done|].
    cbn [nested_array value_okb forallb]. by rewrite IH.
  - induction n as [|n IH]; [done|]. cbn [nested_array w_value].
    rewrite !length_app, mjoin_fmap_cons, length_app, IH. unfold w_u8, w_u32.
    rewrite !length_le_bytes. cbn. lia.
Qed.
