(* ===== verification/Wal.v ===== *)
(** [blitz-wal/src/log.rs]: the write-ahead log. The file is its bytes, split into
    what has been synced and what has not; a crash keeps the synced part and any
    prefix of the rest. *)
From S2P Require Import Prelude Float Value Schema Codec.

Local Open Scope Z_scope.

(** ** Third-party code: [crc32fast] *)

Class Crc32 : Type := crc32 : list byte → Z.
Class Crc32Laws `{Crc32} : Prop := crc32_range l : is_uint 32 (crc32 l) = true.

(** ** Data *)

Inductive EntryType : Type := EInsert | EUpdate | EDelete | ECommit | ERollback.

#[export] Instance EntryType_eq_dec : EqDecision EntryType.
Proof. solve_decision. Defined.

(** [self as u8] *)
Definition entry_type_u8 (t : EntryType) : Z :=
  match t with EInsert => 1 | EUpdate => 2 | EDelete => 3 | ECommit => 4 | ERollback => 5 end.

Definition EntryType_from_u8 (v : Z) : option EntryType :=
  match v with
  | 1 => Some EInsert | 2 => Some EUpdate | 3 => Some EDelete | 4 => Some ECommit
  | 5 => Some ERollback | _ => None
  end.

Record WalEntry : Type := MkWalEntry {
  e_seq : Z;
  e_type : EntryType;
  e_table : string;
  e_row : Z;
  e_data : list byte
}.

#[export] Instance WalEntry_eq_dec : EqDecision WalEntry.
Proof. solve_decision. Defined.

(** What a [WalError::Corruption] message quotes; [UnexpectedEof] is the
    [io::Error] of that kind. Other input/output errors are not modelled. *)
Inductive wal_corruption : Type :=
| InvalidMagic
| InvalidTableName
| ChecksumMismatch (expected got : Z)
| InvalidEntryType (t : Z).

Inductive wal_error : Type :=
| UnexpectedEof
| Corruption (c : wal_corruption).

#[export] Instance wal_corruption_eq_dec : EqDecision wal_corruption.
Proof. solve_decision. Defined.
#[export] Instance wal_error_eq_dec : EqDecision wal_error.
Proof. solve_decision. Defined.

Definition WAL_MAGIC : Z := 0x424C4954.
Definition WAL_VERSION : Z := 1.
Definition WAL_HEADER_SIZE : Z := 16.
Definition ENTRY_HEADER_SIZE : Z := 4 + 8 + 1 + 4 + 8 + 4 + 4.
Definition MAX_WAL_SIZE : Z := 64 * 1024 * 1024.

(** ** Reading: [read_exact] on the rest of the file *)

Definition Rd (A : Type) : Type := list byte → result wal_error (A * list byte).
#[export] Instance Rd_ret : MRet Rd := λ A a l, Ok (a, l).
#[export] Instance Rd_bind : MBind Rd := λ A B f m l,
  match m l with Ok (a, l) => f a l | Err e => Err e end.

Definition rd_bytes (n : nat) : Rd (list byte) := λ l,
  if (length l <? n)%nat then Err UnexpectedEof else Ok (take n l, drop n l).
Definition rd_int (n : nat) : Rd Z := b ← rd_bytes n; mret (le_val b).
Definition rd_fail {A} (c : wal_corruption) : Rd A := λ _, Err (Corruption c).

(** ** [WalHeader] *)

Record WalHeader : Type := MkWalHeader { h_magic : Z; h_version : Z; h_seq : Z }.

Definition header_bytes (h : WalHeader) : list byte :=
  le_bytes 4 (h_magic h) ++ le_bytes 4 (h_version h) ++ le_bytes 8 (h_seq h).
Definition header_read : Rd WalHeader :=
  magic ← rd_int 4; version ← rd_int 4; seq ← rd_int 8; mret (MkWalHeader magic version seq).
Definition fresh_header : WalHeader := MkWalHeader WAL_MAGIC WAL_VERSION 0.

(** ** [WalEntryRaw] *)

Record WalEntryRaw : Type := MkRaw {
  raw_magic : Z;
  raw_seq : Z;
  raw_type : Z;
  raw_table : string;
  raw_row : Z;
  raw_data : list byte;
  raw_checksum : Z
}.

Section wal.
Context `{Crc32}.

Definition compute_checksum (seq ty : Z) (table : string) (row : Z) (data : list byte) : Z :=
  crc32 (le_bytes 8 seq ++ le_bytes 1 ty ++ str_bytes table ++ le_bytes 8 row ++ data).

Definition raw_from_entry (e : WalEntry) : WalEntryRaw :=
  let ty := entry_type_u8 (e_type e) in
  MkRaw WAL_MAGIC (e_seq e) ty (e_table e) (e_row e) (e_data e)
    (compute_checksum (e_seq e) ty (e_table e) (e_row e) (e_data e)).

Definition serialized_size (r : WalEntryRaw) : Z :=
  ENTRY_HEADER_SIZE + Z.of_nat (String.length (raw_table r)) + Z.of_nat (length (raw_data r)).

Definition raw_bytes (r : WalEntryRaw) : list byte :=
  le_bytes 4 (raw_magic r) ++ le_bytes 8 (raw_seq r) ++ le_bytes 1 (raw_type r) ++
  le_bytes 4 (len_u32 (String.length (raw_table r))) ++ str_bytes (raw_table r) ++
  le_bytes 8 (raw_row r) ++ le_bytes 4 (len_u32 (length (raw_data r))) ++ raw_data r ++
  le_bytes 4 (raw_checksum r).

Definition raw_read : Rd WalEntryRaw :=
  magic ← rd_int 4; seq ← rd_int 8; ty ← rd_int 1; table_len ← rd_int 4;
  tb ← rd_bytes (Z.to_nat table_len);
  table ← (if utf8_valid tb then mret (bytes_str tb) else rd_fail InvalidTableName);
  row ← rd_int 8; data_len ← rd_int 4; data ← rd_bytes (Z.to_nat data_len);
  checksum ← rd_int 4;
  let expected := compute_checksum seq ty table row data in
  if negb (checksum =? expected) then rd_fail (ChecksumMismatch expected checksum)
  else mret (MkRaw magic seq ty table row data checksum).

Definition to_entry (r : WalEntryRaw) : result wal_error WalEntry :=
  ty ← ok_or (EntryType_from_u8 (raw_type r)) (Corruption (InvalidEntryType (raw_type r)));
  Ok (MkWalEntry (raw_seq r) ty (raw_table r) (raw_row r) (raw_data r)).

Definition entry_bytes (e : WalEntry) : list byte := raw_bytes (raw_from_entry e).

(** ** [WriteAheadLog]: the file, the sequence counter and the size counter *)

Record Wal : Type := MkWal {
  wal_synced : list byte;
  wal_pending : list byte;
  next_sequence : Z;
  current_size : Z
}.

Definition wal_file (w : Wal) : list byte := wal_synced w ++ wal_pending w.

(** What a crash may leave of the file. *)
Definition crash (w : Wal) (n : nat) : list byte := wal_synced w ++ take n (wal_pending w).

(** The loop of [recover_sequence]; each entry read is at least one byte, so the
    length of the input is enough fuel. *)
Fixpoint recover_loop (fuel : nat) (l : list byte) (max_seq : Z) : result wal_error Z :=
  match fuel with
  | O => Ok max_seq
  | S fuel =>
      match raw_read l with
      | Ok (raw, l) => recover_loop fuel l (if max_seq <? raw_seq raw then raw_seq raw else max_seq)
      | Err UnexpectedEof => Ok max_seq
      | Err e => Err e
      end
  end.

Definition recover_sequence (file : list byte) : result wal_error Z :=
  match header_read file with
  | Err e => Err e
  | Ok (h, rest) =>
      if negb (h_magic h =? WAL_MAGIC) then Err (Corruption InvalidMagic) else
      (λ m, wrap 64 (m + 1)) <$> recover_loop (S (length rest)) rest 0
  end.

Definition open (file : list byte) : result wal_error Wal :=
  if Nat.eqb (length file) 0 then Ok (MkWal [] (header_bytes fresh_header) 1 WAL_HEADER_SIZE)
  else seq ← recover_sequence file; Ok (MkWal file [] seq (Z.of_nat (length file))).

Fixpoint read_loop (fuel : nat) (l : list byte) : result wal_error (list WalEntry) :=
  match fuel with
  | O => Ok []
  | S fuel =>
      match raw_read l with
      | Ok (raw, l) => e ← to_entry raw; es ← read_loop fuel l; Ok (e :: es)
      | Err UnexpectedEof => Ok []
      | Err e => Err e
      end
  end.

Definition read_all (file : list byte) : result wal_error (list WalEntry) :=
  match header_read file with
  | Err e => Err e
  | Ok (h, rest) =>
      if negb (h_magic h =? WAL_MAGIC) then Err (Corruption InvalidMagic)
      else read_loop (S (length rest)) rest
  end.

Definition sync (w : Wal) : Wal :=
  MkWal (wal_synced w ++ wal_pending w) [] (next_sequence w) (current_size w).

Definition stage (w : Wal) (e : WalEntry) (next : Z) : Wal :=
  MkWal (wal_synced w) (wal_pending w ++ entry_bytes e) next
    (current_size w + serialized_size (raw_from_entry e)).

Definition append_buffered (w : Wal) (ty : EntryType) (table : string) (row : Z) (data : list byte)
    : Z * Wal :=
  let seq := next_sequence w in
  (seq, stage w (MkWalEntry seq ty table row data) (wrap 64 (seq + 1))).

(** [append_entry], then [next_sequence += 1]: the shape of the five appends. *)
Definition append_synced (w : Wal) (ty : EntryType) (table : string) (row : Z) (data : list byte)
    : Z * Wal :=
  let seq := next_sequence w in
  (seq, sync (stage w (MkWalEntry seq ty table row data) (wrap 64 (seq + 1)))).
Definition append_insert (w : Wal) (table : string) (row : Z) (data : list byte) : Z * Wal :=
  append_synced w EInsert table row data.
Definition append_update (w : Wal) (table : string) (row : Z) (data : list byte) : Z * Wal :=
  append_synced w EUpdate table row data.
Definition append_delete (w : Wal) (table : string) (row : Z) : Z * Wal :=
  append_synced w EDelete table row [].
Definition append_commit (w : Wal) (tx_id : Z) : Z * Wal := append_synced w ECommit "" tx_id [].
Definition append_rollback (w : Wal) (tx_id : Z) : Z * Wal := append_synced w ERollback "" tx_id [].

Definition truncate (w : Wal) : Wal :=
  MkWal [] (header_bytes fresh_header) (next_sequence w) WAL_HEADER_SIZE.

Definition needs_rotation (w : Wal) : bool := MAX_WAL_SIZE <=? current_size w.
End wal.

(** ** Parsing what was written, and cut-off input *)

(** [p] reads [bs] and returns [a]; on a strict prefix of [bs] it hits the end of
    the file. *)
Definition parses {A} (p : Rd A) (bs : list byte) (a : A) : Prop :=
  (∀ rest, p (bs ++ rest) = Ok (a, rest)) ∧
  (∀ n, (n < length bs)%nat → p (take n bs) = Err UnexpectedEof).

Lemma parses_ret {A} (a : A) : parses (mret a) [] a.
Proof. split; [done|]. simpl. lia. Qed.

Lemma parses_bind {A B} (p : Rd A) (q : A → Rd B) b1 b2 a c :
  parses p b1 a → parses (q a) b2 c → parses (p ≫= q) (b1 ++ b2) c.
Proof.
  intros [P1 P2] [Q1 Q2]. split.
  - intros rest. unfold mbind, Rd_bind. by rewrite <- app_assoc, P1.
  - intros n Hn. rewrite length_app in Hn. unfold mbind, Rd_bind.
    destruct (decide (n < length b1)%nat).
    + rewrite take_app_le by lia. by rewrite P2.
    + rewrite take_app_ge by lia. rewrite P1. apply Q2. lia.
Qed.

Lemma parses_bind_ret {A B} (p : Rd A) (q : A → Rd B) bs a c :
  parses p bs a → parses (q a) [] c → parses (p ≫= q) bs c.
Proof. intros. rewrite <- (app_nil_r bs). by eapply parses_bind. Qed.

Lemma parses_bytes bs n : length bs = n → parses (rd_bytes n) bs bs.
Proof.
  intros <-. unfold rd_bytes. split.
  - intros rest. rewrite (proj2 (Nat.ltb_ge _ _)) by (rewrite length_app; lia).
    by rewrite take_app_length, drop_app_length.
  - intros n Hn. rewrite (proj2 (Nat.ltb_lt _ _)); [done|]. rewrite length_take. lia.
Qed.

Lemma parses_int n z : 0 <= z < 256 ^ Z.of_nat n → parses (rd_int n) (le_bytes n z) z.
Proof.
  intros Hz. unfold rd_int. rewrite <- (Z.mod_small z (256 ^ Z.of_nat n)) at 2 by done.
  rewrite <- le_val_le_bytes.
  eapply parses_bind_ret; [by apply parses_bytes, length_le_bytes|apply parses_ret].
Qed.

Lemma parses_uint n w z :
  w = 8 * Z.of_nat n → is_uint w z = true → parses (rd_int n) (le_bytes n z) z.
Proof.
  intros -> Hz%is_uint_spec. apply parses_int. rewrite Z.pow_mul_r in Hz by lia. done.
Qed.

Lemma parses_header h :
  is_uint 32 (h_magic h) = true → is_uint 32 (h_version h) = true → is_uint 64 (h_seq h) = true →
  parses header_read (header_bytes h) h.
Proof.
  destruct h as [m v s]. cbn [h_magic h_version h_seq]. intros. unfold header_read, header_bytes.
  cbn [h_magic h_version h_seq].
  eapply parses_bind; [by apply (parses_uint 4 32)|].
  eapply parses_bind; [by apply (parses_uint 4 32)|].
  eapply parses_bind_ret; [by apply (parses_uint 8 64)|]. apply parses_ret.
Qed.

(** An entry whose numbers and lengths fit their fields. *)
Definition entry_okb (e : WalEntry) : bool :=
  is_uint 64 (e_seq e) && str_okb (e_table e) && is_uint 64 (e_row e) &&
  (Z.of_nat (length (e_data e)) <? 2 ^ 32).

Section facts.
Context `{Crc32Laws}.

Lemma parses_raw e :
  entry_okb e = true → parses raw_read (entry_bytes e) (raw_from_entry e).
Proof.
  destruct e as [seq ty table row data]. unfold entry_okb. cbn [e_seq e_table e_row e_data].
  rewrite !andb_true_iff, Z.ltb_lt. intros [[[O1 O2] O3] O4]. pose proof O2 as O2'.
  unfold str_okb in O2'. apply andb_true_iff in O2' as [U L%Z.ltb_lt].
  destruct (len_u32_small _ L) as [El Il]. destruct (len_u32_small _ O4) as [Ed Id].
  unfold entry_bytes, raw_bytes, raw_from_entry, raw_read.
  cbn [raw_magic raw_seq raw_type raw_table raw_row raw_data raw_checksum
       e_seq e_type e_table e_row e_data].
  eapply parses_bind; [by apply (parses_uint 4 32)|].
  eapply parses_bind; [by apply (parses_uint 8 64)|].
  eapply parses_bind; [apply (parses_uint 1 8); [done|by destruct ty]|].
  eapply parses_bind; [by apply (parses_uint 4 32)|].
  rewrite El, Nat2Z.id. eapply parses_bind; [apply parses_bytes, length_str_bytes|].
  rewrite U, bytes_str_bytes. rewrite <- (app_nil_l (le_bytes 8 row ++ _)).
  eapply parses_bind; [apply parses_ret|].
  eapply parses_bind; [by apply (parses_uint 8 64)|].
  eapply parses_bind; [by apply (parses_uint 4 32)|].
  rewrite Ed, Nat2Z.id. eapply parses_bind; [by apply parses_bytes|].
  eapply parses_bind_ret; [apply (parses_uint 4 32); [done|apply crc32_range]|].
  cbv zeta. rewrite Z.eqb_refl. apply parses_ret.
Qed.

Lemma to_entry_raw e : to_entry (raw_from_entry e) = Ok e.
Proof. by destruct e as [? [] ? ? ?]. Qed.

Lemma entry_bytes_pos e : (0 < length (entry_bytes e))%nat.
Proof. unfold entry_bytes, raw_bytes. rewrite length_app, length_le_bytes. lia. Qed.

(** Reading a sequence of entries followed by a strict prefix of another. *)
Lemma read_loop_prefix es : ∀ fuel tail,
  Forall (λ e, entry_okb e = true) es →
  raw_read tail = Err UnexpectedEof → (length es < fuel)%nat →
  read_loop fuel (mjoin (entry_bytes <$> es) ++ tail) = Ok es.
Proof.
  induction es as [|e es IH]; intros [|fuel] tail F T Hf; simpl in Hf; try lia.
  - cbn [read_loop fmap list_fmap mjoin list_join app]. by rewrite T.
  - apply Forall_cons in F as [Fe F]. rewrite mjoin_fmap_cons, <- app_assoc. cbn [read_loop].
    destruct (parses_raw e Fe) as [P _]. rewrite P, to_entry_raw.
    rewrite IH by (done || lia). done.
Qed.

Lemma recover_loop_prefix es : ∀ fuel tail m,
  Forall (λ e, entry_okb e = true) es →
  raw_read tail = Err UnexpectedEof → (length es < fuel)%nat →
  recover_loop fuel (mjoin (entry_bytes <$> es) ++ tail) m = Ok (foldl (λ m e, Z.max m (e_seq e)) m es).
Proof.
  induction es as [|e es IH]; intros [|fuel] tail m F T Hf; simpl in Hf; try lia.
  - cbn [recover_loop fmap list_fmap mjoin list_join app]. by rewrite T.
  - apply Forall_cons in F as [Fe F]. rewrite mjoin_fmap_cons, <- app_assoc. cbn [recover_loop].
    destruct (parses_raw e Fe) as [P _]. rewrite P. rewrite IH by (done || lia).
    cbn [foldl raw_seq raw_from_entry]. f_equal. f_equal.
    destruct (Z.ltb_spec m (e_seq e)); lia.
Qed.

Lemma raw_read_nil : raw_read [] = Err UnexpectedEof.
Proof. done. Qed.

(** Cutting a sequence of entries anywhere leaves a prefix of them and a piece
    that reads as end of file. *)
Lemma cut_entries es : ∀ n,
  Forall (λ e, entry_okb e = true) es →
  ∃ k tail, take n (mjoin (entry_bytes <$> es)) = mjoin (entry_bytes <$> take k es) ++ tail ∧
    raw_read tail = Err UnexpectedEof.
Proof.
  induction es as [|e es IH]; intros n F.
  - exists 0%nat, []. split; [|done]. cbn. by rewrite take_nil.
  - apply Forall_cons in F as [Fe F]. rewrite mjoin_fmap_cons.
    destruct (decide (n < length (entry_bytes e))%nat) as [L|L].
    + exists 0%nat, (take n (entry_bytes e)). rewrite take_app_le by lia. split; [done|].
      by apply parses_raw.
    + rewrite take_app_ge by lia. destruct (IH (n - length (entry_bytes e))%nat F) as (k & tail & E & T).
      exists (S k), tail. split; [|done]. rewrite E. cbn [take].
      by rewrite mjoin_fmap_cons, app_assoc.
Qed.

Lemma length_mjoin_entries es : (length es <= length (mjoin (entry_bytes <$> es)))%nat.
Proof.
  induction es as [|e es IH]; [simpl; lia|]. rewrite mjoin_fmap_cons, length_app.
  pose proof (entry_bytes_pos e). simpl. lia.
Qed.
End facts.

(** ** The contract: what is durable, what is buffered, the next number *)

Record alog : Type := MkLog { durable : list WalEntry; buffered : list WalEntry; next_seq : Z }.

(** The mutating calls; [open] of a missing file starts the run. *)
Inductive wal_op : Type :=
| OpBuffered (ty : EntryType) (table : string) (row : Z) (data : list byte)
| OpInsert (table : string) (row : Z) (data : list byte)
| OpUpdate (table : string) (row : Z) (data : list byte)
| OpDelete (table : string) (row : Z)
| OpCommit (tx_id : Z)
| OpRollback (tx_id : Z)
| OpSync
| OpTruncate.

Definition op_entry (o : wal_op) (seq : Z) : option WalEntry :=
  match o with
  | OpBuffered ty t r d => Some (MkWalEntry seq ty t r d)
  | OpInsert t r d => Some (MkWalEntry seq EInsert t r d)
  | OpUpdate t r d => Some (MkWalEntry seq EUpdate t r d)
  | OpDelete t r => Some (MkWalEntry seq EDelete t r [])
  | OpCommit tx => Some (MkWalEntry seq ECommit "" tx [])
  | OpRollback tx => Some (MkWalEntry seq ERollback "" tx [])
  | OpSync | OpTruncate => None
  end.

Definition alog_step (a : alog) (o : wal_op) : alog :=
  match op_entry o (next_seq a) with
  | Some e =>
      let next := wrap 64 (next_seq a + 1) in
      match o with
      | OpBuffered _ _ _ _ => MkLog (durable a) (buffered a ++ [e]) next
      | _ => MkLog (durable a ++ buffered a ++ [e]) [] next
      end
  | None =>
      match o with
      | OpTruncate => MkLog [] [] (next_seq a)
      | _ => MkLog (durable a ++ buffered a) [] (next_seq a)
      end
  end.

Definition wal_step `{Crc32} (w : Wal) (o : wal_op) : Wal :=
  match o with
  | OpBuffered ty t r d => snd (append_buffered w ty t r d)
  | OpInsert t r d => snd (append_insert w t r d)
  | OpUpdate t r d => snd (append_update w t r d)
  | OpDelete t r => snd (append_delete w t r)
  | OpCommit tx => snd (append_commit w tx)
  | OpRollback tx => snd (append_rollback w tx)
  | OpSync => sync w
  | OpTruncate => truncate w
  end.

(** The arguments fit their Rust types and their length fields. *)
Definition op_okb (o : wal_op) : bool := from_option entry_okb true (op_entry o 0).

Definition new_wal : Wal := MkWal [] (header_bytes fresh_header) 1 WAL_HEADER_SIZE.
Definition new_log : alog := MkLog [] [] 1.
Definition wal_run `{Crc32} (ops : list wal_op) : Wal := foldl wal_step new_wal ops.
Definition alog_run (ops : list wal_op) : alog := foldl alog_step new_log ops.

Definition all_ok (es : list WalEntry) : Prop := Forall (λ e, entry_okb e = true) es.

(** The bytes of the file against the two lists: until the first sync the header
    is buffered as well. *)
Record holds `{Crc32} (w : Wal) (a : alog) : Prop := {
  holds_bytes :
    (wal_synced w = [] ∧ durable a = [] ∧
       wal_pending w = header_bytes fresh_header ++ mjoin (entry_bytes <$> buffered a)) ∨
    (wal_synced w = header_bytes fresh_header ++ mjoin (entry_bytes <$> durable a) ∧
       wal_pending w = mjoin (entry_bytes <$> buffered a));
  holds_next : next_sequence w = next_seq a;
  holds_next_uint : is_uint 64 (next_seq a) = true;
  holds_ok : all_ok (durable a) ∧ all_ok (buffered a);
  holds_size : current_size w = Z.of_nat (length (wal_file w))
}.

Section refines.
Context `{Crc32Laws}.

Lemma length_entry_bytes e :
  Z.of_nat (length (entry_bytes e)) = serialized_size (raw_from_entry e).
Proof.
  unfold entry_bytes, serialized_size, raw_bytes, ENTRY_HEADER_SIZE.
  rewrite !length_app, !length_le_bytes, length_str_bytes. lia.
Qed.

Lemma mjoin_entries_app es fs :
  mjoin (entry_bytes <$> (es ++ fs)) = mjoin (entry_bytes <$> es) ++ mjoin (entry_bytes <$> fs).
Proof. by rewrite fmap_app, join_app. Qed.

Lemma mjoin_entries_one e : mjoin (entry_bytes <$> [e]) = entry_bytes e.
Proof. apply app_nil_r. Qed.

Lemma wrap_uint n : is_uint 64 (wrap 64 n) = true.
Proof. apply is_uint_spec. by apply wrap_range. Qed.

Lemma holds_new : holds new_wal new_log.
Proof. split; try done; [by left|by split; constructor]. Qed.

(** The three primitive changes of the file. *)
Lemma holds_stage w a e next :
  holds w a → entry_okb e = true → is_uint 64 next = true →
  holds (stage w e next) (MkLog (durable a) (buffered a ++ [e]) next).
Proof.
  intros [HB HN HU [HD HF] HS] He Hn. split; try done.
  - cbn [wal_synced wal_pending stage durable buffered]. rewrite mjoin_entries_app, mjoin_entries_one.
    destruct HB as [(E1 & E2 & ->)|(E1 & ->)]; [left|right]; rewrite ?app_assoc; done.
  - split; [done|]. apply Forall_app_2; [done|]. by apply Forall_singleton.
  - cbn [current_size stage wal_file wal_synced wal_pending]. rewrite HS, <- length_entry_bytes.
    unfold wal_file. cbn [wal_synced wal_pending stage]. rewrite !length_app. lia.
Qed.

Lemma holds_sync w a : holds w a → holds (sync w) (MkLog (durable a ++ buffered a) [] (next_seq a)).
Proof.
  intros [HB HN HU [HD HF] HS]. split; try done.
  - right. cbn [wal_synced wal_pending sync durable buffered]. rewrite mjoin_entries_app.
    destruct HB as [(-> & -> & ->)|(-> & ->)]; rewrite ?app_assoc; done.
  - split; [by apply Forall_app_2|constructor].
  - unfold wal_file in *. cbn [current_size sync wal_synced wal_pending]. by rewrite app_nil_r.
Qed.

Lemma holds_truncate w a : holds w a → holds (truncate w) (MkLog [] [] (next_seq a)).
Proof. intros [HB HN HU HF HS]. split; try done; [by left|by split; constructor]. Qed.

Lemma op_okb_entry o e n :
  op_okb o = true → op_entry o n = Some e → is_uint 64 n = true → entry_okb e = true.
Proof.
  unfold op_okb, entry_okb. destruct o; cbn [op_entry from_option]; intros O [= <-] Hn; revert O;
    cbn [e_seq e_table e_row e_data]; rewrite Hn; done.
Qed.

Lemma holds_step w a o : op_okb o = true → holds w a → holds (wal_step w o) (alog_step a o).
Proof.
  intros O Ha. pose proof (holds_next _ _ Ha) as Hn. pose proof (holds_next_uint _ _ Ha) as Hu.
  assert (Hs : ∀ e, op_entry o (next_seq a) = Some e →
    holds (stage w e (wrap 64 (next_seq a + 1)))
      (MkLog (durable a) (buffered a ++ [e]) (wrap 64 (next_seq a + 1)))).
  { intros e He. apply holds_stage; [done|by eapply op_okb_entry|apply wrap_uint]. }
  destruct o; cbn [wal_step alog_step op_entry] in *;
    rewrite <- ?Hn; try (rewrite <- Hn in Hs);
    solve [ apply holds_sync in Hs as Hs'; exact Hs' | exact (Hs _ eq_refl)
          | exact (holds_sync _ _ (Hs _ eq_refl)) | rewrite Hn; by apply holds_sync
          | rewrite Hn; by apply holds_truncate ].
Qed.

Lemma holds_run_from ops : ∀ w a,
  Forall (λ o, op_okb o = true) ops → holds w a →
  holds (foldl wal_step w ops) (foldl alog_step a ops).
Proof.
  induction ops as [|o ops IH]; intros w a F Ha; [done|]. apply Forall_cons in F as [O F].
  cbn [foldl]. apply IH; [done|]. by apply holds_step.
Qed.

Lemma holds_run ops :
  Forall (λ o, op_okb o = true) ops → holds (wal_run ops) (alog_run ops).
Proof. intros. apply holds_run_from; [done|apply holds_new]. Qed.
End refines.

(** ** Reading back *)

Definition max_seq (es : list WalEntry) : Z := foldl (λ m e, Z.max m (e_seq e)) 0 es.

Section readback.
Context `{Crc32Laws}.

Lemma read_header rest : header_read (header_bytes fresh_header ++ rest) = Ok (fresh_header, rest).
Proof. by apply parses_header. Qed.

Definition log_bytes (es : list WalEntry) (tail : list byte) : list byte :=
  header_bytes fresh_header ++ mjoin (entry_bytes <$> es) ++ tail.

Lemma log_fuel es tail : (length es < S (length (mjoin (entry_bytes <$> es) ++ tail)))%nat.
Proof. rewrite length_app. pose proof (length_mjoin_entries es). lia. Qed.

Lemma read_all_log es tail :
  all_ok es → raw_read tail = Err UnexpectedEof → read_all (log_bytes es tail) = Ok es.
Proof.
  intros F T. unfold read_all, log_bytes. rewrite read_header. cbn [h_magic fresh_header].
  rewrite Z.eqb_refl. cbn [negb]. apply read_loop_prefix; [done|done|apply log_fuel].
Qed.

Lemma open_log es tail :
  all_ok es → raw_read tail = Err UnexpectedEof →
  open (log_bytes es tail) =
    Ok (MkWal (log_bytes es tail) [] (wrap 64 (max_seq es + 1))
          (Z.of_nat (length (log_bytes es tail)))).
Proof.
  intros F T. unfold open. replace (length (log_bytes es tail) =? 0)%nat with false.
  2: { symmetry. apply Nat.eqb_neq. unfold log_bytes. rewrite length_app. simpl. lia. }
  unfold recover_sequence.
  assert (header_read (log_bytes es tail) = Ok (fresh_header, mjoin (entry_bytes <$> es) ++ tail))
    as -> by apply read_header. cbn [h_magic fresh_header].
  rewrite Z.eqb_refl. cbn [negb]. rewrite recover_loop_prefix by (done || apply log_fuel). done.
Qed.

Lemma crash_shape w a n :
  holds w a → (16 <= length (crash w n))%nat →
  ∃ k tail, crash w n = log_bytes (durable a ++ take k (buffered a)) tail ∧
    raw_read tail = Err UnexpectedEof.
Proof.
  intros [HB HN HU [HD HF] HS] Hn. unfold crash in *. unfold log_bytes.
  destruct HB as [(E1 & E2 & Ep)|(E1 & Ep)]; rewrite E1, Ep in *.
  - rewrite E2. cbn [app] in *. rewrite length_take, length_app in Hn.
    change (length (header_bytes fresh_header)) with 16%nat in Hn.
    destruct (cut_entries (buffered a) (n - 16) HF) as (k & tail & E & T). exists k, tail.
    rewrite take_app_ge by (change (length (header_bytes fresh_header)) with 16%nat; lia).
    change (length (header_bytes fresh_header)) with 16%nat. by rewrite E.
  - destruct (cut_entries (buffered a) n HF) as (k & tail & E & T). exists k, tail.
    by rewrite E, mjoin_entries_app, !app_assoc.
Qed.

Lemma wal_file_crash w : wal_file w = crash w (length (wal_pending w)).
Proof. unfold wal_file, crash. by rewrite take_ge. Qed.

Lemma wal_file_shape w a :
  holds w a → wal_file w = log_bytes (durable a ++ buffered a) [].
Proof.
  intros [HB HN HU [HD HF] HS]. unfold wal_file, log_bytes.
  rewrite mjoin_entries_app, app_nil_r.
  destruct HB as [(-> & -> & ->)|(-> & ->)]; by rewrite ?app_assoc.
Qed.

(** Enough fuel: what is read is strictly shorter than what it was read from. *)
Definition shrinks {A} (k : nat) (p : Rd A) : Prop :=
  ∀ l a l', p l = Ok (a, l') → (length l' + k <= length l)%nat.

Lemma shrinks_bind {A B} j k (p : Rd A) (q : A → Rd B) :
  shrinks j p → (∀ a, shrinks k (q a)) → shrinks (j + k) (p ≫= q).
Proof.
  intros P Q l b l'. unfold mbind, Rd_bind. destruct (p l) as [[a l1]|] eqn:E; [|done].
  intros Hq%Q. apply P in E. lia.
Qed.

Lemma shrinks_any {A} k (p : Rd A) : shrinks k p → shrinks 0 p.
Proof. intros P l a l' E%P. lia. Qed.

Lemma shrinks_bytes n : shrinks n (rd_bytes n).
Proof.
  intros l a l'. unfold rd_bytes. destruct (Nat.ltb_spec (length l) n); [done|].
  intros [= <- <-]. rewrite length_drop. lia.
Qed.

Lemma shrinks_ret {A} (a : A) : shrinks 0 (mret a).
Proof. intros l b l' [= <- <-]. lia. Qed.

Lemma shrinks_int n : shrinks n (rd_int n).
Proof.
  unfold rd_int. rewrite <- (Nat.add_0_r n) at 1.
  apply shrinks_bind; [apply shrinks_bytes|intros; apply shrinks_ret].
Qed.

Lemma shrinks_raw : shrinks 1 raw_read.
Proof.
  unfold raw_read. change 1%nat with (1 + 0)%nat.
  apply shrinks_bind; [intros l a l' E%shrinks_int; lia|intros].
  repeat first
    [ apply (shrinks_bind 0 0); [|intros]
    | apply (shrinks_any 4), shrinks_int | apply (shrinks_any 8), shrinks_int
    | apply (shrinks_any 1), shrinks_int | eapply shrinks_any, shrinks_bytes
    | progress cbv zeta | case_match | apply shrinks_ret | (intros ? ? ? [=]; fail) ].
Qed.

(** [recover_sequence] and [read_all] walk the file in the same way. *)
Lemma loops_agree fuel : ∀ l m es,
  read_loop fuel l = Ok es → recover_loop fuel l m = Ok (foldl (λ m e, Z.max m (e_seq e)) m es).
Proof.
  induction fuel as [|fuel IH]; intros l m es; [by intros [= <-]|].
  cbn [read_loop recover_loop]. destruct (raw_read l) as [[raw l']|[|c]]; [|by intros [= <-]|done].
  unfold to_entry. destruct (EntryType_from_u8 (raw_type raw)) as [ty|]; [|done].
  unfold mbind, result_bind. cbn [ok_or]. destruct (read_loop fuel l') as [fs|] eqn:E; [|done].
  intros [= <-]. cbn [foldl e_seq]. rewrite (IH _ _ _ E). f_equal. f_equal.
  destruct (Z.ltb_spec m (raw_seq raw)); lia.
Qed.

Lemma read_loop_fuel f1 : ∀ f2 l,
  (length l < f1)%nat → (length l < f2)%nat → read_loop f1 l = read_loop f2 l.
Proof.
  induction f1 as [|f1 IH]; intros [|f2] l H1 H2; try lia. cbn [read_loop].
  destruct (raw_read l) as [[raw l']|] eqn:E; [|done]. apply shrinks_raw in E.
  by rewrite (IH f2 l') by lia.
Qed.
End readback.

(** ** Numbering *)

Section numbering.
Context `{Crc32Laws}.

Definition no_truncate (o : wal_op) : bool := if o is OpTruncate then false else true.

(** Without a truncation the entries are numbered 1, 2, 3, ... *)
Definition numbered (a : alog) : Prop :=
  e_seq <$> (durable a ++ buffered a) = seqZ 1 (next_seq a - 1) ∧ 1 <= next_seq a.

Lemma op_entry_seq o n e : op_entry o n = Some e → e_seq e = n.
Proof. by destruct o; intros [= <-]. Qed.

Lemma numbered_step a o :
  no_truncate o = true → numbered a → next_seq a + 1 < 2 ^ 64 →
  numbered (alog_step a o) ∧ next_seq (alog_step a o) <= next_seq a + 1.
Proof.
  intros T [Hs Hn] Hlt. unfold alog_step, numbered.
  destruct (op_entry o (next_seq a)) as [e|] eqn:E.
  - apply op_entry_seq in E. rewrite wrap_small by lia.
    assert (Hs' : e_seq <$> (durable a ++ buffered a ++ [e]) = seqZ 1 (next_seq a + 1 - 1)).
    { rewrite app_assoc, fmap_app, Hs. cbn [fmap list_fmap]. rewrite E.
      replace (next_seq a + 1 - 1) with (next_seq a - 1 + 1) by lia.
      rewrite seqZ_app by lia. f_equal. replace (1 + (next_seq a - 1)) with (next_seq a) by lia.
      done. }
    destruct o; cbn [durable buffered next_seq]; rewrite ?app_nil_r; (split; [split; [done|lia]|lia]).
  - destruct o; try done; cbn [durable buffered next_seq]; rewrite ?app_nil_r; (split; [split; [done|lia]|lia]).
Qed.

Lemma numbered_run_from ops : ∀ a,
  Forall (λ o, no_truncate o = true) ops → numbered a →
  next_seq a + Z.of_nat (length ops) < 2 ^ 64 →
  numbered (foldl alog_step a ops) ∧ next_seq (foldl alog_step a ops) < 2 ^ 64.
Proof.
  induction ops as [|o ops IH]; intros a F N L; cbn [length] in L; [split; [done|simpl; lia]|].
  apply Forall_cons in F as [T F]. cbn [foldl].
  destruct (numbered_step a o T N) as [N' Hn]; [lia|]. apply IH; [done|done|lia].
Qed.

Lemma foldl_max_ge es m : m <= foldl (λ m e, Z.max m (e_seq e)) m es.
Proof.
  revert m. induction es as [|e es IH]; intros m; simpl; [lia|].
  specialize (IH (Z.max m (e_seq e))). lia.
Qed.

Lemma max_seq_numbered es : ∀ n,
  0 <= n → e_seq <$> es = seqZ 1 n → max_seq es = n.
Proof.
  induction es as [|e es IH] using rev_ind; intros n Hn Hs.
  - destruct (decide (n = 0)) as [->|]; [done|].
    apply (f_equal length) in Hs. rewrite length_seqZ in Hs. simpl in Hs. lia.
  - rewrite fmap_app in Hs. pose proof (f_equal length Hs) as Hl.
    rewrite length_app, length_seqZ, length_fmap in Hl. simpl in Hl.
    replace n with (n - 1 + 1) in Hs by lia. rewrite seqZ_app in Hs by lia.
    apply app_inj_tail in Hs as [Hs He]. replace (1 + (n - 1)) with n in He by lia.
    unfold max_seq in *. rewrite foldl_app, (IH (n - 1)) by (done || lia). simpl. lia.
Qed.

Lemma numbered_prefix a k :
  numbered a →
  e_seq <$> (durable a ++ take k (buffered a)) =
    seqZ 1 (Z.of_nat (length (durable a ++ take k (buffered a)))) ∧
  Z.of_nat (length (durable a ++ take k (buffered a))) < next_seq a.
Proof.
  intros [Hs Hn]. set (es := durable a ++ take k (buffered a)).
  assert (P : es `prefix_of` durable a ++ buffered a).
  { apply prefix_app. eexists. symmetry. apply take_drop. }
  destruct P as [fs P]. rewrite P in Hs.
  pose proof (f_equal length Hs) as Hl. rewrite length_seqZ, length_fmap, length_app in Hl.
  split; [|lia].
  replace (next_seq a - 1) with (Z.of_nat (length es) + Z.of_nat (length fs)) in Hs by lia.
  rewrite fmap_app, seqZ_app in Hs by lia.
  apply app_inj_1 in Hs as [Hs _]; [done|]. rewrite length_fmap, length_seqZ. lia.
Qed.
End numbering.

(** ** CRC-32 (IEEE, reflected), the function of [crc32fast] *)

Definition crc_bit (c : Z) : Z :=
  if Z.odd c then Z.lxor (Z.shiftr c 1) 0xEDB88320 else Z.shiftr c 1.
Definition crc_byte (c : Z) (b : byte) : Z :=
  Nat.iter 8 crc_bit (Z.lxor c (Z.of_N (Byte.to_N b))).
Definition demo_crc32 : Crc32 :=
  λ l, wrap 32 (Z.lxor (foldl crc_byte 0xFFFFFFFF l) 0xFFFFFFFF).

Lemma demo_crc32_laws : @Crc32Laws demo_crc32.
Proof. intros l. apply is_uint_spec. by apply wrap_range. Qed.

Example crc32_check_value :
  demo_crc32 (str_bytes "123456789") = 0xCBF43926.
Proof. vm_compute. reflexivity. Qed.

(** ** Properties *)

(** Reading the file of a log back returns exactly the entries appended since
    the last truncation, in order and with their sequence numbers; the size and
    sequence counters are those of the contract. *)
Theorem log_readback `{Crc32Laws} (ops : list wal_op)
    (OK : Forall (λ o, op_okb o = true) ops) :
  let w := wal_run ops in
  let a := alog_run ops in
  read_all (wal_file w) = Ok (durable a ++ buffered a) ∧
  next_sequence w = next_seq a ∧
  current_size w = Z.of_nat (length (wal_file w)).
Proof.
  cbv zeta. pose proof (holds_run ops OK) as Ha. split; [|by destruct Ha].
  rewrite (wal_file_shape _ _ Ha). destruct (holds_ok _ _ Ha) as [HD HF].
  apply read_all_log; [by apply Forall_app_2|done].
Qed.

(** A cut inside the header: nothing was synced yet, and the file reads as cut off. *)
Lemma crash_in_header `{Crc32Laws} w a n : holds w a → (length (crash w n) < 16)%nat →
  durable a = [] ∧ header_read (crash w n) = Err UnexpectedEof.
Proof.
  intros [HB _ _ _ _] L. unfold crash in *. destruct HB as [(E1 & E2 & Ep)|(E1 & Ep)]; rewrite E1 in *.
  - split; [done|]. rewrite Ep in *. cbn [app] in *.
    assert (n < 16)%nat as Hn.
    { rewrite length_take, length_app in L. change (length (header_bytes fresh_header)) with 16%nat in L. lia. }
    rewrite take_app_le by (change (length (header_bytes fresh_header)) with 16%nat; lia).
    apply (proj2 (parses_header fresh_header eq_refl eq_refl eq_refl)). exact Hn.
  - rewrite !length_app in L. change (length (header_bytes fresh_header)) with 16%nat in L. lia.
Qed.

(** C8: A crash keeps what was synced, wherever it cuts the unsynced part. When the file
    keeps its 16-byte header, recovery reads it without error and finds every synced
    entry, then the first few of the buffered ones, each whole: never a gap, a reordering
    or a torn entry. When the cut is inside the header, nothing had been synced - there is
    no synced entry to lose - and an empty file opens as a new log, while one of 1 to 15
    bytes can be neither read nor opened. *)
Theorem crash_keeps_synced `{Crc32Laws} (ops : list wal_op) (n : nat)
    (OK : Forall (λ o, op_okb o = true) ops) :
  let file := crash (wal_run ops) n in
  ((16 <= length file)%nat → ∃ k, read_all file = Ok (durable (alog_run ops) ++ take k (buffered (alog_run ops)))) ∧
  ((length file < 16)%nat → durable (alog_run ops) = [] ∧ read_all file = Err UnexpectedEof ∧
     open file = if Nat.eqb (length file) 0 then Ok new_wal else Err UnexpectedEof).
Proof.
  cbv zeta. pose proof (holds_run ops OK) as Ha. destruct (holds_ok _ _ Ha) as [HD HF]. split; intros Hlen.
  - destruct (crash_shape _ _ n Ha Hlen) as (k & tail & -> & T). exists k.
    apply read_all_log; [|done]. apply Forall_app_2; [done|by apply Forall_take].
  - destruct (crash_in_header _ _ n Ha Hlen) as [D R]. split; [done|]. unfold read_all, open, recover_sequence. rewrite R.
    split; [done|]. by destruct (Nat.eqb _ 0).
Qed.

(** Reopening after a crash continues the numbering: as long as the log was
    never truncated, the survivors are numbered 1 to m, the reopened log hands
    out m + 1 next, and that is never beyond the number the crashed log would
    have used. *)
Theorem reopen_resumes `{Crc32Laws} (ops : list wal_op) (n : nat)
    (OK : Forall (λ o, op_okb o = true) ops)
    (NT : Forall (λ o, no_truncate o = true) ops)
    (Hops : Z.of_nat (length ops) < 2 ^ 64 - 1)
    (Hlen : (16 <= length (crash (wal_run ops) n))%nat) :
  ∃ es w, read_all (crash (wal_run ops) n) = Ok es ∧ open (crash (wal_run ops) n) = Ok w ∧
    e_seq <$> es = seqZ 1 (Z.of_nat (length es)) ∧
    next_sequence w = Z.of_nat (length es) + 1 ∧
    next_sequence w <= next_sequence (wal_run ops).
Proof.
  pose proof (holds_run ops OK) as Ha. destruct (holds_ok _ _ Ha) as [HD HF].
  destruct (numbered_run_from ops new_log NT) as [HN HL]; [by split|simpl; lia|].
  change (foldl alog_step new_log ops) with (alog_run ops) in *.
  destruct (crash_shape _ _ n Ha Hlen) as (k & tail & -> & T).
  assert (F : all_ok (durable (alog_run ops) ++ take k (buffered (alog_run ops))))
    by (apply Forall_app_2; [done|by apply Forall_take]).
  destruct (numbered_prefix _ k HN) as [Hs Hlt].
  eexists _, _. split; [by apply read_all_log|]. split; [by apply open_log|].
  split; [done|]. cbn [next_sequence]. rewrite (max_seq_numbered _ _ (Zle_0_nat _) Hs).
  rewrite (holds_next _ _ Ha), wrap_small by lia. lia.
Qed.

(** On any file whatever, a log that can be read can be opened: [open] then
    continues after the largest sequence number [read_all] returns, and changes
    no byte. *)
Lemma readable_log_opens `{Crc32Laws} (file : list byte) (es : list WalEntry)
    (HR : read_all file = Ok es) :
  ∃ w, open file = Ok w ∧ wal_file w = file ∧ next_sequence w = wrap 64 (max_seq es + 1).
Proof.
  unfold read_all in HR. unfold open, recover_sequence.
  destruct (Nat.eqb_spec (length file) 0) as [E|_]; [by apply nil_length_inv in E as ->|].
  destruct (header_read file) as [[h rest]|]; [|done]. destruct (negb _); [done|].
  rewrite (loops_agree _ _ 0 _ HR). eexists. split; [done|]. split; [apply app_nil_r|done].
Qed.

(** ** Witnesses and concrete runs *)

Definition demo_ops : list wal_op :=
  [OpInsert "users" 1 (str_bytes "hello"); OpBuffered EUpdate "users" 1 (str_bytes "bye"); OpDelete "t" 7;
   OpBuffered ECommit "" 3 []].

Lemma log_readback_witness :
  read_all (H := demo_crc32) (wal_file (wal_run (H := demo_crc32) demo_ops)) =
    Ok (durable (alog_run demo_ops) ++ buffered (alog_run demo_ops)).
Proof.
  apply (@log_readback demo_crc32 demo_crc32_laws demo_ops). repeat constructor.
Defined.

Lemma crash_keeps_synced_witness :
  (∃ k, read_all (H := demo_crc32) (crash (wal_run (H := demo_crc32) demo_ops) 20) =
    Ok (durable (alog_run demo_ops) ++ take k (buffered (alog_run demo_ops)))) ∧
  open (H := demo_crc32) (crash (wal_run (H := demo_crc32) []) 15) = Err UnexpectedEof.
Proof.
  split.
  - apply (@crash_keeps_synced demo_crc32 demo_crc32_laws demo_ops 20).
    + repeat constructor.
    + apply Nat.leb_le. vm_compute. reflexivity.
  - apply (@crash_keeps_synced demo_crc32 demo_crc32_laws [] 15).
    + constructor.
    + apply Nat.ltb_lt. vm_compute. reflexivity.
Defined.

Lemma reopen_resumes_witness :
  ∃ es w, read_all (H := demo_crc32) (crash (wal_run (H := demo_crc32) demo_ops) 20) = Ok es ∧
    open (H := demo_crc32) (crash (wal_run (H := demo_crc32) demo_ops) 20) = Ok w ∧
    e_seq <$> es = seqZ 1 (Z.of_nat (length es)) ∧
    next_sequence w = Z.of_nat (length es) + 1 ∧
    next_sequence w <= next_sequence (wal_run (H := demo_crc32) demo_ops).
Proof.
  apply (@reopen_resumes demo_crc32 demo_crc32_laws demo_ops 20).
  - repeat constructor.
  - repeat constructor.
  - reflexivity.
  - apply Nat.leb_le. vm_compute. reflexivity.
Defined.

(** [open] keeps a torn tail and appends after it: the log that was readable after
    the crash is not readable after the next append. *)
Definition reopen (file : list byte) : Wal :=
  match open (H := demo_crc32) file with Ok w => w | Err _ => new_wal end.
Definition torn_file : list byte := crash (wal_run (H := demo_crc32) [OpSync; OpBuffered EDelete "t" 1 []]) 20.
Definition after_torn : list byte :=
  wal_file (snd (append_delete (H := demo_crc32) (reopen torn_file) "t" 2)).

Example torn_tail_then_append :
  read_all (H := demo_crc32) torn_file = Ok [] ∧
  read_all (H := demo_crc32) after_torn =
    Err (Corruption (ChecksumMismatch 2074128219 16973824)).
Proof. split; vm_compute; reflexivity. Qed.

(** A crash inside the header leaves a file that can be neither read nor opened. *)
Example torn_header_not_openable :
  open (H := demo_crc32) (crash new_wal 15) = Err UnexpectedEof.
Proof. vm_compute. reflexivity. Qed.

(** After a truncation the running log counts on, but the file no longer says so:
    a reopened log starts again at 1. *)
Example truncate_then_reopen :
  let w := wal_run (H := demo_crc32) [OpDelete "t" 1; OpDelete "t" 2; OpTruncate] in
  next_sequence w = 3 ∧ next_sequence (reopen (wal_file w)) = 1.
Proof. split; vm_compute; reflexivity. Qed.

(** The magic number of an entry is written but never compared. *)
Example entry_magic_ignored :
  let e := MkWalEntry 1 EDelete "t" 1 [] in
  read_all (H := demo_crc32)
    (header_bytes fresh_header ++ le_bytes 4 0 ++ drop 4 (entry_bytes (H := demo_crc32) e)) = Ok [e].
Proof. vm_compute. reflexivity. Qed.
