(* ===== verification/GroupCommit.v ===== *)
(** [blitz-server/src/durability.rs], the group commit: the bounded channel the
    request tasks send to, the thread that batches, appends and syncs, and the
    cluster of shards. *)
From S2P Require Import Prelude Float Value Schema Codec Wal.

Local Open Scope Z_scope.

(** ** Modes and writes *)

Inductive DurabilityMode : Type :=
| ModeNone
| GroupCommit (window_ms max_batch : Z).

Definition every_sec : DurabilityMode := GroupCommit 1000 5000.
Definition near_sync : DurabilityMode := GroupCommit 1 100.
Definition is_durable (m : DurabilityMode) : bool := if m is ModeNone then false else true.

Record PendingWrite : Type := MkPendingWrite {
  pw_entry : EntryType;
  pw_table : string;
  pw_row_id : Z;
  pw_data : list byte
}.

Inductive append_error : Type := Backpressure | WalClosed.

(** ** One group: channel, thread, log *)

(** Where the thread is: waiting in [recv_timeout], filling a group with [try_recv],
    appending it, or gone. *)
Inductive phase : Type :=
| Waiting
| Filling (batch : list PendingWrite)
| Appending (batch : list PendingWrite) (ok_bytes ok_ops : Z)
| Exited.

Record Group : Type := MkGroup {
  g_queue : list PendingWrite;
  g_senders : nat;
  g_phase : phase;
  g_wal : Wal;
  bytes_flushed : Z;
  ops_flushed : Z;
  dropped_full : Z
}.

Definition CHANNEL_CAP : Z := 131072.

Definition set_queue (g : Group) (q : list PendingWrite) : Group :=
  MkGroup q (g_senders g) (g_phase g) (g_wal g) (bytes_flushed g) (ops_flushed g) (dropped_full g).
Definition set_phase (g : Group) (p : phase) : Group :=
  MkGroup (g_queue g) (g_senders g) p (g_wal g) (bytes_flushed g) (ops_flushed g) (dropped_full g).
Definition drop_write (g : Group) : Group :=
  MkGroup (g_queue g) (g_senders g) (g_phase g) (g_wal g) (bytes_flushed g) (ops_flushed g)
    (wrap 64 (dropped_full g + 1)).

(** [WalSender::append]: [try_send] fails when the receiver is gone or the channel is
    full, and enqueues otherwise. *)
Definition append (g : Group) (w : PendingWrite) : result append_error () * Group :=
  match g_phase g with
  | Exited => (Err WalClosed, drop_write g)
  | _ =>
      if CHANNEL_CAP <=? Z.of_nat (length (g_queue g)) then (Err Backpressure, drop_write g)
      else (Ok (), set_queue g (g_queue g ++ [w]))
  end.

(** A sender handle is cloned or dropped. *)
Definition clone_sender (g : Group) : Group :=
  MkGroup (g_queue g) (S (g_senders g)) (g_phase g) (g_wal g) (bytes_flushed g) (ops_flushed g)
    (dropped_full g).
Definition drop_sender (g : Group) : Group :=
  MkGroup (g_queue g) (pred (g_senders g)) (g_phase g) (g_wal g) (bytes_flushed g) (ops_flushed g)
    (dropped_full g).

Section thread.
Context `{Crc32}.

(** [max_batch.max(1)] *)
Definition group_size (max_batch : Z) : nat := Nat.max 1 (Z.to_nat max_batch).

(** One step of the thread; [None] when it has nothing to do: the channel is empty
    and a sender is alive (the time-out only goes round the loop again), or the
    thread has exited. A disconnected channel is an empty one without senders:
    [recv_timeout] hands out what is queued first, so the drain of that branch
    finds nothing and the thread returns. *)
Definition thread_step (max_batch : Z) (g : Group) : option Group :=
  match g_phase g with
  | Exited => None
  | Waiting =>
      match g_queue g with
      | w :: q => Some (set_phase (set_queue g q) (Filling [w]))
      | [] => if Nat.eqb (g_senders g) 0 then Some (set_phase g Exited) else None
      end
  | Filling batch =>
      match g_queue g with
      | w :: q =>
          if (length batch <? group_size max_batch)%nat
          then Some (set_phase (set_queue g q) (Filling (batch ++ [w])))
          else Some (set_phase g (Appending batch 0 0))
      | [] => Some (set_phase g (Appending batch 0 0))
      end
  | Appending (w :: batch) ok_bytes ok_ops =>
      let '(_, wal) := append_buffered (g_wal g) (pw_entry w) (pw_table w) (pw_row_id w) (pw_data w) in
      Some (MkGroup (g_queue g) (g_senders g)
              (Appending batch (ok_bytes + Z.of_nat (length (pw_data w))) (ok_ops + 1)) wal
              (bytes_flushed g) (ops_flushed g) (dropped_full g))
  | Appending [] ok_bytes ok_ops =>
      Some (MkGroup (g_queue g) (g_senders g) Waiting (sync (g_wal g))
              (wrap 64 (bytes_flushed g + ok_bytes)) (wrap 64 (ops_flushed g + ok_ops)) (dropped_full g))
  end.

(** [open_with_sender_path]: the channel with one sender handle and its clone in the
    bridge, and the thread, which exits at once when the log does not open. *)
Definition open_group (file : list byte) : Group :=
  match open file with
  | Ok wal => MkGroup [] 2 Waiting wal 0 0 0
  | Err _ => MkGroup [] 2 Exited (MkWal file [] 0 0) 0 0 0
  end.

(** Interleavings: request tasks and handles act between any two thread steps. *)
Inductive gc_label : Type := LAppend (w : PendingWrite) | LClone | LDrop | LThread.

Definition gc_step (max_batch : Z) (g : Group) (l : gc_label) : Group :=
  match l with
  | LAppend w => if Nat.eqb (g_senders g) 0 then g else snd (append g w)
  | LClone => if Nat.eqb (g_senders g) 0 then g else clone_sender g
  | LDrop => drop_sender g
  | LThread => default g (thread_step max_batch g)
  end.

Definition gc_run (max_batch : Z) (g : Group) (ls : list gc_label) : Group :=
  foldl (gc_step max_batch) g ls.

(** The writes [append] answered [Ok] to, in order. *)
Fixpoint accepted (max_batch : Z) (g : Group) (ls : list gc_label) : list PendingWrite :=
  match ls with
  | [] => []
  | l :: ls =>
      let rest := accepted max_batch (gc_step max_batch g l) ls in
      match l with
      | LAppend w => if negb (Nat.eqb (g_senders g) 0) && is_ok (fst (append g w)) then w :: rest else rest
      | _ => rest
      end
  end.
End thread.

(** ** [WalCluster] *)

(** The standard library's [DefaultHasher] on a table name. *)
Class TableHash : Type := table_hash : string → Z.

Definition shards_for_mode : nat := 16.

(** [n] shards; [route] sends all writes of a table to one of them. *)
Definition route `{TableHash} (n : nat) (table : string) : nat :=
  Z.to_nat (wrap 64 (table_hash table) mod Z.of_nat (Nat.max 1 n)).

Definition cluster_append `{TableHash} (shards : list Group) (table : string) (entry : EntryType)
    (row_id : Z) (data : list byte) : result append_error () * list Group :=
  match shards with
  | [] => (Ok (), shards)
  | _ =>
      let i := route (length shards) table in
      match shards !! i with
      | Some g =>
          let '(r, g) := append g (MkPendingWrite entry table row_id data) in (r, <[i := g]> shards)
      | None => (Ok (), shards)
      end
  end.

(** ** What reaches the log *)

Definition erase (e : WalEntry) : PendingWrite :=
  MkPendingWrite (e_type e) (e_table e) (e_row e) (e_data e).

Definition in_flight (p : phase) : list PendingWrite :=
  match p with Filling b | Appending b _ _ => b | Waiting | Exited => [] end.

(** The write fits the fields of a log entry. *)
Definition write_okb (w : PendingWrite) : bool :=
  Wal.op_okb (OpBuffered (pw_entry w) (pw_table w) (pw_row_id w) (pw_data w)).

(** Between groups everything appended has been synced. *)
Definition quiet (p : phase) : bool := if p is Appending _ _ _ then false else true.

Record group_inv `{Crc32} (acc : list PendingWrite) (g : Group) (a : alog) : Prop := {
  gi_holds : holds (g_wal g) a;
  gi_order : (erase <$> (durable a ++ buffered a)) ++ in_flight (g_phase g) ++ g_queue g = acc;
  gi_synced : quiet (g_phase g) = true → buffered a = [];
  gi_cap : Z.of_nat (length (g_queue g)) <= CHANNEL_CAP;
  gi_exited : g_phase g = Exited → g_queue g = [] ∧ g_senders g = O
}.

Section group_facts.
Context `{Crc32Laws}.

Lemma append_ok_inv acc g a w g' :
  append g w = (Ok (), g') → group_inv acc g a → group_inv (acc ++ [w]) g' a.
Proof.
  unfold append. intros E [Hh Ho Hs Hc He]. destruct (g_phase g) eqn:Ep; [| | |done].
  all: destruct (Z.leb_spec CHANNEL_CAP (Z.of_nat (length (g_queue g)))); [done|]; injection E as <-;
    unfold set_queue; split; cbn [g_wal g_phase g_queue]; rewrite ?Ep; try done;
    [rewrite <- Ho; by rewrite !app_assoc|rewrite length_app; simpl; lia].
Qed.

Lemma append_err_inv acc g a w e g' :
  append g w = (Err e, g') → group_inv acc g a → group_inv acc g' a.
Proof.
  unfold append. intros E [Hh Ho Hs Hc He].
  assert (g' = drop_write g) as -> by (repeat case_match; by simplify_eq).
  by split.
Qed.

Lemma thread_step_inv mb acc g a g' :
  thread_step mb g = Some g' → Forall (λ w, write_okb w = true) acc →
  group_inv acc g a → ∃ a', group_inv acc g' a'.
Proof.
  unfold thread_step. intros E F [Hh Ho Hs Hc He]. destruct (g_phase g) as [|b|[|w b] ob oo|] eqn:Ep; [| | | |done].
  - destruct (g_queue g) as [|w q] eqn:Eq.
    + destruct (Nat.eqb_spec (g_senders g) 0); [|done]. injection E as <-. exists a.
      by split; cbn [set_phase g_wal g_phase g_queue g_senders]; rewrite ?Eq.
    + injection E as <-. exists a.
      split; cbn [set_phase set_queue g_wal g_phase g_queue]; try done. simpl in Hc. lia.
  - assert (G1 : group_inv acc (set_phase g (Appending b 0 0)) a).
    { split; try done. }
    destruct (g_queue g) as [|w q] eqn:Eq; [injection E as <-; by exists a|].
    case_match; injection E as <-; [|by exists a]. exists a.
    split; cbn [set_phase set_queue g_wal g_phase g_queue in_flight] in *; try done.
    + rewrite <- Ho. by rewrite <- (app_assoc b).
    + simpl in Hc. lia.
  - injection E as <-. exists (MkLog (durable a ++ buffered a) [] (next_seq a)).
    split; cbn [g_wal g_phase g_queue in_flight app] in *; try done.
    + by apply holds_sync.
    + cbn [durable buffered]. by rewrite app_nil_r.
  - unfold append_buffered in E. injection E as <-.
    set (o := OpBuffered (pw_entry w) (pw_table w) (pw_row_id w) (pw_data w)).
    assert (Ow : Wal.op_okb o = true).
    { rewrite <- Ho in F. apply Forall_app in F as [_ F]. apply Forall_app in F as [F _].
      cbn [in_flight] in F. by apply Forall_cons in F as [? _]. }
    exists (alog_step a o). split; cbn [g_wal g_phase g_queue in_flight] in *; try done.
    + exact (holds_step _ _ o Ow Hh).
    + rewrite <- Ho. unfold alog_step. cbn [op_entry o durable buffered].
      rewrite (app_assoc (durable a)), (fmap_app _ (durable a ++ buffered a)), <- app_assoc.
      by destruct w.
Qed.

Lemma gc_step_inv mb acc g a l :
  Forall (λ w, write_okb w = true) acc →
  group_inv acc g a →
  ∃ a', group_inv (acc ++ match l with
    | LAppend w => if negb (Nat.eqb (g_senders g) 0) && is_ok (fst (append g w)) then [w] else []
    | _ => [] end) (gc_step mb g l) a'.
Proof.
  intros F I. destruct l as [w| | |]; cbn [gc_step]; rewrite ?app_nil_r.
  - destruct (Nat.eqb_spec (g_senders g) 0); cbn [negb andb]; [rewrite app_nil_r; by exists a|].
    destruct (append g w) as [[[]|e] g'] eqn:E; cbn [fst snd is_ok].
    + exists a. by eapply append_ok_inv.
    + rewrite app_nil_r. exists a. by eapply append_err_inv.
  - destruct (Nat.eqb_spec (g_senders g) 0); [by exists a|]. exists a. destruct I as [Hh Ho Hs Hc He].
    split; try done. intros Hx. by destruct (He Hx).
  - exists a. destruct I as [Hh Ho Hs Hc He]. split; try done. intros Hx.
    destruct (He Hx) as [? Hz]. split; [done|]. cbn [drop_sender g_senders]. by rewrite Hz.
  - destruct (thread_step mb g) as [g'|] eqn:E; [by eapply thread_step_inv|by exists a].
Qed.

Lemma gc_run_inv mb ls : ∀ acc g a,
  Forall (λ w, write_okb w = true) (acc ++ accepted mb g ls) →
  group_inv acc g a → ∃ a', group_inv (acc ++ accepted mb g ls) (gc_run mb g ls) a'.
Proof.
  induction ls as [|l ls IH]; intros acc g a F I.
  - cbn. rewrite app_nil_r. by exists a.
  - unfold gc_run. cbn [foldl]. fold (gc_run mb (gc_step mb g l) ls).
    set (d := match l with
      | LAppend w => if negb (Nat.eqb (g_senders g) 0) && is_ok (fst (append g w)) then [w] else []
      | _ => [] end).
    assert (E : accepted mb g (l :: ls) = d ++ accepted mb (gc_step mb g l) ls).
    { unfold d. destruct l; cbn [accepted]; try done. by case_match. }
    rewrite E, app_assoc in *.
    destruct (gc_step_inv mb acc g a l) as [a' I']; [by do 2 apply Forall_app in F as [F _]|done|].
    by eapply IH.
Qed.

(** *** The thread drains and exits *)

Definition phase_weight (p : phase) : nat :=
  match p with
  | Exited => 0
  | Waiting => 1
  | Filling b => length b + 3
  | Appending b _ _ => length b + 2
  end.
Definition weight (g : Group) : nat := phase_weight (g_phase g) + 4 * length (g_queue g).

Lemma thread_step_weight mb g g' : thread_step mb g = Some g' → (weight g' < weight g)%nat.
Proof.
  unfold thread_step, weight. destruct (g_phase g) as [|b|[|w b] ob oo|]; [| | | |done].
  - destruct (g_queue g) eqn:Eq; [case_match; [|done]|]; intros [= <-];
      cbn [set_phase set_queue g_phase g_queue phase_weight length]; rewrite ?Eq; cbn [length]; lia.
  - destruct (g_queue g) eqn:Eq; [|case_match]; intros [= <-];
      cbn [set_phase set_queue g_phase g_queue phase_weight]; rewrite ?Eq, ?length_app; cbn [length]; lia.
  - intros [= <-]. cbn [g_phase g_queue phase_weight length]. lia.
  - intros [= <-]. cbn [g_phase g_queue phase_weight length]. lia.
Qed.

Lemma thread_step_senders mb g g' : thread_step mb g = Some g' → g_senders g' = g_senders g.
Proof. unfold thread_step. repeat case_match; intros [= <-]; done. Qed.

Lemma thread_blocked mb g : thread_step mb g = None → g_senders g = O → g_phase g = Exited.
Proof.
  unfold thread_step. destruct (g_phase g) as [|b|[|w b] ob oo|]; [| | | |done].
  - destruct (g_queue g); [|done]. intros E Hs. by rewrite Hs in E.
  - destruct (g_queue g); [done|]. by case_match.
  - done.
  - done.
Qed.

Lemma drains mb k : ∀ acc g a,
  (weight g <= k)%nat → g_senders g = O → Forall (λ w, write_okb w = true) acc → group_inv acc g a →
  ∃ n a', let g' := gc_run mb g (replicate n LThread) in g_phase g' = Exited ∧ group_inv acc g' a'.
Proof.
  induction k as [|k IH]; intros acc g a L Hs F I.
  - exists O, a. split; [|done]. unfold weight in L. cbn. destruct (g_phase g); simpl in L; lia || done.
  - destruct (thread_step mb g) as [g'|] eqn:E.
    + destruct (thread_step_inv _ _ _ _ _ E F I) as [a1 I1].
      pose proof (thread_step_weight _ _ _ E). pose proof (thread_step_senders _ _ _ E).
      destruct (IH acc g' a1) as (n & a' & X & I'); [lia|congruence|done|done|].
      exists (S n), a'. cbn [replicate]. unfold gc_run. cbn [foldl gc_step]. rewrite E. done.
    + exists O, a. split; [|done]. by eapply thread_blocked.
Qed.
End group_facts.

Lemma Forall_forallb_true {A} (f : A → bool) l : forallb f l = true → Forall (λ x, f x = true) l.
Proof. rewrite forallb_forall, Forall_forall. intros F x. rewrite list_elem_of_In. apply F. Qed.

(** ** Properties *)

Section reading.
Context `{Crc32Laws}.

Lemma group_inv_open : group_inv [] (open_group []) new_log.
Proof. split; try done. apply holds_new. Qed.

Lemma group_inv_reads acc g a :
  group_inv acc g a →
  read_all (wal_file (g_wal g)) = Ok (durable a ++ buffered a) ∧
  (quiet (g_phase g) = true → ∀ n, (16 <= length (crash (g_wal g) n))%nat →
     read_all (crash (g_wal g) n) = Ok (durable a ++ buffered a)).
Proof.
  intros [Hh Ho Hs Hc He]. destruct (holds_ok _ _ Hh) as [HD HF]. split.
  - rewrite (wal_file_shape _ _ Hh). apply read_all_log; [by apply Forall_app_2|done].
  - intros Q n L. destruct (crash_shape _ _ n Hh L) as (k & tail & -> & T).
    rewrite (Hs Q) in *. rewrite take_nil, app_nil_r in *. by apply read_all_log.
Qed.
End reading.

(** C13: Whatever the interleaving of requests, sender handles and the group-commit
    thread, the log holds a prefix of the accepted writes in the order they were
    accepted, and the rest is in the group being appended and in the queue:
    nothing accepted is lost, doubled or reordered, and the queue stays within
    its capacity. Outside the appending of a group, no crash can lose a write
    that has left the queue and the group. *)
Theorem group_commit_keeps_order `{Crc32Laws} (max_batch : Z) (ls : list gc_label)
    (OK : Forall (λ w, write_okb w = true) (accepted max_batch (open_group []) ls)) :
  let g := gc_run max_batch (open_group []) ls in
  ∃ es, read_all (wal_file (g_wal g)) = Ok es ∧
    (erase <$> es) ++ in_flight (g_phase g) ++ g_queue g = accepted max_batch (open_group []) ls ∧
    Z.of_nat (length (g_queue g)) <= CHANNEL_CAP ∧
    (quiet (g_phase g) = true → ∀ n, (16 <= length (crash (g_wal g) n))%nat →
       read_all (crash (g_wal g) n) = Ok es).
Proof.
  cbv zeta. destruct (gc_run_inv max_batch ls [] _ _ OK group_inv_open) as [a I].
  destruct (group_inv_reads _ _ _ I) as [R Q]. exists (durable a ++ buffered a).
  split; [done|]. split; [apply (gi_order _ _ _ I)|]. split; [apply (gi_cap _ _ _ I)|done].
Qed.

(** Shutdown loses nothing: once the last sender handle is gone, the thread, left
    to run, empties the queue, syncs and exits, and every accepted write is in the
    log, whatever crash follows. *)
Theorem shutdown_flushes `{Crc32Laws} (max_batch : Z) (ls : list gc_label)
    (OK : Forall (λ w, write_okb w = true) (accepted max_batch (open_group []) ls))
    (Gone : g_senders (gc_run max_batch (open_group []) ls) = O) :
  ∃ n es, let g := gc_run max_batch (open_group []) (ls ++ replicate n LThread) in
    g_phase g = Exited ∧ erase <$> es = accepted max_batch (open_group []) ls ∧
    ∀ m, (16 <= length (crash (g_wal g) m))%nat → read_all (crash (g_wal g) m) = Ok es.
Proof.
  destruct (gc_run_inv max_batch ls [] _ _ OK group_inv_open) as [a I].
  destruct (drains max_batch _ _ _ _ (le_n _) Gone OK I) as (n & a' & X & I').
  exists n, (durable a' ++ buffered a'). unfold gc_run in *. rewrite foldl_app.
  split; [done|]. destruct (group_inv_reads _ _ _ I') as [_ Q]. split.
  - pose proof (gi_order _ _ _ I') as Ho. destruct (gi_exited _ _ _ I' X) as [Eq _].
    rewrite X, Eq in Ho. cbn [in_flight app] in Ho. rewrite app_nil_r in Ho. exact Ho.
  - apply Q. by rewrite X.
Qed.

(** ** Witnesses *)

Definition demo_write (id : Z) : PendingWrite := MkPendingWrite EDelete "t" id [].
Definition demo_labels : list gc_label :=
  [LAppend (demo_write 1); LThread; LAppend (demo_write 2); LThread; LAppend (demo_write 3); LThread;
   LThread; LDrop; LDrop; LAppend (demo_write 4)].

Lemma demo_writes_ok :
  Forall (λ w, write_okb w = true) (@accepted demo_crc32 2 (@open_group demo_crc32 []) demo_labels).
Proof. apply Forall_forallb_true. vm_compute. reflexivity. Qed.

Lemma group_commit_keeps_order_witness :
  let g := @gc_run demo_crc32 2 (@open_group demo_crc32 []) demo_labels in
  ∃ es, @read_all demo_crc32 (wal_file (g_wal g)) = Ok es ∧
    (erase <$> es) ++ in_flight (g_phase g) ++ g_queue g =
      @accepted demo_crc32 2 (@open_group demo_crc32 []) demo_labels ∧
    Z.of_nat (length (g_queue g)) <= CHANNEL_CAP ∧
    (quiet (g_phase g) = true → ∀ n, (16 <= length (crash (g_wal g) n))%nat →
       @read_all demo_crc32 (crash (g_wal g) n) = Ok es).
Proof.
  apply (@group_commit_keeps_order demo_crc32 demo_crc32_laws 2 demo_labels).
  apply demo_writes_ok.
Defined.

Lemma shutdown_flushes_witness :
  ∃ n es, let g := @gc_run demo_crc32 2 (@open_group demo_crc32 []) (demo_labels ++ replicate n LThread) in
    g_phase g = Exited ∧
    erase <$> es = @accepted demo_crc32 2 (@open_group demo_crc32 []) demo_labels ∧
    ∀ m, (16 <= length (crash (g_wal g) m))%nat → @read_all demo_crc32 (crash (g_wal g) m) = Ok es.
Proof.
  apply (@shutdown_flushes demo_crc32 demo_crc32_laws 2 demo_labels).
  - apply demo_writes_ok.
  - vm_compute. reflexivity.
Defined.
