(* ===== verification/Snapshot.v ===== *)
(** [blitz-snapshot/src/snapshot.rs]: snapshot files, their names, and the directory
    that holds them: creating, finding, loading, listing and pruning. *)
From S2P Require Import Prelude Float Value Schema.

Local Open Scope Z_scope.

(** ** Data *)

Definition SNAPSHOT_MAGIC : Z := 0x42534E41.
Definition SNAPSHOT_VERSION : Z := 1.

Record SnapshotRow : Type := MkSnapshotRow { sr_id : Z; sr_values : list (string * json) }.
Record SnapshotTable : Type := MkSnapshotTable { st_name : string; st_rows : list SnapshotRow }.
Record Snapshot : Type := MkSnapshot {
  snap_version : Z;
  snap_tables : list SnapshotTable;
  snap_next_row_ids : list (string * Z)
}.

(** [SnapshotError]: what [Corruption] quotes; [UnexpectedEof] is the [io::Error]
    of that kind, other input/output errors are not modelled. *)
Inductive snapshot_error : Type :=
| UnexpectedEof
| InvalidMagic
| UnsupportedVersion (v : Z)
| SerializationError.

(** The JSON text of a snapshot is [serde_json]'s. Without its [float_roundtrip]
    feature (the workspace does not enable it) floats may come back changed, so
    the law is for snapshots whose numbers are all integers. *)
Class SnapshotText : Type := {
  snapshot_to_vec : Snapshot → list byte;
  snapshot_from_slice : list byte → option Snapshot
}.

Fixpoint float_free (j : json) : bool :=
  match j with
  | JNumber (JFloat _) => false
  | JArray l => forallb float_free l
  | JObject m => forallb (λ kv, float_free kv.2) m
  | _ => true
  end.
Definition row_float_free (r : SnapshotRow) : bool := forallb (λ kv, float_free kv.2) (sr_values r).
Definition table_float_free (t : SnapshotTable) : bool := forallb row_float_free (st_rows t).
Definition snapshot_float_free (s : Snapshot) : bool := forallb table_float_free (snap_tables s).

Class SnapshotTextLaws `{SnapshotText} : Prop :=
  snapshot_text_roundtrip s :
    snapshot_float_free s = true → snapshot_from_slice (snapshot_to_vec s) = Some s.

(** The order in which [read_dir] lists a directory: any. *)
Class DirOrder : Type := dir_enum : gmap string (list byte) → list string.
Class DirOrderLaws `{DirOrder} : Prop := dir_enum_perm d : dir_enum d ≡ₚ (map_to_list d).*1.

(** A directory: its files by name. A missing directory reads as an empty one. *)
Abbreviation Dir := (gmap string (list byte)).

(** ** Names *)

(** [rsplit_file_at_dot]: the pieces around the last dot. *)
Fixpoint split_last (c : byte) (l : list byte) : option (list byte * list byte) :=
  match l with
  | [] => None
  | x :: l =>
      match split_last c l with
      | Some (b, a) => Some (x :: b, a)
      | None => if bool_decide (x = c) then Some ([], l) else None
      end
  end.

(** [Path::file_stem] and [Path::extension] of a directory entry. *)
Definition stem_ext (name : list byte) : list byte * option (list byte) :=
  match split_last "."%byte name with
  | None | Some ([], _) => (name, None)
  | Some (before, after) => (before, Some after)
  end.

Fixpoint strip_prefix (p l : list byte) : option (list byte) :=
  match p, l with
  | [], _ => Some l
  | x :: p, y :: l => if bool_decide (x = y) then strip_prefix p l else None
  | _ :: _, [] => None
  end.

Definition digit_of (b : byte) : option Z :=
  let d := byte_Z b - 48 in if (0 <=? d) && (d <=? 9) then Some d else None.

(** [str::parse::<u64>]: an optional plus sign, at least one digit, no overflow at
    any digit. *)
Fixpoint parse_digits (acc : Z) (l : list byte) : option Z :=
  match l with
  | [] => Some acc
  | b :: l =>
      d ← digit_of b;
      let acc := acc * 10 + d in
      if acc <? 2 ^ 64 then parse_digits acc l else None
  end.
Definition parse_u64 (l : list byte) : option Z :=
  match l with
  | [] => None
  | b :: l' =>
      if bool_decide (b = "+"%byte) then match l' with [] => None | _ => parse_digits 0 l' end
      else parse_digits 0 l
  end.

Definition parse_snapshot_sequence (name : string) : option Z :=
  seq_str ← strip_prefix (str_bytes "snapshot_") (stem_ext (str_bytes name)).1;
  parse_u64 seq_str.

(** [{:020}]: a [u64] has at most twenty digits. *)
Fixpoint dec_digits (k : nat) (n : Z) : list byte :=
  match k with
  | O => []
  | S k => Z_byte (48 + n / 10 ^ Z.of_nat k mod 10) :: dec_digits k n
  end.
Definition snapshot_path (seq : Z) : string :=
  String.string_of_list_byte (str_bytes "snapshot_" ++ dec_digits 20 seq ++ str_bytes ".snap").

(** ** [SnapshotManager] *)

(** The test both directory walks make on an entry. *)
Definition snap_entry (name : string) : option (Z * string) :=
  if bool_decide ((stem_ext (str_bytes name)).2 = Some (str_bytes "snap"))
  then (λ seq, (seq, name)) <$> parse_snapshot_sequence name else None.

(** [sort_by_key(|(seq, _)| *seq)] *)
Definition by_seq (a b : Z * string) : Prop := a.1 <= b.1.
#[export] Instance by_seq_dec : RelDecision by_seq.
Proof. intros a b. unfold by_seq. apply _. Defined.
#[export] Instance by_seq_total : Total by_seq.
Proof. intros a b. unfold by_seq. lia. Qed.
#[export] Instance by_seq_trans : Transitive by_seq.
Proof. intros a b c. unfold by_seq. lia. Qed.

Definition better (latest : option (Z * string)) (e : Z * string) : option (Z * string) :=
  match latest with
  | Some (best, _) => if e.1 <=? best then latest else Some e
  | None => Some e
  end.

(** [read_exact], with the rest of the file. *)
Definition read_exact (n : nat) (l : list byte) : result snapshot_error (list byte * list byte) :=
  if (length l <? n)%nat then Err UnexpectedEof else Ok (take n l, drop n l).

Section manager.
Context `{SnapshotText} `{DirOrder}.

Definition snap_entries (d : Dir) : list (Z * string) := omap snap_entry (dir_enum d).

Definition find_latest_snapshot (d : Dir) : option (Z * string) :=
  foldl better None (snap_entries d).

Definition load_snapshot (file : list byte) : result snapshot_error (Snapshot * Z) :=
  '(magic, l) ← read_exact 4 file;
  if negb (le_val magic =? SNAPSHOT_MAGIC) then Err InvalidMagic else
  '(version, l) ← read_exact 4 l;
  if negb (le_val version =? SNAPSHOT_VERSION) then Err (UnsupportedVersion (le_val version)) else
  '(wal_sequence, l) ← read_exact 8 l;
  '(data_len, l) ← read_exact 8 l;
  '(data, l) ← read_exact (Z.to_nat (le_val data_len)) l;
  snapshot ← ok_or (snapshot_from_slice data) SerializationError;
  Ok (snapshot, le_val wal_sequence).

Definition load_latest (d : Dir) : result snapshot_error (option (Snapshot * Z)) :=
  match find_latest_snapshot d with
  | None => Ok None
  | Some (_, name) =>
      s ← load_snapshot (default [] (d !! name)); Ok (Some s)
  end.

Definition to_snapshot (tables : list (string * list (Z * list (string * json))))
    (next_row_ids : list (string * Z)) : Snapshot :=
  MkSnapshot SNAPSHOT_VERSION
    ((λ t, MkSnapshotTable t.1 ((λ r, MkSnapshotRow r.1 r.2) <$> t.2)) <$> tables) next_row_ids.

Definition snapshot_file (s : Snapshot) (wal_sequence : Z) : list byte :=
  let data := snapshot_to_vec s in
  le_bytes 4 SNAPSHOT_MAGIC ++ le_bytes 4 SNAPSHOT_VERSION ++ le_bytes 8 wal_sequence ++
  le_bytes 8 (Z.of_nat (length data)) ++ data.

Definition temp_name : string := "snapshot.tmp".

(** [File::create] and the writes, then the rename. *)
Definition create_temp (d : Dir) (bytes : list byte) : Dir := <[temp_name := bytes]> d.
Definition rename_temp (d : Dir) (to : string) : Dir :=
  match d !! temp_name with
  | Some bytes => <[to := bytes]> (delete temp_name d)
  | None => d
  end.

Definition create_snapshot (d : Dir) (tables : list (string * list (Z * list (string * json))))
    (next_row_ids : list (string * Z)) (wal_sequence : Z) : string * Dir :=
  let final_path := snapshot_path wal_sequence in
  let d := create_temp d (snapshot_file (to_snapshot tables next_row_ids) wal_sequence) in
  (final_path, rename_temp d final_path).

Definition list_snapshots (d : Dir) : list (Z * string) := merge_sort by_seq (snap_entries d).

Definition prune (d : Dir) (keep : nat) : nat * Dir :=
  let snapshots := list_snapshots d in
  let old := take (length snapshots - keep) snapshots in
  (length old, foldl (λ d s, delete s.2 d) d old).
End manager.

(** ** Names parse back *)

Lemma dec_digit_of k n : digit_of (Z_byte (48 + n / 10 ^ Z.of_nat k mod 10)) = Some (n / 10 ^ Z.of_nat k mod 10).
Proof.
  assert (0 <= n / 10 ^ Z.of_nat k mod 10 < 10) by (apply Z.mod_pos_bound; lia).
  unfold digit_of. rewrite byte_Z_byte, Z.mod_small by lia.
  replace (48 + n / 10 ^ Z.of_nat k mod 10 - 48) with (n / 10 ^ Z.of_nat k mod 10) by lia.
  cbv zeta. by rewrite (proj2 (Z.leb_le _ _)), (proj2 (Z.leb_le _ _)) by lia.
Qed.

Lemma parse_dec_digits k n : ∀ acc,
  0 <= acc → 0 <= n → acc * 10 ^ Z.of_nat k + n mod 10 ^ Z.of_nat k < 2 ^ 64 →
  parse_digits acc (dec_digits k n) = Some (acc * 10 ^ Z.of_nat k + n mod 10 ^ Z.of_nat k).
Proof.
  induction k as [|k IH]; intros acc Ha Hn L.
  - cbn [dec_digits parse_digits]. change (10 ^ Z.of_nat 0) with 1. rewrite Z.mod_1_r. f_equal. lia.
  - cbn [dec_digits parse_digits]. rewrite dec_digit_of. cbn [mbind option_bind]. cbv zeta.
    set (q := 10 ^ Z.of_nat k) in *. assert (0 < q) by (apply Z.pow_pos_nonneg; lia).
    assert (E10 : 10 ^ Z.of_nat (S k) = q * 10).
    { unfold q. rewrite Nat2Z.inj_succ, Z.pow_succ_r by lia. lia. }
    rewrite E10 in *. rewrite Z.rem_mul_r in * by lia.
    assert (0 <= n / q mod 10 < 10) by (apply Z.mod_pos_bound; lia).
    assert (0 <= n mod q < q) by (apply Z.mod_pos_bound; lia).
    rewrite (proj2 (Z.ltb_lt _ _)) by nia. rewrite IH by nia. f_equal. lia.
Qed.

Lemma parse_u64_dec k n :
  0 <= n < 10 ^ Z.of_nat (S k) → n < 2 ^ 64 → parse_u64 (dec_digits (S k) n) = Some n.
Proof.
  intros Hn L. pose proof (parse_dec_digits (S k) n 0) as P.
  rewrite Z.mod_small, Z.mul_0_l, Z.add_0_l in P by done. specialize (P ltac:(lia) ltac:(lia) L).
  cbn [dec_digits] in *. unfold parse_u64. rewrite bool_decide_false; [done|].
  intros Eb. pose proof (dec_digit_of k n) as D. rewrite Eb in D. discriminate D.
Qed.

Lemma split_last_app c l1 l2 :
  c ∉ l2 → split_last c (l1 ++ c :: l2) = Some (l1, l2).
Proof.
  intros N. assert (split_last c l2 = None) as E2.
  { induction l2 as [|x l2 IH]; [done|]. apply not_elem_of_cons in N as [Nx N]. simpl.
    rewrite IH by done. by rewrite bool_decide_false. }
  induction l1 as [|x l1 IH]; simpl; [by rewrite E2, bool_decide_true|]. by rewrite IH.
Qed.

Lemma strip_prefix_app p l : strip_prefix p (p ++ l) = Some l.
Proof. induction p as [|x p IH]; [done|]. simpl. by rewrite bool_decide_true. Qed.

Lemma snap_entry_path n :
  0 <= n < 2 ^ 64 → snap_entry (snapshot_path n) = Some (n, snapshot_path n).
Proof.
  intros Hn. unfold snap_entry, parse_snapshot_sequence.
  assert (stem_ext (str_bytes (snapshot_path n)) =
    (str_bytes "snapshot_" ++ dec_digits 20 n, Some (str_bytes "snap"))) as ->.
  { unfold snapshot_path. rewrite str_bytes_of. unfold stem_ext.
    change (str_bytes ".snap") with ("."%byte :: str_bytes "snap").
    rewrite app_assoc, split_last_app by (rewrite list_elem_of_In; vm_compute; naive_solver).
    done. }
  cbn [fst snd]. rewrite bool_decide_true by done. rewrite strip_prefix_app.
  cbn [mbind option_bind]. rewrite (parse_u64_dec 19); [done| |lia].
  change (10 ^ Z.of_nat 20) with (10 ^ 20). lia.
Qed.

Lemma snap_entry_name name e : snap_entry name = Some e → e.2 = name.
Proof.
  unfold snap_entry. case_bool_decide; [|done].
  destruct (parse_snapshot_sequence name); [|done]. by intros [= <-].
Qed.

Lemma snap_entry_temp : snap_entry temp_name = None.
Proof. vm_compute. reflexivity. Qed.

(** ** The newest snapshot *)

Section latest.
Context `{SnapshotText} `{DirOrderLaws}.
Implicit Types d : Dir.

Lemma elem_of_snap_entries d e :
  e ∈ snap_entries d ↔ is_Some (d !! e.2) ∧ snap_entry e.2 = Some e.
Proof.
  unfold snap_entries. rewrite list_elem_of_omap. split.
  - intros (name & Hn & E). pose proof (snap_entry_name _ _ E) as ->.
    split; [|done]. rewrite dir_enum_perm in Hn. apply list_elem_of_fmap in Hn as ([k b] & -> & Hk).
    apply elem_of_map_to_list in Hk. by exists b.
  - intros [[b Hb] E]. exists e.2. split; [|done]. rewrite dir_enum_perm. apply list_elem_of_fmap.
    exists (e.2, b). split; [done|]. by apply elem_of_map_to_list.
Qed.

(** No sequence number under two names, as when every name is [snapshot_path]'s. *)
Definition distinct_seqs d : Prop :=
  ∀ e1 e2, e1 ∈ snap_entries d → e2 ∈ snap_entries d → e1.1 = e2.1 → e1 = e2.

Definition newest d (e : Z * string) : Prop :=
  e ∈ snap_entries d ∧ ∀ e', e' ∈ snap_entries d → e'.1 <= e.1.

Lemma better_spec acc x : ∃ e, better acc x = Some e ∧ (acc = Some e ∨ e = x) ∧
  x.1 <= e.1 ∧ ∀ e', acc = Some e' → e'.1 <= e.1.
Proof.
  destruct acc as [[b n]|]; simpl.
  - destruct (Z.leb_spec x.1 b).
    + exists (b, n). split; [done|]. split; [by left|]. split; [done|]. intros e' [= <-]. simpl. lia.
    + exists x. split; [done|]. split; [by right|]. split; [lia|]. intros e' [= <-]. simpl. lia.
  - exists x. split; [done|]. split; [by right|]. split; [lia|]. done.
Qed.

Lemma foldl_better l : ∀ acc,
  match foldl better acc l with
  | None => acc = None ∧ l = []
  | Some e => (acc = Some e ∨ e ∈ l) ∧ ∀ e', acc = Some e' ∨ e' ∈ l → e'.1 <= e.1
  end.
Proof.
  induction l as [|x l IH]; intros acc; cbn [foldl].
  - destruct acc as [e|]; [|done]. split; [by left|]. intros e' [[= ->]|?%not_elem_of_nil]; [lia|done].
  - specialize (IH (better acc x)). destruct (better_spec acc x) as (y & Ey & Hy & Lx & La).
    rewrite Ey in *. destruct (foldl better _ l) as [e|]; [|by destruct IH].
    destruct IH as [I1 I2]. pose proof (I2 y (or_introl eq_refl)) as Ly. split.
    + destruct I1 as [[= ->]|Hin]; [|right; by constructor].
      destruct Hy as [? | ->]; [by left|right; by constructor].
    + intros e' [He%La | [ -> | Hin]%elem_of_cons]; [lia|lia|]. apply I2. by right.
Qed.

Lemma find_latest_newest d : match find_latest_snapshot d with
  | Some e => newest d e
  | None => ∀ e, e ∉ snap_entries d
  end.
Proof.
  unfold find_latest_snapshot, newest. pose proof (foldl_better (snap_entries d) None) as F.
  destruct (foldl _ _ _) as [e|].
  - destruct F as [[?|F1] F2]; [done|]. split; [done|]. intros. apply F2. by right.
  - destruct F as [_ ->]. intros e. apply not_elem_of_nil.
Qed.

Lemma find_latest_eq d e :
  distinct_seqs d → newest d e → find_latest_snapshot d = Some e.
Proof.
  intros D [N1 N2]. pose proof (find_latest_newest d) as F.
  destruct (find_latest_snapshot d) as [e'|]; [|by apply F in N1].
  destruct F as [F1 F2]. f_equal. apply D; [done|done|].
  specialize (N2 _ F1). specialize (F2 _ N1). lia.
Qed.

Lemma load_latest_same d d' :
  distinct_seqs d' → (∀ e, newest d e → newest d' e ∧ d' !! e.2 = d !! e.2) →
  (∀ e, e ∈ snap_entries d' → e ∈ snap_entries d) → load_latest d' = load_latest d.
Proof.
  intros D N I. unfold load_latest. pose proof (find_latest_newest d) as F.
  destruct (find_latest_snapshot d) as [[s n]|].
  - destruct (N _ F) as [N' E]. rewrite (find_latest_eq _ _ D N'). cbn [snd] in E. by rewrite E.
  - pose proof (find_latest_newest d') as F'. destruct (find_latest_snapshot d') as [e|]; [|done].
    destruct F' as [F'%I _]. by apply F in F'.
Qed.
End latest.

(** ** Loading what was written *)

Lemma read_exact_app b l : read_exact (length b) (b ++ l) = Ok (b, l).
Proof.
  unfold read_exact. rewrite (proj2 (Nat.ltb_ge _ _)) by (rewrite length_app; lia).
  by rewrite take_app_length, drop_app_length.
Qed.

Lemma read_exact_le n z l : read_exact n (le_bytes n z ++ l) = Ok (le_bytes n z, l).
Proof. rewrite <- (length_le_bytes n z) at 1. apply read_exact_app. Qed.

Lemma le_val_small n z : 0 <= z < 256 ^ Z.of_nat n → le_val (le_bytes n z) = z.
Proof. intros. by rewrite le_val_le_bytes, Z.mod_small. Qed.

Lemma load_written `{SnapshotTextLaws} s seq :
  snapshot_float_free s = true → is_uint 64 seq = true →
  Z.of_nat (length (snapshot_to_vec s)) < 2 ^ 64 →
  load_snapshot (snapshot_file s seq) = Ok (s, seq).
Proof.
  intros F U%is_uint_spec L.
  unfold load_snapshot, snapshot_file. cbv zeta.
  rewrite read_exact_le. cbn [mbind result_bind]. rewrite le_val_small by done.
  rewrite Z.eqb_refl. cbn [negb].
  rewrite read_exact_le. cbn [mbind result_bind]. rewrite le_val_small by done.
  rewrite Z.eqb_refl. cbn [negb].
  rewrite read_exact_le. cbn [mbind result_bind]. rewrite (le_val_small 8 seq) by done.
  rewrite read_exact_le. cbn [mbind result_bind]. rewrite le_val_small by (split; [lia|done]).
  rewrite Nat2Z.id. rewrite <- (app_nil_r (snapshot_to_vec s)) at 2. rewrite read_exact_app.
  cbn [mbind result_bind]. by rewrite snapshot_text_roundtrip.
Qed.

(** ** Creating and pruning *)

Section changes.
Context `{SnapshotText} `{DirOrderLaws}.
Implicit Types d : Dir.

Lemma entries_temp d b e : e ∈ snap_entries (create_temp d b) ↔ e ∈ snap_entries d.
Proof.
  rewrite !elem_of_snap_entries. unfold create_temp.
  destruct (decide (e.2 = temp_name)) as [E|N]; [|by rewrite lookup_insert_ne].
  destruct e as [q n]. cbn [snd] in *. subst. rewrite snap_entry_temp. naive_solver.
Qed.

Lemma torn_temp_ignored d b : distinct_seqs d → load_latest (create_temp d b) = load_latest d.
Proof.
  intros D. apply load_latest_same; [|intros e N|by intros e ?%entries_temp].
  - intros e1 e2 I1%entries_temp I2%entries_temp. by apply D.
  - destruct N as [N1 N2]. split.
    + split; [by apply entries_temp|]. intros e' He'%entries_temp. by apply N2.
    + apply elem_of_snap_entries in N1 as [_ He]. unfold create_temp. rewrite lookup_insert_ne; [done|].
      intros E. by rewrite <- E, snap_entry_temp in He.
Qed.

Lemma rename_lookup d b to n :
  to ≠ temp_name →
  rename_temp (create_temp d b) to !! n =
    if decide (n = to) then Some b else if decide (n = temp_name) then None else d !! n.
Proof.
  intros Ht. unfold rename_temp, create_temp. rewrite lookup_insert_eq.
  destruct (decide (n = to)) as [->|N]; [by rewrite lookup_insert_eq|].
  rewrite lookup_insert_ne by done. destruct (decide (n = temp_name)) as [->|N'].
  - by rewrite lookup_delete_eq.
  - by rewrite lookup_delete_ne, lookup_insert_ne.
Qed.

Lemma snapshot_path_not_temp n : 0 <= n < 2 ^ 64 → snapshot_path n ≠ temp_name.
Proof. intros Hn E. pose proof (snap_entry_path n Hn) as P. by rewrite E, snap_entry_temp in P. Qed.

Lemma deleted_lookup l : ∀ d n,
  foldl (λ d (s : Z * string), delete s.2 d) d l !! n = if decide (n ∈ l.*2) then None else d !! n.
Proof.
  induction l as [|[s x] l IH]; intros d n; cbn [foldl].
  - rewrite decide_False; [done|apply not_elem_of_nil].
  - rewrite IH. cbn [snd fmap list_fmap]. destruct (decide (n ∈ l.*2)) as [E|N].
    + rewrite decide_True; [done|by right].
    + destruct (decide (n = x)) as [->|Nx].
      * rewrite lookup_delete_eq, decide_True; [done|by left].
      * rewrite lookup_delete_ne, decide_False; [done| |done]. by intros [?|?]%elem_of_cons.
Qed.

Lemma snap_entries_NoDup d : NoDup (snap_entries d).*2.
Proof.
  unfold snap_entries. assert (NoDup (dir_enum d)) as N.
  { rewrite dir_enum_perm. apply NoDup_fst_map_to_list. }
  induction N as [|x l Hx _ IH]; simpl; [constructor|].
  destruct (snap_entry x) as [e|] eqn:E; simpl; [|done]. constructor; [|done].
  rewrite (snap_entry_name _ _ E). intros (e' & -> & (y & Hy & Ey)%list_elem_of_omap)%list_elem_of_fmap.
  by rewrite (snap_entry_name _ _ Ey) in Hx.
Qed.

Lemma list_snapshots_perm d : list_snapshots d ≡ₚ snap_entries d.
Proof. apply merge_sort_Permutation. Qed.

Lemma entries_after_prune d k e :
  e ∈ snap_entries (foldl (λ d (s : Z * string), delete s.2 d) d (take k (list_snapshots d))) ↔
  e ∈ drop k (list_snapshots d).
Proof.
  pose proof (snap_entries_NoDup d) as N. rewrite <- list_snapshots_perm in N.
  set (l := list_snapshots d) in *. rewrite <- (take_drop k l), fmap_app in N.
  apply NoDup_app in N as (_ & N & _). rewrite elem_of_snap_entries, deleted_lookup. split.
  - destruct (decide _) as [?|Hn]; [intros [[? [=]] _]|]. intros He%elem_of_snap_entries.
    rewrite <- list_snapshots_perm in He. fold l in He. rewrite <- (take_drop k l) in He.
    apply elem_of_app in He as [He|]; [|done]. destruct Hn. by apply list_elem_of_fmap_2.
  - intros He. rewrite decide_False.
    + apply elem_of_snap_entries. rewrite <- list_snapshots_perm. fold l.
      rewrite <- (take_drop k l). apply elem_of_app. by right.
    + intros Hk. apply (N _ Hk). by apply list_elem_of_fmap_2.
Qed.

Lemma prune_keeps_newest d keep e :
  (0 < keep)%nat → distinct_seqs d → newest d e →
  e ∈ drop (length (list_snapshots d) - keep) (list_snapshots d).
Proof.
  intros K D [N1 N2]. pose proof N1 as Hin. rewrite <- list_snapshots_perm in Hin.
  set (l := list_snapshots d) in *. set (k := (length l - keep)%nat).
  rewrite <- (take_drop k l) in Hin. apply elem_of_app in Hin as [Hin|]; [|done].
  destruct (drop k l) as [|x r] eqn:Ed.
  { apply (f_equal length) in Ed. rewrite length_drop in Ed.
    assert (k = 0%nat) as Ek by (unfold k in *; destruct l; [done|cbn [length] in *; lia]).
    rewrite Ek in Hin. by apply not_elem_of_nil in Hin. }
  assert (Hx : x ∈ snap_entries d).
  { rewrite <- list_snapshots_perm. fold l. rewrite <- (take_drop k l), Ed. apply elem_of_app.
    right. by left. }
  assert (S : StronglySorted by_seq l) by (apply StronglySorted_merge_sort; apply _).
  rewrite <- (take_drop k l), Ed in S.
  assert (by_seq e x) as Hb by (eapply StronglySorted_app_1_elem_of; [exact S|done|by left]).
  assert (e = x) as -> by (apply D; [done|done|specialize (N2 _ Hx); unfold by_seq in Hb; lia]).
  by left.
Qed.
End changes.

(** ** A concrete text and directory order *)

#[export] Instance SnapshotRow_eq_dec : EqDecision SnapshotRow.
Proof. solve_decision. Defined.
#[export] Instance SnapshotTable_eq_dec : EqDecision SnapshotTable.
Proof. solve_decision. Defined.
#[export] Instance Snapshot_eq_dec : EqDecision Snapshot.
Proof. solve_decision. Defined.
#[export] Program Instance SnapshotRow_countable : Countable SnapshotRow :=
  inj_countable' (λ r, (sr_id r, sr_values r)) (λ p, MkSnapshotRow p.1 p.2) _.
Next Obligation. by intros []. Qed.
#[export] Program Instance SnapshotTable_countable : Countable SnapshotTable :=
  inj_countable' (λ t, (st_name t, st_rows t)) (λ p, MkSnapshotTable p.1 p.2) _.
Next Obligation. by intros []. Qed.
#[export] Program Instance Snapshot_countable : Countable Snapshot :=
  inj_countable' (λ s, (snap_version s, snap_tables s, snap_next_row_ids s))
    (λ p, MkSnapshot p.1.1 p.1.2 p.2) _.
Next Obligation. by intros []. Qed.

Fixpoint pos_bytes (p : positive) : list byte :=
  match p with xH => [] | xO p => x00 :: pos_bytes p | xI p => x01 :: pos_bytes p end.
Fixpoint bytes_pos (l : list byte) : positive :=
  match l with [] => xH | x00 :: l => xO (bytes_pos l) | _ :: l => xI (bytes_pos l) end.
Lemma bytes_pos_bytes p : bytes_pos (pos_bytes p) = p.
Proof. induction p as [p IH|p IH|]; simpl; by rewrite ?IH. Qed.

Definition demo_text : SnapshotText := {|
  snapshot_to_vec s := pos_bytes (encode s);
  snapshot_from_slice l := decode (bytes_pos l)
|}.
Lemma demo_text_laws : @SnapshotTextLaws demo_text.
Proof. intros s _. cbn. by rewrite bytes_pos_bytes, decode_encode. Qed.

Definition demo_dir_order : DirOrder := λ d, (map_to_list d).*1.
Lemma demo_dir_order_laws : @DirOrderLaws demo_dir_order.
Proof. by intros d. Qed.

Lemma create_then_load `{SnapshotTextLaws} `{DirOrderLaws} (d : Dir)
    (tables : list (string * list (Z * list (string * json)))) (ids : list (string * Z)) (seq : Z) :
  distinct_seqs d → is_uint 64 seq = true →
  snapshot_float_free (to_snapshot tables ids) = true →
  Z.of_nat (length (snapshot_to_vec (to_snapshot tables ids))) < 2 ^ 64 →
  (∀ e, e ∈ snap_entries d → e.1 < seq ∨ e = (seq, snapshot_path seq)) →
  load_latest (create_snapshot d tables ids seq).2 = Ok (Some (to_snapshot tables ids, seq)).
Proof.
  intros D U F L New.
  pose proof (proj1 (is_uint_spec _ _) U) as U'. pose proof (snap_entry_path seq U') as P.
  pose proof (snapshot_path_not_temp seq U') as NT. unfold create_snapshot. cbv zeta. cbn [snd].
  set (file := snapshot_file _ _). set (path := snapshot_path seq) in *.
  set (d' := rename_temp _ _).
  assert (Hd : ∀ e, e ∈ snap_entries d' → e = (seq, path) ∨ e ∈ snap_entries d).
  { intros [s n] He. apply elem_of_snap_entries in He as [Hd He]. cbn [snd] in *. unfold d' in Hd.
    rewrite rename_lookup in Hd by done. destruct (decide (n = path)) as [->|]; [left; congruence|].
    destruct (decide _); [by destruct Hd|]. right. by apply elem_of_snap_entries. }
  assert (N : newest d' (seq, path)).
  { split.
    - apply elem_of_snap_entries. split; [|done]. unfold d'. cbn [snd]. rewrite rename_lookup by done.
      by rewrite decide_True.
    - intros e [->|[?| ->]%New]%Hd; cbn [fst]; lia. }
  unfold load_latest. rewrite (find_latest_eq d' (seq, path)); [|intros e1 e2 I1 I2 E|done].
  - unfold d'. rewrite rename_lookup, decide_True by done. cbn [default].
    change (id file) with file. unfold file. by rewrite load_written.
  - apply Hd in I1 as [->|I1], I2 as [->|I2]; try done; [|..].
    + destruct (New _ I2) as [?| ->]; [cbn [fst] in *; lia|done].
    + destruct (New _ I1) as [?| ->]; [cbn [fst] in *; lia|done].
    + by apply D.
Qed.

(** ** Properties *)


(** Pruning keeps the [keep] newest snapshots, deletes the others and nothing
    else, reports how many it deleted, and, unless asked to keep none, does not
    change what recovery loads. *)
Theorem prune_keeps_latest `{SnapshotText} `{DirOrderLaws} (d : Dir) (keep : nat)
    (D : distinct_seqs d) (K : (0 < keep)%nat) :
  let '(deleted, d') := prune d keep in
  deleted = (length (snap_entries d) - keep)%nat ∧
  (∀ e, e ∈ snap_entries d' ↔ e ∈ drop deleted (list_snapshots d)) ∧
  StronglySorted by_seq (list_snapshots d) ∧
  (∀ name, snap_entry name = None → d' !! name = d !! name) ∧
  load_latest d' = load_latest d.
Proof.
  unfold prune. cbv zeta. pose proof (list_snapshots_perm d) as P.
  assert (E : length (take (length (list_snapshots d) - keep) (list_snapshots d)) =
    (length (list_snapshots d) - keep)%nat) by (rewrite length_take; lia).
  rewrite E. set (k := (length (list_snapshots d) - keep)%nat).
  set (d' := foldl _ _ _). assert (Hsub : ∀ e, e ∈ drop k (list_snapshots d) → e ∈ snap_entries d).
  { intros e He. rewrite <- P, <- (take_drop k). apply elem_of_app. by right. }
  split; [unfold k; by rewrite P|]. split; [intros e; apply entries_after_prune|].
  split; [apply StronglySorted_merge_sort; apply _|]. split.
  - intros name Hn. unfold d'. rewrite deleted_lookup, decide_False; [done|].
    intros (e & -> & He)%list_elem_of_fmap.
    assert (e ∈ snap_entries d) as [_ ?]%elem_of_snap_entries; [|congruence].
    rewrite <- P, <- (take_drop k). apply elem_of_app. by left.
  - apply load_latest_same; [|intros e N|by intros e ?%entries_after_prune%Hsub].
    + intros e1 e2 I1%entries_after_prune%Hsub I2%entries_after_prune%Hsub. by apply D.
    + pose proof (prune_keeps_newest d keep e K D N) as Hk. destruct N as [N1 N2]. split; [split|].
      * by apply entries_after_prune.
      * intros e' He'%entries_after_prune%Hsub. by apply N2.
      * unfold d'. rewrite deleted_lookup, decide_False; [done|]. intros Hn.
        pose proof (snap_entries_NoDup d) as ND. rewrite <- P, <- (take_drop k (list_snapshots d)), fmap_app in ND.
        apply NoDup_app in ND as (_ & ND & _). apply (ND _ Hn). by apply (list_elem_of_fmap_2 snd).
Qed.

(** ** Witnesses *)

Lemma distinct_of_NoDup `{DirOrder} (d : Dir) : NoDup (snap_entries d).*1 → distinct_seqs d.
Proof.
  unfold distinct_seqs. induction (snap_entries d) as [|x l IH]; simpl.
  - intros _ e1 e2 []%not_elem_of_nil.
  - intros [Hx N]%NoDup_cons e1 e2 [->|I1]%elem_of_cons [->|I2]%elem_of_cons E; try done.
    + destruct Hx. rewrite E. by apply list_elem_of_fmap_2.
    + destruct Hx. rewrite <- E. by apply list_elem_of_fmap_2.
    + by apply IH.
Qed.

Definition demo_tables : list (string * list (Z * list (string * json))) :=
  [("t"%string, [(1, [("v"%string, JNumber (PosInt 5))])])].
Definition demo_dir : Dir :=
  <["notes.txt"%string := [x00]]> {[snapshot_path 3 := snapshot_file (H := demo_text) (to_snapshot [] []) 3]}.


Definition demo_dir2 : Dir := <[snapshot_path 9 := [x00]]> demo_dir.

Lemma prune_keeps_latest_witness :
  let '(deleted, d') := @prune demo_dir_order demo_dir2 1 in
  deleted = (length (@snap_entries demo_dir_order demo_dir2) - 1)%nat ∧
  (∀ e, e ∈ @snap_entries demo_dir_order d' ↔
    e ∈ drop deleted (@list_snapshots demo_dir_order demo_dir2)) ∧
  StronglySorted by_seq (@list_snapshots demo_dir_order demo_dir2) ∧
  (∀ name, snap_entry name = None → d' !! name = demo_dir2 !! name) ∧
  @load_latest demo_text demo_dir_order d' = @load_latest demo_text demo_dir_order demo_dir2.
Proof.
  apply (@prune_keeps_latest demo_text demo_dir_order demo_dir_order_laws demo_dir2 1).
  - apply distinct_of_NoDup, (bool_decide_unpack _). vm_compute. exact I.
  - lia.
Defined.
