(* ===== verification/Durability.v ===== *)
(** [blitz-server/src/durability.rs], JSON payloads, snapshots of the engine and
    recovery: what is written to the log and to snapshots, and what a restart
    rebuilds from them. The group-commit thread is in [GroupCommit]. *)
From S2P Require Import Prelude Float Value HashMap Schema Core Codec Snapshot Wal.

Local Open Scope Z_scope.

(** ** Third-party code: the texts of [uuid] and [chrono], and JSON as bytes *)

Class ValueText : Type := {
  uuid_to_string : list byte → string;
  to_rfc3339 : Z → string;
  date_to_string : Z → string
}.

Class JsonBytes : Type := {
  json_to_vec : json → list byte;
  json_from_slice : list byte → option json
}.

(** [serde_json] reads back what it wrote, integers exactly (see
    [Snapshot.SnapshotText] for floats). *)
Class JsonBytesLaws `{JsonBytes} : Prop :=
  json_bytes_roundtrip j :
    json_okb j = true → float_free j = true → json_from_slice (json_to_vec j) = Some j.

(** The order in which the engine's [DashMap] lists its tables: any. *)
Class TableOrder : Type := table_enum : Engine → list string.
Class TableOrderLaws `{TableOrder} : Prop := table_enum_perm e : table_enum e ≡ₚ (map_to_list e).*1.

(** ** JSON and values *)

(** [json!(f)] for an [f32] widens it. *)
Definition json_of_f32 (b : Z) : json :=
  if f_exp F32 b =? 2 ^ ew F32 - 1 then JNull else JNumber (JFloat (f64_of_f32 b)).

Section values.
Context `{ValueText}.

Fixpoint value_to_json (v : value) : json :=
  match v with
  | VNull => JNull
  | VBoolean b => JBool b
  | VInt8 n | VInt16 n | VInt32 n | VInt64 n => json_of_i64 n
  | VUInt8 n | VUInt16 n | VUInt32 n | VUInt64 n => json_of_u64 n
  | VFloat32 n => json_of_f32 n
  | VFloat64 n => json_of_f64 n
  | VDecimal s => JString s
  | VString s => JString s
  | VBytes b => JArray ((λ x, json_of_u64 (byte_Z x)) <$> b)
  | VUuid u => JString (uuid_to_string u)
  | VTimestamp t => JString (to_rfc3339 t)
  | VDate d => JString (date_to_string d)
  | VJson j => j
  | VArray items => JArray (value_to_json <$> items)
  end.
End values.

Definition json_to_value (j : json) : value :=
  match j with
  | JNull => VNull
  | JBool b => VBoolean b
  | JNumber n =>
      match num_as_i64 n with
      | Some i => VInt64 i
      | None =>
          match num_as_u64 n with
          | Some u => VUInt64 u
          | None => match num_as_f64 n with Some f => VFloat64 f | None => VNull end
          end
      end
  | JString s => VString s
  | JArray items => VJson (JArray items)
  | JObject _ => VJson j
  end.

(** [iter().map(|(k, j)| (k, json_to_value(&j))).collect()] *)
Definition json_values (entries : list (string * json)) : values :=
  map_of_list ((λ kv, (kv.1, json_to_value kv.2)) <$> entries).

Definition values_to_json_bytes `{ValueText} `{JsonBytes} `{MapOrder} (vs : values) : list byte :=
  json_to_vec (JObject (obj_of_list ((λ kv, (kv.1, value_to_json kv.2)) <$> map_enum vs))).

(** [from_slice(..).ok().and_then(as_object).map(..).unwrap_or_default()] *)
Definition values_of_bytes `{JsonBytes} (data : list byte) : values :=
  match json_from_slice data with
  | Some (JObject m) => json_values m
  | _ => ∅
  end.

Definition infer_column_type (v : value) : column_type :=
  match v with
  | VBoolean _ => TBoolean
  | VInt8 _ => TInt8 | VInt16 _ => TInt16 | VInt32 _ => TInt32 | VInt64 _ => TInt64
  | VUInt8 _ => TUInt8 | VUInt16 _ => TUInt16 | VUInt32 _ => TUInt32 | VUInt64 _ => TUInt64
  | VFloat32 _ => TFloat32 | VFloat64 _ => TFloat64
  | _ => TString
  end.

Definition str_le (a b : string) : Prop := str_cmp a b ≠ Gt.
#[export] Instance str_le_dec : RelDecision str_le.
Proof. intros a b. unfold str_le. apply _. Defined.

(** [keys.sort()] on the keys of the sample, without the id. *)
Definition sample_keys (sample : values) : list string :=
  merge_sort str_le (filter (λ k, k ≠ "id"%string) (map_to_list sample).*1).

Definition infer_schema (uuid : list byte) (name : string) (sample : values) : TableSchema :=
  let s := with_column (TableSchema_new uuid name) (with_nullable (ColumnDef_new "id" TInt64)) in
  foldl (λ s k,
    match sample !! k with
    | Some v => with_column s (with_nullable (ColumnDef_new k (infer_column_type v)))
    | None => s
    end) s (sample_keys sample).

(** ** Snapshots of the engine *)

Definition by_id (a b : Z * list (string * json)) : Prop := a.1 <= b.1.
#[export] Instance by_id_dec : RelDecision by_id.
Proof. intros a b. unfold by_id. apply _. Defined.
Definition by_row_id (a b : SnapshotRow) : Prop := sr_id a <= sr_id b.
#[export] Instance by_row_id_dec : RelDecision by_row_id.
Proof. intros a b. unfold by_row_id. apply _. Defined.

Section snapshots.
Context `{ValueText} `{JsonBytes} `{MapOrder} `{RowOrder} `{TableOrder} `{SnapshotText} `{DirOrder}.

Definition snapshot_rows (e : Engine) (tname : string) : list (Z * list (string * json)) :=
  let rows := match scan e tname with Ok rows => rows | Err _ => [] end in
  merge_sort by_id
    ((λ r, (row_id r, (λ kv, (kv.1, value_to_json kv.2)) <$> map_enum (row_values r))) <$> rows).

Definition engine_tables (e : Engine) : list (string * list (Z * list (string * json))) :=
  (λ tname, (tname, snapshot_rows e tname)) <$> table_enum e.

(** [wal_seq] is the constant 0 and no allocator is saved. *)
Definition save_snapshot (e : Engine) (d : Dir) : string * Dir :=
  create_snapshot d (engine_tables e) [] 0.

(** ** Recovery *)

Definition LOCAL_MASK : Z := 0x00FFFFFFFFFFFFFF.

Definition ensure_table (uuid : list byte) (e : Engine) (name : string) (sample : values) : Engine :=
  if table_exists e name then e else snd (create_table e (infer_schema uuid name sample)).

Definition restore_row (name : string) (acc : Engine * nat) (r : SnapshotRow) : Engine * nat :=
  match insert_preserving_id acc.1 name (MkRow (sr_id r) (json_values (sr_values r))) with
  | (Ok _, e) => (e, S acc.2)
  | (Err _, e) => (e, acc.2)
  end.

Definition restore_table (uuid : list byte) (acc : Engine * nat) (t : SnapshotTable) : Engine * nat :=
  let sample := match st_rows t with r :: _ => json_values (sr_values r) | [] => ∅ end in
  let e := ensure_table uuid acc.1 (st_name t) sample in
  foldl (restore_row (st_name t)) (e, acc.2) (merge_sort by_row_id (st_rows t)).

Definition restore_snapshot (uuid : list byte) (e : Engine) (s : Snapshot) : Engine * nat :=
  foldl (restore_table uuid) (e, O) (snap_tables s).

Definition replay_entry (uuid : list byte) (e : Engine) (w : WalEntry) : Engine * bool :=
  let local := Z.land (e_row w) LOCAL_MASK in
  match e_type w with
  | EInsert =>
      let vs := values_of_bytes (e_data w) in
      let e := ensure_table uuid e (e_table w) vs in
      let '(r, e) := insert_preserving_id e (e_table w) (MkRow local vs) in
      (e, is_ok r)
  | EUpdate => (snd (update e (e_table w) local (values_of_bytes (e_data w))), true)
  | EDelete => (snd (delete_row e (e_table w) local), true)
  | ECommit | ERollback => (e, false)
  end.

(** One log file: opened, read, and its entries above the snapshot's sequence
    applied in order. *)
Definition replay_step (uuid : list byte) (snap_seq : Z) (acc : Engine * nat) (w : WalEntry)
    : Engine * nat :=
  if e_seq w <=? snap_seq then acc else
  let '(e, counted) := replay_entry uuid acc.1 w in
  (e, if counted : bool then S acc.2 else acc.2).

Definition read_all_or_default `{Crc32} (w : Wal) : list WalEntry :=
  match read_all (wal_file w) with Ok es => es | Err _ => [] end.

Definition replay_file `{Crc32} (uuid : list byte) (snap_seq : Z) (acc : Engine * nat)
    (file : list byte) : Engine * nat :=
  match open file with
  | Err _ => acc
  | Ok w => foldl (replay_step uuid snap_seq) acc (read_all_or_default w)
  end.

(** The log files in order: the single file of old, then the shards. *)
Definition recover `{Crc32} (uuid : list byte) (e : Engine) (d : Dir) (wal_files : list (list byte))
    : result snapshot_error (Engine * (nat * nat * nat)) :=
  latest ← load_latest d;
  let '(e, tables_restored, rows_restored, snap_seq) :=
    match latest with
    | Some (snap, seq) =>
        let '(e, rows) := restore_snapshot uuid e snap in (e, length (snap_tables snap), rows, seq)
    | None => (e, O, O, 0)
    end in
  let '(e, replayed) := foldl (replay_file uuid snap_seq) (e, O) wal_files in
  Ok (e, (tables_restored, rows_restored, replayed)).
End snapshots.

(** ** Values through JSON *)

(** The values that come back from JSON unchanged. *)
Definition survives_json (v : value) : bool :=
  match v with
  | VNull | VBoolean _ | VInt64 _ | VString _ => true
  | VUInt64 n => 2 ^ 63 <=? n
  | VFloat64 b => negb (f_exp F64 b =? 2 ^ ew F64 - 1)
  | VJson (JArray _) | VJson (JObject _) => true
  | _ => false
  end.

Lemma json_to_value_i64 n : is_sint 64 n = true → json_to_value (json_of_i64 n) = VInt64 n.
Proof.
  intros [L U]%is_sint_spec. unfold json_of_i64, json_to_value, num_as_i64.
  change (2 ^ (64 - 1)) with (2 ^ 63) in *.
  destruct (Z.leb_spec 0 n); [|done]. by rewrite (proj2 (Z.ltb_lt _ _)).
Qed.

Lemma json_to_value_u64 n : json_to_value (json_of_u64 n) = if n <? 2 ^ 63 then VInt64 n else VUInt64 n.
Proof. unfold json_of_u64, json_to_value, num_as_i64. by destruct (n <? 2 ^ 63). Qed.

Lemma json_to_value_f64 b :
  json_to_value (json_of_f64 b) = if f_exp F64 b =? 2 ^ ew F64 - 1 then VNull else VFloat64 b.
Proof. unfold json_of_f64. by case_match. Qed.

Lemma json_to_value_f32 b :
  json_to_value (json_of_f32 b) =
    if f_exp F32 b =? 2 ^ ew F32 - 1 then VNull else VFloat64 (f64_of_f32 b).
Proof. unfold json_of_f32. by case_match. Qed.

(** ** One row under replay *)

Definition local_id (w : WalEntry) : Z := Z.land (e_row w) LOCAL_MASK.
Definition addresses (w : WalEntry) (k : string * Z) : Prop := (e_table w, local_id w) = k.
#[export] Instance addresses_dec : RelDecision addresses.
Proof. intros w k. unfold addresses. apply _. Defined.

(** What an entry does to the row it addresses. *)
Definition replay_row `{JsonBytes} (cur : option values) (w : WalEntry) : option values :=
  match e_type w with
  | EInsert => match cur with Some _ => cur | None => Some (values_of_bytes (e_data w)) end
  | EUpdate => (λ old, values_of_bytes (e_data w) ∪ old) <$> cur
  | EDelete => None
  | ECommit | ERollback => cur
  end.

Definition vals_at (e : Engine) (k : string * Z) : option values := row_values <$> row_at e k.

(** The table has no uniqueness column. *)
Definition t_plain (t : InMemoryTable) : Prop := uniq_cols t = [].
Definition plain (e : Engine) : Prop := map_Forall (λ _ t, t_plain t) e.

Lemma t_preserving_plain t row :
  t_plain t → t_rows t !! row_id row = None →
  ∃ t', t_insert_preserving_id t row = (Ok (row_id row), t') ∧
    t_rows t' = <[row_id row := row]> (t_rows t) ∧ t_schema t' = t_schema t ∧
    t_next_id t' = (if t_next_id t <=? row_id row then wrap 64 (row_id row + 1) else t_next_id t).
Proof.
  intros P N. unfold t_insert_preserving_id. rewrite N, P. cbn [check_uniq].
  eexists. split; [reflexivity|]. unfold index_row. by destruct (t_next_id t <=? row_id row).
Qed.

Lemma t_update_plain t id vs :
  t_plain t →
  t_rows (t_update t id vs).2 =
    match t_rows t !! id with
    | Some cur => <[id := MkRow (row_id cur) (vs ∪ row_values cur)]> (t_rows t)
    | None => t_rows t
    end ∧ t_schema (t_update t id vs).2 = t_schema t.
Proof.
  intros P. unfold t_update. destruct (t_rows t !! id) as [cur|]; [|done].
  rewrite P. cbn [check_uniq]. done.
Qed.

Lemma t_plain_schema t t' : t_schema t' = t_schema t → t_plain t → t_plain t'.
Proof. unfold t_plain, uniq_cols. by intros ->. Qed.

Lemma vals_at_insert e n t k :
  vals_at (<[n := t]> e) k = if decide (n = k.1) then row_values <$> t_rows t !! k.2 else vals_at e k.
Proof. unfold vals_at. rewrite row_at_insert. by case_decide. Qed.

Lemma plain_insert e n t : t_plain t → plain e → plain (<[n := t]> e).
Proof. intros P F. by apply map_Forall_insert_2. Qed.

Lemma plain_lookup e n t : plain e → e !! n = Some t → t_plain t.
Proof. intros F. apply F. Qed.

Lemma vals_at_lookup e k t : e !! k.1 = Some t → vals_at e k = row_values <$> t_rows t !! k.2.
Proof. unfold vals_at, row_at. by intros ->. Qed.

Lemma preserving_at e n row k :
  plain e → is_Some (e !! n) →
  vals_at (insert_preserving_id e n row).2 k =
    (if decide ((n, row_id row) = k)
     then match vals_at e k with Some vs => Some vs | None => Some (row_values row) end
     else vals_at e k) ∧
  plain (insert_preserving_id e n row).2 ∧
  is_ok (insert_preserving_id e n row).1 = bool_decide (vals_at e (n, row_id row) = None).
Proof.
  intros P [t Ht]. unfold insert_preserving_id, with_table, table. rewrite Ht. cbn [ok_or].
  pose proof (plain_lookup _ _ _ P Ht) as Pt.
  rewrite (vals_at_lookup e (n, row_id row) t Ht). cbn [fst snd].
  destruct (t_rows t !! row_id row) as [r|] eqn:Er.
  - unfold t_insert_preserving_id. rewrite Er. cbn [fst snd]. rewrite insert_id by done.
    split; [|done]. destruct (decide _) as [<-|]; [|done].
    rewrite (vals_at_lookup e (n, row_id row) t Ht). cbn [snd]. by rewrite Er.
  - destruct (t_preserving_plain t row Pt Er) as (t' & -> & Hr & Hs & _). cbn [fst snd].
    split; [|split; [apply plain_insert; [by apply (t_plain_schema t)|done]|done]].
    rewrite vals_at_insert. destruct k as [m i]. cbn [fst snd].
    destruct (decide (n = m)) as [<-|N]; [|by rewrite decide_False by congruence].
    rewrite Hr. rewrite (vals_at_lookup e (n, i) t Ht). cbn [snd].
    destruct (decide (row_id row = i)) as [<-|N].
    + rewrite lookup_insert_eq, decide_True by done. by rewrite Er.
    + rewrite lookup_insert_ne by done. by rewrite decide_False by congruence.
Qed.

Lemma update_at e n id vs k :
  plain e →
  vals_at (update e n id vs).2 k =
    (if decide ((n, id) = k) then (λ old, vs ∪ old) <$> vals_at e k else vals_at e k) ∧
  plain (update e n id vs).2.
Proof.
  intros P. unfold update, with_table, table. destruct (e !! n) as [t|] eqn:Ht; cbn [ok_or].
  - destruct (t_update_plain t id vs (plain_lookup _ _ _ P Ht)) as [Hr Hs].
    destruct (t_update t id vs) as [r t']. cbn [fst snd] in *.
    split; [|apply plain_insert; [apply (t_plain_schema t); [done|by eapply plain_lookup]|done]].
    rewrite vals_at_insert. destruct k as [m i]. cbn [fst snd].
    destruct (decide (n = m)) as [<-|N]; [|by rewrite decide_False by congruence].
    rewrite (vals_at_lookup e (n, i) t Ht). cbn [snd]. rewrite Hr.
    destruct (decide ((n, id) = (n, i))) as [[= <-]|N].
    + destruct (t_rows t !! id) eqn:E; [by rewrite lookup_insert_eq|by rewrite E].
    + destruct (t_rows t !! id) eqn:E; [|done]. by rewrite lookup_insert_ne by congruence.
  - split; [|done]. cbn [snd]. destruct (decide _) as [<-|]; [|done].
    unfold vals_at, row_at. cbn [fst]. by rewrite Ht.
Qed.

Lemma delete_at e n id k :
  plain e →
  vals_at (delete_row e n id).2 k = (if decide ((n, id) = k) then None else vals_at e k) ∧
  plain (delete_row e n id).2.
Proof.
  intros P. unfold delete_row, take, with_table, table. destruct (e !! n) as [t|] eqn:Ht; cbn [ok_or].
  - destruct (t_take t id) as [r t'] eqn:E. cbn [fst snd] in *.
    destruct (t_take_rows _ _ _ _ E) as (_ & Hr & _ & Hs).
    split; [|apply plain_insert; [apply (t_plain_schema t); [done|by eapply plain_lookup]|done]].
    rewrite vals_at_insert. destruct k as [m i]. cbn [fst snd].
    destruct (decide (n = m)) as [<-|N]; [|by rewrite decide_False by congruence].
    rewrite (vals_at_lookup e (n, i) t Ht). cbn [snd]. rewrite Hr.
    destruct (decide ((n, id) = (n, i))) as [[= <-]|N]; [by rewrite lookup_delete_eq|].
    by rewrite lookup_delete_ne by congruence.
  - split; [|done]. cbn [snd]. destruct (decide _) as [<-|]; [|done].
    unfold vals_at, row_at. cbn [fst]. by rewrite Ht.
Qed.

(** ** Inferred tables are plain *)

Lemma infer_schema_plain uuid name sample :
  t_plain (InMemoryTable_new (infer_schema uuid name sample)).
Proof.
  unfold t_plain, uniq_cols. cbn [t_schema InMemoryTable_new].
  assert (F : Forall (λ c, primary_key c || unique c = false)
    (columns (infer_schema uuid name sample))).
  { unfold infer_schema.
    assert (Forall (λ c, primary_key c || unique c = false)
      (columns (with_column (TableSchema_new uuid name) (with_nullable (ColumnDef_new "id" TInt64)))))
      as F0 by (repeat constructor). revert F0. generalize (with_column (TableSchema_new uuid name)
        (with_nullable (ColumnDef_new "id" TInt64))) as s.
    induction (sample_keys sample) as [|k ks IH]; intros s F0; [done|]. cbn [foldl]. apply IH.
    destruct (sample !! k); [|done]. apply Forall_app_2; [done|]. repeat constructor. }
  induction F as [|c cs Fc _ IH]; [done|]. rewrite filter_cons_False by congruence. done.
Qed.

Lemma infer_schema_name uuid name sample : schema_name (infer_schema uuid name sample) = name.
Proof.
  unfold infer_schema.
  assert (E : schema_name (with_column (TableSchema_new uuid name)
    (with_nullable (ColumnDef_new "id" TInt64))) = name) by done. revert E.
  generalize (with_column (TableSchema_new uuid name) (with_nullable (ColumnDef_new "id" TInt64))) as s.
  induction (sample_keys sample) as [|k ks IH]; intros s E; [done|]. cbn [foldl]. apply IH.
  by destruct (sample !! k).
Qed.

Lemma ensure_table_at uuid e n sample k :
  plain e →
  vals_at (ensure_table uuid e n sample) k = vals_at e k ∧
  plain (ensure_table uuid e n sample) ∧ is_Some (ensure_table uuid e n sample !! n).
Proof.
  intros P. unfold ensure_table, create_table, create_check. rewrite infer_schema_name.
  unfold table_exists. case_bool_decide as D; [done|].
  cbn [snd]. unfold create_put. rewrite infer_schema_name. split; [|split].
  - rewrite vals_at_insert. destruct (decide (n = k.1)) as [->|]; [|done].
    unfold vals_at, row_at. apply eq_None_not_Some in D. rewrite D. done.
  - apply plain_insert; [apply infer_schema_plain|done].
  - rewrite lookup_insert_eq. by eexists.
Qed.

(** ** Replay, row by row *)

Section replay.
Context `{JsonBytes}.

(** The entries of a log that address a row, applied in order. *)
Definition replay_key (k : string * Z) (cur : option values) (es : list WalEntry) : option values :=
  foldl (λ cur w, if decide (addresses w k) then replay_row cur w else cur) cur es.

Lemma replay_entry_at uuid e w k :
  plain e →
  vals_at (replay_entry uuid e w).1 k =
    (if decide (addresses w k) then replay_row (vals_at e k) w else vals_at e k) ∧
  plain (replay_entry uuid e w).1.
Proof.
  intros P. unfold replay_entry, replay_row, addresses. fold (local_id w).
  destruct (e_type w); cbn [fst].
  - pose proof (ensure_table_at uuid e (e_table w) (values_of_bytes (e_data w)) k P) as (Ee & Pe & Se).
    destruct (preserving_at _ _ (MkRow (local_id w) (values_of_bytes (e_data w))) k Pe Se)
      as (Ei & Pi & _). destruct (insert_preserving_id _ _ _) as [r e']. cbn [fst snd] in *.
    rewrite Ei, Ee. cbn [row_id row_values]. split; [|done].
    by destruct (vals_at e k).
  - by apply update_at.
  - by apply delete_at.
  - split; [by case_decide|done].
  - split; [by case_decide|done].
Qed.

Lemma replay_at uuid seq es : ∀ e n k,
  plain e →
  vals_at (foldl (replay_step uuid seq) (e, n) es).1 k =
    replay_key k (vals_at e k) (filter (λ w, seq < e_seq w) es) ∧
  plain (foldl (replay_step uuid seq) (e, n) es).1.
Proof.
  induction es as [|w es IH]; intros e n k P; [done|]. cbn [foldl]. unfold replay_step at 2 4.
  destruct (Z.leb_spec (e_seq w) seq).
  - rewrite filter_cons_False by lia. by apply IH.
  - rewrite filter_cons_True by lia. unfold replay_key. cbn [foldl fst snd].
    destruct (replay_entry_at uuid e w k P) as [E P'].
    destruct (replay_entry uuid e w) as [e' c]. cbn [fst] in *.
    specialize (IH e' (if c then S n else n) k P'). rewrite E in IH. exact IH.
Qed.

(** A row's log is admissible when each entry did something when it was logged: an
    insert found no row, an update or a delete found one. *)
Fixpoint row_log_ok (cur : option values) (es : list WalEntry) : Prop :=
  match es with
  | [] => True
  | w :: es =>
      match e_type w with
      | EInsert => cur = None
      | EUpdate | EDelete => is_Some cur
      | ECommit | ERollback => True
      end ∧ row_log_ok (replay_row cur w) es
  end.

Definition row_log (k : string * Z) (es : list WalEntry) : list WalEntry :=
  filter (λ w, addresses w k) es.

Lemma replay_key_row_log k cur es : replay_key k cur es = foldl replay_row cur (row_log k es).
Proof.
  unfold replay_key, row_log. revert cur. induction es as [|w es IH]; intros cur; [done|].
  cbn [foldl]. destruct (decide (addresses w k)).
  - rewrite filter_cons_True by done. apply IH.
  - rewrite filter_cons_False by done. apply IH.
Qed.

(** After a delete the past of a row no longer matters. *)
Lemma replay_after_delete es a b :
  Exists (λ w, e_type w = EDelete) es → foldl replay_row a es = foldl replay_row b es.
Proof.
  revert a b. induction es as [|w es IH]; intros a b; [by intros ?%Exists_nil|].
  cbn [foldl]. intros [E|E]%Exists_cons; [|by apply IH]. unfold replay_row at 2 4. by rewrite E.
Qed.

(** What a run of updates writes. *)
Definition written (es : list WalEntry) : values :=
  foldl (λ m w, match e_type w with EUpdate => values_of_bytes (e_data w) ∪ m | _ => m end) ∅ es.

Lemma replay_updates es : ∀ a m,
  row_log_ok (Some a) es → Forall (λ w, e_type w ≠ EDelete) es →
  ∀ b, foldl replay_row (Some (m ∪ b)) es =
    Some (foldl (λ m w, match e_type w with EUpdate => values_of_bytes (e_data w) ∪ m | _ => m end) m es ∪ b).
Proof.
  induction es as [|w es IH]; intros a m O F b; [done|]. cbn [foldl row_log_ok] in *.
  apply Forall_cons in F as [Fw F]. destruct O as [Ow O]. unfold replay_row in *.
  destruct (e_type w); try done; cbn [fmap option_fmap option_map] in *.
  - rewrite map_union_assoc. by eapply IH.
  - by eapply IH.
  - by eapply IH.
Qed.

Lemma replay_updates_written es a b :
  row_log_ok (Some a) es → Forall (λ w, e_type w ≠ EDelete) es →
  foldl replay_row (Some b) es = Some (written es ∪ b).
Proof.
  intros O F. pose proof (replay_updates es a ∅ O F b) as E. by rewrite map_empty_union in E.
Qed.

Lemma union_absorb (m a : values) : m ∪ (m ∪ a) = m ∪ a.
Proof. by rewrite map_union_assoc, map_union_idemp. Qed.

Lemma replay_no_delete_idem es : ∀ cur,
  row_log_ok cur es → Forall (λ w, e_type w ≠ EDelete) es →
  foldl replay_row (foldl replay_row cur es) es = foldl replay_row cur es.
Proof.
  induction es as [|w es IH]; intros cur O F; [done|].
  destruct cur as [a|].
  - rewrite !(replay_updates_written _ _ _ O F). by rewrite union_absorb.
  - cbn [foldl row_log_ok] in *. apply Forall_cons in F as [Fw F]. destruct O as [Ow O].
    destruct (e_type w) eqn:T; try done; try (by destruct Ow).
    + assert (R : ∀ c, replay_row c w =
        match c with Some _ => c | None => Some (values_of_bytes (e_data w)) end)
        by (intros; unfold replay_row; by rewrite T).
      rewrite (R None) in *. cbv beta iota in *. rewrite (replay_updates_written _ _ _ O F). rewrite R.
      cbv beta iota. rewrite (replay_updates_written _ _ _ O F). by rewrite union_absorb.
    + assert (R : ∀ c, replay_row c w = c) by (intros; unfold replay_row; by rewrite T).
      rewrite (R None) in *. rewrite R. by apply IH.
    + assert (R : ∀ c, replay_row c w = c) by (intros; unfold replay_row; by rewrite T).
      rewrite (R None) in *. rewrite R. by apply IH.
Qed.

Lemma row_log_ok_app cur es fs : row_log_ok cur (es ++ fs) → row_log_ok cur es.
Proof.
  revert cur. induction es as [|w es IH]; intros cur; [done|]. cbn [app row_log_ok].
  intros [? ?]. split; [done|]. by apply IH.
Qed.

Lemma replay_row_again cur es fs :
  row_log_ok cur (es ++ fs) →
  foldl replay_row (foldl replay_row cur es) (es ++ fs) = foldl replay_row cur (es ++ fs).
Proof.
  intros O. destruct (decide (Exists (λ w, e_type w = EDelete) (es ++ fs))) as [E|N].
  - by apply replay_after_delete.
  - rewrite !foldl_app. rewrite replay_no_delete_idem; [done|by eapply row_log_ok_app|].
    apply Forall_forall. intros w Hw E. apply N, Exists_exists. exists w. split; [|done].
    apply elem_of_app. by left.
Qed.
End replay.

(** ** Snapshots restore the rows they were taken of *)

Lemma map_of_list_nodup (l : list (string * value)) : NoDup l.*1 → map_of_list l = list_to_map l.
Proof.
  intros N. rewrite map_of_list_spec. apply list_to_map_proper.
  - by rewrite <- Permutation_rev.
  - symmetry. apply Permutation_rev.
Qed.

(** What recovery makes of a stored row. *)
Definition reloaded `{ValueText} (vs : values) : values := (λ v, json_to_value (value_to_json v)) <$> vs.

Lemma json_values_reloaded `{ValueText} `{MapOrderLaws} vs :
  json_values ((λ kv, (kv.1, value_to_json kv.2)) <$> map_enum vs) = reloaded vs.
Proof.
  unfold json_values. rewrite <- list_fmap_compose. unfold compose. cbn [fst snd].
  set (f := λ kv : string * value, (kv.1, json_to_value (value_to_json kv.2))).
  assert (N : NoDup (f <$> map_enum vs).*1).
  { rewrite <- list_fmap_compose. unfold f, compose. cbn [fst].
    change (NoDup ((map_enum vs).*1)). rewrite map_enum_perm. apply NoDup_fst_map_to_list. }
  rewrite map_of_list_nodup by done.
  assert (P : f <$> map_enum vs ≡ₚ map_to_list (reloaded vs)).
  { unfold reloaded. rewrite map_enum_perm, map_to_list_fmap. f_equiv. }
  rewrite (list_to_map_proper _ _ N P). apply list_to_map_to_list.
Qed.

Definition row_pairs (rows : list SnapshotRow) : list (Z * values) :=
  (λ r, (sr_id r, json_values (sr_values r))) <$> rows.

Lemma restore_rows_at n rows : ∀ e c k,
  plain e → is_Some (e !! n) → NoDup (sr_id <$> rows) →
  (∀ r, r ∈ rows → vals_at e (n, sr_id r) = None) →
  let '(e', c') := foldl (restore_row n) (e, c) rows in
  vals_at e' k =
    (if decide (k.1 = n) then (list_to_map (row_pairs rows) : gmap Z values) !! k.2 else None) ∪ vals_at e k ∧
  plain e' ∧ is_Some (e' !! n) ∧ c' = (c + length rows)%nat.
Proof.
  induction rows as [|r rows IH]; intros e c k P So N Hn; cbn [foldl].
  - split; [|split; [done|split; [done|simpl; lia]]]. case_decide; [|by destruct (vals_at e k)].
    cbn. by destruct (vals_at e k).
  - cbn [fmap list_fmap] in N. apply NoDup_cons in N as [Nr N].
    unfold restore_row at 2. cbn [fst snd].
    set (row := MkRow (sr_id r) (json_values (sr_values r))).
    assert (En : vals_at e (n, sr_id r) = None) by (apply Hn; by left).
    pose proof (λ k, preserving_at e n row k P So) as A.
    assert (S' : is_Some ((insert_preserving_id e n row).2 !! n)).
    { unfold insert_preserving_id, with_table, table. destruct So as [t ->]. cbn [ok_or].
      destruct (t_insert_preserving_id t row). cbn [snd]. rewrite lookup_insert_eq. by eexists. }
    destruct (A k) as (Ek & P' & Eo). cbn [row row_id] in Eo. rewrite En in Eo.
    rewrite bool_decide_true in Eo by done.
    destruct (insert_preserving_id e n row) as [[x|err] e1] eqn:Ei; [|done]. cbn [fst snd] in *.
    specialize (IH e1 (S c) k P' S' N).
    destruct (foldl (restore_row n) (e1, S c) rows) as [e' c'].
    destruct IH as (IH & Pl & Sl & Cl).
    { intros r' Hr'. destruct (A (n, sr_id r')) as [Er' _]. rewrite Er'. cbn [row row_id].
      rewrite decide_False; [apply Hn; by right|].
      intros [= E]. destruct Nr. rewrite E. by apply list_elem_of_fmap_2. }
    split; [|split; [done|split; [done|simpl; lia]]].
    rewrite IH, Ek. cbn [row row_id row_values].
    change (row_pairs (r :: rows)) with ((sr_id r, json_values (sr_values r)) :: row_pairs rows).
    rewrite list_to_map_cons. cbn [fst snd].
    destruct k as [m i]. cbn [fst snd]. destruct (decide (m = n)) as [->|Nm].
    + destruct (decide ((n, sr_id r) = (n, i))) as [[= <-]|Nk].
      * rewrite lookup_insert_eq, En. cbn [fst].
        rewrite (not_elem_of_list_to_map_1 _ (sr_id r)); [done|].
        unfold row_pairs. rewrite <- list_fmap_compose. unfold compose. cbn [fst]. done.
      * rewrite lookup_insert_ne by congruence. done.
    + by rewrite decide_False by congruence.
Qed.

(** The rows a snapshot holds. *)
Definition table_at (t : SnapshotTable) (k : string * Z) : option values :=
  if decide (k.1 = st_name t) then (list_to_map (row_pairs (st_rows t)) : gmap Z values) !! k.2 else None.
Definition tables_at (ts : list SnapshotTable) (k : string * Z) : option values :=
  foldr (λ t acc, table_at t k ∪ acc) None ts.

Lemma insert_preserving_exists e n row m :
  is_Some ((insert_preserving_id e n row).2 !! m) ↔ is_Some (e !! m).
Proof.
  unfold insert_preserving_id, with_table, table. destruct (e !! n) as [t|] eqn:E; [|done].
  cbn [ok_or]. destruct (t_insert_preserving_id t row). cbn [snd].
  destruct (decide (n = m)) as [->|N]; [|by rewrite lookup_insert_ne].
  rewrite lookup_insert_eq, E. split; intros; by eexists.
Qed.

Lemma restore_rows_exists n rows m : ∀ acc,
  is_Some ((foldl (restore_row n) acc rows).1 !! m) ↔ is_Some (acc.1 !! m).
Proof.
  induction rows as [|r rows IH]; intros acc; [done|]. cbn [foldl]. rewrite IH. unfold restore_row.
  pose proof (insert_preserving_exists acc.1 n (MkRow (sr_id r) (json_values (sr_values r))) m) as E.
  by destruct (insert_preserving_id _ _ _) as [[] e'].
Qed.

Lemma ensure_table_exists uuid e n sample m :
  is_Some (ensure_table uuid e n sample !! m) ↔ n = m ∨ is_Some (e !! m).
Proof.
  unfold ensure_table, create_table, create_check. rewrite infer_schema_name. unfold table_exists.
  case_bool_decide as D; [naive_solver|]. cbn [snd]. unfold create_put. rewrite infer_schema_name.
  destruct (decide (n = m)) as [->|N]; [rewrite lookup_insert_eq|rewrite lookup_insert_ne by done];
    naive_solver.
Qed.

Lemma row_pairs_keys rows : (row_pairs rows).*1 = sr_id <$> rows.
Proof. unfold row_pairs. by rewrite <- list_fmap_compose. Qed.

Lemma restore_table_at uuid t e c k :
  plain e → NoDup (sr_id <$> st_rows t) → (∀ i, vals_at e (st_name t, i) = None) →
  let '(e', c') := restore_table uuid (e, c) t in
  vals_at e' k = table_at t k ∪ vals_at e k ∧ plain e' ∧ c' = (c + length (st_rows t))%nat ∧
  (∀ m, is_Some (e' !! m) ↔ st_name t = m ∨ is_Some (e !! m)).
Proof.
  intros P N Hn. unfold restore_table. cbv zeta. cbn [fst snd].
  set (sample := match st_rows t with [] => ∅ | r :: _ => json_values (sr_values r) end).
  pose proof (λ k, ensure_table_at uuid e (st_name t) sample k P) as A.
  destruct (A k) as (Ek & P1 & S1).
  assert (Pm : merge_sort by_row_id (st_rows t) ≡ₚ st_rows t) by apply merge_sort_Permutation.
  pose proof (restore_rows_at (st_name t) (merge_sort by_row_id (st_rows t)) _ c k P1 S1) as R.
  pose proof (λ m, restore_rows_exists (st_name t) (merge_sort by_row_id (st_rows t)) m
    (ensure_table uuid e (st_name t) sample, c)) as X.
  destruct (foldl _ _ _) as [e' c']. destruct R as (R1 & R2 & R3 & R4).
  - by rewrite Pm.
  - intros r _. rewrite (proj1 (A _)). apply Hn.
  - split; [|split; [done|split; [by rewrite R4, Pm|]]].
    + rewrite R1, Ek. unfold table_at. f_equal. case_decide; [|done].
      assert (Pp : row_pairs (merge_sort by_row_id (st_rows t)) ≡ₚ row_pairs (st_rows t))
        by (unfold row_pairs; by rewrite Pm).
      rewrite (list_to_map_proper (M := gmap Z) _ (row_pairs (st_rows t))); [done| |done].
      by rewrite row_pairs_keys, Pm.
    + intros m. rewrite (X m). cbn [fst]. apply ensure_table_exists.
Qed.

Lemma restore_tables_at uuid ts : ∀ e c k,
  plain e → NoDup (st_name <$> ts) → Forall (λ t, NoDup (sr_id <$> st_rows t)) ts →
  (∀ t i, t ∈ ts → vals_at e (st_name t, i) = None) →
  let '(e', c') := foldl (restore_table uuid) (e, c) ts in
  vals_at e' k = tables_at ts k ∪ vals_at e k ∧ plain e' ∧
  c' = (c + sum_list ((λ t, length (st_rows t)) <$> ts))%nat ∧
  (∀ m, is_Some (e' !! m) ↔ m ∈ st_name <$> ts ∨ is_Some (e !! m)).
Proof.
  induction ts as [|t ts IH]; intros e c k P N F Hn; cbn [foldl].
  - split; [by destruct (vals_at e k)|]. split; [done|]. split; [simpl; lia|]. intros m.
    cbn. rewrite elem_of_nil. tauto.
  - apply Forall_cons in F as [Ft F]. cbn [fmap list_fmap] in N. apply NoDup_cons in N as [Nt N].
    pose proof (λ k, restore_table_at uuid t e c k P Ft (λ i, Hn t i ltac:(by left))) as A.
    destruct (restore_table uuid (e, c) t) as [e1 c1]. destruct (A k) as (E1 & P1 & C1 & X1).
    specialize (IH e1 c1 k P1 N F). destruct (foldl (restore_table uuid) (e1, c1) ts) as [e' c'].
    destruct IH as (E & P' & C & X).
    { intros t' i Ht'. destruct (A (st_name t', i)) as [-> _]. unfold table_at. cbn [fst].
      rewrite decide_False; [rewrite Hn; [done|by right]|].
      intros Eq. destruct Nt. rewrite <- Eq. by apply list_elem_of_fmap_2. }
    split; [|split; [done|split]].
    + rewrite E, E1. change (tables_at (t :: ts) k) with (table_at t k ∪ tables_at ts k).
      unfold table_at.
      destruct (decide (k.1 = st_name t)) as [Ek|]; [|by destruct (tables_at ts k), (vals_at e k)].
      assert (tables_at ts k = None) as ->; [|by destruct (list_to_map (row_pairs (st_rows t)) !! k.2), (vals_at e k)].
      clear -Nt Ek. induction ts as [|t' ts IH]; [done|].
      change (tables_at (t' :: ts) k) with (table_at t' k ∪ tables_at ts k).
      apply not_elem_of_cons in Nt as [N1 N2]. unfold table_at.
      rewrite decide_False by congruence. rewrite IH by done. done.
    + rewrite C, C1. cbn. lia.
    + intros m. rewrite X, X1. cbn [fmap list_fmap]. rewrite elem_of_cons. naive_solver.
Qed.

Section engine_snapshots.
Context `{ValueText} `{MapOrderLaws} `{RowOrderLaws} `{TableOrderLaws}.

(** Every row is stored under its own id (part of the table invariant in [Core]). *)
Definition keyed (e : Engine) : Prop :=
  ∀ n t i r, e !! n = Some t → t_rows t !! i = Some r → row_id r = i.

Definition snap_of (e : Engine) : Snapshot := to_snapshot (engine_tables e) [].

Definition snap_table (e : Engine) (n : string) : SnapshotTable :=
  MkSnapshotTable n ((λ r, MkSnapshotRow r.1 r.2) <$> snapshot_rows e n).

Lemma snap_of_tables e : snap_tables (snap_of e) = snap_table e <$> table_enum e.
Proof. unfold snap_of, to_snapshot, engine_tables. cbn. by rewrite <- list_fmap_compose. Qed.

Lemma snap_table_pairs e n t :
  keyed e → e !! n = Some t →
  row_pairs (st_rows (snap_table e n)) ≡ₚ map_to_list ((λ r, reloaded (row_values r)) <$> t_rows t).
Proof.
  intros K Ht. unfold row_pairs, snap_table, snapshot_rows. cbn [st_rows].
  rewrite merge_sort_Permutation, <- !list_fmap_compose. unfold scan, table. rewrite Ht.
  cbn [ok_or mbind result_bind]. unfold t_scan. rewrite row_enum_perm, <- list_fmap_compose.
  rewrite map_to_list_fmap. unfold compose. cbn [sr_id sr_values fst snd].
  apply Permutation_refl', list_fmap_ext. intros j [i r] Hj%list_elem_of_lookup_2%elem_of_map_to_list.
  cbn [fst snd prod_map]. rewrite json_values_reloaded. by rewrite (K _ _ _ _ Ht Hj).
Qed.

Lemma table_enum_elem e n : n ∈ table_enum e ↔ is_Some (e !! n).
Proof.
  rewrite table_enum_perm, list_elem_of_fmap. split.
  - intros ([m t] & -> & Ht%elem_of_map_to_list). by eexists.
  - intros [t Ht]. exists (n, t). split; [done|]. by apply elem_of_map_to_list.
Qed.

Lemma table_enum_NoDup e : NoDup (table_enum e).
Proof. rewrite table_enum_perm. apply NoDup_fst_map_to_list. Qed.

Lemma snap_table_at e n t i :
  keyed e → e !! n = Some t →
  table_at (snap_table e n) (n, i) = reloaded <$> vals_at e (n, i).
Proof.
  intros K Ht. unfold table_at. cbn [fst snd st_name snap_table].
  rewrite decide_True by done. rewrite (vals_at_lookup e (n, i) t Ht). cbn [snd].
  assert (N : NoDup (row_pairs (st_rows (snap_table e n))).*1).
  { rewrite (snap_table_pairs e n t K Ht). apply NoDup_fst_map_to_list. }
  rewrite (list_to_map_proper _ _ N (snap_table_pairs e n t K Ht)), list_to_map_to_list.
  rewrite lookup_fmap. by destruct (t_rows t !! i).
Qed.

Lemma snap_of_at e k : keyed e → tables_at (snap_tables (snap_of e)) k = reloaded <$> vals_at e k.
Proof.
  intros K. rewrite snap_of_tables. destruct k as [m i].
  pose proof (table_enum_NoDup e) as N.
  assert (H' : ∀ n, n ∈ table_enum e → is_Some (e !! n)) by (intros n; apply table_enum_elem).
  destruct (e !! m) as [t|] eqn:Em.
  - assert (Hm : m ∈ table_enum e) by (apply table_enum_elem; by eexists).
    clear H'. induction (table_enum e) as [|n l IH]; [by apply not_elem_of_nil in Hm|].
    apply NoDup_cons in N as [Nn N]. cbn [fmap list_fmap].
    change (table_at (snap_table e n) (m, i) ∪ tables_at (snap_table e <$> l) (m, i) =
      reloaded <$> vals_at e (m, i)).
    apply elem_of_cons in Hm as [<-|Hm].
    + rewrite (snap_table_at e m t i K Em).
      assert (tables_at (snap_table e <$> l) (m, i) = None) as ->; [|by destruct (reloaded <$> _)].
      clear -Nn. induction l as [|n l IH]; [done|]. apply not_elem_of_cons in Nn as [N1 N2].
      cbn [fmap list_fmap].
      change (table_at (snap_table e n) (m, i) ∪ tables_at (snap_table e <$> l) (m, i) = None).
      rewrite (IH N2). unfold table_at. cbn [fst st_name snap_table]. by rewrite decide_False.
    + rewrite (IH N Hm). unfold table_at. cbn [fst st_name snap_table].
      rewrite decide_False by congruence. by destruct (reloaded <$> _).
  - unfold vals_at, row_at. cbn [fst]. rewrite Em. cbn.
    clear N. induction (table_enum e) as [|n l IH]; [done|]. cbn [fmap list_fmap].
    change (table_at (snap_table e n) (m, i) ∪ tables_at (snap_table e <$> l) (m, i) = None).
    rewrite IH by (intros; apply H'; by right). unfold table_at. cbn [fst st_name snap_table].
    rewrite decide_False; [done|]. intros ->. destruct (H' n) as [t Ht]; [by left|]. congruence.
Qed.

Lemma snap_of_NoDup e :
  keyed e → NoDup (st_name <$> snap_tables (snap_of e)) ∧
  Forall (λ t, NoDup (sr_id <$> st_rows t)) (snap_tables (snap_of e)).
Proof.
  intros K. rewrite snap_of_tables. split.
  - rewrite <- list_fmap_compose. unfold compose. cbn [st_name snap_table]. rewrite list_fmap_id.
    apply table_enum_NoDup.
  - apply Forall_fmap, Forall_forall. intros n [t Ht]%table_enum_elem. unfold compose.
    rewrite <- row_pairs_keys. rewrite (snap_table_pairs e n t K Ht). apply NoDup_fst_map_to_list.
Qed.

Lemma restore_snap_of uuid e k :
  keyed e →
  let '(e', c) := restore_snapshot uuid ∅ (snap_of e) in
  vals_at e' k = reloaded <$> vals_at e k ∧ plain e' ∧
  (∀ m, table_exists e' m = table_exists e m).
Proof.
  intros K. unfold restore_snapshot. destruct (snap_of_NoDup e K) as [N F].
  pose proof (restore_tables_at uuid (snap_tables (snap_of e)) ∅ O k) as R.
  destruct (foldl _ _ _) as [e' c]. destruct R as (R & P & _ & X); [done|done|done|done|].
  split; [|split; [done|]].
  - rewrite R, snap_of_at by done. unfold vals_at at 2, row_at. rewrite lookup_empty. cbn.
    by destruct (reloaded <$> _).
  - intros m. unfold table_exists. apply bool_decide_ext. rewrite X, lookup_empty.
    rewrite snap_of_tables, <- list_fmap_compose. unfold compose. cbn [st_name snap_table].
    rewrite list_fmap_id, table_enum_elem. split; [intros [?|[? [=]]]; done|by left].
Qed.
End engine_snapshots.

(** ** The log file under recovery *)

Lemma map_or_empty {A} (o : option A) : o ∪ None = o.
Proof. by destruct o. Qed.

Lemma survivors_after_zero `{Crc32} a k :
  numbered a →
  filter (λ w, 0 < e_seq w) (durable a ++ firstn k (buffered a)) = durable a ++ firstn k (buffered a).
Proof.
  intros N. destruct (numbered_prefix a k N) as [E _]. revert E.
  generalize (durable a ++ firstn k (buffered a)) as es. intros es E.
  assert (F : Forall (λ w, 0 < e_seq w) es).
  { apply Forall_forall. intros w Hw. assert (Hs : e_seq w ∈ e_seq <$> es) by by apply list_elem_of_fmap_2.
    rewrite E in Hs. apply elem_of_seqZ in Hs. lia. }
  clear E. induction F as [|w es Fw _ IH]; [done|]. rewrite filter_cons_True by done. by f_equal.
Qed.

Lemma replay_log_bytes `{JsonBytes} `{Crc32Laws} uuid seq acc es tail :
  all_ok es → raw_read tail = Err Wal.UnexpectedEof →
  replay_file uuid seq acc (log_bytes es tail) = foldl (replay_step uuid seq) acc es.
Proof.
  intros F T. unfold replay_file. rewrite open_log by done. unfold read_all_or_default, wal_file.
  cbn [wal_synced wal_pending]. by rewrite app_nil_r, read_all_log.
Qed.

Lemma replay_key_again `{JsonBytes} k es fs :
  row_log_ok None (row_log k (es ++ fs)) →
  replay_key k (replay_key k None es) (es ++ fs) = replay_key k None (es ++ fs).
Proof.
  rewrite !replay_key_row_log. unfold row_log. rewrite filter_app. intros O.
  by apply replay_row_again.
Qed.

(** ** Fresh ids after recovery *)

Definition t_fresh (t : InMemoryTable) : Prop := ∀ i, is_Some (t_rows t !! i) → i < t_next_id t.
Definition fresh_ids (e : Engine) : Prop := map_Forall (λ _ t, t_fresh t) e.

Lemma t_fresh_preserving t row :
  0 <= row_id row < 2 ^ 64 - 1 → t_fresh t → t_fresh (t_insert_preserving_id t row).2.
Proof.
  intros R F. unfold t_insert_preserving_id. destruct (t_rows t !! row_id row); [done|].
  destruct (check_uniq _ _ _ _); [|done]. cbn [snd]. intros i.
  unfold index_row, t_fresh in *.
  destruct (Z.leb_spec (t_next_id t) (row_id row)); cbn [t_rows t_next_id set_rows set_uniq set_next_id];
    rewrite ?wrap_small by lia;
    (destruct (decide (row_id row = i)) as [<-|N]; [lia|rewrite lookup_insert_ne by done]);
    intros Hi%F; lia.
Qed.

Lemma t_fresh_update t id vs : t_fresh t → t_fresh (t_update t id vs).2.
Proof.
  intros F. destruct (t_update t id vs) as [[row|err] t'] eqn:E; cbn [snd].
  - destruct (t_update_rows _ _ _ _ _ E) as (cur & Hc & _ & Hr & Hn & _). unfold t_fresh.
    rewrite Hr, Hn. intros i. destruct (decide (id = i)) as [<-|N]; [intros _; apply F; by eexists|].
    rewrite lookup_insert_ne by done. apply F.
  - by rewrite (t_update_err _ _ _ _ _ E).
Qed.

Lemma t_fresh_take t id : t_fresh t → t_fresh (t_take t id).2.
Proof.
  intros F. destruct (t_take t id) as [r t'] eqn:E. cbn [snd].
  destruct (t_take_rows _ _ _ _ E) as (_ & Hr & Hn & _). unfold t_fresh. rewrite Hr, Hn.
  intros i [x Hx]. apply lookup_delete_Some in Hx as [_ Hx]. apply F. by eexists.
Qed.

Lemma fresh_with_table {A} (f : InMemoryTable → result core_error A * InMemoryTable) e n :
  (∀ t, t_fresh t → t_fresh (f t).2) → fresh_ids e → fresh_ids (with_table e n f).2.
Proof.
  intros Hf F. unfold with_table, table. destruct (e !! n) as [t|] eqn:E; [|done]. cbn [ok_or].
  specialize (Hf t (F _ _ E)). destruct (f t) as [r t']. cbn [snd] in *.
  by apply map_Forall_insert_2.
Qed.

Lemma fresh_preserving e n row :
  0 <= row_id row < 2 ^ 64 - 1 → fresh_ids e → fresh_ids (insert_preserving_id e n row).2.
Proof. intros. apply fresh_with_table; [|done]. intros. by apply t_fresh_preserving. Qed.

Lemma fresh_ensure uuid e n sample : fresh_ids e → fresh_ids (ensure_table uuid e n sample).
Proof.
  intros F. unfold ensure_table, create_table, create_check. rewrite infer_schema_name.
  destruct (table_exists e n); [done|]. cbn [snd]. unfold create_put.
  apply map_Forall_insert_2; [|done]. intros i [x Hx].
  change ((∅ : gmap Z Row) !! i = Some x) in Hx. by rewrite lookup_empty in Hx.
Qed.

Lemma local_id_range w : 0 <= local_id w < 2 ^ 64 - 1.
Proof.
  unfold local_id, LOCAL_MASK. change 0x00FFFFFFFFFFFFFF with (Z.ones 56).
  rewrite Z.land_ones by lia. pose proof (Z.mod_pos_bound (e_row w) (2 ^ 56) ltac:(lia)). lia.
Qed.

Lemma fresh_replay_entry `{JsonBytes} uuid e w : fresh_ids e → fresh_ids (replay_entry uuid e w).1.
Proof.
  intros F. pose proof (local_id_range w) as R. unfold local_id in R. unfold replay_entry.
  destruct (e_type w); cbn [fst]; try done.
  - pose proof (fresh_preserving (ensure_table uuid e (e_table w) (values_of_bytes (e_data w))) (e_table w)
      (MkRow (Z.land (e_row w) LOCAL_MASK) (values_of_bytes (e_data w))) R
      (fresh_ensure _ _ _ _ F)) as F'. by destruct (insert_preserving_id _ _ _).
  - apply fresh_with_table; [|done]. intros. by apply t_fresh_update.
  - unfold delete_row, take.
    assert (F' : fresh_ids (with_table e (e_table w) (λ t : InMemoryTable,
      let '(r, t0) := t_take t (Z.land (e_row w) LOCAL_MASK) in (@Ok core_error _ r, t0))).2).
    { apply fresh_with_table; [|done]. intros t Ft.
      pose proof (t_fresh_take t (Z.land (e_row w) LOCAL_MASK) Ft) as Fk. by destruct (t_take t _). }
    by destruct (with_table _ _ _).
Qed.

Lemma fresh_replay `{JsonBytes} uuid seq es : ∀ acc,
  fresh_ids acc.1 → fresh_ids (foldl (replay_step uuid seq) acc es).1.
Proof.
  induction es as [|w es IH]; intros acc F; [done|]. cbn [foldl]. apply IH. unfold replay_step.
  case_match; [done|]. pose proof (fresh_replay_entry uuid acc.1 w F). by destruct (replay_entry _ _ _).
Qed.

Definition snapshot_ids_ok (s : Snapshot) : Prop :=
  Forall (λ t, Forall (λ r, 0 <= sr_id r < 2 ^ 64 - 1) (st_rows t)) (snap_tables s).

Lemma fresh_restore_rows n rows : ∀ acc,
  Forall (λ r, 0 <= sr_id r < 2 ^ 64 - 1) rows → fresh_ids acc.1 →
  fresh_ids (foldl (restore_row n) acc rows).1.
Proof.
  induction rows as [|r rows IH]; intros acc R F; [done|]. apply Forall_cons in R as [Rr R].
  cbn [foldl]. apply IH; [done|]. unfold restore_row.
  pose proof (fresh_preserving acc.1 n (MkRow (sr_id r) (json_values (sr_values r))) Rr F).
  by destruct (insert_preserving_id _ _ _) as [[] ?].
Qed.

Lemma fresh_restore uuid ts : ∀ acc,
  Forall (λ t, Forall (λ r, 0 <= sr_id r < 2 ^ 64 - 1) (st_rows t)) ts → fresh_ids acc.1 →
  fresh_ids (foldl (restore_table uuid) acc ts).1.
Proof.
  induction ts as [|t ts IH]; intros acc R F; [done|]. apply Forall_cons in R as [Rt R].
  cbn [foldl]. apply IH; [done|]. unfold restore_table. apply fresh_restore_rows.
  - by rewrite merge_sort_Permutation.
  - by apply fresh_ensure.
Qed.

(** ** Properties *)

(** A value comes back from the log or a snapshot unchanged exactly when it is
    null, a boolean, an [Int64], a [UInt64] of at least [2^63], a string, a finite
    [Float64], or a JSON array or object. *)
Theorem survives_json_iff `{Chrono} `{ValueText} (v : value) (W : value_okb v = true) :
  json_to_value (value_to_json v) = v ↔ survives_json v = true.
Proof.
  destruct v as [| | | | | | | | | | | | | | | | |[| |[]| | |]| |];
    cbn [value_to_json survives_json] in *;
    rewrite ?json_to_value_u64, ?json_to_value_f64, ?json_to_value_f32;
    try (split; [by intros [=]|done]); try done.
  1-3: unfold json_of_i64, json_to_value, num_as_i64; repeat case_match; split; by intros [=].
  2-4: case_match; split; by intros [=].
  - rewrite json_to_value_i64 by done. by split.
  - apply is_uint_spec in W. destruct (Z.ltb_spec n (2 ^ 63)), (Z.leb_spec (2 ^ 63) n); try lia;
      split; by intros.
  - case_match; split; by intros [=].
  - case_match; split; by intros.
  - unfold json_to_value, num_as_i64. case_match; split; by intros [=].
Qed.

(** What recovery loads is written back unchanged: a well-formed JSON document
    read as a value prints as itself, so a second restart loads what the first
    one did. *)
Theorem json_reload_stable `{ValueText} (j : json) (W : json_okb j = true) :
  value_to_json (json_to_value j) = j ∧
  json_to_value (value_to_json (json_to_value j)) = json_to_value j.
Proof.
  assert (E : value_to_json (json_to_value j) = j); [|by rewrite E].
  destruct j as [| |[n|n|b]| | |]; try done; cbn [json_to_value num_as_i64 num_as_u64 num_as_f64 json_okb num_okb] in *.
  - apply is_uint_spec in W. destruct (Z.ltb_spec n (2 ^ 63)); cbn [value_to_json]; [|done].
    unfold json_of_i64. by rewrite (proj2 (Z.leb_le _ _)) by lia.
  - apply andb_true_iff in W as [_ W%Z.ltb_lt]. cbn [value_to_json]. unfold json_of_i64.
    by rewrite (proj2 (Z.leb_gt _ _)) by lia.
  - apply andb_true_iff in W as [_ W%negb_true_iff]. cbn [value_to_json]. unfold json_of_f64.
    by rewrite W.
Qed.

(** Replaying a log on tables without uniqueness columns, as recovery infers
    them, acts on each row alone: the entries addressing it, in order, insert it if
    absent, merge into it if present, or delete it. *)
Theorem replay_row_by_row `{JsonBytes} (uuid : list byte) (seq : Z) (es : list WalEntry)
    (e : Engine) (n : nat) (k : string * Z) (P : plain e) :
  vals_at (foldl (replay_step uuid seq) (e, n) es).1 k =
    foldl replay_row (vals_at e k) (row_log k (filter (λ w, seq < e_seq w) es)).
Proof. rewrite (proj1 (replay_at uuid seq es e n k P)). apply replay_key_row_log. Qed.


(** Whatever files recovery finds, rows of a restored engine lie below the next
    row id of their table, so an insert after the restart cannot collide. *)
Theorem recovered_ids_fresh `{JsonBytes} `{SnapshotText} `{DirOrder} `{Crc32}
    (uuid : list byte) (d : Dir) (files : list (list byte)) (e : Engine) (counts : nat * nat * nat)
    (Ids : ∀ s seq, load_latest d = Ok (Some (s, seq)) → snapshot_ids_ok s)
    (R : recover uuid ∅ d files = Ok (e, counts)) :
  ∀ n t i, e !! n = Some t → is_Some (t_rows t !! i) → i < t_next_id t.
Proof.
  assert (G : ∀ seq acc, fresh_ids acc.1 → fresh_ids (foldl (replay_file uuid seq) acc files).1).
  { intros seq. clear R. induction files as [|f fs IH]; intros acc Fa; [done|]. cbn [foldl].
    apply IH. unfold replay_file. destruct (open f); [|done]. by apply fresh_replay. }
  enough (fresh_ids e) as Fe by (intros n t i Ht; apply (Fe n t Ht)).
  unfold recover in R. destruct (load_latest d) as [[[s seq]|]|] eqn:El; [| |done];
    cbn [mbind result_bind] in R.
  - assert (F1 : fresh_ids (restore_snapshot uuid ∅ s).1)
      by (apply fresh_restore; [by eapply Ids|done]).
    destruct (restore_snapshot uuid ∅ s) as [e1 c1]. specialize (G seq (e1, O) F1).
    destruct (foldl _ (e1, O) files) as [e2 c2]. by injection R as <- _.
  - specialize (G 0 (∅, O)). destruct (foldl _ (∅, O) files) as [e2 c2].
    injection R as <- _. by apply G.
Qed.

(** ** Witnesses *)

Definition demo_value_text : ValueText := {|
  uuid_to_string := String.string_of_list_byte;
  to_rfc3339 := λ _, "t"%string;
  date_to_string := λ _, "d"%string
|}.
Definition demo_json_bytes : JsonBytes := {|
  json_to_vec j := pos_bytes (encode j);
  json_from_slice l := decode (bytes_pos l)
|}.
Lemma demo_json_bytes_laws : @JsonBytesLaws demo_json_bytes.
Proof. intros j _ _. cbn. by rewrite bytes_pos_bytes, decode_encode. Qed.
Definition demo_row_order : RowOrder := map_to_list.
Lemma demo_row_order_laws : @RowOrderLaws demo_row_order.
Proof. by intros m. Qed.
Definition demo_table_order : TableOrder := λ e, (map_to_list e).*1.
Lemma demo_table_order_laws : @TableOrderLaws demo_table_order.
Proof. by intros e. Qed.

Definition demo_payload (n : Z) : list byte :=
  @values_to_json_bytes demo_value_text demo_json_bytes demo_order {["v"%string := VInt64 n]}.
Definition demo_entry1 : WalEntry := MkWalEntry 1 EInsert "t" 1 (demo_payload 5).
Definition demo_entry2 : WalEntry := MkWalEntry 2 EUpdate "t" 1 (demo_payload 6).
Definition demo_log_ops : list wal_op :=
  [OpBuffered EInsert "t" 1 (demo_payload 5); OpSync; OpBuffered EUpdate "t" 1 (demo_payload 6)].
Definition demo_live : Engine :=
  (foldl (@replay_step demo_json_bytes [] 0) (∅, O) [demo_entry1]).1.

Lemma survives_json_iff_witness :
  @json_to_value (@value_to_json demo_value_text (VUInt64 (2 ^ 63))) = VUInt64 (2 ^ 63) ↔
  survives_json (VUInt64 (2 ^ 63)) = true.
Proof. apply (@survives_json_iff demo_chrono demo_value_text). reflexivity. Defined.

Lemma json_reload_stable_witness :
  @value_to_json demo_value_text (json_to_value (JArray [JNumber (NegInt (-3))])) =
    JArray [JNumber (NegInt (-3))] ∧
  json_to_value (@value_to_json demo_value_text (json_to_value (JArray [JNumber (NegInt (-3))]))) =
    json_to_value (JArray [JNumber (NegInt (-3))]).
Proof. apply (@json_reload_stable demo_value_text). reflexivity. Defined.

Lemma replay_row_by_row_witness :
  vals_at (foldl (@replay_step demo_json_bytes [] 0) (∅, O) [demo_entry1; demo_entry2]).1 ("t"%string, 1) =
    foldl (@replay_row demo_json_bytes) (vals_at ∅ ("t"%string, 1))
      (row_log ("t"%string, 1) (filter (λ w, 0 < e_seq w) [demo_entry1; demo_entry2])).
Proof. apply (@replay_row_by_row demo_json_bytes). done. Defined.

Lemma plain_empty : plain ∅.
Proof. apply map_Forall_empty. Qed.

Lemma demo_live_at k :
  @reloaded demo_value_text <$> vals_at demo_live k = @replay_key demo_json_bytes k None [demo_entry1].
Proof.
  unfold demo_live. rewrite (proj1 (replay_at (H := demo_json_bytes) [] 0 [demo_entry1] ∅ O k plain_empty)).
  change (filter (λ w, 0 < e_seq w) [demo_entry1]) with [demo_entry1].
  unfold replay_key. cbn [foldl]. destruct (decide (addresses demo_entry1 k)); [|done].
  vm_compute. reflexivity.
Qed.

Lemma demo_log_ok k : @row_log_ok demo_json_bytes None (row_log k [demo_entry1; demo_entry2]).
Proof.
  unfold row_log. destruct (decide (k = ("t"%string, 1))) as [->|N].
  - vm_compute. split; [reflexivity|]. split; [by eexists|exact I].
  - assert (E : ∀ w, w = demo_entry1 ∨ w = demo_entry2 → ¬ addresses w k).
    { intros w [-> | ->] A; apply N; rewrite <- A; vm_compute; reflexivity. }
    rewrite !filter_cons_False by (apply E; auto). exact I.
Qed.


Lemma recovered_ids_fresh_witness :
  ∃ e counts, @recover demo_json_bytes demo_text demo_dir_order demo_crc32 [] ∅ ∅
      [wal_file (@wal_run demo_crc32 demo_log_ops)] = Ok (e, counts) ∧
    ∀ n t i, e !! n = Some t → is_Some (t_rows t !! i) → i < t_next_id t.
Proof.
  assert (B : is_ok (@recover demo_json_bytes demo_text demo_dir_order demo_crc32 [] ∅ ∅
      [wal_file (@wal_run demo_crc32 demo_log_ops)]) = true) by (vm_compute; reflexivity).
  destruct (@recover demo_json_bytes demo_text demo_dir_order demo_crc32 [] ∅ ∅
      [wal_file (@wal_run demo_crc32 demo_log_ops)]) as [[e counts]|] eqn:E; [|discriminate B].
  exists e, counts. split; [reflexivity|].
  apply (@recovered_ids_fresh demo_json_bytes demo_text demo_dir_order demo_crc32 [] ∅
    [wal_file (@wal_run demo_crc32 demo_log_ops)] e counts); [|exact E].
  intros s seq [=].
Defined.

(** ** What the model shows the code gets wrong *)

(** A log with one synced insert and a torn second entry recovers the first row;
    the same log after a restart and one more append recovers nothing. *)
Definition torn_log : list byte :=
  crash (@wal_run demo_crc32 [OpInsert "t" 1 []; OpBuffered EInsert "t" 2 []]) 20.
Definition torn_log_after : list byte :=
  wal_file (snd (@append_insert demo_crc32 (reopen torn_log) "t" 3 [])).
Definition recovered_rows (file : list byte) : nat :=
  (@replay_file demo_json_bytes demo_crc32 [] 0 (∅, O) file).2.

Example torn_tail_loses_log : recovered_rows torn_log = 1%nat ∧ recovered_rows torn_log_after = O.
Proof. split; vm_compute; reflexivity. Qed.

(** Snapshots do not carry the allocator: the id of a deleted row is handed out
    again after a rotation and a restart. *)
Definition two_rows : Engine :=
  let e := (create_table ∅ (infer_schema [] "t" ∅)).2 in
  (insert (insert e "t" (Row_new 0)).2 "t" (Row_new 0)).2.

Example deleted_id_reused :
  (insert (delete_row two_rows "t" 2).2 "t" (Row_new 0)).1 = Ok 3 ∧
  (insert (restore_snapshot [] ∅
     (@snap_of demo_value_text demo_order demo_row_order demo_table_order
        (delete_row two_rows "t" 2).2)).1 "t" (Row_new 0)).1 = Ok 2.
Proof. split; vm_compute; reflexivity. Qed.
