(* ===== verification/Rotation.v ===== *)
(** [blitz-server/src/durability.rs], what is around the log files: the bridge and the
    cluster that own the group commits of [GroupCommit], the polling that waits for them,
    and the offline rotation, which recovers a data directory, saves a snapshot of it and
    empties its logs. *)
From S2P Require Import Prelude Float Value HashMap Schema Core Codec Snapshot Wal GroupCommit Durability.

Local Open Scope Z_scope.

(** ** The bridge to one log, and the cluster of them *)

(** A bridge over one group; without [wb_sender] its own sender is gone (or never was). *)
Record WalBridge : Type := MkBridge { wb_sender : bool; wb_group : option Group }.
Record WalCluster : Type := MkWalCluster { wc_shards : list Group; wc_n : Z }.

Definition bridge_none : WalBridge := MkBridge false None.
Definition bridge_is_enabled (b : WalBridge) : bool := wb_sender b.

(** [open_with_sender_path], which also gives the caller a sender; [open] and [open_path]
    drop that sender. *)
Definition open_with_sender_path `{Crc32} (file : list byte) (mode : DurabilityMode) : WalBridge :=
  match mode with
  | ModeNone => bridge_none
  | GroupCommit.GroupCommit _ _ => MkBridge true (Some (open_group file))
  end.
Definition open_path `{Crc32} (file : list byte) (mode : DurabilityMode) : WalBridge :=
  let b := open_with_sender_path file mode in MkBridge (wb_sender b) (drop_sender <$> wb_group b).

Definition sender_handle (b : WalBridge) : bool * WalBridge :=
  if wb_sender b then (true, MkBridge true (clone_sender <$> wb_group b)) else (false, b).

Definition bridge_append (b : WalBridge) (w : PendingWrite) : result append_error () * WalBridge :=
  match (if wb_sender b then wb_group b else None) with
  | None => (Ok (), b)
  | Some g => let '(r, g) := append g w in (r, MkBridge true (Some g))
  end.

Definition bridge_shutdown (b : WalBridge) : WalBridge :=
  if wb_sender b then MkBridge false (drop_sender <$> wb_group b) else b.

Definition cluster_disabled : WalCluster := MkWalCluster [] 0.
Definition cluster_is_enabled (c : WalCluster) : bool := bool_decide (wc_shards c ≠ []).

(** [WalCluster::open]; [files] are the log files of the shards, empty when new. The
    bridge of each shard is dropped, its sender kept. *)
Definition cluster_open `{Crc32} (files : nat → list byte) (mode : DurabilityMode) : WalCluster :=
  if negb (is_durable mode) then cluster_disabled
  else
    MkWalCluster
      (omap (λ i, drop_sender <$> wb_group (open_with_sender_path (files i) mode)) (seq 0 shards_for_mode))
      (Z.of_nat shards_for_mode).

(** The sums of the shards' counters. *)
Definition sum_u64 (l : list Z) : Z := foldl (λ a x, wrap 64 (a + x)) 0 l.
Definition cluster_bytes_flushed (c : WalCluster) : Z := sum_u64 (bytes_flushed <$> wc_shards c).
Definition cluster_ops_flushed (c : WalCluster) : Z := sum_u64 (ops_flushed <$> wc_shards c).
Definition cluster_dropped_full (c : WalCluster) : Z := sum_u64 (dropped_full <$> wc_shards c).

(** ** Waiting for the logs *)

(** The loop [flush] and [flush_all] share. [elapsed i] is the time since its start at
    the test of round [i], [first i] and [second i] are the readings of the counter after
    the two sleeps of that round; [third i] the one [flush_all] takes anew for the next
    round, which [flush] does without. *)
Record polls : Type := MkPolls { elapsed : nat → Z; first : nat → Z; second : nat → Z; third : nat → Z }.

Fixpoint flush_loop (fuel : nat) (timeout : Z) (p : polls) (i : nat) (last : Z) : option bool :=
  match fuel with
  | O => None
  | S fuel =>
      if elapsed p i <? timeout then
        if negb (first p i =? last) then flush_loop fuel timeout p (S i) (first p i)
        else if second p i =? last then Some true
        else flush_loop fuel timeout p (S i) (third p i)
      else Some false
  end.

Definition bridge_flush (fuel : nat) (b : WalBridge) (timeout : Z) (last : Z) (p : polls) : option bool :=
  if negb (wb_sender b) then Some true
  else flush_loop fuel timeout (MkPolls (elapsed p) (first p) (second p) (second p)) 0 last.
Definition flush_all (fuel : nat) (timeout : Z) (last : Z) (p : polls) : option bool :=
  flush_loop fuel timeout p 0 last.

(** Every round sleeps, so the clock ends the loop. *)
Lemma flush_loop_returns timeout p step i last fuel :
  0 < step → (∀ j, elapsed p j + step <= elapsed p (S j)) →
  timeout - elapsed p i <= step * Z.of_nat fuel →
  is_Some (flush_loop (S fuel) timeout p i last).
Proof.
  intros Hs Hc. revert i last. induction fuel as [|fuel IH]; intros i last L; cbn [flush_loop].
  - rewrite (proj2 (Z.ltb_ge _ _)) by lia. by eexists.
  - destruct (elapsed p i <? timeout); [|by eexists]. specialize (Hc i).
    destruct (negb _); [apply IH; lia|]. destruct (_ =? _); [by eexists|apply IH; lia].
Qed.

(** What the answer of the loop says: the counter stood still for two readings. *)
Lemma flush_loop_quiet timeout p fuel : ∀ i last,
  flush_loop fuel timeout p i last = Some true →
  ∃ j, (i <= j)%nat ∧ elapsed p j < timeout ∧ first p j = second p j.
Proof.
  induction fuel as [|fuel IH]; intros i last; cbn [flush_loop]; [done|].
  destruct (Z.ltb_spec (elapsed p i) timeout); [|done].
  destruct (Z.eqb_spec (first p i) last) as [E|]; cbn [negb].
  - destruct (Z.eqb_spec (second p i) last) as [E'|].
    + intros _. exists i. split; [lia|]. split; [done|]. congruence.
    + intros (j & ? & ? & ?)%IH. exists j. split; [lia|done].
  - intros (j & ? & ? & ?)%IH. exists j. split; [lia|done].
Qed.

(** ** A data directory *)

(** Its [snapshots] directory, and the log files it holds by name. *)
Record DataDir : Type := MkDataDir { dd_snapshots : Dir; dd_logs : gmap string (list byte) }.

Definition shard_log_name (i : nat) : string :=
  "wal_" +:+ String.string_of_list_byte (dec_digits 2 (Z.of_nat i)) +:+ ".log".
Definition wal_names : list string := "wal.log"%string :: (shard_log_name <$> seq 0 shards_for_mode).

(** The log files that exist, in the order recovery reads them. *)
Definition wal_files (names : list string) (logs : gmap string (list byte)) : list (list byte) :=
  omap (λ n, logs !! n) names.

(** Opened and truncated, [n] bytes of the new header having reached the disk; a file that
    does not open is left as it is. *)
Definition torn_truncate `{Crc32} (n : nat) (logs : gmap string (list byte)) (name : string) : gmap string (list byte) :=
  match logs !! name with
  | None => logs
  | Some file => match open file with Ok w => <[name := firstn n (wal_file (truncate w))]> logs | Err _ => logs end
  end.
Definition truncate_log `{Crc32} : gmap string (list byte) → string → gmap string (list byte) :=
  torn_truncate (Z.to_nat WAL_HEADER_SIZE).
Definition truncate_logs `{Crc32} (names : list string) (logs : gmap string (list byte)) : gmap string (list byte) :=
  foldl truncate_log logs names.

Section rotation.
Context `{ValueText} `{JsonBytes} `{MapOrder} `{RowOrder} `{TableOrder} `{SnapshotText} `{DirOrder} `{Crc32}.

Definition recover_dir (uuid : list byte) (dd : DataDir) : result snapshot_error (Engine * (nat * nat * nat)) :=
  recover uuid ∅ (dd_snapshots dd) (wal_files wal_names (dd_logs dd)).

Definition offline_rotate (uuid : list byte) (dd : DataDir) : result snapshot_error (string * DataDir) :=
  '(e, _) ← recover_dir uuid dd;
  let '(path, snapshots) := save_snapshot e (dd_snapshots dd) in
  let logs := truncate_logs wal_names (dd_logs dd) in
  Ok (path, MkDataDir (prune snapshots 3).2 logs).

(** What a crash leaves: the snapshot is saved, [m] of the logs are truncated, and of the
    header of the next one [n] bytes have reached the disk. *)
Definition rotate_crashed (e : Engine) (m n : nat) (dd : DataDir) : DataDir :=
  let logs := truncate_logs (firstn m wal_names) (dd_logs dd) in
  MkDataDir (save_snapshot e (dd_snapshots dd)).2
    match wal_names !! m with Some name => torn_truncate n logs name | None => logs end.
End rotation.

(** ** What a log directory holds *)

Section entries.
Context `{Crc32Laws}.

Definition file_entries (file : list byte) : list WalEntry :=
  match open file with Ok w => read_all_or_default w | Err _ => [] end.
Definition entries_at (logs : gmap string (list byte)) (name : string) : list WalEntry :=
  match logs !! name with Some file => file_entries file | None => [] end.

Lemma wal_files_entries names logs : wal_files names logs ≫= file_entries = names ≫= entries_at logs.
Proof.
  unfold wal_files, entries_at. induction names as [|n names IH]; [done|]. cbn.
  destruct (logs !! n); cbn; by rewrite IH.
Qed.

Lemma replay_files_entries `{JsonBytes} uuid seq acc files :
  foldl (replay_file uuid seq) acc files = foldl (replay_step uuid seq) acc (files ≫= file_entries).
Proof.
  revert acc. induction files as [|f fs IH]; intros acc; [done|]. cbn. rewrite foldl_app, IH. f_equal.
  unfold replay_file, file_entries. by destruct (open f).
Qed.

(** A torn header is not readable, a whole one is followed by nothing. *)
Lemma torn_header_entries n : file_entries (firstn n (header_bytes fresh_header)) = [].
Proof.
  assert (Whole : file_entries (header_bytes fresh_header) = []).
  { unfold file_entries. pose proof (open_log [] [] (List.Forall_nil _) eq_refl) as O.
    pose proof (read_all_log [] [] (List.Forall_nil _) eq_refl) as R.
    unfold log_bytes in O, R. cbn [fmap list_fmap mjoin list_join] in O, R. rewrite !app_nil_r in *. rewrite O.
    unfold read_all_or_default, wal_file. cbn [wal_synced wal_pending]. by rewrite app_nil_r, R. }
  destruct (decide (16 <= n)%nat) as [L|L]; [by rewrite firstn_all2 by (simpl; lia)|].
  destruct n as [|n]; [exact Whole|]. unfold file_entries, open.
  assert (header_read (firstn (S n) (header_bytes fresh_header)) = Err Wal.UnexpectedEof) as E
    by (do 15 (destruct n as [|n]; [reflexivity|]); lia).
  unfold recover_sequence. rewrite E. by destruct (Nat.eqb _ 0).
Qed.

Lemma torn_truncate_at n logs name m :
  entries_at (torn_truncate n logs name) m = if decide (name = m) then [] else entries_at logs m.
Proof.
  unfold torn_truncate, entries_at. case_decide as E.
  - subst m. destruct (logs !! name) as [f|] eqn:L; [|by rewrite L].
    destruct (open f) as [w|] eqn:O.
    + rewrite lookup_insert_eq. apply (torn_header_entries n).
    + rewrite L. unfold file_entries. by rewrite O.
  - destruct (logs !! name); [|done]. destruct (open _); [|done]. by rewrite lookup_insert_ne.
Qed.

Lemma truncate_logs_at names m : ∀ logs,
  entries_at (truncate_logs names logs) m = if decide (m ∈ names) then [] else entries_at logs m.
Proof.
  induction names as [|n names IH]; intros logs; cbn [truncate_logs foldl]; [done|].
  fold (truncate_logs names (truncate_log logs n)). rewrite IH. unfold truncate_log. rewrite torn_truncate_at.
  repeat case_decide; set_solver.
Qed.
End entries.

(** ** What recovery maintains *)

Section recovered.
Context `{ValueText} `{JsonBytes}.
Variable I : Engine → Prop.
Variable V : values → Prop.
Hypothesis I_ensure : ∀ uuid e n sample, I e → I (ensure_table uuid e n sample).
Hypothesis I_insert : ∀ e n i vs, V vs → I e → I (insert_preserving_id e n (MkRow i vs)).2.
Hypothesis I_update : ∀ e n i vs, V vs → I e → I (update e n i vs).2.
Hypothesis I_delete : ∀ e n i, I e → I (delete_row e n i).2.

Definition saved_ok (s : Snapshot) : Prop :=
  Forall (λ t, Forall (λ r, V (json_values (sr_values r))) (st_rows t)) (snap_tables s).

Lemma restore_rows_inv n rows : ∀ acc,
  Forall (λ r, V (json_values (sr_values r))) rows → I acc.1 → I (foldl (restore_row n) acc rows).1.
Proof.
  induction rows as [|r rows IH]; intros acc F Ia; [done|]. apply Forall_cons in F as [Fr F]. cbn [foldl].
  apply IH; [done|]. unfold restore_row. pose proof (I_insert acc.1 n (sr_id r) _ Fr Ia) as Ii.
  by destruct (insert_preserving_id _ _ _) as [[] ?].
Qed.

Lemma restore_inv uuid s e : saved_ok s → I e → I (restore_snapshot uuid e s).1.
Proof.
  unfold saved_ok, restore_snapshot. intros F Ie. change e with ((e, O) : Engine * nat).1 in Ie.
  revert F Ie. generalize ((e, O) : Engine * nat) as acc. generalize (snap_tables s) as ts.
  induction ts as [|t ts IH]; intros acc F Ia; [done|]. apply Forall_cons in F as [Ft F]. cbn [foldl].
  apply IH; [done|]. unfold restore_table. apply restore_rows_inv; [by rewrite merge_sort_Permutation|].
  by apply I_ensure.
Qed.

Lemma replay_inv uuid seq es : ∀ acc,
  Forall (λ w, V (values_of_bytes (e_data w))) es → I acc.1 → I (foldl (replay_step uuid seq) acc es).1.
Proof.
  induction es as [|w es IH]; intros acc F Ia; [done|]. apply Forall_cons in F as [Fw F]. cbn [foldl].
  apply IH; [done|]. unfold replay_step. destruct (_ <=? _); [done|].
  assert (I (replay_entry uuid acc.1 w).1) as Ir; [|by destruct (replay_entry uuid acc.1 w)].
  unfold replay_entry. destruct (e_type w); cbn [fst]; try done.
  - pose proof (I_insert _ (e_table w) (Z.land (e_row w) LOCAL_MASK) _ Fw
      (I_ensure uuid _ (e_table w) (values_of_bytes (e_data w)) Ia)) as Ii.
    by destruct (insert_preserving_id _ _ _).
  - by apply I_update.
  - by apply I_delete.
Qed.
End recovered.

(** Rows are filed under their ids, and their values come back from JSON unchanged. *)
Section stable.
Context `{ValueText} `{JsonBytes}.

Definition stable (v : value) : Prop := json_to_value (value_to_json v) = v.
Definition row_stable (i : Z) (r : Row) : Prop := row_id r = i ∧ map_Forall (λ _, stable) (row_values r).
Definition rows_stable (e : Engine) : Prop := map_Forall (λ _ t, map_Forall row_stable (t_rows t)) e.

(** The numbers of a document are what a [serde_json::Number] can hold. *)
Definition numbers_ok (entries : list (string * json)) : bool :=
  forallb (λ kv, if kv.2 is JNumber n then num_okb n else true) entries.
Definition data_numbers_ok (data : list byte) : bool :=
  if json_from_slice data is Some (JObject m) then numbers_ok m else true.
Definition snapshot_numbers_ok (s : Snapshot) : bool :=
  forallb (λ t, forallb (λ r, numbers_ok (sr_values r)) (st_rows t)) (snap_tables s).

Lemma loaded_stable entries : numbers_ok entries = true → map_Forall (λ _, stable) (json_values entries).
Proof.
  intros N k v Hv. unfold json_values in Hv. rewrite map_of_list_spec in Hv.
  apply elem_of_list_to_map_2, list_elem_of_In, in_rev, list_elem_of_In, list_elem_of_fmap in Hv as ([k' j] & [= -> ->] & Hj).
  unfold numbers_ok in N. rewrite forallb_forall in N. apply list_elem_of_In, N in Hj. cbn [snd] in *.
  destruct j; try done. by apply (json_reload_stable (JNumber n)).
Qed.

Lemma data_stable data : data_numbers_ok data = true → map_Forall (λ _, stable) (values_of_bytes data).
Proof.
  unfold data_numbers_ok, values_of_bytes. destruct (json_from_slice data) as [[]|]; try (intros _; apply map_Forall_empty).
  apply loaded_stable.
Qed.

Lemma stable_with_table {A} (f : InMemoryTable → result core_error A * InMemoryTable) e n :
  (∀ t, map_Forall row_stable (t_rows t) → map_Forall row_stable (t_rows (f t).2)) →
  rows_stable e → rows_stable (with_table e n f).2.
Proof.
  intros Hf F. unfold with_table, table. destruct (e !! n) as [t|] eqn:E; [|done]. cbn [ok_or].
  specialize (Hf t (F _ _ E)). destruct (f t) as [r t']. cbn [snd] in *. by apply map_Forall_insert_2.
Qed.

Lemma stable_insert e n i vs :
  map_Forall (λ _, stable) vs → rows_stable e → rows_stable (insert_preserving_id e n (MkRow i vs)).2.
Proof.
  intros S. apply stable_with_table. intros t F. unfold t_insert_preserving_id. cbn [row_id row_values].
  destruct (t_rows t !! i); [done|]. destruct (check_uniq _ _ _ _); [|done]. unfold index_row.
  destruct (_ <=? _); cbn [snd t_rows set_rows set_uniq set_next_id]; by apply map_Forall_insert_2.
Qed.

Lemma stable_update e n i vs :
  map_Forall (λ _, stable) vs → rows_stable e → rows_stable (update e n i vs).2.
Proof.
  intros S. apply stable_with_table. intros t F.
  destruct (t_update t i vs) as [[row|err] t'] eqn:E; cbn [snd]; [|by rewrite (t_update_err _ _ _ _ _ E)].
  destruct (t_update_rows _ _ _ _ _ E) as (cur & Hc & -> & -> & _). apply map_Forall_insert_2; [|done].
  destruct (F _ _ Hc) as [Ei Sc]. split; [done|]. cbn [row_values].
  intros k v [Hv|[_ Hv]]%lookup_union_Some_raw; [by apply (S k)|by apply (Sc k)].
Qed.

Lemma stable_delete e n i : rows_stable e → rows_stable (delete_row e n i).2.
Proof.
  intros F. unfold delete_row, take.
  assert (rows_stable (with_table e n (λ t : InMemoryTable,
    let '(r, t0) := t_take t i in (@Ok core_error _ r, t0))).2) as G; [|by destruct (with_table _ _ _)].
  apply stable_with_table; [|done]. intros t Ft.
  destruct (t_take t i) as [r t'] eqn:E. destruct (t_take_rows _ _ _ _ E) as (_ & Hr & _). cbn [snd].
  rewrite Hr. by apply map_Forall_delete.
Qed.

Lemma stable_ensure uuid e n sample : rows_stable e → rows_stable (ensure_table uuid e n sample).
Proof.
  intros F. unfold ensure_table, create_table, create_check. rewrite infer_schema_name.
  destruct (table_exists e n); [done|]. cbn [snd]. unfold create_put.
  apply map_Forall_insert_2; [|done]. apply map_Forall_empty.
Qed.

Lemma plain_with_insert e n row : plain e → plain (insert_preserving_id e n row).2.
Proof.
  intros P. destruct (e !! n) eqn:E; [by apply (preserving_at e n row (n, 0))|].
  unfold insert_preserving_id, with_table, table. by rewrite E.
Qed.

(** What recovery leaves: inferred tables, and rows as above. *)
Definition recovered_ok (e : Engine) : Prop := plain e ∧ rows_stable e.

Lemma recovered_restore uuid s : snapshot_numbers_ok s = true → recovered_ok (restore_snapshot uuid ∅ s).1.
Proof.
  intros N. split.
  - apply (restore_inv plain (λ _, True)); [..|apply map_Forall_empty].
    + intros uuid' e n sample P. apply (ensure_table_at uuid' e n sample (n, 0) P).
    + intros. by apply plain_with_insert.
    + apply Forall_true. intros. by apply Forall_true.
  - apply (restore_inv rows_stable (map_Forall (λ _, stable))); [apply stable_ensure|apply stable_insert| |apply map_Forall_empty].
    unfold snapshot_numbers_ok in N. rewrite forallb_forall in N. apply Forall_forall. intros t Ht%list_elem_of_In%N.
    rewrite forallb_forall in Ht. apply Forall_forall. intros r Hr%list_elem_of_In%Ht. by apply loaded_stable.
Qed.

Lemma recovered_replay uuid seq es acc :
  Forall (λ w, data_numbers_ok (e_data w) = true) es → recovered_ok acc.1 →
  recovered_ok (foldl (replay_step uuid seq) acc es).1.
Proof.
  intros F [P S]. split.
  - apply (replay_inv plain (λ _, True)); [| | | |by apply Forall_true|done].
    + intros uuid' e n sample Pe. apply (ensure_table_at uuid' e n sample (n, 0) Pe).
    + intros. by apply plain_with_insert.
    + intros e n i vs _ Pe. by apply (update_at e n i vs (n, 0) Pe).
    + intros e n i Pe. by apply (delete_at e n i (n, 0) Pe).
  - apply (replay_inv rows_stable (map_Forall (λ _, stable)));
      [apply stable_ensure|apply stable_insert|apply stable_update|apply stable_delete| |done].
    eapply Forall_impl; [exact F|]. intros w. apply data_stable.
Qed.

Lemma recovered_keyed e : rows_stable e → keyed e.
Proof. intros S n t i r Ht Hr. by apply (S _ _ Ht _ _ Hr). Qed.

Lemma recovered_reloaded e k : rows_stable e → reloaded <$> vals_at e k = vals_at e k.
Proof.
  intros S. unfold vals_at, row_at. destruct (e !! k.1) as [t|] eqn:Et; [|done]. cbn.
  destruct (t_rows t !! k.2) as [r|] eqn:Er; [|done]. cbn. f_equal. destruct (S _ _ Et _ _ Er) as [_ Sr].
  unfold reloaded. apply map_eq. intros c. rewrite lookup_fmap. destruct (row_values r !! c) eqn:Ec; [|done].
  cbn. f_equal. exact (Sr _ _ Ec).
Qed.
End stable.

(** ** Rotating *)

Section rotate.
Context `{ValueText} `{JsonBytes} `{MapOrderLaws} `{RowOrderLaws} `{TableOrderLaws}
  `{SnapshotTextLaws} `{DirOrderLaws} `{Crc32Laws}.

Lemma with_table_exists {A} (f : InMemoryTable → result core_error A * InMemoryTable) e n m :
  is_Some ((with_table e n f).2 !! m) ↔ is_Some (e !! m).
Proof.
  unfold with_table, table. destruct (e !! n) as [t|] eqn:E; [|done]. cbn [ok_or].
  destruct (f t) as [r t']. cbn [snd]. destruct (decide (n = m)) as [->|N]; [|by rewrite lookup_insert_ne].
  rewrite lookup_insert_eq, E. by split; intros; eexists.
Qed.

Lemma replay_entry_exists uuid e w m :
  is_Some ((replay_entry uuid e w).1 !! m) ↔ is_Some (e !! m) ∨ (e_type w = EInsert ∧ e_table w = m).
Proof.
  unfold replay_entry. destruct (e_type w) eqn:T; cbn [fst]; try naive_solver.
  - pose proof (insert_preserving_exists (ensure_table uuid e (e_table w) (values_of_bytes (e_data w))) (e_table w)
      (MkRow (Z.land (e_row w) LOCAL_MASK) (values_of_bytes (e_data w))) m) as X.
    rewrite ensure_table_exists in X. destruct (insert_preserving_id _ _ _). naive_solver.
  - unfold update. rewrite with_table_exists. naive_solver.
  - unfold delete_row, take.
    pose proof (with_table_exists (λ t : InMemoryTable,
      let '(r, t0) := t_take t (Z.land (e_row w) LOCAL_MASK) in (@Ok core_error _ r, t0)) e (e_table w) m) as X.
    destruct (with_table _ _ _). naive_solver.
Qed.

(** Only inserts make tables. *)
Lemma replay_exists uuid seq es m : ∀ acc,
  is_Some ((foldl (replay_step uuid seq) acc es).1 !! m) ↔
    is_Some (acc.1 !! m) ∨ ∃ w, w ∈ es ∧ seq < e_seq w ∧ e_type w = EInsert ∧ e_table w = m.
Proof.
  induction es as [|w es IH]; intros acc; cbn [foldl]; [set_solver|]. rewrite IH. unfold replay_step.
  pose proof (replay_entry_exists uuid acc.1 w m) as X.
  destruct (Z.leb_spec (e_seq w) seq).
  - split; [intros [?|(x & ? & ?)]; [by left|right; exists x; split; [by right|done]]|].
    intros [?|(x & [->|Hx]%elem_of_cons & ? & ?)]; [by left|lia|right; by exists x].
  - destruct (replay_entry uuid acc.1 w) as [e c]. cbn [fst] in *. rewrite X. split.
    + intros [[?|[? ?]]|(x & ? & ?)]; [by left|right; exists w; split; [by left|done]|right; exists x; split; [by right|done]].
    + intros [?|(x & [->|Hx]%elem_of_cons & ? & ? & ?)]; [by left; left|left; by right|right; by exists x].
Qed.

(** What a directory's snapshot restores, and the sequence number it names. *)
Definition snapshot_state (uuid : list byte) (d : Dir) : result snapshot_error (Engine * Z) :=
  latest ← load_latest d;
  Ok match latest with Some (s, seq) => ((restore_snapshot uuid ∅ s).1, seq) | None => (∅, 0) end.

Lemma recover_replays uuid dd :
  match recover_dir uuid dd, snapshot_state uuid (dd_snapshots dd) with
  | Ok (e, _), Ok (e0, seq) =>
      e = (foldl (replay_step uuid seq) (e0, O) (wal_names ≫= entries_at (dd_logs dd))).1
  | Err _, Err _ => True
  | _, _ => False
  end.
Proof.
  unfold recover_dir, recover, snapshot_state. destruct (load_latest (dd_snapshots dd)) as [[[s seq]|]|]; [| |done];
    cbn [mbind result_bind]; [destruct (restore_snapshot uuid ∅ s) as [e0 c0]|];
    rewrite <- wal_files_entries, <- replay_files_entries; by destruct (foldl _ (_, O) _).
Qed.

(** A directory as the server leaves it: at most the one snapshot it writes, numbers in
    range, and for every row a log that was accepted entry by entry, of which the snapshot
    already holds some beginning. *)
Record recoverable (uuid : list byte) (dd : DataDir) : Prop := {
  rc_names x : x ∈ snap_entries (dd_snapshots dd) → x = (0, snapshot_path 0);
  rc_seq s seq : load_latest (dd_snapshots dd) = Ok (Some (s, seq)) → seq = 0 ∧ snapshot_numbers_ok s = true;
  rc_numbers : Forall (λ w, data_numbers_ok (e_data w) = true) (wal_names ≫= entries_at (dd_logs dd));
  rc_log e0 seq : snapshot_state uuid (dd_snapshots dd) = Ok (e0, seq) → ∀ k, ∃ base j,
    let log := row_log k (filter (λ w, 0 < e_seq w) (wal_names ≫= entries_at (dd_logs dd))) in
    row_log_ok base log ∧ vals_at e0 k = foldl replay_row base (firstn j log)
}.

Lemma snapshot_state_ok uuid d e0 seq :
  (∀ s seq, load_latest d = Ok (Some (s, seq)) → seq = 0 ∧ snapshot_numbers_ok s = true) →
  snapshot_state uuid d = Ok (e0, seq) → seq = 0 ∧ recovered_ok e0.
Proof.
  intros N. unfold snapshot_state. destruct (load_latest d) as [[[s q]|]|]; cbn [mbind result_bind]; [| |done].
  - intros [= <- <-]. destruct (N s q eq_refl) as [-> Ns]. split; [done|]. by apply recovered_restore.
  - intros [= <- <-]. split; [done|]. split; apply map_Forall_empty.
Qed.

(** What recovery makes of such a directory: the beginning of a log the snapshot holds
    does no harm. *)
Lemma recovered_rows uuid dd e counts :
  recoverable uuid dd → recover_dir uuid dd = Ok (e, counts) →
  recovered_ok e ∧
  (∀ k, ∃ base, let log := row_log k (filter (λ w, 0 < e_seq w) (wal_names ≫= entries_at (dd_logs dd))) in
     row_log_ok base log ∧ vals_at e k = foldl replay_row base log) ∧
  (∀ w, w ∈ wal_names ≫= entries_at (dd_logs dd) → 0 < e_seq w → e_type w = EInsert → is_Some (e !! e_table w)).
Proof.
  intros C R. pose proof (recover_replays uuid dd) as S. rewrite R in S.
  destruct (snapshot_state uuid (dd_snapshots dd)) as [[e0 seq]|] eqn:E0; [|done].
  destruct (snapshot_state_ok uuid _ e0 seq (rc_seq _ _ C) E0) as [-> Ok0]. subst e. split_and!.
  - apply recovered_replay; [apply C|done].
  - intros k. destruct (rc_log _ _ C _ _ E0 k) as (base & j & A & V). exists base. split; [done|].
    rewrite (proj1 (replay_at uuid 0 _ e0 O k (proj1 Ok0))), replay_key_row_log, V.
    set (log := row_log _ _) in *. rewrite <- (firstn_skipn j log) in A |- * at 2 3. by apply replay_row_again.
  - intros w Hw Q T. apply replay_exists. right. by exists w.
Qed.

(** Replaying over a directory's rows any last part of its log changes nothing. *)
Lemma replay_rest_again base log1 log2 :
  row_log_ok base (log1 ++ log2) →
  foldl replay_row (foldl replay_row base (log1 ++ log2)) log2 = foldl replay_row base (log1 ++ log2).
Proof.
  intros A. rewrite !foldl_app. pose proof (replay_row_again (foldl replay_row base log1) log2 []) as G.
  rewrite app_nil_r in G. apply G. clear G. revert base A.
  induction log1 as [|w log1 IH]; intros base A; [done|]. by apply IH, A.
Qed.

Definition same_data (e e' : Engine) : Prop :=
  (∀ k, vals_at e' k = vals_at e k) ∧ ∀ n, table_exists e' n = table_exists e n.

(** Once its snapshot is saved, the logs may lose any beginning. *)
Lemma saved_then_partly_truncated uuid uuid' dd e counts ns ns' logs :
  recoverable uuid dd → recover_dir uuid dd = Ok (e, counts) →
  snapshot_float_free (snap_of e) = true → Z.of_nat (length (snapshot_to_vec (snap_of e))) < 2 ^ 64 →
  wal_names = ns ++ ns' → (∀ n, entries_at logs n = if decide (n ∈ ns) then [] else entries_at (dd_logs dd) n) →
  ∃ e' counts', recover_dir uuid' (MkDataDir (save_snapshot e (dd_snapshots dd)).2 logs) = Ok (e', counts') ∧
    same_data e e'.
Proof.
  intros C R F L En El. destruct (recovered_rows uuid dd e counts C R) as ([P S] & V & X).
  set (dd' := MkDataDir _ logs).
  assert (load_latest (dd_snapshots dd') = Ok (Some (snap_of e, 0))) as El'.
  { cbn [dd_snapshots dd']. unfold save_snapshot. apply create_then_load; try done.
    - by intros ?? ->%(rc_names _ _ C) ->%(rc_names _ _ C).
    - intros x ->%(rc_names _ _ C). by right. }
  pose proof (recover_replays uuid' dd') as Rp. unfold snapshot_state in Rp. rewrite El' in Rp.
  cbn [mbind result_bind] in Rp. destruct (recover_dir uuid' dd') as [[e' c']|]; [|done].
  exists e', c'. split; [done|].
  assert (wal_names ≫= entries_at logs = ns' ≫= entries_at (dd_logs dd)) as Rest.
  { assert (NoDup wal_names) as N by (apply (bool_decide_unpack _); vm_compute; exact Logic.I).
    rewrite En in N |- *. apply NoDup_app in N as (_ & D & _). rewrite bind_app.
    replace (ns ≫= entries_at logs) with (@nil WalEntry).
    - cbn [app]. clear -D El. induction ns' as [|n ns' IH]; [done|]. cbn. rewrite El.
      rewrite decide_False; [|intros Hn; apply (D n Hn); by left]. f_equal. apply IH. intros x Hx Hx'. apply (D x Hx). by right.
    - clear -El. assert (∀ x, x ∈ ns → entries_at logs x = []) as E by (intros x Hx; rewrite El; by rewrite decide_True).
      clear El. induction ns as [|n ns IH]; [done|]. cbn. rewrite E by (by left). apply IH. intros x Hx. apply E. by right. }
  cbn [dd_logs dd'] in Rp. rewrite Rest in Rp. subst e'.
  pose proof (λ k, restore_snap_of uuid' e k (recovered_keyed e S)) as Rs.
  destruct (restore_snapshot uuid' ∅ (snap_of e)) as [e1 c1]. cbn [fst]. split.
  - intros k. destruct (Rs k) as (Vk & P1 & _). rewrite (proj1 (replay_at uuid' 0 _ e1 O k P1)), replay_key_row_log, Vk.
    rewrite recovered_reloaded by done. destruct (V k) as (base & A & ->). revert A.
    rewrite En, bind_app, filter_app. unfold row_log. rewrite filter_app. apply replay_rest_again.
  - intros n. unfold table_exists. apply bool_decide_ext. rewrite replay_exists. cbn [fst].
    destruct (Rs (n, 0)) as (_ & _ & T). specialize (T n). assert (is_Some (e1 !! n) ↔ is_Some (e !! n)) as T' by (unfold table_exists in T; rewrite <- (bool_decide_eq_true (is_Some (e1 !! n))), T; apply bool_decide_eq_true).
    rewrite T'. split; [|by left]. intros [?|(w & Hw & Q & Ti & <-)]; [done|]. apply X; try done.
    rewrite En, bind_app. apply elem_of_app. by right.
Qed.

(** The one snapshot there is, is not pruned. *)
Lemma prune_one d keep : (0 < keep)%nat → (∀ x, x ∈ snap_entries d → x = (0, snapshot_path 0)) → (prune d keep).2 = d.
Proof.
  intros K O. unfold prune. cbv zeta. cbn [snd].
  assert (length (list_snapshots d) <= 1)%nat as Ln.
  { rewrite (Permutation_length (list_snapshots_perm d)). pose proof (snap_entries_NoDup d) as N. revert O N.
    destruct (snap_entries d) as [|x [|y l]]; cbn; [lia|lia|]. intros O N. exfalso.
    apply NoDup_cons in N as [N _]. apply N. rewrite (O x), (O y) by set_solver. by left. }
  replace (length (list_snapshots d) - keep)%nat with 0%nat by lia. done.
Qed.

Lemma saved_entries e d x :
  (∀ x, x ∈ snap_entries d → x = (0, snapshot_path 0)) →
  x ∈ snap_entries (save_snapshot e d).2 → x = (0, snapshot_path 0).
Proof.
  intros O. unfold save_snapshot, create_snapshot. cbn [snd].
  pose proof (snapshot_path_not_temp 0 ltac:(lia)) as NT. destruct x as [s n].
  intros [Hd He]%elem_of_snap_entries. cbn [snd] in *. rewrite rename_lookup in Hd by done.
  destruct (decide (n = snapshot_path 0)) as [->|].
  - rewrite snap_entry_path in He by lia. by injection He as <-.
  - destruct (decide _); [by destruct Hd|]. apply O. by apply elem_of_snap_entries.
Qed.

End rotate.

(** ** Waiting, and what it is worth *)

(** Waiting for the logs always ends, for every round sleeps; and when it answers
    true, two readings of the counters of one round, taken in time, were the same - no
    more than that. *)
Theorem flush_all_ends timeout last p step fuel :
  0 < step → (∀ j, elapsed p j + step <= elapsed p (S j)) → timeout - elapsed p 0 <= step * Z.of_nat fuel →
  ∃ quiet, flush_all (S fuel) timeout last p = Some quiet ∧
    (quiet = true → ∃ j, elapsed p j < timeout ∧ first p j = second p j).
Proof.
  intros S C L. destruct (flush_loop_returns timeout p step 0 last fuel S C L) as [quiet E].
  exists quiet. split; [exact E|]. intros ->. destruct (flush_loop_quiet _ _ _ _ _ E) as (j & _ & T & Q).
  by exists j.
Qed.

Definition demo_polls : polls := MkPolls (λ i, 10 * Z.of_nat i) (λ i, Z.min 3 (Z.of_nat i)) (λ i, Z.min 3 (Z.of_nat i)) (λ i, Z.of_nat i).

Lemma flush_all_ends_witness :
  (∀ j, elapsed demo_polls j + 10 <= elapsed demo_polls (S j)) ∧
  ∃ quiet, flush_all 11 100 0 demo_polls = Some quiet ∧
    (quiet = true → ∃ j, elapsed demo_polls j < 100 ∧ first demo_polls j = second demo_polls j).
Proof.
  assert (∀ j, elapsed demo_polls j + 10 <= elapsed demo_polls (S j)) as C by (intros j; unfold demo_polls; cbn [elapsed]; lia).
  split; [exact C|]. apply (flush_all_ends 100 0 demo_polls 10 10); [lia|exact C|unfold demo_polls; cbn [elapsed]; lia].
Defined.

#[local] Existing Instances demo_crc32 demo_value_text demo_json_bytes demo_order demo_order_laws demo_row_order
  demo_row_order_laws demo_table_order demo_table_order_laws demo_text demo_text_laws demo_dir_order demo_dir_order_laws
  demo_crc32_laws.

(** A thread that does not run for as long as two readings take (it is syncing, or was not
    scheduled): the flush answers true, and the write is in no log. *)
Definition demo_bridge : WalBridge := (bridge_append (open_path [] near_sync) (demo_write 1)).2.
Definition still : polls := MkPolls (λ i, 10 * Z.of_nat i) (λ _, 0) (λ _, 0) (λ _, 0).
Example flush_answers_early :
  bridge_flush 2 demo_bridge 30000 0 still = Some true ∧
  (g_queue <$> wb_group demo_bridge) = Some [demo_write 1] ∧
  (read_all <$> (wal_file ∘ g_wal <$> wb_group demo_bridge)) = Some (Ok []).
Proof. by vm_compute. Qed.

(** ** A rotation *)

Definition demo_data_dir : DataDir := MkDataDir ∅ {["wal.log"%string := wal_file (wal_run demo_log_ops)]}.
Definition demo_recovered : Engine :=
  (foldl (replay_step [] 0) (∅, O) [demo_entry1; demo_entry2]).1.

Lemma demo_entries : wal_names ≫= entries_at (dd_logs demo_data_dir) = [demo_entry1; demo_entry2].
Proof. vm_compute. reflexivity. Qed.

Lemma demo_recoverable : recoverable [] demo_data_dir.
Proof.
  split.
  - intros x Hx. by apply elem_of_nil in Hx.
  - intros s seq [=].
  - rewrite demo_entries. repeat constructor.
  - intros e0 seq [= <- <-] k. exists None, O. rewrite demo_entries. split; [|done].
    change (filter (λ w, 0 < e_seq w) [demo_entry1; demo_entry2]) with [demo_entry1; demo_entry2]. apply demo_log_ok.
Qed.


(** A log with one entry of a type this version does not know, after a good one: recovery
    reads nothing of it, and the rotation, which can open it, erases it. *)
Definition newer_log : list byte :=
  header_bytes fresh_header ++ entry_bytes demo_entry1 ++
  raw_bytes (MkRaw WAL_MAGIC 2 9 "t" 1 [] (compute_checksum 2 9 "t" 1 [])).
Example rotation_erases_unread_log :
  file_entries newer_log = [] ∧ is_ok (open newer_log) = true ∧
  ((λ r : string * DataDir, dd_logs r.2 !! "wal.log"%string) <$>
     offline_rotate [] (MkDataDir ∅ {["wal.log"%string := newer_log]})) = Ok (Some (header_bytes fresh_header)).
Proof. by vm_compute. Qed.
