(* ===== verification/Shard.v ===== *)
(** [blitz-server/src/server.rs], the configuration and the server-side routing:
    base tables spread over physical ones, row ids that carry their shard. *)
From S2P Require Import Prelude Float Value HashMap Schema Core Policy Codec Snapshot GroupCommit Durability.

Local Open Scope Z_scope.

(** ** Configuration *)

Record ShardSpec : Type := MkShardSpec { shards : Z; shard_column : string }.

(** [ShardSpec::new] *)
Definition ShardSpec_new (n : Z) (column : string) : ShardSpec := MkShardSpec (Z.max n 1) column.

Record ServerConfig : Type := MkServerConfig {
  host : string;
  port : Z;
  data_dir : option string;
  max_connections : Z;
  enable_auth : bool;
  max_message_size : Z;
  shed_at_connections : option Z;
  slow_threshold_ms : Z;
  skip_validation : bool;
  durability : DurabilityMode;
  snapshot_secs : Z;
  idle_timeout_secs : Z;
  max_connections_per_ip : Z;
  require_auth : bool;
  auth_tokens : gmap string Identity;
  table_shards : gmap string ShardSpec;
  row_owner : gmap string string;
  http_cors_origins : list string
}.

(** [ServerConfig::default()] *)
Definition ServerConfig_default : ServerConfig :=
  MkServerConfig "127.0.0.1" 7420 None 200000 true 1048576 None 50 false ModeNone 0 300 20000
    false ∅ ∅ ∅ [].

(** ** FNV-1a *)

Definition FNV_OFF : Z := 0xcbf29ce484222325.
Definition FNV_PRIME : Z := 0x100000001b3.

Definition fnv_mix (h : Z) (b : list byte) : Z :=
  foldl (λ h x, wrap 64 (Z.lxor h (byte_Z x) * FNV_PRIME)) h b.

Definition IDEM_SHARDS : Z := 16.

Definition idem_shard (key : string) : Z :=
  Z.land (fnv_mix FNV_OFF (str_bytes key)) (IDEM_SHARDS - 1).

Section routing.
Context `{JsonText} `{Chrono} `{ValueText}.

Fixpoint shard_hash (v : value) : Z :=
  let mix := fnv_mix FNV_OFF in
  match v with
  | VBoolean b => mix [Z_byte (Z.b2z b)]
  | VInt8 n | VUInt8 n => mix (le_bytes 1 n)
  | VInt16 n | VUInt16 n => mix (le_bytes 2 n)
  | VInt32 n | VUInt32 n => mix (le_bytes 4 n)
  | VInt64 n | VUInt64 n => mix (le_bytes 8 n)
  | VFloat32 bits => mix (le_bytes 4 bits)
  | VFloat64 bits => mix (le_bytes 8 bits)
  | VDecimal s | VString s => mix (str_bytes s)
  | VBytes b => mix b
  | VUuid u => mix u
  | VTimestamp t => mix (le_bytes 8 (timestamp_micros t))
  | VDate d => mix (str_bytes (date_to_string d))
  | VJson j => mix (str_bytes (json_to_string j))
  | VArray a =>
      (fix each (a : list value) (h : Z) : Z :=
         match a with
         | [] => h
         | item :: a => each a (fnv_mix h (le_bytes 8 (shard_hash item)))
         end) a FNV_OFF
  | VNull => mix (str_bytes "null")
  end.

(** ** Decimal text *)

Fixpoint num_digits (fuel : nat) (n : Z) : nat :=
  match fuel with
  | O => 1
  | S fuel => if n <? 10 then 1%nat else S (num_digits fuel (n / 10))
  end.

(** [{:02}] and [{}] of an unsigned integer; a [u64] has at most twenty digits. *)
Definition dec_02 (n : Z) : list byte := dec_digits (Nat.max 2 (num_digits 19 n)) n.
Definition dec (n : Z) : string := String.string_of_list_byte (dec_digits (num_digits 19 n) n).

(** ** Tables of a base *)

Definition shard_count (c : ServerConfig) (base : string) : Z :=
  Z.max (from_option shards 1 (table_shards c !! base)) 1.

Definition physical_table (c : ServerConfig) (base : string) (shard : Z) : string :=
  if shard_count c base <=? 1 then base
  else String.string_of_list_byte (str_bytes base ++ str_bytes "_" ++ dec_02 shard).

Definition shard_tables (c : ServerConfig) (base : string) : list (Z * string) :=
  let n := shard_count c base in
  if n <=? 1 then [(0, base)]
  else (λ s, (s, physical_table c base s)) <$> seqZ 0 n.

Definition is_ascii_digit (b : byte) : bool := bool_decide (is_Some (digit_of b)).

Definition base_of_physical (c : ServerConfig) (physical : string) : string :=
  match split_last "_"%byte (str_bytes physical) with
  | Some (base, suffix) =>
      match table_shards c !! String.string_of_list_byte base with
      | Some spec =>
          if (1 <? shards spec) && negb (bool_decide (suffix = [])) && forallb is_ascii_digit suffix
          then String.string_of_list_byte base else physical
      | None => physical
      end
  | None => physical
  end.

Definition shard_of_physical (c : ServerConfig) (base physical : string) : Z :=
  if (shard_count c base <=? 1) || String.eqb physical base then 0
  else default 0 (split_last "_"%byte (str_bytes physical) ≫= λ p, parse_u64 p.2).

(** ** Row ids *)

Definition SHARD_SHIFT : Z := 56.

Definition compose_id (shard local : Z) : Z :=
  Z.lor (wrap 64 (Z.shiftl (Z.land shard 0xFF) SHARD_SHIFT)) (Z.land local LOCAL_MASK).

Definition split_id (id : Z) : Z * Z := (Z.shiftr id SHARD_SHIFT, Z.land id LOCAL_MASK).

Definition route_insert (c : ServerConfig) (base : string) (vs : values) : string * Z :=
  let n := shard_count c base in
  if n <=? 1 then (base, 0)
  else
    let shard := match table_shards c !! base with
                 | Some spec => shard_hash (default VNull (vs !! shard_column spec)) mod n
                 | None => 0
                 end in
    (physical_table c base shard, shard).

Definition route_id (c : ServerConfig) (base : string) (id : Z) : string * Z :=
  let n := shard_count c base in
  if n <=? 1 then (base, id)
  else let '(shard, local) := split_id id in (physical_table c base (shard mod n), local).
End routing.

(** ** Decimal text reads back *)

Lemma num_digits_bound fuel n :
  0 <= n < 10 ^ Z.of_nat (S fuel) → n < 10 ^ Z.of_nat (num_digits fuel n).
Proof.
  revert n. induction fuel as [|fuel IH]; intros n Hn; cbn [num_digits].
  - lia.
  - destruct (n <? 10) eqn:E; [apply Z.ltb_lt in E; lia|apply Z.ltb_ge in E].
    rewrite Nat2Z.inj_succ, Z.pow_succ_r in Hn |- * by lia.
    specialize (IH (n / 10)). pose proof (Z.div_mod n 10 ltac:(lia)).
    pose proof (Z.mod_pos_bound n 10 ltac:(lia)).
    assert (n / 10 < 10 ^ Z.of_nat (num_digits fuel (n / 10))) by
      (apply IH; split; [apply Z.div_pos; lia|apply Z.div_lt_upper_bound; lia]).
    lia.
Qed.

Lemma num_digits_pos fuel n : (1 <= num_digits fuel n)%nat.
Proof. destruct fuel; simpl; [lia|]. case_match; lia. Qed.

Lemma dec_02_parse n : 0 <= n < 2 ^ 64 → parse_u64 (dec_02 n) = Some n.
Proof.
  intros Hn. unfold dec_02. pose proof (num_digits_bound 19 n) as B.
  change (10 ^ Z.of_nat 20) with (10 ^ 20) in B. specialize (B ltac:(lia)).
  destruct (Nat.max 2 (num_digits 19 n)) as [|k] eqn:E; [lia|].
  apply parse_u64_dec; [|lia]. split; [lia|].
  eapply Z.lt_le_trans; [exact B|]. apply Z.pow_le_mono_r; lia.
Qed.

Lemma dec_digits_digits k n : Forall (λ b, is_ascii_digit b = true) (dec_digits k n).
Proof.
  induction k as [|k IH]; constructor; [|done].
  unfold is_ascii_digit. rewrite dec_digit_of. apply bool_decide_true. eauto.
Qed.

Lemma dec_02_digits n :
  forallb is_ascii_digit (dec_02 n) = true ∧ dec_02 n ≠ [] ∧ "_"%byte ∉ dec_02 n.
Proof.
  pose proof (dec_digits_digits (Nat.max 2 (num_digits 19 n)) n) as F. fold (dec_02 n) in F.
  split_and!.
  - by apply forallb_forall, List.Forall_forall.
  - unfold dec_02. destruct (Nat.max 2 _) eqn:E; [lia|done].
  - intros Hin. rewrite Forall_forall in F. apply F in Hin. by vm_compute in Hin.
Qed.

Lemma str_of_bytes s : String.string_of_list_byte (str_bytes s) = s.
Proof. apply String.string_of_list_byte_of_string. Qed.

(** ** Ids *)

Lemma LOCAL_MASK_ones z : Z.land z LOCAL_MASK = z mod 2 ^ 56.
Proof. unfold LOCAL_MASK. change 0x00FFFFFFFFFFFFFF with (Z.ones 56). by apply Z.land_ones. Qed.

Lemma compose_id_sum s l : compose_id s l = (s mod 256) * 2 ^ 56 + l mod 2 ^ 56.
Proof.
  unfold compose_id. rewrite LOCAL_MASK_ones. change 0xFF with (Z.ones 8).
  rewrite Z.land_ones, Z.shiftl_mul_pow2 by (unfold SHARD_SHIFT; lia). unfold SHARD_SHIFT.
  change (2 ^ 8) with 256. pose proof (Z.mod_pos_bound s 256 ltac:(lia)).
  pose proof (Z.mod_pos_bound l (2 ^ 56) ltac:(lia)).
  rewrite wrap_small by lia. symmetry. rewrite <- Z.add_lor_land.
  assert (Z.land (s mod 256 * 2 ^ 56) (l mod 2 ^ 56) = 0) as ->; [|lia].
  rewrite <- (Z.mod_small (l mod 2 ^ 56) (2 ^ 56)) by lia.
  rewrite <- Z.land_ones by lia. rewrite Z.land_comm, <- Z.land_assoc.
  rewrite (Z.land_comm (Z.ones 56)), Z.land_ones by lia. rewrite Z.mod_mul, Z.land_0_r by lia. done.
Qed.

Lemma split_id_divmod id : split_id id = (id / 2 ^ 56, id mod 2 ^ 56).
Proof.
  unfold split_id. rewrite LOCAL_MASK_ones. unfold SHARD_SHIFT. by rewrite Z.shiftr_div_pow2.
Qed.

Lemma compose_id_range s l : 0 <= compose_id s l < 2 ^ 64.
Proof.
  rewrite compose_id_sum. pose proof (Z.mod_pos_bound s 256 ltac:(lia)).
  pose proof (Z.mod_pos_bound l (2 ^ 56) ltac:(lia)). lia.
Qed.

Lemma split_compose s l : split_id (compose_id s l) = (s mod 256, l mod 2 ^ 56).
Proof.
  rewrite split_id_divmod, compose_id_sum.
  pose proof (Z.mod_pos_bound l (2 ^ 56) ltac:(lia)).
  rewrite Z.div_add_l, (Z.div_small (l mod _)), Z.add_0_r by lia.
  by rewrite Z.add_comm, Z.mod_add, Z.mod_mod by lia.
Qed.

Lemma compose_id_local l : 0 <= l < 2 ^ 56 → compose_id 0 l = l.
Proof. intros. rewrite compose_id_sum, (Z.mod_small l) by done. done. Qed.

(** ** Routing *)

Section routes.
Context `{JsonText} `{Chrono} `{ValueText}.
Implicit Types (c : ServerConfig) (base : string) (vs : values).

Lemma physical_sharded c base s :
  1 < shard_count c base →
  str_bytes (physical_table c base s) = str_bytes base ++ "_"%byte :: dec_02 s.
Proof.
  intros Hn. unfold physical_table. rewrite (proj2 (Z.leb_gt _ _)) by done.
  rewrite str_bytes_of. done.
Qed.

Lemma split_physical c base s :
  1 < shard_count c base →
  split_last "_"%byte (str_bytes (physical_table c base s)) = Some (str_bytes base, dec_02 s).
Proof.
  intros Hn. rewrite physical_sharded by done. apply split_last_app, dec_02_digits.
Qed.

Lemma physical_ne_base c base s :
  1 < shard_count c base → physical_table c base s ≠ base.
Proof.
  intros Hn E. pose proof (physical_sharded c base s Hn) as L. rewrite E in L.
  apply (f_equal length) in L. rewrite length_app in L. simpl in L. lia.
Qed.

Lemma shard_of_physical_table c base s :
  1 < shard_count c base → 0 <= s < 2 ^ 64 →
  shard_of_physical c base (physical_table c base s) = s.
Proof.
  intros Hn Hs. unfold shard_of_physical. rewrite (proj2 (Z.leb_gt _ _)) by done.
  rewrite (proj2 (String.eqb_neq _ _)) by (by apply physical_ne_base).
  rewrite split_physical by done. cbn [orb mbind option_bind snd]. by rewrite dec_02_parse.
Qed.

Lemma sharded_spec c base :
  1 < shard_count c base →
  ∃ spec, table_shards c !! base = Some spec ∧ shards spec = shard_count c base.
Proof.
  unfold shard_count. destruct (table_shards c !! base) as [spec|]; simpl; [|lia].
  intros ?. exists spec. split; [done|lia].
Qed.

Lemma base_of_physical_table c base s :
  1 < shard_count c base → base_of_physical c (physical_table c base s) = base.
Proof.
  intros Hn. unfold base_of_physical. rewrite split_physical by done.
  rewrite str_of_bytes. destruct (sharded_spec c base Hn) as (spec & -> & ->).
  destruct (dec_02_digits s) as (-> & Ne & _).
  rewrite (proj2 (Z.ltb_lt _ _)) by done. by rewrite bool_decide_false.
Qed.

Lemma route_insert_shard c base vs :
  0 <= (route_insert c base vs).2 < Z.max 1 (shard_count c base) ∧
  (route_insert c base vs).1 = physical_table c base (route_insert c base vs).2.
Proof.
  unfold route_insert. destruct (shard_count c base <=? 1) eqn:E; simpl.
  - split; [lia|]. unfold physical_table. by rewrite E.
  - apply Z.leb_gt in E. destruct (sharded_spec c base E) as (spec & -> & _).
    split; [|done]. pose proof (Z.mod_pos_bound
      (shard_hash (default VNull (vs !! shard_column spec))) (shard_count c base)). lia.
Qed.

(** Ids carry their shard: composing masks the shard to 8 bits and the local id
    to 56, always fits a [u64], and splitting gives both back; conversely every
    [u64] is the id composed of its two parts, so distinct rows of distinct shards
    never share an id as long as a base has at most 256 shards. *)
Theorem shard_ids_roundtrip shard local :
  0 <= compose_id shard local < 2 ^ 64 ∧
  split_id (compose_id shard local) = (shard mod 256, local mod 2 ^ 56) ∧
  (∀ id, 0 <= id < 2 ^ 64 → compose_id (split_id id).1 (split_id id).2 = id) ∧
  (∀ shard' local', 0 <= shard < 256 → 0 <= shard' < 256 →
     0 <= local < 2 ^ 56 → 0 <= local' < 2 ^ 56 →
     compose_id shard local = compose_id shard' local' → shard = shard' ∧ local = local').
Proof.
  split_and!; [apply compose_id_range..|apply split_compose| |].
  - intros id Hid. rewrite split_id_divmod. cbn [fst snd]. rewrite compose_id_sum.
    rewrite Z.mod_mod, (Z.mod_small (id / 2 ^ 56)) by
      first [lia|split; [apply Z.div_pos; lia|apply Z.div_lt_upper_bound; lia]].
    pose proof (Z.div_mod id (2 ^ 56) ltac:(lia)). lia.
  - intros s' l' ? ? ? ? E. apply (f_equal split_id) in E. rewrite !split_compose in E.
    rewrite !Z.mod_small in E by done. by injection E.
Qed.

(** Routing is consistent: the physical table an insert is routed to is one of
    the base's shard tables, the id composed from its shard and the table's local
    id routes point operations back to that table and that local id, and the names
    of the shard tables read back to the base and the shard. *)
Theorem route_id_finds_insert c base vs local :
  shard_count c base <= 256 → 0 <= local < 2 ^ 56 →
  let '(physical, shard) := route_insert c base vs in
  (shard, physical) ∈ shard_tables c base ∧
  route_id c base (compose_id shard local) = (physical, local) ∧
  shard_of_physical c base physical = shard ∧
  (1 < shard_count c base → base_of_physical c physical = base).
Proof.
  intros Hn Hl. pose proof (route_insert_shard c base vs) as [Hs Hp].
  destruct (route_insert c base vs) as [physical s]. cbn [fst snd] in *. subst physical.
  unfold shard_tables, route_id. destruct (shard_count c base <=? 1) eqn:E.
  - apply Z.leb_le in E. assert (s = 0) as -> by lia.
    unfold physical_table, shard_of_physical. rewrite (proj2 (Z.leb_le _ _)) by done.
    rewrite compose_id_local by done. split_and!; [by apply list_elem_of_singleton|done|done|lia].
  - apply Z.leb_gt in E. rewrite split_compose, (Z.mod_small s 256), !Z.mod_small by lia. split_and!; [|done| |].
    + apply list_elem_of_fmap. exists s. split; [done|]. apply elem_of_seqZ. lia.
    + apply shard_of_physical_table; lia.
    + intros _. by apply base_of_physical_table.
Qed.
End routes.

Definition demo_cfg : ServerConfig :=
  MkServerConfig "127.0.0.1" 7420 None 200000 true 1048576 None 50 false ModeNone 0 300 20000
    false ∅ {["posts"%string := ShardSpec_new 4 "author"]} ∅ [].

Lemma route_id_finds_insert_witness :
  let r := @route_insert demo_json_text demo_chrono demo_value_text demo_cfg "posts"
    {["author"%string := VString "cy"]} in
  r = ("posts_01"%string, 1) ∧ route_id demo_cfg "posts" (compose_id r.2 7) = (r.1, 7).
Proof.
  pose proof (@route_id_finds_insert demo_json_text demo_chrono demo_value_text demo_cfg "posts"
    {["author"%string := VString "cy"]} 7) as T.
  assert (R : @route_insert demo_json_text demo_chrono demo_value_text demo_cfg "posts"
    {["author"%string := VString "cy"]} = ("posts_01"%string, 1)) by (vm_compute; reflexivity).
  rewrite R in T |- *. split; [reflexivity|]. apply T; vm_compute; [discriminate|split; [discriminate|reflexivity]].
Defined.

(** Beyond 256 shards two shards of a base share their ids. *)
Lemma compose_id_aliases shard local : compose_id (shard + 256) local = compose_id shard local.
Proof.
  rewrite !compose_id_sum. rewrite Zplus_mod, Z.mod_same, Z.add_0_r, Z.mod_mod by lia. done.
Qed.
