(* ===== verification/Admission.v ===== *)
(** Admission of connections: the counters of [blitz-server/src/server.rs]
    ([try_acquire_connection], [release_connection], [ip_acquire], [ip_release],
    [should_shed]) and the guard of [blitz-server/src/transport.rs] that holds a slot
    for the life of a connection. The counter is updated by compare-and-swap loops, so
    every load and every compare-and-swap is a step of its own, and connections
    interleave freely. *)
From S2P Require Import Prelude Float Value HashMap Schema Core Policy Codec GroupCommit Shard.

Local Open Scope Z_scope.

(** [std::net::IpAddr], by its octets. *)
Abbreviation ip_addr := (list byte).

(** ** Per-address slots (one lock around each operation) *)

Definition ip_acquire (c : ServerConfig) (ips : gmap ip_addr Z) (ip : ip_addr) : bool * gmap ip_addr Z :=
  let cap := max_connections_per_ip c in
  if cap =? 0 then (true, ips)
  else
    let n := default 0 (ips !! ip) in
    if cap <=? n then (false, ips) else (true, <[ip := n + 1]> ips).

Definition ip_release (ips : gmap ip_addr Z) (ip : ip_addr) : gmap ip_addr Z :=
  match ips !! ip with
  | Some n => if n <=? 1 then delete ip ips else <[ip := n - 1]> ips
  | None => ips
  end.

Definition ip_release_opt (ips : gmap ip_addr Z) (ip : option ip_addr) : gmap ip_addr Z :=
  match ip with Some ip => ip_release ips ip | None => ips end.

(** ** The shared counters and where each connection task stands *)

(** [ip] is the peer's address when the socket knows it. [current] is the value the
    compare-and-swap loop last read. *)
Inductive conn_pc : Type :=
| Arrived (ip : option ip_addr)
| IpHeld (ip : option ip_addr)
| Acquiring (ip : option ip_addr) (current : Z)
| Refused (ip : option ip_addr)
| Holding (ip : option ip_addr)
| Releasing (ip : option ip_addr) (current : Z)
| IpLeft (ip : option ip_addr).

Record Admissions : Type := MkAdmissions {
  connections : Z;
  ips : gmap ip_addr Z;
  shed_drops : Z;
  pcs : gmap nat conn_pc
}.

Definition Admissions_new : Admissions := MkAdmissions 0 ∅ 0 ∅.

Definition should_shed (c : ServerConfig) (conns : Z) : bool :=
  match shed_at_connections c with Some t => t <=? conns | None => false end.

Definition set_pc (a : Admissions) (t : nat) (p : conn_pc) : Admissions :=
  MkAdmissions (connections a) (ips a) (shed_drops a) (<[t := p]> (pcs a)).
Definition leave (a : Admissions) (t : nat) : Admissions :=
  MkAdmissions (connections a) (ips a) (shed_drops a) (delete t (pcs a)).
Definition record_shed_drop (a : Admissions) : Admissions :=
  MkAdmissions (connections a) (ips a) (wrap 64 (shed_drops a + 1)) (pcs a).
Definition set_connections (a : Admissions) (n : Z) : Admissions :=
  MkAdmissions n (ips a) (shed_drops a) (pcs a).
Definition set_ips (a : Admissions) (m : gmap ip_addr Z) : Admissions :=
  MkAdmissions (connections a) m (shed_drops a) (pcs a).

(** [compare_exchange_weak(current, new)]: may fail spuriously; a failure hands back
    the actual value. *)
Definition cas (a : Admissions) (spurious : bool) (current new : Z) : option Admissions :=
  if (connections a =? current) && negb spurious then Some (set_connections a new) else None.

(** A new socket: the watermark is checked before anything is taken. *)
Definition arrive (c : ServerConfig) (a : Admissions) (t : nat) (ip : option ip_addr) : Admissions :=
  if should_shed c (connections a) then record_shed_drop a else set_pc a t (Arrived ip).

(** [ConnectionGuard::new], first half: the address slot. *)
Definition guard_ip (c : ServerConfig) (a : Admissions) (t : nat) (ip : option ip_addr) : Admissions :=
  match ip with
  | Some addr =>
      let '(admitted, m) := ip_acquire c (ips a) addr in
      if admitted then set_pc (set_ips a m) t (IpHeld ip) else leave (record_shed_drop a) t
  | None => set_pc a t (IpHeld None)
  end.

(** One turn of the loop of [try_acquire_connection]. *)
Definition acquire_turn (c : ServerConfig) (a : Admissions) (t : nat) (spurious : bool)
    (ip : option ip_addr) (current : Z) : Admissions :=
  if max_connections c <=? current then set_pc a t (Refused ip)
  else match cas a spurious current (current + 1) with
       | Some a => set_pc a t (Holding ip)
       | None => set_pc a t (Acquiring ip (connections a))
       end.

(** One turn of the loop of [release_connection]. *)
Definition release_turn (a : Admissions) (t : nat) (spurious : bool) (ip : option ip_addr) (current : Z)
    : Admissions :=
  if current =? 0 then set_pc a t (IpLeft ip)
  else match cas a spurious current (current - 1) with
       | Some a => set_pc a t (IpLeft ip)
       | None => set_pc a t (Releasing ip (connections a))
       end.

(** The next step of task [t]; [Refused] and [IpLeft] give the address slot back. *)
Definition conn_step (c : ServerConfig) (a : Admissions) (t : nat) (spurious : bool) : option Admissions :=
  p ← pcs a !! t;
  Some match p with
       | Arrived ip => guard_ip c a t ip
       | IpHeld ip => set_pc a t (Acquiring ip (connections a))
       | Acquiring ip current => acquire_turn c a t spurious ip current
       | Refused ip | IpLeft ip => leave (set_ips a (ip_release_opt (ips a) ip)) t
       | Holding ip => set_pc a t (Releasing ip (connections a))
       | Releasing ip current => release_turn a t spurious ip current
       end.

Inductive adm_step (c : ServerConfig) : Admissions → Admissions → Prop :=
| step_arrive a t ip : pcs a !! t = None → adm_step c a (arrive c a t ip)
| step_conn a a' t spurious : conn_step c a t spurious = Some a' → adm_step c a a'.

Definition reachable (c : ServerConfig) : Admissions → Prop := rtc (adm_step c) Admissions_new.

(** ** Counting tasks *)

Definition pcount (P : conn_pc → bool) (m : gmap nat conn_pc) : Z :=
  map_fold (λ _ p n, n + Z.b2z (P p)) 0 m.

Definition holds_slot (p : conn_pc) : bool :=
  match p with Holding _ | Releasing _ _ => true | _ => false end.

Definition pc_ip (p : conn_pc) : option ip_addr :=
  match p with
  | Arrived _ => None
  | IpHeld ip | Acquiring ip _ | Refused ip | Holding ip | Releasing ip _ | IpLeft ip => ip
  end.
Definition holds_ip (addr : ip_addr) (p : conn_pc) : bool := bool_decide (pc_ip p = Some addr).

Section counting.
Context (P : conn_pc → bool).

Lemma pcount_fresh m t p : m !! t = None → pcount P (<[t := p]> m) = pcount P m + Z.b2z (P p).
Proof. intros Hn. unfold pcount. rewrite map_fold_insert_L; [done|intros; lia|done]. Qed.

Lemma pcount_delete m t p : m !! t = Some p → pcount P (delete t m) = pcount P m - Z.b2z (P p).
Proof.
  intros Hs. rewrite <- (insert_delete_id m t p) at 2 by done.
  rewrite pcount_fresh by apply lookup_delete_eq. lia.
Qed.

Lemma pcount_replace m t p q :
  m !! t = Some p → pcount P (<[t := q]> m) = pcount P m - Z.b2z (P p) + Z.b2z (P q).
Proof.
  intros Hs. rewrite <- (insert_delete_eq m), pcount_fresh by apply lookup_delete_eq.
  by erewrite pcount_delete.
Qed.

Lemma pcount_nonneg m : 0 <= pcount P m.
Proof.
  unfold pcount. apply (map_fold_weak_ind (λ n _, 0 <= n)); [lia|].
  intros t p m' n _ ?. destruct (P p); simpl; lia.
Qed.

Lemma pcount_pos m t p : m !! t = Some p → P p = true → 1 <= pcount P m.
Proof.
  intros Hs Hp. pose proof (pcount_delete m t p Hs) as D. rewrite Hp in D.
  pose proof (pcount_nonneg (delete t m)). simpl in D. lia.
Qed.
End counting.

(** ** The invariant *)

(** What the address map records for an address with [n] slots taken: nothing at zero. *)
Definition slots (n : Z) : option Z := if n =? 0 then None else Some n.

Record adm_inv (c : ServerConfig) (a : Admissions) : Prop := {
  inv_conns : connections a = pcount holds_slot (pcs a);
  inv_max : connections a <= max_connections c;
  inv_read : ∀ t ip n, pcs a !! t = Some (Releasing ip n) → 1 <= n;
  inv_free : max_connections_per_ip c = 0 → ips a = ∅;
  inv_ips : max_connections_per_ip c ≠ 0 → ∀ addr,
    ips a !! addr = slots (pcount (holds_ip addr) (pcs a)) ∧
    pcount (holds_ip addr) (pcs a) <= max_connections_per_ip c
}.

Section invariant.
Context (c : ServerConfig) (Hmax : 0 <= max_connections c) (Hcap : 0 <= max_connections_per_ip c).
Implicit Types (a : Admissions) (t : nat).

Lemma adm_inv_new : adm_inv c Admissions_new.
Proof. by split. Qed.

Lemma lookup_set_pc a t p t' q :
  pcs (set_pc a t p) !! t' = Some q → (t' = t ∧ q = p) ∨ pcs a !! t' = Some q.
Proof. cbn [pcs set_pc]. intros [[-> ->]|[_ ?]]%lookup_insert_Some; eauto. Qed.

(** Moving a task without touching what it holds keeps the invariant. *)
Lemma adm_inv_move a t p q :
  adm_inv c a → pcs a !! t = Some p → holds_slot q = holds_slot p → pc_ip q = pc_ip p →
  (∀ ip n, q = Releasing ip n → 1 <= n) → adm_inv c (set_pc a t q).
Proof.
  intros [I1 I2 I3 I4 I5] Ht Hs Hip Hr. split; cbn [connections ips pcs set_pc]; try done.
  - rewrite (pcount_replace _ _ _ p) by done. rewrite Hs. lia.
  - intros t' ip n [[_ ?]|[_ ?]]%lookup_insert_Some; eauto.
  - intros Hc addr. rewrite (pcount_replace _ _ _ p) by done.
    assert (holds_ip addr q = holds_ip addr p) as -> by (unfold holds_ip; by rewrite Hip).
    destruct (I5 Hc addr) as [E ?]. split; [rewrite E; f_equal; lia|lia].
Qed.

(** Taking or giving back the connection slot. *)
Lemma adm_inv_slot a t p q n :
  adm_inv c a → pcs a !! t = Some p → n <= max_connections c →
  n = connections a + Z.b2z (holds_slot q) - Z.b2z (holds_slot p) → pc_ip q = pc_ip p →
  (∀ ip n, q = Releasing ip n → 1 <= n) → adm_inv c (set_pc (set_connections a n) t q).
Proof.
  intros [I1 I2 I3 I4 I5] Ht Hn En Hip Hr. split; cbn [connections ips pcs set_pc set_connections]; try done.
  - rewrite (pcount_replace _ _ _ p) by done. lia.
  - intros t' ip m [[_ ?]|[_ ?]]%lookup_insert_Some; eauto.
  - intros Hc addr. rewrite (pcount_replace _ _ _ p) by done.
    assert (holds_ip addr q = holds_ip addr p) as -> by (unfold holds_ip; by rewrite Hip).
    destruct (I5 Hc addr) as [E ?]. split; [rewrite E; f_equal; lia|lia].
Qed.

Lemma slots_lookup n : 0 <= n → default 0 (slots n) = n.
Proof. unfold slots. intros. case_match; simpl; lia. Qed.

Lemma ip_acquire_spec a addr m b :
  adm_inv c a → ip_acquire c (ips a) addr = (b, m) →
  if b then
    (max_connections_per_ip c = 0 → m = ∅) ∧
    (max_connections_per_ip c ≠ 0 → ∀ addr', let n := pcount (holds_ip addr') (pcs a) in
       let n' := n + Z.b2z (bool_decide (addr' = addr)) in
       m !! addr' = slots n' ∧ n' <= max_connections_per_ip c)
  else m = ips a.
Proof.
  intros [I1 I2 I3 I4 I5]. unfold ip_acquire.
  destruct (max_connections_per_ip c =? 0) eqn:E0; [|apply Z.eqb_neq in E0].
  - apply Z.eqb_eq in E0. intros [= <- <-]. split; [auto|done].
  - destruct (I5 E0 addr) as [Ea Eb]. rewrite Ea.
    pose proof (pcount_nonneg (holds_ip addr) (pcs a)). rewrite slots_lookup by done.
    destruct (_ <=? _) eqn:El; intros [= <- <-]; [done|]. apply Z.leb_gt in El.
    split; [done|]. intros _ addr'; cbv zeta; destruct (decide (addr' = addr)) as [->|Hne].
    + rewrite bool_decide_true, lookup_insert_eq by done. cbn [Z.b2z]. split; [|lia].
      unfold slots. rewrite (proj2 (Z.eqb_neq _ _)) by lia. done.
    + rewrite bool_decide_false, lookup_insert_ne by done. cbn [Z.b2z]. rewrite Z.add_0_r. auto.
Qed.

Lemma ip_release_spec a t p :
  adm_inv c a → pcs a !! t = Some p → max_connections_per_ip c ≠ 0 → ∀ addr,
  ip_release_opt (ips a) (pc_ip p) !! addr =
    slots (pcount (holds_ip addr) (pcs a) - Z.b2z (holds_ip addr p)).
Proof.
  intros [I1 I2 I3 I4 I5] Ht Hc addr. unfold holds_ip at 2.
  destruct (pc_ip p) as [ip|] eqn:Ep; cbn [ip_release_opt];
    [|rewrite bool_decide_false by done; destruct (I5 Hc addr) as [-> _]; f_equal; simpl; lia].
  unfold ip_release. destruct (I5 Hc ip) as [Ei _]. rewrite Ei.
  assert (1 <= pcount (holds_ip ip) (pcs a)) as L.
  { eapply pcount_pos; [exact Ht|]. unfold holds_ip. by rewrite Ep, bool_decide_true. }
  unfold slots at 1. rewrite (proj2 (Z.eqb_neq _ 0)) by lia.
  destruct (decide (addr = ip)) as [->|Hne].
  - rewrite bool_decide_true by done. cbn [Z.b2z].
    destruct (_ <=? 1) eqn:E1; [apply Z.leb_le in E1|apply Z.leb_gt in E1].
    + rewrite lookup_delete_eq. unfold slots. by rewrite (proj2 (Z.eqb_eq _ 0)) by lia.
    + rewrite lookup_insert_eq. unfold slots. by rewrite (proj2 (Z.eqb_neq _ 0)) by lia.
  - rewrite bool_decide_false by congruence. cbn [Z.b2z]. rewrite Z.sub_0_r.
    destruct (I5 Hc addr) as [<- _]. case_match; [by rewrite lookup_delete_ne|by rewrite lookup_insert_ne].
Qed.

Lemma ip_release_empty ip : ip_release_opt ∅ ip = ∅.
Proof. destruct ip as [ip|]; [|done]. unfold ip_release_opt, ip_release. by rewrite lookup_empty. Qed.

(** A task takes or gives back its address slot. *)
Lemma adm_inv_ip a t p q m :
  adm_inv c a → pcs a !! t = p → (∀ x, p = Some x → holds_slot x = false) →
  holds_slot q = false → (∀ ip n, q ≠ Releasing ip n) →
  (max_connections_per_ip c = 0 → m = ∅) →
  (max_connections_per_ip c ≠ 0 → ∀ addr,
     let n := pcount (holds_ip addr) (<[t := q]> (pcs a)) in
     m !! addr = slots n ∧ n <= max_connections_per_ip c) →
  adm_inv c (set_pc (set_ips a m) t q).
Proof.
  intros [I1 I2 I3 I4 I5] Ht Hp Hq Hr Hm0 Hm. split; cbn [connections ips pcs set_pc set_ips]; try done.
  - destruct p as [p|].
    + rewrite (pcount_replace _ _ _ p), Hq, (Hp p) by done. lia.
    + rewrite pcount_fresh, Hq by done. simpl. lia.
  - intros t' ip m' [[_ ?]|[_ ?]]%lookup_insert_Some; [|eauto]. by destruct (Hr ip m').
Qed.

Lemma adm_inv_leave a t p m :
  adm_inv c a → pcs a !! t = Some p → holds_slot p = false →
  (max_connections_per_ip c = 0 → m = ∅) →
  (max_connections_per_ip c ≠ 0 → ∀ addr,
     m !! addr = slots (pcount (holds_ip addr) (pcs a) - Z.b2z (holds_ip addr p))) →
  adm_inv c (leave (set_ips a m) t).
Proof.
  intros [I1 I2 I3 I4 I5] Ht Hp Hm0 Hm. split; cbn [connections ips pcs leave set_ips]; try done.
  - rewrite (pcount_delete _ _ _ p), Hp by done. simpl. lia.
  - intros t' ip n Hl. rewrite lookup_delete_Some in Hl. destruct Hl as [_ Hl]. eauto.
  - intros Hc addr. rewrite (pcount_delete _ _ _ p) by done. split; [by apply Hm|].
    destruct (I5 Hc addr). destruct (holds_ip addr p); simpl; lia.
Qed.

Lemma adm_inv_drop a : adm_inv c a → adm_inv c (record_shed_drop a).
Proof. by intros [I1 I2 I3 I4 I5]; split. Qed.

Lemma leave_arrived a t ip :
  adm_inv c a → pcs a !! t = Some (Arrived ip) → adm_inv c (leave a t).
Proof.
  intros I Ht. assert (a = set_ips a (ips a)) as -> by by destruct a.
  eapply adm_inv_leave; [exact I|exact Ht|done|apply I|].
  intros Hc addr. destruct (inv_ips _ _ I Hc addr) as [-> _]. f_equal. unfold holds_ip. simpl. lia.
Qed.

Lemma adm_inv_guard_ip a t ip :
  adm_inv c a → pcs a !! t = Some (Arrived ip) → adm_inv c (guard_ip c a t ip).
Proof.
  intros I Ht. unfold guard_ip. destruct ip as [addr|]; [|by eapply adm_inv_move].
  destruct (ip_acquire c (ips a) addr) as [b m] eqn:Ea.
  pose proof (ip_acquire_spec a addr m b I Ea) as S. destruct b.
  - destruct S as [S0 S]. eapply adm_inv_ip; [exact I|exact Ht| | | |exact S0|]; try done.
    + by intros x [= <-].
    + intros Hc addr'. cbv zeta. rewrite (pcount_replace _ _ _ (Arrived (Some addr))) by done.
      destruct (S Hc addr') as [Sm Sn].
      replace (Z.b2z (holds_ip addr' (IpHeld (Some addr)))) with (Z.b2z (bool_decide (addr' = addr)))
        by (unfold holds_ip; cbn [pc_ip]; do 2 f_equal; apply bool_decide_ext; naive_solver).
      unfold holds_ip at 2 4; cbn [pc_ip Z.b2z bool_decide].
      rewrite (bool_decide_false (None = Some addr')) by done. cbn [Z.b2z]. rewrite Z.sub_0_r. done.
  - subst m. eapply (leave_arrived (record_shed_drop a)); [by apply adm_inv_drop|exact Ht].
Qed.

Lemma adm_inv_step a a' : adm_inv c a → adm_step c a a' → adm_inv c a'.
Proof.
  intros I S. revert I. destruct S as [a t ip Ht|a a' t sp Hs]; intros I.
  - unfold arrive. case_match; [by apply adm_inv_drop|].
    assert (a = set_ips a (ips a)) as -> by by destruct a.
    eapply adm_inv_ip; [exact I|exact Ht| | | |apply I|]; try done.
    intros Hc addr. cbv zeta. rewrite pcount_fresh by done. unfold holds_ip at 2 4. cbn [pc_ip].
    rewrite bool_decide_false, Z.add_0_r by done. exact (inv_ips _ _ I Hc addr).
  - unfold conn_step in Hs. apply bind_Some in Hs as (p & Ht & [= <-]). destruct p as [ip|ip|ip n|ip|ip|ip n|ip].
    + by apply adm_inv_guard_ip.
    + by eapply adm_inv_move.
    + unfold acquire_turn. destruct (_ <=? n) eqn:El; [by eapply adm_inv_move|apply Z.leb_gt in El].
      unfold cas. destruct (connections a =? n) eqn:En; destruct sp; cbn [andb negb];
        try (by eapply adm_inv_move). apply Z.eqb_eq in En.
      eapply adm_inv_slot; [exact I|exact Ht|lia|simpl; lia|done|done].
    + eapply adm_inv_leave; [exact I|exact Ht|done| |].
      * intros Hc. rewrite (inv_free _ _ I Hc). apply ip_release_empty.
      * intros Hc addr. by apply (ip_release_spec a t (Refused ip)).
    + eapply adm_inv_move; [exact I|exact Ht|done|done|]. intros ? ? [= _ <-].
      rewrite (inv_conns _ _ I). by eapply pcount_pos.
    + unfold release_turn. pose proof (inv_read _ _ I t ip n Ht).
      rewrite (proj2 (Z.eqb_neq n 0)) by lia. unfold cas.
      destruct (connections a =? n) eqn:En; destruct sp; cbn [andb negb];
        try (eapply adm_inv_move; [exact I|exact Ht|done|done|]; intros ? ? [= _ <-];
             rewrite (inv_conns _ _ I); by eapply pcount_pos).
      apply Z.eqb_eq in En. pose proof (inv_max _ _ I).
      eapply adm_inv_slot; [exact I|exact Ht|lia|simpl; lia|done|done].
    + eapply adm_inv_leave; [exact I|exact Ht|done| |].
      * intros Hc. rewrite (inv_free _ _ I Hc). apply ip_release_empty.
      * intros Hc addr. by apply (ip_release_spec a t (IpLeft ip)).
Qed.

Lemma reachable_inv a : reachable c a → adm_inv c a.
Proof.
  intros R. assert (∀ b, adm_inv c b → rtc (adm_step c) b a → adm_inv c a) as G.
  { intros b Ib Rb. induction Rb; eauto using adm_inv_step. }
  eapply G; [apply adm_inv_new|exact R].
Qed.
End invariant.

(** C14: however connection tasks interleave, and whichever compare-and-swaps fail,
    the connection counter is exactly the number of live guards and never exceeds the
    configured maximum, every address holds exactly as many slots as its tasks and
    never more than its cap, a release never meets the saturation branch, and once
    all tasks are gone every counter is back to zero. *)
Theorem admission_bounded c a :
  0 <= max_connections c → 0 <= max_connections_per_ip c → reachable c a →
  connections a = pcount holds_slot (pcs a) ∧ 0 <= connections a <= max_connections c ∧
  (max_connections_per_ip c ≠ 0 → ∀ addr,
     default 0 (ips a !! addr) = pcount (holds_ip addr) (pcs a) ∧
     pcount (holds_ip addr) (pcs a) <= max_connections_per_ip c) ∧
  (∀ t ip n, pcs a !! t = Some (Releasing ip n) → n ≠ 0) ∧
  (pcs a = ∅ → connections a = 0 ∧ ips a = ∅).
Proof.
  intros Hm Hc R. pose proof (reachable_inv c Hm Hc a R) as [I1 I2 I3 I4 I5].
  pose proof (pcount_nonneg holds_slot (pcs a)). split_and!; [done|lia..| | |].
  - intros Hne addr. destruct (I5 Hne addr) as [-> ?]. split; [|done].
    apply slots_lookup, pcount_nonneg.
  - intros t ip n Ht. specialize (I3 _ _ _ Ht). lia.
  - intros E. rewrite E in *. split; [done|].
    destruct (decide (max_connections_per_ip c = 0)) as [Hz|Hne]; [auto|].
    apply map_eq. intros addr. destruct (I5 Hne addr) as [-> _]. by rewrite lookup_empty.
Qed.

(** ** Schedules, executed *)

Inductive adm_event : Type :=
| EvArrive (t : nat) (ip : option ip_addr)
| EvStep (t : nat) (spurious : bool).

Definition adm_next (c : ServerConfig) (a : Admissions) (e : adm_event) : Admissions :=
  match e with
  | EvArrive t ip => if pcs a !! t is None then arrive c a t ip else a
  | EvStep t spurious => default a (conn_step c a t spurious)
  end.
Definition adm_run (c : ServerConfig) : list adm_event → Admissions → Admissions :=
  fold_left (adm_next c).

Lemma adm_run_reachable c es a : reachable c a → reachable c (adm_run c es a).
Proof.
  revert a. induction es as [|e es IH]; intros a R; [done|]. apply IH.
  assert (adm_next c a e = a ∨ adm_step c a (adm_next c a e)) as [->|S]; [|done|by eapply rtc_r].
  destruct e as [t ip|t sp]; cbn [adm_next].
  - destruct (pcs a !! t) eqn:E; [by left|right; by apply step_arrive].
  - destruct (conn_step c a t sp) eqn:E; [right; by eapply step_conn|by left].
Qed.

Definition demo_adm_cfg : ServerConfig :=
  MkServerConfig "127.0.0.1" 7420 None 2 true 1048576 (Some 2) 50 false ModeNone 0 300 1 false ∅ ∅ ∅ [].
Definition demo_ip (n : Z) : option ip_addr := Some (le_bytes 4 n).

(** Two peers race for the counter, a third is refused by its address cap. *)
Definition demo_adm_events : list adm_event :=
  [EvArrive 0 (demo_ip 1); EvArrive 1 (demo_ip 2); EvArrive 2 (demo_ip 1);
   EvStep 0 false; EvStep 1 false; EvStep 2 false; EvStep 0 false; EvStep 1 false;
   EvStep 0 true; EvStep 0 false; EvStep 1 false; EvStep 1 false; EvStep 0 false].

Lemma admission_bounded_witness :
  let a := adm_run demo_adm_cfg demo_adm_events Admissions_new in
  shed_drops a = 1 ∧ connections a = 2 ∧
  pcs a = {[0%nat := Releasing (demo_ip 1) 2; 1%nat := Holding (demo_ip 2)]} ∧
  0 <= connections a <= max_connections demo_adm_cfg.
Proof.
  split; [reflexivity|]. split; [reflexivity|]. split; [vm_compute; reflexivity|].
  apply (admission_bounded demo_adm_cfg); [vm_compute; discriminate..|].
  apply adm_run_reachable, rtc_refl.
Defined.

(** Acquiring is lock-free: a task that runs alone decides within two turns,
    admitted exactly when the counter was below the maximum, and a compare-and-swap
    that fails without being spurious means another task moved the counter, hence made
    progress, since the value was read. *)
Theorem acquire_lock_free c a a1 a2 t ip spurious :
  pcs a !! t = Some (IpHeld ip) → conn_step c a t spurious = Some a1 →
  (conn_step c a1 t false = Some a2 →
   pcs a2 !! t = Some (if connections a <? max_connections c then Holding ip else Refused ip) ∧
   connections a2 = connections a + Z.b2z (connections a <? max_connections c)) ∧
  (∀ b n b', pcs b !! t = Some (Acquiring ip n) → conn_step c b t false = Some b' →
   (∃ n', pcs b' !! t = Some (Acquiring ip n')) → connections b ≠ n ∧ connections b' = connections b).
Proof.
  intros Ht S1. unfold conn_step in S1. rewrite Ht in S1. injection S1 as <-. split.
  - unfold conn_step. cbn [pcs set_pc]. rewrite lookup_insert_eq. intros [= <-].
    unfold acquire_turn. cbn [connections set_pc]. rewrite Z.ltb_antisym.
    destruct (_ <=? connections a); cbn [negb Z.b2z pcs set_pc connections].
    + rewrite lookup_insert_eq. split; [done|lia].
    + unfold cas. cbn [connections set_pc]. rewrite Z.eqb_refl. cbn [negb andb pcs set_pc connections set_connections].
      by rewrite lookup_insert_eq.
  - intros b n b' Hb S (n' & Hn'). unfold conn_step in S. rewrite Hb in S. injection S as <-.
    unfold acquire_turn, cas in *. destruct (_ <=? n).
    { cbn [pcs set_pc] in Hn'. by rewrite lookup_insert_eq in Hn'. }
    destruct (connections b =? n) eqn:En; cbn [andb negb] in *.
    + cbn [pcs set_pc] in Hn'. by rewrite lookup_insert_eq in Hn'.
    + apply Z.eqb_neq in En. done.
Qed.

Lemma acquire_lock_free_witness :
  let a := adm_run demo_adm_cfg [EvArrive 0 (demo_ip 1); EvStep 0 false] Admissions_new in
  let a1 := adm_next demo_adm_cfg a (EvStep 0 false) in
  let a2 := adm_next demo_adm_cfg a1 (EvStep 0 false) in
  pcs a2 !! 0%nat = Some (Holding (demo_ip 1)) ∧ connections a2 = 1.
Proof.
  intros a a1 a2. destruct (acquire_lock_free demo_adm_cfg a a1 a2 0 (demo_ip 1) false) as [T _];
    [vm_compute; reflexivity..|]. apply T. vm_compute. reflexivity.
Defined.
