(* ===== verification/Window.v ===== *)
(** [blitz-server/src/transport.rs]: the window of a [Scan]: [scan_pagination], which
    parses it from the request, and [apply_window], which finds it by binary search. *)
From S2P Require Import Prelude Float Value Schema.

Local Open Scope Z_scope.

Definition DEFAULT_SCAN_LIMIT : Z := 1000.
Definition MAX_SCAN_LIMIT : Z := 10000.
Definition MAX_SUBSCRIBE_LIMIT : Z := 1000.

Record ScanWindow : Type := MkScanWindow {
  w_limit : Z;
  w_offset : Z;
  w_desc : bool;
  w_cursor : option Z
}.

(** ** Parsing *)

Definition eq_ignore_ascii_case (a b : string) : bool :=
  bool_decide (ascii_lower <$> str_bytes a = ascii_lower <$> str_bytes b).

(** [int_val] *)
Definition int_val (v : value) : option Z :=
  match v with
  | VInt64 n | VInt32 n => Some (Z.max n 0)
  | VUInt64 n | VUInt32 n => Some n
  | _ => None
  end.

Definition scan_pagination (vs : option values) : ScanWindow :=
  match vs with
  | None => MkScanWindow DEFAULT_SCAN_LIMIT 0 false None
  | Some map =>
      MkScanWindow
        (match map !! "_limit"%string ≫= int_val with
         | Some v => if 0 <? v then Z.min v MAX_SCAN_LIMIT else DEFAULT_SCAN_LIMIT
         | None => DEFAULT_SCAN_LIMIT
         end)
        (default 0 (map !! "_offset"%string ≫= int_val))
        (match map !! "_order"%string with
         | Some (VString s) => eq_ignore_ascii_case s "desc"
         | _ => false
         end)
        (map !! "_cursor"%string ≫= int_val)
  end.

(** ** The window of a sorted array *)

(** [while lo < hi { mid = (lo + hi) / 2; if left(mid) { lo = mid + 1 } else { hi = mid } }] *)
Fixpoint bisect (fuel : nat) (left : Z → bool) (lo hi : Z) : option Z :=
  match fuel with
  | O => None
  | S fuel =>
      if lo <? hi then
        let mid := (lo + hi) / 2 in
        if left mid then bisect fuel left (mid + 1) hi else bisect fuel left lo mid
      else Some lo
  end.

(** [usize] additions wrap in a release build. *)
Definition apply_window (len : Z) (ids_asc : bool) (w : ScanWindow) (id_at : Z → Z) : Z * Z :=
  let start :=
    match w_cursor w with
    | None => 0
    | Some c =>
        let left := if ids_asc && negb (w_desc w) then λ mid, id_at mid <=? c else λ mid, c <=? id_at mid in
        default 0 (bisect (S (Z.to_nat len)) left 0 len)
    end in
  let start := Z.min (wrap 64 (start + w_offset w)) len in
  let stop := Z.max (Z.min (wrap 64 (start + w_limit w)) len) start in
  (start, stop).

(** [l[start..end]] *)
Definition slice {A} (l : list A) (start stop : Z) : list A :=
  firstn (Z.to_nat (stop - start)) (skipn (Z.to_nat start) l).

(** [apply_window(merged.len(), !w.desc, &w, ...)] and the slice it selects. *)
Definition page {A} (id_of : A → Z) (l : list A) (w : ScanWindow) : list A :=
  let '(start, stop) := apply_window (Z.of_nat (length l)) (negb (w_desc w)) w
    (λ i, from_option id_of 0 (l !! Z.to_nat i)) in
  slice l start stop.

(** ** The binary search always ends, at the partition point *)

Lemma bisect_spec left n :
  (∀ i j, 0 <= i <= j → j < n → left j = true → left i = true) →
  ∀ fuel lo hi, hi - lo < Z.of_nat fuel → 0 <= lo <= hi → hi <= n →
    (∀ i, 0 <= i < lo → left i = true) → (∀ i, hi <= i < n → left i = false) →
    ∃ k, bisect fuel left lo hi = Some k ∧ lo <= k <= hi ∧
      (∀ i, 0 <= i < k → left i = true) ∧ (∀ i, k <= i < n → left i = false).
Proof.
  intros Mono. induction fuel as [|fuel IH]; intros lo hi Hf Hl Hn HL HR; [lia|].
  cbn [bisect]. destruct (lo <? hi) eqn:E; [apply Z.ltb_lt in E|apply Z.ltb_ge in E].
  - assert (lo <= (lo + hi) / 2 < hi) as Hm
      by (split; [apply Z.div_le_lower_bound; lia|apply Z.div_lt_upper_bound; lia]).
    cbv zeta. destruct (left ((lo + hi) / 2)) eqn:El.
    + destruct (IH ((lo + hi) / 2 + 1) hi) as (k & -> & ? & ? & ?); try done; try lia.
      * intros i Hi. destruct (decide (i < lo)); [by apply HL; lia|].
        apply (Mono i ((lo + hi) / 2)); [lia|lia|done].
      * exists k. split_and!; try done; lia.
    + destruct (IH lo ((lo + hi) / 2)) as (k & -> & ? & ? & ?); try done; try lia.
      * intros i Hi. destruct (decide (hi <= i)); [by apply HR; lia|].
        destruct (left i) eqn:Ei; [|done].
        rewrite (Mono ((lo + hi) / 2) i) in El; [done|lia|lia|done].
      * exists k. split_and!; try done; lia.
  - exists lo. split_and!; try done; try lia. intros i Hi. apply HR. lia.
Qed.

Definition past (w : ScanWindow) (id : Z) : bool :=
  match w_cursor w with
  | None => true
  | Some c => if w_desc w then id <? c else c <? id
  end.

(** Sorted the way the scan sorts: ascending, or descending. *)
Definition id_le (desc : bool) (a b : Z) : Prop := if desc then b <= a else a <= b.

Lemma id_le_refl d a : id_le d a a.
Proof. destruct d; simpl; lia. Qed.

Lemma sorted_lookup {A} (R : relation A) l i j x y :
  StronglySorted R l → (∀ x, R x x) → (i <= j)%nat → l !! i = Some x → l !! j = Some y → R x y.
Proof.
  intros S Rr. revert i j. induction S as [|z l S IH F]; intros i j Hij Hi Hj; [done|].
  destruct i as [|i], j as [|j]; simplify_eq/=; [done| |lia|].
  - rewrite Forall_forall in F. apply F. by eapply list_elem_of_lookup_2.
  - eapply IH; [|done..]. lia.
Qed.

Lemma sorted_mono {A} (R R' : relation A) l :
  (∀ a b, R a b → R' a b) → StronglySorted R l → StronglySorted R' l.
Proof. intros HR. induction 1; constructor; eauto using Forall_impl. Qed.

Lemma filter_skipn {A} (f : A → bool) (l : list A) k :
  (∀ i x, l !! i = Some x → f x = negb (i <? k)%nat) → filter (λ x, f x = true) l = skipn k l.
Proof.
  revert k. induction l as [|a l IH]; intros k Hf; [by destruct k|].
  pose proof (Hf O a eq_refl) as H0. destruct k as [|k]; cbn [skipn].
  - rewrite filter_cons_True by done. f_equal.
    rewrite <- (skipn_O l) at 2. apply IH. intros i x Hi. exact (Hf (S i) x Hi).
  - rewrite filter_cons_False by (rewrite H0; done). apply IH. intros i x Hi. rewrite (Hf (S i) x Hi). done.
Qed.

Section pages.
Context {A : Type} (id_of : A → Z).
Implicit Types (l : list A) (w : ScanWindow).

(** The start the code computes is where the visible rows begin. *)
Lemma cursor_start w l c :
  w_cursor w = Some c → StronglySorted (id_le (w_desc w)) (id_of <$> l) →
  let id_at i := from_option id_of 0 (l !! Z.to_nat i) in
  let left := if negb (w_desc w) && negb (w_desc w) then λ mid, id_at mid <=? c else λ mid, c <=? id_at mid in
  ∃ k, bisect (S (Z.to_nat (Z.of_nat (length l)))) left 0 (Z.of_nat (length l)) = Some k ∧
    0 <= k <= Z.of_nat (length l) ∧ filter (λ x, past w (id_of x) = true) l = skipn (Z.to_nat k) l.
Proof.
  intros Hc So id_at left.
  assert (At : ∀ i, 0 <= i < Z.of_nat (length l) →
    ∃ x, l !! Z.to_nat i = Some x ∧ id_at i = id_of x).
  { intros i Hi. destruct (lookup_lt_is_Some_2 l (Z.to_nat i)) as [x Hx]; [lia|].
    exists x. split; [done|]. unfold id_at. by rewrite Hx. }
  assert (Lt : ∀ x, past w (id_of x) = negb (if w_desc w then c <=? id_of x else id_of x <=? c)).
  { intros x. unfold past. rewrite Hc. destruct (w_desc w); by rewrite Z.ltb_antisym. }
  assert (Le : ∀ i x, l !! Z.to_nat i = Some x → left i = negb (past w (id_of x))).
  { intros i x Hx. rewrite Lt, negb_involutive. unfold left, id_at.
    destruct (w_desc w); cbn [negb andb]; by rewrite Hx. }
  destruct (bisect_spec left (Z.of_nat (length l))) with (fuel := S (length l)) (lo := 0)
    (hi := Z.of_nat (length l)) as (k & Ek & Hk & HL & HR); try lia.
  { intros i j Hij Hj. destruct (At i ltac:(lia)) as (x & Hx & _), (At j ltac:(lia)) as (y & Hy & _).
    rewrite (Le i x Hx), (Le j y Hy), !Lt, !negb_involutive.
    assert (id_le (w_desc w) (id_of x) (id_of y)) as R.
    { eapply (sorted_lookup _ _ (Z.to_nat i) (Z.to_nat j)); [exact So|apply id_le_refl|lia|..];
        by rewrite list_lookup_fmap, ?Hx, ?Hy. }
    unfold id_le in R. destruct (w_desc w); rewrite !Z.leb_le; lia. }
  exists k. rewrite Nat2Z.id. split_and!; [done|lia..|].
  apply filter_skipn. intros i x Hx. pose proof (lookup_lt_Some _ _ _ Hx) as Hlt.
  specialize (Le (Z.of_nat i) x). rewrite Nat2Z.id in Le. specialize (Le Hx).
  destruct (i <? Z.to_nat k)%nat eqn:E; [apply Nat.ltb_lt in E|apply Nat.ltb_ge in E].
  - rewrite HL in Le by lia. by destruct (past w (id_of x)).
  - rewrite HR in Le by lia. by destruct (past w (id_of x)).
Qed.

(** The window is what it should be: on rows sorted by id in the scan's direction
    the binary search selects exactly the rows strictly past the cursor, without the
    first [offset] of them, cut at [limit] (offsets that do not overflow [usize]). *)
Lemma page_spec w l :
  StronglySorted (id_le (w_desc w)) (id_of <$> l) →
  0 <= w_offset w → 0 <= w_limit w → 2 * Z.of_nat (length l) + w_offset w + w_limit w < 2 ^ 64 →
  page id_of l w =
    firstn (Z.to_nat (w_limit w)) (skipn (Z.to_nat (w_offset w))
      (filter (λ x, past w (id_of x) = true) l)).
Proof.
  intros So Ho Hl Hov. unfold page, apply_window.
  assert (G : ∀ k, 0 <= k <= Z.of_nat (length l) →
    filter (λ x, past w (id_of x) = true) l = skipn (Z.to_nat k) l →
    slice l (Z.min (wrap 64 (k + w_offset w)) (Z.of_nat (length l)))
      (Z.max (Z.min (wrap 64 (Z.min (wrap 64 (k + w_offset w)) (Z.of_nat (length l)) + w_limit w))
        (Z.of_nat (length l))) (Z.min (wrap 64 (k + w_offset w)) (Z.of_nat (length l)))) =
    firstn (Z.to_nat (w_limit w)) (skipn (Z.to_nat (w_offset w))
      (filter (λ x, past w (id_of x) = true) l))).
  { intros k Hk ->. rewrite !wrap_small by (try rewrite wrap_small by lia; lia).
    unfold slice. rewrite skipn_skipn.
    destruct (decide (k + w_offset w <= Z.of_nat (length l))).
    - rewrite (Z.min_l (k + w_offset w)) by lia.
      replace (Z.to_nat (k + w_offset w)) with (Z.to_nat (w_offset w) + Z.to_nat k)%nat by lia.
      set (r := skipn _ l). assert (length r = length l - (Z.to_nat (w_offset w) + Z.to_nat k))%nat as Lr
        by apply length_skipn.
      destruct (decide (w_limit w <= Z.of_nat (length r))).
      + f_equal. lia.
      + rewrite !firstn_all2; [done|lia|lia].
    - rewrite Z.min_r by lia. rewrite !skipn_all2 by lia. by rewrite !firstn_nil. }
  destruct (w_cursor w) as [c|] eqn:Ec.
  - destruct (cursor_start w l c Ec So) as (k & Ek & Hk & Ef). cbv zeta in Ek.
    rewrite Ek. cbn [default id]. by apply G.
  - apply G; [lia|]. apply filter_skipn. intros i x _. unfold past. by rewrite Ec.
Qed.
End pages.

(** ** The window never leaves the array, whatever the ids are *)

Lemma bisect_ends left : ∀ fuel lo hi,
  hi - lo < Z.of_nat fuel → lo <= hi → ∃ k, bisect fuel left lo hi = Some k ∧ lo <= k <= hi.
Proof.
  induction fuel as [|fuel IH]; intros lo hi Hf Hl; [lia|]. cbn [bisect].
  destruct (lo <? hi) eqn:E; [apply Z.ltb_lt in E|eauto with lia].
  assert (lo <= (lo + hi) / 2 < hi) as Hm
    by (split; [apply Z.div_le_lower_bound; lia|apply Z.div_lt_upper_bound; lia]).
  cbv zeta. case_match.
  - destruct (IH ((lo + hi) / 2 + 1) hi) as (k & -> & ?); [lia..|]. exists k. split; [done|lia].
  - destruct (IH lo ((lo + hi) / 2)) as (k & -> & ?); [lia..|]. exists k. split; [done|lia].
Qed.

Lemma scan_pagination_limit vs : 1 <= w_limit (scan_pagination vs) <= MAX_SCAN_LIMIT.
Proof.
  unfold scan_pagination, MAX_SCAN_LIMIT, DEFAULT_SCAN_LIMIT.
  destruct vs as [m|]; cbn [w_limit]; [|lia]. destruct (m !! _ ≫= _) as [v|]; [|lia].
  destruct (0 <? v) eqn:E; [apply Z.ltb_lt in E|]; lia.
Qed.

(** For every request and every array, sorted or not, the binary search ends, the
    window lies inside the array, so slicing it cannot panic, and it holds at most
    the parsed limit, hence at most 10,000 rows. *)
Lemma scan_page_bounded {A} (id_of : A → Z) (l : list A) (vs : option values) (id_at : Z → Z) :
  Z.of_nat (length l) < 2 ^ 63 →
  let w := scan_pagination vs in
  let '(start, stop) := apply_window (Z.of_nat (length l)) (negb (w_desc w)) w id_at in
  0 <= start <= stop ∧ stop <= Z.of_nat (length l) ∧ stop - start <= w_limit w <= 10000 ∧
  length (slice l start stop) = Z.to_nat (stop - start) ∧
  (∀ left, bisect (S (length l)) left 0 (Z.of_nat (length l)) ≠ None).
Proof.
  intros Hl w. pose proof (scan_pagination_limit vs) as L. fold w in L.
  destruct (apply_window _ _ w id_at) as [start stop] eqn:E. unfold apply_window in E.
  set (s0 := match w_cursor w with None => _ | Some _ => _ end) in E. injection E as <- <-.
  set (s := Z.min _ _). assert (0 <= s <= Z.of_nat (length l)) as Hs.
  { unfold s. pose proof (wrap_range 64 (s0 + w_offset w) ltac:(lia)). lia. }
  unfold MAX_SCAN_LIMIT in L. rewrite wrap_small by lia.
  assert (∀ t, s <= t <= Z.of_nat (length l) → length (slice l s t) = Z.to_nat (t - s)) as Hlen.
  { intros t Ht. unfold slice. rewrite length_firstn, length_skipn. lia. }
  split_and!; try lia; [apply Hlen; lia|]. intros left.
  destruct (bisect_ends left (S (length l)) 0 (Z.of_nat (length l))) as (k & -> & _); [lia..|done].
Qed.

(** ** Paging by cursor *)

Definition id_lt (desc : bool) (a b : Z) : Prop := if desc then b < a else a < b.

Section paging.
Context {A : Type} (id_of : A → Z) (limit : Z) (desc : bool).
Implicit Types (snaps : list (list A)).

(** A client that asks page after page, each time from the last row it saw; the table
    may be a different one at every request. *)
Fixpoint follow (cursor : option Z) (snaps : list (list A)) : list (list A) :=
  match snaps with
  | [] => []
  | s :: snaps =>
      let p := page id_of s (MkScanWindow limit 0 desc cursor) in
      p :: follow (match last p with Some x => Some (id_of x) | None => cursor end) snaps
  end.

Definition snap_ok (s : list A) : Prop :=
  StronglySorted (id_lt desc) (id_of <$> s) ∧ 2 * Z.of_nat (length s) + limit < 2 ^ 64.

Definition after (cursor : option Z) (x : A) : Prop := past (MkScanWindow limit 0 desc cursor) (id_of x) = true.

#[local] Instance after_dec cursor x : Decision (after cursor x).
Proof. unfold after. apply _. Defined.

Lemma after_some c x : after (Some c) x ↔ id_lt desc c (id_of x).
Proof. unfold after, past, id_lt. simpl. destruct desc; apply Z.ltb_lt. Qed.

Lemma follow_page cursor s :
  0 <= limit → snap_ok s →
  page id_of s (MkScanWindow limit 0 desc cursor) =
    firstn (Z.to_nat limit) (filter (after cursor) s).
Proof.
  intros Hl [So Hs]. rewrite page_spec; cbn [w_offset w_limit w_desc]; try lia; [done|].
  eapply sorted_mono; [|exact So]. unfold id_lt, id_le. intros ? ?. destruct desc; lia.
Qed.

Lemma id_lt_trans a b c : id_lt desc a b → id_lt desc b c → id_lt desc a c.
Proof. unfold id_lt. destruct desc; lia. Qed.

Lemma sorted_filter (P : A → Prop) `{!∀ x, Decision (P x)} s :
  StronglySorted (id_lt desc) (id_of <$> s) → StronglySorted (id_lt desc) (id_of <$> filter P s).
Proof.
  induction s as [|a s IH]; intros So; [done|]. rewrite fmap_cons in So.
  apply StronglySorted_cons in So as [F So].
  rewrite filter_cons. case_decide; [|by apply IH]. rewrite fmap_cons. constructor; [by apply IH|].
  rewrite Forall_fmap in F |- *. rewrite Forall_forall in F |- *.
  intros x [_ Hx]%list_elem_of_filter. by apply F.
Qed.

(** One page: what it holds, what it leaves for later. *)
Lemma firstn_sorted n s :
  StronglySorted (id_lt desc) (id_of <$> s) →
  StronglySorted (id_lt desc) (id_of <$> firstn n s) ∧
  (∀ x, x ∈ s → x ∈ firstn n s ∨
     n = length (firstn n s) ∧ ∀ y, y ∈ firstn n s → id_lt desc (id_of y) (id_of x)).
Proof.
  intros So. rewrite <- (firstn_skipn n s) in So at 1. rewrite fmap_app in So.
  apply StronglySorted_app in So as (S12 & S1 & S2). split; [done|].
  intros x Hx. rewrite <- (firstn_skipn n s) in Hx. apply elem_of_app in Hx as [|Hx]; [by left|right].
  split.
  - rewrite length_firstn. apply list_elem_of_lookup_1 in Hx as [i Hi]. apply lookup_lt_Some in Hi.
    rewrite length_skipn in Hi. lia.
  - intros y Hy. apply S12; apply list_elem_of_fmap; eauto.
Qed.

Lemma last_elem (l : list A) x : last l = Some x → x ∈ l.
Proof. intros E. apply last_Some in E as [l' ->]. apply elem_of_app. right. by left. Qed.

Lemma sorted_last l x y :
  StronglySorted (id_lt desc) (id_of <$> l) → last l = Some x → y ∈ l →
  id_of y = id_of x ∨ id_lt desc (id_of y) (id_of x).
Proof.
  intros So E Hy. apply last_Some in E as [l' ->]. rewrite fmap_app in So.
  apply StronglySorted_app in So as (S12 & _ & _).
  apply elem_of_app in Hy as [Hy|Hy%list_elem_of_singleton]; [right|left; by subst].
  apply S12; [by apply list_elem_of_fmap; eauto|by apply list_elem_of_fmap; exists x; split; [|left]].
Qed.

(** The cursor after a page: everything past it was past the old one, and past the page. *)
Lemma next_cursor cursor p x :
  StronglySorted (id_lt desc) (id_of <$> p) → (∀ y, y ∈ p → after cursor y) →
  after (match last p with Some z => Some (id_of z) | None => cursor end) x ↔
  after cursor x ∧ ∀ y, y ∈ p → id_lt desc (id_of y) (id_of x).
Proof.
  intros So Hp. destruct (last p) as [z|] eqn:E.
  - rewrite after_some. pose proof (last_elem p z E) as Hz. split; [|naive_solver].
    intros Hx. split.
    + specialize (Hp z Hz). destruct cursor as [c|]; [|done]. rewrite after_some in *. by eapply id_lt_trans.
    + intros y Hy. destruct (sorted_last p z y So E Hy) as [->|]; [done|by eapply id_lt_trans].
  - apply last_None in E as ->. split; [|tauto]. intros. split; [done|]. intros y Hy. by apply not_elem_of_nil in Hy.
Qed.

Lemma follow_spec snaps : ∀ cursor,
  0 < limit → Forall snap_ok snaps →
  let pages := follow cursor snaps in
  StronglySorted (id_lt desc) (id_of <$> mjoin pages) ∧ (∀ x, x ∈ mjoin pages → after cursor x) ∧
  ((∃ p, last pages = Some p ∧ Z.of_nat (length p) < limit) →
   ∀ x, (∀ s, s ∈ snaps → x ∈ s) → after cursor x → x ∈ mjoin pages).
Proof.
  induction snaps as [|s snaps IH]; intros cursor Hl Ok; cbv zeta.
  { cbn [follow]. split; [constructor|]. split; [intros x Hx; by apply not_elem_of_nil in Hx|]. intros (? & ? & _). done. }
  apply Forall_cons in Ok as [Hs Ok]. cbn [follow]. cbv zeta.
  rewrite follow_page by (try done; lia). set (V := filter (after cursor) s).
  set (p := firstn (Z.to_nat limit) V).
  assert (StronglySorted (id_lt desc) (id_of <$> V)) as SV by (apply sorted_filter, Hs).
  destruct (firstn_sorted (Z.to_nat limit) V SV) as [Sp Split]. fold p in Sp, Split.
  assert (∀ y, y ∈ p → after cursor y) as Hp.
  { intros y Hy. assert (y ∈ V) as HV by (rewrite <- (firstn_skipn (Z.to_nat limit) V); apply elem_of_app; by left).
    by apply list_elem_of_filter in HV as [? _]. }
  destruct (IH (match last p with Some z => Some (id_of z) | None => cursor end) Hl Ok) as (IS & IA & IC).
  pose proof (next_cursor cursor p) as Nx. set (rest := follow _ snaps) in *.
  change (mjoin (p :: rest)) with (p ++ mjoin rest). split_and!.
  - rewrite fmap_app. apply StronglySorted_app. split_and!; [|done|done].
    intros a b (y & -> & Hy)%list_elem_of_fmap (x & -> & Hx)%list_elem_of_fmap.
    apply IA, Nx in Hx as [_ Hx]; [by apply Hx|done|done].
  - intros x [Hx|Hx]%elem_of_app; [by apply Hp|]. by apply IA, Nx in Hx as [? _].
  - intros (q & Hq & Lq) x Hx Hc. apply elem_of_app.
    assert (x ∈ V) as HV by (apply list_elem_of_filter; split; [done|apply Hx; by left]).
    destruct (Split x HV) as [|[Full Hpx]]; [by left|right].
    apply IC; [|intros s' ?; apply Hx; by right|by apply Nx].
    destruct rest as [|r rest'] eqn:Er.
    + cbn in Hq. injection Hq as <-. lia.
    + exists q. by rewrite last_cons_cons in Hq.
Qed.

(** C19: paging by cursor is stable while the table changes: a client that follows
    cursors through successive versions of a table gets its rows in order and never the
    same id twice, and when the last page comes back short it has seen every row that
    was there all along. *)
Theorem cursor_paging_stable snaps :
  0 < limit → Forall snap_ok snaps →
  let pages := follow None snaps in
  StronglySorted (id_lt desc) (id_of <$> mjoin pages) ∧ NoDup (id_of <$> mjoin pages) ∧
  ((∃ p, last pages = Some p ∧ Z.of_nat (length p) < limit) →
   ∀ x, (∀ s, s ∈ snaps → x ∈ s) → x ∈ mjoin pages).
Proof.
  intros Hl Ok. destruct (follow_spec snaps None Hl Ok) as (So & _ & Co). split_and!; [done| |].
  - induction So as [|a l S IH F]; constructor; [|done]. intros Hin.
    rewrite Forall_forall in F. specialize (F a Hin). unfold id_lt in F. destruct desc; lia.
  - intros Hs x Hx. by apply Co.
Qed.
End paging.

Definition demo_snaps : list (list Z) := [[1; 3; 5; 7]; [1; 2; 5; 7; 9]; [2; 5; 7; 9]; [7; 9]].

Lemma cursor_paging_stable_witness :
  follow (λ x, x) 2 false None demo_snaps = [[1; 3]; [5; 7]; [9]; []] ∧
  7 ∈ mjoin (follow (λ x, x) 2 false None demo_snaps).
Proof.
  split; [vm_compute; reflexivity|].
  assert (Forall (snap_ok (λ x, x) 2 false) demo_snaps) as Ok.
  { repeat constructor; simpl; lia. }
  apply (cursor_paging_stable (λ x, x) 2 false demo_snaps ltac:(lia) Ok).
  - exists []. split; [vm_compute; reflexivity|simpl; lia].
  - intros s Hs. assert (bool_decide (Forall (λ s, 7 ∈ s) demo_snaps) = true) as B by (vm_compute; reflexivity).
    apply bool_decide_eq_true in B. rewrite Forall_forall in B. by apply B.
Defined.

(** An offset near [u64::MAX] together with a cursor wraps around: the page starts
    before the cursor, on rows the client has already seen. *)
Lemma offset_wraps_past_cursor :
  page (λ x, x) [1; 2; 3; 4]
    (scan_pagination (Some {["_cursor"%string := VInt64 2; "_offset"%string := VUInt64 (2 ^ 64 - 1)]}))
  = [2; 3; 4].
Proof. vm_compute. reflexivity. Qed.
