(* ===== verification/Changes.v ===== *)
(** The derived state of [blitz-server/src/server.rs]: the change log that [Subscribe]
    polls, the push hub of stream subscribers, and the exact-term search index; with
    [tokenize] of [blitz-server/src/social.rs]. Each operation is one transition; what
    its separate locks allow in between is in [Races] at the end of the file. *)
From S2P Require Import Prelude Float Value Schema.

Local Open Scope Z_scope.

(** ** The bounded channel of [tokio::sync::mpsc], third-party code *)

Record ChangeRecord : Type := MkChangeRecord {
  seq : Z;
  ch_table : string;
  ch_op : string;
  ch_row_id : Z;
  ts_micros : Z
}.
#[export] Instance ChangeRecord_eq_dec : EqDecision ChangeRecord.
Proof. solve_decision. Defined.

(** [channel(n)]; [try_send] fails on a full or closed channel; [sent] is what the
    channel ever accepted. *)
Class PushChannel : Type := {
  chan : Type;
  channel : Z → chan;
  try_send : chan → ChangeRecord → option chan;
  sent : chan → list ChangeRecord
}.
Class PushChannelLaws `{PushChannel} : Prop := {
  sent_new n : sent (channel n) = [];
  sent_send c r c' : try_send c r = Some c' → sent c' = sent c ++ [r]
}.

Definition MAX_CHANGES_PER_TABLE : nat := 128.

(** [while q.len() > n { q.pop_front() }] *)
Definition last_n {A} (n : nat) (q : list A) : list A := skipn (length q - n) q.

(** ** Change log and push hub *)

Section realtime.
Context `{PushChannel}.

Record Realtime : Type := MkRealtime {
  changes : gmap string (list ChangeRecord);
  change_seq : Z;
  changes_used : bool;
  push_hub : gmap string (list (Z * chan));
  push_used : bool;
  push_dropped : Z;
  push_delivered : Z
}.

Definition Realtime_new : Realtime := MkRealtime ∅ 1 false ∅ false 0 0.

Definition set_changes (rt : Realtime) (m : gmap string (list ChangeRecord)) : Realtime :=
  MkRealtime m (change_seq rt) (changes_used rt) (push_hub rt) (push_used rt) (push_dropped rt)
    (push_delivered rt).
Definition set_change_seq (rt : Realtime) (n : Z) : Realtime :=
  MkRealtime (changes rt) n (changes_used rt) (push_hub rt) (push_used rt) (push_dropped rt)
    (push_delivered rt).
Definition set_used (rt : Realtime) (used pushed : bool) : Realtime :=
  MkRealtime (changes rt) (change_seq rt) used (push_hub rt) pushed (push_dropped rt) (push_delivered rt).
Definition set_hub (rt : Realtime) (h : gmap string (list (Z * chan))) (dropped delivered : Z) : Realtime :=
  MkRealtime (changes rt) (change_seq rt) (changes_used rt) h (push_used rt) dropped delivered.

(** [q.push_back(rec)], then the cap. *)
Definition push_change (q : list ChangeRecord) (rec : ChangeRecord) : list ChangeRecord :=
  last_n MAX_CHANGES_PER_TABLE (q ++ [rec]).

(** The loop over the targets: what each channel has become, who refused, how many took it. *)
Fixpoint deliver (rec : ChangeRecord) (targets : list (Z * chan)) : list (Z * chan) * list Z * Z :=
  match targets with
  | [] => ([], [], 0)
  | (id, tx) :: targets =>
      let '(v, dead, delivered) := deliver rec targets in
      match try_send tx rec with
      | None => ((id, tx) :: v, id :: dead, delivered)
      | Some tx => ((id, tx) :: v, dead, delivered + 1)
      end
  end.

Definition push_fanout (rt : Realtime) (table : string) (rec : ChangeRecord) : Realtime :=
  if push_used rt then
    match push_hub rt !! table with
    | None | Some [] => rt
    | Some targets =>
        let '(v, dead, delivered) := deliver rec targets in
        set_hub rt (<[table := filter (λ s, s.1 ∉ dead) v]> (push_hub rt))
          (wrap 64 (push_dropped rt + Z.of_nat (length dead)))
          (wrap 64 (push_delivered rt + delivered))
    end
  else rt.

(** [now] is the clock, in microseconds. *)
Definition record_change (rt : Realtime) (now : Z) (table op : string) (row_id : Z) : Realtime :=
  if changes_used rt then
    let rec := MkChangeRecord (change_seq rt) table op row_id now in
    let rt := set_change_seq rt (wrap 64 (change_seq rt + 1)) in
    let rt := set_changes rt
      (<[table := push_change (default [] (changes rt !! table)) rec]> (changes rt)) in
    push_fanout rt table rec
  else rt.

Definition clamp (z lo hi : Z) : Z := Z.min (Z.max z lo) hi.

Definition read_changes (rt : Realtime) (table : string) (since limit : Z)
    : list ChangeRecord * Realtime :=
  let rt := set_used rt true (push_used rt) in
  (match changes rt !! table with
   | Some q => firstn (Z.to_nat (clamp limit 1 1000)) (filter (λ r, since < ts_micros r) q)
   | None => []
   end, rt).

Definition push_subscribe (rt : Realtime) (table : string) : Z * Realtime :=
  let rt := set_used rt true true in
  let sub := change_seq rt in
  let rt := set_change_seq rt (wrap 64 (change_seq rt + 1)) in
  (sub, set_hub rt (<[table := default [] (push_hub rt !! table) ++ [(sub, channel 64)]]> (push_hub rt))
          (push_dropped rt) (push_delivered rt)).

Definition push_unsubscribe (rt : Realtime) (table : string) (sub : Z) : Realtime :=
  match push_hub rt !! table with
  | Some v => set_hub rt (<[table := filter (λ s, s.1 ≠ sub) v]> (push_hub rt))
                (push_dropped rt) (push_delivered rt)
  | None => rt
  end.
End realtime.

(** ** Terms *)

Definition is_ascii_alphanumeric (b : byte) : bool :=
  let z := byte_Z b in
  (48 <=? z) && (z <=? 57) || (65 <=? z) && (z <=? 90) || (97 <=? z) && (z <=? 122).

(** [cur] is the term being built. The source walks characters; every byte of a
    non-ASCII character is no letter either, and a second separator does nothing. *)
Fixpoint tokenize_loop (l cur : list byte) (terms : list string) : list string :=
  match l with
  | [] =>
      if negb (bool_decide (cur = [])) && (length terms <? 8)%nat
      then terms ++ [String.string_of_list_byte cur] else terms
  | ch :: l =>
      if is_ascii_alphanumeric ch then
        let cur := cur ++ [ascii_lower ch] in
        if (24 <=? length cur)%nat then
          let terms := terms ++ [String.string_of_list_byte cur] in
          if (8 <=? length terms)%nat then terms else tokenize_loop l [] terms
        else tokenize_loop l cur terms
      else if bool_decide (cur = []) then tokenize_loop l cur terms
      else
        let terms := terms ++ [String.string_of_list_byte cur] in
        if (8 <=? length terms)%nat then terms else tokenize_loop l [] terms
  end.
Definition tokenize (text : string) : list string := tokenize_loop (str_bytes text) [] [].

(** ** Search index: postings per term, (table, row id), newest last *)

Abbreviation posting := (string * Z)%type.
Abbreviation SearchIndex := (gmap string (list posting)).

(** [q.retain(..); q.push_back(..)], then the cap of 128. *)
Definition post_term (p : posting) (q : list posting) : list posting :=
  last_n 128 (filter (λ x, x ≠ p) q ++ [p]).

Definition index_term (p : posting) (ix : SearchIndex) (term : string) : SearchIndex :=
  <[term := post_term p (default [] (ix !! term))]> ix.
Definition index_post (ix : SearchIndex) (table : string) (row_id : Z) (body : string) : SearchIndex :=
  foldl (index_term (table, row_id)) ix (firstn 8 (tokenize body)).

Definition postings (ix : SearchIndex) (t : string) : list posting := default [] (ix !! t).

Definition search_posts (ix : SearchIndex) (query : string) (limit : Z) : list posting :=
  let limit := Z.max (clamp limit 1 100) 1 in
  match tokenize query with
  | [] => []
  | t1 :: rest =>
      let hits := postings ix t1 in
      let hits := match rest with
                  | t2 :: _ => filter (λ h, h ∈ postings ix t2) hits
                  | [] => hits
                  end in
      last_n (Z.to_nat limit) hits
  end.

(** ** Lists cut to their end *)

Lemma length_last_n {A} n (q : list A) : length (last_n n q) = Nat.min n (length q).
Proof. unfold last_n. rewrite length_skipn. lia. Qed.

Lemma last_n_all {A} n (q : list A) : (length q <= n)%nat → last_n n q = q.
Proof. intros. unfold last_n. by replace (length q - n)%nat with O by lia. Qed.

Lemma last_n_snoc {A} n (q : list A) x : last_n n (last_n n q ++ [x]) = last_n n (q ++ [x]).
Proof.
  unfold last_n. rewrite !length_app, length_skipn, !skipn_app, skipn_skipn, length_skipn.
  cbn [length]. f_equal; f_equal; lia.
Qed.

Lemma last_n_elem {A} n (q : list A) x : x ∈ last_n n q → x ∈ q.
Proof. intros H. rewrite <- (firstn_skipn (length q - n) q). apply elem_of_app. by right. Qed.

Lemma last_n_NoDup {A} n (q : list A) : NoDup q → NoDup (last_n n q).
Proof.
  intros N. rewrite <- (firstn_skipn (length q - n) q) in N. by apply NoDup_app in N as (_ & _ & ?).
Qed.

(** ** The history behind the change log and the hub *)

Section history.
Context `{PushChannelLaws}.

Inductive rt_op : Type :=
| RtRecord (now : Z) (table op : string) (row_id : Z)
| RtRead (table : string) (since limit : Z)
| RtSubscribe (table : string)
| RtUnsubscribe (table : string) (sub : Z).

Definition rt_step (rt : Realtime) (o : rt_op) : Realtime :=
  match o with
  | RtRecord now table op row_id => record_change rt now table op row_id
  | RtRead table since limit => (read_changes rt table since limit).2
  | RtSubscribe table => (push_subscribe rt table).2
  | RtUnsubscribe table sub => push_unsubscribe rt table sub
  end.

(** Every change recorded so far, as the abstract, unbounded log. *)
Definition emitted (rt : Realtime) (o : rt_op) : list ChangeRecord :=
  match o with
  | RtRecord now table op row_id =>
      if changes_used rt then [MkChangeRecord (change_seq rt) table op row_id now] else []
  | _ => []
  end.

Fixpoint rt_run (rt : Realtime) (log : list ChangeRecord) (ops : list rt_op)
    : Realtime * list ChangeRecord :=
  match ops with
  | [] => (rt, log)
  | o :: ops => rt_run (rt_step rt o) (log ++ emitted rt o) ops
  end.

Definition of_table (t : string) (log : list ChangeRecord) : list ChangeRecord :=
  filter (λ r, ch_table r = t) log.
Definition since_sub (sub : Z) (log : list ChangeRecord) : list ChangeRecord :=
  filter (λ r, sub < seq r) log.

Record rt_inv (log : list ChangeRecord) (rt : Realtime) : Prop := {
  inv_log t : default [] (changes rt !! t) = last_n MAX_CHANGES_PER_TABLE (of_table t log);
  inv_seqs : Forall (λ r, seq r < change_seq rt) log;
  inv_sorted : StronglySorted (λ a b, seq a < seq b) log;
  inv_used : push_used rt = true → changes_used rt = true;
  inv_unused : push_used rt = false → push_hub rt = ∅;
  inv_subs t v id c : push_hub rt !! t = Some v → (id, c) ∈ v →
    id < change_seq rt ∧ sent c = since_sub id (of_table t log)
}.

Lemma of_table_snoc t log r :
  of_table t (log ++ [r]) = of_table t log ++ (if decide (ch_table r = t) then [r] else []).
Proof. unfold of_table. rewrite filter_app, filter_cons. case_decide; by rewrite filter_nil. Qed.

Lemma deliver_spec rec targets : ∀ v dead n id c',
  deliver rec targets = (v, dead, n) → (id, c') ∈ v → id ∉ dead →
  ∃ c, (id, c) ∈ targets ∧ try_send c rec = Some c'.
Proof.
  induction targets as [|[i tx] targets IH]; intros v dead n id c'; cbn [deliver].
  - intros [= <- <- <-] Hin. by apply not_elem_of_nil in Hin.
  - destruct (deliver rec targets) as [[v0 d0] n0] eqn:E. destruct (try_send tx rec) as [tx'|] eqn:Es.
    + intros [= <- <- <-] [[= -> ->]|Hin]%elem_of_cons Hd.
      * exists tx. split; [by left|done].
      * destruct (IH _ _ _ _ _ eq_refl Hin Hd) as (c & ? & ?). exists c. split; [by right|done].
    + intros [= <- <- <-] Hin [Hne Hd]%not_elem_of_cons. apply elem_of_cons in Hin as [[= -> ->]|Hin]; [done|].
      destruct (IH _ _ _ _ _ eq_refl Hin Hd) as (c & ? & ?). exists c. split; [by right|done].
Qed.

Lemma since_sub_snoc sub log r :
  sub < seq r → since_sub sub (log ++ [r]) = since_sub sub log ++ [r].
Proof. intros. unfold since_sub. rewrite filter_app, filter_cons_True by done. by rewrite filter_nil. Qed.

Lemma since_sub_fresh sub log :
  Forall (λ r, seq r < sub) log → ∀ t, since_sub sub (of_table t log) = [].
Proof.
  intros F t. unfold since_sub, of_table.
  induction F as [|r log Hr F IH]; [done|]. rewrite filter_cons. case_decide; [|done].
  rewrite filter_cons_False by lia. done.
Qed.

Lemma push_fanout_same rt t rec :
  changes (push_fanout rt t rec) = changes rt ∧ change_seq (push_fanout rt t rec) = change_seq rt ∧
  changes_used (push_fanout rt t rec) = changes_used rt ∧ push_used (push_fanout rt t rec) = push_used rt.
Proof.
  unfold push_fanout. destruct (push_used rt) eqn:E; [|done].
  destruct (push_hub rt !! t) as [[|x v]|]; try done.
  by destruct (deliver rec (x :: v)) as [[? ?] ?].
Qed.

(** What a publication leaves in the hub: other tables alone, and of this table's
    subscribers those whose channel took the record. *)
Lemma push_fanout_hub rt t rec t' v id c :
  push_hub (push_fanout rt t rec) !! t' = Some v → (id, c) ∈ v → push_used rt = true →
  ∃ v0 c0, push_hub rt !! t' = Some v0 ∧ (id, c0) ∈ v0 ∧
    (t' ≠ t ∧ c0 = c ∨ t' = t ∧ try_send c0 rec = Some c).
Proof.
  intros Hh Hin U. unfold push_fanout in Hh. rewrite U in Hh.
  destruct (push_hub rt !! t) as [targets|] eqn:Et.
  - destruct targets as [|x targets].
    + destruct (decide (t' = t)) as [->|Hne]; [|by eauto 10].
      rewrite Et in Hh. injection Hh as <-. by apply not_elem_of_nil in Hin.
    + destruct (deliver rec (x :: targets)) as [[v1 dead] n] eqn:Ed. cbn [push_hub set_hub] in Hh.
      destruct (decide (t' = t)) as [->|Hne].
      * rewrite lookup_insert_eq in Hh. injection Hh as <-. apply list_elem_of_filter in Hin as [Hd Hin].
        destruct (deliver_spec _ _ _ _ _ _ _ Ed Hin Hd) as (c0 & ? & ?). eauto 10.
      * rewrite lookup_insert_ne in Hh by done. eauto 10.
  - destruct (decide (t' = t)) as [->|Hne]; [congruence|eauto 10].
Qed.

Lemma record_change_inv log rt now t op id :
  change_seq rt + 1 < 2 ^ 64 → 0 <= change_seq rt → rt_inv log rt →
  rt_inv (log ++ emitted rt (RtRecord now t op id)) (record_change rt now t op id).
Proof.
  intros Hs Hz I. unfold record_change, emitted. destruct (changes_used rt) eqn:U; [|by rewrite app_nil_r].
  cbv zeta. rewrite wrap_small by lia.
  set (rec := MkChangeRecord (change_seq rt) t op id now). set (rt1 := set_changes _ _).
  destruct (push_fanout_same rt1 t rec) as (E1 & E2 & E3 & E4).
  destruct I as [I1 I2 I3 I4 I5 I6]. split; rewrite ?E1, ?E2, ?E3, ?E4; cbn [changes change_seq changes_used push_used rt1 set_changes set_change_seq].
  - intros t'. rewrite of_table_snoc. cbn [ch_table rec]. destruct (decide (t = t')) as [<-|Hne].
    + rewrite lookup_insert_eq.
      change (last_n MAX_CHANGES_PER_TABLE (default [] (changes rt !! t) ++ [rec]) =
              last_n MAX_CHANGES_PER_TABLE (of_table t log ++ [rec])).
      rewrite I1. apply last_n_snoc.
    + rewrite lookup_insert_ne, app_nil_r by done. apply I1.
  - apply Forall_app. split; [|by repeat constructor; simpl; lia].
    eapply Forall_impl; [exact I2|]. simpl. lia.
  - apply StronglySorted_app. split_and!; [|done|by repeat constructor].
    intros a b Ha ->%list_elem_of_singleton. simpl. rewrite Forall_forall in I2. by apply I2.
  - done.
  - intros Hp. unfold push_fanout. cbn [push_used rt1 set_changes set_change_seq]. rewrite Hp. by apply I5.
  - intros t' v i c Hh Hin. destruct (push_used rt) eqn:Up.
    + destruct (push_fanout_hub rt1 t rec t' v i c Hh Hin Up) as (v0 & c0 & Hv & Hc & D).
      cbn [push_hub rt1 set_changes set_change_seq] in Hv. destruct (I6 t' v0 i c0 Hv Hc) as [Hi Hsent].
      split; [lia|]. rewrite of_table_snoc. cbn [ch_table rec].
      destruct D as [[Hne ->]|[-> Hsend]].
      * rewrite decide_False by done. by rewrite app_nil_r.
      * rewrite decide_True, since_sub_snoc by (simpl; done || lia).
        rewrite (sent_send _ _ _ Hsend). by rewrite Hsent.
    + unfold push_fanout in Hh. cbn [push_used rt1 set_changes set_change_seq] in Hh. rewrite Up in Hh.
      cbn [push_hub rt1 set_changes set_change_seq] in Hh. rewrite (I5 eq_refl) in Hh. by rewrite lookup_empty in Hh.
Qed.

Lemma rt_step_inv log rt o :
  0 <= change_seq rt → change_seq rt + 1 < 2 ^ 64 → rt_inv log rt →
  rt_inv (log ++ emitted rt o) (rt_step rt o) ∧
  change_seq rt <= change_seq (rt_step rt o) <= change_seq rt + 1.
Proof.
  intros Hz Hs I. destruct o as [now t op id|t since limit|t|t sub]; cbn [rt_step emitted].
  - split; [by apply record_change_inv|]. unfold record_change. case_match; [|lia].
    destruct (push_fanout_same (set_changes (set_change_seq rt (wrap 64 (change_seq rt + 1)))
      (<[t:=push_change (default [] (changes (set_change_seq rt (wrap 64 (change_seq rt + 1))) !! t))
        (MkChangeRecord (change_seq rt) t op id now)]> (changes (set_change_seq rt (wrap 64 (change_seq rt + 1))))))
      t (MkChangeRecord (change_seq rt) t op id now)) as (_ & -> & _). cbn. rewrite wrap_small by lia. lia.
  - rewrite app_nil_r. split; [|simpl; lia]. destruct I as [I1 I2 I3 I4 I5 I6]. by split.
  - rewrite app_nil_r. unfold push_subscribe. cbn [snd]. rewrite wrap_small by (cbn; lia).
    destruct I as [I1 I2 I3 I4 I5 I6]. split; [|cbn; lia]. split; cbn; try done.
    + eapply Forall_impl; [exact I2|]. simpl. lia.
    + intros t' v i c Hh Hin. destruct (decide (t' = t)) as [->|Hne].
      * rewrite lookup_insert_eq in Hh. injection Hh as <-. apply elem_of_app in Hin as [Hin|Hin].
        -- destruct (push_hub rt !! t) as [v0|] eqn:Ev; [|by apply not_elem_of_nil in Hin].
           destruct (I6 t v0 i c Ev Hin). split; [lia|done].
        -- apply list_elem_of_singleton in Hin. injection Hin as -> ->. split; [lia|].
           rewrite sent_new. symmetry. by apply since_sub_fresh.
      * rewrite lookup_insert_ne in Hh by done. destruct (I6 t' v i c Hh Hin). split; [lia|done].
  - rewrite app_nil_r. unfold push_unsubscribe. destruct (push_hub rt !! t) as [v0|] eqn:Ev; [|split; [done|lia]].
    destruct I as [I1 I2 I3 I4 I5 I6]. split; [|cbn; lia]. split; cbn; try done.
    + intros Hp. rewrite (I5 Hp) in Ev. by rewrite lookup_empty in Ev.
    + intros t' v i c Hh Hin. destruct (decide (t' = t)) as [->|Hne].
      * rewrite lookup_insert_eq in Hh. injection Hh as <-. apply list_elem_of_filter in Hin as [_ Hin]. eauto.
      * rewrite lookup_insert_ne in Hh by done. eauto.
Qed.

Lemma rt_run_inv ops : ∀ rt log,
  0 <= change_seq rt → change_seq rt + Z.of_nat (length ops) < 2 ^ 64 → rt_inv log rt →
  rt_inv (rt_run rt log ops).2 (rt_run rt log ops).1.
Proof.
  induction ops as [|o ops IH]; intros rt log Hz Hs I; cbn [rt_run]; [done|].
  cbn [length] in Hs. destruct (rt_step_inv log rt o) as [I' ?]; [lia|lia|done|].
  apply IH; [lia|lia|done].
Qed.

Lemma rt_inv_new : rt_inv [] Realtime_new.
Proof. split; try done; try constructor. all: cbn; intros *; by rewrite lookup_empty. Qed.

(** The change log is a window on the history: after any sequence of recorded
    writes, polls, subscriptions and cancellations, a table's log is the last 128
    changes of that table in order, with increasing sequence numbers, a poll returns the
    oldest of those newer than the given time up to the limit, and every stream
    subscriber still in the hub has been sent exactly the changes of its table since it
    subscribed. *)
Theorem realtime_history ops t since limit :
  1 + Z.of_nat (length ops) < 2 ^ 64 →
  let '(rt, log) := rt_run Realtime_new [] ops in
  default [] (changes rt !! t) = last_n 128 (of_table t log) ∧
  StronglySorted (λ a b, seq a < seq b) log ∧
  (read_changes rt t since limit).1 =
    firstn (Z.to_nat (clamp limit 1 1000)) (filter (λ r, since < ts_micros r) (last_n 128 (of_table t log))) ∧
  (∀ v sub c, push_hub rt !! t = Some v → (sub, c) ∈ v → sent c = since_sub sub (of_table t log)).
Proof.
  intros Hs. pose proof (rt_run_inv ops Realtime_new [] ltac:(done) Hs rt_inv_new) as I.
  destruct (rt_run Realtime_new [] ops) as [rt log]. cbn [fst snd] in I.
  destruct I as [I1 I2 I3 I4 I5 I6]. split_and!; [apply I1|done| |intros v sub c Hv Hc; by eapply I6].
  specialize (I1 t). unfold read_changes. cbn [fst changes set_used]. unfold MAX_CHANGES_PER_TABLE in I1.
  rewrite <- I1. destruct (changes rt !! t) as [q|]; [done|]. cbn. by rewrite firstn_nil.
Qed.
End history.

Definition demo_channel : PushChannel := {|
  chan := list ChangeRecord * Z;
  channel n := ([], n);
  try_send c r := if 0 <? c.2 then Some (c.1 ++ [r], c.2 - 1) else None;
  sent c := c.1
|}.
Lemma demo_channel_laws : @PushChannelLaws demo_channel.
Proof. split; [done|]. intros [l n] r c'. simpl. case_match; [|done]. by intros [= <-]. Qed.

Definition demo_rt_ops : list rt_op :=
  [RtRecord 5 "t" "insert" 1; RtSubscribe "t"; RtRecord 6 "t" "insert" 2; RtRecord 7 "u" "insert" 1;
   RtRecord 8 "t" "delete" 2].

Lemma realtime_history_witness :
  let '(rt, log) := @rt_run demo_channel (@Realtime_new demo_channel) [] demo_rt_ops in
  log = [MkChangeRecord 2 "t" "insert" 2 6; MkChangeRecord 3 "u" "insert" 1 7; MkChangeRecord 4 "t" "delete" 2 8] ∧
  (@read_changes demo_channel rt "t" 6 10).1 = firstn 10 (filter (λ r, 6 < ts_micros r) (last_n 128 (of_table "t" log))).
Proof.
  pose proof (@realtime_history demo_channel demo_channel_laws demo_rt_ops "t" 6 10
    ltac:(vm_compute; reflexivity)) as T.
  destruct (@rt_run demo_channel (@Realtime_new demo_channel) [] demo_rt_ops) as [rt log] eqn:E.
  assert (log = (@rt_run demo_channel (@Realtime_new demo_channel) [] demo_rt_ops).2) as -> by (rewrite E; reflexivity).
  split; [vm_compute; reflexivity|]. apply T.
Defined.

(** ** Terms *)

Definition term_ok (t : string) : Prop :=
  (1 <= length (str_bytes t) <= 24)%nat ∧
  Forall (λ b, is_ascii_alphanumeric b = true ∧ ascii_lower b = b) (str_bytes t).

Lemma lower_alnum b :
  is_ascii_alphanumeric b = true →
  is_ascii_alphanumeric (ascii_lower b) = true ∧ ascii_lower (ascii_lower b) = ascii_lower b.
Proof. destruct b; vm_compute; auto. Qed.

Lemma tokenize_loop_ok l : ∀ cur terms,
  Forall (λ b, is_ascii_alphanumeric b = true ∧ ascii_lower b = b) cur → (length cur < 24)%nat →
  Forall term_ok terms → (length terms < 8)%nat →
  Forall term_ok (tokenize_loop l cur terms) ∧ (length (tokenize_loop l cur terms) <= 8)%nat.
Proof.
  assert (Emit : ∀ cur terms,
    Forall (λ b, is_ascii_alphanumeric b = true ∧ ascii_lower b = b) cur → (1 <= length cur <= 24)%nat →
    Forall term_ok terms → Forall term_ok (terms ++ [String.string_of_list_byte cur])).
  { intros cur terms Fc Lc Ft. apply Forall_app. split; [done|]. constructor; [|done].
    unfold term_ok, str_bytes. by rewrite String.list_byte_of_string_of_list_byte. }
  induction l as [|ch l IH]; intros cur terms Fc Lc Ft Lt; cbn [tokenize_loop].
  - case_match eqn:E; [|split; [done|lia]]. apply andb_true_iff in E as [E _].
    apply negb_true_iff, bool_decide_eq_false in E. destruct cur as [|b cur]; [done|].
    split; [apply Emit; try done; simpl in *; lia|]. rewrite length_app. simpl. lia.
  - destruct (is_ascii_alphanumeric ch) eqn:Ea.
    + assert (Forall (λ b, is_ascii_alphanumeric b = true ∧ ascii_lower b = b) (cur ++ [ascii_lower ch])) as Fc'.
      { apply Forall_app. split; [done|]. constructor; [by apply lower_alnum|done]. }
      cbv zeta. destruct (24 <=? length (cur ++ [ascii_lower ch]))%nat eqn:El.
      * apply Nat.leb_le in El. assert (length (cur ++ [ascii_lower ch]) = S (length cur)) as Ln
          by (rewrite length_app; simpl; lia).
        specialize (Emit (cur ++ [ascii_lower ch]) terms Fc' ltac:(lia) Ft).
        destruct (8 <=? _)%nat eqn:E8; [split; [done|rewrite length_app; simpl; lia]|].
        apply Nat.leb_gt in E8. apply IH; try done. simpl. lia.
      * apply Nat.leb_gt in El. by apply IH.
    + case_bool_decide as Ec; [by apply IH|]. cbv zeta. destruct cur as [|b cur]; [done|].
      specialize (Emit (b :: cur) terms Fc ltac:(simpl in *; lia) Ft).
      destruct (8 <=? _)%nat eqn:E8; [split; [done|rewrite length_app; simpl; lia]|].
      apply Nat.leb_gt in E8. apply IH; try done. simpl. lia.
Qed.

Lemma tokenize_ok text : Forall term_ok (tokenize text) ∧ (length (tokenize text) <= 8)%nat.
Proof. apply tokenize_loop_ok; try done; simpl; lia. Qed.

(** ** What a search finds *)

Definition post_ok (ps : list (posting * string)) (term : string) (p : posting) : Prop :=
  ∃ body, (p, body) ∈ ps ∧ term ∈ tokenize body.

(** The index built by posts indexed one after the other. *)
Definition index_all (ix : SearchIndex) (ps : list (posting * string)) : SearchIndex :=
  foldl (λ ix pb, index_post ix pb.1.1 pb.1.2 pb.2) ix ps.

Record index_inv (ps : list (posting * string)) (ix : SearchIndex) : Prop := {
  inv_cap t : (length (postings ix t) <= 128)%nat;
  inv_nodup t : NoDup (postings ix t);
  inv_from t p : p ∈ postings ix t → post_ok ps t p
}.

Lemma post_term_spec p q :
  (length (post_term p q) <= 128)%nat ∧ (NoDup q → NoDup (post_term p q)) ∧
  (∀ x, x ∈ post_term p q → x = p ∨ x ∈ q) ∧ last (post_term p q) = Some p.
Proof.
  unfold post_term. split_and!.
  - rewrite length_last_n. lia.
  - intros N. apply last_n_NoDup, NoDup_app. split_and!.
    + by apply NoDup_filter.
    + intros x [Hx _]%list_elem_of_filter ->%list_elem_of_singleton. done.
    + apply NoDup_singleton.
  - intros x Hx%last_n_elem. apply elem_of_app in Hx as [[_ Hx]%list_elem_of_filter|Hx%list_elem_of_singleton]; auto.
  - unfold last_n. rewrite length_app. simpl. rewrite skipn_app, last_app.
    replace (length (filter _ q) + 1 - 128 - length (filter (λ x, x ≠ p) q))%nat with O by lia. done.
Qed.

Lemma postings_index_term p ix term t :
  postings (index_term p ix term) t =
    if decide (t = term) then post_term p (postings ix t) else postings ix t.
Proof.
  unfold postings, index_term. case_decide as E; [subst; by rewrite lookup_insert_eq|by rewrite lookup_insert_ne].
Qed.

Lemma index_terms_inv ps p body terms : ∀ ix,
  index_inv ps ix → (p, body) ∈ ps → Forall (.∈ tokenize body) terms →
  index_inv ps (foldl (index_term p) ix terms) ∧
  (∀ t, t ∈ terms ∨ last (postings ix t) = Some p →
     last (postings (foldl (index_term p) ix terms) t) = Some p).
Proof.
  induction terms as [|term terms IH]; intros ix I Hp F; cbn [foldl].
  { split; [done|]. intros t [Ht|Ht]; [by apply not_elem_of_nil in Ht|done]. }
  apply Forall_cons in F as [Ft F].
  destruct (IH (index_term p ix term)) as [I' L']; [|done|done|].
  - destruct I as [I1 I2 I3]. split; intros t; rewrite postings_index_term; case_decide as E; try done.
    + apply post_term_spec.
    + by apply post_term_spec.
    + intros x [->|Hx]%post_term_spec; [|by apply I3]. subst. by exists body.
    + apply I3.
  - split; [done|]. intros t Ht. apply L'. rewrite postings_index_term. case_decide as E.
    + right. apply post_term_spec.
    + destruct Ht as [[->|Ht]%elem_of_cons|Ht]; [done|by left|by right].
Qed.

Lemma index_post_inv ps ix table id body :
  index_inv ps ix → ((table, id), body) ∈ ps →
  index_inv ps (index_post ix table id body) ∧
  (∀ t, t ∈ tokenize body → last (postings (index_post ix table id body) t) = Some (table, id)).
Proof.
  intros I Hp. unfold index_post. rewrite firstn_all2 by apply tokenize_ok.
  destruct (index_terms_inv ps (table, id) body (tokenize body) ix I Hp) as [I' L'].
  - apply Forall_forall. done.
  - split; [done|]. intros t Ht. apply L'. by left.
Qed.

Lemma index_all_inv qs : ∀ ps ix,
  index_inv ps ix → qs ⊆ ps → index_inv ps (index_all ix qs).
Proof.
  induction qs as [|[[table id] body] qs IH]; intros ps ix I Sub; cbn [index_all foldl]; [done|].
  apply IH; [|set_solver]. apply index_post_inv; [done|set_solver].
Qed.

Lemma last_last_n {A} n (q : list A) x : (0 < n)%nat → last q = Some x → last (last_n n q) = Some x.
Proof.
  intros Hn [q' ->]%last_Some. unfold last_n. rewrite length_app, skipn_app. simpl.
  replace (length q' + 1 - n - length q')%nat with O by lia. apply last_snoc.
Qed.

Lemma last_filter {A} (P : A → Prop) `{!∀ x, Decision (P x)} q x :
  last q = Some x → P x → last (filter P q) = Some x.
Proof. intros [q' ->]%last_Some HP. rewrite filter_app, filter_cons_True, filter_nil by done. apply last_snoc. Qed.

(** The search index is exact over the posts still posted: every hit is a post that
    was indexed with a body containing the first two terms of the query, hits are
    distinct and at most the limit (between 1 and 100), and the post indexed last comes
    last among the hits of every query whose first two terms it contains. *)
Theorem search_exact ps table id body query limit :
  let ix := index_all ∅ (ps ++ [((table, id), body)]) in
  let hits := search_posts ix query limit in
  NoDup hits ∧ Z.of_nat (length hits) <= clamp limit 1 100 ∧
  (∀ h, h ∈ hits → ∀ t, t ∈ firstn 2 (tokenize query) → post_ok (ps ++ [((table, id), body)]) t h) ∧
  (tokenize query ≠ [] → firstn 2 (tokenize query) ⊆ tokenize body → last hits = Some (table, id)).
Proof.
  intros ix hits. set (all := ps ++ [((table, id), body)]).
  assert (index_inv all ∅) as I0.
  { split; intros t; unfold postings; rewrite lookup_empty; [simpl; lia|constructor|].
    intros p Hp. by apply not_elem_of_nil in Hp. }
  assert (index_inv all (index_all ∅ ps)) as I1 by (apply index_all_inv; set_solver).
  destruct (index_post_inv all (index_all ∅ ps) table id body I1) as [[_ I2 I3] L]; [set_solver|].
  assert (ix = index_post (index_all ∅ ps) table id body) as Ex.
  { unfold ix, index_all. by rewrite foldl_app. }
  rewrite <- Ex in I2, I3, L. clearbody ix. clear Ex I1 I0. unfold clamp in *.
  subst hits. unfold search_posts, clamp. set (n := Z.to_nat (Z.max _ 1)).
  assert (0 < n)%nat as Hn by (unfold n; lia).
  destruct (tokenize query) as [|t1 rest]; [split_and!; [constructor|simpl; lia| |done]|].
  { intros h Hh. by apply not_elem_of_nil in Hh. }
  set (hits := match rest with [] => _ | _ => _ end).
  assert (Sub : ∀ h, h ∈ hits → ∀ t, t ∈ firstn 2 (t1 :: rest) → h ∈ postings ix t).
  { intros h Hh t Ht. unfold hits in Hh. destruct rest as [|t2 rest]; simpl in Ht.
    - by apply list_elem_of_singleton in Ht as ->.
    - apply list_elem_of_filter in Hh as [? ?]. rewrite !elem_of_cons in Ht.
      by destruct Ht as [->|[->|?%not_elem_of_nil]]. }
  split_and!.
  - apply last_n_NoDup. unfold hits. destruct rest; [apply I2|by apply NoDup_filter].
  - rewrite length_last_n. unfold n. lia.
  - intros h Hh%last_n_elem t Ht. apply I3. by eapply Sub.
  - intros _ Hs. apply last_last_n; [done|]. unfold hits. destruct rest as [|t2 rest].
    + apply L, Hs. by left.
    + apply last_filter; [apply L, Hs; by left|].
      assert (last (postings ix t2) = Some (table, id)) as E
        by (apply L, Hs; right; by left). apply last_Some in E as [l ->]. apply elem_of_app. right. by left.
Qed.

Lemma search_exact_witness :
  let ix := index_all ∅ ([(("posts"%string, 1), "hello world"%string)] ++ [(("posts"%string, 2), "Hello there, WORLD"%string)]) in
  search_posts ix "world hello" 10 = [("posts"%string, 1); ("posts"%string, 2)] ∧
  last (search_posts ix "world hello" 10) = Some ("posts"%string, 2).
Proof.
  intros ix. split; [vm_compute; reflexivity|].
  apply (search_exact [(("posts"%string, 1), "hello world"%string)] "posts" 2 "Hello there, WORLD" "world hello" 10).
  - vm_compute. discriminate.
  - assert (B : bool_decide (Forall (.∈ tokenize "Hello there, WORLD") (firstn 2 (tokenize "world hello"))) = true)
      by (vm_compute; reflexivity).
    apply bool_decide_eq_true in B. intros t Ht. rewrite Forall_forall in B. by apply B.
Defined.

(** ** Between the locks

    [record_change] looks the table's deque up under the read lock, and when there is
    none makes one, offers it to the map under the write lock, and pushes to the deque
    it made, whether or not the map took it. [index_post] does the same per term. *)
Module Races.

(** Deques live behind an [Arc]: the map holds locations. *)
Record Shared : Type := MkShared {
  sh_map : gmap string nat;
  sh_heap : gmap nat (list ChangeRecord)
}.

Inductive rc_pc : Type := RcLookup | RcOffer (d : nat) | RcPush (d : nat) | RcDone.

Definition rc_step (sh : Shared) (rec : ChangeRecord) (pc : rc_pc) : rc_pc * Shared :=
  match pc with
  | RcLookup =>
      match sh_map sh !! ch_table rec with
      | Some d => (RcPush d, sh)
      | None =>
          let d := fresh (dom (sh_heap sh)) in (RcOffer d, MkShared (sh_map sh) (<[d := []]> (sh_heap sh)))
      end
  | RcOffer d =>
      (RcPush d, MkShared (if sh_map sh !! ch_table rec is Some _ then sh_map sh
                           else <[ch_table rec := d]> (sh_map sh)) (sh_heap sh))
  | RcPush d =>
      (RcDone, MkShared (sh_map sh)
                 (<[d := push_change (default [] (sh_heap sh !! d)) rec]> (sh_heap sh)))
  | RcDone => (RcDone, sh)
  end.

Definition visible (sh : Shared) (t : string) : list ChangeRecord :=
  default [] (sh_map sh !! t ≫= λ d, sh_heap sh !! d).

(** Two tasks, a schedule of their turns. *)
Definition turn (recs : bool → ChangeRecord) (st : (bool → rc_pc) * Shared) (who : bool)
    : (bool → rc_pc) * Shared :=
  let '(pc, sh) := rc_step st.2 (recs who) (st.1 who) in
  ((λ b, if Bool.eqb b who then pc else st.1 b), sh).
Definition run (recs : bool → ChangeRecord) (sched : list bool) (sh : Shared) : (bool → rc_pc) * Shared :=
  foldl (turn recs) (λ _, RcLookup, sh) sched.

Definition two_records (b : bool) : ChangeRecord := MkChangeRecord (1 + Z.b2z b) "t" "insert" (Z.b2z b) 0.

(** Two first writes to a table that both look before either offers: the second change
    goes to a deque nobody can reach. Run one after the other, both are seen. *)
Lemma first_changes_race :
  length (visible (run two_records [true; true; true; false; false; false] (MkShared ∅ ∅)).2 "t") = 2%nat ∧
  length (visible (run two_records [true; false; true; false; true; false] (MkShared ∅ ∅)).2 "t") = 1%nat.
Proof. split; vm_compute; reflexivity. Qed.
End Races.
