(* ===== verification/Jobs.v ===== *)
(** Background jobs: the job lifecycle and the scheduler of [blitz-jobs/src/job.rs],
    [run_job] of [blitz-jobs/src/executor.rs], and the WASM job store of
    [blitz-server/src/server.rs]. The guest (wasmtime) is third-party code: an attempt
    is what it answers and when. *)
From S2P Require Import Prelude Float Value Sort.

Local Open Scope Z_scope.

(** ** Jobs *)

Inductive JobStatus : Type := JPending | JRunning | JCompleted | JFailed | JCancelled.
Inductive JobPriority : Type := PLow | PNormal | PHigh | PCritical.
#[export] Instance JobStatus_eq_dec : EqDecision JobStatus.
Proof. solve_decision. Defined.
#[export] Instance JobPriority_eq_dec : EqDecision JobPriority.
Proof. solve_decision. Defined.

Definition priority_order (p : JobPriority) : Z :=
  match p with PLow => 0 | PNormal => 1 | PHigh => 2 | PCritical => 3 end.

Record Job : Type := MkJob {
  job_id : list byte;
  job_type : string;
  status : JobStatus;
  priority : JobPriority;
  payload : gmap string string;
  job_result : option string;
  job_error : option string;
  created_at : Z;
  started_at : option Z;
  completed_at : option Z;
  retry_count : Z;
  max_retries : Z
}.

Definition Job_new (uuid : list byte) (now : Z) (ty : string) : Job :=
  MkJob uuid ty JPending PNormal ∅ None None now None None 0 3.
Definition with_priority (j : Job) (p : JobPriority) : Job :=
  MkJob (job_id j) (job_type j) (status j) p (payload j) (job_result j) (job_error j) (created_at j)
    (started_at j) (completed_at j) (retry_count j) (max_retries j).
Definition with_payload (j : Job) (k v : string) : Job :=
  MkJob (job_id j) (job_type j) (status j) (priority j) (<[k := v]> (payload j)) (job_result j)
    (job_error j) (created_at j) (started_at j) (completed_at j) (retry_count j) (max_retries j).
Definition with_max_retries (j : Job) (m : Z) : Job :=
  MkJob (job_id j) (job_type j) (status j) (priority j) (payload j) (job_result j) (job_error j)
    (created_at j) (started_at j) (completed_at j) (retry_count j) m.

Definition mark_running (j : Job) (now : Z) : Job :=
  MkJob (job_id j) (job_type j) JRunning (priority j) (payload j) (job_result j) (job_error j)
    (created_at j) (Some now) (completed_at j) (retry_count j) (max_retries j).
Definition mark_completed (j : Job) (now : Z) (res : string) : Job :=
  MkJob (job_id j) (job_type j) JCompleted (priority j) (payload j) (Some res) (job_error j)
    (created_at j) (started_at j) (Some now) (retry_count j) (max_retries j).
Definition mark_failed (j : Job) (now : Z) (err : string) : Job :=
  if retry_count j <? max_retries j then
    MkJob (job_id j) (job_type j) JPending (priority j) (payload j) (job_result j) (Some err)
      (created_at j) (started_at j) (completed_at j) (retry_count j + 1) (max_retries j)
  else
    MkJob (job_id j) (job_type j) JFailed (priority j) (payload j) (job_result j) (Some err)
      (created_at j) (started_at j) (Some now) (retry_count j) (max_retries j).
Definition mark_cancelled (j : Job) (now : Z) : Job :=
  MkJob (job_id j) (job_type j) JCancelled (priority j) (payload j) (job_result j) (job_error j)
    (created_at j) (started_at j) (Some now) (retry_count j) (max_retries j).
Definition can_retry (j : Job) : bool :=
  bool_decide (status j = JPending) && (retry_count j <? max_retries j).

(** ** [JobScheduler] *)

Abbreviation job_map := (gmap (list byte) Job).

(** [jobs.values()]: in any order. *)
Class JobOrder : Type := job_enum : job_map → list Job.
Class JobOrderLaws `{JobOrder} : Prop := job_enum_perm m : job_enum m ≡ₚ (map_to_list m).*2.

(** A handler is a function on the job; the scheduler's clock is [now]. *)
Record JobScheduler : Type := MkJobScheduler {
  js_jobs : job_map;
  js_handlers : gmap string (Job → Job)
}.
Definition JobScheduler_new : JobScheduler := MkJobScheduler ∅ ∅.
Definition set_jobs (s : JobScheduler) (m : job_map) : JobScheduler := MkJobScheduler m (js_handlers s).

Definition register_handler (s : JobScheduler) (ty : string) (h : Job → Job) : JobScheduler :=
  MkJobScheduler (js_jobs s) (<[ty := h]> (js_handlers s)).
Definition submit (s : JobScheduler) (j : Job) : list byte * JobScheduler :=
  (job_id j, set_jobs s (<[job_id j := j]> (js_jobs s))).
Definition get_job (s : JobScheduler) (id : list byte) : option Job := js_jobs s !! id.

Section scheduler.
Context `{JobOrder}.

Definition jobs_by_status (s : JobScheduler) (st : JobStatus) : list Job :=
  filter (λ j, status j = st) (job_enum (js_jobs s)).
Definition jobs_by_type (s : JobScheduler) (ty : string) : list Job :=
  filter (λ j, job_type j = ty) (job_enum (js_jobs s)).
Definition pending_jobs (s : JobScheduler) : list Job :=
  sort_by (λ a b, priority_order (priority b) ?= priority_order (priority a)) (jobs_by_status s JPending).
Definition pending_count (s : JobScheduler) : nat := length (jobs_by_status s JPending).
Definition job_count (s : JobScheduler) : nat := size (js_jobs s).

Definition execute_job (s : JobScheduler) (now : Z) (id : list byte) : option Job * JobScheduler :=
  match js_jobs s !! id with
  | None => (None, s)
  | Some job =>
      if bool_decide (status job = JPending) then
        let job := mark_running job now in
        let job := match js_handlers s !! job_type job with
                   | Some handler => handler job
                   | None => mark_completed job now "no handler registered"
                   end in
        (Some job, set_jobs s (<[id := job]> (js_jobs s)))
      else (None, s)
  end.

Definition execute_next (s : JobScheduler) (now : Z) : option Job * JobScheduler :=
  match head (pending_jobs s) with
  | Some next => execute_job s now (job_id next)
  | None => (None, s)
  end.

Definition cancel_job (s : JobScheduler) (now : Z) (id : list byte) : bool * JobScheduler :=
  match js_jobs s !! id with
  | Some job =>
      if bool_decide (status job = JPending) || bool_decide (status job = JRunning)
      then (true, set_jobs s (<[id := mark_cancelled job now]> (js_jobs s)))
      else (false, s)
  | None => (false, s)
  end.
End scheduler.

(** ** WASM jobs *)

(** One run of the guest: when it started and ended, and what it said. *)
Record Attempt : Type := MkAttempt { at_start : Z; at_end : Z; at_outcome : result string string }.

(** [run_job] *)
Definition run_job (a : Attempt) (j : Job) : bool * Job :=
  let j := mark_running j (at_start a) in
  match at_outcome a with
  | Ok out => (true, mark_completed j (at_end a) out)
  | Err e => (false, mark_failed j (at_end a) e)
  end.

(** The retry loop of [run_wasm_job]; [n] counts the attempts made. *)
Fixpoint run_loop (fuel : nat) (attempts : nat → Attempt) (n : nat) (j : Job) : option (nat * Job) :=
  match fuel with
  | O => None
  | S fuel =>
      match run_job (attempts n) j with
      | (true, j) => Some (S n, j)
      | (false, j) => if can_retry j then run_loop fuel attempts (S n) j else Some (S n, j)
      end
  end.

Record StoredWasmJob : Type := MkStored { sw_job : Job; sw_wasm : list byte; sw_input : string }.
Abbreviation wasm_store := (gmap string StoredWasmJob).

Definition MAX_WASM_JOBS : Z := 4096.
Definition MAX_WASM_BYTES : Z := 1048576.

Inductive store_error : Type := WasmTooLarge | JobQueueFull.

Definition is_terminal (st : JobStatus) : bool :=
  match st with JCompleted | JFailed | JCancelled => true | _ => false end.

(** [(DateTime, String)] in the derived order. *)
Definition stamp_cmp (a b : Z * string) : comparison :=
  then_cmp (a.1 ?= b.1) (str_cmp a.2 b.2).

Definition terminal_stamps (jobs : wasm_store) : list (Z * string) :=
  omap (λ ks, if is_terminal (status (sw_job ks.2))
              then (λ t, (t, ks.1)) <$> completed_at (sw_job ks.2) else None) (map_to_list jobs).

(** [job.payload.insert("input_len", ..); jobs.insert(id, ..); Ok(id)] *)
Definition put_job (job : Job) (id : string) (wasm : list byte) (input dec_len : string) (jobs : wasm_store)
    : result store_error string * wasm_store :=
  (Ok id, <[id := MkStored (with_payload job "input_len" dec_len) wasm input]> jobs).

(** [id] is the text of the job's uuid, [dec_len] the text of the input's length. *)
Definition store_wasm_job (jobs : wasm_store) (job : Job) (id : string) (wasm : list byte) (input : string)
    (dec_len : string) : result store_error string * wasm_store :=
  if MAX_WASM_BYTES <? Z.of_nat (length wasm) then (Err WasmTooLarge, jobs)
  else
    let put := put_job job id wasm input dec_len in
    if MAX_WASM_JOBS <=? Z.of_nat (size jobs) then
      match head (sort_by stamp_cmp (terminal_stamps jobs)) with
      | Some (_, oldest) => put (delete oldest jobs)
      | None => (Err JobQueueFull, jobs)
      end
    else put jobs.

Definition set_stored (jobs : wasm_store) (id : string) (j : Job) : wasm_store :=
  match jobs !! id with
  | Some s => <[id := MkStored j (sw_wasm s) (sw_input s)]> jobs
  | None => jobs
  end.

(** [engine] is the error of building the executor, if it could not be built. *)
Definition run_wasm_job (fuel : nat) (jobs : wasm_store) (now : Z) (engine : option string)
    (attempts : nat → Attempt) (id : string) : option (option Job * wasm_store) :=
  match jobs !! id with
  | None => Some (None, jobs)
  | Some stored =>
      let job := mark_running (sw_job stored) now in
      let jobs := set_stored jobs id job in
      match engine with
      | Some e =>
          let job := mark_failed job now ("engine: " +:+ e) in Some (Some job, set_stored jobs id job)
      | None =>
          '(_, job) ← run_loop fuel attempts 0 job;
          Some (Some job, set_stored jobs id job)
      end
  end.

Definition get_wasm_job (jobs : wasm_store) (id : string) : option Job := sw_job <$> jobs !! id.

(** ** The retry loop *)

Definition tries (j : Job) : Z := Z.max 1 (max_retries j - retry_count j).

Lemma run_loop_spec attempts : ∀ fuel n j,
  tries j <= Z.of_nat fuel →
  ∃ k j', run_loop fuel attempts n j = Some ((n + S k)%nat, j') ∧ Z.of_nat k < tries j ∧
    (∀ i, (i < k)%nat → is_ok (at_outcome (attempts (n + i)%nat)) = false) ∧
    match at_outcome (attempts (n + k)%nat) with
    | Ok out => status j' = JCompleted ∧ job_result j' = Some out ∧
                retry_count j' = retry_count j + Z.of_nat k
    | Err e => Z.of_nat (S k) = tries j ∧ job_error j' = Some e ∧ retry_count j' = Z.max (retry_count j) (max_retries j) ∧
               if retry_count j <? max_retries j
               then status j' = JPending ∧ completed_at j' = completed_at j
               else status j' = JFailed ∧ completed_at j' = Some (at_end (attempts (n + k)%nat))
    end.
Proof.
  unfold tries. induction fuel as [|fuel IH]; intros n j Hf; [lia|].
  cbn [run_loop]. unfold run_job. destruct (at_outcome (attempts n)) as [out|e] eqn:Eo.
  - exists O. eexists. rewrite Nat.add_1_r. split; [reflexivity|]. rewrite Nat.add_0_r, Eo. cbn.
    split_and!; try done; lia.
  - unfold mark_failed at 1 2 3. cbn [retry_count max_retries mark_running].
    destruct (retry_count j <? max_retries j) eqn:El; [apply Z.ltb_lt in El|apply Z.ltb_ge in El].
    + unfold can_retry. cbn [status retry_count max_retries].
      rewrite bool_decide_true by done. cbn [andb].
      destruct (retry_count j + 1 <? max_retries j) eqn:E1; [apply Z.ltb_lt in E1|apply Z.ltb_ge in E1].
      * match goal with |- context [run_loop fuel attempts (S n) ?q] => set (j1 := q) end.
        destruct (IH (S n) j1) as (k & j' & Ek & Lk & Hk & Ho); [simpl; lia|].
        exists (S k), j'. rewrite Ek. split_and!; [do 2 f_equal; lia|cbn [retry_count max_retries j1] in *; lia| |].
        -- intros [|i] Hi; [by rewrite Nat.add_0_r, Eo|].
           rewrite <- Nat.add_succ_comm. apply Hk. lia.
        -- rewrite <- Nat.add_succ_comm. destruct (at_outcome (attempts (S n + k)%nat)) as [out|e'].
           ++ destruct Ho as (? & ? & ->). split_and!; try done. cbn [retry_count j1]. lia.
           ++ destruct Ho as (Et & He & Hc & Hs). cbn [retry_count max_retries j1 completed_at] in *.
              rewrite (proj2 (Z.ltb_lt _ _)) in Hs by lia. split_and!; try done; try lia; apply Hs.
      * exists O. eexists. rewrite Nat.add_1_r. split; [reflexivity|]. rewrite Nat.add_0_r, Eo. cbn.
        split_and!; try done; lia.
    + unfold can_retry. cbn [status]. rewrite bool_decide_false by done. cbn [andb].
      exists O. eexists. rewrite Nat.add_1_r. split; [reflexivity|]. rewrite Nat.add_0_r, Eo. cbn.
      split_and!; try done; lia.
Qed.

Lemma set_stored_get jobs id j s :
  jobs !! id = Some s → get_wasm_job (set_stored jobs id j) id = Some j.
Proof. intros E. unfold set_stored, get_wasm_job. rewrite E. by rewrite lookup_insert_eq. Qed.

(** C40: Running a stored job always ends and stores what it returns, and touches nothing else
    of the store; a job that is not there runs nothing. Without an executor the job is
    failed at once with the executor's error. Otherwise it is attempted at most as many
    times as it has retries unused, at least once: it is completed with the first answer
    the guest gives; or, when every attempt failed, it has the last error. Each failure -
    the executor's too - uses one retry and leaves the job pending, with no completion time
    set, and only a job that had none left is failed. So running a job does not bring
    one with retries to an end: without an executor it is left pending with its other
    retries unused, and a guest that keeps failing leaves it pending with none. *)
Theorem run_wasm_job_outcome jobs now engine attempts id fuel :
  match jobs !! id with
  | None => run_wasm_job fuel jobs now engine attempts id = Some (None, jobs)
  | Some stored =>
      let old := sw_job stored in
      let retry := retry_count old <? max_retries old in
      let left := Z.max 1 (max_retries old - retry_count old) in
      left <= Z.of_nat fuel →
      ∃ job, run_wasm_job fuel jobs now engine attempts id =
          Some (Some job, <[id := MkStored job (sw_wasm stored) (sw_input stored)]> jobs) ∧
        match engine with
        | Some e =>
            job_error job = Some ("engine: " +:+ e) ∧
            (if retry then status job = JPending ∧ completed_at job = completed_at old ∧ retry_count job = retry_count old + 1
             else status job = JFailed ∧ completed_at job = Some now ∧ retry_count job = retry_count old)
        | None =>
            ∃ k, Z.of_nat k < left ∧ (∀ i, (i < k)%nat → is_ok (at_outcome (attempts i)) = false) ∧
            match at_outcome (attempts k) with
            | Ok out => status job = JCompleted ∧ job_result job = Some out ∧ retry_count job = retry_count old + Z.of_nat k
            | Err e =>
                Z.of_nat (S k) = left ∧ job_error job = Some e ∧ retry_count job = Z.max (retry_count old) (max_retries old) ∧
                if retry then status job = JPending ∧ completed_at job = completed_at old
                else status job = JFailed ∧ completed_at job = Some (at_end (attempts k))
            end
        end
  end.
Proof.
  destruct (jobs !! id) as [stored|] eqn:Es; [|unfold run_wasm_job; by rewrite Es].
  intros old retry left Hf. unfold run_wasm_job. rewrite Es. subst left.
  assert (∀ j, set_stored (set_stored jobs id (mark_running old now)) id j = <[id := MkStored j (sw_wasm stored) (sw_input stored)]> jobs) as Put.
  { intros j. unfold set_stored. rewrite Es, lookup_insert_eq. cbn. by rewrite insert_insert_eq. }
  fold old. destruct engine as [e|].
  - eexists. rewrite Put. split; [done|]. unfold mark_failed. cbn [retry_count max_retries mark_running]. fold retry. by destruct retry.
  - destruct (run_loop_spec attempts fuel 0 (mark_running old now)) as (k & j' & Ek & Lk & Hk & Ho); [unfold tries; cbn; lia|].
    rewrite Ek. cbn [mbind option_bind]. rewrite Put. exists j'. split; [done|]. exists k. done.
Qed.

Definition demo_job : Job := Job_new [] 0 "wasm".
Definition demo_store : wasm_store := {["j"%string := MkStored demo_job [] "in"]}.
Definition always_traps (n : nat) : Attempt := MkAttempt (Z.of_nat n) (Z.of_nat n) (Err "guest trap"%string).

(** Three failures use up the retries of a job and leave it pending; without an executor
    one is used. *)
Lemma run_wasm_job_outcome_witness :
  (∃ job, run_wasm_job 3 demo_store 0 None always_traps "j" = Some (Some job, {["j"%string := MkStored job [] "in"]}) ∧
    status job = JPending ∧ completed_at job = None ∧ retry_count job = 3) ∧
  (∃ job, run_wasm_job 3 demo_store 0 (Some "no engine"%string) always_traps "j" = Some (Some job, {["j"%string := MkStored job [] "in"]}) ∧
    status job = JPending ∧ retry_count job = 1).
Proof.
  split.
  - pose proof (run_wasm_job_outcome demo_store 0 None always_traps "j" 3) as T. hnf in T.
    destruct T as (job & R & k & _ & _ & O); [vm_compute; discriminate|].
    exists job. split; [exact R|]. cbn in O. destruct O as (_ & _ & C & S & E). exact (conj S (conj E C)).
  - pose proof (run_wasm_job_outcome demo_store 0 (Some "no engine"%string) always_traps "j" 3) as T. hnf in T.
    destruct T as (job & R & O); [vm_compute; discriminate|].
    exists job. split; [exact R|]. destruct O as (_ & S & _ & C). exact (conj S C).
Defined.

(** ** The store is bounded and only forgets finished jobs *)

Lemma total_stamp_cmp : total_cmp stamp_cmp.
Proof.
  apply (total_cmp_then (λ a b : Z * string, a.1 ?= b.1) (λ a b, str_cmp a.2 b.2)).
  - apply (total_cmp_map fst), total_cmp_Z.
  - apply (total_cmp_map snd), total_cmp_str.
Qed.

Lemma terminal_stamps_elem jobs t k :
  (t, k) ∈ terminal_stamps jobs ↔
  ∃ s, jobs !! k = Some s ∧ is_terminal (status (sw_job s)) = true ∧ completed_at (sw_job s) = Some t.
Proof.
  unfold terminal_stamps. rewrite list_elem_of_omap. split.
  - intros ([k' s] & Hin & E). apply elem_of_map_to_list in Hin. cbn [fst snd] in E.
    destruct (is_terminal _) eqn:Et; [|done]. apply fmap_Some in E as (t' & Ec & [= -> ->]). eauto.
  - intros (s & Hs & Et & Ec). exists (k, s). split; [by apply elem_of_map_to_list|].
    cbn [fst snd]. by rewrite Et, Ec.
Qed.

(** The job store never holds more than 4096 jobs: a full store makes room by
    forgetting exactly one job, the finished one with the oldest completion, keeps
    every other job as it was, and refuses the submission, changing nothing, when no
    job of the store has finished. *)
Theorem store_wasm_job_bounded jobs job id wasm input len :
  Z.of_nat (size jobs) <= MAX_WASM_JOBS →
  let '(r, jobs') := store_wasm_job jobs job id wasm input len in
  Z.of_nat (size jobs') <= MAX_WASM_JOBS ∧
  match r with
  | Err WasmTooLarge => MAX_WASM_BYTES < Z.of_nat (length wasm) ∧ jobs' = jobs
  | Err JobQueueFull => jobs' = jobs ∧ Z.of_nat (size jobs) = MAX_WASM_JOBS ∧
      ∀ k s t, jobs !! k = Some s → completed_at (sw_job s) = Some t → is_terminal (status (sw_job s)) = false
  | Ok id' => id' = id ∧ get_wasm_job jobs' id = Some (with_payload job "input_len" len) ∧
      ∀ k s, k ≠ id → jobs !! k = Some s → jobs' !! k = Some s ∨
        jobs' !! k = None ∧ Z.of_nat (size jobs) = MAX_WASM_JOBS ∧ is_terminal (status (sw_job s)) = true ∧
        ∃ t, completed_at (sw_job s) = Some t ∧
        ∀ k' s' t', jobs !! k' = Some s' → is_terminal (status (sw_job s')) = true →
          completed_at (sw_job s') = Some t' → t <= t'
  end.
Proof.
  intros Hs. unfold store_wasm_job. destruct (MAX_WASM_BYTES <? _) eqn:El; [apply Z.ltb_lt in El; done|].
  cbv zeta. set (put := put_job job id wasm input len).
  assert (Put : ∀ jobs0 : wasm_store, Z.of_nat (size jobs0) < MAX_WASM_JOBS →
    Z.of_nat (size (put jobs0).2) <= MAX_WASM_JOBS).
  { intros j0 Hj. unfold put, put_job. cbn [snd]. rewrite map_size_insert.
    destruct (j0 !! id); cbn; lia. }
  assert (Get : ∀ jobs0, get_wasm_job (put jobs0).2 id = Some (with_payload job "input_len" len)).
  { intros. unfold put, put_job, get_wasm_job. cbn [snd]. by rewrite lookup_insert_eq. }
  assert (Ne : ∀ jobs0 k, k ≠ id → (put jobs0).2 !! k = jobs0 !! k).
  { intros. unfold put, put_job. cbn [snd]. by apply lookup_insert_ne. }
  destruct (MAX_WASM_JOBS <=? _) eqn:Ef; [apply Z.leb_le in Ef|apply Z.leb_gt in Ef].
  - destruct (head (sort_by stamp_cmp (terminal_stamps jobs))) as [[t oldest]|] eqn:Eh.
    + apply (sort_by_head _ total_stamp_cmp) in Eh as [Hin Hmin].
      apply terminal_stamps_elem in Hin as (s & Hk & Ht & Hc).
      assert (size (delete oldest jobs) = pred (size jobs)) as Sz by (eapply map_size_delete_Some; done).
      assert (size jobs ≠ 0%nat) by (intros E0; apply map_size_empty_inv in E0; subst; done).
      assert (Z.of_nat (size (delete oldest jobs)) < MAX_WASM_JOBS) as Lt by (rewrite Sz; lia).
      specialize (Put _ Lt). specialize (Get (delete oldest jobs)).
      specialize (Ne (delete oldest jobs)). unfold put, put_job in *. cbn [snd] in *. split_and!; try done.
      intros k s' Hne Hk'. rewrite Ne by done. destruct (decide (k = oldest)) as [->|Hko].
      * right. rewrite lookup_delete_eq. rewrite Hk in Hk'. injection Hk' as <-.
        split_and!; [done|lia|done|]. exists t. split; [done|]. intros k2 s2 t2 H2 T2 C2.
        rewrite Forall_forall in Hmin. specialize (Hmin (t2, k2)).
        assert ((t2, k2) ∈ terminal_stamps jobs) as Hin by (apply terminal_stamps_elem; eauto).
        specialize (Hmin Hin). unfold le_by, stamp_cmp in Hmin. cbn [fst] in Hmin.
        destruct (Z.compare_spec t t2); [lia|lia|done].
      * left. by rewrite lookup_delete_ne.
    + apply sort_by_head_None in Eh. split_and!; [done|done|lia|]. intros k s t Hk Hc.
      destruct (is_terminal _) eqn:Et; [|done].
      assert ((t, k) ∈ terminal_stamps jobs) as Hin by (apply terminal_stamps_elem; eauto).
      rewrite Eh in Hin. by apply not_elem_of_nil in Hin.
  - specialize (Put jobs Ef). specialize (Get jobs). specialize (Ne jobs). unfold put, put_job in *. cbn [snd] in *.
    split_and!; try done. intros k s Hne Hk. left. by rewrite Ne.
Qed.

Lemma store_wasm_job_bounded_witness :
  let '(r, jobs') := store_wasm_job demo_store demo_job "k" [] "x" "1" in
  r = Ok "k"%string ∧ Z.of_nat (size jobs') <= MAX_WASM_JOBS.
Proof.
  pose proof (store_wasm_job_bounded demo_store demo_job "k" [] "x" "1" ltac:(vm_compute; discriminate)) as T.
  destruct (store_wasm_job demo_store demo_job "k" [] "x" "1") as [r jobs'] eqn:E.
  split; [|apply T]. change r with (r, jobs').1. rewrite <- E. vm_compute. reflexivity.
Defined.

(** ** The scheduler runs the most urgent job *)

(** The scheduler runs the most urgent pending job: [execute_next] runs a job that
    was pending, of the highest priority among the pending ones, marks it running
    before its handler sees it, changes no other job, and does nothing exactly when no
    job is pending. *)
Theorem execute_next_most_urgent `{JobOrderLaws} s now :
  (∀ id j, js_jobs s !! id = Some j → job_id j = id) →
  match execute_next s now with
  | (None, s') => s' = s ∧ ∀ id j, js_jobs s !! id = Some j → status j ≠ JPending
  | (Some j', s') => ∃ j, js_jobs s !! job_id j = Some j ∧ status j = JPending ∧
      (∀ id j0, js_jobs s !! id = Some j0 → status j0 = JPending →
         priority_order (priority j0) <= priority_order (priority j)) ∧
      j' = match js_handlers s !! job_type j with
           | Some handler => handler (mark_running j now)
           | None => mark_completed (mark_running j now) now "no handler registered"
           end ∧
      s' = set_jobs s (<[job_id j := j']> (js_jobs s))
  end.
Proof.
  intros Hid. unfold execute_next, pending_jobs, jobs_by_status.
  set (cmp := λ a b : Job, _). assert (total_cmp cmp) as Tc.
  { apply (total_cmp_key _ (λ j, - priority_order (priority j))). intros x y. unfold cmp.
    by rewrite Z.compare_opp. }
  assert (Mem : ∀ j, j ∈ filter (λ j, status j = JPending) (job_enum (js_jobs s)) ↔
    status j = JPending ∧ js_jobs s !! job_id j = Some j).
  { intros j. rewrite list_elem_of_filter, job_enum_perm, list_elem_of_fmap. split.
    - intros [Hp ([id j0] & -> & Hin)]. apply elem_of_map_to_list in Hin. cbn [snd] in *.
      split; [done|]. by rewrite (Hid _ _ Hin).
    - intros [Hp Hj]. split; [done|]. exists (job_id j, j). split; [done|]. by apply elem_of_map_to_list. }
  destruct (head (sort_by cmp _)) as [j|] eqn:Eh.
  - apply (sort_by_head _ Tc) in Eh as [Hin Hmin]. apply Mem in Hin as [Hp Hj].
    unfold execute_job. rewrite Hj, bool_decide_true by done. cbv zeta.
    exists j. split_and!; try done. intros id j0 Hj0 P0. rewrite Forall_forall in Hmin.
    assert (j0 ∈ filter (λ j, status j = JPending) (job_enum (js_jobs s))) as Hin.
    { apply Mem. split; [done|]. by rewrite (Hid _ _ Hj0). }
    specialize (Hmin _ Hin). unfold le_by, cmp in Hmin.
    destruct (Z.compare_spec (priority_order (priority j0)) (priority_order (priority j))); [lia|lia|done].
  - apply sort_by_head_None in Eh. split; [done|]. intros id j Hj Hp.
    assert (j ∈ filter (λ j, status j = JPending) (job_enum (js_jobs s))) as Hin.
    { apply Mem. split; [done|]. by rewrite (Hid _ _ Hj). }
    rewrite Eh in Hin. by apply not_elem_of_nil in Hin.
Qed.

Definition demo_scheduler : JobScheduler :=
  (submit (submit JobScheduler_new (Job_new [x00] 0 "a")).2
     (with_priority (Job_new [x01] 0 "b") PCritical)).2.
Definition demo_job_order : JobOrder := λ m, (map_to_list m).*2.
Lemma demo_job_order_laws : @JobOrderLaws demo_job_order.
Proof. intros m. reflexivity. Qed.

Lemma execute_next_most_urgent_witness :
  ∃ j, (@execute_next demo_job_order demo_scheduler 5).1 = Some j ∧ job_id j = [x01] ∧
    ∃ j0, js_jobs demo_scheduler !! job_id j0 = Some j0 ∧ status j0 = JPending ∧ priority j0 = PCritical.
Proof.
  pose proof (@execute_next_most_urgent demo_job_order demo_job_order_laws demo_scheduler 5) as T.
  assert (Hid : ∀ id j, js_jobs demo_scheduler !! id = Some j → job_id j = id).
  { intros id j. unfold demo_scheduler, submit, set_jobs. cbn [snd js_jobs JobScheduler_new].
    rewrite !lookup_insert_Some. rewrite lookup_empty. intros [[<- <-]|[_ [[<- <-]|[_ ?]]]]; done. }
  specialize (T Hid). destruct (@execute_next demo_job_order demo_scheduler 5) as [[j|] s'] eqn:E.
  - exists j. split; [reflexivity|].
    assert (E1 : (@execute_next demo_job_order demo_scheduler 5).1 = Some j) by (rewrite E; reflexivity).
    split; [vm_compute in E1; injection E1 as <-; reflexivity|].
    destruct T as (j0 & H1 & H2 & H3 & _). exists j0. split; [exact H1|]. split; [exact H2|].
    specialize (H3 [x01] (with_priority (Job_new [x01] 0 "b") PCritical) ltac:(vm_compute; reflexivity) eq_refl).
    destruct (priority j0); cbn in H3; [lia|lia|lia|reflexivity].
  - exfalso. destruct T as [_ T].
    apply (T [x01] (with_priority (Job_new [x01] 0 "b") PCritical)); vm_compute; reflexivity.
Defined.
