(* ===== verification/Text.v ===== *)
(** The texts of errors, as the [thiserror] attributes of the crates' error types and
    the messages built where the errors arise give them. [Debug] formatting of values
    and strings is the standard library's and taken as given. *)
From S2P Require Import Prelude Float Value HashMap Schema Core Policy Codec Snapshot Wal GroupCommit Durability Tx Shard.

Local Open Scope Z_scope.

(** [format!("{:?}", v)] *)
Class DebugText : Type := {
  value_debug : value → string;
  str_debug : string → string
}.

Definition schema_error_text (e : schema_error) : string :=
  match e with
  | ColumnNotFound c => "column '" +:+ c +:+ "' not found"
  | ColumnExpects c expected actual => "column '" +:+ c +:+ "' expects " +:+ expected +:+ ", got " +:+ actual
  | PrimaryKeyRequired c => "primary key column '" +:+ c +:+ "' is required"
  | ColumnRequired c => "column '" +:+ c +:+ "' is required"
  | SchemaTableExists t => "table '" +:+ t +:+ "' already exists"
  | SchemaTableNotFound t => "table '" +:+ t +:+ "' not found"
  end.

(** [TypeError] *)
Definition type_error_text (e : type_error) : string :=
  match e with
  | TypeMismatch expected actual => "type mismatch: expected " +:+ expected +:+ ", got " +:+ actual
  | NullValue => "null value encountered where non-null required"
  | InvalidValue why => "invalid value: " +:+ why
  | InvalidId why => "invalid id: " +:+ why
  | SchemaError e => "schema error: " +:+ schema_error_text e
  | Overflow why => "overflow: " +:+ why
  | OutOfRange why => "out of range: " +:+ why
  end.

Section text.
Context `{DebugText}.

Definition dup_key_text (d : dup_key) : string :=
  match d with
  | DupColumn col v => col +:+ "=" +:+ value_debug v
  | DupRow id => "row " +:+ dec id
  end.

(** [CoreError] *)
Definition core_error_text (e : core_error) : string :=
  match e with
  | TableNotFound t => "table not found: " +:+ t
  | TableAlreadyExists t => "table already exists: " +:+ t
  | RowNotFound id => "row not found: " +:+ dec id
  | DuplicateKey d => "duplicate key: " +:+ dup_key_text d
  | ConstraintViolation col =>
      "constraint violation: lookup_by_unique: '" +:+ col +:+
      "' is not unique-indexed (no full scans on hot path)"
  | CoreTypeError e => "type error: " +:+ type_error_text e
  | CoreInternal why => "internal error: " +:+ why
  end.

(** [TxError], raised in transaction [id]. *)
Definition tx_error_text (id : Z) (e : tx_error) : string :=
  match e with
  | TxNotFound why => "transaction not found: " +:+ why
  | TxAlreadyCommitted why => "transaction already committed: " +:+ why
  | TxAlreadyRolledBack why => "transaction already rolled back: " +:+ why
  | ReadWriteConflict k =>
      "conflict detected: read-write conflict on " +:+ k.1 +:+ ":" +:+ dec k.2 +:+ " in transaction " +:+ dec id
  | WriteWriteConflict => "conflict detected: write-write conflict in transaction " +:+ dec id
  | SerializationFailure why => "serialization failure: " +:+ why
  | TxCoreError e => "core error: " +:+ core_error_text e
  | TxTypeError e => "type error: " +:+ type_error_text e
  | TxNotActive => "internal error: transaction is not active"
  end.

(** The messages of [TableSchema::from_json]. *)
Definition schema_json_error_text (e : schema_json_error) : string :=
  let col i := "columns[" +:+ dec (Z.of_nat i) +:+ "]" in
  match e with
  | SchemaNotObject => "schema must be a JSON object"
  | MissingTable => "schema missing string 'table'"
  | BadTableName => "table name must be 1..=128 chars"
  | MissingColumns => "schema missing array 'columns'"
  | BadColumnCount => "columns must list 1..=256 entries"
  | ColNotObject i => col i +:+ " must be an object"
  | ColMissingName i => col i +:+ " missing string 'name'"
  | ColBadName i => col i +:+ ".name must be 1..=128 chars"
  | ColUnknownType i other => col i +:+ " unknown type " +:+ str_debug other
  end.
End text.

(** The strings a [WalSender] refuses with. *)
Definition append_error_text (e : append_error) : string :=
  match e with
  | Backpressure => "WAL backpressure (group full)"
  | WalClosed => "WAL closed"
  end.

(** [s.contains(pat)], [s.starts_with(pat)], [s.strip_prefix(pat)] *)
Fixpoint contains (pat l : list byte) : bool :=
  match strip_prefix pat l with
  | Some _ => true
  | None => match l with [] => false | _ :: l => contains pat l end
  end.
Definition str_contains (s pat : string) : bool := contains (str_bytes pat) (str_bytes s).
Definition starts_with (s pat : string) : bool :=
  bool_decide (is_Some (strip_prefix (str_bytes pat) (str_bytes s))).
Definition str_strip_prefix (s pat : string) : option string :=
  String.string_of_list_byte <$> strip_prefix (str_bytes pat) (str_bytes s).

Definition demo_debug : DebugText := {| value_debug := type_name; str_debug s := s |}.
