(* ===== verification/Wasm.v ===== *)
(** [blitz-jobs/src/executor.rs]: the host side of a sandboxed WASM call - writing the
    input into the guest's memory, calling it with a budget of fuel, reading its answer
    back - and the job that runs it. Wasmtime itself is third-party code. *)
From S2P Require Import Prelude Float Value Sort Schema Query Codec Shard Text Jobs.

Local Open Scope Z_scope.

(** ** Errors *)

Inductive wasm_error : Type :=
| JobError (text : string)
| InternalError (text : string)
| BadModule (text : string)
| BadSignature (text : string)
| GuestTrap (text : string)
| FuelExhausted (units : Z).

Definition wasm_error_text (e : wasm_error) : string :=
  match e with
  | JobError t => "job error: " +:+ t
  | InternalError t => "internal error: " +:+ t
  | BadModule t => "bad module: " +:+ t
  | BadSignature t => "bad signature: " +:+ t
  | GuestTrap t => "guest trap: " +:+ t
  | FuelExhausted n => "fuel exhausted after " +:+ dec n +:+ " units"
  end.

(** ** Wasmtime *)

(** An error of wasmtime: its text alone, and with its causes ([{:#}]). *)
Record trap_text : Type := MkTrap { tr_top : string; tr_chain : string }.

Class Wasmtime : Type := {
  wt_module : Type;
  wt_memory : Type;
  wt_data : wt_memory → list byte;
  wt_write : wt_memory → Z → list byte → result string wt_memory;
  wt_read : wt_memory → Z → Z → result string (list byte);
  (** [Memory::grow] by pages, in a store limited to so many bytes. *)
  wt_grow : Z → wt_memory → Z → result string wt_memory;
  wt_compile : list byte → result string wt_module;
  (** Instantiation in a store limited to so many bytes: the exported memory, and the
      exported function if its type is right: fuel, memory and two arguments to an [i64]
      and the memory after the call. *)
  wt_instantiate : Z → wt_module → result string
    (option wt_memory * option (Z → wt_memory → Z → Z → result trap_text Z * wt_memory))
}.

Definition PAGE : Z := 65536.
Definition mem_size `{Wasmtime} (m : wt_memory) : Z := Z.of_nat (length (wt_data m)).

(** What wasmtime documents: writes and reads succeed exactly within the memory, growing
    appends zeroed pages and, like the guest itself, never passes the limit of the store;
    a guest cannot shrink its memory. *)
Class WasmtimeLaws `{Wasmtime} : Prop := {
  wt_write_ok m off bs m' : wt_write m off bs = Ok m' →
    off + Z.of_nat (length bs) <= mem_size m ∧
    wt_data m' = firstn (Z.to_nat off) (wt_data m) ++ bs ++ skipn (Z.to_nat off + length bs) (wt_data m);
  wt_read_ok m off n bs : wt_read m off n = Ok bs →
    off + n <= mem_size m ∧ bs = firstn (Z.to_nat n) (skipn (Z.to_nat off) (wt_data m));
  wt_grow_ok cap m k m' : wt_grow cap m k = Ok m' →
    wt_data m' = wt_data m ++ replicate (Z.to_nat (k * PAGE)) (Z_byte 0) ∧ mem_size m' <= cap;
  wt_limited cap md m run : wt_instantiate cap md = Ok (Some m, Some run) →
    mem_size m <= cap ∧ ∀ fuel m p l, mem_size m <= cap → mem_size (run fuel m p l).2 <= cap
}.

(** The text of the standard library's [FromUtf8Error]. *)
Class Utf8ErrorText : Type := utf8_error_text : list byte → string.

(** ** The executor *)

Definition DEFAULT_FUEL : Z := 10000000.
Definition DEFAULT_MEMORY_MAX : Z := 4 * 1024 * 1024.
Definition INPUT_BASE : Z := 0.

Record WasmExecutor : Type := MkExecutor { ex_fuel : Z; ex_memory_max : Z }.
Definition with_limits (fuel memory_max : Z) : WasmExecutor := MkExecutor fuel memory_max.
Definition WasmExecutor_new : WasmExecutor := with_limits DEFAULT_FUEL DEFAULT_MEMORY_MAX.

Definition quoted (s : string) : string :=
  let q := String.string_of_list_byte [Z_byte 34] in q +:+ s +:+ q.
Definition div_ceil (a b : Z) : Z := (a + b - 1) / b.

Section executor.
Context `{Wasmtime} `{Lowercase} `{Utf8ErrorText}.
Implicit Types (ex : WasmExecutor) (m : wt_memory).

Definition compile (wasm : list byte) : result wasm_error wt_module := map_err BadModule (wt_compile wasm).

Definition ensure ex m (end_ : Z) : result wasm_error wt_memory :=
  let have := mem_size m in
  if end_ <=? have then Ok m
  else
    let need := div_ceil end_ PAGE - div_ceil have PAGE in
    map_err (λ e, GuestTrap ("memory grow: " +:+ e)) (wt_grow (ex_memory_max ex) m need).

Definition write_input ex m (input : list byte) : result wasm_error wt_memory :=
  let end_ := INPUT_BASE + Z.of_nat (length input) in
  m ← ensure ex m end_;
  map_err (λ e, GuestTrap ("input write: " +:+ e)) (wt_write m INPUT_BASE input).

Definition read_output ex m (ptr len : Z) : result wasm_error string :=
  if ex_memory_max ex <? len then Err (GuestTrap ("output too large: " +:+ dec len))
  else
    m ← ensure ex m (Z.min (2 ^ 64 - 1) (ptr + len));
    buf ← map_err (λ e, GuestTrap ("output read: " +:+ e)) (wt_read m ptr len);
    if utf8_valid buf then Ok (bytes_str buf) else Err (GuestTrap ("output not UTF-8: " +:+ utf8_error_text buf)).

(** The trap of a call: fuel exhaustion is known by its text. *)
Definition trap ex (e : trap_text) : wasm_error :=
  let chain := to_lowercase (tr_chain e) +:+ to_lowercase (tr_top e) in
  if str_contains chain "fuel" || str_contains chain "out of gas" then FuelExhausted (ex_fuel ex)
  else GuestTrap (tr_chain e).

(** The packed answer: [(packed >> 32) as usize] shifts in the sign, the low half does not. *)
Definition out_ptr (packed : Z) : Z := wrap 64 (Z.shiftr packed 32).
Definition out_len (packed : Z) : Z := Z.land packed (2 ^ 32 - 1).

Definition run ex (md : wt_module) (input : string) : result wasm_error string :=
  instance ← map_err (λ e, BadModule ("instantiate: " +:+ e)) (wt_instantiate (ex_memory_max ex) md);
  memory ← ok_or instance.1 (BadSignature ("missing exported memory " +:+ quoted "memory"));
  run ← ok_or instance.2 (BadSignature ("missing exported run(i32,i32)->i64 " +:+ quoted "run"));
  let input_bytes := str_bytes input in
  memory ← write_input ex memory input_bytes;
  let '(answer, memory) := run (ex_fuel ex) memory INPUT_BASE (sign 32 (wrap 32 (Z.of_nat (length input_bytes)))) in
  packed ← map_err (trap ex) answer;
  read_output ex memory (out_ptr packed) (out_len packed).

Definition run_bytes ex (wasm : list byte) (input : string) : result wasm_error string :=
  md ← compile wasm; run ex md input.

(** [run_job]: one attempt at a job, from [start] to [end_]. *)
Definition wasm_attempt ex (wasm : list byte) (input : string) (start end_ : Z) : Attempt :=
  MkAttempt start end_ (map_err wasm_error_text (run_bytes ex wasm input)).
Definition run_guest_job ex (wasm : list byte) (input : string) (start end_ : Z) (j : Job) : bool * Job :=
  run_job (wasm_attempt ex wasm input start end_) j.
End executor.

(** ** What the host does to a guest, and a guest to the host *)

Section contained.
Context `{WasmtimeLaws} `{Lowercase} `{Utf8ErrorText}.
Implicit Types (ex : WasmExecutor) (m : wt_memory).

Lemma map_err_Err {E F A} (f : E → F) (r : result E A) e : map_err f r = Err e → ∃ e', r = Err e' ∧ e = f e'.
Proof. destruct r; naive_solver. Qed.

Definition zeros (n : nat) : list byte := replicate n (Z_byte 0).

Lemma ensure_Ok ex m end_ m' : ensure ex m end_ = Ok m' →
  (∃ pad, wt_data m' = wt_data m ++ zeros pad) ∧ (mem_size m <= ex_memory_max ex → mem_size m' <= ex_memory_max ex).
Proof.
  unfold ensure. cbv zeta. destruct (end_ <=? mem_size m).
  - intros [= <-]. split; [exists O; by rewrite app_nil_r|done].
  - intros (E & S)%map_err_Ok%wt_grow_ok. split; [by eexists|done].
Qed.

Lemma write_input_Ok ex m input m' : write_input ex m input = Ok m' →
  mem_size m <= ex_memory_max ex →
  (∃ pad, wt_data m' = input ++ skipn (length input) (wt_data m ++ zeros pad)) ∧
  Z.of_nat (length input) <= mem_size m' <= ex_memory_max ex.
Proof.
  unfold write_input. cbv zeta. intros (m1 & (P & S)%ensure_Ok & W)%result_bind_Ok Hm.
  apply map_err_Ok, wt_write_ok in W as (L & E). unfold INPUT_BASE in *.
  change (Z.to_nat 0) with O in E. rewrite firstn_O in E. cbn [app Nat.add] in E. specialize (S Hm). destruct P as [pad P].
  assert (mem_size m' = mem_size m1) as Es.
  { unfold mem_size in *. rewrite E, !length_app, length_drop. lia. }
  split; [exists pad; by rewrite E, P|]. lia.
Qed.

Lemma read_output_Ok ex m ptr len out : 0 <= ptr → 0 <= len → mem_size m <= ex_memory_max ex →
  read_output ex m ptr len = Ok out →
  (∃ pad, str_bytes out = firstn (Z.to_nat len) (skipn (Z.to_nat ptr) (wt_data m ++ zeros pad))) ∧
  Z.of_nat (length (str_bytes out)) = len ∧ ptr + len <= ex_memory_max ex ∧ utf8_valid (str_bytes out) = true.
Proof.
  unfold read_output. intros Hp Hl Hm. destruct (_ <? _); [done|].
  intros (m1 & ([pad P] & S)%ensure_Ok & R)%result_bind_Ok. apply result_bind_Ok in R as (buf & R & U).
  apply map_err_Ok, wt_read_ok in R as (L & ->). destruct (utf8_valid _) eqn:V; [|done]. injection U as <-.
  specialize (S Hm). rewrite str_bytes_str. split_and!; [exists pad; by rewrite P| |lia|exact V].
  rewrite length_firstn, length_drop. unfold mem_size in L. lia.
Qed.

(** C26: A call is contained. Whatever the module and its answer, the guest is called with
    exactly the configured fuel, on a memory that begins with the input and is otherwise
    its own, extended by zeroes; no memory passes the limit; and an answer the host accepts
    is valid UTF-8 and exactly the bytes the guest pointed at, in the guest's memory
    extended by zeroes, wholly within the limit, whatever pointer and length it packed.
    This is for limits below 2^31 bytes; the default is 4 MiB. *)
Theorem guest_is_contained ex md input out :
  ex_memory_max ex < 2 ^ 31 → run ex md input = Ok out →
  ∃ m0 call m_in packed m1,
    wt_instantiate (ex_memory_max ex) md = Ok (Some m0, Some call) ∧
    (∃ pad, wt_data m_in = str_bytes input ++ skipn (length (str_bytes input)) (wt_data m0 ++ zeros pad)) ∧
    call (ex_fuel ex) m_in 0 (Z.of_nat (length (str_bytes input))) = (Ok packed, m1) ∧
    mem_size m_in <= ex_memory_max ex ∧ mem_size m1 <= ex_memory_max ex ∧
    (∃ pad, str_bytes out =
       firstn (Z.to_nat (out_len packed)) (skipn (Z.to_nat (out_ptr packed)) (wt_data m1 ++ zeros pad))) ∧
    Z.of_nat (length (str_bytes out)) = out_len packed ∧ out_ptr packed + out_len packed <= ex_memory_max ex ∧
    utf8_valid (str_bytes out) = true.
Proof.
  intros Cap R. unfold run in R. apply result_bind_Ok in R as ([om oc] & I%map_err_Ok & R). cbn [fst snd] in R.
  apply result_bind_Ok in R as (m0 & ->%ok_or_Ok & R). apply result_bind_Ok in R as (call & ->%ok_or_Ok & R).
  destruct (wt_limited _ _ _ _ I) as [Lim0 Lim].
  apply result_bind_Ok in R as (m_in & W & R). destruct (write_input_Ok _ _ _ _ W Lim0) as (Pin & Lin).
  rewrite wrap_small in R by lia. rewrite <- (Z.mod_small (Z.of_nat _) (2 ^ 32)), sign_mod in R by (lia || apply is_sint_spec; lia). specialize (Lim (ex_fuel ex) m_in INPUT_BASE (Z.of_nat (length (str_bytes input))) ltac:(lia)).
  destruct (call _ _ _ _) as [answer m1] eqn:C. cbn [snd] in Lim.
  apply result_bind_Ok in R as (packed & A%map_err_Ok & R). subst answer.
  apply read_output_Ok in R as (Pout & Lout & Bout & Vout); [|unfold out_ptr; apply wrap_range; lia|unfold out_len|done].
  - exists m0, call, m_in, packed, m1. split_and!; try done; lia.
  - change (2 ^ 32 - 1) with (Z.ones 32). rewrite Z.land_ones by lia. apply Z.mod_pos_bound. lia.
Qed.

(** A call that fails says why: the module did not compile or instantiate, it lacks the
    contract, the guest ran out of its fuel, or it trapped - never anything else. *)
Theorem guest_errors ex wasm input e :
  run_bytes ex wasm input = Err e →
  match e with
  | BadModule _ => (∃ why, wt_compile wasm = Err why) ∨
      ∃ md why, wt_compile wasm = Ok md ∧ wt_instantiate (ex_memory_max ex) md = Err why
  | BadSignature _ => ∃ md i, wt_compile wasm = Ok md ∧ wt_instantiate (ex_memory_max ex) md = Ok i ∧ (i.1 = None ∨ i.2 = None)
  | FuelExhausted n => n = ex_fuel ex
  | GuestTrap _ => True
  | JobError _ | InternalError _ => False
  end.
Proof.
  assert (∀ (A : Type) m end_ (e : wasm_error), ensure ex m end_ = Err e → ∃ t, e = GuestTrap t) as En.
  { intros A m end_ e'. unfold ensure. cbv zeta. destruct (_ <=? _); [done|].
    intros (? & _ & ->)%map_err_Err. by eexists. }
  unfold run_bytes, compile. destruct (wt_compile wasm) as [md|why] eqn:C; cbn [map_err mbind result_bind];
    [|intros [= <-]; left; by exists why].
  unfold run. destruct (wt_instantiate (ex_memory_max ex) md) as [[om oc]|why] eqn:I; cbn [map_err mbind result_bind fst snd];
    [|intros [= <-]; right; by exists md, why].
  destruct om as [m0|]; cbn [ok_or mbind result_bind]; [|intros [= <-]; exists md, (None, oc); auto].
  destruct oc as [call|]; cbn [ok_or mbind result_bind]; [|intros [= <-]; exists md, (Some m0, None); auto].
  destruct (write_input ex m0 (str_bytes input)) as [m_in|e1] eqn:Wi; cbn [mbind result_bind].
  2: { intros [= <-]. unfold write_input in Wi. cbv zeta in Wi. apply result_bind_Err in Wi as [W|(m1 & _ & W)].
       - apply (En unit) in W as [t ->]. done.
       - by apply map_err_Err in W as (? & _ & ->). }
  destruct (call _ _ _ _) as [[packed|tr] m1]; cbn [map_err mbind result_bind].
  2: { intros [= <-]. unfold trap. cbv zeta. by destruct (_ || _). }
  unfold read_output. destruct (_ <? _); [by intros [= <-]|].
  intros [W|(m2 & _ & W)]%result_bind_Err; [by apply (En unit) in W as [t ->]|].
  apply result_bind_Err in W as [W|(buf & _ & W)]; [by apply map_err_Err in W as (? & _ & ->)|].
  destruct (utf8_valid buf); [done|by injection W as <-].
Qed.

(** A stored job runs its guest. The job of a guest that answers is completed with the
    answer at the first attempt; the one of a guest that fails ends, after all its retries,
    with the text of the failure, failed without retries and pending with them; either way
    what is stored is what is returned. *)
Theorem stored_job_runs_its_guest ex times jobs now id stored fuel :
  jobs !! id = Some stored → retry_count (sw_job stored) = 0 → 0 <= max_retries (sw_job stored) →
  Z.max 1 (max_retries (sw_job stored)) <= Z.of_nat fuel →
  let attempts (n : nat) := wasm_attempt ex (sw_wasm stored) (sw_input stored) (times n).1 (times n).2 in
  ∃ job jobs', run_wasm_job fuel jobs now None attempts id = Some (Some job, jobs') ∧
    get_wasm_job jobs' id = Some job ∧
    match run_bytes ex (sw_wasm stored) (sw_input stored) with
    | Ok out => status job = JCompleted ∧ job_result job = Some out ∧ retry_count job = 0
    | Err e => job_error job = Some (wasm_error_text e) ∧ retry_count job = max_retries (sw_job stored) ∧
        status job = if 0 <? max_retries (sw_job stored) then JPending else JFailed
    end.
Proof.
  intros Es Er Hm Hf attempts. unfold run_wasm_job. rewrite Es.
  destruct (run_loop_spec attempts fuel 0 (mark_running (sw_job stored) now)) as (k & j' & -> & Lk & Hk & Ho);
    [unfold tries; simpl; lia|].
  cbn [mbind option_bind]. exists j'. eexists. split; [done|]. split.
  { eapply set_stored_get. unfold set_stored. rewrite Es. apply lookup_insert_eq. }
  change (at_outcome (attempts (0 + k)%nat)) with (map_err wasm_error_text (run_bytes ex (sw_wasm stored) (sw_input stored))) in Ho.
  cbn [retry_count max_retries completed_at mark_running] in Ho. rewrite Er in Ho. rewrite (Z.max_r 0) in Ho by done.
  destruct (run_bytes ex _ _) as [out|e] eqn:Eo; cbn [map_err] in Ho.
  - destruct Ho as (S & R & C). destruct k as [|k]; [by rewrite C|]. exfalso.
    specialize (Hk O ltac:(lia)). unfold attempts, wasm_attempt in Hk. cbn [at_outcome] in Hk. by rewrite Eo in Hk.
  - destruct Ho as (_ & He & Hr & Hs). split; [done|]. split; [done|]. destruct (0 <? _); by destruct Hs.
Qed.
End contained.

(** ** A concrete guest *)

Definition splice (m : list byte) (off : Z) (bs : list byte) : result string (list byte) :=
  if off + Z.of_nat (length bs) <=? Z.of_nat (length m)
  then Ok (firstn (Z.to_nat off) m ++ bs ++ skipn (Z.to_nat off + length bs) m) else Err "out of bounds"%string.

(** A module with one page, whose guest answers by [answer]. *)
Definition demo_wasmtime (answer : Z → Z → result trap_text Z) : Wasmtime := {|
  wt_module := (); wt_memory := list byte; wt_data := id; wt_write := splice;
  wt_read m off n := if off + n <=? Z.of_nat (length m) then Ok (firstn (Z.to_nat n) (skipn (Z.to_nat off) m)) else Err "out of bounds"%string;
  wt_grow cap m k :=
    let m := m ++ replicate (Z.to_nat (k * PAGE)) (Z_byte 0) in
    if Z.of_nat (length m) <=? cap then Ok m else Err "limit"%string;
  wt_compile wasm := if bool_decide (wasm = []) then Err "empty"%string else Ok ();
  wt_instantiate cap _ :=
    if PAGE <=? cap then Ok (Some (replicate (Z.to_nat PAGE) (Z_byte 0)), Some (λ _ m p l, (answer p l, m))) else Err "limit"%string
|}.
Lemma demo_wasmtime_laws answer : @WasmtimeLaws (demo_wasmtime answer).
Proof.
  split; unfold mem_size; cbn -[PAGE].
  - intros m off bs m'. unfold splice. destruct (Z.leb_spec (off + Z.of_nat (length bs)) (Z.of_nat (length m))); [|done].
    by intros [= <-].
  - intros m off n bs. destruct (Z.leb_spec (off + n) (Z.of_nat (length m))); [|done]. by intros [= <-].
  - intros cap m k m'. generalize (m ++ replicate (Z.to_nat (k * PAGE)) (Z_byte 0)). intros l. cbv zeta.
    destruct (Z.leb_spec (Z.of_nat (length l)) cap); [|done]. by intros [= <-].
  - intros cap md m run. destruct (Z.leb_spec PAGE cap) as [L|L]; [|done].
    assert (Z.of_nat (length (replicate (Z.to_nat PAGE) (Z_byte 0))) <= cap) as P
      by (rewrite length_replicate, Z2Nat.id by done; exact L).
    revert P. generalize (replicate (Z.to_nat PAGE) (Z_byte 0)). intros page P [= <- <-]. by split.
Qed.
Definition echo (p l : Z) : result trap_text Z := Ok (Z.lor (Z.shiftl p 32) l).
#[local] Instance demo_lowercase_id : Lowercase := λ s, s.
#[local] Instance demo_utf8_text : Utf8ErrorText := λ _, "invalid utf-8 sequence"%string.

Lemma guest_is_contained_witness :
  @run (demo_wasmtime echo) _ _ WasmExecutor_new () "hi" = Ok "hi"%string ∧
  ∃ m0 call m_in packed m1,
    @wt_instantiate (demo_wasmtime echo) DEFAULT_MEMORY_MAX () = Ok (Some m0, Some call) ∧
    call DEFAULT_FUEL m_in 0 2 = (Ok packed, m1) ∧ out_ptr packed + out_len packed <= DEFAULT_MEMORY_MAX.
Proof.
  assert (@run (demo_wasmtime echo) _ _ WasmExecutor_new () "hi" = Ok "hi"%string) as R by (vm_compute; reflexivity).
  split; [exact R|].
  destruct (@guest_is_contained (demo_wasmtime echo) (demo_wasmtime_laws echo) _ _ WasmExecutor_new () "hi" "hi" ltac:(reflexivity) R)
    as (m0 & call & m_in & packed & m1 & I & _ & C & _ & _ & _ & _ & B & _).
  exists m0, call, m_in, packed, m1. split; [exact I|]. split; [exact C|exact B].
Defined.

Lemma guest_errors_witness :
  @run_bytes (demo_wasmtime (λ _ _, Err (MkTrap "wasm trap" "all fuel consumed"))) _ _ WasmExecutor_new ["a"%byte] "" = Err (FuelExhausted DEFAULT_FUEL) ∧
  DEFAULT_FUEL = ex_fuel WasmExecutor_new.
Proof.
  assert (@run_bytes (demo_wasmtime (λ _ _, Err (MkTrap "wasm trap" "all fuel consumed"))) _ _ WasmExecutor_new ["a"%byte] "" = Err (FuelExhausted DEFAULT_FUEL))
    as R by (vm_compute; reflexivity).
  split; [exact R|]. exact (@guest_errors _ _ _ WasmExecutor_new ["a"%byte] "" _ R).
Defined.

Lemma stored_job_runs_its_guest_witness :
  ∃ job jobs', run_wasm_job 3 {["j"%string := MkStored demo_job ["a"%byte] "in"]} 0 None
      (λ n : nat, @wasm_attempt (demo_wasmtime echo) _ _ WasmExecutor_new ["a"%byte] "in" (Z.of_nat n) (Z.of_nat n)) "j" = Some (Some job, jobs') ∧
    status job = JCompleted ∧ job_result job = Some "in"%string.
Proof.
  destruct (@stored_job_runs_its_guest (demo_wasmtime echo) _ _ WasmExecutor_new (λ n, (Z.of_nat n, Z.of_nat n))
    {["j"%string := MkStored demo_job ["a"%byte] "in"]} 0 "j" (MkStored demo_job ["a"%byte] "in") 3) as (job & jobs' & R & _ & O);
    [reflexivity|reflexivity|simpl; lia|simpl; lia|].
  exists job, jobs'. split; [exact R|].
  assert (@run_bytes (demo_wasmtime echo) _ _ WasmExecutor_new ["a"%byte] "in" = Ok "in"%string) as E by (vm_compute; reflexivity).
  cbn [sw_wasm sw_input] in O. rewrite E in O. destruct O as (S & Out & _). split; [exact S|exact Out].
Defined.

(** A guest that points outside its memory, but within the limit, is answered for: the host
    grows the memory and returns the zeroes. *)
Example stray_pointer_reads_zeroes :
  @run (demo_wasmtime (λ _ _, Ok (Z.lor (Z.shiftl 100000 32) 2))) _ _ WasmExecutor_new () "" =
    Ok (bytes_str [Z_byte 0; Z_byte 0]).
Proof. by vm_compute. Qed.
