(* ===== verification/Runtime.v ===== *)
(** [blitz-runtime]: stored procedures ([function.rs]), the transactional runner
    ([runner.rs]) over an abstract backend, the pure executor ([executor.rs]), and
    deploy-time validation ([deploy.rs]). *)
From S2P Require Import Prelude Float Value HashMap Schema Core Policy Codec Snapshot GroupCommit Durability Tx Shard Query Text Changes.

Local Open Scope Z_scope.

(** ** [Display] of values; floats, times and Unicode case are the libraries' *)

Class DisplayText : Type := {
  f32_display : Z → string;
  f64_display : Z → string;
  timestamp_display : Z → string;
  to_uppercase : string → string
}.

Definition dec_signed (n : Z) : string := if n <? 0 then "-" +:+ dec (- n) else dec n.

Section display.
Context `{JsonText} `{ValueText} `{DisplayText}.

Fixpoint value_display (v : value) : string :=
  match v with
  | VBoolean b => if b then "true" else "false"
  | VInt8 n | VInt16 n | VInt32 n | VInt64 n => dec_signed n
  | VUInt8 n | VUInt16 n | VUInt32 n | VUInt64 n => dec n
  | VFloat32 b => f32_display b
  | VFloat64 b => f64_display b
  | VDecimal s | VString s => s
  | VBytes b => "<" +:+ dec (Z.of_nat (length b)) +:+ " bytes>"
  | VUuid u => uuid_to_string u
  | VTimestamp t => timestamp_display t
  | VDate d => date_to_string d
  | VJson j => json_to_string j
  | VArray items =>
      "[" +:+ (fix go (first : bool) (l : list value) : string :=
                 match l with
                 | [] => "]"
                 | item :: l => (if first then "" else ", ") +:+ value_display item +:+ go false l
                 end) true items
  | VNull => "NULL"
  end.
End display.

(** ** Errors, conditions, steps *)

Inductive runtime_error : Type :=
| FunctionNotFound (name : string)
| ExecutionError (why : string)
| ArgumentError (why : string)
| RtInternal (why : string)
| Aborted (message : string)
| FuelExhausted (burned : Z).

Definition runtime_error_text (e : runtime_error) : string :=
  match e with
  | FunctionNotFound n => "function not found: " +:+ n
  | ExecutionError w => "execution error: " +:+ w
  | ArgumentError w => "argument error: " +:+ w
  | RtInternal w => "internal error: " +:+ w
  | Aborted m => "aborted: " +:+ m
  | FuelExhausted n => "fuel exhausted after " +:+ dec n +:+ " steps"
  end.

Inductive Condition : Type :=
| CEquals (var : string) (v : value)
| CNotEquals (var : string) (v : value)
| CIsNotNull (var : string)
| CGreaterOrEqual (var : string) (v : value)
| CLessThan (var : string) (v : value)
| CAll (cs : list Condition)
| CAny (cs : list Condition).

Inductive ProcedureStep : Type :=
| SCallFunction (function : string) (args : values)
| SSetVariable (name : string) (v : value)
| SIf (condition : Condition) (then_steps else_steps : list ProcedureStep)
| SRead (table : string) (id : value) (into : string)
| SInsert (table : string) (vs : values) (into : string)
| SUpdate (table : string) (id : value) (vs : values)
| SDelete (table : string) (id : value)
| SReturn (v : value)
| SFail (message : string).

Record Procedure : Type := MkProcedure {
  proc_name : string;
  description : string;
  steps : list ProcedureStep
}.
Definition Procedure_new (name : string) : Procedure := MkProcedure name "" [].
Definition with_description (p : Procedure) (d : string) : Procedure := MkProcedure (proc_name p) d (steps p).
Definition with_step (p : Procedure) (s : ProcedureStep) : Procedure :=
  MkProcedure (proc_name p) (description p) (steps p ++ [s]).

(** ** Functions *)

Abbreviation FunctionRegistry := (gmap string (values → result runtime_error value)).

Definition fn_execute (r : FunctionRegistry) (name : string) (args : values) : result runtime_error value :=
  match r !! name with
  | Some func => func args
  | None => Err (FunctionNotFound name)
  end.

Definition FunctionRegistry_new : FunctionRegistry := ∅.
Definition fn_register (r : FunctionRegistry) (name : string) (func : values → result runtime_error value) : FunctionRegistry :=
  <[name := func]> r.
Definition fn_has (r : FunctionRegistry) (name : string) : bool := bool_decide (is_Some (r !! name)).

Section builtins.
Context `{JsonText} `{ValueText} `{DisplayText} `{Lowercase}.

Definition first_arg (args : values) : result runtime_error value :=
  ok_or (match args !! "0"%string with Some v => Some v | None => args !! "value"%string end)
    (ArgumentError "expected 'value' argument").

Definition now_fn (now : Z) (_ : values) : result runtime_error value := Ok (VTimestamp now).

(** The loop over the arguments ["0"], ["1"], ...: it stops at the first missing one, so
    one turn per argument is enough. *)
Fixpoint concat_loop (fuel : nat) (i : Z) (args : values) (acc : string) : string :=
  match fuel with
  | O => acc
  | S fuel =>
      match args !! dec i with
      | Some (VString s) => concat_loop fuel (i + 1) args (acc +:+ s)
      | Some v => concat_loop fuel (i + 1) args (acc +:+ value_display v)
      | None => acc
      end
  end.
Definition concat_fn (args : values) : result runtime_error value :=
  Ok (VString (concat_loop (S (size args)) 0 args "")).

Definition upper_fn (args : values) : result runtime_error value :=
  v ← first_arg args;
  match v with VString s => Ok (VString (to_uppercase s)) | _ => Err (ArgumentError "expected string") end.
Definition lower_fn (args : values) : result runtime_error value :=
  v ← first_arg args;
  match v with VString s => Ok (VString (to_lowercase s)) | _ => Err (ArgumentError "expected string") end.
Definition len_fn (args : values) : result runtime_error value :=
  v ← first_arg args;
  match v with
  | VString s => Ok (VInt64 (Z.of_nat (length (str_bytes s))))
  | VArray a => Ok (VInt64 (Z.of_nat (length a)))
  | _ => Err (ArgumentError "expected string or array")
  end.

(** [i64::abs] wraps on [MIN] in a release build; [f64::abs] clears the sign bit. *)
Definition abs_fn (args : values) : result runtime_error value :=
  v ← first_arg args;
  match v with
  | VInt64 n => Ok (VInt64 (sign 64 (Z.abs n)))
  | VFloat64 b => Ok (VFloat64 (b mod 2 ^ 63))
  | VInt32 n => Ok (VInt32 (sign 32 (Z.abs n)))
  | VFloat32 b => Ok (VFloat32 (b mod 2 ^ 31))
  | _ => Err (ArgumentError "expected numeric")
  end.

Fixpoint coalesce_loop (fuel : nat) (i : Z) (args : values) : value :=
  match fuel with
  | O => VNull
  | S fuel =>
      match args !! dec i with
      | Some v => if is_null v then coalesce_loop fuel (i + 1) args else v
      | None => VNull
      end
  end.
Definition coalesce_fn (args : values) : result runtime_error value :=
  Ok (coalesce_loop (S (size args)) 0 args).

(** [register_builtins]; [now] is the clock of the call. *)
Definition register_builtins (now : Z) (r : FunctionRegistry) : FunctionRegistry :=
  <["coalesce" := coalesce_fn]> (<["abs" := abs_fn]> (<["len" := len_fn]> (<["lower" := lower_fn]>
    (<["upper" := upper_fn]> (<["concat" := concat_fn]> (<["now" := now_fn now]> r)))))).
End builtins.

(** ** Variables and conditions, shared by the runner and the executor *)

(** [$name] *)
Definition var_ref (s : string) : option string := str_strip_prefix s "$".

Section conditions.
Context `{JsonText}.

Definition resolve (vars : values) (v : value) : value :=
  match v with
  | VString s => match var_ref s with Some x => default VNull (vars !! x) | None => v end
  | _ => v
  end.

Fixpoint evaluate (vars : values) (c : Condition) : bool :=
  match c with
  | CEquals x e => match vars !! x with Some v => value_eqb v (resolve vars e) | None => false end
  | CNotEquals x e => match vars !! x with Some v => negb (value_eqb v (resolve vars e)) | None => false end
  | CIsNotNull x => match vars !! x with Some v => negb (is_null v) | None => false end
  | CGreaterOrEqual x e =>
      match vars !! x with Some v => negb (value_ltb v (resolve vars e)) | None => false end
  | CLessThan x e => match vars !! x with Some v => value_ltb v (resolve vars e) | None => false end
  | CAll cs => forallb (evaluate vars) cs
  | CAny cs => existsb (evaluate vars) cs
  end.
End conditions.

(** ** The backend of a call *)

Class ProcedureBackend (B : Type) : Type := {
  be_read : B → string → Z → result runtime_error (option values) * B;
  be_insert : B → string → values → result runtime_error () * B;
  be_update : B → string → Z → values → result runtime_error () * B;
  be_delete : B → string → Z → result runtime_error () * B;
  be_call_function : B → string → values → result runtime_error value
}.

(** ** The transactional runner *)

Definition DEFAULT_FUEL : Z := 10000.

Inductive Flow : Type := Next (v : value) | Return (v : value).

Section runner.
Context `{JsonText} `{ValueText} `{DisplayText} `{DebugText} {B : Type} `{ProcedureBackend B}.

Record Runner : Type := MkRunner {
  r_backend : B;
  r_vars : values;
  r_fuel : Z;
  r_burned : Z
}.
Definition set_backend (r : Runner) (b : B) : Runner := MkRunner b (r_vars r) (r_fuel r) (r_burned r).
Definition set_var (r : Runner) (x : string) (v : value) : Runner :=
  MkRunner (r_backend r) (<[x := v]> (r_vars r)) (r_fuel r) (r_burned r).

Definition charge (r : Runner) : result runtime_error () * Runner :=
  let r := MkRunner (r_backend r) (r_vars r) (r_fuel r) (wrap 64 (r_burned r + 1)) in
  (if r_fuel r <? r_burned r then Err (FuelExhausted (r_burned r)) else Ok (), r).

Definition resolve_id (r : Runner) (v : value) : result runtime_error Z :=
  let other o := Err (ArgumentError ("row id must be a non-negative integer, got " +:+ value_debug o)) in
  match resolve (r_vars r) v with
  | VUInt64 n => Ok n
  | VInt64 n => if 0 <=? n then Ok n else other (VInt64 n)
  | VUInt32 n => Ok n
  | VInt32 n => if 0 <=? n then Ok n else other (VInt32 n)
  | o => other o
  end.

(** [into.#id], then a variable [into.col] per column. *)
Definition bind_row (into : string) (row_id : Z) (row : values) (vars : values) : values :=
  map_fold (λ k v m, <[into +:+ "." +:+ k := v]> m) (<[into +:+ ".#id" := VUInt64 row_id]> vars) row.

Definition fail_message (vars : values) (message : string) : string :=
  match var_ref message with
  | Some x => match vars !! x with Some v => value_display v | None => message end
  | None => message
  end.

Fixpoint run_step (s : ProcedureStep) (r : Runner) : result runtime_error Flow * Runner :=
  let run_steps :=
    (fix go (ss : list ProcedureStep) (last : value) (r : Runner) : result runtime_error value * Runner :=
       match ss with
       | [] => (Ok last, r)
       | s :: ss =>
           match charge r with
           | (Err e, r) => (Err e, r)
           | (Ok _, r) =>
               match run_step s r with
               | (Ok (Next v), r) => go ss v r
               | (Ok (Return v), r) => (Ok v, r)
               | (Err e, r) => (Err e, r)
               end
           end
       end) in
  match s with
  | SSetVariable name v =>
      let v := resolve (r_vars r) v in (Ok (Next v), set_var r name v)
  | SCallFunction function args =>
      (Next <$> be_call_function (r_backend r) function (resolve (r_vars r) <$> args), r)
  | SIf condition then_steps else_steps =>
      let '(v, r) := if evaluate (r_vars r) condition then run_steps then_steps VNull r
                     else run_steps else_steps VNull r in
      (Next <$> v, r)
  | SRead table id into =>
      match resolve_id r id with
      | Err e => (Err e, r)
      | Ok row_id =>
          let '(row, b) := be_read (r_backend r) table row_id in
          let r := set_backend r b in
          match row with
          | Err e => (Err e, r)
          | Ok None => (Err (ExecutionError ("row not found: " +:+ table +:+ ":" +:+ dec row_id)), r)
          | Ok (Some row) =>
              (Ok (Next (VUInt64 row_id)),
               MkRunner (r_backend r) (bind_row into row_id row (r_vars r)) (r_fuel r) (r_burned r))
          end
      end
  | SInsert table vs into =>
      let '(res, b) := be_insert (r_backend r) table (resolve (r_vars r) <$> vs) in
      let r := set_backend r b in
      match res with
      | Err e => (Err e, r)
      | Ok _ => (Ok (Next (VUInt64 0)), set_var r into (VUInt64 0))
      end
  | SUpdate table id vs =>
      match resolve_id r id with
      | Err e => (Err e, r)
      | Ok row_id =>
          let '(res, b) := be_update (r_backend r) table row_id (resolve (r_vars r) <$> vs) in
          ((λ _, Next (VUInt64 row_id)) <$> res, set_backend r b)
      end
  | SDelete table id =>
      match resolve_id r id with
      | Err e => (Err e, r)
      | Ok row_id =>
          let '(res, b) := be_delete (r_backend r) table row_id in
          ((λ _, Next (VUInt64 row_id)) <$> res, set_backend r b)
      end
  | SReturn v => (Ok (Return (resolve (r_vars r) v)), r)
  | SFail message => (Err (Aborted (fail_message (r_vars r) message)), r)
  end.

Fixpoint run_steps (ss : list ProcedureStep) (last : value) (r : Runner) : result runtime_error value * Runner :=
  match ss with
  | [] => (Ok last, r)
  | s :: ss =>
      match charge r with
      | (Err e, r) => (Err e, r)
      | (Ok _, r) =>
          match run_step s r with
          | (Ok (Next v), r) => run_steps ss v r
          | (Ok (Return v), r) => (Ok v, r)
          | (Err e, r) => (Err e, r)
          end
      end
  end.

(** The value and variables of the call, and the backend it leaves. *)
Definition run_procedure (b : B) (p : Procedure) (args : values) (fuel : Z)
    : result runtime_error (value * values) * B :=
  let '(v, r) := run_steps (steps p) VNull (MkRunner b args fuel 0) in
  ((λ v, (v, r_vars r)) <$> v, r_backend r).
End runner.
Arguments Runner B : clear implicits.

(** ** The pure executor *)

Section executor.
Context `{JsonText}.

Record RuntimeExecutor : Type := MkExecutor {
  functions : FunctionRegistry;
  procedures : gmap string Procedure;
  variables : values
}.
Definition RuntimeExecutor_new : RuntimeExecutor := MkExecutor ∅ ∅ ∅.
Definition ex_register_procedure (x : RuntimeExecutor) (p : Procedure) : RuntimeExecutor :=
  MkExecutor (functions x) (<[proc_name p := p]> (procedures x)) (variables x).
Definition ex_set_variable (x : RuntimeExecutor) (k : string) (v : value) : RuntimeExecutor :=
  MkExecutor (functions x) (procedures x) (<[k := v]> (variables x)).

Definition ex_get_variable (x : RuntimeExecutor) (k : string) : option value := variables x !! k.
Definition ex_execute_function (x : RuntimeExecutor) (name : string) (args : values) : result runtime_error value :=
  fn_execute (functions x) name args.

(** The executor's own evaluation of conditions, its loops written out. *)
Definition resolve_value (vars : values) (v : value) : value :=
  match v with
  | VString s => match str_strip_prefix s "$" with Some x => default VNull (vars !! x) | None => v end
  | _ => v
  end.
Fixpoint evaluate_condition (vars : values) (c : Condition) : bool :=
  match c with
  | CEquals x e => match vars !! x with Some v => value_eqb v (resolve_value vars e) | None => false end
  | CNotEquals x e => match vars !! x with Some v => negb (value_eqb v (resolve_value vars e)) | None => false end
  | CGreaterOrEqual x e =>
      match vars !! x with Some v => bool_decide (value_cmp v (resolve_value vars e) ≠ Lt) | None => false end
  | CLessThan x e =>
      match vars !! x with Some v => bool_decide (value_cmp v (resolve_value vars e) = Lt) | None => false end
  | CIsNotNull x => match vars !! x with Some v => negb (is_null v) | None => false end
  | CAll cs =>
      (fix all (cs : list Condition) : bool :=
         match cs with [] => true | c :: cs => if negb (evaluate_condition vars c) then false else all cs end) cs
  | CAny cs =>
      (fix any (cs : list Condition) : bool :=
         match cs with [] => false | c :: cs => if evaluate_condition vars c then true else any cs end) cs
  end.

(** The two evaluations of the source agree. *)
Fixpoint evaluate_condition_runner (vars : values) (c : Condition) {struct c} : evaluate_condition vars c = evaluate vars c.
Proof.
  destruct c as [x e|x e|x|x e|x e|cs|cs]; cbn [evaluate_condition evaluate]; [done|done|done| | | |].
  - destruct (vars !! x); [|done]. unfold value_ltb. change (resolve_value vars e) with (resolve vars e).
    by destruct (value_cmp _ _).
  - destruct (vars !! x); [|done]. unfold value_ltb. change (resolve_value vars e) with (resolve vars e).
    by destruct (value_cmp _ _).
  - induction cs as [|c cs IH]; [done|]. cbn [forallb]. rewrite <- IH, <- (evaluate_condition_runner vars c).
    by destruct (evaluate_condition vars c).
  - induction cs as [|c cs IH]; [done|]. cbn [existsb]. rewrite <- IH, <- (evaluate_condition_runner vars c).
    by destruct (evaluate_condition vars c).
Qed.

Definition needs_tx (what table : string) : runtime_error :=
  ExecutionError (what +:+ "(" +:+ table +:+ ") needs a transaction: use the server Call path").

Section exec.
Context (fns : FunctionRegistry).

Fixpoint execute_step (s : ProcedureStep) (vars : values)
    : result runtime_error value * values :=
  let exec_steps :=
    (fix go (ss : list ProcedureStep) (last : value) (vars : values) : result runtime_error value * values :=
       match ss with
       | [] => (Ok last, vars)
       | s :: ss =>
           match execute_step s vars with
           | (Ok v, vars) => go ss v vars
           | (Err e, vars) => (Err e, vars)
           end
       end) in
  match s with
  | SSetVariable name v => (Ok v, <[name := v]> vars)
  | SCallFunction function args => (fn_execute fns function (resolve vars <$> args), vars)
  | SIf condition then_steps else_steps =>
      if evaluate vars condition then exec_steps then_steps VNull vars else exec_steps else_steps VNull vars
  | SRead table _ _ => (Err (needs_tx "Read" table), vars)
  | SInsert table _ _ => (Err (needs_tx "Insert" table), vars)
  | SUpdate table _ _ => (Err (needs_tx "Update" table), vars)
  | SDelete table _ => (Err (needs_tx "Delete" table), vars)
  | SReturn v => (Ok (resolve vars v), vars)
  | SFail message => (Err (Aborted message), vars)
  end.

Fixpoint execute_steps (ss : list ProcedureStep) (last : value) (vars : values)
    : result runtime_error value * values :=
  match ss with
  | [] => (Ok last, vars)
  | s :: ss =>
      match execute_step s vars with
      | (Ok v, vars) => execute_steps ss v vars
      | (Err e, vars) => (Err e, vars)
      end
  end.
End exec.

Definition execute_procedure (x : RuntimeExecutor) (name : string)
    : result runtime_error value * RuntimeExecutor :=
  match procedures x !! name with
  | None => (Err (FunctionNotFound name), x)
  | Some p =>
      let '(v, vars) := execute_steps (functions x) (steps p) VNull (variables x) in
      (v, MkExecutor (functions x) (procedures x) vars)
  end.
End executor.

(** ** Deploy-time validation *)

Definition MAX_DEPLOY_STEPS : nat := 256.
Definition MAX_DEPLOY_DEPTH : nat := 16.
Definition MAX_NAME_LEN : nat := 128.
Definition MAX_TEXT_LEN : nat := 1024.

Definition blen (s : string) : nat := length (str_bytes s).
Definition name_char (b : byte) : bool :=
  is_ascii_alphanumeric b || bool_decide (b ∈ ["_"%byte; ":"%byte; "."%byte; "-"%byte; "/"%byte]).

Definition check_name (kind name : string) : result string () :=
  if (blen name =? 0)%nat || (MAX_NAME_LEN <? blen name)%nat
  then Err (kind +:+ " name must be 1..=128 chars")
  else if negb (forallb name_char (str_bytes name))
  then Err (kind +:+ " name has illegal characters: " +:+ name)
  else Ok ().

Definition check_table (table : string) : result string () :=
  if (blen table =? 0)%nat || (MAX_NAME_LEN <? blen table)%nat
  then Err "table name must be 1..=128 chars" else Ok ().

Definition check_value_size (v : value) : result string () :=
  match v with
  | VString s => if 65536 <? Z.of_nat (blen s) then Err "string literal too large (max 64KiB)" else Ok ()
  | VBytes b => if 262144 <? Z.of_nat (length b) then Err "bytes literal too large (max 256KiB)" else Ok ()
  | VArray items => if (1024 <? length items)%nat then Err "array literal too large" else Ok ()
  | _ => Ok ()
  end.

(** [for x in l { f(x)? }] *)
Definition try_each {A} (f : A → result string ()) (l : list A) : result string () :=
  foldr (λ x rest, _ ← f x; rest) (Ok ()) l.

Definition check_raw_values `{MapOrder} (vs : values) : result string () :=
  if (256 <? size vs)%nat then Err "values map too large (max 256 entries)"
  else try_each (λ kv, check_value_size kv.2) (map_enum vs).

Fixpoint check_condition (c : Condition) : result string () :=
  match c with
  | CEquals x e | CNotEquals x e | CGreaterOrEqual x e | CLessThan x e =>
      _ ← check_name "variable" x; check_value_size e
  | CIsNotNull x => check_name "variable" x
  | CAll cs | CAny cs =>
      if (64 <? length cs)%nat then Err "condition list too large"
      else (fix go (cs : list Condition) : result string () :=
              match cs with [] => Ok () | c :: cs => _ ← check_condition c; go cs end) cs
  end.

Section validation.
Context `{MapOrder}.

Fixpoint check_step (fns : FunctionRegistry) (depth : nat) (s : ProcedureStep) : result string () :=
  if (MAX_DEPLOY_DEPTH + 1 <? depth)%nat then Err "nesting too deep (max 16)" else
  match s with
  | SCallFunction function args =>
      if negb (bool_decide (is_Some (fns !! function))) then Err ("unknown function: " +:+ function)
      else if (256 <? size args)%nat then Err "call args too large (max 256 entries)"
      else Ok ()
  | SSetVariable name v => _ ← check_name "variable" name; check_value_size v
  | SIf condition then_steps else_steps =>
      _ ← check_condition condition;
      if (MAX_DEPLOY_STEPS <? length then_steps + length else_steps)%nat then Err "branch too large"
      else
        let each := (fix go (ss : list ProcedureStep) : result string () :=
              match ss with [] => Ok () | s :: ss => _ ← check_step fns (S depth) s; go ss end) in
        _ ← each then_steps; each else_steps
  | SRead table _ into => _ ← check_table table; check_name "variable" into
  | SInsert table vs into =>
      _ ← check_table table; _ ← check_name "variable" into; check_raw_values vs
  | SUpdate table _ vs => _ ← check_table table; check_raw_values vs
  | SDelete table _ => check_table table
  | SReturn v => check_value_size v
  | SFail message => if (MAX_TEXT_LEN <? blen message)%nat then Err "fail message too long (max 1KiB)" else Ok ()
  end.

Definition validate_procedure (p : Procedure) (fns : FunctionRegistry) : result string () :=
  _ ← check_name "procedure" (proc_name p);
  if (MAX_TEXT_LEN <? blen (description p))%nat then Err "description too long (max 1KiB)"
  else if bool_decide (steps p = []) then Err "procedure needs at least one step"
  else if (MAX_DEPLOY_STEPS <? length (steps p))%nat then Err "too many steps (max 256)"
  else try_each (check_step fns 1) (steps p).
End validation.

(** ** Induction on steps *)

Section step_induction.
Context (P : ProcedureStep → Prop).
Context (Hif : ∀ c t e, Forall P t → Forall P e → P (SIf c t e)).
Context (Hleaf : ∀ s, (∀ c t e, s ≠ SIf c t e) → P s).

Fixpoint step_nested_ind (s : ProcedureStep) : P s :=
  let all := (fix go (ss : list ProcedureStep) : Forall P ss :=
                match ss with
                | [] => Forall_nil_2 P
                | s :: ss => Forall_cons_2 P s ss (step_nested_ind s) (go ss)
                end) in
  match s with
  | SIf c t e => Hif c t e (all t) (all e)
  | SCallFunction f a => Hleaf (SCallFunction f a) ltac:(intros; discriminate)
  | SSetVariable x v => Hleaf (SSetVariable x v) ltac:(intros; discriminate)
  | SRead t i x => Hleaf (SRead t i x) ltac:(intros; discriminate)
  | SInsert t v x => Hleaf (SInsert t v x) ltac:(intros; discriminate)
  | SUpdate t i v => Hleaf (SUpdate t i v) ltac:(intros; discriminate)
  | SDelete t i => Hleaf (SDelete t i) ltac:(intros; discriminate)
  | SReturn v => Hleaf (SReturn v) ltac:(intros; discriminate)
  | SFail m => Hleaf (SFail m) ltac:(intros; discriminate)
  end.
End step_induction.

(** ** Fuel bounds what a call does to the database *)

(** A backend that also counts the reads and writes it is asked for. *)
#[export] Instance counted {B} `{ProcedureBackend B} : ProcedureBackend (B * Z) := {
  be_read b t id := let '(x, b') := be_read b.1 t id in (x, (b', b.2 + 1));
  be_insert b t vs := let '(x, b') := be_insert b.1 t vs in (x, (b', b.2 + 1));
  be_update b t id vs := let '(x, b') := be_update b.1 t id vs in (x, (b', b.2 + 1));
  be_delete b t id := let '(x, b') := be_delete b.1 t id in (x, (b', b.2 + 1));
  be_call_function b f args := be_call_function b.1 f args
}.

Section facts.
Context `{JsonText} `{ValueText} `{DisplayText} `{DebugText}.

Lemma run_step_if {B} `{ProcedureBackend B} c t e (r : Runner B) :
  run_step (SIf c t e) r =
    let '(v, r) := run_steps (if evaluate (r_vars r) c then t else e) VNull r in (Next <$> v, r).
Proof. cbn [run_step]. destruct (evaluate (r_vars r) c); reflexivity. Qed.

Lemma execute_step_if fns c t e vars :
  execute_step fns (SIf c t e) vars = execute_steps fns (if evaluate vars c then t else e) VNull vars.
Proof. cbn [execute_step]. destruct (evaluate vars c); reflexivity. Qed.

Context {B : Type} `{ProcedureBackend B}.
Implicit Types (r : Runner (B * Z)).

(** What a stretch of execution may do: every database call is paid for by a unit of
    fuel, [k] of them in advance. *)
Definition paid (k : Z) r r' : Prop :=
  r_fuel r' = r_fuel r ∧ r_burned r <= r_burned r' <= r_fuel r + 1 ∧
  (r_backend r).2 <= (r_backend r').2 ∧
  (r_backend r').2 + Z.min (r_burned r) (r_fuel r) <=
    (r_backend r).2 + k + Z.min (r_burned r') (r_fuel r).

Definition step_paid (s : ProcedureStep) : Prop := ∀ r,
  r_burned r <= r_fuel r → r_fuel r + 1 < 2 ^ 64 → 0 <= r_burned r →
  paid 1 r (run_step s r).2 ∧ (is_ok (run_step s r).1 = true → r_burned (run_step s r).2 <= r_fuel r).

Lemma steps_paid ss : Forall step_paid ss → ∀ last r,
  r_burned r <= r_fuel r → r_fuel r + 1 < 2 ^ 64 → 0 <= r_burned r →
  paid 0 r (run_steps ss last r).2 ∧
  (is_ok (run_steps ss last r).1 = true → r_burned (run_steps ss last r).2 <= r_fuel r).
Proof.
  induction 1 as [|s ss Hs Hss IH]; intros last r Hb Hf Hz; cbn [run_steps].
  { unfold paid. cbn [snd]. split; [lia|done]. }
  unfold charge. cbv zeta. rewrite wrap_small by lia. set (r1 := MkRunner _ _ _ _).
  cbn [r_fuel r_burned r1]. destruct (r_fuel r <? r_burned r + 1) eqn:El;
    [apply Z.ltb_lt in El|apply Z.ltb_ge in El].
  { unfold paid. cbn. split; [lia|done]. }
  destruct (Hs r1) as [(P1 & P2 & P3 & P4) P5]; [cbn; lia|cbn; lia|cbn; lia|].
  destruct (run_step s r1) as [res r2]. cbn [fst snd is_ok r1 r_fuel r_burned r_backend] in *.
  destruct res as [[v|v]|e]; cbn [is_ok fst snd] in *.
  - specialize (P5 eq_refl). destruct (IH v r2) as [(Q1 & Q2 & Q3 & Q4) Q5]; [lia|lia|lia|].
    rewrite P1 in *. unfold paid. split; [lia|]. intros Ho. specialize (Q5 Ho). lia.
  - specialize (P5 eq_refl). unfold paid. split; [lia|done].
  - unfold paid. split; [lia|done].
Qed.

Lemma all_steps_paid s : step_paid s.
Proof.
  induction s as [c t e Ht He|s Hl] using step_nested_ind; intros r Hb Hf Hz.
  - rewrite run_step_if. assert (Forall step_paid (if evaluate (r_vars r) c then t else e)) as F
      by by case_match.
    destruct (steps_paid _ F VNull r Hb Hf Hz) as [P Q]. destruct (run_steps _ VNull r) as [v r'].
    cbn [fst snd] in *. split; [unfold paid in *; lia|]. by destruct v.
  - destruct s; try by destruct (Hl condition then_steps else_steps).
    all: cbn [run_step]; try destruct (resolve_id r id) as [row_id|?]; cbn [be_read be_insert be_update be_delete counted];
      try (unfold paid; cbn; lia).
    + destruct (be_read (r_backend r).1 table row_id) as [[[row|]|?] b]; unfold paid; cbn; lia.
    + destruct (be_insert _ _ _) as [[?|?] b]; unfold paid; cbn; lia.
    + destruct (be_update _ _ _ _) as [[?|?] b]; unfold paid; cbn; lia.
    + destruct (be_delete _ _ _) as [[?|?] b]; unfold paid; cbn; lia.
Qed.

(** Fuel bounds what one call can do: whatever the procedure, with a budget of
    [fuel] steps the runner makes at most [fuel] reads and writes of the database. *)
Theorem fuel_bounds_database_calls (b : B) p args fuel :
  0 <= fuel → fuel + 1 < 2 ^ 64 → 0 <= (run_procedure (b, 0) p args fuel).2.2 <= fuel.
Proof.
  intros Hz Hf. unfold run_procedure.
  assert (Forall step_paid (steps p)) as F by (apply Forall_forall; intros; apply all_steps_paid).
  destruct (steps_paid _ F VNull (MkRunner (b, 0) args fuel 0)) as [(P1 & P2 & P3 & P4) _]; [cbn; lia..|].
  destruct (run_steps _ _ _) as [v r]. cbn in *. lia.
Qed.
End facts.

(** ** What every database call preserves, a procedure preserves *)

Section backend_invariant.
Context `{JsonText} `{ValueText} `{DisplayText} `{DebugText} {B : Type} `{ProcedureBackend B} (P : B → Prop).
Context (Pread : ∀ b t id, P b → P (be_read b t id).2).
Context (Pinsert : ∀ b t vs, P b → P (be_insert b t vs).2).
Context (Pupdate : ∀ b t id vs, P b → P (be_update b t id vs).2).
Context (Pdelete : ∀ b t id, P b → P (be_delete b t id).2).

Definition step_preserves (s : ProcedureStep) : Prop :=
  ∀ r : Runner B, P (r_backend r) → P (r_backend (run_step s r).2).

Lemma steps_preserve ss : Forall step_preserves ss →
  ∀ last (r : Runner B), P (r_backend r) → P (r_backend (run_steps ss last r).2).
Proof.
  induction 1 as [|s ss Hs Hss IH]; intros last r Pr; cbn [run_steps]; [done|].
  assert (P (r_backend (charge r).2)) as Pc by done. destruct (charge r) as [[?|?] r1]; cbn [snd] in *; [|done].
  specialize (Hs r1 Pc). destruct (run_step s r1) as [[[v|v]|e] r2]; cbn [snd] in *; auto.
Qed.

Lemma every_step_preserves s : step_preserves s.
Proof.
  induction s as [c t e Ht He|s Hl] using step_nested_ind; intros r Pr.
  - rewrite run_step_if. assert (Forall step_preserves (if evaluate (r_vars r) c then t else e)) as F by by case_match.
    pose proof (steps_preserve _ F VNull r Pr) as Q. by destruct (run_steps _ VNull r).
  - destruct s; try by destruct (Hl condition then_steps else_steps).
    all: cbn [run_step]; try destruct (resolve_id r id) as [row_id|?]; try done.
    + pose proof (Pread (r_backend r) table row_id Pr) as Q. by destruct (be_read _ _ _) as [[[row|]|?] b].
    + pose proof (Pinsert (r_backend r) table (resolve (r_vars r) <$> vs) Pr) as Q.
      by destruct (be_insert _ _ _) as [[?|?] b].
    + pose proof (Pupdate (r_backend r) table row_id (resolve (r_vars r) <$> vs) Pr) as Q.
      by destruct (be_update _ _ _ _) as [[?|?] b].
    + pose proof (Pdelete (r_backend r) table row_id Pr) as Q. by destruct (be_delete _ _ _) as [[?|?] b].
Qed.

Lemma run_procedure_preserves b p args fuel : P b → P (run_procedure b p args fuel).2.
Proof.
  intros Pb. unfold run_procedure.
  pose proof (steps_preserve (steps p) ltac:(apply Forall_forall; intros; apply every_step_preserves) VNull
    (MkRunner b args fuel 0) Pb) as Q.
  by destruct (run_steps _ _ _).
Qed.
End backend_invariant.

(** ** [Return] *)

Section returns.
Context `{JsonText} `{ValueText} `{DisplayText} `{DebugText} {B : Type} `{ProcedureBackend B}.
Implicit Types (r : Runner B).

Definition burn r (n : Z) : Runner B := MkRunner (r_backend r) (r_vars r) (r_fuel r) (r_burned r + n).

Lemma charge_ok r : r_burned r < r_fuel r → r_fuel r < 2 ^ 64 → 0 <= r_burned r → charge r = (Ok (), burn r 1).
Proof.
  intros. unfold charge. cbv zeta. rewrite wrap_small by lia. cbn [r_fuel r_burned].
  by rewrite (proj2 (Z.ltb_ge _ _)) by lia.
Qed.

(** A [Return] among the steps of a call ends it: the steps after it have no
    effect, whatever they are. A [Return] inside a branch of an [If] only ends that
    branch: the call goes on with the steps after the [If], the returned value being
    merely the value of that step. *)
Theorem return_ends_its_step_list v ss last r :
  r_fuel r < 2 ^ 64 → 0 <= r_burned r →
  (r_burned r < r_fuel r →
     run_steps (SReturn v :: ss) last r = (Ok (resolve (r_vars r) v), burn r 1)) ∧
  (∀ c after els, evaluate (r_vars r) c = true → r_burned r + 1 < r_fuel r →
     run_steps (SIf c (SReturn v :: ss) els :: after) last r =
       run_steps after (resolve (r_vars r) v) (burn r 2)).
Proof.
  intros Hf Hz. split.
  - intros Hb. cbn [run_steps]. by rewrite charge_ok.
  - intros c after els Hc Hb. change (run_steps (SIf c (SReturn v :: ss) els :: after) last r) with
      (match charge r with
       | (Err e, r) => (Err e, r)
       | (Ok _, r) =>
           match run_step (SIf c (SReturn v :: ss) els) r with
           | (Ok (Next v), r) => run_steps after v r
           | (Ok (Return v), r) => (Ok v, r)
           | (Err e, r) => (Err e, r)
           end
       end).
    rewrite charge_ok by lia. rewrite run_step_if. cbn [r_vars burn]. rewrite Hc. cbn [run_steps].
    rewrite charge_ok by (cbn; lia). cbn [run_step fmap result_fmap burn r_vars r_backend r_fuel r_burned].
    unfold burn. cbn [r_backend r_vars r_fuel r_burned]. do 2 f_equal. lia.
Qed.

(** ** Where the runner and the pure executor agree *)

Definition literal (v : value) : bool :=
  match v with VString s => bool_decide (var_ref s = None) | _ => true end.

(** Steps without database access, [Return], or [$] references in the places the executor
    takes literally. *)
Fixpoint pure_step (s : ProcedureStep) : bool :=
  match s with
  | SCallFunction _ _ => true
  | SSetVariable _ v => literal v
  | SIf _ t e => forallb pure_step t && forallb pure_step e
  | SFail m => bool_decide (var_ref m = None)
  | _ => false
  end.

(** Steps a step can be charged for. *)
Fixpoint step_cost (s : ProcedureStep) : Z :=
  match s with
  | SIf _ t e => 1 + foldr (λ s n, step_cost s + n) 0 t + foldr (λ s n, step_cost s + n) 0 e
  | _ => 1
  end.
Definition steps_cost (ss : list ProcedureStep) : Z := foldr (λ s n, step_cost s + n) 0 ss.

Lemma step_cost_pos s : 1 <= step_cost s.
Proof.
  induction s as [c t e Ht He|s Hl] using step_nested_ind; [|destruct s; try (cbn; lia); by destruct (Hl condition then_steps else_steps)].
  cbn [step_cost]. assert (∀ l, Forall (λ s, 1 <= step_cost s) l → 0 <= foldr (λ s n, step_cost s + n) 0 l) as G.
  { induction 1; cbn; lia. }
  pose proof (G t Ht). pose proof (G e He). lia.
Qed.
Lemma steps_cost_nonneg ss : 0 <= steps_cost ss.
Proof. unfold steps_cost. induction ss as [|s ss IH]; cbn; [lia|]. pose proof (step_cost_pos s). lia. Qed.

Context (fns : FunctionRegistry).

Definition step_agrees (s : ProcedureStep) : Prop := ∀ r,
  pure_step s = true → 0 <= r_burned r → r_burned r + step_cost s <= r_fuel r + 1 → r_fuel r < 2 ^ 64 →
  (∀ f args, be_call_function (r_backend r) f args = fn_execute fns f args) →
  ∃ k vars, 0 <= k < step_cost s ∧
    run_step s r = (Next <$> (execute_step fns s (r_vars r)).1,
                    MkRunner (r_backend r) vars (r_fuel r) (r_burned r + k)) ∧
    (execute_step fns s (r_vars r)).2 = vars.

Lemma steps_agree ss : Forall step_agrees ss → ∀ last r,
  forallb pure_step ss = true → 0 <= r_burned r → r_burned r + steps_cost ss <= r_fuel r → r_fuel r < 2 ^ 64 →
  (∀ f args, be_call_function (r_backend r) f args = fn_execute fns f args) →
  ∃ k vars, 0 <= k <= steps_cost ss ∧
    run_steps ss last r = ((execute_steps fns ss last (r_vars r)).1,
                           MkRunner (r_backend r) vars (r_fuel r) (r_burned r + k)) ∧
    (execute_steps fns ss last (r_vars r)).2 = vars.
Proof.
  induction 1 as [|s ss Hs Hss IH]; intros last r Hp Hz Hb Hf Hfn.
  { exists 0, (r_vars r). cbn. split; [lia|]. split; [|done]. rewrite Z.add_0_r. by destruct r. }
  cbn [forallb] in Hp. apply andb_true_iff in Hp as [Hp1 Hp2].
  pose proof (step_cost_pos s). pose proof (steps_cost_nonneg ss).
  change (steps_cost (s :: ss)) with (step_cost s + steps_cost ss) in *.
  cbn [run_steps execute_steps]. rewrite charge_ok by lia.
  destruct (Hs (burn r 1)) as (k & vars & Hk & -> & Ev); [done|cbn; lia|cbn; lia|done|done|].
  cbn [burn r_vars r_backend r_fuel r_burned] in *.
  destruct (execute_step fns s (r_vars r)) as [[v|e] vars0] eqn:Ex; cbn [fst snd fmap result_fmap] in *; subst vars0.
  - destruct (IH v (MkRunner (r_backend r) vars (r_fuel r) (r_burned r + 1 + k))) as (k' & vars' & Hk' & -> & Ev');
      [done|cbn; lia|cbn; lia|done|done|]. cbn [r_backend r_fuel r_burned r_vars] in *.
    exists (1 + k + k'), vars'. split; [lia|]. split; [|done]. do 2 f_equal. lia.
  - exists (1 + k), vars. split; [lia|]. split; [|done]. do 2 f_equal. lia.
Qed.

Lemma all_steps_agree s : step_agrees s.
Proof.
  induction s as [c t e Ht He|s Hl] using step_nested_ind; intros r Hp Hz Hb Hf Hfn.
  - rewrite run_step_if, execute_step_if. cbn [pure_step] in Hp. apply andb_true_iff in Hp as [Hpt Hpe].
    cbn [step_cost] in *. fold (steps_cost t) (steps_cost e) in *.
    pose proof (steps_cost_nonneg t). pose proof (steps_cost_nonneg e).
    destruct (evaluate (r_vars r) c).
    + destruct (steps_agree t Ht VNull r) as (k & vars & Hk & -> & Ev); [done|done|lia|done|done|].
      exists k, vars. split; [lia|]. split; done.
    + destruct (steps_agree e He VNull r) as (k & vars & Hk & -> & Ev); [done|done|lia|done|done|].
      exists k, vars. split; [lia|]. split; done.
  - destruct s; try done; try by destruct (Hl condition then_steps else_steps).
    + exists 0. eexists. split; [cbn; lia|]. cbn [run_step execute_step fst snd]. split; [|reflexivity].
      rewrite Hfn, Z.add_0_r. by destruct r.
    + exists 0. eexists. split; [cbn; lia|]. cbn [run_step execute_step fst snd]. split; [|reflexivity].
      cbn [pure_step] in Hp. assert (resolve (r_vars r) v = v) as ->.
      { unfold resolve, literal in *. destruct v; try done. apply bool_decide_eq_true in Hp. by rewrite Hp. }
      unfold set_var. by rewrite Z.add_0_r.
    + exists 0. eexists. split; [cbn; lia|]. cbn [run_step execute_step fst snd]. split; [|reflexivity].
      cbn [pure_step] in Hp. apply bool_decide_eq_true in Hp. unfold fail_message. rewrite Hp, Z.add_0_r.
      by destruct r.
Qed.

(** The transactional runner and the pure executor agree: on steps that touch no
    table, return nothing and use references only where both resolve them, and with fuel
    for every step, they produce the same value or the same error and the same
    variables, and the runner leaves the database alone. *)
Theorem runner_executor_agree ss last r :
  forallb pure_step ss = true → 0 <= r_burned r → r_burned r + steps_cost ss <= r_fuel r → r_fuel r < 2 ^ 64 →
  (∀ f args, be_call_function (r_backend r) f args = fn_execute fns f args) →
  (run_steps ss last r).1 = (execute_steps fns ss last (r_vars r)).1 ∧
  r_vars (run_steps ss last r).2 = (execute_steps fns ss last (r_vars r)).2 ∧
  r_backend (run_steps ss last r).2 = r_backend r.
Proof.
  intros Hp Hz Hb Hf Hfn.
  destruct (steps_agree ss) with (last := last) (r := r) as (k & vars & _ & -> & Ev); try done.
  apply Forall_forall. intros s _. apply all_steps_agree.
Qed.
End returns.

(** ** A toy backend, for concrete calls: rows in a map, no functions *)

Definition demo_display : DisplayText := {|
  f32_display n := dec n; f64_display n := dec n; timestamp_display n := dec n; to_uppercase s := s
|}.

Definition toy : Type := gmap (string * Z) values.
#[export] Instance toy_backend : ProcedureBackend toy := {
  be_read b t id := (Ok (b !! (t, id)), b);
  be_insert b t vs := (Ok (), <[(t, 1 + Z.of_nat (size b)) := vs]> b);
  be_update b t id vs := (Ok (), <[(t, id) := vs]> b);
  be_delete b t id := (Ok (), delete (t, id) b);
  be_call_function _ f args := fn_execute ∅ f args
}.

(** A guard written as [If row exists { Return "exists" }], then a delete: the delete
    runs even though the guard returned. *)
Definition guarded_delete : Procedure :=
  MkProcedure "guarded" "" [
    SRead "t" (VUInt64 1) "row";
    SIf (CIsNotNull "row.#id") [SReturn (VString "exists")] [];
    SDelete "t" (VUInt64 1)].

#[local] Existing Instances demo_json_text demo_value_text demo_display demo_debug.

Lemma guarded_delete_deletes :
  run_procedure ({[("t"%string, 1) := ∅]} : toy) guarded_delete ∅ 100 =
    (Ok (VUInt64 1, {["row.#id"%string := VUInt64 1]}), ∅).
Proof. vm_compute. reflexivity. Qed.

Lemma return_ends_its_step_list_witness :
  run_steps [SIf (CIsNotNull "x") [SReturn (VInt64 7)] []; SSetVariable "y" (VString "$x")] VNull
    (MkRunner (∅ : toy) {["x"%string := VInt64 1]} 10 0) =
  run_steps [SSetVariable "y" (VString "$x")] (VInt64 7) (burn (MkRunner (∅ : toy) {["x"%string := VInt64 1]} 10 0) 2).
Proof.
  apply (return_ends_its_step_list (VInt64 7) [] VNull (MkRunner (∅ : toy) {["x"%string := VInt64 1]} 10 0));
    vm_compute; try reflexivity. discriminate.
Defined.

Lemma fuel_bounds_database_calls_witness :
  0 <= (run_procedure (({[("t"%string, 1) := ∅]} : toy), 0) guarded_delete ∅ 100).2.2 <= 100.
Proof. apply fuel_bounds_database_calls; lia. Defined.

Lemma runner_executor_agree_witness :
  let ss := [SSetVariable "x" (VInt64 1); SIf (CIsNotNull "x") [SCallFunction "f" ∅] []] in
  (run_steps ss VNull (MkRunner (∅ : toy) ∅ 10 0)).1 = (execute_steps ∅ ss VNull ∅).1 ∧
  (execute_steps ∅ ss VNull ∅).1 = Err (FunctionNotFound "f").
Proof.
  intros ss. split; [|vm_compute; reflexivity].
  apply (runner_executor_agree ∅ ss VNull (MkRunner (∅ : toy) ∅ 10 0)).
  - vm_compute. reflexivity.
  - simpl. lia.
  - vm_compute. discriminate.
  - simpl. lia.
  - reflexivity.
Defined.
