(* ===== verification/Deploy.v ===== *)
(** [blitz-runtime/src/deploy.rs], the envelope: deploy-JSON is rewritten into the shape
    serde's derived deserializer reads, deserialized, and validated. The derived
    deserializer is generated code and a parameter. A step that makes the rewriting
    [unwrap] a missing object panics; that outcome is [Panicked]. *)
From S2P Require Import Prelude Float Value HashMap Schema Core Policy Codec Snapshot GroupCommit Durability Tx Shard Query Text Changes Runtime.

Local Open Scope Z_scope.

Inductive deploy_error : Type := Rejected (why : string) | Panicked.
Abbreviation dres := (result deploy_error).
Definition rej {A} (why : string) : dres A := Err (Rejected why).
Definition or_rej {A} (o : option A) (why : string) : dres A := ok_or o (Rejected why).

(** [serde_json::from_value::<Procedure>], and [NaiveDate::from_ymd_opt]. *)
Class DeploySerde : Type := {
  procedure_from_value : json → result string Procedure;
  from_ymd_ok : Z → Z → Z → bool
}.

(** ** Scalars *)

Definition num_text (n : json_num) : json := JNumber n.

(** [str::parse::<i64>] and the narrower ones: an optional sign, then digits. *)
Definition parse_int (lo hi : Z) (l : list byte) : option Z :=
  let bounded n := if (lo <=? n) && (n <? hi) then Some n else None in
  match l with
  | "-"%byte :: (_ :: _) as l => if lo <? 0 then foldl (λ a b, a ← a; d ← digit_of b; Some (a * 10 + d)) (Some 0) (tl l) ≫= λ n, bounded (- n) else None
  | "+"%byte :: (_ :: _) as l => foldl (λ a b, a ← a; d ← digit_of b; Some (a * 10 + d)) (Some 0) (tl l) ≫= bounded
  | _ :: _ => foldl (λ a b, a ← a; d ← digit_of b; Some (a * 10 + d)) (Some 0) l ≫= bounded
  | [] => None
  end.
Definition parse_i64 (s : string) : option Z := parse_int (- 2 ^ 63) (2 ^ 63) (str_bytes s).

Section deploy.
Context `{JsonText} `{ValueText} `{Chrono} `{DeploySerde} `{DebugText} `{MapOrder}.

Definition as_i64_lenient (v : json) : dres Z :=
  match v with
  | JNumber n => or_rej (num_as_i64 n) ("not an i64: " +:+ json_to_string v)
  | JString s => or_rej (parse_i64 s) ("not an i64: " +:+ s)
  | _ => rej "not an i64"
  end.
Definition as_u64_lenient (v : json) : dres Z :=
  match v with
  | JNumber n => or_rej (num_as_u64 n) ("not a u64: " +:+ json_to_string v)
  | JString s => or_rej (parse_u64 (str_bytes s)) ("not a u64: " +:+ s)
  | _ => rej "not a u64"
  end.

Definition is_ascii_hexdigit (b : byte) : bool :=
  let z := byte_Z b in
  (48 <=? z) && (z <=? 57) || (65 <=? z) && (z <=? 70) || (97 <=? z) && (z <=? 102).
Definition is_uuid_shaped (s : string) : bool :=
  let b := str_bytes s in
  (length b =? 36)%nat && forallb (λ i, bool_decide (b !! i = Some "-"%byte)) [8; 13; 18; 23]%nat &&
  forallb (λ c, is_ascii_hexdigit c || bool_decide (c = "-"%byte)) b.

(** [parse_ymd]: exactly three pieces between dashes. *)
Definition parse_ymd (s : string) : dres (Z * Z * Z) :=
  let bad := "bad $date: " +:+ s in
  match split_byte "-"%byte (str_bytes s) with
  | [y; mo; d] =>
      y ← or_rej (parse_int (- 2 ^ 31) (2 ^ 31) y) bad;
      mo ← or_rej (parse_int 0 (2 ^ 32) mo) bad;
      d ← or_rej (parse_int 0 (2 ^ 32) d) bad;
      Ok (y, mo, d)
  | _ => rej ("bad $date (want YYYY-MM-DD): " +:+ s)
  end.

(** ** Base64 *)

(** The table [vals], by its six ranges; [=] is handled before it is consulted. *)
Definition base64_val (b : byte) : option Z :=
  let c := byte_Z b in
  if (65 <=? c) && (c <=? 90) then Some (c - 65)
  else if (97 <=? c) && (c <=? 122) then Some (c - 71)
  else if (48 <=? c) && (c <=? 57) then Some (c + 4)
  else if c =? 43 then Some 62
  else if c =? 47 then Some 63
  else None.

(** The loop over a chunk: the accumulated bits and the padding seen. *)
Fixpoint base64_chunk (chunk : list byte) (n pad : Z) : option (Z * Z) :=
  match chunk with
  | [] => Some (n, pad)
  | b :: chunk =>
      if bool_decide (b = "="%byte) then base64_chunk chunk (wrap 32 (Z.shiftl n 6)) (pad + 1)
      else match base64_val b with
           | Some v => base64_chunk chunk (Z.lor (wrap 32 (Z.shiftl n 6)) v) pad
           | None => None
           end
  end.
Fixpoint base64_chunks (l : list byte) : dres (list byte) :=
  match l with
  | a :: b :: c :: d :: l =>
      '(n, pad) ← or_rej (base64_chunk [a; b; c; d] 0 0) "bad $bytes base64 character";
      rest ← base64_chunks l;
      Ok ([Z_byte (Z.shiftr n 16)] ++ (if pad <? 2 then [Z_byte (Z.shiftr n 8)] else []) ++
          (if pad <? 1 then [Z_byte n] else []) ++ rest)
  | _ => Ok []
  end.
Definition base64_decode (s : string) : dres (list byte) :=
  let bytes := filter (λ b, b ≠ "013"%byte ∧ b ≠ "010"%byte) (str_bytes s) in
  if bool_decide (bytes = []) then Ok []
  else if negb (length bytes mod 4 =? 0)%nat then rej "bad $bytes base64 length"
  else base64_chunks bytes.

(** ** Values *)

Definition tagged (tag : string) (j : json) : json := JObject [(tag, j)].

(** [n as f32] as serde writes it back: rounded, then widened. *)
Definition json_f32 (bits : Z) : json := json_of_f64 (f64_of_f32 (f_encode F32 (f_decode F64 bits))).

(** The single-entry object [{k: x}]; [None] falls through to [Json]. *)
Definition transform_tagged (k : string) (x : json) : option (dres json) :=
  match k with
  | "$i32" =>
      n ← (match x with JNumber n => num_as_i64 n | _ => None end);
      Some (if is_sint 32 n then Ok (tagged "Int32" (json_of_i64 n)) else rej ("$i32 out of range: " +:+ dec_signed n))
  | "$u32" =>
      n ← (match x with JNumber n => num_as_u64 n | _ => None end);
      Some (if (n <? 4294967296)%Z then Ok (tagged "UInt32" (json_of_u64 n)) else rej ("$u32 out of range: " +:+ dec n))
  | "$i64" => Some (n ← as_i64_lenient x; Ok (tagged "Int64" (json_of_i64 n)))
  | "$u64" => Some (n ← as_u64_lenient x; Ok (tagged "UInt64" (json_of_u64 n)))
  | "$f32" =>
      b ← (match x with JNumber n => num_as_f64 n | _ => None end);
      Some (Ok (tagged "Float32" (json_f32 b)))
  | "$decimal" => s ← json_as_str x; Some (Ok (tagged "Decimal" (JString s)))
  | "$date" =>
      s ← json_as_str x;
      Some ('(y, mo, d) ← parse_ymd s;
            if from_ymd_ok y mo d then Ok (tagged "Date" (JString s)) else rej ("bad $date: " +:+ s))
  | "$uuid" =>
      s ← json_as_str x;
      Some (if is_uuid_shaped s then Ok (tagged "Uuid" (JString s)) else rej ("bad $uuid: " +:+ s))
  | "$bytes" =>
      s ← json_as_str x;
      Some (bytes ← base64_decode s;
            if (262144 <? Z.of_nat (length bytes))%Z then rej "bytes literal too large (max 256KiB)"
            else Ok (tagged "Bytes" (JArray ((λ b, json_of_u64 (byte_Z b)) <$> bytes))))
  | "$ts" =>
      Some (micros ← as_i64_lenient x;
            ts ← or_rej (from_timestamp_micros micros) ("bad $ts: " +:+ json_to_string x);
            Ok (tagged "Timestamp" (JString (to_rfc3339 ts))))
  | _ => None
  end%string.

Fixpoint transform_value (v : json) : dres json :=
  match v with
  | JNull => Ok (JString "Null")
  | JBool b => Ok (tagged "Boolean" (JBool b))
  | JNumber n =>
      match num_as_i64 n with
      | Some i => Ok (tagged "Int64" (json_of_i64 i))
      | None =>
          match num_as_u64 n with
          | Some u => Ok (tagged "UInt64" (json_of_u64 u))
          | None =>
              match num_as_f64 n with
              | Some f => Ok (tagged "Float64" (json_of_f64 f))
              | None => rej ("bad number: " +:+ json_to_string v)
              end
          end
      end
  | JString s => Ok (if is_uuid_shaped s then tagged "Uuid" (JString s) else tagged "String" (JString s))
  | JArray items =>
      out ← (fix go (l : list json) : dres (list json) :=
               match l with
               | [] => Ok []
               | item :: l => item ← transform_value item; out ← go l; Ok (item :: out)
               end) items;
      Ok (tagged "Array" (JArray out))
  | JObject [(k, x)] => default (Ok (tagged "Json" v)) (transform_tagged k x)
  | JObject _ => Ok (tagged "Json" v)
  end.

(** ** Conditions, steps, procedures *)

(** [obj.get_mut(k)] rewritten in place; entries keep their places. *)
Fixpoint obj_modify (k : string) (f : json → dres json) (m : list (string * json)) : dres (list (string * json)) :=
  match m with
  | [] => Ok []
  | (k', x) :: m => if String.eqb k k' then x ← f x; Ok ((k', x) :: m) else m ← obj_modify k f m; Ok ((k', x) :: m)
  end.
Fixpoint obj_map (f : json → dres json) (m : list (string * json)) : dres (list (string * json)) :=
  match m with
  | [] => Ok []
  | (k, x) :: m => x ← f x; m ← obj_map f m; Ok ((k, x) :: m)
  end.

Fixpoint transform_condition (cond : json) : dres json :=
  let each := (fix go (l : list json) : dres (list json) :=
                 match l with
                 | [] => Ok []
                 | c :: l => c ← transform_condition c; l ← go l; Ok (c :: l)
                 end) in
  match cond with
  | JObject [(variant, body)] =>
      match variant with
      | "Equals" | "NotEquals" | "GreaterOrEqual" | "LessThan" =>
          match body with
          | JArray [x; e] => e ← transform_value e; Ok (JObject [(variant, JArray [x; e])])
          | _ => rej "comparison needs [var, value]"
          end
      | "IsNotNull" => Ok cond
      | "All" | "Any" =>
          match body with
          | JArray cs => cs ← each cs; Ok (JObject [(variant, JArray cs)])
          | _ => rej "All/Any need an array"
          end
      | _ => rej ("unknown condition: " +:+ variant)
      end%string
  | JObject _ => rej "condition must have exactly one variant"
  | _ => rej "condition must be an object"
  end.

(** [field] and [map_field] *)
Definition transform_field (name : string) : list (string * json) → dres (list (string * json)) :=
  obj_modify name transform_value.
Definition transform_map_field (variant name : string) : list (string * json) → dres (list (string * json)) :=
  obj_modify name (λ m, match m with
                        | JObject m => m ← obj_map transform_value m; Ok (JObject m)
                        | _ => rej (variant +:+ "." +:+ name +:+ " must be an object")
                        end).

(** [for s in arr.iter_mut() { f(s)? }] *)
Fixpoint transform_list (f : json → dres json) (ss : list json) : dres (list json) :=
  match ss with
  | [] => Ok []
  | s :: ss => s ← f s; ss ← transform_list f ss; Ok (s :: ss)
  end.
Definition transform_steps (what : string) (f : json → dres json) (steps : json) : dres json :=
  match steps with
  | JArray ss => ss ← transform_list f ss; Ok (JArray ss)
  | _ => rej (what +:+ " must be an array")
  end.

(** The fields of a step other than [If]. *)
Definition transform_leaf (variant : string) (b : list (string * json)) : dres (list (string * json)) :=
  match variant with
  | "CallFunction" => transform_map_field variant "args" b
  | "SetVariable" => transform_field "value" b
  | "Read" => transform_field "id" b
  | "Insert" => transform_map_field variant "values" b
  | "Update" => b ← transform_field "id" b; transform_map_field variant "values" b
  | "Delete" => transform_field "id" b
  | "Return" => transform_field "value" b
  | "Fail" => Ok b
  | _ => rej ("unknown step: " +:+ variant)
  end%string.

(** The fields of a step; [rec] rewrites the steps of the branches. *)
Definition transform_body (rec : json → dres json) (variant : string) (b : list (string * json))
    : dres (list (string * json)) :=
  if String.eqb variant "If" then
    b ← obj_modify "condition" transform_condition b;
    b ← obj_modify "then_steps" (transform_steps "If.then_steps" rec) b;
    obj_modify "else_steps" (transform_steps "If.else_steps" rec) b
  else transform_leaf variant b.

(** A step that is not an object of one variant is refused; a variant that is not an
    object itself is unwrapped. [If] recurses; [fuel] bounds the nesting of the JSON. *)
Fixpoint transform_step (fuel : nat) (step : json) : dres json :=
  match fuel with
  | O => rej "out of fuel"
  | S fuel =>
      match step with
      | JObject [(variant, JObject b)] =>
          b ← transform_body (transform_step fuel) variant b; Ok (JObject [(variant, JObject b)])
      | JObject [_] => Err Panicked
      | JObject _ => rej "step must have exactly one variant"
      | _ => rej "step must be an object"
      end
  end.

(** The nesting of a document: more than a step's own. *)
Fixpoint json_depth (j : json) : nat :=
  match j with
  | JArray l => S (foldr (λ j n, Nat.max (json_depth j) n) O l)
  | JObject m => S (foldr (λ kj n, Nat.max (json_depth kj.2) n) O m)
  | _ => 1
  end.

Definition transform_procedure (v : json) : dres json :=
  match v with
  | JObject m =>
      match obj_get m "steps" with
      | Some (JArray _) =>
          m ← obj_modify "steps" (transform_steps "procedure.steps" (transform_step (json_depth v))) m;
          Ok (JObject m)
      | _ => rej "procedure.steps must be an array"
      end
  | _ => rej "procedure.steps must be an array"
  end.

Definition deploy_from_parsed (version : option Z) (proc_json : json) (fns : FunctionRegistry) : dres Procedure :=
  match version with
  | Some 1 =>
      j ← transform_procedure proc_json;
      p ← map_err (λ e, Rejected ("bad procedure: " +:+ e)) (procedure_from_value j);
      _ ← map_err Rejected (validate_procedure p fns);
      Ok p
  | Some n => rej ("unsupported envelope version (want 1): Some(" +:+ dec n +:+ ")")
  | None => rej "unsupported envelope version (want 1): None"
  end.

Definition deploy_from_json `{JsonBytes} (body : list byte) (fns : FunctionRegistry) : dres Procedure :=
  envelope ← or_rej (json_from_slice body) "malformed envelope";
  obj ← or_rej (as_object envelope) "envelope must be a JSON object";
  proc_json ← or_rej (obj_get obj "procedure") "envelope missing 'procedure'";
  deploy_from_parsed (obj_get obj "v" ≫= λ v, match v with JNumber n => num_as_u64 n | _ => None end) proc_json fns.
End deploy.

(** ** The fuel is enough, and what a malformed step does *)

Section deploy_facts.
Context `{JsonText} `{ValueText} `{Chrono} `{DeploySerde} `{DebugText} `{MapOrder}.

Implicit Types (m : list (string * json)) (k : string) (f g : json → dres json).

Lemma depth_in_list j l : j ∈ l → (json_depth j <= foldr (λ j n, Nat.max (json_depth j) n) O l)%nat.
Proof. induction 1; cbn [foldr]; lia. Qed.
Lemma depth_in_obj k j m : (k, j) ∈ m → (json_depth j <= foldr (λ kj n, Nat.max (json_depth kj.2) n) O m)%nat.
Proof.
  induction m as [|[k' j'] m IH]; intros Hin; [by apply not_elem_of_nil in Hin|]. cbn [foldr snd].
  apply elem_of_cons in Hin as [[= -> ->]|Hin]; [lia|]. specialize (IH Hin). lia.
Qed.

Lemma obj_modify_ext k f g m : (∀ j, (k, j) ∈ m → f j = g j) → obj_modify k f m = obj_modify k g m.
Proof.
  induction m as [|[k' x] m IH]; intros E; [done|]. cbn [obj_modify]. destruct (String.eqb k k') eqn:Ek.
  - apply String.eqb_eq in Ek as ->. rewrite E by by left. done.
  - rewrite IH; [done|]. intros j Hj. apply E. by right.
Qed.

(** Modifying one key does not touch the entries of another. *)
Lemma obj_modify_other k k' f m : ∀ m' j,
  obj_modify k' f m = Ok m' → k ≠ k' → (k, j) ∈ m' → (k, j) ∈ m.
Proof.
  induction m as [|[k0 x] m IH]; intros m' j E Hk Hin; cbn [obj_modify] in E.
  - injection E as <-. done.
  - destruct (String.eqb k' k0) eqn:Ek.
    + apply String.eqb_eq in Ek as <-. apply result_bind_Ok in E as (x' & _ & [= <-]).
      apply elem_of_cons in Hin as [[= -> _]|Hin]; [done|by right].
    + apply result_bind_Ok in E as (m1 & E1 & [= <-]).
      apply elem_of_cons in Hin as [[= -> ->]|Hin]; [by left|right]. by eapply IH.
Qed.

Lemma transform_steps_ext what f g k j (m : list (string * json)) n :
  (∀ s, (json_depth s <= n)%nat → f s = g s) →
  (S (foldr (λ kj n, Nat.max (json_depth kj.2) n) O m) <= n)%nat → (k, j) ∈ m →
  transform_steps what f j = transform_steps what g j.
Proof.
  intros E Hd Hin. pose proof (depth_in_obj k j m Hin) as Hj.
  destruct j as [| | | |ss|]; try done. cbn [transform_steps].
  assert (transform_list f ss = transform_list g ss) as ->; [|done].
  assert (∀ s, s ∈ ss → f s = g s) as Es.
  { intros s Hs. apply E. pose proof (depth_in_list s ss Hs). cbn [json_depth] in Hj. lia. }
  clear -Es. induction ss as [|s ss IH]; [done|]. cbn [transform_list].
  rewrite (Es s) by by left. rewrite IH by (intros; apply Es; by right). done.
Qed.

Lemma transform_body_ext f g variant m n :
  (∀ s, (json_depth s <= n)%nat → f s = g s) →
  (S (foldr (λ kj n, Nat.max (json_depth kj.2) n) O m) <= n)%nat →
  transform_body f variant m = transform_body g variant m.
Proof.
  intros E Hd. unfold transform_body. destruct (String.eqb variant "If"); [|done].
  destruct (obj_modify "condition" transform_condition m) as [m1|] eqn:E1; [|done]. cbn [mbind result_bind].
  rewrite (obj_modify_ext "then_steps" _ (transform_steps "If.then_steps" g)).
  2: { intros j Hj. eapply (transform_steps_ext _ _ _ "then_steps"); [exact E|exact Hd|].
       by eapply obj_modify_other; [exact E1|..]. }
  destruct (obj_modify "then_steps" _ m1) as [m2|] eqn:E2; [|done]. cbn [mbind result_bind].
  apply obj_modify_ext. intros j Hj. eapply (transform_steps_ext _ _ _ "else_steps"); [exact E|exact Hd|].
  eapply obj_modify_other; [exact E1|done|]. by eapply obj_modify_other; [exact E2|..].
Qed.

(** With the depth of the step as fuel the rewriting never runs out: more changes nothing. *)
Lemma transform_step_fuel fuel : ∀ step,
  (json_depth step <= fuel)%nat → transform_step (S fuel) step = transform_step fuel step.
Proof.
  induction fuel as [|fuel IH]; intros step Hd; [destruct step; cbn in Hd; lia|].
  destruct step as [| | | | |m]; try done. destruct m as [|[variant body] [|? ?]]; [done| |done].
  destruct body as [| | | | |b]; try done.
  change (transform_step (S (S fuel)) (JObject [(variant, JObject b)])) with
    (transform_body (transform_step (S fuel)) variant b ≫= λ b, Ok (JObject [(variant, JObject b)])).
  change (transform_step (S fuel) (JObject [(variant, JObject b)])) with
    (transform_body (transform_step fuel) variant b ≫= λ b, Ok (JObject [(variant, JObject b)])).
  rewrite (transform_body_ext (transform_step (S fuel)) (transform_step fuel) variant b fuel); [done|exact IH|].
  cbn [json_depth foldr snd] in Hd. lia.
Qed.

(** A step whose variant is not an object panics the task that deploys it. *)
Lemma malformed_step_panics fns :
  deploy_from_parsed (Some 1)
    (JObject [("steps"%string, JArray [JObject [("Return"%string, JNumber (PosInt 5))]])]) fns = Err Panicked.
Proof. reflexivity. Qed.
End deploy_facts.
