(* ===== verification/Server.v ===== *)
(** [blitz-server/src/server.rs]: the server's state and the operations dispatch is made
    of: authorization, sessions, the write-ahead log front end, idempotency keys,
    procedures, fanout, counters, snapshot rotation and start-up. The engine lives
    in the transaction manager that shares it. Lock poisoning is not modelled. *)
From S2P Require Import Prelude Float Value HashMap Schema Core Policy Codec Snapshot Wal GroupCommit Durability Tx Shard Query Text Changes Jobs Runtime.

Local Open Scope Z_scope.

(** ** State *)

Record FanoutJob : Type := MkFanoutJob { fj_table : string; fj_row_id : Z; fj_author : string }.

(** The [sync_channel] of fanout jobs; its receiver may be gone. *)
Record FanoutChannel : Type := MkFanoutChannel { fc_queue : list FanoutJob; fc_open : bool }.
Definition FANOUT_QUEUE : Z := 4096.

Record RegisteredProcedure : Type := MkRegistered { rp_proc : Procedure; rp_version : Z }.

Record Counters : Type := MkCounters {
  total_requests : Z;
  slow_responses : Z;
  bytes_read : Z;
  bytes_written : Z;
  wal_dropped_full : Z;
  fanout_done : Z;
  fanout_dropped : Z
}.

Section server.
Context `{PushChannel}.

(** [sv_spawned]: the WASM jobs handed to the runtime's blocking pool, each a later
    [run_wasm_job]. *)
Record Server : Type := MkServer {
  sv_config : ServerConfig;
  sv_mgr : Manager;
  sv_policies : PolicyEngine;
  sv_identities : gmap string Identity;
  sv_sessions : gmap string Session;
  sv_wal : option (list Group);
  sv_wal_rotating : bool;
  sv_wal_enabled : bool;
  sv_idem : gmap Z (gmap string Z);
  sv_realtime : Realtime;
  sv_search : SearchIndex;
  sv_fanout : option FanoutChannel;
  sv_procedures : gmap string RegisteredProcedure;
  sv_functions : FunctionRegistry;
  sv_wasm_jobs : wasm_store;
  sv_counters : Counters;
  sv_started_at : option Z;
  sv_spawned : list string
}.

(** [BlitzServer::with_config]; the builtin functions read the clock [now]. *)
Definition Server_new (c : ServerConfig) (fns : FunctionRegistry) : Server :=
  MkServer c (Manager_new ∅) [] ∅ ∅ None false false ∅ Realtime_new ∅ None ∅ fns ∅
    (MkCounters 0 0 0 0 0 0 0) None [].

Definition sv_engine (s : Server) : Engine := engine (sv_mgr s).

Definition with_mgr (s : Server) (m : Manager) : Server :=
  MkServer (sv_config s) m (sv_policies s) (sv_identities s) (sv_sessions s) (sv_wal s)
    (sv_wal_rotating s) (sv_wal_enabled s) (sv_idem s) (sv_realtime s) (sv_search s) (sv_fanout s)
    (sv_procedures s) (sv_functions s) (sv_wasm_jobs s) (sv_counters s) (sv_started_at s) (sv_spawned s).
Definition with_engine (s : Server) (e : Engine) : Server := with_mgr s (Tx.set_engine (sv_mgr s) e).
Definition with_sessions (s : Server) (m : gmap string Session) : Server :=
  MkServer (sv_config s) (sv_mgr s) (sv_policies s) (sv_identities s) m (sv_wal s)
    (sv_wal_rotating s) (sv_wal_enabled s) (sv_idem s) (sv_realtime s) (sv_search s) (sv_fanout s)
    (sv_procedures s) (sv_functions s) (sv_wasm_jobs s) (sv_counters s) (sv_started_at s) (sv_spawned s).
Definition with_identities (s : Server) (m : gmap string Identity) : Server :=
  MkServer (sv_config s) (sv_mgr s) (sv_policies s) m (sv_sessions s) (sv_wal s)
    (sv_wal_rotating s) (sv_wal_enabled s) (sv_idem s) (sv_realtime s) (sv_search s) (sv_fanout s)
    (sv_procedures s) (sv_functions s) (sv_wasm_jobs s) (sv_counters s) (sv_started_at s) (sv_spawned s).
Definition with_wal (s : Server) (w : option (list Group)) (rotating enabled : bool) : Server :=
  MkServer (sv_config s) (sv_mgr s) (sv_policies s) (sv_identities s) (sv_sessions s) w
    rotating enabled (sv_idem s) (sv_realtime s) (sv_search s) (sv_fanout s)
    (sv_procedures s) (sv_functions s) (sv_wasm_jobs s) (sv_counters s) (sv_started_at s) (sv_spawned s).
Definition with_idem (s : Server) (m : gmap Z (gmap string Z)) : Server :=
  MkServer (sv_config s) (sv_mgr s) (sv_policies s) (sv_identities s) (sv_sessions s) (sv_wal s)
    (sv_wal_rotating s) (sv_wal_enabled s) m (sv_realtime s) (sv_search s) (sv_fanout s)
    (sv_procedures s) (sv_functions s) (sv_wasm_jobs s) (sv_counters s) (sv_started_at s) (sv_spawned s).
Definition with_realtime (s : Server) (r : Realtime) : Server :=
  MkServer (sv_config s) (sv_mgr s) (sv_policies s) (sv_identities s) (sv_sessions s) (sv_wal s)
    (sv_wal_rotating s) (sv_wal_enabled s) (sv_idem s) r (sv_search s) (sv_fanout s)
    (sv_procedures s) (sv_functions s) (sv_wasm_jobs s) (sv_counters s) (sv_started_at s) (sv_spawned s).
Definition with_search (s : Server) (i : SearchIndex) : Server :=
  MkServer (sv_config s) (sv_mgr s) (sv_policies s) (sv_identities s) (sv_sessions s) (sv_wal s)
    (sv_wal_rotating s) (sv_wal_enabled s) (sv_idem s) (sv_realtime s) i (sv_fanout s)
    (sv_procedures s) (sv_functions s) (sv_wasm_jobs s) (sv_counters s) (sv_started_at s) (sv_spawned s).
Definition with_fanout (s : Server) (f : option FanoutChannel) : Server :=
  MkServer (sv_config s) (sv_mgr s) (sv_policies s) (sv_identities s) (sv_sessions s) (sv_wal s)
    (sv_wal_rotating s) (sv_wal_enabled s) (sv_idem s) (sv_realtime s) (sv_search s) f
    (sv_procedures s) (sv_functions s) (sv_wasm_jobs s) (sv_counters s) (sv_started_at s) (sv_spawned s).
Definition with_procedures (s : Server) (m : gmap string RegisteredProcedure) : Server :=
  MkServer (sv_config s) (sv_mgr s) (sv_policies s) (sv_identities s) (sv_sessions s) (sv_wal s)
    (sv_wal_rotating s) (sv_wal_enabled s) (sv_idem s) (sv_realtime s) (sv_search s) (sv_fanout s)
    m (sv_functions s) (sv_wasm_jobs s) (sv_counters s) (sv_started_at s) (sv_spawned s).
Definition with_wasm_jobs (s : Server) (m : wasm_store) : Server :=
  MkServer (sv_config s) (sv_mgr s) (sv_policies s) (sv_identities s) (sv_sessions s) (sv_wal s)
    (sv_wal_rotating s) (sv_wal_enabled s) (sv_idem s) (sv_realtime s) (sv_search s) (sv_fanout s)
    (sv_procedures s) (sv_functions s) m (sv_counters s) (sv_started_at s) (sv_spawned s).
Definition with_counters (s : Server) (k : Counters) : Server :=
  MkServer (sv_config s) (sv_mgr s) (sv_policies s) (sv_identities s) (sv_sessions s) (sv_wal s)
    (sv_wal_rotating s) (sv_wal_enabled s) (sv_idem s) (sv_realtime s) (sv_search s) (sv_fanout s)
    (sv_procedures s) (sv_functions s) (sv_wasm_jobs s) k (sv_started_at s) (sv_spawned s).
Definition with_started_at (s : Server) (t : option Z) : Server :=
  MkServer (sv_config s) (sv_mgr s) (sv_policies s) (sv_identities s) (sv_sessions s) (sv_wal s)
    (sv_wal_rotating s) (sv_wal_enabled s) (sv_idem s) (sv_realtime s) (sv_search s) (sv_fanout s)
    (sv_procedures s) (sv_functions s) (sv_wasm_jobs s) (sv_counters s) t (sv_spawned s).

Definition with_spawned (s : Server) (l : list string) : Server :=
  MkServer (sv_config s) (sv_mgr s) (sv_policies s) (sv_identities s) (sv_sessions s) (sv_wal s)
    (sv_wal_rotating s) (sv_wal_enabled s) (sv_idem s) (sv_realtime s) (sv_search s) (sv_fanout s)
    (sv_procedures s) (sv_functions s) (sv_wasm_jobs s) (sv_counters s) (sv_started_at s) l.

(** ** Counters: wrapping atomic additions *)

Definition record_request (s : Server) (slow : bool) : Server :=
  let k := sv_counters s in
  with_counters s (MkCounters (wrap 64 (total_requests k + 1))
    (if slow then wrap 64 (slow_responses k + 1) else slow_responses k)
    (bytes_read k) (bytes_written k) (wal_dropped_full k) (fanout_done k) (fanout_dropped k)).
Definition record_io (s : Server) (read written : Z) : Server :=
  let k := sv_counters s in
  with_counters s (MkCounters (total_requests k) (slow_responses k) (wrap 64 (bytes_read k + read))
    (wrap 64 (bytes_written k + written)) (wal_dropped_full k) (fanout_done k) (fanout_dropped k)).
Definition wal_drop (s : Server) : Server :=
  let k := sv_counters s in
  with_counters s (MkCounters (total_requests k) (slow_responses k) (bytes_read k) (bytes_written k)
    (wrap 64 (wal_dropped_full k + 1)) (fanout_done k) (fanout_dropped k)).
Definition fanout_record_done (s : Server) (n : Z) : Server :=
  let k := sv_counters s in
  with_counters s (MkCounters (total_requests k) (slow_responses k) (bytes_read k) (bytes_written k)
    (wal_dropped_full k) (wrap 64 (fanout_done k + n)) (fanout_dropped k)).
Definition fanout_drop (s : Server) : Server :=
  let k := sv_counters s in
  with_counters s (MkCounters (total_requests k) (slow_responses k) (bytes_read k) (bytes_written k)
    (wal_dropped_full k) (fanout_done k) (wrap 64 (fanout_dropped k + 1))).

Record ServerStats : Type := MkServerStats {
  st_connections : Z;
  st_total_requests : Z;
  st_slow_responses : Z;
  st_shed_drops : Z;
  st_bytes_read : Z;
  st_bytes_written : Z;
  st_active_tx : Z;
  st_tx_conflicts : Z;
  st_subscription_fanout : Z;
  st_push_dropped : Z;
  st_fanout_done : Z;
  st_fanout_dropped : Z;
  st_wal_bytes : Z;
  st_wal_ops : Z
}.

(** Admission's counters are [Admission]'s. *)
Definition stats (s : Server) (connections shed_drops : Z) : ServerStats :=
  let k := sv_counters s in
  let groups := default [] (sv_wal s) in
  let sum f := wrap 64 (foldr (λ g n, f g + n) 0 groups) in
  MkServerStats connections (total_requests k) (slow_responses k) shed_drops (bytes_read k)
    (bytes_written k) 0 0 (push_delivered (sv_realtime s)) (push_dropped (sv_realtime s))
    (fanout_done k) (fanout_dropped k) (sum bytes_flushed) (sum ops_flushed).

(** ** Write-ahead log front end *)

Definition wal_log `{TableHash} (s : Server) (entry : EntryType) (table : string) (row_id : Z) (data : list byte)
    : result string () * Server :=
  if negb (sv_wal_enabled s) then (Ok (), s)
  else if sv_wal_rotating s then (Err "WAL rotation in progress"%string, wal_drop s)
  else match sv_wal s with
       | None => (Ok (), s)
       | Some shards =>
           let '(r, shards) := cluster_append shards table entry row_id data in
           let s := with_wal s (Some shards) (sv_wal_rotating s) (sv_wal_enabled s) in
           match r with
           | Ok _ => (Ok (), s)
           | Err e => (Err (append_error_text e), wal_drop s)
           end
       end.

(** [snapshot_and_rotate]: [drain] is what the flush makes of the groups in its thirty
    seconds, [snap] what saving the snapshot answers, [reopened] what opening the
    emptied logs answers. *)
Definition snapshot_and_rotate (s : Server) (drain : list Group → list Group) (snap : result string string)
    (reopened : result string (list Group)) : result string string * Server :=
  match data_dir (sv_config s) with
  | None => (Err "no data_dir"%string, s)
  | Some _ =>
      let s := with_wal s (drain <$> sv_wal s) true (sv_wal_enabled s) in
      match snap with
      | Err e => (Err e, s)
      | Ok path =>
          let s := with_wal s None true (sv_wal_enabled s) in
          if is_durable (durability (sv_config s)) then
            match reopened with
            | Err e => (Err e, s)
            | Ok shards =>
                let s := match shards with
                         | [] => s
                         | _ => with_wal s (Some shards) true true
                         end in
                (Ok path, with_wal s (sv_wal s) false (sv_wal_enabled s))
            end
          else (Ok path, with_wal s (sv_wal s) false (sv_wal_enabled s))
      end
  end.

(** ** Idempotency keys *)

(** [g.keys().take(n)]: the first keys of a [HashMap], in any order. *)
Class KeyOrder : Type := key_enum : gmap string Z → list string.
Class KeyOrderLaws `{KeyOrder} : Prop := key_enum_perm m : key_enum m ≡ₚ (map_to_list m).*1.

Definition IDEM_CAP : Z := 16000.
Definition idem_map (s : Server) (key : string) : gmap string Z := default ∅ (sv_idem s !! idem_shard key).
Definition idem_lookup (s : Server) (key : string) : option Z := idem_map s key !! key.

(** Removing the first half of the keys. *)
Definition clear_half `{KeyOrder} (g : gmap string Z) : gmap string Z :=
  foldl (λ g k, delete k g) g (firstn (Nat.div2 (size g)) (key_enum g)).
Definition idem_record `{KeyOrder} (s : Server) (key : string) (row_id : Z) : Server :=
  let g := idem_map s key in
  let g := if IDEM_CAP <=? Z.of_nat (size g) then clear_half g else g in
  with_idem s (<[idem_shard key := <[key := row_id]> g]> (sv_idem s)).

(** ** Identities and sessions *)

Definition register_identity (s : Server) (id : string) (i : Identity) : Server :=
  with_identities s (<[id := i]> (sv_identities s)).
Definition get_identity (s : Server) (id : string) : option Identity := sv_identities s !! id.

(** [Utc::now() + Duration::seconds(ttl as i64)], chrono's: out of its range panics. *)
Class ChronoAdd : Type := add_seconds : Z → Z → option Z.

Definition register_session `{ChronoAdd} (s : Server) (now : Z) (uuid : list byte) (token : string) (i : Identity)
    (ttl_secs : Z) : option Server :=
  expires ← add_seconds now (sign 64 ttl_secs);
  Some (with_sessions s (<[token := MkSession uuid i now expires]> (sv_sessions s))).

Definition resolve_token (s : Server) (now : Z) (token : string) : option Identity * Server :=
  match sv_sessions s !! token with
  | Some sess =>
      if session_is_expired now sess
      then (sv_identities s !! token, with_sessions s (delete token (sv_sessions s)))
      else (Some (session_identity sess), s)
  | None => (sv_identities s !! token, s)
  end.

(** ** Authorization *)

(** The permission an operation needs; [Ping] and [Version] need none. *)
Definition required_permission (op : Op) : option Permission :=
  match op with
  | OInsert | OUpdate => Some PWrite
  | OGet | OScan | OFind | OSubscribe | OSearch => Some PRead
  | ODelete => Some PDelete
  | OCall => Some (PCustom "call")
  | OJobSubmit => Some (PCustom "job.submit")
  | OJobPoll => Some (PCustom "job.poll")
  | OProcDeploy => Some (PCustom "proc.deploy")
  | OProcList => Some (PCustom "proc.list")
  | OProcDrop => Some (PCustom "proc.drop")
  | OTableCreate => Some (PCustom "table.create")
  | Ping | OVersion => None
  end.

Inductive auth_error : Type := Unauthenticated | PolicyDenies | OwnerMismatch.
Definition auth_error_text (e : auth_error) : string :=
  match e with
  | Unauthenticated => "unauthorized: authentication required"
  | PolicyDenies => "forbidden: policy denies"
  | OwnerMismatch => "forbidden: row owner mismatch"
  end.

Definition authorize (s : Server) (ident : option Identity) (op : Op) (table : string)
    : result auth_error () :=
  if bool_decide (op = Ping) then Ok ()
  else if negb (require_auth (sv_config s)) then Ok ()
  else match required_permission op with
       | None => Ok ()
       | Some perm =>
           id ← ok_or ident Unauthenticated;
           if has_permission id perm then Ok ()
           else match check (sv_policies s) id table perm with
                | Ok true => Ok ()
                | _ => Err PolicyDenies
                end
       end.

Definition owner_column (s : Server) (table : string) : option string := row_owner (sv_config s) !! table.

Definition authorize_row (s : Server) (ident : option Identity) (op : Op) (table : string) (owner : option value)
    : result auth_error () :=
  _ ← authorize s ident op table;
  if negb (require_auth (sv_config s)) then Ok ()
  else if negb (bool_decide (is_Some (owner_column s table))) then Ok ()
  else
    id ← ok_or ident Unauthenticated;
    if has_role id "admin" then Ok ()
    else match owner with
         | Some (VString o) => if String.eqb o (ident_subject id) then Ok () else Err OwnerMismatch
         | _ => Err OwnerMismatch
         end.

(** [enforce_owner] of the transport. *)
Definition enforce_owner (s : Server) (ident : option Identity) (op : Op) (base : string) (vs : values)
    : result auth_error () :=
  match owner_column s base with
  | None => Ok ()
  | Some col => authorize_row s ident op base (vs !! col)
  end.

(** ** Procedures and functions *)

Definition deploy_procedure `{MapOrder} (s : Server) (p : Procedure) : result string Z * Server :=
  match validate_procedure p (sv_functions s) with
  | Err e => (Err e, s)
  | Ok _ =>
      let version := match sv_procedures s !! proc_name p with
                     | Some r => wrap 64 (rp_version r + 1)
                     | None => 1
                     end in
      (Ok version, with_procedures s (<[proc_name p := MkRegistered p version]> (sv_procedures s)))
  end.
Definition register_procedure `{MapOrder} (s : Server) (p : Procedure) : Z * Server :=
  let '(r, s) := deploy_procedure s p in (default 0 (ok r), s).
Definition drop_procedure (s : Server) (name : string) : bool * Server :=
  (bool_decide (is_Some (sv_procedures s !! name)), with_procedures s (delete name (sv_procedures s))).
Definition get_procedure (s : Server) (name : string) : option Procedure := rp_proc <$> sv_procedures s !! name.
Definition list_procedures (s : Server) : list (string * string * Z * Z) :=
  Sort.sort_by (λ a b, str_cmp a.1.1.1 b.1.1.1)
    ((λ nr, (nr.1, description (rp_proc nr.2), rp_version nr.2, Z.of_nat (length (steps (rp_proc nr.2)))))
       <$> map_to_list (sv_procedures s)).
Definition call_function (s : Server) (name : string) (args : values) : result string value :=
  map_err runtime_error_text (fn_execute (sv_functions s) name args).

(** ** Derived state *)

Definition s_record_change (s : Server) (now : Z) (table op : string) (row_id : Z) : Server :=
  with_realtime s (record_change (sv_realtime s) now table op row_id).
Definition s_index_post (s : Server) (table : string) (row_id : Z) (body : string) : Server :=
  with_search s (index_post (sv_search s) table row_id body).

Definition install_fanout_channel (s : Server) : Server := with_fanout s (Some (MkFanoutChannel [] true)).

(** [try_send] on the bounded channel: full or disconnected drops and counts. *)
Definition fanout_enqueue (s : Server) (table : string) (row_id : Z) (author : string) : Server :=
  match sv_fanout s with
  | None => s
  | Some c =>
      if fc_open c && (Z.of_nat (length (fc_queue c)) <? FANOUT_QUEUE)
      then with_fanout s (Some (MkFanoutChannel (fc_queue c ++ [MkFanoutJob table row_id author]) true))
      else fanout_drop s
  end.

(** Indexing one row, and one table: the rows of [posts] tables that carry a text body. *)
Definition index_row_body (table : string) (acc : SearchIndex * nat) (r : Row) : SearchIndex * nat :=
  match row_values r !! "body"%string with
  | Some (VString body) => (index_post acc.1 table (row_id r) body, S acc.2)
  | _ => acc
  end.
Definition index_table `{RowOrder} (e : Engine) (acc : SearchIndex * nat) (table : string) : SearchIndex * nat :=
  foldl (index_row_body table) acc (match scan e table with Ok rows => rows | Err _ => [] end).
Definition is_posts (t : string) : bool := String.eqb t "posts" || starts_with t "posts_".
Definition rebuild_search_index `{RowOrder} `{TableOrder} (s : Server) : nat * Server :=
  let tables := Sort.sort_by str_cmp (filter (λ t, is_posts t = true) (table_enum (sv_engine s))) in
  let '(ix, n) := foldl (index_table (sv_engine s)) (sv_search s, O) tables in
  (n, with_search s ix).

(** ** Start-up *)

Definition users_schema (uuid : list byte) : TableSchema :=
  with_column (with_column (with_column (TableSchema_new uuid "users")
    (with_primary_key (ColumnDef_new "id" TInt64))) (ColumnDef_new "name" TString))
    (with_unique (ColumnDef_new "email" TString)).
Definition sessions_schema (uuid : list byte) : TableSchema :=
  with_column (with_column (with_column (TableSchema_new uuid "sessions")
    (with_primary_key (ColumnDef_new "id" TString))) (ColumnDef_new "user_id" TInt64))
    (ColumnDef_new "token" TString).

Definition create_default (acc : result core_error () * Server) (schema : TableSchema)
    : result core_error () * Server :=
  match acc with
  | (Err e, s) => (Err e, s)
  | (Ok _, s) =>
      match create_table (sv_engine s) schema with
      | (Ok _, e) => (Ok (), with_engine s e)
      | (Err (TableAlreadyExists _), e) => (Ok (), with_engine s e)
      | (Err er, e) => (Err er, with_engine s e)
      end
  end.

(** Recovery from the data directory, in a durable mode. *)
Definition start_recovery `{ValueText} `{JsonBytes} `{SnapshotText} `{DirOrder} `{Crc32} (s : Server) (d : Dir)
    (wal_files : list (list byte)) (opened : result string (list Group)) (uuid : list byte)
    : result string () * Server :=
  if bool_decide (is_Some (data_dir (sv_config s))) && is_durable (durability (sv_config s)) then
    let s := match recover uuid (sv_engine s) d wal_files with
             | Ok (e, _) => with_engine s e
             | Err _ => s
             end in
    match opened with
    | Err e => (Err e, s)
    | Ok [] => (Ok (), s)
    | Ok shards => (Ok (), with_wal s (Some shards) (sv_wal_rotating s) true)
    end
  else (Ok (), s).

(** [start]: recovery, the pre-shared tokens, the default tables, the search index. *)
Definition start `{ValueText} `{JsonBytes} `{SnapshotText} `{DirOrder} `{Crc32} `{DebugText} `{RowOrder} `{TableOrder}
    (s : Server) (d : Dir) (wal_files : list (list byte)) (opened : result string (list Group))
    (uuid : list byte) (now : Z) : result string () * Server :=
  match start_recovery s d wal_files opened uuid with
  | (Err e, s) => (Err e, s)
  | (Ok _, s) =>
      let s := with_identities s (auth_tokens (sv_config s) ∪ sv_identities s) in
      match foldl create_default (Ok (), s) [users_schema uuid; sessions_schema uuid] with
      | (Err e, s) => (Err (core_error_text e), s)
      | (Ok _, s) => let '(_, s) := rebuild_search_index s in (Ok (), with_started_at s (Some now))
      end
  end.
End server.

(** ** Authorization *)

(** What an identity holds of a permission on a resource. *)
Definition holds_permission (rules : PolicyEngine) (id : Identity) (table : string) (perm : Permission) : Prop :=
  perm ∈ ident_permissions id ∨ "admin"%string ∈ ident_roles id ∨
  ((∃ r, r ∈ rules ∧ rule_effect r = Allow ∧ applies r id table perm) ∧
   ¬ (∃ r, r ∈ rules ∧ rule_effect r = Deny ∧ applies r id table perm)).

Lemma has_permission_spec id perm :
  has_permission id perm = true ↔ perm ∈ ident_permissions id ∨ "admin"%string ∈ ident_roles id.
Proof.
  unfold has_permission, has_role.
  assert (existsb (λ q, bool_decide (q = perm)) (ident_permissions id) = true ↔ perm ∈ ident_permissions id) as E.
  { rewrite existsb_exists. setoid_rewrite bool_decide_eq_true. setoid_rewrite <- list_elem_of_In. naive_solver. }
  destruct (existsb _ _); [naive_solver|]. case_bool_decide; naive_solver.
Qed.

Section authorization.
Context `{PushChannel}.
Implicit Types s : Server.

Lemma authorize_ok s ident op table :
  authorize s ident op table = Ok () ↔
    op = Ping ∨ require_auth (sv_config s) = false ∨
    from_option (λ perm, ∃ id, ident = Some id ∧ holds_permission (sv_policies s) id table perm) True
      (required_permission op).
Proof.
  unfold authorize. case_bool_decide; [naive_solver|].
  destruct (require_auth (sv_config s)); [cbn [negb]|naive_solver].
  destruct (required_permission op) as [perm|]; [|naive_solver].
  destruct ident as [id|]; [|simpl; naive_solver].
  cbn [from_option ok_or mbind result_bind]. unfold holds_permission.
  pose proof (has_permission_spec id perm) as P. pose proof (check_true (sv_policies s) id table perm) as C.
  transitivity (has_permission id perm = true ∨ check (sv_policies s) id table perm = Ok true).
  - clear P C. destruct (has_permission id perm); [by split; auto|].
    destruct (check (sv_policies s) id table perm) as [[]|?]; split; try done; [by auto|by intros [?|[=]]..].
  - rewrite P, C. split.
    + intros [[?|?]|?]; right; right; exists id; auto.
    + intros [?|[?|(? & [= <-] & [?|[?|?]])]]; auto; done.
Qed.

Lemma authorize_row_ok s ident op table owner :
  authorize_row s ident op table owner = Ok () ↔
    authorize s ident op table = Ok () ∧
    (require_auth (sv_config s) = true → is_Some (owner_column s table) →
     ∃ id, ident = Some id ∧ ("admin"%string ∈ ident_roles id ∨ owner = Some (VString (ident_subject id)))).
Proof.
  unfold authorize_row. destruct (authorize s ident op table) as [[]|?]; simpl; [|by split; [|intros [? _]]].
  destruct (require_auth (sv_config s)); [simpl|naive_solver].
  case_bool_decide as B; simpl; [|naive_solver].
  destruct ident as [id|]; simpl; [|naive_solver]. unfold has_role.
  case_bool_decide as A; [naive_solver|].
  destruct owner as [[]|]; try naive_solver.
  destruct (String.eqb_spec s0 (ident_subject id)); naive_solver.
Qed.

(** C17: Deny by default: with [require_auth] on, an operation other than [Ping] and
    [Version] is let through only to an identity that holds its permission, directly,
    as an admin, or by a policy that allows and none that denies; and on a table with
    an owner column only to an admin or the subject the row's owner column names. *)
Theorem authorization_denies_by_default s ident op base vs :
  require_auth (sv_config s) = true → op ≠ Ping → op ≠ OVersion →
  (authorize s ident op base = Ok () ↔
     ∃ id perm, ident = Some id ∧ required_permission op = Some perm ∧
       holds_permission (sv_policies s) id base perm) ∧
  (∀ col, owner_column s base = Some col →
     (enforce_owner s ident op base vs = Ok () ↔
        authorize s ident op base = Ok () ∧
        ∃ id, ident = Some id ∧
          ("admin"%string ∈ ident_roles id ∨ vs !! col = Some (VString (ident_subject id))))) ∧
  (ident = None → authorize s ident op base = Err Unauthenticated).
Proof.
  intros Auth NP NV. split_and!.
  - rewrite authorize_ok, Auth. destruct op; simpl; naive_solver.
  - intros col Hc. unfold enforce_owner. rewrite Hc, authorize_row_ok, Auth, Hc. naive_solver.
  - intros ->. unfold authorize. rewrite bool_decide_eq_false_2, Auth by done. by destruct op.
Qed.
End authorization.

(** ** Idempotency keys *)

Section idempotency.
Context `{PushChannel} `{KeyOrderLaws}.
Implicit Types s : Server.

Lemma clear_half_lookup g k r : clear_half g !! k = Some r → g !! k = Some r.
Proof.
  unfold clear_half. generalize (firstn (Nat.div2 (size g)) (key_enum g)). intros l.
  revert g. induction l as [|x l IH]; intros g; simpl; [done|]. intros [_ E]%IH%lookup_delete_Some. done.
Qed.

Lemma foldl_delete_size (l : list string) : ∀ g : gmap string Z,
  NoDup l → Forall (λ k, is_Some (g !! k)) l → size (foldl (λ g k, delete k g) g l) = (size g - length l)%nat.
Proof.
  induction l as [|x l IH]; intros g N F; simpl; [lia|].
  apply NoDup_cons in N as [Nx N]. apply Forall_cons in F as [Fx F]. rewrite IH; [|done|].
  - rewrite map_size_delete_Some by done. lia.
  - rewrite Forall_forall in F |- *. intros k Hk. rewrite lookup_delete_ne; [auto|by intros ->].
Qed.

Lemma clear_half_size g : size (clear_half g) = (size g - Nat.div2 (size g))%nat.
Proof.
  unfold clear_half. pose proof (key_enum_perm g) as P.
  assert (length (key_enum g) = size g) as L by
    (rewrite P, length_fmap; by rewrite length_map_to_list).
  rewrite foldl_delete_size.
  - rewrite length_firstn, L. pose proof (Nat.div2_decr (size g) (size g)). lia.
  - eapply (sublist_NoDup _ (key_enum g)); [|apply sublist_take].
    rewrite P. apply NoDup_fst_map_to_list.
  - apply Forall_take. apply Forall_forall. intros k Hk. rewrite P in Hk.
    apply list_elem_of_fmap in Hk as ([k' v] & -> & Hk%elem_of_map_to_list). by exists v.
Qed.

(** The latest row recorded under a key. *)
Definition latest (k : string) (log : list (string * Z)) : option Z :=
  snd <$> last (filter (λ kr, kr.1 = k) log).

Record idem_inv (log : list (string * Z)) s : Prop := {
  idem_bound : ∀ i, Z.of_nat (size (default ∅ (sv_idem s !! i))) <= IDEM_CAP;
  idem_place : ∀ i k, is_Some (default ∅ (sv_idem s !! i) !! k) → idem_shard k = i;
  idem_true : ∀ k r, idem_lookup s k = Some r → latest k log = Some r
}.

Lemma idem_record_inv log s k r : idem_inv log s → idem_inv (log ++ [(k, r)]) (idem_record s k r).
Proof.
  intros [B P T]. unfold idem_record. set (g := if IDEM_CAP <=? _ then _ else _).
  assert (Z.of_nat (size g) < IDEM_CAP) as Hg.
  { subst g. specialize (B (idem_shard k)). fold (idem_map s k) in B. destruct (Z.leb_spec IDEM_CAP (Z.of_nat (size (idem_map s k)))); [|lia].
    rewrite clear_half_size. unfold IDEM_CAP in *. pose proof (Nat.div2_odd (size (idem_map s k))).
    destruct (Nat.odd _); cbn [Nat.b2n] in *; lia. }
  assert (∀ k' r', g !! k' = Some r' → idem_map s k !! k' = Some r') as Hsub.
  { subst g. intros k' r'. case_match; [apply clear_half_lookup|done]. }
  split; cbn [sv_idem with_idem].
  - intros i. destruct (decide (i = idem_shard k)) as [->|N].
    + rewrite lookup_insert_eq. cbn [default from_option id]. change (Z.of_nat (size (<[k := r]> g)) <= IDEM_CAP).
      rewrite map_size_insert. destruct (g !! k); cbn; lia.
    + by rewrite lookup_insert_ne.
  - intros i k'. destruct (decide (i = idem_shard k)) as [->|N].
    + rewrite lookup_insert_eq. cbn [default from_option id]. unfold id.
      destruct (decide (k' = k)) as [->|Nk]; [done|]. rewrite lookup_insert_ne by done.
      intros [r' Hr%Hsub]. apply P. by exists r'.
    + rewrite lookup_insert_ne by done. apply P.
  - intros k' r'. unfold idem_lookup, idem_map. cbn [sv_idem with_idem]. unfold latest. rewrite filter_app, last_app.
    destruct (decide (k' = k)) as [->|Nk].
    + rewrite lookup_insert_eq. cbn [default from_option id]. rewrite lookup_insert_eq.
      rewrite filter_cons_True by done. intros [= ->]. reflexivity.
    + rewrite filter_cons_False by (intros E; cbn in E; congruence). cbn [filter list_filter last].
      intros E. apply (T k' r'). unfold idem_lookup, idem_map.
      destruct (decide (idem_shard k' = idem_shard k)) as [Es|Es].
      * rewrite Es in E |- *. rewrite lookup_insert_eq in E. cbn [default from_option id] in E.
        rewrite lookup_insert_ne in E by done. apply Hsub in E. exact E.
      * by rewrite lookup_insert_ne in E.
Qed.

Lemma idem_record_lookup s k r : idem_lookup (idem_record s k r) k = Some r.
Proof.
  unfold idem_lookup, idem_map, idem_record. cbn [sv_idem with_idem].
  rewrite lookup_insert_eq. cbn [default from_option id]. by rewrite lookup_insert_eq.
Qed.

(** The idempotency table stays bounded and never lies: after any sequence of
    recorded keys each of its shards holds at most 16000 keys, a lookup answers only
    the row last recorded under that very key, and the key just recorded is found. *)
Theorem idempotency_table c fns (log : list (string * Z)) :
  let s := foldl (λ s kr, idem_record s kr.1 kr.2) (Server_new c fns) log in
  (∀ i, Z.of_nat (size (default ∅ (sv_idem s !! i))) <= IDEM_CAP) ∧
  (∀ k r, idem_lookup s k = Some r → latest k log = Some r) ∧
  (∀ k r, idem_lookup (idem_record s k r) k = Some r).
Proof.
  cbv zeta. assert (idem_inv log (foldl (λ s kr, idem_record s kr.1 kr.2) (Server_new c fns) log)) as [? ? ?].
  { induction log as [|[k r] log IH] using rev_ind.
    - split; cbn [foldl sv_idem Server_new]; [intros i| |]; try (intros i k; unfold idem_lookup, idem_map; cbn);
        rewrite lookup_empty; cbn; [done| |]; intros []%lookup_empty_is_Some || (rewrite lookup_empty; done).
    - rewrite foldl_snoc. by apply idem_record_inv. }
  split_and!; [done|done|]. intros k r. apply idem_record_lookup.
Qed.
End idempotency.

(** ** Rotation *)

Section rotation.
Context `{PushChannel} `{TableHash}.
Implicit Types s : Server.

(** A snapshot rotation that completes leaves the log open for writes; one that
    fails, to save the snapshot or to reopen the log, leaves [wal_rotating] set, and
    from then on every append of the server is refused. *)
Theorem rotation_failure_sheds_writes s drain snap reopened r s' :
  is_Some (data_dir (sv_config s)) → sv_wal_enabled s = true →
  snapshot_and_rotate s drain snap reopened = (r, s') →
  (is_ok r = true → sv_wal_rotating s' = false) ∧
  (is_ok r = false → ∀ entry table row_id data,
     wal_log s' entry table row_id data = (Err "WAL rotation in progress"%string, wal_drop s')).
Proof.
  intros [dir Hd] En. unfold snapshot_and_rotate. rewrite Hd.
  assert (∀ w, ∀ entry table row_id data,
    wal_log (with_wal s w true (sv_wal_enabled s)) entry table row_id data =
      (Err "WAL rotation in progress"%string, wal_drop (with_wal s w true (sv_wal_enabled s)))) as Sheds
    by (intros; unfold wal_log; cbn; by rewrite En).
  destruct snap as [path|e]; cbn [sv_wal_enabled sv_wal sv_config with_wal].
  - destruct (is_durable _); [|by intros [= <- <-]].
    destruct reopened as [shards|e]; [by destruct shards; intros [= <- <-]|].
    intros [= <- <-]. split; [done|]. intros _. apply Sheds.
  - intros [= <- <-]. split; [done|]. intros _. apply Sheds.
Qed.
End rotation.

(** ** Witnesses *)

Definition demo_key_order : KeyOrder := λ m, (map_to_list m).*1.
#[export] Instance demo_key_order_laws : @KeyOrderLaws demo_key_order.
Proof. by intros m. Qed.

Lemma idempotency_table_witness :
  idem_lookup (H := demo_channel)
    (foldl (λ s kr, @idem_record demo_channel demo_key_order s kr.1 kr.2) (Server_new ServerConfig_default ∅)
      [("a", 1); ("b", 2); ("a", 3)]%string) "a" = Some 3 ∧
  latest "a" [("a", 1); ("b", 2); ("a", 3)]%string = Some 3.
Proof.
  split; [vm_compute; reflexivity|].
  destruct (@idempotency_table demo_channel demo_key_order _ ServerConfig_default ∅
    [("a", 1); ("b", 2); ("a", 3)]%string) as (_ & T & _).
  apply T. vm_compute. reflexivity.
Defined.

(** A server whose configuration asks for authentication and gives posts an owner. *)
Definition demo_auth_cfg : ServerConfig :=
  MkServerConfig "127.0.0.1" 7420 (Some "data"%string) 200000 true 1048576 None 50 false ModeNone 0 300 20000
    true ∅ ∅ {["docs"%string := "owner"%string]} [].
Definition demo_alice : Identity := with_permission (Identity_new [] "alice") PRead.

Lemma authorization_denies_by_default_witness :
  let s := Server_new (H := demo_channel) demo_auth_cfg ∅ in
  enforce_owner s (Some demo_alice) OGet "docs" {["owner"%string := VString "alice"]} = Ok () ∧
  enforce_owner s (Some demo_alice) OGet "docs" {["owner"%string := VString "bob"]} ≠ Ok ().
Proof.
  cbv zeta. split.
  - apply (@authorization_denies_by_default demo_channel (Server_new demo_auth_cfg ∅) (Some demo_alice) OGet "docs"
      {["owner"%string := VString "alice"]} eq_refl ltac:(done) ltac:(done)) with (col := "owner"%string);
      [vm_compute; reflexivity|].
    split; [vm_compute; reflexivity|]. exists demo_alice. split; [done|]. right. vm_compute. reflexivity.
  - by vm_compute.
Defined.

Lemma rotation_failure_sheds_writes_witness :
  let s := with_wal (Server_new (H := demo_channel) demo_auth_cfg ∅) (Some []) false true in
  let s' := snd (snapshot_and_rotate s (λ g, g) (Err "disk full"%string) (Err ""%string)) in
  ∀ row_id, fst (@wal_log demo_channel (λ _, 0) s' EInsert "docs" row_id []) = Err "WAL rotation in progress"%string.
Proof.
  cbv zeta. intros row_id.
  pose proof (@rotation_failure_sheds_writes demo_channel (λ _, 0)
    (with_wal (Server_new demo_auth_cfg ∅) (Some []) false true) (λ g, g) (Err "disk full"%string) (Err ""%string)
    _ _ ltac:(eexists; reflexivity) eq_refl eq_refl) as [_ F].
  by rewrite (F eq_refl).
Defined.
