(* ===== verification/Dispatch.v ===== *)
(** [blitz-server/src/transport.rs]: what the server answers to a request. [dispatch],
    an operation at a time; the reads of the fast path; the effects of a committed
    write. A handler takes the server's state and gives back a response and the state
    it leaves; the engine calls of one handler run without another connection's in
    between. *)
From S2P Require Import Prelude Float Value HashMap Schema Core Policy Codec Snapshot Wal GroupCommit Durability Tx Shard Query Text Window Changes Jobs Runtime Deploy Server.

Local Open Scope Z_scope.

(** What a handler draws from outside: the wall clock in microseconds, chrono's
    clock, and a fresh uuid. *)
Record Env : Type := MkEnv { env_micros : Z; env_utc : Z; env_uuid : list byte }.

Definition SERVER_VERSION : string := "0.2.4".

(** The derived [Debug] of [Op]. *)
Definition op_debug (o : Op) : string :=
  match o with
  | Ping => "Ping" | OInsert => "Insert" | OGet => "Get" | OUpdate => "Update" | ODelete => "Delete"
  | OScan => "Scan" | OSubscribe => "Subscribe" | OFind => "Find" | OSearch => "Search" | OCall => "Call"
  | OJobSubmit => "JobSubmit" | OJobPoll => "JobPoll" | OProcDeploy => "ProcDeploy"
  | OProcList => "ProcList" | OProcDrop => "ProcDrop" | OVersion => "Version" | OTableCreate => "TableCreate"
  end.

(** ** Parts of requests and responses *)

(** [values.as_mut()?.remove("_auth")] and the token if it is a string. *)
Definition take_auth_token (vs : option values) : option string * option values :=
  match vs with
  | None => (None, None)
  | Some m => (match m !! "_auth"%string with Some (VString s) => Some s | _ => None end,
               Some (delete "_auth"%string m))
  end.

Definition is_stream_subscribe (vs : option values) : bool :=
  match vs ≫= (.!! "_stream"%string) with
  | Some (VInt64 1) | Some (VUInt64 1) | Some (VInt32 1) | Some (VUInt32 1) => true
  | Some (VBoolean true) => true
  | _ => false
  end.

Definition row_to_view (id : Z) (row : Row) : RowView := MkRowView id (row_values row).

(** The reply [op] gets when its task panics is none. *)
Abbreviation reply := (option Response).

Definition one_row (vs : values) : list RowView := [MkRowView 0 vs].

Definition blob_too_large (table : string) (vs : values) : bool :=
  starts_with table "media" &&
  match vs !! "blob"%string with Some (VBytes b) => 262144 <? Z.of_nat (length b) | _ => false end.

(** [values.remove("_idem")] *)
Definition take_idem (vs : values) : option string * values :=
  (match vs !! "_idem"%string with Some (VString s) => Some s | _ => None end, delete "_idem"%string vs).

Definition row_not_found (global : Z) : string := "row not found: " +:+ dec global.

Definition job_status_name (st : JobStatus) : string :=
  match st with
  | JPending => "pending" | JRunning => "running" | JCompleted => "completed"
  | JFailed => "failed" | JCancelled => "cancelled"
  end.

(** A change record as [Subscribe] and the push stream send it. *)
Definition change_view (r : ChangeRecord) : RowView :=
  MkRowView (seq r)
    (<["table"%string := VString (ch_table r)]> (<["op"%string := VString (ch_op r)]>
      (<["row_id"%string := VInt64 (sign 64 (ch_row_id r))]>
        {["ts"%string := VInt64 (sign 64 (ts_micros r))]}))).

Definition store_error_text (e : store_error) : string :=
  match e with
  | WasmTooLarge => "wasm too large (max " +:+ dec MAX_WASM_BYTES +:+ " bytes)"
  | JobQueueFull => "job queue full (all live; poll and retry)"
  end.

(** ["fn:<name>"] with a name. *)
Definition fn_name (table : string) : option string :=
  match str_strip_prefix table "fn:" with
  | Some n => if String.eqb n "" then None else Some n
  | None => None
  end.

Section dispatch.
Context `{JsonText} `{ValueText} `{JsonBytes} `{DisplayText} `{DebugText} `{Chrono} `{MapOrder} `{RowOrder}
  `{TableHash} `{KeyOrder} `{DeploySerde} `{PushChannel}.
Implicit Types s : Server.

(** ** Writes *)

(** [BlitzServer::index_post] and [fanout_enqueue] for an acknowledged post. *)
Definition post_effects s (physical : string) (local : Z) (vs : values) : Server :=
  let s := match vs !! "body"%string with
           | Some (VString body) => s_index_post s physical local body
           | _ => s
           end in
  match vs !! "author"%string with
  | Some (VString author) => fanout_enqueue s physical local author
  | _ => s
  end.

(** The write of an [Insert] past its checks: the row stored, logged, or taken back. *)
Definition insert_row (env : Env) s (req : Request) (idem : option string) (vs : values) : Response * Server :=
  let id := req_id req in
  let '(physical, shard) := route_insert (sv_config s) (req_table req) vs in
  let row := MkRow 0 vs in
  let '(res, e) := if skip_validation (sv_config s) then insert_unchecked (sv_engine s) physical row
                   else insert (sv_engine s) physical row in
  let s := with_engine s e in
  match res with
  | Err er => (Response_err id (core_error_text er), s)
  | Ok local =>
      let global := compose_id shard local in
      match wal_log s EInsert physical global (values_to_json_bytes vs) with
      | (Err w, s) =>
          (Response_err id ("WAL backpressure: " +:+ w), with_engine s (delete_row (sv_engine s) physical local).2)
      | (Ok _, s) =>
          let s := match idem with Some key => idem_record s key global | None => s end in
          let s := s_record_change s (env_micros env) (req_table req) "insert" global in
          let s := if starts_with (req_table req) "posts" then post_effects s physical local vs else s in
          (Response_ok id [MkRowView global vs], s)
      end
  end.

Definition dispatch_insert (env : Env) s (authed : option Identity) (req : Request) : Response * Server :=
  let id := req_id req in
  match req_values req with
  | None => (Response_err id "insert requires values", s)
  | Some vs =>
      if blob_too_large (req_table req) vs then (Response_err id "blob too large (max 256KiB)", s) else
      let '(idem, vs) := take_idem vs in
      match idem ≫= idem_lookup s with
      | Some cached => (Response_ok id [MkRowView cached vs], s)
      | None =>
          match enforce_owner s authed OInsert (req_table req) vs with
          | Err e => (Response_err id (auth_error_text e), s)
          | Ok _ => insert_row env s req idem vs
          end
      end
  end.

(** The ownership pre-check of [Update] and [Delete]: what it refuses with. *)
Definition owner_precheck s (authed : option Identity) (op : Op) (base physical : string) (local : Z)
    : option auth_error :=
  if require_auth (sv_config s) && bool_decide (is_Some (owner_column s base)) then
    match get (sv_engine s) physical local with
    | Ok (Some row) =>
        match enforce_owner s authed op base (row_values row) with Err e => Some e | Ok _ => None end
    | _ => None
    end
  else None.

Definition dispatch_update (env : Env) s (authed : option Identity) (req : Request) : Response * Server :=
  let id := req_id req in
  match req_row_id req with
  | None => (Response_err id "update requires row_id", s)
  | Some global =>
      let '(physical, local) := route_id (sv_config s) (req_table req) global in
      match req_values req with
      | None => (Response_err id "update requires values", s)
      | Some vs =>
          match owner_precheck s authed OUpdate (req_table req) physical local with
          | Some e => (Response_err id (auth_error_text e), s)
          | None =>
              let '(res, e) := update (sv_engine s) physical local vs in
              let s := with_engine s e in
              match res with
              | Err er => (Response_err id (core_error_text er), s)
              | Ok row =>
                  match wal_log s EUpdate physical global (values_to_json_bytes (row_values row)) with
                  | (Err w, s) => (Response_err id ("WAL backpressure: " +:+ w), s)
                  | (Ok _, s) =>
                      (Response_ok id [MkRowView global (row_values row)],
                       s_record_change s (env_micros env) (req_table req) "update" global)
                  end
              end
          end
      end
  end.

Definition dispatch_delete (env : Env) s (authed : option Identity) (req : Request) : Response * Server :=
  let id := req_id req in
  match req_row_id req with
  | None => (Response_err id "delete requires row_id", s)
  | Some global =>
      let '(physical, local) := route_id (sv_config s) (req_table req) global in
      match owner_precheck s authed ODelete (req_table req) physical local with
      | Some e => (Response_err id (auth_error_text e), s)
      | None =>
          let '(res, e) := delete_row (sv_engine s) physical local in
          let s := with_engine s e in
          match res with
          | Err er => (Response_err id (core_error_text er), s)
          | Ok false => (Response_err id (row_not_found global), s)
          | Ok true =>
              match wal_log s EDelete physical global [] with
              | (Err w, s) => (Response_err id ("WAL backpressure: " +:+ w), s)
              | (Ok _, s) =>
                  (Response_ok id [], s_record_change s (env_micros env) (req_table req) "delete" global)
              end
          end
      end
  end.

(** ** Reads *)

Definition dispatch_get s (authed : option Identity) (req : Request) : Response :=
  let id := req_id req in
  match req_row_id req with
  | None => Response_err id "get requires row_id"
  | Some global =>
      let '(physical, local) := route_id (sv_config s) (req_table req) global in
      match get (sv_engine s) physical local with
      | Ok (Some row) =>
          match enforce_owner s authed OGet (req_table req) (row_values row) with
          | Err _ => Response_err id (row_not_found global)
          | Ok _ => Response_ok id [row_to_view global row]
          end
      | Ok None => Response_err id (row_not_found global)
      | Err e => Response_err id (core_error_text e)
      end
  end.

(** Every row of a base table with its global id. A fresh shard's missing table is
    skipped, told by the text of the error. *)
Fixpoint scan_shards s (sharded : bool) (tables : list (Z * string)) : result string (list (Z * Row)) :=
  match tables with
  | [] => Ok []
  | (shard, physical) :: tables =>
      match scan (sv_engine s) physical with
      | Ok rows =>
          rest ← scan_shards s sharded tables;
          Ok (((λ r, (compose_id shard (row_id r), r)) <$> rows) ++ rest)
      | Err e =>
          if sharded && str_contains (core_error_text e) "table not found" then scan_shards s sharded tables
          else Err (core_error_text e)
      end
  end.
Definition scan_merged s (base : string) : result string (list (Z * Row)) :=
  scan_shards s (1 <? shard_count (sv_config s) base) (shard_tables (sv_config s) base).

Definition visible s (authed : option Identity) (op : Op) (base : string) (merged : list (Z * Row)) : list (Z * Row) :=
  if bool_decide (is_Some (owner_column s base))
  then filter (λ gr, is_ok (enforce_owner s authed op base (row_values gr.2)) = true) merged
  else merged.

(** [sort_by_key] on the global id, descending for [_order: desc]. *)
Definition gid_cmp (desc : bool) (a b : Z * Row) : comparison := if desc then b.1 ?= a.1 else a.1 ?= b.1.
Definition scan_page s (authed : option Identity) (req : Request) : result string (list (Z * Row)) :=
  let w := scan_pagination (req_values req) in
  merged ← scan_merged s (req_table req);
  Ok (page fst (Sort.sort_by (gid_cmp (w_desc w)) (visible s authed OScan (req_table req) merged)) w).
Definition dispatch_scan s (authed : option Identity) (req : Request) : Response :=
  match scan_page s authed req with
  | Err e => Response_err (req_id req) e
  | Ok rows => Response_ok (req_id req) ((λ gr, row_to_view gr.1 gr.2) <$> rows)
  end.

(** The probe of the shards, in order. *)
Fixpoint find_shards s (sharded : bool) (col : string) (v : value) (tables : list (Z * string))
    : result string (option (Z * Row)) :=
  match tables with
  | [] => Ok None
  | (shard, physical) :: tables =>
      match lookup_by_unique (sv_engine s) physical col v with
      | Ok (Some row) => Ok (Some (shard, row))
      | Ok None => find_shards s sharded col v tables
      | Err e =>
          if sharded && str_contains (core_error_text e) "table not found" then find_shards s sharded col v tables
          else Err (core_error_text e)
      end
  end.
Definition find_key (vs : option values) : option (string * value) :=
  m ← vs;
  match m !! "_col"%string, m !! "_val"%string with
  | Some (VString c), Some v => Some (c, v)
  | _, _ => None
  end.
Definition dispatch_find s (authed : option Identity) (req : Request) : Response :=
  let id := req_id req in
  match find_key (req_values req) with
  | None => Response_err id "find requires values {_col: String, _val: Value}"
  | Some (col, v) =>
      match find_shards s (1 <? shard_count (sv_config s) (req_table req)) col v
              (shard_tables (sv_config s) (req_table req)) with
      | Err e => Response_err id e
      | Ok None => Response_err id "not found"
      | Ok (Some (shard, row)) =>
          match enforce_owner s authed OFind (req_table req) (row_values row) with
          | Err _ => Response_err id "not found"
          | Ok _ => Response_ok id [row_to_view (compose_id shard (row_id row)) row]
          end
      end
  end.

(** ** [Subscribe] (polling) and [Search] *)

Definition subscribe_since (m : values) : Z :=
  match m !! "_since"%string with
  | Some (VInt64 n) | Some (VInt32 n) => Z.max n 0
  | Some (VUInt64 n) | Some (VUInt32 n) => n
  | _ => 0
  end.
Definition subscribe_limit (m : values) : Z :=
  match m !! "_limit"%string with
  | None => 100
  | Some v => clamp (match v with VInt64 n => Z.max n 0 | VUInt64 n => n | _ => 100 end) 1 MAX_SUBSCRIBE_LIMIT
  end.

(** A record whose row is there and belongs to the caller. *)
Definition owned_change s (authed : option Identity) (r : ChangeRecord) : bool :=
  let '(physical, local) := route_id (sv_config s) (ch_table r) (ch_row_id r) in
  match get (sv_engine s) physical local with
  | Ok (Some row) => is_ok (enforce_owner s authed OSubscribe (ch_table r) (row_values row))
  | _ => false
  end.

Definition dispatch_subscribe s (authed : option Identity) (req : Request) : Response * Server :=
  let m := default ∅ (req_values req) in
  let '(recs, rt) := read_changes (sv_realtime s) (req_table req) (subscribe_since m) (subscribe_limit m) in
  let s := with_realtime s rt in
  let recs := if bool_decide (is_Some (owner_column s (req_table req)))
              then filter (λ r, owned_change s authed r = true) recs else recs in
  (Response_ok (req_id req) (change_view <$> recs), s).

Definition search_limit (m : values) : Z :=
  clamp (match m !! "_limit"%string with
         | Some (VInt64 n) | Some (VInt32 n) => Z.max n 0
         | Some (VUInt64 n) | Some (VUInt32 n) => n
         | _ => 20
         end) 1 100.

(** A posting's row, if it is there and its owner lets it be seen. *)
Definition search_hit s (authed : option Identity) (req_base : string) (h : posting) : option RowView :=
  match get (sv_engine s) h.1 h.2 with
  | Ok (Some row) =>
      match enforce_owner s authed OSearch (base_of_physical (sv_config s) h.1) (row_values row) with
      | Err _ => None
      | Ok _ => Some (row_to_view (compose_id (shard_of_physical (sv_config s) req_base h.1) h.2) row)
      end
  | _ => None
  end.

Definition dispatch_search s (authed : option Identity) (req : Request) : Response :=
  match req_values req ≫= (λ m, match m !! "_q"%string with Some (VString q) => Some (q, search_limit m) | _ => None end) with
  | None => Response_err (req_id req) "search requires values {_q: String}"
  | Some (q, limit) =>
      Response_ok (req_id req) (omap (search_hit s authed (req_table req)) (search_posts (sv_search s) q limit))
  end.

(** ** Tables, jobs and procedures *)

Definition dispatch_version (req : Request) : Response :=
  Response_ok (req_id req)
    (one_row (<["server"%string := VString SERVER_VERSION]> {["protocol"%string := VInt64 PROTOCOL_VERSION]})).

Definition dispatch_table_create (env : Env) s (req : Request) : Response * Server :=
  let id := req_id req in
  match req_values req ≫= (.!! "schema"%string) with
  | Some (VJson j) =>
      match from_json (env_uuid env) j with
      | Err e => (Response_err id ("invalid schema: " +:+ schema_json_error_text e), s)
      | Ok schema =>
          let '(r, e) := create_table (sv_engine s) schema in
          (match r with
           | Ok _ => Response_ok id (one_row {["table"%string := VString (schema_name schema)]})
           | Err er => Response_err id (core_error_text er)
           end, with_engine s e)
      end
  | _ => (Response_err id "table_create requires values {schema: Json}", s)
  end.

(** The job is stored as pending and its runner spawned on the blocking pool. *)
Definition dispatch_job_submit (env : Env) s (req : Request) : Response * Server :=
  let id := req_id req in
  let usage := (Response_err id "job_submit requires values {wasm: Bytes, input: String}", s) in
  match req_values req with
  | None => usage
  | Some vs =>
      match vs !! "wasm"%string, vs !! "input"%string with
      | Some (VBytes wasm), Some (VString input) =>
          let label := match vs !! "_type"%string with Some (VString l) => l | _ => "wasm"%string end in
          let job := Job_new (env_uuid env) (env_utc env) label in
          let job := match vs !! "_retries"%string with
                     | Some (VInt64 n) => with_max_retries job (clamp n 0 5)
                     | _ => job
                     end in
          match store_wasm_job (sv_wasm_jobs s) job (uuid_to_string (env_uuid env)) wasm input
                  (dec (Z.of_nat (blen input))) with
          | (Err e, jobs) => (Response_err id (store_error_text e), with_wasm_jobs s jobs)
          | (Ok job_id, jobs) =>
              let s := with_wasm_jobs s jobs in
              let s := with_spawned s (sv_spawned s ++ [job_id]) in
              (Response_ok id
                 (one_row (<["job_id"%string := VString job_id]> {["status"%string := VString "pending"]})), s)
          end
      | _, _ => usage
      end
  end.

Definition job_view (job_id : string) (j : Job) : values :=
  let out := <["job_id"%string := VString job_id]> {["status"%string := VString (job_status_name (status j))]} in
  let out := match job_result j with Some r => <["result"%string := VString r]> out | None => out end in
  match job_error j with Some e => <["error"%string := VString e]> out | None => out end.
Definition dispatch_job_poll s (req : Request) : Response :=
  let id := req_id req in
  match req_values req ≫= (.!! "_job"%string) with
  | Some (VString job_id) =>
      match get_wasm_job (sv_wasm_jobs s) job_id with
      | Some job => Response_ok id (one_row (job_view job_id job))
      | None => Response_err id ("job not found: " +:+ job_id)
      end
  | _ => Response_err id "job_poll requires values {_job: String}"
  end.

(** [{:?}] of an [Option<&Value>] *)
Definition opt_debug (o : option value) : string :=
  match o with Some v => "Some(" +:+ value_debug v +:+ ")" | None => "None" end.

Definition dispatch_proc_deploy s (req : Request) : reply * Server :=
  let id := req_id req in
  let err m := (Some (Response_err id m), s) in
  match fn_name (req_table req), req_values req with
  | None, _ => err "proc_deploy requires table `fn:<procedure>`"
  | _, None => err "proc_deploy requires values {v, procedure}"
  | Some name, Some vs =>
      match vs !! "v"%string with
      | Some (VInt64 1) | Some (VUInt64 1) =>
          match vs !! "procedure"%string with
          | Some (VJson j) =>
              match deploy_from_parsed (Some 1) j (sv_functions s) with
              | Err Panicked => (None, s)
              | Err (Rejected e) => err ("invalid procedure: " +:+ e)
              | Ok proc =>
                  if negb (String.eqb (proc_name proc) name)
                  then err ("envelope procedure " +:+ str_debug (proc_name proc) +:+ " must match table fn:<name>")
                  else
                    match deploy_procedure s proc with
                    | (Ok version, s) =>
                        (Some (Response_ok id
                           (one_row (<["name"%string := VString name]> {["version"%string := VUInt64 version]}))), s)
                    | (Err e, s) => (Some (Response_err id ("invalid procedure: " +:+ e)), s)
                    end
              end
          | _ => err "proc_deploy requires values.procedure as JSON object"
          end
      | other => err ("unsupported envelope version (want 1): " +:+ opt_debug other)
      end
  end.

Definition proc_view (p : string * string * Z * Z) : RowView :=
  let '(name, description, version, steps) := p in
  MkRowView 0 (<["name"%string := VString name]> (<["description"%string := VString description]>
    (<["version"%string := VUInt64 version]> {["steps"%string := VUInt64 steps]}))).
Definition dispatch_proc_list s (req : Request) : Response :=
  Response_ok (req_id req) (proc_view <$> list_procedures s).

Definition dispatch_proc_drop s (req : Request) : Response * Server :=
  let id := req_id req in
  match fn_name (req_table req) with
  | None => (Response_err id "proc_drop requires table `fn:<procedure>`", s)
  | Some name =>
      let '(found, s) := drop_procedure s name in
      (if found : bool then Response_ok id [] else Response_err id ("procedure not found: " +:+ name), s)
  end.

(** ** The effects of a committed write: log, change log, search, fanout *)

Definition entry_op (entry : EntryType) : string :=
  match entry with EInsert => "insert" | EUpdate => "update" | EDelete => "delete" | _ => "write" end.

Definition emit_write_effects (env : Env) s (base physical : string) (entry : EntryType) (local_id global_id : Z)
    (vs : option values) : Server :=
  let data := from_option values_to_json_bytes [] vs in
  let s := snd (wal_log s entry physical global_id data) in
  let s := s_record_change s (env_micros env) base (entry_op entry) global_id in
  match entry, vs with
  | EInsert, Some vs => if starts_with physical "posts" then post_effects s physical local_id vs else s
  | _, _ => s
  end.

(** ** Uniqueness pre-checks of buffered inserts *)

(** The keys of [seen_uniques]. *)
Abbreviation unique_keys := (gset (string * string * string)).

Fixpoint check_unique_cols (what physical : string) s (cols : list ColumnDef) (vs : values) (seen : unique_keys)
    : result string () * unique_keys :=
  match cols with
  | [] => (Ok (), seen)
  | c :: cols =>
      if negb (unique c) then check_unique_cols what physical s cols vs seen else
      match vs !! col_name c with
      | None => check_unique_cols what physical s cols vs seen
      | Some v =>
          let k := (physical, col_name c, value_debug v) in
          let at_col := physical +:+ "." +:+ col_name c in
          if bool_decide (k ∈ seen)
          then (Err ("duplicate value in " +:+ what +:+ " for unique " +:+ at_col), seen)
          else
            let seen := {[k]} ∪ seen in
            match lookup_by_unique (sv_engine s) physical (col_name c) v with
            | Ok (Some _) => (Err ("duplicate value for unique " +:+ at_col), seen)
            | _ => check_unique_cols what physical s cols vs seen
            end
      end
  end.
Definition check_unique (what : string) s (physical : string) (vs : values) (seen : unique_keys)
    : result string () * unique_keys :=
  match engine_schema (sv_engine s) physical with
  | Ok schema => check_unique_cols what physical s (columns schema) vs seen
  | Err _ => (Ok (), seen)
  end.

(** ** Procedure calls *)

Record ProcWrite : Type := MkProcWrite {
  pw_base : string;
  pw_physical : string;
  pw_shard : Z;
  pw_kind : EntryType;
  pw_values : option values
}.

(** [ProcBackend]: the server it borrows, the caller, and the open transaction. *)
Record ProcBackend : Type := MkProcBackend {
  pb_server : Server;
  pb_ident : option Identity;
  pb_tx : Transaction;
  pb_writes : list ProcWrite;
  pb_seen : unique_keys
}.
Definition pb_set_tx (b : ProcBackend) (tx : Transaction) : ProcBackend :=
  MkProcBackend (pb_server b) (pb_ident b) tx (pb_writes b) (pb_seen b).
Definition pb_set_seen (b : ProcBackend) (seen : unique_keys) : ProcBackend :=
  MkProcBackend (pb_server b) (pb_ident b) (pb_tx b) (pb_writes b) seen.
Definition pb_push (b : ProcBackend) (w : ProcWrite) : ProcBackend :=
  MkProcBackend (pb_server b) (pb_ident b) (pb_tx b) (pb_writes b ++ [w]) (pb_seen b).

Definition deny (b : ProcBackend) (op : Op) (table : string) : result runtime_error () :=
  map_err (λ e, ExecutionError (auth_error_text e)) (authorize (pb_server b) (pb_ident b) op table).
Definition deny_row (b : ProcBackend) (op : Op) (table : string) (vs : values) : result runtime_error () :=
  map_err (λ e, ExecutionError (auth_error_text e)) (enforce_owner (pb_server b) (pb_ident b) op table vs).

Definition pb_get (b : ProcBackend) (physical : string) (local : Z) : result runtime_error (option Row) * ProcBackend :=
  let '(r, tx) := tx_get (sv_mgr (pb_server b)) (pb_tx b) (physical, local) in
  (map_err (λ e, ExecutionError (tx_error_text (tx_id (pb_tx b)) e)) r, pb_set_tx b tx).

(** [tx.insert], [tx.update], [tx.delete], then the write recorded. *)
Definition pb_buffer (b : ProcBackend) (w : WriteOp) (record : ProcWrite) : result runtime_error () * ProcBackend :=
  match buffer (pb_tx b) w with
  | (Ok _, tx) => (Ok (), pb_push (pb_set_tx b tx) record)
  | (Err e, tx) => (Err (ExecutionError (tx_error_text (tx_id (pb_tx b)) e)), pb_set_tx b tx)
  end.

Definition pb_read (b : ProcBackend) (table : string) (id : Z) : result runtime_error (option values) * ProcBackend :=
  match deny b OGet table with
  | Err e => (Err e, b)
  | Ok _ =>
      let '(physical, local) := route_id (sv_config (pb_server b)) table id in
      match pb_get b physical local with
      | (Err e, b) => (Err e, b)
      | (Ok None, b) => (Ok None, b)
      | (Ok (Some r), b) =>
          match deny_row b OGet table (row_values r) with
          | Err e => (Err e, b)
          | Ok _ => (Ok (Some (row_values r)), b)
          end
      end
  end.

Definition pb_insert (b : ProcBackend) (table : string) (vs : values) : result runtime_error () * ProcBackend :=
  match deny b OInsert table with
  | Err e => (Err e, b)
  | Ok _ =>
      if blob_too_large table vs then (Err (ExecutionError "blob too large (max 256KiB)"), b) else
      let '(physical, shard) := route_insert (sv_config (pb_server b)) table vs in
      let '(uniq, seen) := check_unique "call" (pb_server b) physical vs (pb_seen b) in
      let b := pb_set_seen b seen in
      match uniq with
      | Err e => (Err (ExecutionError e), b)
      | Ok _ =>
          match deny_row b OInsert table vs with
          | Err e => (Err e, b)
          | Ok _ => pb_buffer b (WInsert physical (MkRow 0 vs)) (MkProcWrite table physical shard EInsert (Some vs))
          end
      end
  end.

(** A read before the write: the row must exist and be the caller's. *)
Definition pb_existing (b : ProcBackend) (op : Op) (table physical : string) (id local : Z)
    : result runtime_error () * ProcBackend :=
  match pb_get b physical local with
  | (Err e, b) => (Err e, b)
  | (Ok None, b) => (Err (ExecutionError ("row not found: " +:+ table +:+ ":" +:+ dec id)), b)
  | (Ok (Some r), b) => (deny_row b op table (row_values r), b)
  end.

Definition pb_update (b : ProcBackend) (table : string) (id : Z) (vs : values) : result runtime_error () * ProcBackend :=
  match deny b OUpdate table with
  | Err e => (Err e, b)
  | Ok _ =>
      let '(physical, local) := route_id (sv_config (pb_server b)) table id in
      match pb_existing b OUpdate table physical id local with
      | (Err e, b) => (Err e, b)
      | (Ok _, b) =>
          pb_buffer b (WUpdate physical local vs) (MkProcWrite table physical (split_id id).1 EUpdate (Some vs))
      end
  end.

Definition pb_delete (b : ProcBackend) (table : string) (id : Z) : result runtime_error () * ProcBackend :=
  match deny b ODelete table with
  | Err e => (Err e, b)
  | Ok _ =>
      let '(physical, local) := route_id (sv_config (pb_server b)) table id in
      match pb_existing b ODelete table physical id local with
      | (Err e, b) => (Err e, b)
      | (Ok _, b) => pb_buffer b (WDelete physical local) (MkProcWrite table physical (split_id id).1 EDelete None)
      end
  end.

Definition pb_call_function (b : ProcBackend) (name : string) (args : values) : result runtime_error value :=
  map_err ExecutionError (call_function (pb_server b) name args).

#[export] Instance proc_backend : ProcedureBackend ProcBackend := {|
  be_read := pb_read;
  be_insert := pb_insert;
  be_update := pb_update;
  be_delete := pb_delete;
  be_call_function := pb_call_function
|}.

(** [json_to_value] of the transport. *)
Definition json_to_value (j : json) : value :=
  match j with
  | JNull => VNull
  | JBool b => VBoolean b
  | JNumber n =>
      match num_as_i64 n with
      | Some i => VInt64 i
      | None =>
          match num_as_u64 n with
          | Some u => VUInt64 u
          | None => match num_as_f64 n with Some f => VFloat64 f | None => VJson j end
          end
      end
  | JString s => VString s
  | JArray _ | JObject _ => VJson j
  end.

(** The effects of the call's writes, each with the id its commit gave it. *)
Fixpoint emit_applied (envs : nat → Env) s (ws : list (ProcWrite * key)) : list json * Server :=
  match ws with
  | [] => ([], s)
  | (w, (_, local)) :: ws =>
      let global := compose_id (pw_shard w) local in
      let s := emit_write_effects (envs O) s (pw_base w) (pw_physical w) (pw_kind w) local global (pw_values w) in
      let '(rest, s) := emit_applied (λ n, envs (S n)) s ws in
      (JObject [("id"%string, json_of_u64 global); ("table"%string, JString (pw_base w))] :: rest, s)
  end.

Definition call_row (v : value) (applied : list json) : values :=
  let vs := match v with
            | VJson (JObject m) => foldl (λ vs kv, <[kv.1 := json_to_value kv.2]> vs) ∅ m
            | v => {["result"%string := v]}
            end in
  <["_applied"%string := VJson (JArray applied)]> vs.

(** A call: one transaction around the procedure's steps. *)
Definition execute_procedure (envs : nat → Env) s (authed : option Identity) (req : Request) : Response * Server :=
  let id := req_id req in
  match fn_name (req_table req) with
  | None => (Response_err id "call requires table `fn:<procedure>`", s)
  | Some name =>
      match get_procedure s name with
      | None => (Response_err id ("procedure not found: " +:+ name), s)
      | Some proc =>
          let '(tx, m) := begin (sv_mgr s) RepeatableRead in
          let s := with_mgr s m in
          let '(out, b) := run_procedure (MkProcBackend s authed tx [] ∅) proc (default ∅ (req_values req)) DEFAULT_FUEL in
          match out with
          | Err e => (Response_err id ("procedure aborted: " +:+ runtime_error_text e), s)
          | Ok (v, _) =>
              let '(r, _, m) := commit (sv_mgr s) (pb_tx b) in
              let s := with_mgr s m in
              match r with
              | Err e => (Response_err id ("procedure aborted: " +:+ tx_error_text (tx_id tx) e), s)
              | Ok touched =>
                  let '(applied, s) := emit_applied envs s (zip (pb_writes b) touched) in
                  (Response_ok id (one_row (call_row v applied)), s)
              end
          end
      end
  end.

(** ** [dispatch] *)

Definition dispatch (envs : nat → Env) s (authed : option Identity) (req : Request) : reply * Server :=
  let env := envs O in
  let answer (r : Response * Server) := (Some r.1, r.2) in
  match req_op req with
  | Ping => (Some (Response_ok (req_id req) []), s)
  | OVersion => (Some (dispatch_version req), s)
  | OTableCreate => answer (dispatch_table_create env s req)
  | OInsert => answer (dispatch_insert env s authed req)
  | OGet => (Some (dispatch_get s authed req), s)
  | OUpdate => answer (dispatch_update env s authed req)
  | ODelete => answer (dispatch_delete env s authed req)
  | OScan => (Some (dispatch_scan s authed req), s)
  | OFind => (Some (dispatch_find s authed req), s)
  | OSubscribe => answer (dispatch_subscribe s authed req)
  | OSearch => (Some (dispatch_search s authed req), s)
  | OCall => answer (execute_procedure envs s authed req)
  | OJobSubmit => answer (dispatch_job_submit env s req)
  | OJobPoll => (Some (dispatch_job_poll s req), s)
  | OProcDeploy => dispatch_proc_deploy s req
  | OProcList => (Some (dispatch_proc_list s req), s)
  | OProcDrop => answer (dispatch_proc_drop s req)
  end.

(** A token in an operation's values makes its bearer the connection's identity. *)
Definition handshake (env : Env) s (authed : option Identity) (req : Request) : option Identity * Server * Request :=
  let '(tok, vs) := take_auth_token (req_values req) in
  let req := MkRequest (req_id req) (req_op req) (req_table req) (req_row_id req) vs in
  match tok with
  | None => (authed, s, req)
  | Some tok =>
      match resolve_token s (env_utc env) tok with
      | (Some id, s) => (Some id, s, req)
      | (None, s) => (authed, s, req)
      end
  end.

(** One operation of a connection: handshake, authorization, dispatch. *)
Definition serve_op (envs : nat → Env) s (authed : option Identity) (req : Request)
    : reply * option Identity * Server :=
  let '(authed, s, req) := handshake (envs O) s authed req in
  match authorize s authed (req_op req) (req_table req) with
  | Err e => (Some (Response_err (req_id req) (auth_error_text e)), authed, s)
  | Ok _ => let '(r, s) := dispatch envs s authed req in (r, authed, s)
  end.

(** The loop over the operations of a batch. *)
Fixpoint serve_batch (envs : nat → nat → Env) s (authed : option Identity) (ops : list Request)
    : option (list Response) * option Identity * Server :=
  match ops with
  | [] => (Some [], authed, s)
  | op :: ops =>
      match serve_op (envs O) s authed op with
      | (None, authed, s) => (None, authed, s)
      | (Some r, authed, s) =>
          let '(rs, authed, s) := serve_batch (λ n, envs (S n)) s authed ops in ((r ::.) <$> rs, authed, s)
      end
  end.

(** ** Atomic batches *)

Inductive Buffered : Type :=
| BPing
| BGet (view : RowView)
| BInsert (base physical : string) (shard : Z) (vs : values) (idem : option string)
| BUpdate (base physical : string) (local global : Z)
| BDelete (base physical : string) (local global : Z).

Definition atomic_op (op : Op) : bool :=
  match op with Ping | OGet | OInsert | OUpdate | ODelete => true | _ => false end.

Definition aborted (why : string) : string := "atomic batch aborted: " +:+ why.

(** Phase 0: every operation is authorized, each under the identity its prefix of the
    batch has established; an error is the abort's text. *)
Fixpoint atomic_auth (envs : nat → Env) s (authed : option Identity) (ops : list Request)
    : result string (list Request) * option Identity * Server :=
  match ops with
  | [] => (Ok [], authed, s)
  | op :: ops =>
      let '(authed, s, op) := handshake (envs O) s authed op in
      match authorize s authed (req_op op) (req_table op) with
      | Err e => (Err (aborted ("unauthorized op " +:+ dec (req_id op) +:+ ": " +:+ auth_error_text e)), authed, s)
      | Ok _ =>
          if negb (atomic_op (req_op op))
          then (Err (aborted (op_debug (req_op op) +:+ " not supported in atomic batch")), authed, s)
          else
            let '(rest, authed, s) := atomic_auth (λ n, envs (S n)) s authed ops in
            ((op ::.) <$> rest, authed, s)
      end
  end.

(** The read before a buffered write or for a [Get]. *)
Definition atomic_read s (authed : option Identity) (op : Op) (base physical : string) (local : Z)
    (hide : bool) (tx : Transaction) : result string Row * Transaction :=
  let missing : string := row_not_found local in
  match tx_get (sv_mgr s) tx (physical, local) with
  | (Ok (Some row), tx) =>
      (match enforce_owner s authed op base (row_values row) with
       | Ok _ => Ok row
       | Err e => Err (if hide : bool then missing else auth_error_text e)
       end, tx)
  | (Ok None, tx) => (Err missing, tx)
  | (Err e, tx) => (Err (tx_error_text (tx_id tx) e), tx)
  end.

Definition atomic_buffer (tx : Transaction) (w : WriteOp) (b : Buffered) : result string Buffered * Transaction :=
  match buffer tx w with
  | (Ok _, tx) => (Ok b, tx)
  | (Err e, tx) => (Err (tx_error_text (tx_id tx) e), tx)
  end.

Definition atomic_insert s (authed : option Identity) (op : Request) (tx : Transaction) (seen : unique_keys)
    : result string Buffered * Transaction * unique_keys :=
  match req_values op with
  | None => (Err "insert requires values", tx, seen)
  | Some vs =>
      if blob_too_large (req_table op) vs then (Err "blob too large (max 256KiB)", tx, seen) else
      let '(idem, vs) := take_idem vs in
      match idem ≫= idem_lookup s with
      | Some cached => (Ok (BGet (MkRowView cached vs)), tx, seen)
      | None =>
          let '(physical, shard) := route_insert (sv_config s) (req_table op) vs in
          match enforce_owner s authed OInsert (req_table op) vs with
          | Err e => (Err (auth_error_text e), tx, seen)
          | Ok _ =>
              let '(uniq, seen) := check_unique "batch" s physical vs seen in
              match uniq with
              | Err e => (Err e, tx, seen)
              | Ok _ =>
                  let '(r, tx) := atomic_buffer tx (WInsert physical (MkRow 0 vs))
                                    (BInsert (req_table op) physical shard vs idem) in
                  (r, tx, seen)
              end
          end
      end
  end.

(** Phase 1 for one operation: what it buffers, or why the batch fails. *)
Definition buffer_op s (authed : option Identity) (op : Request) (tx : Transaction) (seen : unique_keys)
    : result string Buffered * Transaction * unique_keys :=
  let base := req_table op in
  let with_seen (r : result string Buffered * Transaction) := (r.1, r.2, seen) in
  match req_op op with
  | Ping => (Ok BPing, tx, seen)
  | OGet =>
      match req_row_id op with
      | None => (Err "get requires row_id", tx, seen)
      | Some global =>
          let '(physical, local) := route_id (sv_config s) base global in
          let '(r, tx) := atomic_read s authed OGet base physical local true tx in
          ((λ row, BGet (row_to_view global row)) <$> r, tx, seen)
      end
  | OInsert => atomic_insert s authed op tx seen
  | OUpdate =>
      match req_row_id op with
      | None => (Err "update requires row_id", tx, seen)
      | Some global =>
          let '(physical, local) := route_id (sv_config s) base global in
          match req_values op with
          | None => (Err "update requires values", tx, seen)
          | Some vs =>
              match atomic_read s authed OUpdate base physical local false tx with
              | (Err e, tx) => (Err e, tx, seen)
              | (Ok _, tx) => with_seen (atomic_buffer tx (WUpdate physical local vs) (BUpdate base physical local global))
              end
          end
      end
  | ODelete =>
      match req_row_id op with
      | None => (Err "delete requires row_id", tx, seen)
      | Some global =>
          let '(physical, local) := route_id (sv_config s) base global in
          match atomic_read s authed ODelete base physical local false tx with
          | (Err e, tx) => (Err e, tx, seen)
          | (Ok _, tx) => with_seen (atomic_buffer tx (WDelete physical local) (BDelete base physical local global))
          end
      end
  | o => (Err (op_debug o +:+ " not supported in atomic batch"), tx, seen)
  end.

Fixpoint buffer_ops s (authed : option Identity) (ops : list Request) (tx : Transaction) (seen : unique_keys)
    : result string (list (Z * Buffered)) * Transaction :=
  match ops with
  | [] => (Ok [], tx)
  | op :: ops =>
      match buffer_op s authed op tx seen with
      | (Err e, tx, _) => (Err (aborted ("op " +:+ dec (req_id op) +:+ ": " +:+ e)), snd (rollback (sv_mgr s) tx))
      | (Ok b, tx, seen) =>
          let '(rest, tx) := buffer_ops s authed ops tx seen in (((req_id op, b) ::.) <$> rest, tx)
      end
  end.

(** Phase 3: the responses of a committed batch and the effects of its writes; each
    write takes the next of the keys the commit touched. *)
Definition mismatch (rid : Z) : Response := Response_err rid (aborted "commit/response mismatch").

Fixpoint emit_results (envs : nat → Env) s (bs : list (Z * Buffered)) (touched : list key) : list Response * Server :=
  match bs with
  | [] => ([], s)
  | (rid, b) :: bs =>
      let next s touched r := let '(rs, s) := emit_results (λ n, envs (S n)) s bs touched in (r :: rs, s) in
      match b, touched with
      | BPing, _ => next s touched (Response_ok rid [])
      | BGet view, _ => next s touched (Response_ok rid [view])
      | _, [] => next s [] (mismatch rid)
      | BInsert base physical shard vs idem, (_, local) :: touched =>
          let global := compose_id shard local in
          let s := emit_write_effects (envs O) s base physical EInsert local global (Some vs) in
          let s := match idem with Some key => idem_record s key global | None => s end in
          next s touched (Response_ok rid [MkRowView global vs])
      | BUpdate base physical local global, _ :: touched =>
          match get (sv_engine s) physical local with
          | Ok (Some row) =>
              let s := emit_write_effects (envs O) s base physical EUpdate local global (Some (row_values row)) in
              next s touched (Response_ok rid [row_to_view global row])
          | _ => next s touched (Response_err rid ("row not found after commit: " +:+ dec local))
          end
      | BDelete base physical local global, _ :: touched =>
          let s := emit_write_effects (envs O) s base physical EDelete local global None in
          next s touched (Response_ok rid [])
      end
  end.

Definition execute_atomic (envs : nat → Env) s (authed : option Identity) (batch : BatchRequest)
    : BatchResponse * option Identity * Server :=
  let all ids msg := MkBatchResponse (breq_id batch) ((λ rid, Response_err rid msg) <$> ids) in
  let abort_all msg := all (req_id <$> breq_ops batch) msg in
  match atomic_auth envs s authed (breq_ops batch) with
  | (Err msg, authed, s) => (abort_all msg, authed, s)
  | (Ok ops, authed, s) =>
      let '(tx, m) := begin (sv_mgr s) RepeatableRead in
      let s := with_mgr s m in
      match buffer_ops s authed ops tx ∅ with
      | (Err msg, _) => (abort_all msg, authed, s)
      | (Ok bs, tx) =>
          let '(r, tx, m) := commit (sv_mgr s) tx in
          let s := with_mgr s m in
          match r with
          | Err e => (all bs.*1 (aborted (tx_error_text (tx_id tx) e)), authed, s)
          | Ok touched =>
              let '(rs, s) := emit_results envs s bs touched in (MkBatchResponse (breq_id batch) rs, authed, s)
          end
      end
  end.

(** ** The fast path, and a frame of a connection *)

Definition encode_get_fast (max : Z) s (authed : option Identity) (req : Request) : result protocol_error (list byte) :=
  let id := req_id req in
  match req_row_id req with
  | None => encode_response max (Response_err id "get requires row_id")
  | Some global =>
      let '(physical, local) := route_id (sv_config s) (req_table req) global in
      match get (sv_engine s) physical local with
      | Ok (Some row) =>
          match enforce_owner s authed OGet (req_table req) (row_values row) with
          | Err _ => encode_response max (Response_err id (row_not_found global))
          | Ok _ => encode_ok_single max id global (row_values row)
          end
      | Ok None => encode_response max (Response_err id (row_not_found global))
      | Err e => encode_response max (Response_err id (core_error_text e))
      end
  end.

Definition too_large (n : nat) : string := "response too large (" +:+ dec (Z.of_nat n) +:+ " rows)".

Definition encode_scan_fast (max : Z) s (authed : option Identity) (req : Request) : result protocol_error (list byte) :=
  match scan_page s authed req with
  | Err e => encode_response max (Response_err (req_id req) e)
  | Ok rows =>
      match encode_ok_borrowed max (req_id req) ((λ gr, (gr.1, row_values gr.2)) <$> rows) with
      | Ok f => Ok f
      | Err _ => encode_response max (Response_err (req_id req) (too_large (length rows)))
      end
  end.

(** What a frame leads to: bytes to write; a last message before closing; a push
    stream; an error that closes; a panic of the task. *)
Inductive outcome : Type :=
| Send (frame : list byte)
| SendAndClose (frame : list byte)
| Stream (ack_id : Z) (table : string)
| CloseConn (e : protocol_error)
| TaskPanicked.

Definition send (r : result protocol_error (list byte)) : outcome :=
  match r with Ok f => Send f | Err e => CloseConn e end.
Definition send_last (r : result protocol_error (list byte)) : outcome :=
  match r with Ok f => SendAndClose f | Err e => CloseConn e end.

Definition encode_or_too_large (max : Z) (r : Response) : result protocol_error (list byte) :=
  match encode_response max r with
  | Ok f => Ok f
  | Err _ => encode_response max (Response_err (resp_id r) (too_large (length (resp_rows r))))
  end.
Definition encode_batch_or_err (max : Z) (b : BatchResponse) : result protocol_error (list byte) :=
  match encode_batch_response max b with
  | Ok f => Ok f
  | Err _ => encode_response max (Response_err (bresp_id b) "batch response too large")
  end.

Definition handle_single (max : Z) (envs : nat → Env) s (authed : option Identity) (req : Request)
    : outcome * option Identity * Server :=
  let '(authed, s, req) := handshake (envs O) s authed req in
  match authorize s authed (req_op req) (req_table req) with
  | Err e => (send (encode_response max (Response_err (req_id req) (auth_error_text e))), authed, s)
  | Ok _ =>
      if bool_decide (req_op req = OGet) then (send (encode_get_fast max s authed req), authed, s)
      else if bool_decide (req_op req = OScan) then (send (encode_scan_fast max s authed req), authed, s)
      else
        let '(r, s) := dispatch envs s authed req in
        (match r with
         | Some resp => send (encode_or_too_large max resp)
         | None => TaskPanicked
         end, authed, s)
  end.

(** The upgrade to a push stream, refused on tables with an owner column. *)
Definition handle_stream_subscribe (max : Z) (envs : nat → Env) s (authed : option Identity) (req : Request)
    : outcome * option Identity * Server :=
  let '(authed, s, req) := handshake (envs O) s authed req in
  match authorize s authed (req_op req) (req_table req) with
  | Err e => (send_last (encode_response max (Response_err (req_id req) (auth_error_text e))), authed, s)
  | Ok _ =>
      if require_auth (sv_config s) && bool_decide (is_Some (owner_column s (req_table req)))
      then (send_last (encode_response max
              (Response_err (req_id req) "push streams disabled on row-owner tables (poll instead)")), authed, s)
      else (Stream (req_id req) (req_table req), authed, s)
  end.

Definition batch_too_large (max : Z) (batch : BatchRequest) : option (result protocol_error (list byte)) :=
  if 4096 <? Z.of_nat (length (breq_ops batch))
  then Some (encode_response max (Response_err (breq_id batch) "batch too large (max 4096 ops)")) else None.

Definition handle_incoming (max : Z) (envs : nat → nat → Env) s (authed : option Identity) (i : Incoming)
    : outcome * option Identity * Server :=
  match i with
  | ISingle req =>
      if bool_decide (req_op req = OSubscribe) && is_stream_subscribe (req_values req)
      then handle_stream_subscribe max (envs O) s authed req
      else handle_single max (envs O) s authed req
  | IBatch batch =>
      match batch_too_large max batch with
      | Some r => (send r, authed, s)
      | None =>
          match serve_batch envs s authed (breq_ops batch) with
          | (Some rs, authed, s) => (send (encode_batch_or_err max (MkBatchResponse (breq_id batch) rs)), authed, s)
          | (None, authed, s) => (TaskPanicked, authed, s)
          end
      end
  | IAtomicBatch batch =>
      match batch_too_large max batch with
      | Some r => (send r, authed, s)
      | None =>
          let '(b, authed, s) := execute_atomic (λ n, envs n O) s authed batch in
          (send (encode_batch_or_err max b), authed, s)
      end
  end.

(** Counting the frame once it is answered: a push stream and a closing error are not
    counted as requests. *)
Definition handle_frame (max : Z) (envs : nat → nat → Env) (slow : bool) s (authed : option Identity) (i : Incoming)
    : outcome * option Identity * Server :=
  let '(o, authed, s) := handle_incoming max envs s authed i in
  (o, authed,
   match o with
   | Send f => record_io (record_request s slow) 0 (Z.of_nat (length f))
   | SendAndClose f => record_io s 0 (Z.of_nat (length f))
   | _ => s
   end).

(** A read of [n] bytes from the socket appended to the staging buffer, then the frames
    that are complete, each handled in turn. [Ok] goes on with what is left. *)
Inductive closing : Type := StagingOverflow | ProtocolClosed (e : protocol_error) | Ended (o : outcome).

Fixpoint handle_frames (fuel : nat) (max : Z) (envs : nat → nat → nat → Env) (slow : nat → bool) s (authed : option Identity)
    (staging : list byte) (out : list (list byte)) : option (result closing (list byte) * list (list byte) * option Identity * Server) :=
  match fuel with
  | O => None
  | S fuel =>
      match feed max staging with
      | (Err e, _) => Some (Err (ProtocolClosed e), out, authed, s)
      | (Ok None, staging) => Some (Ok staging, out, authed, s)
      | (Ok (Some payload), staging) =>
          match decode_incoming payload with
          | Err e => Some (Err (ProtocolClosed e), out, authed, s)
          | Ok i =>
              match handle_frame max (envs O) (slow O) s authed i with
              | (Send f, authed, s) => handle_frames fuel max (λ n, envs (S n)) (λ n, slow (S n)) s authed staging (out ++ [f])
              | (SendAndClose f, authed, s) => Some (Err (Ended (SendAndClose f)), out ++ [f], authed, s)
              | (o, authed, s) => Some (Err (Ended o), out, authed, s)
              end
          end
      end
  end.

Definition on_read (max : Z) (envs : nat → nat → nat → Env) (slow : nat → bool) s (authed : option Identity) (staging chunk : list byte)
    : option (result closing (list byte) * list (list byte) * option Identity * Server) :=
  let s := record_io s (Z.of_nat (length chunk)) 0 in
  let staging := staging ++ chunk in
  if max + Z.of_nat HEADER_LEN <? Z.of_nat (length staging) then Some (Err StagingOverflow, [], authed, s)
  else handle_frames (S (length staging)) max envs slow s authed staging [].
End dispatch.
