(* ===== verification/Serving.v ===== *)
(** What [Dispatch] guarantees: the rows, the log and the versions a handler leaves;
    who can see and change which row; the fast path; what anonymous connections and
    callers of procedures can do. *)
From S2P Require Import Prelude Float Value HashMap Schema Core Policy Codec Snapshot Wal GroupCommit Durability Tx Shard Query Text Window Changes Jobs Runtime Deploy Server Dispatch.

Local Open Scope Z_scope.

(** ** Engine operations, by the row they address *)

Lemma insert_at e n r id e' :
  insert e n r = (Ok id, e') →
  row_at e' (n, id) = Some (MkRow id (row_values r)) ∧ ∀ k, k ≠ (n, id) → row_at e' k = row_at e k.
Proof.
  intros E. destruct (apply_write_ok e (WInsert n r) (n, id) e') as (_ & _ & F & R); [by simpl; rewrite E|].
  split; [exact R|exact F].
Qed.

Lemma insert_unchecked_at e n r id e' :
  insert_unchecked e n r = (Ok id, e') →
  row_at e' (n, id) = Some (MkRow id (row_values r)) ∧ ∀ k, k ≠ (n, id) → row_at e' k = row_at e k.
Proof.
  intros (t & t' & Ht & (-> & Er & _)%t_insert_unchecked_rows & ->)%with_table_ok. split.
  - rewrite row_at_insert. cbn [fst snd]. rewrite decide_True by done. by rewrite Er, lookup_insert_eq.
  - intros [m i] N. rewrite row_at_insert. cbn [fst snd]. case_decide as D; [|done]. subst m.
    unfold row_at. cbn [fst snd]. rewrite Ht. cbn. rewrite Er. apply lookup_insert_ne. congruence.
Qed.

Lemma eng_update_at e n id vs row e' :
  update e n id vs = (Ok row, e') →
  (∃ cur, row_at e (n, id) = Some cur ∧ row = MkRow (row_id cur) (vs ∪ row_values cur)) ∧
  row_at e' (n, id) = Some row ∧ ∀ k, k ≠ (n, id) → row_at e' k = row_at e k.
Proof.
  intros E. destruct (apply_write_ok e (WUpdate n id vs) (n, id) e') as (_ & _ & F & cur & Hc & R);
    [by simpl; rewrite E|].
  apply with_table_ok in E as (t & t' & Ht & (cur' & Hc' & Hr & _)%t_update_rows & _).
  assert (cur' = cur) as -> by (unfold row_at in Hc; cbn in Hc; rewrite Ht in Hc; cbn in Hc; congruence).
  split_and!; [by exists cur|by rewrite Hr|exact F].
Qed.

Lemma update_err_at e n id vs er e' : update e n id vs = (Err er, e') → e' = e.
Proof. apply with_table_err. intros *. apply t_update_err. Qed.

Lemma eng_delete_at e n id b e' :
  delete_row e n id = (Ok b, e') →
  b = bool_decide (is_Some (row_at e (n, id))) ∧ row_at e' (n, id) = None ∧
  ∀ k, k ≠ (n, id) → row_at e' k = row_at e k.
Proof.
  intros E. destruct (apply_write_ok e (WDelete n id) (n, id) e') as (_ & _ & F & R); [by simpl; rewrite E|].
  split_and!; [|exact R|exact F].
  unfold delete_row in E. destruct (take e n id) as [r e1] eqn:T. destruct r as [o|]; [|done].
  injection E as <- _. apply with_table_ok in T as (t & t' & Ht & T & _).
  destruct (t_take t id) as [x t1] eqn:Tt. injection T as <- _. apply t_take_rows in Tt as (-> & _).
  unfold row_at. cbn. by rewrite Ht.
Qed.

Lemma delete_err_at e n id er e' : delete_row e n id = (Err er, e') → e' = e.
Proof.
  unfold delete_row. destruct (take e n id) as [r e1] eqn:T. destruct r; [done|]. intros [= -> <-].
  eapply (with_table_err (λ t, let '(r, t) := t_take t id in (Ok r, t))); [|exact T].
  intros t er0 t'. by destruct (t_take t id).
Qed.

Lemma store_err_at (unchecked : bool) e n r er e' :
  (if unchecked then insert_unchecked e n r else insert e n r) = (Err er, e') → e' = e.
Proof.
  destruct unchecked; apply with_table_err; intros *; [apply t_insert_unchecked_err|apply t_insert_err].
Qed.

(** A stored row is new where ids are fresh. *)
Lemma store_at (unchecked : bool) e n r id e' :
  (if unchecked then insert_unchecked e n r else insert e n r) = (Ok id, e') → fresh_ids e →
  row_at e (n, id) = None ∧ row_at e' (n, id) = Some (MkRow id (row_values r)) ∧
  (∀ k, k ≠ (n, id) → row_at e' k = row_at e k).
Proof.
  intros E F. assert (row_at e (n, id) = None) as Fr.
  { assert (∃ t t', e !! n = Some t ∧ id = t_next_id t ∧ e' = <[n := t']> e) as (t & t' & Ht & -> & _).
    { destruct unchecked; apply with_table_ok in E as (t & t' & Ht & Er & ->); exists t, t';
        [apply t_insert_unchecked_rows in Er|apply t_insert_rows in Er]; naive_solver. }
    unfold row_at. cbn. rewrite Ht. cbn. apply eq_None_not_Some. intros Hs. pose proof (F _ _ Ht _ Hs). lia. }
  split; [done|]. destruct unchecked; [by apply insert_unchecked_at in E|by apply insert_at in E].
Qed.

(** Storing a row and deleting it again leaves the rows as they were. *)
Lemma store_delete_at (unchecked : bool) e n r id e' :
  (if unchecked then insert_unchecked e n r else insert e n r) = (Ok id, e') → fresh_ids e →
  ∀ k, row_at (delete_row e' n id).2 k = row_at e k.
Proof.
  intros E F k. destruct (store_at _ _ _ _ _ _ E F) as (Fr & R & O).
  destruct (delete_row e' n id) as [[b|er] e2] eqn:D; cbn [snd].
  - apply eng_delete_at in D as (_ & Dn & Do). destruct (decide (k = (n, id))) as [->|N]; [by rewrite Dn, Fr|].
    by rewrite Do, O.
  - exfalso. unfold delete_row, take, with_table, table in D.
    assert (is_Some (e' !! n)) as [t Ht] by (unfold row_at in R; cbn in R; destruct (e' !! n); [eauto|done]).
    rewrite Ht in D. cbn in D. by destruct (t_take t id).
Qed.

(** ** What the side effects leave alone *)

Section frames.
Context `{JsonText} `{ValueText} `{JsonBytes} `{DisplayText} `{DebugText} `{Chrono} `{MapOrder} `{RowOrder}
  `{TableHash} `{KeyOrder} `{DeploySerde} `{PushChannel}.
Implicit Types s : Server.

(** The record appended to the log of the table's shard. *)
Definition logged s s' (entry : EntryType) (physical : string) (global : Z) (data : list byte) : Prop :=
  sv_wal_enabled s = true → ∀ shards, sv_wal s = Some shards → shards ≠ [] →
    sv_wal_rotating s = false ∧
    ∃ g, shards !! route (length shards) physical = Some g ∧ g_phase g ≠ Exited ∧
      sv_wal s' = Some (<[route (length shards) physical :=
                           set_queue g (g_queue g ++ [MkPendingWrite entry physical global data])]> shards).

Lemma route_lt n table : (0 < n)%nat → (route n table < n)%nat.
Proof. intros Hn. unfold route. pose proof (Z.mod_pos_bound (wrap 64 (table_hash table)) (Z.of_nat (Nat.max 1 n)) ltac:(lia)). lia. Qed.

Lemma wal_log_logged s entry table id data s' :
  wal_log s entry table id data = (Ok (), s') → logged s s' entry table id data.
Proof.
  unfold wal_log, logged. intros E En shards Hs Ne. rewrite En, Hs in E. cbn [negb] in E.
  destruct (sv_wal_rotating s); [done|]. split; [done|].
  unfold cluster_append in E. destruct shards as [|g0 shards]; [done|].
  destruct (lookup_lt_is_Some_2 (g0 :: shards) (route (length (g0 :: shards)) table)) as [g Hg];
    [apply route_lt; simpl; lia|].
  rewrite Hg in E. exists g. split; [done|]. unfold append in E.
  destruct (g_phase g) eqn:Ph; try destruct (CHANNEL_CAP <=? _); try (by injection E); by injection E as <-.
Qed.

Lemma wal_log_mgr s entry table id data : sv_mgr (wal_log s entry table id data).2 = sv_mgr s.
Proof. unfold wal_log. repeat case_match; done. Qed.
Lemma wal_log_engine s entry table id data : sv_engine (wal_log s entry table id data).2 = sv_engine s.
Proof. unfold sv_engine. by rewrite wal_log_mgr. Qed.

Lemma post_effects_mgr s physical local vs : sv_mgr (post_effects s physical local vs) = sv_mgr s.
Proof. unfold post_effects, fanout_enqueue. repeat case_match; done. Qed.
Lemma post_effects_wal s physical local vs : sv_wal (post_effects s physical local vs) = sv_wal s.
Proof. unfold post_effects, fanout_enqueue. repeat case_match; done. Qed.

(** After the log has the write: idempotency key, change record, derived state. *)
Definition acked (env : Env) s (req : Request) (idem : option string) (physical : string) (local global : Z)
    (vs : values) : Server :=
  let s := match idem with Some key => idem_record s key global | None => s end in
  let s := s_record_change s (env_micros env) (req_table req) "insert" global in
  if starts_with (req_table req) "posts" then post_effects s physical local vs else s.

Lemma acked_mgr env s req idem physical local global vs :
  sv_mgr (acked env s req idem physical local global vs) = sv_mgr s.
Proof. unfold acked. repeat case_match; rewrite ?post_effects_mgr; done. Qed.
Lemma acked_wal env s req idem physical local global vs :
  sv_wal (acked env s req idem physical local global vs) = sv_wal s.
Proof. unfold acked. repeat case_match; rewrite ?post_effects_wal; done. Qed.

Lemma acked_idem env s req key physical local global vs :
  idem_lookup (acked env s req (Some key) physical local global vs) key = Some global.
Proof.
  assert (∀ s', sv_idem s' = sv_idem (idem_record s key global) → idem_lookup s' key = Some global) as S.
  { intros s' E. unfold idem_lookup, idem_map. rewrite E. apply (idem_record_lookup s key global). }
  apply S. unfold acked, post_effects, fanout_enqueue. by repeat case_match.
Qed.

Lemma sv_engine_with s e : sv_engine (with_engine s e) = e.
Proof. reflexivity. Qed.

Lemma mgr_engine s s' : sv_mgr s' = sv_mgr s → sv_engine s' = sv_engine s.
Proof. unfold sv_engine. by intros ->. Qed.

Lemma record_change_engine s now table op row_id : sv_engine (s_record_change s now table op row_id) = sv_engine s.
Proof. reflexivity. Qed.

(** ** [Insert] *)

(** One new row, under a fresh id, logged. *)
Definition inserted s s' (req : Request) (vs : values) (view : RowView) : Prop :=
  ∃ physical shard local,
    route_insert (sv_config s) (req_table req) vs = (physical, shard) ∧
    view = MkRowView (compose_id shard local) vs ∧
    row_at (sv_engine s) (physical, local) = None ∧
    row_at (sv_engine s') (physical, local) = Some (MkRow local vs) ∧
    (∀ k, k ≠ (physical, local) → row_at (sv_engine s') k = row_at (sv_engine s) k) ∧
    logged s s' EInsert physical (compose_id shard local) (values_to_json_bytes vs).

Lemma insert_row_outcome env s req idem vs r s' :
  fresh_ids (sv_engine s) → insert_row env s req idem vs = (r, s') →
  (resp_ok r = false ∧ ∀ k, row_at (sv_engine s') k = row_at (sv_engine s) k) ∨
  (resp_ok r = true ∧ ∃ view, resp_rows r = [view] ∧ inserted s s' req vs view).
Proof.
  intros F. unfold insert_row. destruct (route_insert _ _ _) as [physical shard] eqn:R.
  destruct (if skip_validation (sv_config s) then _ else _) as [[local|er] e] eqn:E.
  - destruct (store_at _ _ _ _ _ _ E F) as (Fr & Rn & Ro).
    destruct (wal_log (with_engine s e) EInsert physical _ _) as [[[]|w] s1] eqn:W.
    + fold (acked env s1 req idem physical local (compose_id shard local) vs).
      intros [= <- <-]. right. split; [done|]. eexists. split; [reflexivity|].
      assert (sv_engine (acked env s1 req idem physical local (compose_id shard local) vs) = e) as Ee.
      { rewrite (mgr_engine s1) by apply acked_mgr.
        pose proof (wal_log_engine (with_engine s e) EInsert physical (compose_id shard local) (values_to_json_bytes vs)) as We.
        by rewrite W in We. }
      exists physical, shard, local. rewrite Ee. split_and!; try done.
      apply wal_log_logged in W. unfold logged in *. rewrite acked_wal. exact W.
    + intros [= <- <-]. left. split; [done|]. intros k. rewrite sv_engine_with.
      pose proof (wal_log_engine (with_engine s e) EInsert physical (compose_id shard local) (values_to_json_bytes vs)) as We.
      rewrite W in We. cbn [snd] in We. rewrite We, sv_engine_with. by apply (store_delete_at _ _ _ _ _ _ E F).
  - intros [= <- <-]. left. split; [done|]. intros k. rewrite sv_engine_with. by apply store_err_at in E as ->.
Qed.

(** C6: An [Insert] is all or nothing: refused, for whatever reason (a write-ahead log
    that pushes back included), it leaves every row as it was; acknowledged, it either
    repeats the answer recorded under its idempotency key and changes nothing, or has
    stored exactly one new row, under the id it answers with, and put its record in the
    log queue of the table's shard. *)
Theorem insert_outcome env s authed req :
  fresh_ids (sv_engine s) →
  let '(r, s') := dispatch_insert env s authed req in
  (resp_ok r = false → ∀ k, row_at (sv_engine s') k = row_at (sv_engine s) k) ∧
  (resp_ok r = true →
     (s' = s ∧ ∃ key cached vs, idem_lookup s key = Some cached ∧ resp_rows r = [MkRowView cached vs]) ∨
     (∃ vs view, req_values req = Some vs ∧ resp_rows r = [view] ∧
        inserted s s' req (delete "_idem"%string vs) view)).
Proof.
  intros F. destruct (dispatch_insert env s authed req) as [r s'] eqn:D. unfold dispatch_insert in D.
  destruct (req_values req) as [vs|]; [|by injection D as <- <-].
  destruct (blob_too_large _ _); [by injection D as <- <-|]. unfold take_idem in D. cbv beta iota in D.
  destruct (_ ≫= idem_lookup s) as [cached|] eqn:I.
  { injection D as <- <-. split; [done|]. intros _. left. split; [done|].
    apply bind_Some in I as (key & _ & I). eauto. }
  destruct (enforce_owner _ _ _ _ _); [|by injection D as <- <-].
  destruct (insert_row_outcome _ _ _ _ _ _ _ F D) as [[Er Rows]|(Ok & view & Hv & Ins)].
  - split; [done|]. by rewrite Er.
  - rewrite Ok. split; [done|]. intros _. right. eauto.
Qed.

(** ** [Update] and [Delete] *)

(** The row [k] is gone, or updated with the given values; every other is as before. *)
Definition updated s s' (k : string * Z) (vs : values) (row : Row) : Prop :=
  (∃ cur, row_at (sv_engine s) k = Some cur ∧ row = MkRow (row_id cur) (vs ∪ row_values cur)) ∧
  row_at (sv_engine s') k = Some row ∧
  ∀ k', k' ≠ k → row_at (sv_engine s') k' = row_at (sv_engine s) k'.
Definition deleted s s' (k : string * Z) : Prop :=
  is_Some (row_at (sv_engine s) k) ∧ row_at (sv_engine s') k = None ∧
  ∀ k', k' ≠ k → row_at (sv_engine s') k' = row_at (sv_engine s) k'.

Inductive update_result s (authed : option Identity) (req : Request) : Response → Server → Prop :=
| update_ok global k vs row r s' :
    req_row_id req = Some global → route_id (sv_config s) (req_table req) global = k → req_values req = Some vs →
    owner_precheck s authed OUpdate (req_table req) k.1 k.2 = None →
    updated s s' k vs row → logged s s' EUpdate k.1 global (values_to_json_bytes (row_values row)) →
    r = Response_ok (req_id req) [MkRowView global (row_values row)] → update_result s authed req r s'
| update_refused msg : update_result s authed req (Response_err (req_id req) msg) s
| update_unlogged global k vs row w s' :
    req_row_id req = Some global → route_id (sv_config s) (req_table req) global = k → req_values req = Some vs →
    owner_precheck s authed OUpdate (req_table req) k.1 k.2 = None → updated s s' k vs row →
    update_result s authed req (Response_err (req_id req) ("WAL backpressure: " +:+ w)) s'.

Inductive delete_result s (authed : option Identity) (req : Request) : Response → Server → Prop :=
| delete_ok global k r s' :
    req_row_id req = Some global → route_id (sv_config s) (req_table req) global = k →
    owner_precheck s authed ODelete (req_table req) k.1 k.2 = None →
    deleted s s' k → logged s s' EDelete k.1 global [] →
    r = Response_ok (req_id req) [] → delete_result s authed req r s'
| delete_refused msg s' :
    (∀ k, row_at (sv_engine s') k = row_at (sv_engine s) k) →
    delete_result s authed req (Response_err (req_id req) msg) s'
| delete_unlogged global k w s' :
    req_row_id req = Some global → route_id (sv_config s) (req_table req) global = k →
    owner_precheck s authed ODelete (req_table req) k.1 k.2 = None → deleted s s' k →
    delete_result s authed req (Response_err (req_id req) ("WAL backpressure: " +:+ w)) s'.

Lemma with_engine_same s : with_engine s (sv_engine s) = s.
Proof. by destruct s as [? [] ? ? ? ? ? ? ? ? ? ? ? ? ? ? ? ?]. Qed.

Lemma dispatch_update_result env s authed req :
  update_result s authed req (dispatch_update env s authed req).1 (dispatch_update env s authed req).2.
Proof.
  unfold dispatch_update. destruct (req_row_id req) as [global|] eqn:Hg; [|apply update_refused].
  destruct (route_id _ _ _) as [physical local] eqn:Hk.
  destruct (req_values req) as [vs|] eqn:Hv; [|apply update_refused].
  destruct (owner_precheck _ _ _ _ _ _) eqn:Ho; [apply update_refused|].
  destruct (update (sv_engine s) physical local vs) as [[row|er] e] eqn:E.
  - apply eng_update_at in E as (Hcur & Hrow & Hoth).
    pose proof (wal_log_engine (with_engine s e) EUpdate physical global (values_to_json_bytes (row_values row))) as We.
    destruct (wal_log (with_engine s e) EUpdate physical global _) as [[[]|w] s1] eqn:W; cbn [fst snd] in *.
    + eapply (update_ok _ _ _ global (physical, local) vs row); try done.
      * unfold updated. by rewrite record_change_engine, We.
      * apply wal_log_logged in W. exact W.
    + apply (update_unlogged _ _ _ global (physical, local) vs row); try done. unfold updated. rewrite We. done.
  - apply update_err_at in E as ->. rewrite with_engine_same. apply update_refused.
Qed.

Lemma dispatch_delete_result env s authed req :
  delete_result s authed req (dispatch_delete env s authed req).1 (dispatch_delete env s authed req).2.
Proof.
  unfold dispatch_delete. destruct (req_row_id req) as [global|] eqn:Hg; [|by apply delete_refused].
  destruct (route_id _ _ _) as [physical local] eqn:Hk.
  destruct (owner_precheck _ _ _ _ _ _) eqn:Ho; [by apply delete_refused|].
  destruct (delete_row (sv_engine s) physical local) as [[b|er] e] eqn:E.
  - apply eng_delete_at in E as (-> & Hgone & Hoth). case_bool_decide as Hs.
    + pose proof (wal_log_engine (with_engine s e) EDelete physical global []) as We.
      destruct (wal_log (with_engine s e) EDelete physical global []) as [[[]|w] s1] eqn:W; cbn [fst snd] in *.
      * eapply (delete_ok _ _ _ global (physical, local)); try done.
        -- unfold deleted. by rewrite record_change_engine, We.
        -- apply wal_log_logged in W. exact W.
      * apply (delete_unlogged _ _ _ global (physical, local)); try done. unfold deleted. rewrite We. done.
    + apply delete_refused. intros k. change (sv_engine _) with e at 1. destruct (decide (k = (physical, local))) as [->|N]; [|by apply Hoth].
      rewrite Hgone. symmetry. by apply eq_None_not_Some.
  - apply delete_err_at in E as ->. rewrite with_engine_same. by apply delete_refused.
Qed.

(** C20: An [Update] or [Delete] that is acknowledged has changed exactly the row it
    addresses and queued the log record of it. One that is refused has changed no row,
    with one exception: when the write-ahead log pushes back the write stays in the
    engine although the client is told it failed, unlike an [Insert], which is undone. *)
Theorem update_and_delete_outcome env s authed req :
  update_result s authed req (dispatch_update env s authed req).1 (dispatch_update env s authed req).2 ∧
  delete_result s authed req (dispatch_delete env s authed req).1 (dispatch_delete env s authed req).2 ∧
  (∀ global physical local vs row e,
     req_row_id req = Some global → route_id (sv_config s) (req_table req) global = (physical, local) →
     req_values req = Some vs → owner_precheck s authed OUpdate (req_table req) physical local = None →
     update (sv_engine s) physical local vs = (Ok row, e) → sv_wal_enabled s = true → sv_wal_rotating s = true →
     dispatch_update env s authed req =
       (Response_err (req_id req) "WAL backpressure: WAL rotation in progress", wal_drop (with_engine s e))).
Proof.
  split_and!; [apply dispatch_update_result|apply dispatch_delete_result|].
  intros global physical local vs row e Hg Hk Hv Ho E En Rot. unfold dispatch_update.
  rewrite Hg, Hk, Hv, Ho, E. cbv beta iota. unfold wal_log. cbn. by rewrite En, Rot.
Qed.

(** ** Row ownership *)

(** The rows of a response that belong to a subject. *)
Definition owned (col subject : string) (vs : values) : Prop := vs !! col = Some (VString subject).

Lemma enforce_owned s id op base col vs :
  require_auth (sv_config s) = true → owner_column s base = Some col → "admin"%string ∉ ident_roles id →
  enforce_owner s (Some id) op base vs = Ok () → owned col (ident_subject id) vs.
Proof.
  intros Auth Hc NA. unfold enforce_owner. rewrite Hc, authorize_row_ok, Auth, Hc. intros [_ X].
  destruct (X eq_refl ltac:(eauto)) as (id' & [= <-] & [?|?]); done.
Qed.

Lemma precheck_owned s id op base col physical local row :
  require_auth (sv_config s) = true → owner_column s base = Some col → "admin"%string ∉ ident_roles id →
  owner_precheck s (Some id) op base physical local = None →
  row_at (sv_engine s) (physical, local) = Some row → owned col (ident_subject id) (row_values row).
Proof.
  intros Auth Hc NA. unfold owner_precheck. rewrite Auth, Hc, get_row_at. cbn [andb is_Some].
  rewrite bool_decide_eq_true_2 by eauto. intros P R.
  assert (table_exists (sv_engine s) physical = true) as Te.
  { unfold table_exists. apply bool_decide_eq_true. unfold row_at in R. cbn in R. by destruct (sv_engine s !! physical). }
  rewrite Te, R in P. destruct (enforce_owner s (Some id) op base (row_values row)) as [[]|] eqn:E; [|done].
  by eapply enforce_owned.
Qed.

Lemma elem_of_page {A} (id_of : A → Z) l w x : x ∈ page id_of l w → x ∈ l.
Proof.
  unfold page. destruct (apply_window _ _ _ _) as [start stop]. unfold slice.
  intros X. apply elem_of_take in X as (i & X & _). rewrite lookup_drop in X. by apply list_elem_of_lookup_2 in X.
Qed.

Lemma elem_of_visible s id op base col merged x :
  require_auth (sv_config s) = true → owner_column s base = Some col → "admin"%string ∉ ident_roles id →
  x ∈ visible s (Some id) op base merged → x ∈ merged ∧ owned col (ident_subject id) (row_values x.2).
Proof.
  intros Auth Hc NA. unfold visible. rewrite bool_decide_eq_true_2 by eauto.
  intros [X Hx]%list_elem_of_filter. split; [done|].
  destruct (enforce_owner s (Some id) op base (row_values x.2)) as [[]|] eqn:E; [|done]. by eapply enforce_owned.
Qed.

Lemma response_err_rows id msg (P : RowView → Prop) : Forall P (resp_rows (Response_err id msg)).
Proof. constructor. Qed.

(** C2: Row ownership: on a table with an owner column, with authentication on, a
    caller who is not an admin is shown by [Get], [Scan] and [Find] only rows whose
    owner column holds the caller's subject, and an [Update] or [Delete] by that
    caller, acknowledged or not, leaves every row of another owner as it was. *)
Theorem rows_are_their_owners env s id req col :
  require_auth (sv_config s) = true → owner_column s (req_table req) = Some col → "admin"%string ∉ ident_roles id →
  (Forall (λ v, owned col (ident_subject id) (rv_values v)) (resp_rows (dispatch_get s (Some id) req)) ∧
   Forall (λ v, owned col (ident_subject id) (rv_values v)) (resp_rows (dispatch_scan s (Some id) req)) ∧
   Forall (λ v, owned col (ident_subject id) (rv_values v)) (resp_rows (dispatch_find s (Some id) req))) ∧
  (∀ k row, row_at (sv_engine s) k = Some row → ¬ owned col (ident_subject id) (row_values row) →
     row_at (sv_engine (dispatch_update env s (Some id) req).2) k = Some row ∧
     row_at (sv_engine (dispatch_delete env s (Some id) req).2) k = Some row).
Proof.
  intros Auth Hc NA. split; [split_and!|].
  - unfold dispatch_get. destruct (req_row_id req); [|apply response_err_rows].
    destruct (route_id _ _ _) as [physical local].
    destruct (get _ _ _) as [[row|]|]; try apply response_err_rows.
    destruct (enforce_owner _ _ _ _ _) as [[]|] eqn:E; [|apply response_err_rows].
    apply Forall_singleton. by eapply enforce_owned.
  - unfold dispatch_scan, scan_page. destruct (scan_merged _ _) as [merged|]; [|apply response_err_rows].
    cbn [mbind result_bind resp_rows Response_ok]. apply Forall_fmap, Forall_forall. intros x Hx%elem_of_page.
    rewrite Sort.sort_by_perm in Hx. by eapply elem_of_visible in Hx as [_ ?].
  - unfold dispatch_find. destruct (find_key _) as [[c v]|]; [|apply response_err_rows].
    destruct (find_shards _ _ _ _ _) as [[[shard row]|]|]; try apply response_err_rows.
    destruct (enforce_owner _ _ _ _ _) as [[]|] eqn:E; [|apply response_err_rows].
    apply Forall_singleton. by eapply enforce_owned.
  - intros k row R NO. split.
    + destruct (dispatch_update_result env s (Some id) req) as [global k' vs row' r s' _ _ _ P (_ & _ & O) _ _| |global k' vs row' w s' _ _ _ P (_ & _ & O)];
        [|done|]; (rewrite O; [done|]; intros <-; apply NO; destruct k; by eapply precheck_owned).
    + destruct (dispatch_delete_result env s (Some id) req) as [global k' r s' _ _ P (_ & _ & O) _ _|msg s' O|global k' w s' _ _ P (_ & _ & O)];
        [|by rewrite O|]; (rewrite O; [done|]; intros <-; apply NO; destruct k; by eapply precheck_owned).
Qed.

(** ** The fast path *)

Lemma encode_ok_borrowed_response max id rows :
  encode_ok_borrowed max id rows = encode_response max (Response_ok id ((λ p, MkRowView p.1 p.2) <$> rows)).
Proof.
  unfold encode_ok_borrowed, encode_response, w_response_body, w_response_body_borrowed, Response_ok.
  cbn [resp_id resp_ok resp_rows resp_error]. rewrite bool_decide_true by done.
  by rewrite length_fmap, <- list_fmap_compose.
Qed.

(** C12: The zero-copy fast path of [Get] and [Scan] answers byte for byte what
    [dispatch] and the response encoder answer; a page over the frame limit becomes
    the same error response on both paths. *)
Theorem fast_path_is_dispatch max envs s authed req :
  (req_op req = OGet → ∀ resp, (dispatch envs s authed req).1 = Some resp →
     encode_get_fast max s authed req = encode_response max resp) ∧
  (req_op req = OScan → ∀ resp, (dispatch envs s authed req).1 = Some resp →
     encode_scan_fast max s authed req =
       if resp_ok resp then encode_or_too_large max resp else encode_response max resp).
Proof.
  split; intros Ho resp; unfold dispatch; rewrite Ho; cbn [fst]; intros [= <-].
  - unfold dispatch_get, encode_get_fast. destruct (req_row_id req) as [global|]; [|done].
    destruct (route_id _ _ _) as [physical local].
    destruct (get _ _ _) as [[row|]|]; try done. destruct (enforce_owner _ _ _ _ _); [|done].
    change (encode_ok_single max (req_id req) global (row_values row)) with
      (encode_ok_borrowed max (req_id req) [(global, row_values row)]).
    by rewrite encode_ok_borrowed_response.
  - unfold dispatch_scan, encode_scan_fast. destruct (scan_page s authed req) as [rows|e]; [|done].
    cbn [resp_ok Response_ok]. unfold encode_or_too_large. rewrite encode_ok_borrowed_response.
    cbn [resp_id resp_rows Response_ok]. rewrite length_fmap, <- list_fmap_compose. done.
Qed.

(** ** Transactions do not see the auto-commit path *)

Lemma wal_log_mgr_eq s entry table id data r s' : wal_log s entry table id data = (r, s') → sv_mgr s' = sv_mgr s.
Proof. intros E. pose proof (wal_log_mgr s entry table id data) as M. by rewrite E in M. Qed.

Lemma insert_versions env s authed req :
  versions (sv_mgr (dispatch_insert env s authed req).2) = versions (sv_mgr s).
Proof.
  unfold dispatch_insert, take_idem. destruct (req_values req) as [vs|]; [|done].
  destruct (blob_too_large _ _); [done|]. cbv beta iota. destruct (_ ≫= _); [done|].
  destruct (enforce_owner _ _ _ _ _); [|done]. unfold insert_row.
  destruct (route_insert _ _ _) as [physical shard]. destruct (if skip_validation _ then _ else _) as [[local|er] e]; [|done].
  destruct (wal_log _ _ _ _ _) as [[[]|w] s1] eqn:W; apply wal_log_mgr_eq in W; cbn [snd].
  - match goal with |- versions (sv_mgr ?x) = _ => change x with (acked env s1 req
      (match vs !! "_idem"%string with Some (VString k) => Some k | _ => None end)
      physical local (compose_id shard local) (delete "_idem"%string vs)) end.
    by rewrite acked_mgr, W.
  - change (versions (sv_mgr s1) = versions (sv_mgr s)). by rewrite W.
Qed.

Lemma update_versions env s authed req :
  versions (sv_mgr (dispatch_update env s authed req).2) = versions (sv_mgr s).
Proof.
  unfold dispatch_update. destruct (req_row_id req); [|done]. destruct (route_id _ _ _). destruct (req_values req); [|done].
  destruct (owner_precheck _ _ _ _ _ _); [done|]. destruct (update _ _ _ _) as [[row|er] e]; [|done].
  destruct (wal_log _ _ _ _ _) as [[[]|w] s1] eqn:W; apply wal_log_mgr_eq in W; cbn [snd];
    change (versions (sv_mgr s1) = versions (sv_mgr s)); by rewrite W.
Qed.

Lemma delete_versions env s authed req :
  versions (sv_mgr (dispatch_delete env s authed req).2) = versions (sv_mgr s).
Proof.
  unfold dispatch_delete. destruct (req_row_id req); [|done]. destruct (route_id _ _ _).
  destruct (owner_precheck _ _ _ _ _ _); [done|]. destruct (delete_row _ _ _) as [[[]|er] e]; [|done|done].
  destruct (wal_log _ _ _ _ _) as [[[]|w] s1] eqn:W; apply wal_log_mgr_eq in W; cbn [snd];
    change (versions (sv_mgr s1) = versions (sv_mgr s)); by rewrite W.
Qed.

Lemma dispatch_versions envs s authed req :
  req_op req ≠ OCall → versions (sv_mgr (dispatch envs s authed req).2) = versions (sv_mgr s).
Proof.
  intros NC. unfold dispatch. destruct (req_op req) eqn:Ho; cbn [fst snd]; try done.
  - apply insert_versions.
  - apply update_versions.
  - apply delete_versions.
  - unfold dispatch_job_submit. repeat case_match; done.
  - unfold dispatch_proc_deploy, deploy_procedure. repeat case_match; simplify_eq; done.
  - unfold dispatch_proc_drop, drop_procedure. repeat case_match; simplify_eq; done.
  - unfold dispatch_table_create. repeat case_match; done.
Qed.

(** No operation outside a transaction is visible to transaction validation: an
    [Insert], [Update] or [Delete] served on its own leaves the version table as it
    was, so every open transaction validates after it as it did before, even one that
    has read the row the operation rewrote or removed. *)
Theorem autocommit_invisible_to_validation envs s authed req tx :
  req_op req ≠ OCall →
  validate (versions (sv_mgr (dispatch envs s authed req).2)) tx = validate (versions (sv_mgr s)) tx.
Proof. intros NC. by rewrite dispatch_versions. Qed.

(** ** The rows of every shard *)

Lemma scan_shards_spec s sharded tables merged :
  scan_shards s sharded tables = Ok merged →
  ∀ gid r, (gid, r) ∈ merged ↔
    ∃ shard physical rows, (shard, physical) ∈ tables ∧ scan (sv_engine s) physical = Ok rows ∧ r ∈ rows ∧
      gid = compose_id shard (row_id r).
Proof.
  revert merged. induction tables as [|[shard physical] tables IH]; intros merged; cbn [scan_shards].
  { intros [= <-] gid r. split; [by intros ?%not_elem_of_nil|]. by intros (? & ? & ? & ?%not_elem_of_nil & _). }
  destruct (scan (sv_engine s) physical) as [rows|e] eqn:Sc.
  - destruct (scan_shards s sharded tables) as [rest|e]; [|done]. intros [= <-] gid r.
    rewrite elem_of_app, list_elem_of_fmap, (IH rest eq_refl). split.
    + intros [(r' & [= -> ->] & Hr)|(sh & ph & rs & T & S & R & G)].
      * exists shard, physical, rows. split_and!; [left|..]; done.
      * exists sh, ph, rs. split_and!; [right|..]; done.
    + intros (sh & ph & rs & [[= -> ->]|T]%elem_of_cons & S & R & G).
      * left. exists r. rewrite Sc in S. injection S as <-. by subst.
      * right. exists sh, ph, rs. done.
  - destruct (_ && _); [|done]. intros E gid r. rewrite (IH merged E). split.
    + intros (sh & ph & rs & T & ?). exists sh, ph, rs. split; [by right|done].
    + intros (sh & ph & rs & [[= -> ->]|T]%elem_of_cons & S & ?); [congruence|]. by exists sh, ph, rs.
Qed.

Lemma gid_cmp_key desc a b :
  gid_cmp desc a b = ((if desc then - a.1 else a.1) ?= (if desc then - b.1 else b.1)).
Proof. unfold gid_cmp. destruct desc; [by rewrite <- Z.compare_opp|done]. Qed.

Lemma sorted_by_gid desc merged :
  StronglySorted (id_le desc) (fst <$> Sort.sort_by (gid_cmp desc) merged).
Proof.
  pose proof (Sort.sort_by_sorted (gid_cmp desc) (total_cmp_key _ _ (gid_cmp_key desc)) merged) as S.
  induction S as [|x l S IH F]; [constructor|]. cbn. constructor; [exact IH|].
  apply Forall_fmap. eapply Forall_impl; [exact F|]. intros y Hy. cbn.
  unfold Sort.le_by, gid_cmp, id_le in *. destruct desc; by apply Z.compare_le_iff.
Qed.

(** C15: A [Scan] answers a page of the whole table: of the rows of every shard, each
    under its global id, without those an owner column hides, sorted by id in the
    asked direction, it returns those past the cursor, less the first [_offset], at
    most [_limit] of them and never more than 10000. *)
Theorem scan_answers s authed req merged :
  scan_merged s (req_table req) = Ok merged →
  let w := scan_pagination (req_values req) in
  Z.of_nat (length merged) < 2 ^ 62 → 0 <= w_offset w < 2 ^ 62 →
  (∀ gid r, (gid, r) ∈ merged ↔
     ∃ shard physical rows, (shard, physical) ∈ shard_tables (sv_config s) (req_table req) ∧
       scan (sv_engine s) physical = Ok rows ∧ r ∈ rows ∧ gid = compose_id shard (row_id r)) ∧
  ∃ sorted, sorted ≡ₚ visible s authed OScan (req_table req) merged ∧
    StronglySorted (id_le (w_desc w)) (fst <$> sorted) ∧ 1 <= w_limit w <= 10000 ∧
    dispatch_scan s authed req =
      Response_ok (req_id req) ((λ gr, row_to_view gr.1 gr.2) <$>
        firstn (Z.to_nat (w_limit w)) (skipn (Z.to_nat (w_offset w))
          (filter (λ gr, past w gr.1 = true) sorted))).
Proof.
  intros M w Hl Hw. split; [by apply (scan_shards_spec _ _ _ _ M)|].
  exists (Sort.sort_by (gid_cmp (w_desc w)) (visible s authed OScan (req_table req) merged)).
  assert (length (visible s authed OScan (req_table req) merged) <= length merged)%nat as Lv.
  { unfold visible. case_bool_decide; [apply length_filter|done]. }
  pose proof (scan_pagination_limit (req_values req)) as L. fold w in L. unfold MAX_SCAN_LIMIT in L.
  split_and!; [apply Sort.sort_by_perm|apply sorted_by_gid|lia|lia|].
  unfold dispatch_scan, scan_page. rewrite M. cbn [mbind result_bind]. fold w.
  rewrite page_spec; [done|apply sorted_by_gid|lia|lia|]. rewrite Sort.sort_by_length. lia.
Qed.

(** ** A connection without an identity *)

(** No token the operation carries is a session's or an identity's. *)
Definition stranger s (req : Request) : Prop :=
  ∀ tok, (take_auth_token (req_values req)).1 = Some tok → sv_sessions s !! tok = None ∧ sv_identities s !! tok = None.

Lemma handshake_stranger env s req :
  stranger s req → ∃ req', handshake env s None req = (None, s, req') ∧ req_op req' = req_op req.
Proof.
  intros St. unfold handshake. destruct (take_auth_token (req_values req)) as [[tok|] vs] eqn:T; [|eauto].
  destruct (St tok) as [Hs Hi]; [by rewrite T|]. unfold resolve_token. rewrite Hs, Hi. eauto.
Qed.

Lemma authorize_stranger s op table :
  require_auth (sv_config s) = true → authorize s None op table = Ok () → op = Ping ∨ op = OVersion.
Proof. intros Auth. rewrite authorize_ok, Auth. destruct op; simpl; naive_solver. Qed.

Lemma serve_op_stranger envs s req :
  require_auth (sv_config s) = true → stranger s req →
  ∃ r, serve_op envs s None req = (r, None, s).
Proof.
  intros Auth St. unfold serve_op. destruct (handshake_stranger (envs O) s req St) as (req' & -> & _).
  destruct (authorize s None _ _) as [[]|e] eqn:A; [|eauto].
  unfold dispatch. apply authorize_stranger in A as [->| ->]; eauto.
Qed.

Lemma serve_batch_stranger ops : ∀ envs s,
  require_auth (sv_config s) = true → Forall (stranger s) ops →
  ∃ r, serve_batch envs s None ops = (r, None, s).
Proof.
  induction ops as [|op ops IH]; intros envs s Auth F; cbn [serve_batch]; [eauto|].
  apply Forall_cons in F as [St F]. destruct (serve_op_stranger (envs O) s op Auth St) as [[r|] ->]; [|eauto].
  destruct (IH (λ n, envs (S n)) s Auth F) as [rs ->]. eauto.
Qed.

Lemma atomic_auth_stranger ops : ∀ envs s,
  require_auth (sv_config s) = true → Forall (stranger s) ops →
  ∃ r, atomic_auth envs s None ops = (r, None, s) ∧
    ∀ ops', r = Ok ops' → Forall (λ op, req_op op = Ping) ops'.
Proof.
  induction ops as [|op ops IH]; intros envs s Auth F; cbn [atomic_auth].
  { eexists. split; [reflexivity|]. intros ? [= <-]. constructor. }
  apply Forall_cons in F as [St F]. destruct (handshake_stranger (envs O) s op St) as (op' & -> & _).
  destruct (authorize s None _ _) as [[]|e] eqn:A; [|by eexists].
  destruct (negb _) eqn:At; [by eexists|].
  destruct (IH (λ n, envs (S n)) s Auth F) as (r & -> & Hr).
  eexists. split; [reflexivity|]. intros ops'. destruct r as [rest|]; [|done]. intros [= <-].
  constructor; [|by apply Hr]. apply authorize_stranger in A as [?|E]; [done| |done].
  by rewrite E in At.
Qed.

Lemma pings_only s authed ops : ∀ tx seen,
  Forall (λ op, req_op op = Ping) ops → ∃ bs, buffer_ops s authed ops tx seen = (Ok bs, tx) ∧ Forall (λ b, b.2 = BPing) bs.
Proof.
  induction ops as [|op ops IH]; intros tx seen F; cbn [buffer_ops]; [eauto|].
  apply Forall_cons in F as [P F]. unfold buffer_op. rewrite P.
  destruct (IH tx seen F) as (bs & -> & Fb). eexists. split; [reflexivity|]. by constructor.
Qed.

Lemma emit_pings bs : ∀ envs s touched, Forall (λ b, b.2 = BPing) bs → (emit_results envs s bs touched).2 = s.
Proof.
  induction bs as [|[rid b] bs IH]; intros envs s touched F; [done|].
  apply Forall_cons in F as [P F]. cbn in P. subst b. cbn [emit_results].
  specialize (IH (λ n, envs (S n)) s touched F). by destruct (emit_results _ s bs touched).
Qed.

Lemma commit_empty m tx : is_active tx = true → has_writes tx = false → commit m tx = (Ok [], (tx_commit tx).2, m).
Proof. unfold commit. by intros -> ->. Qed.

Definition incoming_ops (i : Incoming) : list Request :=
  match i with ISingle r => [r] | IBatch b | IAtomicBatch b => breq_ops b end.

Lemma with_mgr_same s : with_mgr s (sv_mgr s) = s.
Proof. by destruct s. Qed.

(** The server as it was, the transaction counter apart. *)
Definition idle s s' : Prop :=
  s' = with_mgr s (sv_mgr s') ∧ sv_engine s' = sv_engine s ∧
  versions (sv_mgr s') = versions (sv_mgr s) ∧ commit_seq (sv_mgr s') = commit_seq (sv_mgr s).

Lemma idle_refl s : idle s s.
Proof. split; [by rewrite with_mgr_same|done]. Qed.

Lemma execute_atomic_stranger envs s batch :
  require_auth (sv_config s) = true → Forall (stranger s) (breq_ops batch) →
  ∃ b s', execute_atomic envs s None batch = (b, None, s') ∧ idle s s'.
Proof.
  intros Auth F. unfold execute_atomic. destruct (atomic_auth_stranger _ envs s Auth F) as (r & -> & Hr).
  destruct r as [ops|msg]; [|eauto using idle_refl].
  destruct (begin (sv_mgr s) RepeatableRead) as [tx m] eqn:B.
  destruct (pings_only (with_mgr s m) None ops tx ∅ (Hr _ eq_refl)) as (bs & -> & Fb).
  unfold begin in B. injection B as <- <-. rewrite commit_empty by done. cbn [fst snd].
  match goal with |- context [emit_results ?e ?x bs []] => pose proof (emit_pings bs e x [] Fb) as Em; destruct (emit_results e x bs []) as [rs s2] end.
  cbn [snd] in Em. subst s2. do 2 eexists. split; [reflexivity|]. done.
Qed.

(** With authentication required, a connection that has presented no valid token
    can change nothing: whatever frame it sends, single, batch, atomic batch or stream
    subscription, the server's state is as before, the transaction counter apart, and
    the connection is still without an identity. *)
Theorem anonymous_changes_nothing max envs s i :
  require_auth (sv_config s) = true → Forall (stranger s) (incoming_ops i) →
  let '(_, authed', s') := handle_incoming max envs s None i in authed' = None ∧ idle s s'.
Proof.
  intros Auth F. pose proof (conj (eq_refl (@None Identity)) (idle_refl s)) as Same.
  destruct i as [req|batch|batch]; cbn [incoming_ops handle_incoming] in *.
  - rewrite Forall_singleton in F. destruct (handshake_stranger (envs O O) s req F) as (req' & Hh & Ho).
    destruct (bool_decide (req_op req = OSubscribe) && is_stream_subscribe (req_values req)).
    + unfold handle_stream_subscribe. rewrite Hh. destruct (authorize s None _ _); [destruct (_ && _)|]; apply Same.
    + unfold handle_single. rewrite Hh. destruct (authorize s None _ _) as [[]|e] eqn:A; [|apply Same].
      unfold dispatch. apply authorize_stranger in A as [->| ->]; [apply Same..|done].
  - destruct (batch_too_large max batch); [apply Same|].
    destruct (serve_batch_stranger _ envs s Auth F) as [[rs|] ->]; apply Same.
  - destruct (batch_too_large max batch); [apply Same|].
    destruct (execute_atomic_stranger (λ n, envs n O) s batch Auth F) as (b & s' & -> & I). done.
Qed.

(** ** The staging buffer *)

Lemma feed_none_short max b b' : 0 <= max → feed max b = (Ok None, b') → b' = b ∧ Z.of_nat (length b) < max + Z.of_nat HEADER_LEN.
Proof.
  intros Hm E. split; [by eapply feed_none|]. revert E. unfold feed, HEADER_LEN.
  destruct b as [|v [|b1 [|b2 [|b3 [|b4 rest]]]]]; cbn [length]; try lia.
  destruct (negb _); [done|]. destruct (max <? _) eqn:L; [done|]. apply Z.ltb_ge in L.
  case_match eqn:S; [|done]. apply Z.ltb_lt in S. cbn [length] in S. lia.
Qed.

Lemma handle_frames_ends fuel : ∀ max envs slow s authed staging out,
  0 <= max → (length staging < fuel)%nat →
  ∃ r out' authed' s', handle_frames fuel max envs slow s authed staging out = Some (r, out', authed', s') ∧
    ∀ rest, r = Ok rest → feed max rest = (Ok None, rest) ∧ Z.of_nat (length rest) < max + Z.of_nat HEADER_LEN.
Proof.
  induction fuel as [|fuel IH]; intros max envs slow s authed staging out Hm Hf; [lia|]. cbn [handle_frames].
  destruct (feed max staging) as [[[payload|]|e] staging'] eqn:E.
  - destruct (feed_some _ _ _ _ [] E) as [_ Hl].
    destruct (decode_incoming payload) as [i|e]; [|by (do 4 eexists; split; [reflexivity|])].
    destruct (handle_frame max (envs O) (slow O) s authed i) as [[o authed'] s'].
    destruct o; try by (do 4 eexists; split; [reflexivity|]). apply IH; [done|lia].
  - pose proof (feed_none _ _ _ E) as ->. do 4 eexists. split; [reflexivity|]. intros rest [= <-].
    split; [done|]. by apply feed_none_short in E as [_ ?].
  - by (do 4 eexists; split; [reflexivity|]).
Qed.

(** Serving a read always ends, and what a connection may keep buffered is bounded:
    every complete frame is answered or ends the connection, and what is left is a
    partial frame shorter than the frame limit and its header. The guard comes before
    the frames are popped: a read that leaves more than that in the buffer closes the
    connection unanswered, even when all of it is complete frames. *)
Theorem staging_is_bounded max envs slow s authed staging chunk :
  0 <= max →
  ∃ r out authed' s', on_read max envs slow s authed staging chunk = Some (r, out, authed', s') ∧
    (∀ rest, r = Ok rest → feed max rest = (Ok None, rest) ∧ Z.of_nat (length rest) < max + Z.of_nat HEADER_LEN) ∧
    (max + Z.of_nat HEADER_LEN < Z.of_nat (length (staging ++ chunk)) → r = Err StagingOverflow ∧ out = []).
Proof.
  intros Hm. unfold on_read. destruct (max + Z.of_nat HEADER_LEN <? _) eqn:L.
  - by do 4 eexists.
  - apply Z.ltb_ge in L.
    destruct (handle_frames_ends (S (length (staging ++ chunk))) max envs slow
      (record_io s (Z.of_nat (length chunk)) 0) authed (staging ++ chunk) [] Hm ltac:(lia)) as (r & out & a & s' & E & R).
    exists r, out, a, s'. split_and!; [done|done|lia].
Qed.

(** ** What a transaction sees of its own writes *)

(** A row seen from a transaction that has buffered [ws]: the stored one under its newest
    update, or nothing under a newest delete. *)
Definition seen_row (e : Engine) (ws : list WriteOp) (k : key) : option Row :=
  match newest_write ws k with
  | Some (WDelete _ _) => None
  | Some (WUpdate _ _ vs) => (λ r, MkRow (row_id r) (vs ∪ row_values r)) <$> row_at e k
  | _ => row_at e k
  end.

Lemma tx_get_writes m tx k r tx' : tx_get m tx k = (r, tx') → writes tx' = writes tx.
Proof. unfold tx_get. repeat case_match; by intros [= <- <-]. Qed.

Lemma tx_get_seen m tx k row tx' :
  tx_get m tx k = (Ok (Some row), tx') → seen_row (engine m) (writes tx) k = Some row.
Proof.
  unfold tx_get, seen_row. destruct (negb _); [done|]. destruct k as [t id]. cbn [fst snd]. rewrite get_row_at.
  destruct (newest_write (writes tx) (t, id)) as [[]|], (table_exists (engine m) t), (row_at (engine m) (t, id));
    try done; by intros [= <- _].
Qed.

(** ** Procedures run with their caller's rights *)

Section procedure_rights.
Context (s : Server) (ident : option Identity).

Definition kind_op (k : EntryType) : Op :=
  match k with EUpdate => OUpdate | EDelete => ODelete | _ => OInsert end.

(** The caller is authorized for [op] on [base] and may touch, as [op] on [base], the row
    that the transaction sees under the id that routes to [k]. *)
Definition may_touch (before : list WriteOp) (op : Op) (base : string) (shard : Z) (k : key) : Prop :=
  ∃ global row, route_id (sv_config s) base global = k ∧ shard = (split_id global).1 ∧
    seen_row (sv_engine s) before k = Some row ∧ enforce_owner s ident op base (row_values row) = Ok ().

(** What stands behind a buffered write [w], made after the writes [before], and the record
    [p] its effects are taken from. *)
Definition write_allowed (before : list WriteOp) (w : WriteOp) (p : ProcWrite) : Prop :=
  authorize s ident (kind_op (pw_kind p)) (pw_base p) = Ok () ∧ pw_physical p = write_table w ∧
  match w with
  | WInsert physical row =>
      pw_kind p = EInsert ∧ route_insert (sv_config s) (pw_base p) (row_values row) = (physical, pw_shard p) ∧
      pw_values p = Some (row_values row) ∧ enforce_owner s ident OInsert (pw_base p) (row_values row) = Ok ()
  | WUpdate physical local vs =>
      pw_kind p = EUpdate ∧ pw_values p = Some vs ∧ may_touch before OUpdate (pw_base p) (pw_shard p) (physical, local)
  | WDelete physical local =>
      pw_kind p = EDelete ∧ pw_values p = None ∧ may_touch before ODelete (pw_base p) (pw_shard p) (physical, local)
  end.

(** Each write of a transaction with its record, in order. *)
Definition all_allowed (ws : list WriteOp) (ps : list ProcWrite) : Prop :=
  length ps = length ws ∧
  ∀ i w p, ws !! i = Some w → ps !! i = Some p → write_allowed (firstn i ws) w p.

Definition rights_inv (b : ProcBackend) : Prop :=
  pb_server b = s ∧ pb_ident b = ident ∧ all_allowed (writes (pb_tx b)) (pb_writes b).

Lemma all_allowed_snoc ws ps w p : all_allowed ws ps → write_allowed ws w p → all_allowed (ws ++ [w]) (ps ++ [p]).
Proof.
  intros [L A] Aw. split; [rewrite !length_app; cbn; lia|]. intros i w' p' Hw Hp.
  apply lookup_snoc_Some in Hw as [[Li Hw]|[-> ->]].
  - rewrite lookup_app_l in Hp by lia. rewrite take_app_le by lia. by apply A.
  - rewrite <- L, lookup_app_r, Nat.sub_diag in Hp by lia. injection Hp as ->.
    rewrite take_app_length'; done.
Qed.

Lemma pb_get_inv b physical local r b' :
  pb_get b physical local = (r, b') → rights_inv b → rights_inv b'.
Proof.
  unfold pb_get. destruct (tx_get _ _ _) as [x tx] eqn:G. intros [= _ <-] (Es & Ei & F).
  apply tx_get_writes in G. split_and!; [done|done|]. cbn [pb_tx pb_writes pb_set_tx]. by rewrite G.
Qed.

Lemma pb_get_may_touch b physical local row b' base op global :
  pb_get b physical local = (Ok (Some row), b') → rights_inv b →
  route_id (sv_config s) base global = (physical, local) → deny_row b' op base (row_values row) = Ok () →
  writes (pb_tx b') = writes (pb_tx b) ∧
  may_touch (writes (pb_tx b')) op base (split_id global).1 (physical, local).
Proof.
  intros G Inv R D. pose proof (pb_get_inv _ _ _ _ _ G Inv) as (Es' & Ei' & _).
  unfold deny_row in D. rewrite Es', Ei' in D.
  destruct (enforce_owner s ident op base (row_values row)) as [[]|] eqn:En; [|done].
  destruct Inv as (Es & _ & F). unfold pb_get in G. rewrite Es in G.
  destruct (tx_get _ _ _) as [[[x|]|] tx] eqn:T; cbn in G; try discriminate. injection G as -> <-. cbn [pb_tx pb_set_tx].
  pose proof (tx_get_writes _ _ _ _ _ T) as W. apply tx_get_seen in T. rewrite W. split; [done|].
  by exists global, row.
Qed.

Lemma pb_buffer_inv b w p r b' :
  pb_buffer b w p = (r, b') → rights_inv b → write_allowed (writes (pb_tx b)) w p → rights_inv b'.
Proof.
  unfold pb_buffer, buffer. intros E (Es & Ei & F) A. destruct (is_active (pb_tx b)); injection E as <- <-;
    split_and!; try done. cbn [pb_tx pb_writes pb_push pb_set_tx writes set_writes]. by apply all_allowed_snoc.
Qed.

Lemma deny_ok b op table :
  rights_inv b → deny b op table = Ok () → authorize s ident op table = Ok ().
Proof.
  intros (Es & Ei & _). unfold deny. rewrite Es, Ei. by destruct (authorize _ _ _ _) as [[]|].
Qed.

Lemma pb_read_inv b t id : rights_inv b → rights_inv (pb_read b t id).2.
Proof.
  intros Inv. unfold pb_read. destruct (deny b OGet t); [|done]. destruct (route_id _ _ _) as [physical local].
  destruct (pb_get b physical local) as [[[row|]|] b'] eqn:G; cbn [snd]; pose proof (pb_get_inv _ _ _ _ _ G Inv); try done.
  by destruct (deny_row _ _ _ _).
Qed.

Lemma pb_insert_inv b t vs : rights_inv b → rights_inv (pb_insert b t vs).2.
Proof.
  intros Inv. unfold pb_insert. destruct (deny b OInsert t) as [[]|] eqn:D; [|done].
  destruct (blob_too_large _ _); [done|]. destruct (route_insert _ _ _) as [physical shard] eqn:R.
  destruct (check_unique _ _ _ _ _) as [[?|?] seen]; [|done].
  assert (rights_inv (pb_set_seen b seen)) as Inv' by done.
  destruct (deny_row _ _ _ _) as [[]|] eqn:Dr; [|done].
  destruct (pb_buffer _ _ _) as [r b'] eqn:Bu. cbn [snd]. eapply pb_buffer_inv; [exact Bu|exact Inv'|].
  pose proof (deny_ok _ _ _ Inv D) as Au. destruct Inv as (Es & Ei & _).
  unfold deny_row in Dr. cbn [pb_server pb_ident pb_set_seen] in Dr. rewrite Es in R. rewrite Es, Ei in Dr.
  split; [exact Au|]. cbn. rewrite R. split_and!; try done. by destruct (enforce_owner _ _ _ _ _) as [[]|].
Qed.

Lemma pb_update_inv b t id vs : rights_inv b → rights_inv (pb_update b t id vs).2.
Proof.
  intros Inv. unfold pb_update, pb_existing. destruct (deny b OUpdate t) as [[]|] eqn:D; [|done].
  destruct (route_id _ _ _) as [physical local] eqn:R.
  destruct (pb_get b physical local) as [[[row|]|] b'] eqn:G; cbn [snd]; pose proof (pb_get_inv _ _ _ _ _ G Inv) as Inv'; try done.
  destruct (deny_row _ _ _ _) as [[]|] eqn:Dr; [|done].
  destruct (pb_buffer _ _ _) as [r b2] eqn:Bu. cbn [snd]. eapply pb_buffer_inv; [exact Bu|exact Inv'|].
  rewrite (proj1 Inv) in R. destruct (pb_get_may_touch _ _ _ _ _ _ _ _ G Inv R Dr) as [W M].
  split; [by apply (deny_ok b)|]. by split_and!.
Qed.

Lemma pb_delete_inv b t id : rights_inv b → rights_inv (pb_delete b t id).2.
Proof.
  intros Inv. unfold pb_delete, pb_existing. destruct (deny b ODelete t) as [[]|] eqn:D; [|done].
  destruct (route_id _ _ _) as [physical local] eqn:R.
  destruct (pb_get b physical local) as [[[row|]|] b'] eqn:G; cbn [snd]; pose proof (pb_get_inv _ _ _ _ _ G Inv) as Inv'; try done.
  destruct (deny_row _ _ _ _) as [[]|] eqn:Dr; [|done].
  destruct (pb_buffer _ _ _) as [r b2] eqn:Bu. cbn [snd]. eapply pb_buffer_inv; [exact Bu|exact Inv'|].
  rewrite (proj1 Inv) in R. destruct (pb_get_may_touch _ _ _ _ _ _ _ _ G Inv R Dr) as [W M].
  split; [by apply (deny_ok b)|]. by split_and!.
Qed.

(** C10: A procedure cannot do more than its caller. Whatever its steps and arguments, each
    write it has buffered has its record, and in order: the caller is authorized for the
    record's kind on the record's table; an insert goes where that table's routing sends it
    and carries an owner the caller may write; an update or delete is of the row that an id
    of that very table routes to, which exists as the transaction sees it - stored, and
    under the call's own newest update - and whose owner lets this caller do this kind of
    write on that table. The record names the same physical table, shard and values as the
    write, so what is logged and announced is what is written. *)
Theorem procedure_cannot_escalate p args fuel tx :
  writes tx = [] →
  let b := (run_procedure (MkProcBackend s ident tx [] ∅) p args fuel).2 in
  pb_server b = s ∧ all_allowed (writes (pb_tx b)) (pb_writes b).
Proof.
  intros Hw. cbv zeta.
  assert (rights_inv (run_procedure (MkProcBackend s ident tx [] ∅) p args fuel).2) as (Es & _ & F); [|done].
  apply run_procedure_preserves; [exact pb_read_inv|exact pb_insert_inv|exact pb_update_inv|exact pb_delete_inv|].
  split_and!; [done|done|]. cbn. rewrite Hw. split; [done|]. intros i w q E. by rewrite lookup_nil in E.
Qed.
End procedure_rights.

(** ** Atomic batches *)

(** *** What a batch asks for, read off its operations alone *)

Section plan.
Context (cfg : ServerConfig) (idem : string → option Z) (e : Engine).

Definition without_token (op : Request) : Request :=
  MkRequest (req_id op) (req_op op) (req_table op) (req_row_id op) (take_auth_token (req_values op)).2.

(** The write of an operation: none for a read, nor for an insert whose key is known. *)
Definition op_write (op : Request) : option WriteOp :=
  match req_op op, req_row_id op, req_values op with
  | OInsert, _, Some vs =>
      match (take_idem vs).1 ≫= idem with
      | Some _ => None
      | None => Some (WInsert (route_insert cfg (req_table op) (take_idem vs).2).1 (MkRow 0 (take_idem vs).2))
      end
  | OUpdate, Some global, Some vs => let '(physical, local) := route_id cfg (req_table op) global in Some (WUpdate physical local vs)
  | ODelete, Some global, _ => let '(physical, local) := route_id cfg (req_table op) global in Some (WDelete physical local)
  | _, _, _ => None
  end.

(** The row that answers an operation without a write, after the writes [ws] of the batch. *)
Definition read_view (ws : list WriteOp) (op : Request) (view : RowView) : Prop :=
  match req_op op with
  | OGet => ∃ global row, req_row_id op = Some global ∧ view = row_to_view global row ∧
      seen_row e ws (route_id cfg (req_table op) global) = Some row
  | OInsert => ∃ vs key id, req_values op = Some vs ∧ (take_idem vs).1 = Some key ∧ idem key = Some id ∧
      view = MkRowView id (take_idem vs).2
  | _ => False
  end.

(** The responses to [ops] after the writes [ws]; [ks] are the rows their own writes have
    touched, and [e'] the engine they leave. *)
Inductive answers (e' : Engine) : list WriteOp → list Request → list key → list Response → Prop :=
| answers_end ws : answers e' ws [] [] []
| answers_ping ws op ops ks rs :
    req_op op = Ping → answers e' ws ops ks rs → answers e' ws (op :: ops) ks (Response_ok (req_id op) [] :: rs)
| answers_read ws op ops ks rs view :
    op_write op = None → read_view ws op view → answers e' ws ops ks rs →
    answers e' ws (op :: ops) ks (Response_ok (req_id op) [view] :: rs)
| answers_insert ws op physical row ops k ks rs :
    op_write op = Some (WInsert physical row) → answers e' (ws ++ [WInsert physical row]) ops ks rs →
    answers e' ws (op :: ops) (k :: ks)
      (Response_ok (req_id op) [MkRowView (compose_id (route_insert cfg (req_table op) (row_values row)).2 k.2) (row_values row)] :: rs)
| answers_update ws op physical local vs global row ops k ks rs :
    op_write op = Some (WUpdate physical local vs) → req_row_id op = Some global →
    row_at e' (physical, local) = Some row → answers e' (ws ++ [WUpdate physical local vs]) ops ks rs →
    answers e' ws (op :: ops) (k :: ks) (Response_ok (req_id op) [row_to_view global row] :: rs)
| answers_gone ws op physical local vs why ops k ks rs :
    op_write op = Some (WUpdate physical local vs) → row_at e' (physical, local) = None →
    answers e' (ws ++ [WUpdate physical local vs]) ops ks rs →
    answers e' ws (op :: ops) (k :: ks) (Response_err (req_id op) why :: rs)
| answers_delete ws op physical local ops k ks rs :
    op_write op = Some (WDelete physical local) → answers e' (ws ++ [WDelete physical local]) ops ks rs →
    answers e' ws (op :: ops) (k :: ks) (Response_ok (req_id op) [] :: rs).

Lemma answers_ids e' ws ops ks rs : answers e' ws ops ks rs → resp_id <$> rs = req_id <$> ops.
Proof. induction 1; cbn; by f_equal. Qed.

(** What phase 1 makes of an operation. *)
Definition buffered_for (ws : list WriteOp) (op : Request) (b : Buffered) : Prop :=
  match b with
  | BPing => req_op op = Ping
  | BGet view => op_write op = None ∧ read_view ws op view
  | BInsert _ physical shard vs _ => op_write op = Some (WInsert physical (MkRow 0 vs)) ∧
      shard = (route_insert cfg (req_table op) vs).2
  | BUpdate _ physical local global => (∃ vs, op_write op = Some (WUpdate physical local vs)) ∧ req_row_id op = Some global
  | BDelete _ physical local _ => op_write op = Some (WDelete physical local)
  end.

Inductive buffered : list WriteOp → list Request → list (Z * Buffered) → Prop :=
| buffered_nil ws : buffered ws [] []
| buffered_cons ws op ops b bs :
    buffered_for ws op b → buffered (ws ++ option_list (op_write op)) ops bs →
    buffered ws (op :: ops) ((req_id op, b) :: bs).

Lemma buffered_ids ws ops bs : buffered ws ops bs → bs.*1 = req_id <$> ops.
Proof. induction 1; cbn; by f_equal. Qed.
End plan.

(** *** The phases *)

(** Nothing but the sessions and the manager's counters differ. *)
Definition untouched s s' : Prop :=
  sv_engine s' = sv_engine s ∧ versions (sv_mgr s') = versions (sv_mgr s) ∧ sv_wal s' = sv_wal s ∧
  sv_realtime s' = sv_realtime s ∧ sv_search s' = sv_search s ∧ sv_fanout s' = sv_fanout s ∧
  sv_idem s' = sv_idem s.

Lemma untouched_refl s : untouched s s.
Proof. by split_and!. Qed.
Lemma untouched_trans s1 s2 s3 : untouched s1 s2 → untouched s2 s3 → untouched s1 s3.
Proof. unfold untouched. intros (-> & -> & -> & -> & -> & -> & ->) (-> & -> & -> & -> & -> & -> & ->). by split_and!. Qed.

Lemma handshake_untouched env s authed req a s' req' :
  handshake env s authed req = (a, s', req') →
  untouched s s' ∧ req' = without_token req ∧ sv_mgr s' = sv_mgr s ∧ sv_config s' = sv_config s.
Proof.
  unfold handshake, resolve_token, without_token. destruct (take_auth_token _) as [[tok|] vs]; [|by intros [= <- <- <-]].
  repeat case_match; intros; simplify_eq; done.
Qed.

Lemma atomic_auth_untouched ops : ∀ envs s authed r a s',
  atomic_auth envs s authed ops = (r, a, s') →
  untouched s s' ∧ sv_mgr s' = sv_mgr s ∧ sv_config s' = sv_config s ∧ ∀ ops', r = Ok ops' → ops' = without_token <$> ops.
Proof.
  induction ops as [|op ops IH]; intros envs s authed r a s'; cbn [atomic_auth].
  { intros [= <- <- <-]. split_and!; [apply untouched_refl|done|done|by intros ? [= <-]]. }
  destruct (handshake _ _ _ _) as [[a1 s1] op1] eqn:Hs. apply handshake_untouched in Hs as (U1 & Id & M1 & C1).
  destruct (authorize _ _ _ _) as [[]|]; [|by intros [= <- <- <-]].
  destruct (negb _); [by intros [= <- <- <-]|].
  destruct (atomic_auth _ s1 a1 ops) as [[rest a2] s2] eqn:Rec. intros [= <- <- <-].
  destruct (IH _ _ _ _ _ _ Rec) as (U2 & M2 & C2 & R2). split_and!; [by eapply untouched_trans|congruence|congruence|].
  intros ops'. destruct rest as [rest|]; [|done]. intros [= <-]. cbn. by rewrite Id, (R2 rest eq_refl).
Qed.

Lemma atomic_read_seen s authed op base physical local hide tx r tx' :
  atomic_read s authed op base physical local hide tx = (r, tx') → writes tx' = writes tx ∧
  ∀ row, r = Ok row → seen_row (sv_engine s) (writes tx) (physical, local) = Some row.
Proof.
  unfold atomic_read. destruct (tx_get _ _ _) as [x tx1] eqn:G. pose proof (tx_get_writes _ _ _ _ _ G) as W.
  destruct x as [[row|]|]; intros [= <- <-]; (split; [done|]); try done.
  intros row' E. apply tx_get_seen in G. destruct (enforce_owner _ _ _ _ _); [|done]. by injection E as <-.
Qed.

Lemma atomic_buffer_writes tx w b r tx' :
  atomic_buffer tx w b = (Ok r, tx') → r = b ∧ writes tx' = writes tx ++ [w].
Proof. unfold atomic_buffer, buffer. destruct (is_active tx); intros [= <- <-]. done. Qed.

(** What an operation buffers is its own write, and what it records is what the operation
    is answered from. *)
Lemma buffer_op_spec s authed op tx seen b tx' seen' :
  buffer_op s authed op tx seen = (Ok b, tx', seen') →
  writes tx' = writes tx ++ option_list (op_write (sv_config s) (idem_lookup s) op) ∧
  buffered_for (sv_config s) (idem_lookup s) (sv_engine s) (writes tx) op b.
Proof.
  unfold buffer_op, buffered_for, read_view, op_write. destruct (req_op op) eqn:O; try done.
  - intros [= <- <- <-]. by rewrite app_nil_r.
  - unfold atomic_insert. destruct (req_values op) as [vs|] eqn:V; [|done]. destruct (blob_too_large _ _); [done|].
    destruct (take_idem vs) as [key vs'] eqn:T. cbn [fst snd]. destruct (key ≫= idem_lookup s) as [c|] eqn:K.
    { intros [= <- <- <-]. rewrite app_nil_r. split; [done|]. cbn [fst snd]. split; [done|].
      destruct key as [key|]; [|done]. exists vs, key, c. by rewrite T. }
    destruct (route_insert _ _ _) as [physical shard] eqn:R. destruct (enforce_owner _ _ _ _ _); [|done].
    destruct (check_unique _ _ _ _ _) as [[?|?] seen1]; [|done].
    destruct (atomic_buffer _ _ _) as [x tx1] eqn:A. intros [= -> <- <-]. apply atomic_buffer_writes in A as [-> W].
    split; [exact W|]. split; [done|]. by rewrite R.
  - destruct (req_row_id op) as [global|] eqn:I; [|done]. destruct (route_id _ _ _) as [physical local] eqn:R.
    destruct (atomic_read _ _ _ _ _ _ _ _) as [[row|] tx1] eqn:A; [|done]. intros [= <- <- <-].
    apply atomic_read_seen in A as [-> Se]. rewrite app_nil_r. split; [done|]. split; [done|].
    exists global, row. split_and!; [done..|]. rewrite R. by apply Se.
  - destruct (req_row_id op) as [global|] eqn:I; [|done]. destruct (route_id _ _ _) as [physical local] eqn:R.
    destruct (req_values op) as [vs|]; [|done].
    destruct (atomic_read _ _ _ _ _ _ _ _) as [[row|] tx1] eqn:A; [|done]. apply atomic_read_seen in A as [W1 _].
    destruct (atomic_buffer _ _ _) as [x tx2] eqn:Bu. intros [= -> <- <-]. apply atomic_buffer_writes in Bu as [-> W].
    split; [by rewrite W, W1|]. split; [by eexists|done].
  - destruct (req_row_id op) as [global|] eqn:I; [|done]. destruct (route_id _ _ _) as [physical local] eqn:R.
    destruct (atomic_read _ _ _ _ _ _ _ _) as [[row|] tx1] eqn:A; [|done]. apply atomic_read_seen in A as [W1 _].
    destruct (atomic_buffer _ _ _) as [x tx2] eqn:Bu. intros [= -> <- <-]. apply atomic_buffer_writes in Bu as [-> W].
    split; [by rewrite W, W1|done].
Qed.

Lemma buffer_ops_spec s authed ops : ∀ tx seen bs tx',
  buffer_ops s authed ops tx seen = (Ok bs, tx') →
  writes tx' = writes tx ++ omap (op_write (sv_config s) (idem_lookup s)) ops ∧
  buffered (sv_config s) (idem_lookup s) (sv_engine s) (writes tx) ops bs.
Proof.
  induction ops as [|op ops IH]; intros tx seen bs tx'; cbn [buffer_ops].
  { intros [= <- <-]. cbn. rewrite app_nil_r. split; [done|constructor]. }
  destruct (buffer_op s authed op tx seen) as [[[b|] tx1] seen1] eqn:E; [|done].
  destruct (buffer_ops s authed ops tx1 seen1) as [[rest|] tx2] eqn:R; [|done]. intros [= <- <-].
  apply buffer_op_spec in E as [W B]. destruct (IH _ _ _ _ R) as [W2 B2]. rewrite W in B2.
  split; [|by constructor]. rewrite W2, W, <- app_assoc. f_equal. cbn [omap list_omap].
  by destruct (op_write _ _ op).
Qed.

Lemma emit_effects_mgr env s base physical entry local_id global_id vs :
  sv_mgr (emit_write_effects env s base physical entry local_id global_id vs) = sv_mgr s.
Proof.
  unfold emit_write_effects. destruct entry, vs; try case_match; rewrite ?post_effects_mgr;
    cbn [sv_mgr s_record_change with_realtime]; apply wal_log_mgr.
Qed.

(** Phase 3 answers as the plan says, and leaves the manager alone. *)
Lemma emit_results_answers cfg idem e ws ops bs : buffered cfg idem e ws ops bs → ∀ envs s touched,
  length touched = length (omap (op_write cfg idem) ops) →
  sv_mgr (emit_results envs s bs touched).2 = sv_mgr s ∧
  answers cfg idem e (sv_engine s) ws ops touched (emit_results envs s bs touched).1.
Proof.
  induction 1 as [ws|ws op ops b bs B _ IH]; intros envs s touched L.
  { apply nil_length_inv in L as ->. split; [done|constructor]. }
  cbn [emit_results].
  assert (∀ s1 touched1 r (Q : list Response → Prop), sv_mgr s1 = sv_mgr s →
    length touched1 = length (omap (op_write cfg idem) ops) →
    (∀ rs, answers cfg idem e (sv_engine s) (ws ++ option_list (op_write cfg idem op)) ops touched1 rs → Q (r :: rs)) →
    let x := let '(rs, s) := emit_results (λ n, envs (S n)) s1 bs touched1 in (r :: rs, s) in
    sv_mgr x.2 = sv_mgr s ∧ Q x.1) as Next.
  { intros s1 touched1 r Q M L1 HQ. destruct (IH (λ n, envs (S n)) s1 touched1 L1) as [M1 A1].
    assert (sv_engine s1 = sv_engine s) as Es by (unfold sv_engine; by rewrite M). rewrite Es in A1.
    destruct (emit_results _ s1 bs touched1) as [rs s2]. cbn [fst snd] in *. split; [congruence|by apply HQ]. }
  assert (∀ w, op_write cfg idem op = Some w →
    ∃ k ks, touched = k :: ks ∧ length ks = length (omap (op_write cfg idem) ops)) as One.
  { intros w W. cbn [omap list_omap] in L. rewrite W in L. destruct touched as [|k ks]; [done|]. injection L as L. by exists k, ks. }
  destruct b as [|view|base physical shard vs key|base physical local global|base physical local global]; cbn [buffered_for] in B.
  - assert (op_write cfg idem op = None) as W by (unfold op_write; by rewrite B).
    apply Next; [done|cbn [omap list_omap] in L; by rewrite W in L|]. rewrite W. cbn. rewrite app_nil_r. intros. by constructor.
  - destruct B as [W V]. apply Next; [done|cbn [omap list_omap] in L; by rewrite W in L|]. rewrite W. cbn. rewrite app_nil_r.
    intros. by constructor.
  - destruct B as [W ->]. destruct (One _ W) as ([t local] & ks & -> & L1). apply Next; [|exact L1|].
    + destruct key; cbn [sv_mgr idem_record with_idem]; apply emit_effects_mgr.
    + rewrite W. intros rs A. exact (answers_insert _ _ _ _ ws op physical (MkRow 0 vs) ops (t, local) ks rs W A).
  - destruct B as [[vs W] I]. destruct (One _ W) as ([t local'] & ks & -> & L1). rewrite get_row_at.
    destruct (table_exists _ _) eqn:Te; [destruct (row_at _ _) as [row|] eqn:R|].
    + apply Next; [apply emit_effects_mgr|exact L1|]. rewrite W. intros. by eapply answers_update.
    + apply Next; [done|exact L1|]. rewrite W. intros. by eapply answers_gone.
    + apply Next; [done|exact L1|]. rewrite W. intros. eapply answers_gone; [exact W| |done].
      unfold table_exists in Te. apply bool_decide_eq_false in Te. unfold row_at. cbn. apply eq_None_not_Some in Te. by rewrite Te.
  - destruct (One _ B) as ([t local'] & ks & -> & L1). apply Next; [apply emit_effects_mgr|exact L1|]. rewrite B. intros.
    by eapply answers_delete.
Qed.

(** The writes of a batch, read off its operations. *)
Definition batch_writes s (batch : BatchRequest) : list WriteOp :=
  omap (op_write (sv_config s) (idem_lookup s)) (without_token <$> breq_ops batch).

Inductive atomic_result s (batch : BatchRequest) (b : BatchResponse) s' : Prop :=
| atomic_aborted :
    untouched s s' → Forall (λ r, resp_ok r = false) (bresp_results b) → atomic_result s batch b s'
| atomic_committed ks :
    apply_writes (sv_engine s) (batch_writes s batch) = (Ok ks, sv_engine s') →
    answers (sv_config s) (idem_lookup s) (sv_engine s) (sv_engine s') [] (without_token <$> breq_ops batch) ks (bresp_results b) →
    atomic_result s batch b s'
| atomic_half_applied e :
    apply_writes (sv_engine s) (batch_writes s batch) = (Err e, sv_engine s') → sv_wal s' = sv_wal s →
    Forall (λ r, resp_ok r = false) (bresp_results b) → atomic_result s batch b s'.

Lemma commit_cases m tx r tx' m' :
  commit m tx = (r, tx', m') →
  (is_ok r = false ∧ engine m' = engine m ∧ versions m' = versions m) ∨
  (∃ ks, r = Ok ks ∧ apply_writes (engine m) (writes tx) = (Ok ks, engine m')) ∨
  (∃ e, r = Err (TxCoreError e) ∧ apply_writes (engine m) (writes tx) = (Err e, engine m')).
Proof.
  unfold commit. destruct (negb (is_active tx)); [intros [= <- <- <-]; by left|].
  destruct (has_writes tx) eqn:Hw; cbn [negb].
  - destruct (validate _ _); [intros [= <- <- <-]; by left|]. cbn [engine].
    destruct (apply_writes (engine m) (writes tx)) as [[ks|e] e'] eqn:A; intros [= <- <- <-].
    + right. left. by exists ks.
    + right. right. by exists e.
  - intros [= <- <- <-]. right. left. exists []. split; [done|]. unfold has_writes in Hw.
    by destruct (writes tx).
Qed.

(** C5: An atomic batch ends in one of three ways, each about the writes its operations ask
    for: an insert of its values into the table they route to (none when its idempotency
    key is known), an update or a delete of the row its id routes to. Aborted before
    anything is applied, every response is an error and rows, log, change log, search
    index, fanout and idempotency keys are untouched. Committed, the engine is the one
    that these writes, all applied in the order of the batch, leave, and each operation is
    answered in turn: an insert with its row under the id the commit gave it, a known key
    with its row, a get with the row the batch sees at that point, an update with the row
    as the batch leaves it - or an error when the batch itself has deleted it. Or a write
    fails while the commit is applying them: every response is an error, but the writes
    before it stay in the engine and none is logged. The third is the only way to miss
    all-or-nothing. *)
Theorem atomic_outcome envs s authed batch :
  let '(b, _, s') := execute_atomic envs s authed batch in
  bresp_id b = breq_id batch ∧ resp_id <$> bresp_results b = req_id <$> breq_ops batch ∧
  atomic_result s batch b s'.
Proof.
  unfold execute_atomic. cbv zeta.
  assert (∀ (ids : list Z) msg, Forall (λ r, resp_ok r = false) ((λ rid, Response_err rid msg) <$> ids)) as AllErr.
  { intros ids msg. apply Forall_fmap, Forall_forall. done. }
  assert (∀ (ids : list Z) msg, resp_id <$> ((λ rid, Response_err rid msg) <$> ids) = ids) as AllIds.
  { intros ids msg. rewrite <- list_fmap_compose. apply list_fmap_id. }
  destruct (atomic_auth envs s authed (breq_ops batch)) as [[r a] s1] eqn:Au.
  destruct (atomic_auth_untouched _ _ _ _ _ _ _ Au) as (U1 & M1 & C1 & Ops).
  destruct r as [ops|msg]; [|split_and!; [done|apply AllIds|apply atomic_aborted; [done|apply AllErr]]].
  specialize (Ops ops eq_refl). assert (req_id <$> ops = req_id <$> breq_ops batch) as Ids by (rewrite Ops, <- list_fmap_compose; done).
  destruct (begin (sv_mgr s1) RepeatableRead) as [tx m] eqn:B. unfold begin in B. injection B as <- <-.
  set (tx := set_start_seq _ _). set (s2 := with_mgr s1 _).
  assert (untouched s s2) as U2 by (eapply untouched_trans; [exact U1|by split_and!]).
  destruct (buffer_ops s2 a ops tx ∅) as [[bs|msg] tx2] eqn:Bu;
    [|split_and!; [done|apply AllIds|apply atomic_aborted; [done|apply AllErr]]].
  apply buffer_ops_spec in Bu as [W Bu].
  assert (sv_engine s2 = sv_engine s) as Es by apply U2.
  assert (idem_lookup s2 = idem_lookup s) as Ei by (unfold idem_lookup, idem_map; by rewrite (proj2 (proj2 (proj2 (proj2 (proj2 (proj2 U2))))))).
  change (sv_config s2) with (sv_config s1) in *. rewrite C1, Ei in W, Bu. rewrite Es in Bu. cbn [writes tx set_start_seq Transaction_new app] in W, Bu.
  assert (bs.*1 = req_id <$> breq_ops batch) as Ids2 by (by rewrite (buffered_ids _ _ _ _ _ _ Bu)).
  destruct (commit (sv_mgr s2) tx2) as [[r tx3] m3] eqn:C.
  apply commit_cases in C as [(Er & Ee & Ev)|[(ks & -> & Ap)|(e & -> & Ap)]].
  - destruct r; [done|]. split_and!; [done|cbn [bresp_results]; by rewrite AllIds|]. apply atomic_aborted; [|apply AllErr].
    eapply untouched_trans; [exact U2|]. by split_and!.
  - change (engine (sv_mgr s2)) with (sv_engine s2) in Ap. rewrite Es, W in Ap.
    pose proof (apply_writes_ok _ _ _ _ Ap) as [F2%Forall2_length _].
    destruct (emit_results_answers _ _ _ _ _ _ Bu envs (with_mgr s2 m3) ks (eq_sym F2)) as [Mg An].
    destruct (emit_results _ _ bs ks) as [rs s4]. cbn [fst snd] in *.
    assert (sv_engine s4 = engine m3) as E4 by (unfold sv_engine; by rewrite Mg).
    split_and!; [done|cbn [bresp_results]; by rewrite (answers_ids _ _ _ _ _ _ _ _ An)|].
    apply (atomic_committed _ _ _ _ ks); unfold batch_writes; rewrite <- Ops, E4; [exact Ap|exact An].
  - change (engine (sv_mgr s2)) with (sv_engine s2) in Ap. rewrite Es, W in Ap.
    split_and!; [done|cbn [bresp_results]; by rewrite AllIds|].
    apply (atomic_half_applied _ _ _ _ e); [unfold batch_writes; rewrite <- Ops; exact Ap| |apply AllErr]. apply U2.
Qed.

(** ** Shards by their own name *)

(** The tables behind a sharded base can be addressed by their own names, and there
    the base's owner column does not apply: a [Get] on the physical table answers with
    the row to any caller, whoever owns it, and the permission a caller holds directly
    is not tied to a table, so it covers the physical one as it covers the base. *)
Theorem shard_names_bypass_ownership s authed id base shard local row :
  let physical := physical_table (sv_config s) base shard in
  owner_column s physical = None → shard_count (sv_config s) physical <= 1 →
  row_at (sv_engine s) (physical, local) = Some row →
  dispatch_get s authed (MkRequest id OGet physical (Some local) None) =
    Response_ok id [MkRowView local (row_values row)] ∧
  (∀ i, authed = Some i → has_permission i PRead = true → authorize s authed OGet physical = Ok ()).
Proof.
  cbv zeta. intros No Sc R. split.
  - unfold dispatch_get, route_id, enforce_owner. cbn [req_row_id req_table req_id].
    rewrite (proj2 (Z.leb_le _ _) Sc), No, get_row_at, R.
    assert (table_exists (sv_engine s) (physical_table (sv_config s) base shard) = true) as ->; [|done].
    apply bool_decide_eq_true. unfold row_at in R. cbn in R. by destruct (sv_engine s !! _).
  - intros i -> Hp. apply authorize_ok. right. right. cbn. exists i. split; [done|].
    apply has_permission_spec in Hp. unfold holds_permission. tauto.
Qed.
End frames.

(** ** A concrete server *)

Definition demo_serde : DeploySerde := {|
  procedure_from_value _ := Err "not a procedure"%string;
  from_ymd_ok _ _ _ := true
|}.
Definition demo_hash : TableHash := λ _, 0.

#[local] Existing Instances demo_json_text demo_value_text demo_json_bytes demo_display demo_debug demo_chrono
  demo_order demo_row_order demo_hash demo_key_order demo_serde demo_channel.

Definition demo_env : Env := MkEnv 1000 2000 [].
Definition demo_envs (n : nat) : Env := demo_env.

(** [docs] has an owner column; [wide] is spread over two shards; a durable log. *)
Definition serving_cfg (auth : bool) : ServerConfig :=
  MkServerConfig "127.0.0.1" 7420 (Some "data"%string) 200000 true 1048576 None 50 false every_sec 0 300 20000
    auth ∅ {["wide"%string := MkShardSpec 2 "owner"]}
    (<["docs"%string := "owner"%string]> {["wide"%string := "owner"%string]}) [].

Definition docs_schema (name : string) : TableSchema :=
  with_column (with_column (TableSchema_new [] name) (ColumnDef_new "owner" TString))
    (with_nullable (ColumnDef_new "body" TString)).
Definition doc (owner : string) : values := {["owner"%string := VString owner]}.

Definition serving_engine : Engine :=
  let e := foldl (λ e n, (create_table e (docs_schema n)).2) ∅ ["docs"; "wide_00"; "wide_01"]%string in
  let e := (insert e "docs" (MkRow 0 (doc "alice"))).2 in
  let e := (insert e "docs" (MkRow 0 (doc "bob"))).2 in
  (insert e "wide_00" (MkRow 0 (doc "bob"))).2.

Definition demo_group : Group := MkGroup [] 2 Waiting (MkWal [] [] 0 0) 0 0 0.
Definition serving (auth rotating : bool) : Server :=
  with_wal (with_engine (Server_new (serving_cfg auth) ∅) serving_engine) (Some [demo_group]) rotating true.

Definition alice : Identity := with_permission (with_permission (Identity_new [] "alice") PRead) PWrite.
Definition request (op : Op) (table : string) (id : option Z) (vs : option values) : Request :=
  MkRequest 7 op table id vs.

Lemma serving_fresh auth rotating : fresh_ids (sv_engine (serving auth rotating)).
Proof.
  assert (bool_decide (map_Forall (λ _ t, map_Forall (λ i _, i < t_next_id t) (t_rows t)) serving_engine) = true) as B
    by (vm_compute; reflexivity).
  apply bool_decide_eq_true in B. intros n t Ht i [row Hr]. by apply (B n t Ht i row).
Qed.

Lemma insert_outcome_witness :
  let r := dispatch_insert demo_env (serving true false) (Some alice) (request OInsert "docs" None (Some (doc "alice"))) in
  resp_ok r.1 = true ∧
  ∃ view, resp_rows r.1 = [view] ∧
    inserted (serving true false) r.2 (request OInsert "docs" None (Some (doc "alice"))) (delete "_idem"%string (doc "alice")) view.
Proof.
  cbv zeta. pose proof (insert_outcome demo_env (serving true false) (Some alice)
    (request OInsert "docs" None (Some (doc "alice"))) (serving_fresh _ _)) as T.
  assert (resp_ok (dispatch_insert demo_env (serving true false) (Some alice)
    (request OInsert "docs" None (Some (doc "alice")))).1 = true) as Ok by (vm_compute; reflexivity).
  destruct (dispatch_insert _ _ _ _) as [r s']. cbn [fst snd] in *. split; [exact Ok|].
  destruct T as [_ T]. destruct (T Ok) as [(_ & key & c & vs & I & _)|(vs & view & [= <-] & Hv & Ins)]; [|eauto].
  exfalso. unfold idem_lookup, idem_map in I. cbn in I. by rewrite !lookup_empty in I.
Defined.

Lemma update_and_delete_outcome_witness :
  let req := request OUpdate "docs" (Some 1) (Some {["body"%string := VString "hi"]}) in
  (dispatch_update demo_env (serving false true) None req).1 =
    Response_err 7 "WAL backpressure: WAL rotation in progress" ∧
  option_map row_values (row_at (sv_engine (dispatch_update demo_env (serving false true) None req).2) ("docs"%string, 1)) =
    Some (<["body"%string := VString "hi"]> (doc "alice")).
Proof.
  cbv zeta. destruct (update_and_delete_outcome demo_env (serving false true) None
    (request OUpdate "docs" (Some 1) (Some {["body"%string := VString "hi"]}))) as (_ & _ & T).
  rewrite (T 1 "docs"%string 1 {["body"%string := VString "hi"]} (MkRow 1 (<["body"%string := VString "hi"]> (doc "alice")))
    (update serving_engine "docs" 1 {["body"%string := VString "hi"]}).2);
    [split; vm_compute; reflexivity|vm_compute; reflexivity..].
Defined.

Lemma rows_are_their_owners_witness :
  row_at (sv_engine (dispatch_update demo_env (serving true false) (Some alice)
    (request OUpdate "docs" (Some 2) (Some (doc "alice")))).2) ("docs"%string, 2) = Some (MkRow 2 (doc "bob")).
Proof.
  apply (rows_are_their_owners demo_env (serving true false) alice (request OUpdate "docs" (Some 2) (Some (doc "alice"))) "owner");
    [vm_compute; reflexivity|vm_compute; reflexivity| |vm_compute; reflexivity|].
  - by apply (bool_decide_unpack _).
  - unfold owned. by vm_compute.
Defined.

Lemma fast_path_is_dispatch_witness :
  encode_scan_fast 4096 (serving false false) None (request OScan "docs" None None) =
    encode_or_too_large 4096 (dispatch_scan (serving false false) None (request OScan "docs" None None)) ∧
  length (resp_rows (dispatch_scan (serving false false) None (request OScan "docs" None None))) = 2%nat.
Proof.
  split; [|vm_compute; reflexivity].
  destruct (fast_path_is_dispatch 4096 demo_envs (serving false false) None (request OScan "docs" None None)) as [_ T].
  rewrite (T eq_refl _ eq_refl).
  assert (resp_ok (dispatch_scan (serving false false) None (request OScan "docs" None None)) = true) as -> by (vm_compute; reflexivity).
  reflexivity.
Defined.

(** A transaction that has read a row and buffered an update of it, then the same row
    updated on its own: the commit still goes through, over the newer value. *)
Definition lost_tx : Transaction :=
  let tx := (begin (sv_mgr (serving false false)) RepeatableRead).1 in
  let tx := (tx_get (sv_mgr (serving false false)) tx ("docs"%string, 1)).2 in
  (tx_update tx "docs" 1 {["body"%string := VString "from tx"]}).2.
Definition lost_req : Request := request OUpdate "docs" (Some 1) (Some {["body"%string := VString "alone"]}).

Lemma autocommit_invisible_to_validation_witness :
  let s' := (dispatch demo_envs (serving false false) None lost_req).2 in
  option_map row_values (row_at (sv_engine s') ("docs"%string, 1)) = Some (<["body"%string := VString "alone"]> (doc "alice")) ∧
  validate (versions (sv_mgr s')) lost_tx = None ∧
  option_map row_values (row_at (engine (commit (sv_mgr s') lost_tx).2) ("docs"%string, 1)) =
    Some (<["body"%string := VString "from tx"]> (doc "alice")).
Proof.
  cbv zeta. split; [vm_compute; reflexivity|]. split; [|vm_compute; reflexivity].
  rewrite (autocommit_invisible_to_validation demo_envs (serving false false) None lost_req lost_tx); [vm_compute; reflexivity|done].
Defined.

Lemma scan_answers_witness :
  dispatch_scan (serving false false) None
    (request OScan "wide" None (Some (<["_limit"%string := VInt64 1]> {["_order"%string := VString "DESC"]}))) =
    Response_ok 7 [MkRowView 1 (doc "bob")].
Proof.
  set (req := request OScan "wide" None _).
  assert (scan_merged (serving false false) "wide" = Ok [(1, MkRow 1 (doc "bob"))]) as M by (vm_compute; reflexivity).
  destruct (scan_answers (serving false false) None req _ M) as (_ & sorted & P & _ & _ & ->).
  - vm_compute. reflexivity.
  - split; [vm_compute; done|vm_compute; reflexivity].
  - assert (sorted ≡ₚ [(1, MkRow 1 (doc "bob"))]) as P' by (rewrite P; vm_compute; reflexivity).
    apply Permutation_singleton_r in P' as ->. vm_compute. reflexivity.
Defined.

(** A batch that pings, inserts and names an unknown token, from nobody. *)
Definition stranger_batch : BatchRequest :=
  MkBatchRequest 9 [request Ping "" None None; request OInsert "docs" None (Some (doc "eve"));
    request ODelete "docs" (Some 1) (Some {["_auth"%string := VString "guess"]})].

Lemma anonymous_changes_nothing_witness :
  let '(o, authed, s') := handle_incoming 4096 (λ _ _, demo_env) (serving true false) None (IBatch stranger_batch) in
  sv_engine s' = serving_engine ∧ authed = None.
Proof.
  pose proof (anonymous_changes_nothing 4096 (λ _ _, demo_env) (serving true false) (IBatch stranger_batch) eq_refl) as T.
  destruct (handle_incoming _ _ _ _ _) as [[o authed] s'].
  destruct T as (-> & _ & -> & _); [|by split].
  cbn [incoming_ops stranger_batch breq_ops]. repeat (apply Forall_cons_2 || apply Forall_nil_2); intros tok E.
  - done.
  - vm_compute in E. done.
  - vm_compute in E. injection E as <-. split; vm_compute; reflexivity.
Defined.

(** Two pipelined [Ping] frames under a frame limit of 30 bytes. *)
Definition two_pings : list byte :=
  match encode_request 30 (Request_ping 1) with Ok f => f ++ f | Err _ => [] end.

Lemma staging_is_bounded_witness :
  length two_pings = 42%nat ∧
  (∃ out authed s', on_read 30 (λ _ _ _, demo_env) (λ _, false) (serving false false) None [] two_pings =
     Some (Err StagingOverflow, out, authed, s') ∧ out = []) ∧
  ∃ out authed s', on_read 42 (λ _ _ _, demo_env) (λ _, false) (serving false false) None [] two_pings =
     Some (Ok [], out, authed, s') ∧ length out = 2%nat.
Proof.
  split; [vm_compute; reflexivity|]. split.
  - destruct (staging_is_bounded 30 (λ _ _ _, demo_env) (λ _, false) (serving false false) None [] two_pings ltac:(done))
      as (r & out & a & s' & E & _ & O).
    destruct O as [-> ->]; [vm_compute; reflexivity|]. exists [], a, s'. by split.
  - do 3 eexists. split; vm_compute; reflexivity.
Defined.

(** A procedure that inserts a document in the name of its argument. *)
Definition write_doc : Procedure :=
  MkProcedure "write" "" [SInsert "docs" {["owner"%string := VString "$who"]} "out"].

Lemma procedure_cannot_escalate_witness :
  let tx := Transaction_new 1 RepeatableRead in
  let run who := run_procedure (MkProcBackend (serving true false) (Some alice) tx [] ∅) write_doc
                   {["who"%string := VString who]} DEFAULT_FUEL in
  (∃ e, (run "bob").1 = Err e) ∧ length (writes (pb_tx (run "bob").2)) = 0%nat ∧
  length (writes (pb_tx (run "alice").2)) = 1%nat ∧
  all_allowed (serving true false) (Some alice) (writes (pb_tx (run "alice").2)) (pb_writes (run "alice").2).
Proof.
  cbv zeta. split; [eexists; vm_compute; reflexivity|]. split; [vm_compute; reflexivity|].
  split; [vm_compute; reflexivity|].
  apply (procedure_cannot_escalate (serving true false) (Some alice) write_doc {["who"%string := VString "alice"]}
    DEFAULT_FUEL (Transaction_new 1 RepeatableRead)).
  reflexivity.
Defined.

Lemma shard_names_bypass_ownership_witness :
  dispatch_get (serving true false) (Some alice) (request OGet "wide" (Some 1) None) = Response_err 7 "row not found: 1" ∧
  dispatch_get (serving true false) (Some alice) (request OGet "wide_00" (Some 1) None) = Response_ok 7 [MkRowView 1 (doc "bob")].
Proof.
  split; [vm_compute; reflexivity|].
  apply (shard_names_bypass_ownership (serving true false) (Some alice) 7 "wide" 0 1 (MkRow 1 (doc "bob"))); vm_compute; done.
Defined.

(** An insert, an update and a read of the updated row. *)
Definition whole_batch : BatchRequest :=
  MkBatchRequest 9 [request OInsert "docs" None (Some (doc "carol"));
    request OUpdate "docs" (Some 1) (Some {["body"%string := VString "hi"]}); request OGet "docs" (Some 1) None].

Lemma atomic_outcome_witness :
  let '(b, _, s') := execute_atomic demo_envs (serving false false) None whole_batch in
  resp_ok <$> bresp_results b = [true; true; true] ∧
  ∃ ks, apply_writes serving_engine
          [WInsert "docs" (MkRow 0 (doc "carol")); WUpdate "docs" 1 {["body"%string := VString "hi"]}] = (Ok ks, sv_engine s') ∧
    length ks = 2%nat ∧ (row_values <$> row_at (sv_engine s') ("docs"%string, 1)) = Some (<["body"%string := VString "hi"]> (doc "alice")).
Proof.
  pose proof (atomic_outcome demo_envs (serving false false) None whole_batch) as T.
  assert (resp_ok <$> bresp_results (execute_atomic demo_envs (serving false false) None whole_batch).1.1 = [true; true; true]) as K
    by (vm_compute; reflexivity).
  assert ((row_values <$> row_at (sv_engine (execute_atomic demo_envs (serving false false) None whole_batch).2) ("docs"%string, 1)) =
    Some (<["body"%string := VString "hi"]> (doc "alice"))) as R by (vm_compute; reflexivity).
  destruct (execute_atomic _ _ _ _) as [[b a] s']. cbn [fst snd] in *. split; [exact K|].
  destruct T as (_ & _ & [_ F|ks A _|e _ _ F]).
  - destruct (bresp_results b) as [|r rs]; [discriminate K|]. inversion F as [|? ? Fr _]. injection K as K _. congruence.
  - exists ks. split; [exact A|]. split; [|exact R]. apply apply_writes_ok in A as [F _]. by apply Forall2_length in F.
  - destruct (bresp_results b) as [|r rs]; [discriminate K|]. inversion F as [|? ? Fr _]. injection K as K _. congruence.
Defined.

(** Two inserts, the second without its required column. *)
Definition half_batch : BatchRequest :=
  MkBatchRequest 9 [request OInsert "docs" None (Some (doc "carol")); request OInsert "docs" None (Some ∅)].

(** Atomic batches are not all-or-nothing: a batch whose second insert the schema
    rejects is answered with errors only, yet its first insert stays in the table, and
    no log record is written for it. *)
Theorem atomic_batch_half_applied :
  let '(b, _, s') := execute_atomic demo_envs (serving false false) None half_batch in
  forallb (λ r, negb (resp_ok r)) (bresp_results b) = true ∧
  option_map row_values (row_at (sv_engine s') ("docs"%string, 3)) = Some (doc "carol") ∧
  row_at (sv_engine (serving false false)) ("docs"%string, 3) = None ∧ sv_wal s' = sv_wal (serving false false).
Proof. vm_compute. done. Qed.

(** An update and a delete of one row in one batch: committed, with an error among the
    responses. *)
Example update_then_delete_reports_an_error :
  let ops := [request OUpdate "docs" (Some 1) (Some (doc "alice")); request ODelete "docs" (Some 1) None] in
  let '(b, _, s') := execute_atomic demo_envs (serving false false) None (MkBatchRequest 9 ops) in
  resp_ok <$> bresp_results b = [false; true] ∧ row_at (sv_engine s') ("docs"%string, 1) = None.
Proof. vm_compute. done. Qed.
