(* ===== verification/Session.v ===== *)
(** [blitz-server/src/transport.rs], [handle_stream]: one connection from its arrival to its
    end - the watermark, the guard that takes a slot, the reads and their frames, the guard
    dropped - over what its socket yields: reads, the end of the stream, the idle deadline
    and failures. The counters of admission and their steps are [Admission]'s; here the
    task takes its own steps without interruption, and the other tasks move the counters
    while it serves. A read is [Dispatch.on_read]; a push stream takes over from [Ended] in
    [Feed]. *)
From S2P Require Import Prelude Float Value HashMap Schema Core Policy Codec Snapshot Wal GroupCommit Durability Tx Shard Query Text Window Changes Jobs Runtime Deploy Server Admission Dispatch Serving.

Local Open Scope Z_scope.

(** One read: its bytes, and what its frames draw from outside. *)
Record Reading : Type := MkReading { rd_chunk : list byte; rd_envs : nat → nat → nat → Env; rd_slow : nat → bool }.

(** What the socket yields; a read of no bytes is the end of the stream. *)
Inductive sock_event : Type := SockRead (r : Reading) | SockIdle | SockFailed.

(** How far a connection has come. *)
Inductive session_state : Type :=
| Open (staging : list byte)
| Shutdown
| IdleClosed
| ReadFailed
| ClosedBy (c : closing).

(** ** Admission, by a task that nothing interrupts *)

Definition turns (c : ServerConfig) (n : nat) (t : nat) (adm : Admissions) : Admissions :=
  Nat.iter n (λ adm, default adm (conn_step c adm t false)) adm.

(** [ConnectionGuard::new]: the address slot, the counter, and the address slot back when
    the counter is full. The task is gone from [pcs] when there is no guard. *)
Definition ConnectionGuard_new (c : ServerConfig) (adm : Admissions) (t : nat) : Admissions :=
  let adm := turns c 3 t adm in
  match pcs adm !! t with Some (Refused _) => turns c 1 t adm | _ => adm end.

(** [Drop for ConnectionGuard]. *)
Definition ConnectionGuard_drop (c : ServerConfig) (adm : Admissions) (t : nat) : Admissions := turns c 3 t adm.

(** ** The slot of a connection *)

(** What another task may do: any step of its own. *)
Definition other_step (c : ServerConfig) (t : nat) (adm adm' : Admissions) : Prop :=
  adm_step c adm adm' ∧ pcs adm' !! t = pcs adm !! t.

Definition ip_full (c : ServerConfig) (adm : Admissions) (ip : option ip_addr) : bool :=
  match ip with
  | Some addr => negb (max_connections_per_ip c =? 0) && (max_connections_per_ip c <=? default 0 (ips adm !! addr))
  | None => false
  end.
Definition with_slot (c : ServerConfig) (adm : Admissions) (t : nat) (ip : option ip_addr) : Admissions :=
  MkAdmissions (connections adm + 1) (match ip with Some addr => (ip_acquire c (ips adm) addr).2 | None => ips adm end)
    (shed_drops adm) (<[t := Holding ip]> (pcs adm)).

Section slot.
Context (c : ServerConfig).

Lemma turns_S n t adm p : pcs adm !! t = Some p →
  turns c (S n) t adm = turns c n t
    match p with
    | Arrived ip => guard_ip c adm t ip
    | IpHeld ip => set_pc adm t (Acquiring ip (connections adm))
    | Acquiring ip current => acquire_turn c adm t false ip current
    | Refused ip | IpLeft ip => leave (set_ips adm (ip_release_opt (ips adm) ip)) t
    | Holding ip => set_pc adm t (Releasing ip (connections adm))
    | Releasing ip current => release_turn adm t false ip current
    end.
Proof. intros E. unfold turns. rewrite Nat.iter_succ_r. unfold conn_step. by rewrite E. Qed.

Lemma turns_O t adm : turns c 0 t adm = adm.
Proof. done. Qed.

Lemma turns_gone n t adm : pcs adm !! t = None → turns c n t adm = adm.
Proof. intros E. induction n as [|n IH]; [done|]. unfold turns in *. rewrite Nat.iter_succ, IH. unfold conn_step. by rewrite E. Qed.

Lemma ip_back ips addr : (∀ a n, ips !! a = Some n → 1 <= n) → 1 <= max_connections_per_ip c →
  (ip_acquire c ips addr).1 = true → ip_release (ip_acquire c ips addr).2 addr = ips.
Proof.
  intros Pos Hc. unfold ip_acquire, ip_release. rewrite (proj2 (Z.eqb_neq _ 0)) by lia.
  case_match eqn:Ef; cbn [fst snd]; [done|]. intros _. rewrite lookup_insert_eq, Z.add_simpl_r.
  destruct (ips !! addr) as [n|] eqn:En; cbn [default]; [specialize (Pos _ _ En)|].
  - rewrite (proj2 (Z.leb_gt _ 1)) by (cbn; lia). rewrite insert_insert_eq. by apply insert_id.
  - cbn. rewrite delete_insert_eq. by apply delete_id.
Qed.

(** The counter's decision on a task that has its address slot. *)
Lemma counter_decides adm t ip : pcs adm !! t = Some (IpHeld ip) →
  match pcs (turns c 2 t adm) !! t with Some (Refused _) => turns c 1 t (turns c 2 t adm) | _ => turns c 2 t adm end =
    if max_connections c <=? connections adm then leave (set_ips adm (ip_release_opt (ips adm) ip)) t
    else set_pc (set_connections adm (connections adm + 1)) t (Holding ip).
Proof.
  intros E. rewrite (turns_S 1 _ _ _ E), (turns_S 0 _ _ (Acquiring ip (connections adm))) by apply lookup_insert_eq.
  rewrite turns_O.
  unfold acquire_turn, cas. cbn [connections set_pc]. rewrite Z.eqb_refl. cbn [andb negb].
  destruct (max_connections c <=? connections adm); cbn [pcs set_pc set_connections]; rewrite ?lookup_insert_eq.
  - rewrite (turns_S 0 _ _ (Refused ip)) by apply lookup_insert_eq. rewrite turns_O.
    unfold leave, set_ips. cbn. by rewrite !delete_insert_eq.
  - unfold set_pc, set_connections. cbn. by rewrite insert_insert_eq.
Qed.

(** The decision on a task that arrived: a slot, or nothing but the count of a drop. *)
Lemma ConnectionGuard_new_decides adm t ip :
  adm_inv c adm → 0 <= max_connections_per_ip c → pcs adm !! t = None →
  ConnectionGuard_new c (set_pc adm t (Arrived ip)) t =
    if ip_full c adm ip then record_shed_drop adm
    else if max_connections c <=? connections adm then adm
    else with_slot c adm t ip.
Proof.
  intros I Hc Ht. unfold ConnectionGuard_new. set (there := set_pc adm t (Arrived ip)).
  rewrite (turns_S 2 _ _ (Arrived ip)) by apply lookup_insert_eq.

  assert (∀ a n, ips adm !! a = Some n → 1 <= n) as Pos.
  { intros a n E. destruct (decide (max_connections_per_ip c = 0)) as [Z0|N0]; [by rewrite (inv_free _ _ I Z0), lookup_empty in E|].
    destruct (inv_ips _ _ I N0 a) as [S _]. rewrite S in E. unfold slots in E. pose proof (pcount_nonneg (holds_ip a) (pcs adm)).
    case_match eqn:Ez; [done|]. injection E as <-. lia. }
  destruct ip as [addr|]; unfold guard_ip, ip_full; [|].
  - destruct (ip_acquire c (ips there) addr) as [b m] eqn:Ea. change (ips there) with (ips adm) in Ea.
    assert (b = negb (negb (max_connections_per_ip c =? 0) && (max_connections_per_ip c <=? default 0 (ips adm !! addr)))) as Eb.
    { unfold ip_acquire in Ea. destruct (max_connections_per_ip c =? 0); [by injection Ea as <- <-|].
      destruct (_ <=? _); by injection Ea as <- <-. }
    destruct (negb _ && _); subst b; cbn [negb].
    + rewrite turns_gone by apply lookup_delete_eq. cbn. rewrite lookup_delete_eq. unfold leave, record_shed_drop. cbn.
      by rewrite delete_insert_id by done.
    + rewrite (counter_decides _ t (Some addr)) by apply lookup_insert_eq. cbn [connections ips set_pc set_ips there].
      destruct (_ <=? connections adm).
      * unfold leave, set_ips, there. cbn. rewrite !delete_insert_eq, delete_id by done.
        assert (ip_release m addr = ips adm) as -> by (destruct (decide (max_connections_per_ip c = 0)) as [Z0|N0];
          [unfold ip_acquire in Ea; rewrite Z0 in Ea; injection Ea as <-; unfold ip_release; by rewrite (inv_free _ _ I Z0), lookup_empty|];
          pose proof (ip_back (ips adm) addr Pos ltac:(lia)) as B; rewrite Ea in B; by apply B).
        by destruct adm.
      * unfold set_pc, set_connections, set_ips, with_slot, there. cbn. by rewrite !insert_insert_eq, Ea.
  - rewrite (counter_decides _ t None) by apply lookup_insert_eq. cbn [connections ips set_pc ip_release_opt there].
    destruct (_ <=? connections adm).
    + unfold leave, set_ips, there. cbn. rewrite !delete_insert_eq, delete_id by done. by destruct adm.
    + unfold set_pc, set_connections, with_slot, there. cbn. by rewrite !insert_insert_eq.
Qed.

(** A guard that is dropped gives both slots back. *)
Lemma ConnectionGuard_drop_gives adm t ip :
  adm_inv c adm → pcs adm !! t = Some (Holding ip) →
  ConnectionGuard_drop c adm t =
    MkAdmissions (connections adm - 1) (ip_release_opt (ips adm) ip) (shed_drops adm) (delete t (pcs adm)).
Proof.
  intros I Ht. assert (1 <= connections adm) as L by (rewrite (inv_conns _ _ I); by eapply pcount_pos).
  unfold ConnectionGuard_drop. rewrite (turns_S 2 _ _ _ Ht), (turns_S 1 _ _ (Releasing ip (connections adm))) by apply lookup_insert_eq.
  unfold release_turn, cas. cbn [connections set_pc]. rewrite Z.eqb_refl, (proj2 (Z.eqb_neq _ 0)) by lia. cbn [andb negb].
  rewrite (turns_S 0 _ _ (IpLeft ip)) by apply lookup_insert_eq. rewrite turns_O. unfold leave, set_ips. cbn.
  by rewrite !delete_insert_eq.
Qed.

Lemma adm_inv_turns n t adm : 0 <= max_connections c → 0 <= max_connections_per_ip c → adm_inv c adm → adm_inv c (turns c n t adm).
Proof.
  intros Hm Hc I. induction n as [|n IH]; [done|]. unfold turns in *. rewrite Nat.iter_succ.
  destruct (conn_step c (Nat.iter n _ adm) t false) as [adm'|] eqn:E; [|done]. eapply adm_inv_step; [done..|exact IH|by eapply step_conn].
Qed.

(** The slot of a connection that was let in is still its own after the others' steps. *)
Lemma slot_stays adm t ip (others : Admissions → Admissions) :
  0 <= max_connections c → 0 <= max_connections_per_ip c → adm_inv c adm → pcs adm !! t = None →
  (∀ adm, rtc (other_step c t) adm (others adm)) →
  should_shed c (connections adm) = false → ip_full c adm ip = false → connections adm < max_connections c →
  let held := others (with_slot c adm t ip) in adm_inv c held ∧ pcs held !! t = Some (Holding ip).
Proof.
  intros Hm Hc I Ht O Sh Fu Le held.
  assert (adm_inv c (with_slot c adm t ip)) as Iw.
  { assert (adm_inv c (set_pc adm t (Arrived ip))) as Ia.
    { eapply adm_inv_step; [done..|exact I|]. pose proof (step_arrive c adm t ip Ht) as S. unfold arrive in S. by rewrite Sh in S. }
    pose proof (ConnectionGuard_new_decides adm t ip I Hc Ht) as E. rewrite Fu, (proj2 (Z.leb_gt _ _) Le) in E. rewrite <- E.
    unfold ConnectionGuard_new. case_match; [case_match|]; eauto using adm_inv_turns. }
  assert (pcs (with_slot c adm t ip) !! t = Some (Holding ip)) as Pw by apply lookup_insert_eq.
  revert Iw Pw. subst held. generalize (with_slot c adm t ip). intros a. specialize (O a). revert O. generalize (others a). clear -Hm Hc.
  intros b O. induction O as [|x y z [S E] _ IH]; [done|]. intros Ix Px. apply IH; [by eapply adm_inv_step|congruence].
Qed.
End slot.

Section session.
Context `{JsonText} `{ValueText} `{JsonBytes} `{DisplayText} `{DebugText} `{Chrono} `{MapOrder} `{RowOrder}
  `{TableHash} `{KeyOrder} `{DeploySerde} `{PushChannel}.
Implicit Types (s : Server) (a : option Identity) (ps : list (list byte)).

(** The loop of [handle_stream]. The idle deadline exists only when it is configured. *)
Fixpoint session_loop (max idle : Z) (evs : list sock_event) s a (staging : list byte)
    : option (session_state * list (list byte) * option Identity * Server) :=
  match evs with
  | [] => Some (Open staging, [], a, s)
  | SockIdle :: evs => if 0 <? idle then Some (IdleClosed, [], a, s) else session_loop max idle evs s a staging
  | SockFailed :: _ => Some (ReadFailed, [], a, s)
  | SockRead r :: evs =>
      if bool_decide (rd_chunk r = []) then Some (Shutdown, [], a, s)
      else
        '(res, out, a, s) ← on_read max (rd_envs r) (rd_slow r) s a staging (rd_chunk r);
        match res with
        | Err c => Some (ClosedBy c, out, a, s)
        | Ok staging =>
            '(fin, out', a, s) ← session_loop max idle evs s a staging;
            Some (fin, out ++ out', a, s)
        end
  end.

(** [others] is what the other connections do to the counters while this one is served. *)
Definition handle_stream s (adm : Admissions) (t : nat) (ip : option ip_addr) (others : Admissions → Admissions)
    (evs : list sock_event) : option (session_state * list (list byte) * option Identity * Server * Admissions) :=
  let c := sv_config s in
  let adm := arrive c adm t ip in
  match pcs adm !! t with
  | None => Some (Shutdown, [], None, s, adm)
  | Some _ =>
      let adm := ConnectionGuard_new c adm t in
      match pcs adm !! t with
      | None => Some (Shutdown, [], None, s, adm)
      | Some _ =>
          '(fin, out, a, s) ← session_loop (max_message_size c) (idle_timeout_secs c) evs s None [];
          Some (fin, out, a, s, ConnectionGuard_drop c (others adm) t)
      end
  end.

(** ** The frames of a read are its payloads *)

Fixpoint serve_payloads (max : Z) (envs : nat → nat → nat → Env) (slow : nat → bool) s a ps (out : list (list byte))
    : result closing () * list (list byte) * option Identity * Server :=
  match ps with
  | [] => (Ok (), out, a, s)
  | p :: ps =>
      match decode_incoming p with
      | Err e => (Err (ProtocolClosed e), out, a, s)
      | Ok i =>
          match handle_frame max (envs O) (slow O) s a i with
          | (Send f, a, s) => serve_payloads max (λ n, envs (S n)) (λ n, slow (S n)) s a ps (out ++ [f])
          | (SendAndClose f, a, s) => (Err (Ended (SendAndClose f)), out ++ [f], a, s)
          | (o, a, s) => (Err (Ended o), out, a, s)
          end
      end
  end.

Lemma frames_are_payloads max fuel : ∀ envs slow s a staging out, (length staging < fuel)%nat →
  handle_frames fuel max envs slow s a staging out =
    let '(ps, e, rest) := drain fuel max staging in
    let '(r, out, a, s) := serve_payloads max envs slow s a ps out in
    Some (match r with
          | Ok _ => match e with Some e => Err (ProtocolClosed e) | None => Ok rest end
          | Err c => Err c
          end, out, a, s).
Proof.
  induction fuel as [|fuel IH]; intros envs slow s a staging out L; [lia|]. cbn [handle_frames drain].
  destruct (feed max staging) as [[[p|]|e] rest] eqn:F; [|done|done].
  apply (feed_some _ _ _ _ []) in F as [_ Lr]. specialize (IH (λ n, envs (S n)) (λ n, slow (S n))).
  destruct (drain fuel max rest) as [[ps e] r'] eqn:D. cbn [serve_payloads].
  destruct (decode_incoming p) as [i|e']; [|done]. destruct (handle_frame _ _ _ _ _ _) as [[[f|f|ack t|e'|] a'] s']; try done.
  rewrite IH by lia. by rewrite D.
Qed.

Lemma serve_payloads_out max ps : ∀ envs slow s a out,
  let '(r, out', _, _) := serve_payloads max envs slow s a ps out in
  ∃ new, out' = out ++ new ∧ (length new <= length ps)%nat ∧ (is_ok r = true → length new = length ps).
Proof.
  induction ps as [|p ps IH]; intros envs slow s a out; cbn [serve_payloads]; [exists []; by rewrite app_nil_r|].
  destruct (decode_incoming p) as [i|e]; [|exists []; rewrite app_nil_r; cbn; split_and!; (done || lia)].
  destruct (handle_frame _ _ _ _ _ _) as [[[f|f|ack t|e'|] a'] s'];
    try (exists []; rewrite app_nil_r; cbn; split_and!; (done || lia)).
  - specialize (IH (λ n, envs (S n)) (λ n, slow (S n)) s' a' (out ++ [f])). destruct (serve_payloads _ _ _ _ _ _ _) as [[[r o] a1] s1].
    destruct IH as (new & -> & L & E). exists (f :: new). rewrite <- app_assoc. cbn. split_and!; [done|lia|]. intros K. rewrite E by done. done.
  - exists [f]. cbn. split_and!; [done|lia|done].
Qed.

(** ** How a connection stands to its stream *)

Abbreviation groups := (list (Reading * list (list byte))).
Definition bytes_of (rs : list Reading) : list byte := rs ≫= rd_chunk.

(** The payloads of each read, served in turn: what a connection does, its framing apart.
    A payload that ends the connection is the last one served. *)
Fixpoint serve_groups (max : Z) (gs : groups) s a : result closing () * list (list byte) * option Identity * Server :=
  match gs with
  | [] => (Ok (), [], a, s)
  | (r, ps) :: gs =>
      match serve_payloads max (rd_envs r) (rd_slow r) (record_io s (Z.of_nat (length (rd_chunk r))) 0) a ps [] with
      | (Ok _, out, a, s) => let '(res, out', a, s) := serve_groups max gs s a in (res, out ++ out', a, s)
      | (Err c, out, a, s) => (Err c, out, a, s)
      end
  end.

(** The reads of a socket up to its end, and how that comes: the deadline, a failure or a
    read of no bytes. *)
Fixpoint until_end (idle : Z) (evs : list sock_event) : list Reading * option session_state :=
  match evs with
  | [] => ([], None)
  | SockIdle :: evs => if 0 <? idle then ([], Some IdleClosed) else until_end idle evs
  | SockFailed :: _ => ([], Some ReadFailed)
  | SockRead r :: evs =>
      if bool_decide (rd_chunk r = []) then ([], Some Shutdown)
      else let '(rs, q) := until_end idle evs in (r :: rs, q)
  end.

(** A read fits when what is left of the frames before it and its bytes are not more than
    the largest frame. *)
Definition fits (max : Z) (staging chunk : list byte) : Prop :=
  Z.of_nat (length (staging ++ chunk)) <= max + Z.of_nat HEADER_LEN.
Fixpoint reads_fit (max : Z) (staging : list byte) (rs : list Reading) : Prop :=
  match rs with
  | [] => True
  | r :: rs => fits max staging (rd_chunk r) ∧ reads_fit max (drain_all max (staging ++ rd_chunk r)).2 rs
  end.

(** Which reads a connection served as which payloads, and why it stands where it does;
    [staging] are the bytes that were there before. *)
Definition stands (max idle : Z) (staging : list byte) (evs : list sock_event) (gs : groups) (res : result closing ())
    (fin : session_state) : Prop :=
  let '(rs, quiet) := until_end idle evs in
  let framed := drain_all max (staging ++ bytes_of gs.*1) in
  let served := mjoin gs.*2 in
  match fin with
  | Open rest => quiet = None ∧ gs.*1 = rs ∧ framed = (served, None, rest) ∧ res = Ok () ∧ reads_fit max staging gs.*1
  | Shutdown | IdleClosed | ReadFailed =>
      quiet = Some fin ∧ gs.*1 = rs ∧ framed.1 = (served, None) ∧ res = Ok () ∧ reads_fit max staging gs.*1
  | ClosedBy c =>
      gs.*1 `prefix_of` rs ∧
      match res, c with
      | Err c', _ => c = c' ∧ framed.1.1 = served ∧ reads_fit max staging gs.*1
      | Ok _, StagingOverflow =>
          ∃ gs' r rest, gs = gs' ++ [(r, [])] ∧ drain_all max (staging ++ bytes_of gs'.*1) = (served, None, rest) ∧
            reads_fit max staging gs'.*1 ∧ ¬ fits max rest (rd_chunk r)
      | Ok _, ProtocolClosed e => framed.1 = (served, Some e) ∧ reads_fit max staging gs.*1
      | Ok _, Ended _ => False
      end
  end.

Lemma drain_all_cons max b c ps e rest : drain_all max b = (ps, e, rest) →
  drain_all max (b ++ c) =
    match e with
    | Some e => (ps, Some e, rest ++ c)
    | None => let '(ps', e', r') := drain_all max (rest ++ c) in (ps ++ ps', e', r')
    end.
Proof.
  intros D. rewrite (drain_all_app max c (S (length b))) by lia. unfold drain_all in D at 1. rewrite D. by destruct e.
Qed.

Lemma bytes_of_cons r rs : bytes_of (r :: rs) = rd_chunk r ++ bytes_of rs.
Proof. done. Qed.

(** One more read before: its payloads, then the rest of the stream from what it left. *)
Lemma stands_cons max idle staging r evs ps rest gs res fin :
  rd_chunk r ≠ [] → fits max staging (rd_chunk r) → drain_all max (staging ++ rd_chunk r) = (ps, None, rest) →
  stands max idle rest evs gs res fin → stands max idle staging (SockRead r :: evs) ((r, ps) :: gs) res fin.
Proof.
  intros Ne Fi D St. assert (∀ c, drain_all max (staging ++ rd_chunk r ++ c) =
    let '(ps', e', r') := drain_all max (rest ++ c) in (ps ++ ps', e', r')) as Dc.
  { intros c. rewrite app_assoc. apply (drain_all_cons max _ c _ _ _ D). }
  unfold stands in *. cbn [until_end fmap list_fmap fst snd mjoin list_join concat]. rewrite bool_decide_false by done.
  destruct (until_end idle evs) as [rs q]. rewrite !bytes_of_cons, Dc.
  destruct fin as [b| | | |c]; cbn [reads_fit]; rewrite ?D; cbn [snd];
    try (destruct St as (-> & -> & F & -> & Rf); destruct (drain_all max (rest ++ _)) as [[? ?] ?]; cbn in F |- *; simplify_eq; by split_and!).
  destruct St as [Pr St]. split; [by apply prefix_cons|]. destruct res as [u|c'].
  - destruct c as [|e|o]; [|destruct (drain_all max (rest ++ _)) as [[? ?] ?]; destruct St as [F Rf]; cbn in F |- *; by simplify_eq|done].
    destruct St as (gs' & r' & rest' & Eg & Dr & Rf & Nf). exists ((r, ps) :: gs'), r', rest'.
    cbn [fmap list_fmap fst reads_fit]. rewrite bytes_of_cons, Dc, Dr, D. split_and!; try done. by rewrite Eg.
  - destruct St as (-> & F & Rf). destruct (drain_all max (rest ++ _)) as [[? ?] ?]. cbn in F |- *. by subst.
Qed.

(** Nothing more was served. *)
Lemma stands_nil max idle staging evs fin : drain_all max staging = ([], None, staging) →
  match fin with Open b => (until_end idle evs).2 = None ∧ b = staging | ClosedBy _ => False | _ => (until_end idle evs).2 = Some fin end →
  (until_end idle evs).1 = [] → stands max idle staging evs [] (Ok ()) fin.
Proof.
  intros D F R. unfold stands, bytes_of. destruct (until_end idle evs) as [rs q]. cbn [fst snd fmap list_fmap mbind list_bind mjoin list_join concat] in *.
  rewrite app_nil_r, D. by destruct fin; simplify_eq; try (destruct F as [-> ->]); split_and!.
Qed.

Lemma session_loop_serves max idle evs : 0 <= max → ∀ s a staging, feed max staging = (Ok None, staging) →
  ∃ fin out a' s' gs res, session_loop max idle evs s a staging = Some (fin, out, a', s') ∧
    serve_groups max gs s a = (res, out, a', s') ∧ (is_ok res = true → length out = length (mjoin gs.*2)) ∧
    stands max idle staging evs gs res fin.
Proof.
  intros Hm. induction evs as [|ev evs IH]; intros s a staging Fn.
  all: assert (drain_all max staging = ([], None, staging)) as D0 by (unfold drain_all; cbn [drain]; by rewrite Fn).
  { exists (Open staging), [], a, s, [], (Ok ()). split_and!; [done..|by apply stands_nil]. }
  destruct ev as [r| |]; cbn [session_loop].
  2: { destruct (0 <? idle) eqn:Ei; [|destruct (IH s a staging Fn) as (fin & out & a' & s' & gs & res & R);
         exists fin, out, a', s', gs, res; unfold stands in *; cbn [until_end]; by rewrite Ei].
       exists IdleClosed, [], a, s, [], (Ok ()). split_and!; [done..|]. apply stands_nil; [done| |]; cbn [until_end]; by rewrite Ei. }
  2: { exists ReadFailed, [], a, s, [], (Ok ()). split_and!; [done..|by apply stands_nil]. }
  case_bool_decide as Ec.
  { exists Shutdown, [], a, s, [], (Ok ()). split_and!; [done..|]. apply stands_nil; [done| |]; cbn [until_end]; by rewrite bool_decide_true. }
  unfold on_read. destruct (_ <? _) eqn:Ov; cbn [mbind option_bind].
  { exists (ClosedBy StagingOverflow), [], a, (record_io s (Z.of_nat (length (rd_chunk r))) 0), [(r, [])], (Ok ()).
    split_and!; [done..|]. unfold stands. cbn [until_end]. rewrite bool_decide_false by done. destruct (until_end idle evs) as [rs q].
    split; [apply prefix_cons, prefix_nil|]. exists [], r, staging. cbn. rewrite app_nil_r. split_and!; [done..|unfold fits; lia]. }
  assert (fits max staging (rd_chunk r)) as Fi by (unfold fits; lia).
  rewrite frames_are_payloads by lia. fold (drain_all max (staging ++ rd_chunk r)).
  destruct (drain_all max (staging ++ rd_chunk r)) as [[ps1 e1] rest1] eqn:D.
  pose proof (serve_payloads_out max ps1 (rd_envs r) (rd_slow r) (record_io s (Z.of_nat (length (rd_chunk r))) 0) a []) as So.
  destruct (serve_payloads _ _ _ _ _ _ _) as [[[res out] a1] s1] eqn:Sp. destruct So as (new & -> & _ & Eo). cbn [app] in *.
  assert (∀ c, match res with Ok _ => ∃ e, e1 = Some e ∧ c = ProtocolClosed e | Err c' => c = c' end →
    ∃ fin out a' s' gs res, Some (ClosedBy c, new, a1, s1) = Some (fin, out, a', s') ∧
      serve_groups max gs s a = (res, out, a', s') ∧ (is_ok res = true → length out = length (mjoin gs.*2)) ∧
      stands max idle staging (SockRead r :: evs) gs res fin) as Closed.
  { intros c K. exists (ClosedBy c), new, a1, s1, [(r, ps1)], res. split_and!; [done| | |].
    - cbn [serve_groups]. rewrite Sp. destruct res as [[]|]; by rewrite ?app_nil_r.
    - cbn. rewrite app_nil_r. done.
    - unfold stands. cbn [until_end]. rewrite bool_decide_false by done. destruct (until_end idle evs) as [rs q].
      split; [apply prefix_cons, prefix_nil|]. cbn [fmap list_fmap fst snd mjoin list_join concat]. rewrite bytes_of_cons, app_assoc.
      unfold bytes_of. cbn [mbind list_bind]. rewrite !app_nil_r, D. destruct res as [u|c']; [destruct K as (e & -> & ->)|subst c'];
      by split_and!. }
  destruct res as [[]|c]; [|by apply Closed]. destruct e1 as [e1|]; [apply Closed; by eexists|]. clear Closed. cbn [mbind option_bind].
  assert (feed max rest1 = (Ok None, rest1)) as Fr by (eapply drain_rest; [|exact D]; lia).
  destruct (IH s1 a1 rest1 Fr) as (fin & out & a' & s' & gs & res & -> & Sg & Lo & St). cbn [mbind option_bind].
  exists fin, (new ++ out), a', s', ((r, ps1) :: gs), res. split_and!; [done| | |by eapply stands_cons].
  - cbn [serve_groups]. rewrite Sp. by rewrite Sg.
  - intros K. cbn. rewrite !length_app, Eo, Lo by done. done.
Qed.

(** C35: A connection from its arrival to its end. Past the watermark, or when its address has
    all its slots, it is closed unanswered and counted as dropped; at the maximum of
    connections it is closed and every counter is as it was. Otherwise it takes a slot and
    comes to a definite state, whatever its socket yields: the reads it served are those
    that arrived, up to the one that closed it; what it answered and did to the server is
    the serving, one after the other, of all the payloads that the framing finds in the
    bytes of these reads, however the network cut them; it is still open with the bytes of
    a partial frame, or ended as its socket did, or closed by a payload, by bytes that are
    no frame, or by the first read that does not fit into the largest frame - and only
    then. At its end both its slots are given back, whatever the other connections did to
    the counters in the meantime. *)
Theorem connection_serves_the_stream s adm t ip others evs :
  let c := sv_config s in
  let max := max_message_size c in
  0 <= max → 0 <= max_connections c → 0 <= max_connections_per_ip c →
  reachable c adm → pcs adm !! t = None → (∀ adm, rtc (other_step c t) adm (others adm)) →
  let run := handle_stream s adm t ip others evs in
  if should_shed c (connections adm) || ip_full c adm ip then run = Some (Shutdown, [], None, s, record_shed_drop adm)
  else if max_connections c <=? connections adm then run = Some (Shutdown, [], None, s, adm)
  else
    let held := others (with_slot c adm t ip) in
    ∃ fin out a s' gs res,
      run = Some (fin, out, a, s',
        MkAdmissions (connections held - 1) (ip_release_opt (ips held) ip) (shed_drops held) (delete t (pcs held))) ∧
      serve_groups max gs s None = (res, out, a, s') ∧ (is_ok res = true → length out = length (mjoin gs.*2)) ∧
      stands max (idle_timeout_secs c) [] evs gs res fin.
Proof.
  intros c max Hm Hcn Hci R Ht O run. pose proof (reachable_inv c Hcn Hci adm R) as I.
  pose proof (ConnectionGuard_new_decides c adm t ip I Hci Ht) as D. pose proof (slot_stays c adm t ip others Hcn Hci I Ht O) as St.
  subst run. unfold handle_stream, arrive. fold c. destruct (should_shed c (connections adm)) eqn:Sh; cbn [orb].
  { cbn. by rewrite Ht. }
  cbn [pcs set_pc]. rewrite lookup_insert_eq, D. destruct (ip_full c adm ip) eqn:Fu; [cbn; by rewrite Ht|].
  destruct (max_connections c <=? connections adm) eqn:Le; [by rewrite Ht|]. apply Z.leb_gt in Le.
  cbn [pcs with_slot]. rewrite lookup_insert_eq.
  destruct (session_loop_serves max (idle_timeout_secs c) evs Hm s None []) as (fin & out & a & s' & gs & res & E & Sg & Lo & Sn); [done|].
  fold max. rewrite E. cbn [mbind option_bind]. destruct (St eq_refl eq_refl Le) as [Ih Ph]. rewrite (ConnectionGuard_drop_gives c _ t ip Ih Ph).
  by exists fin, out, a, s', gs, res.
Qed.
End session.

#[local] Existing Instances demo_json_text demo_value_text demo_json_bytes demo_display demo_debug demo_chrono
  demo_order demo_row_order demo_hash demo_key_order demo_serde demo_channel.

(** Two pings, cut in the middle of the first frame, and the idle deadline. *)
Definition demo_reading (chunk : list byte) : sock_event := SockRead (MkReading chunk (λ _ _ _, demo_env) (λ _, false)).
Definition demo_pings : list byte :=
  match encode_request 1048576 (Request_ping 1) with Ok f => f ++ f | Err _ => [] end.
Definition cut_pings (n : nat) : list sock_event := [demo_reading (firstn n demo_pings); demo_reading (skipn n demo_pings)].

(** A server at rest, and one that is past its watermark. *)
Definition demo_others (adm : Admissions) : Admissions :=
  if pcs adm !! 7%nat is None then arrive (sv_config (serving false false)) adm 7 None else adm.
Definition demo_handle (evs : list sock_event) :=
  handle_stream (serving false false) Admissions_new 0 None demo_others evs.

Example two_pings_answered :
  option_map (λ r, (r.1.1.1.1, length r.1.1.1.2, connections r.2)) (demo_handle (cut_pings 7)) = Some (Open [], 2%nat, 0) ∧
  option_map (λ r, (r.1.1.1.1, length r.1.1.1.2)) (demo_handle (cut_pings 30 ++ [SockIdle])) = Some (IdleClosed, 2%nat).
Proof. split; vm_compute; reflexivity. Qed.

Lemma connection_serves_the_stream_witness :
  ∃ fin out a s' gs res,
    serve_groups (max_message_size (sv_config (serving false false))) gs (serving false false) None = (res, out, a, s') ∧
    stands (max_message_size (sv_config (serving false false))) (idle_timeout_secs (sv_config (serving false false))) [] (cut_pings 7) gs res fin.
Proof.
  set (s := serving false false).
  assert (∀ adm, rtc (other_step (sv_config s) 0) adm (demo_others adm)) as O.
  { intros adm. unfold demo_others. destruct (pcs adm !! 7%nat) eqn:E; [apply rtc_refl|]. apply rtc_once. split; [by apply step_arrive|].
    unfold arrive. case_match; [done|]. cbn. by rewrite lookup_insert_ne. }
  destruct (connection_serves_the_stream s Admissions_new 0 None demo_others (cut_pings 7)
    ltac:(vm_compute; discriminate) ltac:(vm_compute; discriminate) ltac:(vm_compute; discriminate) (rtc_refl _ _) eq_refl O)
    as (fin & out & a & s' & gs & res & _ & Sg & _ & St).
  exists fin, out, a, s', gs, res. exact (conj Sg St).
Defined.
