(* ===== verification/Feed.v ===== *)
(** The feeds a server keeps: the worker of [blitz-server/src/social.rs] that
    materializes the timelines of followers, the push stream of a TCP connection and
    the event stream of an HTTP connection, both of [transport.rs]. *)
From S2P Require Import Prelude Float Value HashMap Schema Core Policy Codec Snapshot Wal GroupCommit Durability Tx Shard Query Text Window Changes Jobs Runtime Deploy Server Dispatch Serving.

Local Open Scope Z_scope.

(** ** The fan-out worker *)

Definition FANOUT_PER_POST_CAP : nat := 200.

Definition timeline_schema (uuid : list byte) : TableSchema :=
  with_column (with_column (with_column (with_column (with_column (TableSchema_new uuid "timeline")
    (with_nullable (ColumnDef_new "id" TInt64))) (with_nullable (ColumnDef_new "owner" TString)))
    (with_nullable (ColumnDef_new "post" TString))) (with_nullable (ColumnDef_new "author" TString)))
    (with_nullable (ColumnDef_new "ts" TString)).

(** The tables of follows, in the order of their names. *)
Definition is_follows (t : string) : bool := String.eqb t "follows" || starts_with t "follows_".

(** Who a row says follows [author]. *)
Definition follower (author : string) (r : Row) : option string :=
  match row_values r !! "to"%string, row_values r !! "from"%string with
  | Some (VString t), Some (VString f) => if String.eqb t author then Some f else None
  | _, _ => None
  end.

(** The two loops, each leaving when the cap is reached. *)
Fixpoint collect_rows (author : string) (owners : list string) (rows : list Row) : list string :=
  match rows with
  | [] => owners
  | r :: rows =>
      if (FANOUT_PER_POST_CAP <=? length owners)%nat then owners
      else collect_rows author (owners ++ option_list (follower author r)) rows
  end.

Section fanout.
Context `{ValueText} `{JsonBytes} `{MapOrder} `{RowOrder} `{TableOrder} `{TableHash} `{PushChannel}.
Implicit Types s : Server.

Definition install_fanout s : Server := install_fanout_channel s.

Definition follow_tables s : list string :=
  Sort.sort_by str_cmp (filter (λ t, is_follows t = true) (table_enum (sv_engine s))).

Definition rows_of s (table : string) : list Row :=
  match scan (sv_engine s) table with Ok rows => rows | Err _ => [] end.

Fixpoint collect_owners s (author : string) (owners : list string) (tables : list string) : list string :=
  match tables with
  | [] => owners
  | ft :: tables =>
      if (FANOUT_PER_POST_CAP <=? length owners)%nat then owners
      else collect_owners s author (collect_rows author owners (rows_of s ft)) tables
  end.

(** The timeline row of one follower. *)
Definition timeline_values (job : FanoutJob) (ts owner : string) : values :=
  <["ts"%string := VString ts]> (<["author"%string := VString (fj_author job)]>
    (<["post"%string := VString (fj_table job +:+ ":" +:+ dec (fj_row_id job))]>
      (<["owner"%string := VString owner]> ∅))).

(** One turn of the loop over the owners; a refused log append leaves the row. *)
Definition deliver_post (job : FanoutJob) (ts : string) (acc : Server * Z) (owner : string) : Server * Z :=
  let '(s, done) := acc in
  let vs := timeline_values job ts owner in
  match insert (sv_engine s) "timeline" (MkRow 0 vs) with
  | (Ok assigned, e) =>
      ((wal_log (with_engine s e) EInsert "timeline" assigned (values_to_json_bytes vs)).2, done + 1)
  | (Err _, e) => (with_engine s e, done)
  end.

Definition fanout_job s (ts : string) (job : FanoutJob) : Server :=
  let owners := collect_owners s (fj_author job) [] (follow_tables s) in
  let '(s, done) := foldl (deliver_post job ts) (s, 0) owners in
  fanout_record_done s done.

(** [run_fanout_loop]: the table, then one turn for each received job. *)
Definition fanout_open s (uuid : list byte) : Server :=
  with_engine s (create_table (sv_engine s) (timeline_schema uuid)).2.
Definition fanout_turn s (ts : string) : option Server :=
  match sv_fanout s with
  | Some c =>
      match fc_queue c with
      | job :: q => Some (fanout_job (with_fanout s (Some (MkFanoutChannel q (fc_open c)))) ts job)
      | [] => None
      end
  | None => None
  end.
End fanout.

(** ** Push streams *)

Section streams.
Context `{JsonText} `{Chrono} `{MapOrder} `{PushChannel}.
Implicit Types s : Server.

(** What ends the loop of a push stream, or carries it on: a record of the
    subscription and whether the peer still reads, silence past the deadline, or the
    end of the channel. *)
Inductive push_event : Type := PushRecord (r : ChangeRecord) (peer : bool) | PushIdle | PushEvicted.

(** Subscribing and the acknowledgement. *)
Definition push_open (max : Z) s (ack_id : Z) (table : string) : result protocol_error (list byte) * Z * Server :=
  let '(sub, rt) := push_subscribe (sv_realtime s) table in
  let s := with_realtime s rt in
  match encode_response max (Response_ok ack_id []) with
  | Err e => (Err e, sub, s)
  | Ok ack => (Ok ack, sub, record_io s 0 (Z.of_nat (length ack)))
  end.

Definition push_frame (max : Z) (r : ChangeRecord) : result protocol_error (list byte) :=
  encode_response max (Response_ok (seq r) [change_view r]).

(** One turn: the frame written, and whether the stream goes on; leaving the loop
    unsubscribes, an encoding error does not. *)
Definition push_turn (max : Z) s (table : string) (sub : Z) (e : push_event)
    : list (list byte) * bool * Server :=
  let close s := with_realtime s (push_unsubscribe (sv_realtime s) table sub) in
  match e with
  | PushIdle | PushEvicted => ([], false, close s)
  | PushRecord r peer =>
      match push_frame max r with
      | Err _ => ([], false, s)
      | Ok f =>
          let s := record_io s 0 (Z.of_nat (length f)) in
          if peer then ([f], true, s) else ([], false, close s)
      end
  end.

(** ** Event streams *)

Definition quote : string := String.string_of_list_byte [Z_byte 34].
Definition quoted (s : string) : string := quote +:+ s +:+ quote.

Definition sse_frame (r : ChangeRecord) : string :=
  "data: {" +:+ quoted "table" +:+ ":" +:+ json_to_string (JString (ch_table r)) +:+ ","
    +:+ quoted "op" +:+ ":" +:+ json_to_string (JString (ch_op r)) +:+ ","
    +:+ quoted "row_id" +:+ ":" +:+ dec (ch_row_id r) +:+ ","
    +:+ quoted "ts" +:+ ":" +:+ dec (ts_micros r) +:+ "}" +:+ String.string_of_list_byte [Z_byte 10; Z_byte 10].

(** One round of the loop of [sse_stream]: the changes since the newest one sent. *)
Definition sse_poll (rt : Realtime) (table : string) (since : Z) : list ChangeRecord * Z * Realtime :=
  let '(recs, rt) := read_changes rt table since 100 in
  (recs, foldl (λ n r, Z.max n (ts_micros r)) since recs, rt).

(** The stream against bursts of other clients' operations, a round after each. *)
Fixpoint sse_run (rt : Realtime) (log : list ChangeRecord) (table : string) (since : Z) (bursts : list (list rt_op))
    : list ChangeRecord * Realtime * list ChangeRecord :=
  match bursts with
  | [] => ([], rt, log)
  | ops :: bursts =>
      let '(rt, log) := rt_run rt log ops in
      let '(recs, since, rt) := sse_poll rt table since in
      let '(rest, rt, log) := sse_run rt log table since bursts in
      (recs ++ rest, rt, log)
  end.
End streams.

(** ** The worker materializes timelines *)

Section fanout_proofs.
Context `{ValueText} `{JsonBytes} `{MapOrder} `{RowOrder} `{TableOrder} `{TableHash} `{PushChannel}.
Implicit Types s : Server.

(** Everyone who follows [author], in the order of the follow tables. *)
Definition followers s (author : string) : list string :=
  omap (follower author) (mjoin (rows_of s <$> follow_tables s)).

Lemma collect_rows_spec author rows : ∀ owners,
  (length owners <= FANOUT_PER_POST_CAP)%nat →
  collect_rows author owners rows = firstn FANOUT_PER_POST_CAP (owners ++ omap (follower author) rows).
Proof.
  induction rows as [|r rows IH]; intros owners L; cbn [collect_rows omap list_omap].
  - by rewrite app_nil_r, take_ge.
  - destruct (Nat.leb_spec FANOUT_PER_POST_CAP (length owners)).
    + by rewrite take_app_le, take_ge by lia.
    + rewrite IH by (rewrite length_app; destruct (follower author r); simpl; lia).
      destruct (follower author r); cbn [option_list]; [by rewrite <- app_assoc|by rewrite app_nil_r].
Qed.

Lemma collect_owners_spec s author tables : ∀ owners,
  (length owners <= FANOUT_PER_POST_CAP)%nat →
  collect_owners s author owners tables =
    firstn FANOUT_PER_POST_CAP (owners ++ omap (follower author) (mjoin (rows_of s <$> tables))).
Proof.
  induction tables as [|ft tables IH]; intros owners L; cbn [collect_owners fmap list_fmap mjoin list_join].
  - by rewrite app_nil_r, take_ge.
  - rewrite omap_app. destruct (Nat.leb_spec FANOUT_PER_POST_CAP (length owners)).
    + by rewrite take_app_le, take_ge by lia.
    + rewrite collect_rows_spec by lia. rewrite IH by (rewrite length_take; lia).
      rewrite (assoc_L (++)). set (l := owners ++ omap _ (rows_of s ft)).
      destruct (decide (length l <= FANOUT_PER_POST_CAP)%nat); [by rewrite (take_ge l) by done|].
      rewrite !take_app_le by (rewrite ?length_take; lia). by rewrite take_take, Nat.min_id.
Qed.

(** A timeline table as [fanout_open] makes it, with room for [n] more rows. *)
Record timeline_room (t : InMemoryTable) (n : Z) : Prop := {
  tl_columns : ∃ uuid, columns (t_schema t) = columns (timeline_schema uuid);
  tl_fresh : t_fresh t;
  tl_room : 0 <= t_next_id t ∧ t_next_id t + n < 2 ^ 64
}.

Lemma timeline_insert t n job ts owner :
  timeline_room t n → 1 <= n →
  let row := MkRow (t_next_id t) (timeline_values job ts owner) in
  ∃ t', t_insert t (MkRow 0 (timeline_values job ts owner)) = (Ok (t_next_id t), t') ∧
    t_rows t' = <[t_next_id t := row]> (t_rows t) ∧ t_next_id t' = t_next_id t + 1 ∧ timeline_room t' (n - 1).
Proof.
  intros [[uuid C] F R] Hn row.
  assert (validate_row_values (t_schema t) (timeline_values job ts owner) = Ok ()) as V.
  { unfold validate_row_values. rewrite C. vm_compute. reflexivity. }
  assert (uniq_cols t = []) as U by (unfold uniq_cols; rewrite C; vm_compute; reflexivity).
  unfold t_insert. cbn [row_values]. rewrite V. unfold t_insert_unchecked. rewrite U.
  cbn [check_uniq next_row_id row_values]. rewrite wrap_small by lia. eexists. split; [reflexivity|].
  split; [reflexivity|]. split; [reflexivity|]. split; [by exists uuid| |cbn; lia].
  intros i. cbn. destruct (decide (i = t_next_id t)) as [->|N]; [lia|].
  rewrite lookup_insert_ne by done. intros Hi%F. lia.
Qed.

Lemma wal_log_done s entry table id data :
  fanout_done (sv_counters (wal_log s entry table id data).2) = fanout_done (sv_counters s).
Proof. unfold wal_log. repeat case_match; done. Qed.

Lemma deliver_post_spec job ts owners : ∀ s done t,
  sv_engine s !! "timeline"%string = Some t → timeline_room t (Z.of_nat (length owners)) →
  let '(s', done') := foldl (deliver_post job ts) (s, done) owners in
  done' = done + Z.of_nat (length owners) ∧ fanout_done (sv_counters s') = fanout_done (sv_counters s) ∧
  (∀ i o, owners !! i = Some o →
     row_at (sv_engine s') ("timeline"%string, t_next_id t + Z.of_nat i) =
       Some (MkRow (t_next_id t + Z.of_nat i) (timeline_values job ts o))) ∧
  (∀ k, (∀ i, (i < length owners)%nat → k ≠ ("timeline"%string, t_next_id t + Z.of_nat i)) →
     row_at (sv_engine s') k = row_at (sv_engine s) k).
Proof.
  induction owners as [|o owners IH]; intros s done t Ht R; cbn [foldl].
  - split_and!; [simpl; lia|done|done|done].
  - destruct (timeline_insert t _ job ts o R) as (t' & E & Rows & Next & R'); [simpl; lia|].
    unfold deliver_post at 2. unfold insert, with_table, table. rewrite Ht. cbn [ok_or]. rewrite E.
    set (e := <["timeline"%string := t']> (sv_engine s)). set (s1 := (wal_log (with_engine s e) _ _ _ _).2).
    assert (sv_engine s1 = e) as E1 by (unfold s1; by rewrite wal_log_engine).
    specialize (IH s1 (done + 1) t'). rewrite E1 in IH. unfold e at 1 in IH. rewrite lookup_insert_eq in IH.
    specialize (IH eq_refl). replace (Z.of_nat (length (o :: owners)) - 1) with (Z.of_nat (length owners)) in R'
      by (simpl; lia). specialize (IH R').
    destruct (foldl _ _ owners) as [s' done']. destruct IH as (-> & Dn & New & Old).
    rewrite Next in New, Old. split_and!; [simpl; lia|unfold s1 in Dn; by rewrite Dn, wal_log_done| |].
    + intros [|i] o' Ho.
      * injection Ho as <-. rewrite Old by (intros i Hi [=]; lia). unfold row_at, e. cbn [fst snd].
        rewrite lookup_insert_eq. cbn [mbind option_bind]. by rewrite Rows, Z.add_0_r, lookup_insert_eq.
      * replace (t_next_id t + Z.of_nat (S i)) with (t_next_id t + 1 + Z.of_nat i) by lia. by apply New.
    + intros k Hk. rewrite Old.
      * unfold e. rewrite row_at_insert. case_decide as D; [|done]. rewrite Rows.
        destruct k as [n i]. cbn [fst snd] in *. subst n. unfold row_at. cbn [fst snd]. rewrite Ht.
        apply lookup_insert_ne. intros <-. apply (Hk O); [simpl; lia|f_equal; lia].
      * intros i Hi. specialize (Hk (S i) ltac:(simpl; lia)). intros ->. apply Hk. f_equal. lia.
Qed.

(** C25: The fan-out worker gives every follower of a post's author its timeline row:
    one new row per follower, the first 200 in the order of the follow tables, under
    consecutive ids, and no other row is touched, whatever the write-ahead log says of
    the records. *)
Theorem fanout_materializes s ts job t :
  sv_engine s !! "timeline"%string = Some t → timeline_room t (Z.of_nat FANOUT_PER_POST_CAP) →
  let owners := firstn FANOUT_PER_POST_CAP (followers s (fj_author job)) in
  let s' := fanout_job s ts job in
  (∀ i o, owners !! i = Some o →
     row_at (sv_engine s') ("timeline"%string, t_next_id t + Z.of_nat i) =
       Some (MkRow (t_next_id t + Z.of_nat i) (timeline_values job ts o))) ∧
  (∀ k, (∀ i, (i < length owners)%nat → k ≠ ("timeline"%string, t_next_id t + Z.of_nat i)) →
     row_at (sv_engine s') k = row_at (sv_engine s) k) ∧
  fanout_done (sv_counters s') = wrap 64 (fanout_done (sv_counters s) + Z.of_nat (length owners)).
Proof.
  cbv zeta. intros Ht R. unfold fanout_job. rewrite collect_owners_spec by (simpl; lia). cbn [app].
  fold (followers s (fj_author job)). set (owners := firstn _ (followers _ _)).
  pose proof (deliver_post_spec job ts owners s 0 t Ht) as D.
  assert (timeline_room t (Z.of_nat (length owners))) as R'.
  { destruct R as [C F [R0 R1]]. split; [done|done|]. unfold owners. rewrite length_take. lia. }
  specialize (D R'). destruct (foldl _ _ owners) as [s' done]. destruct D as (-> & Dn & New & Old).
  split_and!; [exact New|exact Old|]. cbn. by rewrite Dn.
Qed.
End fanout_proofs.

(** ** An event stream misses nothing *)

Section sse.
Context `{PushChannelLaws}.

Lemma of_table_app t log log' : of_table t (log ++ log') = of_table t log ++ of_table t log'.
Proof. apply filter_app. Qed.

Lemma rt_run_log ops : ∀ rt log,
  0 <= change_seq rt → change_seq rt + Z.of_nat (length ops) < 2 ^ 64 → rt_inv log rt →
  ∃ new, (rt_run rt log ops).2 = log ++ new ∧ (length new <= length ops)%nat ∧
    0 <= change_seq (rt_run rt log ops).1 <= change_seq rt + Z.of_nat (length ops).
Proof.
  induction ops as [|o ops IH]; intros rt log Hz Hs I; cbn [rt_run].
  - exists []. rewrite app_nil_r. split_and!; [done|simpl; lia|simpl; lia|simpl; lia].
  - cbn [length] in *. destruct (rt_step_inv log rt o) as [I' ?]; [lia|lia|done|].
    destruct (IH (rt_step rt o) (log ++ emitted rt o)) as (new & E & L & B); [lia|lia|done|].
    exists (emitted rt o ++ new). rewrite E, <- app_assoc, length_app. split_and!; [done| |lia|lia].
    assert (length (emitted rt o) <= 1)%nat by (destruct o; simpl; repeat case_match; simpl; lia). lia.
Qed.

Definition newest_ts (since : Z) (l : list ChangeRecord) : Z := foldl (λ n r, Z.max n (ts_micros r)) since l.

Lemma newest_ts_ge since l : since <= newest_ts since l ∧ Forall (λ r, ts_micros r <= newest_ts since l) l.
Proof.
  unfold newest_ts. revert since. induction l as [|r l IH]; intros since; cbn [foldl]; [by split; [lia|]|].
  destruct (IH (Z.max since (ts_micros r))). split; [lia|]. constructor; [lia|done].
Qed.

Lemma newest_ts_lt since l n : since < n → Forall (λ r, ts_micros r < n) l → newest_ts since l < n.
Proof. unfold newest_ts. intros L F. revert since L. induction F; intros since L; cbn [foldl]; [done|]. apply IHF. lia. Qed.

Lemma filter_none {A} (P : A → Prop) `{!∀ x, Decision (P x)} l : Forall (λ x, ¬ P x) l → filter P l = [].
Proof. induction 1; [done|]. by rewrite filter_cons_False. Qed.
Lemma filter_every {A} (P : A → Prop) `{!∀ x, Decision (P x)} l : Forall P l → filter P l = l.
Proof. induction 1; [done|]. rewrite filter_cons_True by done. by f_equal. Qed.

(** A round leaves the log and the hub, and sends exactly what is new. *)
Lemma sse_poll_inv rt log table since :
  rt_inv log rt → rt_inv log (sse_poll rt table since).2 ∧ change_seq (sse_poll rt table since).2 = change_seq rt.
Proof. intros [I1 I2 I3 I4 I5 I6]. by split; [split|]. Qed.

Lemma sse_poll_new rt log table since old new :
  rt_inv log rt → of_table table log = old ++ new → (length new <= 100)%nat →
  StronglySorted (λ a b, ts_micros a < ts_micros b) (old ++ new) → Forall (λ r, since < ts_micros r) (old ++ new) →
  (sse_poll rt table (newest_ts since old)).1 = (new, newest_ts since (old ++ new)).
Proof.
  intros I O L S F. unfold sse_poll, read_changes. cbn [changes set_used fst].
  set (recs := match changes rt !! table with Some q => _ | None => _ end).
  assert (recs = new) as ->; [|unfold newest_ts; by rewrite foldl_app].
  assert (recs = firstn 100 (filter (λ r, newest_ts since old < ts_micros r) (default [] (changes rt !! table)))) as ->
    by (unfold recs; by destruct (changes rt !! table)).
  rewrite (inv_log _ _ I table), O. unfold last_n, MAX_CHANGES_PER_TABLE. rewrite length_app, skipn_app.
  replace (length old + length new - 128 - length old)%nat with 0%nat by lia. cbn [skipn]. rewrite filter_app.
  rewrite (filter_none _ (skipn _ old)), (filter_every _ new).
  - cbn [app]. by rewrite firstn_all2.
  - apply Forall_forall. intros r Hr. apply newest_ts_lt; [rewrite Forall_forall in F; apply F; set_solver|].
    apply Forall_forall. intros x Hx. by apply (StronglySorted_app_1_elem_of (λ a b, ts_micros a < ts_micros b) old new).
  - apply Forall_drop. eapply Forall_impl; [exact (proj2 (newest_ts_ge since old))|]. intros r Hr. cbn in Hr |- *. lia.
Qed.

Lemma sse_run_spec table since bursts : ∀ rt log cur,
  0 <= change_seq rt → change_seq rt + Z.of_nat (length (mjoin bursts)) < 2 ^ 64 → rt_inv log rt →
  Forall (λ ops, (length ops <= 100)%nat) bursts →
  let '(got, _, log') := sse_run rt log table cur bursts in
  (∃ new, log' = log ++ new) ∧
  (cur = newest_ts since (of_table table log) →
   StronglySorted (λ a b, ts_micros a < ts_micros b) (of_table table log') →
   Forall (λ r, since < ts_micros r) (of_table table log') →
   of_table table log' = of_table table log ++ got).
Proof.
  induction bursts as [|ops bursts IH]; intros rt log cur Hz Hs I B; cbn [sse_run mjoin list_join] in *.
  - split; [exists []; by rewrite app_nil_r|]. intros _ _ _. by rewrite app_nil_r.
  - rewrite length_app in Hs. apply Forall_cons in B as [B Bs].
    destruct (rt_run_log ops rt log) as (new & E & L & Sq); [done|lia|done|].
    pose proof (rt_run_inv ops rt log Hz ltac:(lia) I) as I'.
    destruct (rt_run rt log ops) as [rt1 log1]. cbn [fst snd] in *. subst log1.
    destruct (sse_poll_inv rt1 _ table cur I') as [I2 S2].
    pose proof (λ O L', sse_poll_new rt1 _ table since (of_table table log) (of_table table new) I' O L') as New.
    destruct (sse_poll rt1 table cur) as [[recs cur'] rt2] eqn:P. cbn [fst snd] in I2, S2.
    assert (change_seq rt2 + Z.of_nat (length (mjoin bursts)) < 2 ^ 64) as Hs' by (unfold mjoin in *; lia).
    specialize (IH rt2 (log ++ new) cur' ltac:(lia) Hs' I2 Bs).
    destruct (sse_run rt2 (log ++ new) table cur' bursts) as [[rest rt3] log']. destruct IH as [[new' ->] IH].
    split; [exists (new ++ new'); by rewrite <- app_assoc|]. intros Ec Ss Fs.
    assert (of_table table (log ++ new) = of_table table log ++ of_table table new) as Eo by apply of_table_app.
    assert (length (of_table table new) <= 100)%nat as Lo.
    { unfold of_table. pose proof (length_filter (λ r, ch_table r = table) new). cbn in B. lia. }
    rewrite of_table_app in Ss, Fs. rewrite Ec in P. specialize (New Eo Lo). rewrite P in New. cbn [fst] in New.
    rewrite Eo in *. apply StronglySorted_app in Ss as (? & Ss & ?). apply Forall_app in Fs as [Fs Fs'].
    specialize (New Ss Fs). injection New as -> ->.
    rewrite of_table_app, Eo in IH |- *. rewrite IH; [by rewrite <- !app_assoc|done| |by apply Forall_app].
    apply StronglySorted_app; by split_and!.
Qed.

(** An event stream misses nothing: its client is sent the table's changes since
    its start, each once and in order, as long as their timestamps increase and no more
    than 100 operations fall between two rounds. *)
Theorem event_stream_complete table since bursts :
  1 + Z.of_nat (length (mjoin bursts)) < 2 ^ 64 → Forall (λ ops, (length ops <= 100)%nat) bursts →
  let '(got, _, log) := sse_run Realtime_new [] table since bursts in
  StronglySorted (λ a b, ts_micros a < ts_micros b) (of_table table log) →
  Forall (λ r, since < ts_micros r) (of_table table log) →
  got = of_table table log.
Proof.
  intros Hs B. pose proof (sse_run_spec table since bursts Realtime_new [] since ltac:(done) Hs rt_inv_new B) as R.
  destruct (sse_run _ _ _ _ _) as [[got rt] log]. destruct R as [_ R]. intros S F. by rewrite R.
Qed.
End sse.

(** ** Witnesses *)

#[local] Existing Instances demo_value_text demo_json_bytes demo_order demo_row_order demo_table_order demo_hash
  demo_channel demo_channel_laws.

Definition follow (from to : string) : Row :=
  MkRow 0 (<["from"%string := VString from]> {["to"%string := VString to]}).
Definition follows_schema : TableSchema :=
  with_column (with_column (TableSchema_new [] "follows") (ColumnDef_new "from" TString)) (ColumnDef_new "to" TString).

(** A server whose users bob and carol follow alice. *)
Definition followed : Server :=
  let e := (create_table ∅ follows_schema).2 in
  let e := (insert e "follows" (follow "bob" "alice")).2 in
  let e := (insert e "follows" (follow "alice" "bob")).2 in
  let e := (insert e "follows" (follow "carol" "alice")).2 in
  fanout_open (with_engine (Server_new ServerConfig_default ∅) e) [].

Lemma fanout_materializes_witness :
  let s' := fanout_job followed "5" (MkFanoutJob "posts" 9 "alice") in
  (option_map row_values (row_at (sv_engine s') ("timeline"%string, 2)) ≫= (.!! "owner"%string)) = Some (VString "bob") ∧
  fanout_done (sv_counters s') = 2 ∧ row_at (sv_engine s') ("timeline"%string, 3) = None.
Proof.
  cbv zeta.
  destruct (fanout_materializes followed "5" (MkFanoutJob "posts" 9 "alice")
    (InMemoryTable_new (timeline_schema []))) as (New & Old & Done).
  - vm_compute. reflexivity.
  - split; [by exists []| |by vm_compute]. intros i. cbn. rewrite lookup_empty. by intros [].
  - specialize (New 1%nat "bob"%string ltac:(vm_compute; reflexivity)). change (t_next_id (InMemoryTable_new (timeline_schema [])) + Z.of_nat 1) with 2 in New.
    rewrite New. split; [vm_compute; reflexivity|].
    split; [rewrite Done; vm_compute; reflexivity|].
    assert (length (firstn FANOUT_PER_POST_CAP (followers followed (fj_author (MkFanoutJob "posts" 9 "alice")))) = 2%nat)
      as L by (vm_compute; reflexivity).
    rewrite Old; [vm_compute; reflexivity|]. intros i Hi. rewrite L in Hi. cbn. intros [=]. lia.
Defined.

Lemma event_stream_complete_witness :
  let bursts := [[]; [RtRecord 5 "t" "insert" 1; RtRecord 6 "u" "insert" 1]; [RtRecord 9 "t" "delete" 1]] in
  (sse_run Realtime_new [] "t" 0 bursts).1.1 =
    [MkChangeRecord 1 "t" "insert" 1 5; MkChangeRecord 3 "t" "delete" 1 9].
Proof.
  cbv zeta. set (bursts := [[]; _; _]).
  pose proof (event_stream_complete "t" 0 bursts ltac:(by vm_compute) ltac:(repeat constructor)) as T.
  assert ((sse_run Realtime_new [] "t" 0 bursts).2 = [MkChangeRecord 1 "t" "insert" 1 5;
    MkChangeRecord 2 "u" "insert" 1 6; MkChangeRecord 3 "t" "delete" 1 9]) as E by (vm_compute; reflexivity).
  destruct (sse_run _ _ _ _ bursts) as [[got rt] log]. cbn [fst snd] in *. rewrite E in T.
  rewrite T; [vm_compute; reflexivity| |]; vm_compute; repeat constructor.
Defined.

(** A change stamped with the microsecond of one already sent is never sent. *)
Example equal_timestamps_lost :
  let '(got, _, log) := sse_run Realtime_new [] "t" 0
    [[]; [RtRecord 5 "t" "insert" 1]; [RtRecord 5 "t" "insert" 2]; []] in
  got = [MkChangeRecord 1 "t" "insert" 1 5] ∧ length (of_table "t" log) = 2%nat.
Proof. vm_compute. done. Qed.
