(* ===== verification/Bridge.v ===== *)
(** [blitz-server/src/http_bridge.rs]: requests and responses as JSON over HTTP. The
    body's parser, uuid, base64 and chrono are third-party code. [None] in place of an
    answer is a panic of the connection's task. *)
From S2P Require Import Prelude Float Value HashMap Schema Core Policy Codec Snapshot Wal GroupCommit Durability Tx Shard Query Text Window Changes Jobs Runtime Deploy Server Dispatch Serving.

Local Open Scope Z_scope.

Class HttpText : Type := {
  parse_error : list byte → string;
  uuid_parse_str : string → option (list byte);
  from_ymd_opt : Z → Z → Z → option Z;
  ymd_format : Z → string;
  b64_encode : list byte → string;
  b64_decode : string → option (list byte)
}.

(** ** JSON to values *)

Section bridge.
Context `{JsonText} `{ValueText} `{JsonBytes} `{DisplayText} `{DebugText} `{Chrono} `{MapOrder} `{RowOrder}
  `{TableHash} `{KeyOrder} `{DeploySerde} `{PushChannel} `{HttpText}.
Implicit Types s : Server.

Definition op_of_name (n : string) : option Op :=
  match n with
  | "ping" => Some Ping | "insert" => Some OInsert | "get" => Some OGet | "update" => Some OUpdate
  | "delete" => Some ODelete | "scan" => Some OScan | "subscribe" => Some OSubscribe | "find" => Some OFind
  | "search" => Some OSearch | "call" => Some OCall | "job_submit" => Some OJobSubmit | "job_poll" => Some OJobPoll
  | "proc_deploy" => Some OProcDeploy | "proc_list" => Some OProcList | "proc_drop" => Some OProcDrop
  | "version" => Some OVersion | "table_create" => Some OTableCreate
  | _ => None
  end%string.

Definition json_to_u64 (v : json) : result string Z :=
  match v with
  | JNumber n => ok_or (num_as_u64 n) ("id out of u64 range: " +:+ json_to_string v)
  | JString s => ok_or (parse_u64 (str_bytes s)) ("id not a u64: " +:+ s)
  | _ => Err "id must be a number or numeric string"%string
  end.

(** The helpers are [deploy.rs]'s, errors included. *)
Definition lenient {A} (r : dres A) : result string A :=
  match r with Ok a => Ok a | Err (Rejected e) => Err e | Err Panicked => Err ""%string end.
Definition http_as_i64 (v : json) : result string Z := lenient (as_i64_lenient v).
Definition http_as_u64 (v : json) : result string Z := lenient (as_u64_lenient v).
Definition http_parse_ymd (s : string) : result string (Z * Z * Z) := lenient (parse_ymd s).
Definition parse_uuid (s : string) : option (list byte) := if is_uuid_shaped s then uuid_parse_str s else None.

Definition as_num {A} (f : json_num → option A) (v : json) : option A :=
  match v with JNumber n => f n | _ => None end.

Inductive tag : Type := TagI32 | TagU32 | TagI64 | TagU64 | TagF32 | TagDecimal | TagDate | TagUuid | TagBytes | TagTs.
Definition tag_of_name (k : string) : option tag :=
  match k with
  | "$i32" => Some TagI32 | "$u32" => Some TagU32 | "$i64" => Some TagI64 | "$u64" => Some TagU64 | "$f32" => Some TagF32
  | "$decimal" => Some TagDecimal | "$date" => Some TagDate | "$uuid" => Some TagUuid | "$bytes" => Some TagBytes
  | "$ts" => Some TagTs
  | _ => None
  end%string.

(** What a tag's payload means; [None] is the fall-through to a plain object. *)
Definition tag_value (t : tag) (x : json) : option (result string value) :=
  match t with
  | TagI32 => n ← as_num num_as_i64 x; Some (Ok (VInt32 (sign 32 (wrap 32 n))))
  | TagU32 => n ← as_num num_as_u64 x; Some (Ok (VUInt32 (wrap 32 n)))
  | TagI64 => Some (VInt64 <$> http_as_i64 x)
  | TagU64 => Some (VUInt64 <$> http_as_u64 x)
  | TagF32 => b ← as_num num_as_f64 x; Some (Ok (VFloat32 (f_encode F32 (f_decode F64 b))))
  | TagDecimal => s ← json_as_str x; Some (Ok (VDecimal s))
  | TagDate =>
      s ← json_as_str x;
      Some ('(y, mo, d) ← http_parse_ymd s; VDate <$> ok_or (from_ymd_opt y mo d) ("bad $date: " +:+ s))
  | TagUuid => s ← json_as_str x; Some (VUuid <$> ok_or (parse_uuid s) ("bad uuid: " +:+ s))
  | TagBytes => s ← json_as_str x; Some (VBytes <$> ok_or (b64_decode s) "bad $bytes base64"%string)
  | TagTs =>
      Some (micros ← http_as_i64 x;
            VTimestamp <$> ok_or (from_timestamp_micros micros) ("bad $ts: " +:+ json_to_string x))
  end.
Definition tagged_value (k : string) (x : json) : option (result string value) := t ← tag_of_name k; tag_value t x.

Fixpoint json_to_value (v : json) : result string value :=
  match v with
  | JNull => Ok VNull
  | JBool b => Ok (VBoolean b)
  | JNumber n =>
      match num_as_i64 n with
      | Some i => Ok (VInt64 i)
      | None =>
          match num_as_u64 n with
          | Some u => Ok (VUInt64 u)
          | None => VFloat64 <$> ok_or (num_as_f64 n) ("bad number: " +:+ json_to_string v)
          end
      end
  | JString s =>
      if is_uuid_shaped s then VUuid <$> ok_or (parse_uuid s) ("bad uuid: " +:+ s) else Ok (VString s)
  | JArray items =>
      VArray <$> (fix go (l : list json) : result string (list value) :=
                    match l with
                    | [] => Ok []
                    | item :: l => item ← json_to_value item; out ← go l; Ok (item :: out)
                    end) items
  | JObject [(k, x)] => default (Ok (VJson v)) (tagged_value k x)
  | JObject _ => Ok (VJson v)
  end.

(** The entries of [values], in the object's order. *)
Fixpoint entries_to_values (m : list (string * json)) (out : values) : result string values :=
  match m with
  | [] => Ok out
  | (k, j) :: m => v ← json_to_value j; entries_to_values m (<[k := v]> out)
  end.

Definition opt_u64 (v : option json) : result string (option Z) :=
  match v with None => Ok None | Some v => Some <$> json_to_u64 v end.

Definition request_from_json (v : json) : result string Request :=
  obj ← ok_or (as_object v) "body must be a JSON object"%string;
  opname ← ok_or (obj_get obj "op" ≫= json_as_str) "missing string field 'op'"%string;
  op ← ok_or (op_of_name opname) ("unknown op: " +:+ opname);
  id ← opt_u64 (obj_get obj "id");
  let table := default ""%string (obj_get obj "table" ≫= json_as_str) in
  row_id ← opt_u64 (obj_get obj "row_id");
  values ← match obj_get obj "values" with
           | None => Ok None
           | Some (JObject m) => Some <$> entries_to_values m ∅
           | Some _ => Err "'values' must be a JSON object"%string
           end;
  Ok (MkRequest (default 0 id) op table row_id values).

(** ** Values to JSON *)

Definition u64_to_json (n : Z) : json := if n <=? 2 ^ 53 then json_of_u64 n else JString (dec n).

Fixpoint value_to_json (v : value) : json :=
  match v with
  | VNull => JNull
  | VBoolean b => JBool b
  | VInt8 n | VInt16 n | VInt32 n | VInt64 n => json_of_i64 n
  | VUInt8 n | VUInt16 n | VUInt32 n => json_of_u64 n
  | VUInt64 n => u64_to_json n
  | VFloat32 b => json_of_f32 b
  | VFloat64 b => json_of_f64 b
  | VDecimal s => JObject [("$decimal"%string, JString s)]
  | VString s => JString s
  | VBytes b => JObject [("$bytes"%string, JString (b64_encode b))]
  | VUuid u => JString (uuid_to_string u)
  | VTimestamp t => JObject [("$ts"%string, json_of_i64 (timestamp_micros t))]
  | VDate d => JObject [("$date"%string, JString (ymd_format d))]
  | VJson j => j
  | VArray items => JArray (value_to_json <$> items)
  end.

Definition values_json (vs : values) : json := JObject (obj_of_list ((λ kv, (kv.1, value_to_json kv.2)) <$> map_enum vs)).
Definition row_json (r : RowView) : json :=
  JObject (obj_of_list [("id"%string, u64_to_json (rv_id r)); ("values"%string, values_json (rv_values r))]).
Definition response_to_json (id : Z) (resp : Response) : json :=
  let rows := JArray (row_json <$> resp_rows resp) in
  match resp_error resp with
  | Some e => JObject (obj_of_list [("id"%string, json_of_u64 id); ("ok"%string, JBool false);
                                    ("rows"%string, rows); ("error"%string, JString e)])
  | None => JObject (obj_of_list [("id"%string, json_of_u64 id); ("ok"%string, JBool (resp_ok resp)); ("rows"%string, rows)])
  end.

(** ** The two endpoints *)

Definition auth_status (err : string) : option Z :=
  if starts_with err "unauthorized" then Some 401 else if starts_with err "forbidden" then Some 403 else None.

(** [json!({"ok": false, "error": e}).to_string()] *)
Definition error_json (e : string) : string :=
  json_to_string (JObject (obj_of_list [("ok"%string, JBool false); ("error"%string, JString e)])).

Definition parse_body (body : list byte) : result string json :=
  ok_or (json_from_slice body) ("malformed JSON: " +:+ parse_error body).

Definition handle_op (envs : nat → Env) s (ident : option Identity) (body : list byte) : option (Z * string) * Server :=
  match parsed ← parse_body body; request_from_json parsed with
  | Err e => (Some (400, error_json e), s)
  | Ok req =>
      match authorize s ident (req_op req) (req_table req) with
      | Err e => (Some (default 200 (auth_status (auth_error_text e)), error_json (auth_error_text e)), s)
      | Ok _ =>
          let '(r, s) := dispatch envs s ident req in
          ((λ resp, (if negb (resp_ok resp) then default 200 (resp_error resp ≫= auth_status) else 200,
                     json_to_string (response_to_json (req_id req) resp))) <$> r, s)
      end
  end.

(** The operations of a batch; the index of a malformed one is part of its error. *)
Fixpoint requests_from_json (i : Z) (l : list json) : result string (list Request) :=
  match l with
  | [] => Ok []
  | j :: l =>
      r ← map_err (λ e, "ops[" +:+ dec i +:+ "]: " +:+ e) (request_from_json j);
      rs ← requests_from_json (i + 1) l;
      Ok (r :: rs)
  end.

(** A batch's envelope: its id, whether it is atomic, its operations. *)
Definition batch_from_json (body : list byte) : result string (Z * bool * list Request) :=
  parsed ← parse_body body;
  obj ← ok_or (as_object parsed) "body must be a JSON object"%string;
  ops_json ← ok_or (obj_get obj "ops" ≫= as_array) "missing array field 'ops'"%string;
  if 4096 <? Z.of_nat (length ops_json) then Err "batch too large (max 4096 ops)"%string else
  let atomic := default false (obj_get obj "atomic" ≫= json_as_bool) in
  id ← opt_u64 (obj_get obj "id");
  ops ← requests_from_json 0 ops_json;
  Ok (default 0 id, atomic, ops).

(** The pass that resolves the tokens and authorizes every operation. *)
Fixpoint authorize_ops (envs : nat → Env) s (authed : option Identity) (ops : list Request)
    : list (Request * option auth_error) * option Identity * Server :=
  match ops with
  | [] => ([], authed, s)
  | op :: ops =>
      let '(authed, s, op) := handshake (envs O) s authed op in
      let denied := match authorize s authed (req_op op) (req_table op) with Err e => Some e | Ok _ => None end in
      let '(rest, authed, s) := authorize_ops (λ n, envs (S n)) s authed ops in
      ((op, denied) :: rest, authed, s)
  end.

(** The operations that were let through, in order, under the batch's last identity. *)
Fixpoint run_ops (envs : nat → nat → Env) s (authed : option Identity) (ops : list (Request * option auth_error))
    : option (list json) * Server :=
  match ops with
  | [] => (Some [], s)
  | (op, Some e) :: ops =>
      let '(rest, s) := run_ops (λ n, envs (S n)) s authed ops in
      ((response_to_json (req_id op) (Response_err (req_id op) (auth_error_text e)) ::.) <$> rest, s)
  | (op, None) :: ops =>
      match dispatch (envs O) s authed op with
      | (None, s) => (None, s)
      | (Some resp, s) =>
          let '(rest, s) := run_ops (λ n, envs (S n)) s authed ops in
          ((response_to_json (req_id op) resp ::.) <$> rest, s)
      end
  end.

Definition batch_json (id : Z) (results : list json) : string :=
  json_to_string (JObject (obj_of_list [("id"%string, json_of_u64 id); ("ok"%string, JBool true); ("results"%string, JArray results)])).

Definition first_denied (ops : list (Request * option auth_error)) : option (Request * auth_error) :=
  head (omap (λ od, e ← od.2; Some (od.1, e)) ops).

Definition handle_batch (envs : nat → nat → Env) s (ident : option Identity) (body : list byte)
    : option (Z * string) * Server :=
  match batch_from_json body with
  | Err e => (Some (400, error_json e), s)
  | Ok (id, atomic, ops) =>
      let '(ops, authed, s) := authorize_ops (λ n, envs n O) s ident ops in
      if atomic then
        match first_denied ops with
        | Some (op, e) =>
            let msg := aborted ("unauthorized op " +:+ dec (req_id op) +:+ ": " +:+ auth_error_text e) in
            (Some (200, batch_json id ((λ od, response_to_json (req_id od.1) (Response_err (req_id od.1) msg)) <$> ops)), s)
        | None =>
            let '(b, _, s) := execute_atomic (λ n, envs n O) s authed (MkBatchRequest id (ops.*1)) in
            (Some (200, batch_json (bresp_id b) ((λ r, response_to_json (resp_id r) r) <$> bresp_results b)), s)
        end
      else
        let '(results, s) := run_ops envs s authed ops in
        ((λ rs, (200, batch_json id rs)) <$> results, s)
  end.
End bridge.

(** ** Values there and back *)

Class HttpTextLaws `{ValueText} `{HttpText} : Prop := {
  b64_back b : b64_decode (b64_encode b) = Some b;
  uuid_back u : length u = 16%nat → is_uuid_shaped (uuid_to_string u) = true ∧ uuid_parse_str (uuid_to_string u) = Some u
}.

(** [to_string] and [to_vec] print the same bytes. *)
Class JsonStringLaws `{JsonText} `{JsonBytes} : Prop :=
  json_string_is_vec j : str_bytes (json_to_string j) = json_to_vec j.

Section values_back.
Context `{JsonText} `{Chrono} `{HttpTextLaws} `{JsonBytes}.

(** A value as a client that sends back the text it was shown makes the server read it. *)
Definition sent_back (v : value) : option value :=
  j ← json_from_slice (str_bytes (json_to_string (value_to_json v))); ok (json_to_value j).

(** A date whose text is read back as that date. *)
Definition date_survives (d : Z) : bool :=
  match http_parse_ymd (ymd_format d) with
  | Ok (y, mo, day) => bool_decide (from_ymd_opt y mo day = Some d)
  | Err _ => false
  end.

(** The values a response carries so that sending their JSON back means the same. *)
Fixpoint http_survives (v : value) : bool :=
  match v with
  | VNull | VBoolean _ | VInt64 _ | VDecimal _ | VBytes _ | VUuid _ | VTimestamp _ => true
  | VFloat64 b => negb (f_exp F64 b =? 2 ^ ew F64 - 1)
  | VString s => negb (is_uuid_shaped s)
  | VDate d => date_survives d
  | VJson (JObject [(k, x)]) => negb (bool_decide (is_Some (tagged_value k x)))
  | VJson (JObject _) => true
  | VArray items => forallb http_survives items
  | _ => false
  end.

Lemma json_i64_back n : is_sint 64 n = true → json_to_value (json_of_i64 n) = Ok (VInt64 n).
Proof.
  intros [L U]%is_sint_spec. unfold json_of_i64, json_to_value, num_as_i64.
  change (2 ^ (64 - 1)) with (2 ^ 63) in *.
  destruct (Z.leb_spec 0 n); [|done]. by rewrite (proj2 (Z.ltb_lt _ _)).
Qed.

Lemma json_number_kind n v : json_to_value (JNumber n) = Ok v → ∃ z, v = VInt64 z ∨ v = VUInt64 z ∨ v = VFloat64 z.
Proof. unfold json_to_value. repeat case_match; intros E; simplify_eq/=; eauto. all: destruct (num_as_f64 n); simplify_eq/=; eauto. Qed.

Lemma json_i64_num n : ∃ m, json_of_i64 n = JNumber m.
Proof. unfold json_of_i64. eauto. Qed.

(** An array comes back when its elements do. *)
Lemma json_array_back l :
  Forall (λ v, value_okb v = true → json_to_value (value_to_json v) = Ok v ↔ http_survives v = true) l →
  forallb value_okb l = true →
  json_to_value (JArray (value_to_json <$> l)) = Ok (VArray l) ↔ forallb http_survives l = true.
Proof.
  intros IH W. cbn [json_to_value].
  set (go := fix go (l : list json) : result string (list value) := match l with [] => Ok [] | _ => _ end).
  assert (go (value_to_json <$> l) = Ok l ↔ forallb http_survives l = true) as <-.
  - induction IH as [|v l IHv _ IH]; [by split|]. cbn [forallb] in *. apply andb_true_iff in W as [Wv W].
    specialize (IHv Wv). specialize (IH W). cbn [fmap list_fmap]. cbn [go]. fold go.
    rewrite andb_true_iff, <- IHv, <- IH.
    destruct (json_to_value (value_to_json v)) as [v'|e]; cbn [mbind result_bind]; [|by split; [|intros [? _]]].
    change ((fix go (l : list json) : result string (list value) := match l with [] => Ok [] | item :: l0 => item' ← json_to_value item; out ← go l0; Ok (item' :: out) end) (value_to_json <$> l)) with (go (value_to_json <$> l)).
    destruct (go (value_to_json <$> l)) as [l'|e]; cbn [mbind result_bind]; [|by split; [|intros [_ ?]]].
    split; [by intros [= -> ->]|by intros [[= ->] [= ->]]].
  - destruct (go (value_to_json <$> l)); cbn; split; congruence.
Qed.

Lemma result_fmap_json {A} (f : A → value) (r : result string A) j : (∀ a, f a ≠ VJson j) → f <$> r ≠ Ok (VJson j).
Proof. intros N. destruct r as [a|e]; [|done]. intros [= E]. by apply (N a). Qed.

Lemma tagged_not_json k x j : tagged_value k x ≠ Some (Ok (VJson j)).
Proof.
  unfold tagged_value. destruct (tag_of_name k) as [t|]; [|done]. cbn.
  destruct t; cbn; try destruct (as_num _ x); try destruct (json_as_str x) as [s|]; cbn; try done;
    intros [= E]; revert E; try (by apply result_fmap_json).
  all: match goal with
       | |- context [http_parse_ymd ?s] => destruct (http_parse_ymd s) as [[[y mo] d]|e]
       | |- context [http_as_i64 ?x] => destruct (http_as_i64 x) as [n|e]
       end; cbn; first [by apply result_fmap_json|by intros [=]].
Qed.

(** At the level of JSON, before it is printed: what a value's JSON is read as. *)
Lemma json_values_back v :
  value_okb v = true → (json_to_value (value_to_json v) = Ok v ↔ http_survives v = true).
Proof.
  induction v as [l IH|v Hv] using value_nested_ind; intros W.
  - cbn [value_okb] in W. apply andb_true_iff in W as [_ W]. cbn [value_to_json http_survives].
    by apply json_array_back.
  - destruct v; cbn [value_to_json http_survives]; try (by destruct (Hv items)); try done.
    all: try (split; [intros (z & [[=]|[[=]|[=]]])%json_number_kind|done]; done).
    + rewrite json_i64_back by exact W. done.
    + unfold u64_to_json. case_match eqn:L.
      { apply Z.leb_le in L. cbn [json_to_value json_of_u64 num_as_i64].
        rewrite (proj2 (Z.ltb_lt _ _)) by lia. by split. }
      cbn [json_to_value]. case_match; [destruct (parse_uuid _)|]; by split.
    + unfold json_of_f32. case_match; by split.
    + unfold json_of_f64. case_match; by split.
    + cbn [json_to_value]. case_match; [destruct (parse_uuid _)|]; by split.
    + cbn. by rewrite b64_back.
    + cbn [json_to_value]. cbn in W. apply Nat.eqb_eq in W. destruct (uuid_back u W) as [Sh P].
      unfold parse_uuid. by rewrite Sh, P.
    + cbn in W. apply andb_true_iff in W as [I B]. apply bool_decide_eq_true in B.
      cbn. unfold http_as_i64, as_i64_lenient, json_of_i64.
      pose proof (json_i64_back _ I) as J. unfold json_of_i64 in J. cbn in J.
      destruct (num_as_i64 _) as [m|]; [|by destruct (if 0 <=? _ then _ else _)].
      cbn. injection J as ->. cbn. by rewrite B.
    + cbn. unfold date_survives. destruct (http_parse_ymd (ymd_format d)) as [[[y mo] day]|e]; cbn; [|by split].
      destruct (from_ymd_opt y mo day) as [d'|]; cbn; [|by rewrite bool_decide_false; [split|]].
      case_bool_decide as E; split; try done; [by injection E as ->|]. intros [= ->]. by destruct E.
    + destruct j as [| |n|s|items|[|[k x] [|kv m]]]; cbn [json_to_value]; try by split.
      * split; [intros (z & [[=]|[[=]|[=]]])%json_number_kind|done].
      * case_match; [destruct (parse_uuid _)|]; by split.
      * split; [|done]. intros E. destruct ((fix go (l : list json) : result string (list value) :=
          match l with [] => Ok [] | item :: l => item ← json_to_value item; out ← go l; Ok (item :: out) end) items);
          discriminate E.
      * destruct (tagged_value k x) as [r|] eqn:T; cbn; [|by split].
        split; [|done]. intros ->. by destruct (tagged_not_json _ _ _ T).
Qed.

Lemma finite_float_json b : f_exp F64 b =? 2 ^ ew F64 - 1 = false → json_of_f64 b = JNumber (JFloat b).
Proof. unfold json_of_f64. by intros ->. Qed.

End values_back.

(** ** A batch over HTTP is a batch over TCP *)

Section same_batch.
Context `{JsonText} `{ValueText} `{JsonBytes} `{DisplayText} `{DebugText} `{Chrono} `{MapOrder} `{RowOrder}
  `{TableHash} `{KeyOrder} `{DeploySerde} `{PushChannel} `{HttpText}.
Implicit Types s : Server.

(** Serving changes neither the configuration nor the policies. *)
Definition same_rules s s' : Prop := sv_config s' = sv_config s ∧ sv_policies s' = sv_policies s.

Lemma same_rules_refl s : same_rules s s.
Proof. done. Qed.
Lemma same_rules_trans s1 s2 s3 : same_rules s1 s2 → same_rules s2 s3 → same_rules s1 s3.
Proof. intros [E1 E2] [E3 E4]. split; congruence. Qed.

Lemma authorize_rules s s' authed op t : same_rules s s' → authorize s' authed op t = authorize s authed op t.
Proof. intros [Ec Ep]. unfold authorize. by rewrite Ec, Ep. Qed.

Lemma wal_log_rules s entry t id data : same_rules s (wal_log s entry t id data).2.
Proof. unfold wal_log. repeat case_match; done. Qed.
Lemma post_effects_rules s physical local vs : same_rules s (post_effects s physical local vs).
Proof. unfold post_effects, fanout_enqueue. repeat case_match; done. Qed.

Lemma insert_row_rules env s req idem vs : same_rules s (insert_row env s req idem vs).2.
Proof.
  unfold insert_row. destruct (route_insert _ _ _) as [physical shard]. destruct (if skip_validation _ then _ else _) as [[local|er] e]; [|done].
  pose proof (wal_log_rules (with_engine s e) EInsert physical (compose_id shard local) (values_to_json_bytes vs)) as W.
  destruct (wal_log (with_engine s e) _ _ _ _) as [[[]|w] s1]; cbn [snd] in *; [|done].
  destruct idem; case_match; cbn [snd]; try (eapply same_rules_trans; [|apply post_effects_rules]); done.
Qed.

Lemma emit_effects_rules env s base physical entry local global vs :
  same_rules s (emit_write_effects env s base physical entry local global vs).
Proof.
  unfold emit_write_effects.
  match goal with |- context [wal_log ?s ?e ?p ?g ?d] => pose proof (wal_log_rules s e p g d) as W; destruct (wal_log s e p g d) as [r s1] end.
  cbn [snd] in W. repeat case_match; try (eapply same_rules_trans; [|apply post_effects_rules]); done.
Qed.

Lemma emit_applied_rules ws : ∀ envs s, same_rules s (emit_applied envs s ws).2.
Proof.
  induction ws as [|[w [n local]] ws IH]; intros envs s; cbn [emit_applied]; [done|].
  specialize (IH (λ n, envs (S n)) (emit_write_effects (envs O) s (pw_base w) (pw_physical w) (pw_kind w)
    local (compose_id (pw_shard w) local) (pw_values w))).
  destruct (emit_applied _ _ ws) as [rest s']. cbn [snd] in *.
  eapply same_rules_trans; [apply emit_effects_rules|exact IH].
Qed.

Lemma execute_procedure_rules envs s authed req : same_rules s (execute_procedure envs s authed req).2.
Proof.
  unfold execute_procedure. destruct (fn_name _) as [name|]; [|done]. destruct (get_procedure s name) as [proc|]; [|done].
  destruct (begin (sv_mgr s) RepeatableRead) as [tx m]. destruct (run_procedure _ _ _ _) as [[[v fs]|e] b]; [|done].
  destruct (commit _ _) as [[r tx'] m']. destruct r as [touched|e]; [|done].
  pose proof (emit_applied_rules (zip (pb_writes b) touched) envs (with_mgr (with_mgr s m) m')) as R.
  destruct (emit_applied _ _ _) as [applied s']. exact R.
Qed.

Lemma dispatch_rules envs s authed req : same_rules s (dispatch envs s authed req).2.
Proof.
  unfold dispatch. destruct (req_op req); try done; cbn [snd].
  - unfold dispatch_insert. destruct (req_values req) as [vs|]; [|done]. case_match; [done|].
    destruct (take_idem vs) as [idem vs']. case_match; [done|]. case_match; [|done]. apply insert_row_rules.
  - unfold dispatch_update. destruct (req_row_id req) as [g|]; [|done]. destruct (route_id _ _ _) as [physical local].
    destruct (req_values req) as [vs|]; [|done]. destruct (owner_precheck _ _ _ _ _ _); [done|].
    destruct (update _ _ _ _) as [[row|er] e]; [|done].
    match goal with |- context [wal_log ?s ?e ?p ?g ?d] => pose proof (wal_log_rules s e p g d) as W; destruct (wal_log s e p g d) as [[r|w] s1] end; exact W.
  - unfold dispatch_delete. destruct (req_row_id req) as [g|]; [|done]. destruct (route_id _ _ _) as [physical local].
    destruct (owner_precheck _ _ _ _ _ _); [done|]. destruct (delete_row _ _ _) as [[[]|er] e]; [|done..].
    match goal with |- context [wal_log ?s ?e ?p ?g ?d] => pose proof (wal_log_rules s e p g d) as W; destruct (wal_log s e p g d) as [[r|w] s1] end; exact W.
  - apply execute_procedure_rules.
  - unfold dispatch_job_submit. repeat case_match; done.
  - unfold dispatch_proc_deploy, deploy_procedure. repeat case_match; simplify_eq/=; done.
  - unfold dispatch_proc_drop, drop_procedure. destruct (fn_name _); done.
  - unfold dispatch_table_create. repeat case_match; done.
Qed.

(** An operation without a token leaves the identity alone. *)
Definition tokenless (req : Request) : Prop := req_values req ≫= (.!! "_auth"%string) = None.

Lemma handshake_tokenless env s authed req : tokenless req → handshake env s authed req = (authed, s, req).
Proof.
  destruct req as [id op table row [vs|]]; [|done]. unfold tokenless, handshake, take_auth_token. cbn. intros E. by rewrite E, (delete_id _ _ E).
Qed.

Definition denial s (authed : option Identity) (op : Request) : option auth_error :=
  match authorize s authed (req_op op) (req_table op) with Err e => Some e | Ok _ => None end.

Lemma authorize_ops_tokenless ops : ∀ envs s authed, Forall tokenless ops →
  authorize_ops envs s authed ops = ((λ op, (op, denial s authed op)) <$> ops, authed, s).
Proof.
  induction ops as [|op ops IH]; intros envs s authed F; [done|]. apply Forall_cons in F as [P F].
  cbn [authorize_ops]. rewrite handshake_tokenless by done. by rewrite IH.
Qed.

Definition rendered (ops : list Request) (rs : list Response) : list json :=
  zip_with (λ op r, response_to_json (req_id op) r) ops rs.

Lemma run_ops_batch ops : ∀ envs s0 s authed, Forall tokenless ops → same_rules s0 s →
  run_ops envs s authed ((λ op, (op, denial s0 authed op)) <$> ops) =
    let '(rs, _, s') := serve_batch envs s authed ops in (rendered ops <$> rs, s').
Proof.
  induction ops as [|op ops IH]; intros envs s0 s authed F R; [done|]. apply Forall_cons in F as [P F].
  cbn [fmap list_fmap run_ops serve_batch]. unfold serve_op. rewrite handshake_tokenless by done.
  unfold denial at 1. rewrite <- (authorize_rules s0 s) by done.
  destruct (authorize s authed (req_op op) (req_table op)) as [[]|e].
  - pose proof (dispatch_rules (envs O) s authed op) as D. destruct (dispatch _ s authed op) as [[resp|] s1]; [|done].
    cbn [snd] in D. rewrite (IH _ s0 s1) by eauto using same_rules_trans.
    destruct (serve_batch _ s1 authed ops) as [[[rs|] a] s2]; done.
  - rewrite (IH _ s0 s) by done. destruct (serve_batch _ s authed ops) as [[[rs|] a] s2]; done.
Qed.

(** Phase 0 of an atomic batch stops at the first operation that is not authorized. *)
Lemma atomic_auth_tokenless ops : ∀ envs s authed,
  Forall tokenless ops → Forall (λ op, atomic_op (req_op op) = true) ops →
  atomic_auth envs s authed ops =
    (match first_denied ((λ op, (op, denial s authed op)) <$> ops) with
     | Some (op, e) => Err (aborted ("unauthorized op " +:+ dec (req_id op) +:+ ": " +:+ auth_error_text e))
     | None => Ok ops
     end, authed, s).
Proof.
  induction ops as [|op ops IH]; intros envs s authed F A; [done|].
  apply Forall_cons in F as [P F]. apply Forall_cons in A as [Ao A].
  cbn [atomic_auth fmap list_fmap]. rewrite handshake_tokenless by done.
  unfold first_denied. cbn [omap list_omap fst snd]. unfold denial at 1.
  destruct (authorize s authed (req_op op) (req_table op)) as [[]|e]; [|done].
  cbn [mbind option_bind]. rewrite Ao. cbn [negb]. rewrite IH by done. unfold first_denied.
  by destruct (head _) as [[op' e]|].
Qed.

(** A batch sent over HTTP does exactly what the same batch does over TCP: when no
    operation carries a token, the plain batch leaves the same state and answers the
    same responses, rendered as JSON, although every operation is authorized before the
    first one runs; and an atomic batch, of operations atomic batches take, is
    [execute_atomic], refusals included. *)
Theorem http_batch_is_tcp_batch envs s ident body id atomic ops :
  batch_from_json body = Ok (id, atomic, ops) → Forall tokenless ops →
  (atomic = true → Forall (λ op, atomic_op (req_op op) = true) ops) →
  handle_batch envs s ident body =
    if atomic : bool then
      let '(b, _, s') := execute_atomic (λ n, envs n O) s ident (MkBatchRequest id ops) in
      (Some (200, batch_json (bresp_id b) ((λ r, response_to_json (resp_id r) r) <$> bresp_results b)), s')
    else
      let '(rs, _, s') := serve_batch envs s ident ops in
      ((λ rs, (200, batch_json id (rendered ops rs))) <$> rs, s').
Proof.
  intros E T A. unfold handle_batch. rewrite E, authorize_ops_tokenless by done. destruct atomic.
  - specialize (A eq_refl). unfold execute_atomic at 2. cbn [breq_ops breq_id].
    rewrite atomic_auth_tokenless by done. destruct (first_denied _) as [[op e]|] eqn:D.
    + cbn [bresp_id bresp_results]. do 3 f_equal. rewrite <- !list_fmap_compose. done.
    + assert (((λ op, (op, denial s ident op)) <$> ops).*1 = ops) as Eo
        by (rewrite <- list_fmap_compose; apply list_fmap_id).
      unfold execute_atomic. cbn [breq_ops breq_id]. rewrite Eo, atomic_auth_tokenless by done. by rewrite D.
  - rewrite (run_ops_batch ops envs s s) by done. destruct (serve_batch envs s ident ops) as [[[rs|] a] s']; done.
Qed.
End same_batch.

(** ** A concrete bridge *)

Definition hex_digit (n : Z) : byte := if n <? 10 then Z_byte (48 + n) else Z_byte (87 + n).
Definition hex_val (b : byte) : Z := let z := byte_Z b in if z <? 58 then z - 48 else z - 87.
Fixpoint hex (l : list byte) : list byte :=
  match l with
  | [] => []
  | b :: l => hex_digit (byte_Z b / 16) :: hex_digit (byte_Z b mod 16) :: hex l
  end.
Fixpoint unhex (l : list byte) : list byte :=
  match l with
  | a :: b :: l => Z_byte (16 * hex_val a + hex_val b) :: unhex l
  | _ => []
  end.

Definition demo_uuid_text (u : list byte) : string :=
  let part i n := hex (firstn n (skipn i u)) in
  String.string_of_list_byte (part 0 4 ++ "-"%byte :: part 4 2 ++ "-"%byte :: part 6 2 ++ "-"%byte :: part 8 2
    ++ "-"%byte :: part 10 6)%nat.
Definition demo_uuid_parse (s : string) : option (list byte) :=
  let part i n := firstn n (skipn i (str_bytes s)) in
  Some (unhex (part 0 8 ++ part 9 4 ++ part 14 4 ++ part 19 4 ++ part 24 12))%nat.

(** Dates of one year, to have some. *)
Definition demo_ymd (d : Z) : string := "2024-01-" +:+ dec (d - 738885).

#[local] Instance http_value_text : ValueText := {|
  uuid_to_string := demo_uuid_text; to_rfc3339 := λ _, "t"%string; date_to_string := demo_ymd
|}.
#[local] Instance demo_http_text : HttpText := {|
  parse_error := λ _, "expected value"%string;
  uuid_parse_str := demo_uuid_parse;
  from_ymd_opt := λ y m d, if bool_decide (y = 2024 ∧ m = 1 ∧ 1 <= d <= 31) then Some (738885 + d) else None;
  ymd_format := demo_ymd;
  b64_encode := String.string_of_list_byte;
  b64_decode := λ s, Some (str_bytes s)
|}.

Lemma hex_back b : Z_byte (16 * hex_val (hex_digit (byte_Z b / 16)) + hex_val (hex_digit (byte_Z b mod 16))) = b.
Proof. by destruct b. Qed.
Lemma hex_shape b :
  is_ascii_hexdigit (hex_digit (byte_Z b / 16)) = true ∧ is_ascii_hexdigit (hex_digit (byte_Z b mod 16)) = true.
Proof. by destruct b. Qed.

Lemma demo_http_laws : HttpTextLaws.
Proof.
  split.
  - intros b. cbn [b64_decode b64_encode demo_http_text]. by rewrite str_bytes_of.
  - intros u L. do 17 (destruct u as [|? u]; [try done|]); [|done]. clear L. split.
    + cbn [uuid_to_string http_value_text]. unfold is_uuid_shaped, demo_uuid_text. rewrite str_bytes_of.
      cbn [firstn skipn hex app length]. cbn [lookup list_lookup forallb].
      rewrite !(proj1 (hex_shape _)), !(proj2 (hex_shape _)). reflexivity.
    + cbn [uuid_parse_str demo_http_text uuid_to_string http_value_text]. unfold demo_uuid_parse, demo_uuid_text.
      rewrite str_bytes_of. cbn [firstn skipn hex app unhex]. by rewrite !hex_back.
Qed.

(** Text that is the bytes [demo_json_bytes] prints. *)
#[local] Instance http_json_text : JsonText := λ j, String.string_of_list_byte (@json_to_vec demo_json_bytes j).
Lemma http_json_laws : @JsonStringLaws http_json_text demo_json_bytes.
Proof. intros j. apply str_bytes_of. Qed.

#[local] Existing Instances demo_json_bytes demo_json_bytes_laws http_json_laws demo_display demo_debug demo_chrono
  demo_order demo_row_order demo_hash demo_key_order demo_serde demo_channel demo_http_laws.

Lemma demo_body j : json_from_slice (json_to_vec j) = Some j.
Proof. cbn. by rewrite bytes_pos_bytes, decode_encode. Qed.


(** The body of a request. *)
Definition jobj (l : list (string * json)) : json := JObject (obj_of_list l).
Definition demo_op (op table : string) (rest : list (string * json)) : json :=
  jobj ([("op"%string, JString op); ("table"%string, JString table)] ++ rest).

Definition demo_http_batch : json :=
  jobj [("id"%string, json_of_u64 3);
        ("ops"%string, JArray [demo_op "get" "docs" [("id"%string, json_of_u64 1); ("row_id"%string, JString "1")];
                              demo_op "delete" "docs" [("id"%string, json_of_u64 2); ("row_id"%string, json_of_u64 2)]])].

Lemma http_batch_is_tcp_batch_witness :
  let ops := [MkRequest 1 OGet "docs" (Some 1) None; MkRequest 2 ODelete "docs" (Some 2) None] in
  (handle_batch (λ _ _, demo_env) (serving true false) (Some alice) (json_to_vec demo_http_batch)).1 =
    Some (200, batch_json 3 (rendered ops [Response_ok 1 [MkRowView 1 (doc "alice")];
                                           Response_err 2 "forbidden: policy denies"])).
Proof.
  cbv zeta. rewrite (http_batch_is_tcp_batch (λ _ _, demo_env) (serving true false) (Some alice) (json_to_vec demo_http_batch)
    3 false [MkRequest 1 OGet "docs" (Some 1) None; MkRequest 2 ODelete "docs" (Some 2) None]).
  - assert ((serve_batch (λ _ _, demo_env) (serving true false) (Some alice)
      [MkRequest 1 OGet "docs" (Some 1) None; MkRequest 2 ODelete "docs" (Some 2) None]).1.1 =
      Some [Response_ok 1 [MkRowView 1 (doc "alice")]; Response_err 2 "forbidden: policy denies"]) as E
      by (vm_compute; reflexivity).
    destruct (serve_batch _ _ _ _) as [[rs a] s']. cbn [fst] in E. rewrite E. reflexivity.
  - unfold batch_from_json, parse_body. rewrite demo_body. vm_compute. reflexivity.
  - repeat constructor.
  - done.
Defined.

(** A token in the values of a single operation is stored as a column of the row. *)
Example http_op_stores_token :
  let body := demo_op "insert" "docs" [("values"%string, jobj [("_auth"%string, JString "secret"); ("owner"%string, JString "alice")])] in
  let s' := (handle_op (λ _, demo_env) (serving true false) (Some alice) (json_to_vec body)).2 in
  (row_values <$> row_at (sv_engine s') ("docs"%string, 3)) ≫= (.!! "_auth"%string) = Some (VString "secret").
Proof. cbv zeta. unfold handle_op, parse_body. rewrite demo_body. vm_compute. reflexivity. Qed.

(** Over HTTP the operations of a batch all run under the last token's identity: alice's
    update of her own row is refused because bob's token follows; over TCP it is applied. *)
Definition two_tokens : Server :=
  register_identity (register_identity (serving true false) "ta" alice) "tb"
    (with_permission (with_permission (Identity_new [] "bob") PRead) PWrite).
Example http_batch_last_identity :
  let body := jobj [("ops"%string, JArray
    [demo_op "update" "docs" [("row_id"%string, json_of_u64 1);
       ("values"%string, jobj [("_auth"%string, JString "ta"); ("body"%string, JString "hi")])];
     demo_op "ping" "" [("values"%string, jobj [("_auth"%string, JString "tb")])]])] in
  let ops := [MkRequest 0 OUpdate "docs" (Some 1) (Some (<["_auth"%string := VString "ta"]> {["body"%string := VString "hi"]}));
              MkRequest 0 Ping "" None (Some {["_auth"%string := VString "tb"]})] in
  let tcp := (serve_batch (λ _ _, demo_env) two_tokens None ops).2 in
  let http := (handle_batch (λ _ _, demo_env) two_tokens None (json_to_vec body)).2 in
  (row_values <$> row_at (sv_engine tcp) ("docs"%string, 1)) ≫= (.!! "body"%string) = Some (VString "hi") ∧
  (row_values <$> row_at (sv_engine http) ("docs"%string, 1)) ≫= (.!! "body"%string) = None.
Proof.
  cbv zeta. split; [vm_compute; reflexivity|]. unfold handle_batch, batch_from_json, parse_body. rewrite demo_body.
  vm_compute. reflexivity.
Qed.
