(* ===== verification/Http.v ===== *)
(** The HTTP side of [blitz-server/src/transport.rs]: the head of a request, the query
    string, the routes, and a connection's keep-alive loop against the chunks its socket
    delivers. Sockets are lists of chunks; the text of the metrics page is a parameter. *)
From S2P Require Import Prelude Float Value HashMap Schema Core Policy Codec Snapshot Wal GroupCommit Durability Tx Shard Query Text Window Changes Jobs Runtime Deploy Server Dispatch Serving Bridge.

Local Open Scope Z_scope.

(** ** Text, as the standard library reads it *)

(** [String::from_utf8_lossy]: each maximal prefix of an ill-formed character becomes
    U+FFFD. [cur] is the character being read, reversed. *)
Definition replacement : list byte := [Z_byte 239; Z_byte 191; Z_byte 189].
Fixpoint lossy_from (expect : nat) (lo hi : Z) (cur : list byte) (l : list byte) : list byte :=
  match l with
  | [] => match expect with O => [] | S _ => replacement end
  | b :: l =>
      let start cur_bad :=
        cur_bad ++ match utf8_lead (byte_Z b) with
                   | Some (O, _, _) => b :: lossy_from 0 0 0 [] l
                   | Some (S n, lo, hi) => lossy_from (S n) lo hi [b] l
                   | None => replacement ++ lossy_from 0 0 0 [] l
                   end in
      match expect with
      | O => start []
      | S n =>
          if (lo <=? byte_Z b) && (byte_Z b <=? hi) then
            match n with
            | O => rev (b :: cur) ++ lossy_from 0 0 0 [] l
            | S _ => lossy_from n 0x80 0xBF (b :: cur) l
            end
          else start replacement
      end
  end.
Definition from_utf8_lossy (l : list byte) : list byte := lossy_from 0 0 0 [] l.

(** [char::is_whitespace] at the head of UTF-8 text: how many bytes it takes, or none. *)
Definition whitespace (l : list byte) : nat :=
  match byte_Z <$> firstn 3 l with
  | z :: rest =>
      if (z =? 32) || (9 <=? z) && (z <=? 13) then 1%nat
      else match z, rest with
           | 0xC2, y :: _ => if (y =? 0x85) || (y =? 0xA0) then 2%nat else 0%nat
           | 0xE1, y :: x :: _ => if (y =? 0x9A) && (x =? 0x80) then 3%nat else 0%nat
           | 0xE2, y :: x :: _ =>
               if (y =? 0x80) && ((0x80 <=? x) && (x <=? 0x8A) || (x =? 0xA8) || (x =? 0xA9) || (x =? 0xAF))
                  || (y =? 0x81) && (x =? 0x9F) then 3%nat else 0%nat
           | 0xE3, y :: x :: _ => if (y =? 0x80) && (x =? 0x80) then 3%nat else 0%nat
           | _, _ => 0%nat
           end
  | [] => 0%nat
  end.

(** [split_whitespace]; [skip] counts the bytes of a whitespace character still to drop. *)
Fixpoint split_whitespace (skip : nat) (cur : list byte) (l : list byte) : list (list byte) :=
  let flush := match cur with [] => [] | _ => [cur] end in
  match l with
  | [] => flush
  | b :: l' =>
      match skip with
      | S skip => split_whitespace skip cur l'
      | O => match whitespace l with
             | O => split_whitespace 0 (cur ++ [b]) l'
             | S n => flush ++ split_whitespace n [] l'
             end
      end
  end.

(** [str::trim]: [trim_start], then up to where only whitespace is left. *)
Fixpoint trim_start (skip : nat) (l : list byte) : list byte :=
  match l with
  | [] => []
  | _ :: l' =>
      match skip with
      | S skip => trim_start skip l'
      | O => match whitespace l with O => l | S n => trim_start n l' end
      end
  end.
Fixpoint trim_end (l : list byte) : list byte :=
  match l with
  | [] => []
  | b :: l' => if bool_decide (trim_start 0 l = []) then [] else b :: trim_end l'
  end.
Definition trim (l : list byte) : list byte := trim_end (trim_start 0 l).

(** [str::lines]: a final empty line is none, and a line loses one carriage return. *)
Definition strip_cr (l : list byte) : list byte :=
  match last l with Some b => if bool_decide (b = Z_byte 13) then removelast l else l | None => l end.
Definition lines (l : list byte) : list (list byte) :=
  let ls := split_byte (Z_byte 10) l in
  match last ls with
  | Some [] => strip_cr <$> removelast ls
  | Some x => (strip_cr <$> removelast ls) ++ [x]
  | None => []
  end.

(** [trim_end_matches('\r')] *)
Fixpoint drop_cr (l : list byte) : list byte :=
  match l with
  | [] => []
  | b :: l' => match drop_cr l' with [] => if bool_decide (b = Z_byte 13) then [] else [b] | l'' => b :: l'' end
  end.

Fixpoint split_once (c : byte) (l : list byte) : option (list byte * list byte) :=
  match l with
  | [] => None
  | b :: l => if bool_decide (b = c) then Some ([], l) else '(k, v) ← split_once c l; Some (b :: k, v)
  end.

(** ** The head of a request *)

Fixpoint find_headers_end (buf : list byte) : option nat :=
  match buf with
  | [] => None
  | _ :: rest =>
      if bool_decide (firstn 4 buf = Z_byte <$> [13; 10; 13; 10]) then Some 4%nat else S <$> find_headers_end rest
  end.

Record Head : Type := MkHead { h_method : string; h_target : string; h_version : string; h_headers : list (string * string) }.

Definition header_line (line : list byte) : option (string * string) :=
  '(k, v) ← split_once ":"%byte (drop_cr line);
  Some (bytes_str (ascii_lower <$> trim k), bytes_str (trim v)).
Definition parse_head (text : list byte) : Head :=
  let ls := lines text in
  let request_line := match ls with l :: _ => l | [] => ["/"%byte] end in
  let parts := split_whitespace 0 [] request_line in
  let part i (d : string) := match parts !! i with Some p => bytes_str p | None => d end in
  MkHead (part 0%nat EmptyString) (part 1%nat "/"%string) (part 2%nat "HTTP/1.0"%string) (omap header_line (tail ls)).

Definition header (h : Head) (name : string) : option string := snd <$> head (filter (λ kv, kv.1 = name) (h_headers h)).

Definition HEAD_CAP : Z := 16384.

(** [read_head] against the chunks the socket delivers; no chunk is the end of the
    stream or an error. *)
Fixpoint read_head (buf : list byte) (reads : list (list byte)) : option (Head * nat * list byte * list (list byte)) :=
  match find_headers_end buf with
  | Some pos => Some (parse_head (from_utf8_lossy (firstn pos buf)), pos, buf, reads)
  | None =>
      if HEAD_CAP <? Z.of_nat (length buf) then None
      else match reads with [] => None | chunk :: reads => read_head (buf ++ chunk) reads end
  end.

(** ** Query strings *)

Definition hex_nibble (c : byte) : option Z :=
  let z := byte_Z c in
  if (48 <=? z) && (z <=? 57) then Some (z - 48)
  else if (97 <=? z) && (z <=? 102) then Some (z - 87)
  else if (65 <=? z) && (z <=? 70) then Some (z - 55)
  else None.

(** The loop of [percent_decode]; [skip] counts the digits of an escape just read. *)
Fixpoint percent_bytes (skip : nat) (l : list byte) : list byte :=
  match l with
  | [] => []
  | b :: l =>
      match skip with
      | S skip => percent_bytes skip l
      | O =>
          if bool_decide (b = "+"%byte) then Z_byte 32 :: percent_bytes 0 l
          else if bool_decide (b = "%"%byte) then
            match l with
            | c1 :: c2 :: _ =>
                match hex_nibble c1, hex_nibble c2 with
                | Some h, Some lo => Z_byte (Z.lor (wrap 8 (Z.shiftl h 4)) lo) :: percent_bytes 2 l
                | _, _ => b :: percent_bytes 0 l
                end
            | _ => b :: percent_bytes 0 l
            end
          else b :: percent_bytes 0 l
      end
  end.
Definition percent_decode (s : list byte) : string := bytes_str (from_utf8_lossy (percent_bytes 0 s)).

Definition split_target (target : string) : string * list byte :=
  match split_once "?"%byte (str_bytes target) with
  | Some (path, query) => (bytes_str path, query)
  | None => (target, [])
  end.
Definition query_pair (kv : list byte) : list byte * list byte :=
  match split_once "="%byte kv with Some p => p | None => (kv, []) end.
Definition query_param (query : list byte) (name : string) : option string :=
  (λ kv, percent_decode kv.2) <$> head (filter (λ kv, kv.1 = str_bytes name) (query_pair <$> split_byte "&"%byte query)).

(** ** Answers *)

Definition reason (code : Z) : string :=
  match code with
  | 200 => "OK" | 204 => "No Content" | 400 => "Bad Request" | 401 => "Unauthorized" | 403 => "Forbidden"
  | 404 => "Not Found" | 405 => "Method Not Allowed" | 413 => "Too Large" | 503 => "Service Unavailable"
  | _ => "OK"
  end.

Definition crlf : string := bytes_str [Z_byte 13; Z_byte 10].
Definition lf : string := bytes_str [Z_byte 10].
Definition cors_header (cors : option string) : string :=
  match cors with Some o => "access-control-allow-origin: " +:+ o +:+ crlf | None => EmptyString end.

Definition respond (code : Z) (ctype body conn : string) (cors : option string) : string :=
  "HTTP/1.1 " +:+ dec code +:+ " " +:+ reason code +:+ crlf
    +:+ "content-type: " +:+ ctype +:+ crlf
    +:+ "content-length: " +:+ dec (Z.of_nat (blen body)) +:+ crlf
    +:+ "connection: " +:+ conn +:+ crlf
    +:+ cors_header cors +:+ crlf +:+ body.

(** ** One connection *)

Section http.
Context `{JsonText} `{ValueText} `{JsonBytes} `{DisplayText} `{DebugText} `{Chrono} `{MapOrder} `{RowOrder}
  `{TableHash} `{KeyOrder} `{DeploySerde} `{PushChannel} `{HttpText}.
Implicit Types s : Server.
Variable metrics_text : Server → string.

Definition cors_origin s (origin : option string) : option string :=
  let origins := http_cors_origins (sv_config s) in
  if bool_decide (origins = []) then None
  else
    o ← origin;
    if bool_decide ("*"%string ∈ origins) then Some "*"%string
    else if bool_decide (o ∈ origins) then Some o else None.

Definition content_length (h : Head) : Z := default 0 (header h "content-length" ≫= λ v, parse_u64 (str_bytes v)).

(** HTTP/1.1 stays open by default, older versions on request. *)
Definition keep_alive (h : Head) : bool :=
  let conn := bytes_str (ascii_lower <$> str_bytes (default EmptyString (header h "connection"))) in
  if String.eqb (h_version h) "HTTP/1.1" then negb (String.eqb conn "close") else String.eqb conn "keep-alive".

Definition bearer (h : Head) : option string :=
  v ← header h "authorization";
  let v := bytes_str (trim (str_bytes v)) in
  t ← match str_strip_prefix v "Bearer " with Some t => Some t | None => str_strip_prefix v "bearer " end;
  Some (bytes_str (trim (str_bytes t))).

Definition preflight (h : Head) (cors : option string) (conn : string) : string :=
  let extra := match cors with
               | Some o => "access-control-allow-origin: " +:+ o +:+ crlf
                             +:+ "access-control-allow-methods: GET, POST, OPTIONS" +:+ crlf
                             +:+ "access-control-allow-headers: authorization, content-type" +:+ crlf
                             +:+ "access-control-max-age: 86400" +:+ crlf
               | None => EmptyString
               end in
  h_version h +:+ " 204 " +:+ reason 204 +:+ crlf +:+ extra +:+ "content-length: 0" +:+ crlf
    +:+ "connection: " +:+ conn +:+ crlf +:+ crlf.

(** What follows an answer: the next request, the end, an event stream, a panic. *)
Inductive http_next : Type :=
| Continue
| CloseHttp
| EventStream (table : string) (since cors : option string)
| HttpPanicked.

(** The event stream's checks. *)
Definition stream_route s (authed : option Identity) (query : list byte) (cors : option string) : string * http_next :=
  let table := default EmptyString (query_param query "table") in
  let refuse code text := (respond code "text/plain" (text +:+ lf) "close" cors, CloseHttp) in
  if String.eqb table EmptyString then refuse 400 "missing ?table="%string
  else match authorize s authed OSubscribe table with
       | Err e => refuse (if starts_with (auth_error_text e) "unauthorized" then 401 else 403) (auth_error_text e)
       | Ok _ =>
           if require_auth (sv_config s) && bool_decide (is_Some (owner_column s table))
           then refuse 403 "push streams disabled on row-owner tables (poll instead)"%string
           else (EmptyString, EventStream table (query_param query "since") cors)
       end.

(** The other routes: status, content type and body. *)
Definition route (envs : nat → nat → Env) s (authed : option Identity) (method path : string) (body : list byte)
    : option (Z * string * string) * Server :=
  let json (r : option (Z * string) * Server) := ((λ cb, (cb.1, "application/json"%string, cb.2)) <$> r.1, r.2) in
  if String.eqb method "GET" && String.eqb path "/metrics"
  then (Some (200, "text/plain; version=0.0.4"%string, metrics_text s), s)
  else if String.eqb method "GET" && String.eqb path "/readyz" then
    (Some (match sv_started_at s with
           | Some _ => (200, "text/plain"%string, "ok" +:+ lf)
           | None => (503, "text/plain"%string, "starting" +:+ lf)
           end), s)
  else if String.eqb method "POST" && String.eqb path "/v1/op" then json (handle_op (envs O) s authed body)
  else if String.eqb method "POST" && String.eqb path "/v1/batch" then json (handle_batch envs s authed body)
  else if negb (String.eqb method "GET") && (String.eqb path "/v1/op" || String.eqb path "/v1/batch")
  then (Some (405, "text/plain"%string, "method not allowed (use POST)" +:+ lf), s)
  else (Some (404, "text/plain"%string, "not found" +:+ lf), s).

(** The identity of a request: its bearer token, or [?token=]. *)
Definition request_token (h : Head) (query : list byte) : option string :=
  match bearer h with Some t => Some t | None => query_param query "token" end.

Definition http_answer (envs : nat → nat → Env) s (h : Head) (body : list byte) : string * http_next * Server :=
  let conn : string := if keep_alive h then "keep-alive" else "close" in
  let next := if keep_alive h then Continue else CloseHttp in
  let cors := cors_origin s (header h "origin") in
  if String.eqb (h_method h) "OPTIONS" then (preflight h cors conn, next, s)
  else
    let '(path, query) := split_target (h_target h) in
    let '(authed, s) := match request_token h query with
                        | Some t => resolve_token s (env_utc (envs O O)) t
                        | None => (None, s)
                        end in
    if String.eqb (h_method h) "GET" && String.eqb path "/v1/stream"
    then let '(out, next) := stream_route s authed query cors in (out, next, s)
    else match route envs s authed (h_method h) path body with
         | (None, s) => (EmptyString, HttpPanicked, s)
         | (Some (code, ctype, text), s) => (respond code ctype text conn cors, next, s)
         end.

(** Reading the rest of the body. *)
Inductive body_read : Type := BodyDone (body : list byte) (reads : list (list byte)) | BodyEnded | BodyTooLarge.
Fixpoint read_body (need max_body : Z) (body : list byte) (reads : list (list byte)) : body_read :=
  if need <=? Z.of_nat (length body) then BodyDone body reads
  else match reads with
       | [] => BodyEnded
       | chunk :: reads =>
           if max_body <? Z.of_nat (length (body ++ chunk)) then BodyTooLarge
           else read_body need max_body (body ++ chunk) reads
       end.

Inductive turn_end : Type :=
| NextRequest (buf : list byte) (reads : list (list byte))
| Stopped (next : http_next).

(** One turn of the keep-alive loop. *)
Definition http_turn (envs : nat → nat → Env) s (buf : list byte) (reads : list (list byte)) : string * turn_end * Server :=
  let too_large := (respond 413 "text/plain" ("too large" +:+ lf) "close" None, Stopped CloseHttp, s) in
  match read_head buf reads with
  | None => (EmptyString, Stopped CloseHttp, s)
  | Some (h, pos, buf, reads) =>
      let max_body := Z.max (max_message_size (sv_config s)) 1024 in
      if max_body <? content_length h then too_large
      else match read_body (content_length h) max_body (skipn pos buf) reads with
           | BodyEnded => (EmptyString, Stopped CloseHttp, s)
           | BodyTooLarge => too_large
           | BodyDone body reads =>
               let '(out, next, s) := http_answer envs s h (firstn (Z.to_nat (content_length h)) body) in
               (out, match next with Continue => NextRequest [] reads | _ => Stopped next end, s)
           end
  end.

(** [http_connection]: at most 10000 requests, whose answers are written in order. *)
Definition MAX_REQUESTS : nat := 10000.
Fixpoint http_loop (n : nat) (envs : nat → nat → nat → Env) s (buf : list byte) (reads : list (list byte))
    : list string * http_next * Server :=
  match n with
  | O => ([], CloseHttp, s)
  | S n =>
      match http_turn (envs O) s buf reads with
      | (out, Stopped next, s) => ([out], next, s)
      | (out, NextRequest buf reads, s) =>
          let '(outs, next, s) := http_loop n (λ i, envs (S i)) s buf reads in (out :: outs, next, s)
      end
  end.
Definition http_connection (envs : nat → nat → nat → Env) s (reads : list (list byte)) : list string * http_next * Server :=
  http_loop MAX_REQUESTS envs s [] reads.
End http.

(** ** A request without an identity *)

Section http_facts.
Context `{JsonText} `{ValueText} `{JsonBytes} `{DisplayText} `{DebugText} `{Chrono} `{MapOrder} `{RowOrder}
  `{TableHash} `{KeyOrder} `{DeploySerde} `{PushChannel} `{HttpText}.
Implicit Types s : Server.
Variable metrics_text : Server → string.

Lemma dispatch_stranger envs s req :
  require_auth (sv_config s) = true → authorize s None (req_op req) (req_table req) = Ok () →
  ∃ r, dispatch envs s None req = (r, s).
Proof. intros Auth [E|E]%authorize_stranger; [| |done]; unfold dispatch; rewrite E; eauto. Qed.

Lemma handle_op_stranger envs s body :
  require_auth (sv_config s) = true → ∃ r, handle_op envs s None body = (r, s).
Proof.
  intros Auth. unfold handle_op. destruct (parsed ← _; _) as [req|e]; [|eauto].
  destruct (authorize s None _ _) as [[]|e] eqn:A; [|eauto].
  destruct (dispatch_stranger envs s req Auth A) as [r ->]. eauto.
Qed.

Lemma handshake_bare env s req req' :
  handshake env s None req = (None, s, req') → tokenless req'.
Proof.
  unfold handshake, take_auth_token, tokenless. destruct req as [id op table row [vs|]]; cbn.
  - repeat case_match; intros [=]; simplify_eq/=; by rewrite lookup_delete_eq.
  - by intros [= <-].
Qed.

(** The operations let through are [Ping] and [Version]. *)
Lemma authorize_ops_stranger ops : ∀ envs s,
  require_auth (sv_config s) = true → Forall (stranger s) ops →
  ∃ l, authorize_ops envs s None ops = (l, None, s) ∧
    Forall (λ od, od.2 = None → authorize s None (req_op od.1) (req_table od.1) = Ok ()) l ∧ Forall tokenless l.*1.
Proof.
  induction ops as [|op ops IH]; intros envs s Auth F; cbn [authorize_ops]; [by exists []; repeat constructor|].
  apply Forall_cons in F as [St F]. destruct (handshake_stranger (envs O) s op St) as (op' & Hh & _). rewrite Hh.
  destruct (IH (λ n, envs (S n)) s Auth F) as (l & -> & Fl & Tl).
  eexists. split; [reflexivity|]. split; (constructor; [|done]); cbn [fst snd].
  - by destruct (authorize s None _ _) as [[]|e].
  - by apply handshake_bare in Hh.
Qed.

Lemma run_ops_stranger l : ∀ envs s,
  require_auth (sv_config s) = true →
  Forall (λ od, od.2 = None → authorize s None (req_op od.1) (req_table od.1) = Ok ()) l →
  ∃ r, run_ops envs s None l = (r, s).
Proof.
  induction l as [|[op [e|]] l IH]; intros envs s Auth F; cbn [run_ops]; [eauto|..]; apply Forall_cons in F as [A F].
  - destruct (IH (λ n, envs (S n)) s Auth F) as [r ->]. eauto.
  - destruct (dispatch_stranger (envs O) s op Auth (A eq_refl)) as [[resp|] ->]; [|eauto].
    destruct (IH (λ n, envs (S n)) s Auth F) as [r ->]. eauto.
Qed.

Lemma stranger_tokenless s req : tokenless req → stranger s req.
Proof.
  unfold tokenless, stranger, take_auth_token. destruct (req_values req) as [vs|]; [|done].
  cbn. intros ->. done.
Qed.

(** A body whose operations carry no valid token. *)
Definition stranger_body s (body : list byte) : Prop :=
  ∀ id atomic ops, batch_from_json body = Ok (id, atomic, ops) → Forall (stranger s) ops.

Lemma handle_batch_stranger envs s body :
  require_auth (sv_config s) = true → stranger_body s body →
  ∃ r s', handle_batch envs s None body = (r, s') ∧ idle s s'.
Proof.
  intros Auth St. unfold handle_batch. destruct (batch_from_json body) as [[[id atomic] ops]|e] eqn:B;
    [|eauto using idle_refl].
  destruct (authorize_ops_stranger ops (λ n, envs n O) s Auth (St _ _ _ B)) as (l & -> & Fl & Tl). destruct atomic.
  - destruct (first_denied l) as [[op e]|]; [eauto using idle_refl|].
    destruct (execute_atomic_stranger (λ n, envs n O) s (MkBatchRequest id l.*1) Auth) as (b & s' & -> & I); [|eauto].
    cbn. eapply Forall_impl; [exact Tl|]. intros op. apply stranger_tokenless.
  - destruct (run_ops_stranger l envs s Auth Fl) as [r ->]. eauto using idle_refl.
Qed.

Lemma route_stranger envs s method path body :
  require_auth (sv_config s) = true → stranger_body s body →
  ∃ r s', route metrics_text envs s None method path body = (r, s') ∧ idle s s'.
Proof.
  intros Auth St. unfold route.
  destruct (handle_op_stranger (envs O) s body Auth) as [r ->].
  destruct (handle_batch_stranger envs s body Auth St) as (r' & s' & -> & I). cbn [fst snd].
  repeat match goal with |- context [if ?b then _ else _] => destruct b end; eauto using idle_refl.
Qed.

(** With authentication required, an HTTP request that presents no valid token, in
    its header, its query or the operations of its body, changes nothing, whatever its
    method, path and body: the server's state is as before, the transaction counter
    apart, and it never becomes an event stream. *)
Theorem http_anonymous_changes_nothing envs s h body :
  require_auth (sv_config s) = true → stranger_body s body →
  (∀ t, request_token h (split_target (h_target h)).2 = Some t → sv_sessions s !! t = None ∧ sv_identities s !! t = None) →
  let '(_, next, s') := http_answer metrics_text envs s h body in
  idle s s' ∧ ∀ table since cors, next ≠ EventStream table since cors.
Proof.
  intros Auth St Tok. unfold http_answer. destruct (split_target (h_target h)) as [path query]. cbn [snd] in Tok.
  assert (∀ t since c, (if keep_alive h then Continue else CloseHttp) ≠ EventStream t since c) as Nx
    by (intros; by destruct (keep_alive h)).
  destruct (String.eqb (h_method h) "OPTIONS"); [by split; [apply idle_refl|]|].
  assert (match request_token h query with Some t => resolve_token s (env_utc (envs O O)) t | None => (None, s) end = (None, s)) as ->.
  { destruct (request_token h query) as [t|]; [|done]. destruct (Tok t eq_refl) as [Hs Hi].
    unfold resolve_token. by rewrite Hs, Hi. }
  destruct (_ && _) eqn:P.
  - unfold stream_route. destruct (String.eqb _ EmptyString); [by split; [apply idle_refl|]|].
    destruct (authorize s None _ _) as [[]|e] eqn:A; [|by split; [apply idle_refl|]].
    by apply authorize_stranger in A as [?|?].
  - destruct (route_stranger envs s (h_method h) path body Auth St) as (r & s' & -> & I).
    destruct r as [[[code ctype] text]|]; done.
Qed.

(** ** What a connection buffers *)

Lemma find_headers_end_app buf tail pos :
  find_headers_end buf = Some pos → find_headers_end (buf ++ tail) = Some pos ∧ (4 <= pos <= length buf)%nat.
Proof.
  revert pos. induction buf as [|b buf IH]; intros pos; cbn [find_headers_end app]; [done|].
  case_bool_decide as D.
  - intros [= <-]. assert (4 <= length (b :: buf))%nat as L.
    { assert (length (firstn 4 (b :: buf)) = 4%nat) as E by (by rewrite D). rewrite length_take in E. lia. }
    rewrite bool_decide_true; [split; [done|lia]|]. rewrite <- D.
    change (b :: buf ++ tail) with ((b :: buf) ++ tail). by rewrite take_app_le by lia.
  - destruct (find_headers_end buf) as [p|] eqn:E; [|done]. intros [= <-]. destruct (IH p eq_refl) as [E' L].
    rewrite E'. cbn [length]. rewrite bool_decide_false; [split; [done|lia]|].
    change (b :: buf ++ tail) with ((b :: buf) ++ tail). rewrite take_app_le by (cbn [length]; lia). exact D.
Qed.

(** Requests sent without waiting for the answers are lost: of what has been read, only
    the head and the body are used, and the bytes after them, the next request, are
    dropped: they change neither the answer nor what the connection goes on with. *)
Theorem pipelined_tail_dropped envs s buf tail reads pos :
  find_headers_end buf = Some pos →
  content_length (parse_head (from_utf8_lossy (firstn pos buf))) <= Z.of_nat (length buf - pos) →
  http_turn metrics_text envs s (buf ++ tail) reads = http_turn metrics_text envs s buf reads.
Proof.
  intros Ef L. destruct (find_headers_end_app buf tail pos Ef) as [Ef' Lp]. unfold http_turn.
  assert (∀ b, find_headers_end b = Some pos → read_head b reads =
    Some (parse_head (from_utf8_lossy (firstn pos b)), pos, b, reads)) as R
    by (intros b E; destruct reads; cbn [read_head]; by rewrite E).
  rewrite !R by done. rewrite take_app_le by lia. set (h := parse_head _) in *.
  destruct (_ <? content_length h); [done|]. rewrite drop_app_le by lia.
  assert (∀ b, content_length h <= Z.of_nat (length b) →
    read_body (content_length h) (Z.max (max_message_size (sv_config s)) 1024) b reads = BodyDone b reads) as Rb
    by (intros b Lb; destruct reads; cbn [read_body]; by rewrite (proj2 (Z.leb_le _ _))).
  rewrite !Rb by (rewrite ?length_app, ?length_drop; lia).
  rewrite take_app_le; [done|]. rewrite length_drop. lia.
Qed.

Lemma read_head_bounded reads : ∀ buf h pos buf' reads',
  Forall (λ c, Z.of_nat (length c) <= 8192) reads → Z.of_nat (length buf) <= HEAD_CAP + 8192 →
  read_head buf reads = Some (h, pos, buf', reads') →
  Z.of_nat (length buf') <= HEAD_CAP + 8192 ∧ (pos <= length buf')%nat ∧ reads' `suffix_of` reads.
Proof.
  induction reads as [|c reads IH]; intros buf h pos buf' reads' F L; cbn [read_head];
    (destruct (find_headers_end buf) as [p|] eqn:E;
      [intros [= _ <- <- <-]; apply (find_headers_end_app _ []) in E as [_ ?]; split_and!; [done|lia|done]|]).
  - by destruct (HEAD_CAP <? Z.of_nat (length buf)).
  - destruct (Z.ltb_spec HEAD_CAP (Z.of_nat (length buf))); [done|]. apply Forall_cons in F as [Lc F]. cbn beta in Lc.
    intros R. apply IH in R as (? & ? & S); [|done|rewrite length_app; lia].
    split_and!; [done..|by apply suffix_cons_r].
Qed.

Lemma read_body_bounded need max reads : ∀ body body' reads',
  read_body need max body reads = BodyDone body' reads' →
  Z.of_nat (length body') <= Z.max (Z.of_nat (length body)) max ∧ need <= Z.of_nat (length body').
Proof.
  induction reads as [|c reads IH]; intros body body' reads'; cbn [read_body];
    (destruct (Z.leb_spec need (Z.of_nat (length body))); [intros [= <- _]; lia|]); [done|].
  destruct (Z.ltb_spec max (Z.of_nat (length (body ++ c)))); [done|]. intros R. apply IH in R. lia.
Qed.

(** What one HTTP request may make the server buffer is bounded: a head is given up once
    more than 16384 bytes hold none, so with reads of at most 8192 bytes the buffer of
    the head stays below 24577, and a body is complete, and at most the larger of that
    and the frame limit. *)
Theorem http_memory_bounded reads h pos buf reads' max_body body reads'' :
  Forall (λ c, Z.of_nat (length c) <= 8192) reads → read_head [] reads = Some (h, pos, buf, reads') →
  read_body (content_length h) max_body (skipn pos buf) reads' = BodyDone body reads'' →
  Z.of_nat (length buf) <= 24576 ∧ content_length h <= Z.of_nat (length body) <= Z.max 24576 max_body.
Proof.
  intros F R B. apply read_head_bounded in R as (L & Lp & _); [|done|done]. apply read_body_bounded in B.
  change (HEAD_CAP + 8192) with 24576 in L.
  split; [done|]. rewrite length_drop in B. lia.
Qed.
End http_facts.

(** ** Concrete requests *)

#[local] Existing Instances demo_json_text demo_value_text demo_json_bytes demo_display demo_debug demo_chrono
  demo_order demo_row_order demo_hash demo_key_order demo_serde demo_channel demo_http_text.

Definition text (ls : list string) : list byte := mjoin ((λ l, str_bytes l ++ [Z_byte 13; Z_byte 10]) <$> ls).
Definition get_request (target : string) (rest : list string) : list byte :=
  text (("GET " +:+ target +:+ " HTTP/1.1") :: rest ++ [EmptyString])%list.

Example head_of_a_request :
  let buf := get_request "/v1/op?a=%41+b&token=t%2" ["Host: x"; "AUTHORIZATION:  Bearer  tok "] in
  find_headers_end buf = Some (length buf) ∧
  let h := parse_head (from_utf8_lossy buf) in
  h = MkHead "GET" "/v1/op?a=%41+b&token=t%2" "HTTP/1.1" [("host", "x"); ("authorization", "Bearer  tok")] ∧
  bearer h = Some "tok"%string ∧
  query_param (split_target (h_target h)).2 "a" = Some "A b"%string ∧
  query_param (split_target (h_target h)).2 "token" = Some "t%2"%string.
Proof. vm_compute. repeat split. Qed.

(** Ill-formed UTF-8 becomes replacement characters. *)
Example lossy_text :
  from_utf8_lossy (Z_byte <$> [65; 0xC3; 66; 0xE2; 0x82; 0xFF; 0xC3; 0xA9]) =
    Z_byte <$> [65; 239; 191; 189; 66; 239; 191; 189; 239; 191; 189; 0xC3; 0xA9].
Proof. vm_compute. reflexivity. Qed.

(** Two requests in one chunk get one answer. *)
Example second_request_unanswered :
  let buf := get_request "/readyz" [] in
  length (http_connection (λ _, EmptyString) (λ _ _ _, demo_env) (serving true false) [buf ++ buf]).1.1 = 2%nat ∧
  last (http_connection (λ _, EmptyString) (λ _ _ _, demo_env) (serving true false) [buf ++ buf]).1.1 = Some EmptyString ∧
  (http_connection (λ _, EmptyString) (λ _ _ _, demo_env) (serving true false) [buf; buf]).1.1 =
    (λ r, [r; r; EmptyString]) (respond 503 "text/plain" ("starting" +:+ lf) "keep-alive" None).
Proof. vm_compute. repeat split. Qed.

Lemma http_anonymous_changes_nothing_witness :
  let '(out, next, s') := http_answer (λ _, EmptyString) (λ _ _, demo_env) (serving true false)
    (MkHead "DELETE" "/v1/op?token=nobody" "HTTP/1.1" []) [] in
  sv_engine s' = serving_engine ∧ next = Continue.
Proof.
  pose proof (http_anonymous_changes_nothing (λ _, EmptyString) (λ _ _, demo_env) (serving true false)
    (MkHead "DELETE" "/v1/op?token=nobody" "HTTP/1.1" []) [] eq_refl) as T.
  assert ((http_answer (λ _, EmptyString) (λ _ _, demo_env) (serving true false)
    (MkHead "DELETE" "/v1/op?token=nobody" "HTTP/1.1" []) []).1.2 = Continue) as N by (vm_compute; reflexivity).
  destruct (http_answer _ _ _ _ _) as [[out next] s']. cbn in N. subst next.
  destruct T as [(_ & E & _) _]; [| |by split].
  - intros id atomic ops E. vm_compute in E. discriminate E.
  - intros t E. vm_compute in E. injection E as <-. split; vm_compute; reflexivity.
Defined.

Lemma pipelined_tail_dropped_witness :
  let buf := get_request "/readyz" [] in
  http_turn (λ _, EmptyString) (λ _ _, demo_env) (serving true false) (buf ++ buf) [] =
    http_turn (λ _, EmptyString) (λ _ _, demo_env) (serving true false) buf [].
Proof.
  cbv zeta. apply (pipelined_tail_dropped _ _ _ _ _ _ (length (get_request "/readyz" [])));
    vm_compute; [reflexivity|discriminate].
Defined.
