(* ===== verification/Install.v ===== *)
(** [blitz-cli/src/install.rs]: downloading a release for this machine, checking it
    against the published checksums, and wiring its directory into the shells' start-up
    files. [curl], SHA-256 and the release API are third-party; the Unix build is
    modelled. *)
From S2P Require Import Prelude Float Value Schema Core Codec Snapshot Wal GroupCommit Durability Shard Query Text Window Http.

Local Open Scope Z_scope.

(** ** The machine *)

(** The files of the machine by path (names joined by one slash), and those that may be
    executed. *)
Record World : Type := MkWorld { w_files : gmap string (list byte); w_exec : gset string }.

Record Machine : Type := MkMachine {
  mc_os : string;
  mc_arch : string;
  mc_home : option string;
  mc_userprofile : option string;
  (** Whether a file cannot be renamed over another, as when that one is running. *)
  mc_locked : string → bool
}.

(** [curl -fsSL url]: what it prints or saves, and what a failed download leaves behind. *)
Class Curl : Type := {
  curl_installed : bool;
  curl_get : string → option (list byte);
  curl_left : string → option (list byte)
}.
Class Sha256 : Type := sha256 : list byte → string.

Definition path_join (dir name : string) : string :=
  if bool_decide (dir = EmptyString) then name else dir +:+ "/" +:+ name.
Definition nl : string := String.string_of_list_byte [Z_byte 10].
Definition dq : string := String.string_of_list_byte [Z_byte 34].

Definition set_files (w : World) (fs : gmap string (list byte)) : World := MkWorld fs (w_exec w).

(** ** What to install, and where *)

Definition OWNER_REPO : string := "Salaou-Hasan/BlitzDB".

Record InstallArgs : Type := MkInstall { in_version : string; in_dir : option string; in_force : bool }.
Record DeviceAsset : Type := MkAsset { da_download : string; da_executable : string }.

Definition asset_for_this_device (m : Machine) : result string DeviceAsset :=
  if String.eqb (mc_os m) "linux" && String.eqb (mc_arch m) "x86_64" then Ok (MkAsset "blitz-linux-x64" "blitz")
  else if String.eqb (mc_os m) "windows" && String.eqb (mc_arch m) "x86_64" then
    Ok (MkAsset "blitz-windows-x64.exe" "blitz.exe")
  else if String.eqb (mc_os m) "macos" && String.eqb (mc_arch m) "aarch64" then
    Ok (MkAsset "blitz-macos-arm64" "blitz")
  else
    Err ("no prebuilt BlitzDB server for " +:+ mc_os m +:+ " " +:+ mc_arch m
         +:+ "; supported: linux/x86_64, windows/x86_64, macos/aarch64." +:+ nl
         +:+ "Build from source (cargo build -p blitz-cli) or request a target.").

Definition normalize_tag (version : string) : string :=
  let v := bytes_str (trim (str_bytes version)) in
  if eq_ignore_ascii_case v "latest" then "latest"%string
  else if starts_with v "v" then v else "v" +:+ v.

Definition default_install_dir (m : Machine) : result string string :=
  let under h := path_join (path_join h ".blitzdb") "bin" in
  match mc_home m, mc_userprofile m with
  | Some h, p =>
      if bool_decide (h ≠ EmptyString) then Ok (under h)
      else match p with
           | Some p => if bool_decide (p ≠ EmptyString) then Ok (under p)
                       else Err "cannot locate a home directory; pass --dir explicitly"%string
           | None => Err "cannot locate a home directory; pass --dir explicitly"%string
           end
  | None, Some p =>
      if bool_decide (p ≠ EmptyString) then Ok (under p)
      else Err "cannot locate a home directory; pass --dir explicitly"%string
  | None, None => Err "cannot locate a home directory; pass --dir explicitly"%string
  end.

(** ** Downloads *)

Section install.
Context `{Curl} `{Sha256} `{JsonBytes}.

Definition require_curl : result string () :=
  if curl_installed then Ok ()
  else Err ("`curl` is required but not on PATH." +:+ nl +:+ "Install curl, or download manually from "
            +:+ "https://github.com/Salaou-Hasan/BlitzDB/releases").

Definition curl_download (url dest : string) (fs : gmap string (list byte)) : result string () * gmap string (list byte) :=
  if negb curl_installed then (Err "failed to run curl"%string, fs)
  else
    match curl_get url with
    | Some bytes => (Ok (), <[dest := bytes]> fs)
    | None =>
        (Err ("download failed (" +:+ url +:+ " -> " +:+ dest +:+ ")"),
         match curl_left url with Some bytes => <[dest := bytes]> fs | None => fs end)
    end.

Definition latest_url : string := "https://api.github.com/repos/Salaou-Hasan/BlitzDB/releases/latest".
Definition resolve_latest : result string string :=
  if negb curl_installed then Err "failed to run curl"%string
  else
    match curl_get latest_url with
    | None => Err "could not query latest release (network or rate limit?)"%string
    | Some out =>
        match json_from_slice out with
        | None => Err "bad release API JSON"%string
        | Some v =>
            match v with
            | JObject o => match obj_get o "tag_name" with
                           | Some (JString t) => Ok t
                           | _ => Err "release API response has no tag_name"%string
                           end
            | _ => Err "release API response has no tag_name"%string
            end
        end
    end.

Definition release_url (tag file : string) : string :=
  "https://github.com/" +:+ OWNER_REPO +:+ "/releases/download/" +:+ tag +:+ "/" +:+ file.

(** [split_once(char::is_whitespace)] *)
Fixpoint split_once_whitespace (l : list byte) : option (list byte * list byte) :=
  match l with
  | [] => None
  | b :: l' =>
      match whitespace l with
      | O => '(h, n) ← split_once_whitespace l'; Some (b :: h, n)
      | S n => Some ([], skipn (S n) l)
      end
  end.

(** The checksum published for a file: the first line that names it. *)
Definition sums_line (asset : string) (line : list byte) : option string :=
  '(hash, name) ← split_once_whitespace line;
  if bool_decide (bytes_str (trim name) = asset) then Some (bytes_str (trim hash)) else None.
Definition listed_hash (asset : string) (sums : list byte) : option string := head (omap (sums_line asset) (lines sums)).

(** ** Shell start-up files *)

Definition PATH_MARKER : string := "# blitzdb (+blitz)".

Definition display_dir (dir home : string) : string :=
  if bool_decide (home = EmptyString) then dir
  else match str_strip_prefix dir home with
       | Some rest => if starts_with rest "/" || starts_with rest "\" then "$HOME" +:+ rest else dir
       | None => dir
       end.
Definition sh_block (rendered : string) : string :=
  PATH_MARKER +:+ nl +:+ "export PATH=" +:+ dq +:+ rendered +:+ ":$PATH" +:+ dq +:+ nl.
Definition fish_block (rendered : string) : string :=
  PATH_MARKER +:+ nl +:+ "fish_add_path " +:+ rendered +:+ nl.

Definition ensure_blocked_entry (rc block : string) (fs : gmap string (list byte))
    : result string bool * gmap string (list byte) :=
  let append := <[rc := default [] (fs !! rc) ++ str_bytes (nl +:+ block +:+ nl)]> fs in
  match fs !! rc with
  | Some text =>
      if negb (utf8_valid text) then (Err ("read " +:+ rc), fs)
      else if contains (str_bytes PATH_MARKER) text then (Ok false, fs)
      else (Ok true, append)
  | None => (Ok true, append)
  end.

(** The loop over the start-up files that exist. *)
Fixpoint wire (rcs : list (string * string)) (changed : bool) (fs : gmap string (list byte))
    : result string bool * gmap string (list byte) :=
  match rcs with
  | [] => (Ok changed, fs)
  | (rc, block) :: rcs =>
      match fs !! rc with
      | None => wire rcs changed fs
      | Some _ =>
          match ensure_blocked_entry rc block fs with
          | (Err e, fs) => (Err e, fs)
          | (Ok c, fs) => wire rcs (changed || c) fs
          end
      end
  end.

Definition rc_files (home rendered : string) : list (string * string) :=
  [(path_join home ".bashrc", sh_block rendered); (path_join home ".zshrc", sh_block rendered);
   (path_join home ".profile", sh_block rendered);
   (path_join (path_join (path_join home ".config") "fish") "config.fish", fish_block rendered)].

Definition ensure_on_path (m : Machine) (dir : string) (fs : gmap string (list byte))
    : result string bool * gmap string (list byte) :=
  let home := default EmptyString (mc_home m) in
  let rendered := display_dir dir home in
  let rcs := rc_files home rendered in
  if existsb (λ rc, bool_decide (is_Some (fs !! rc.1))) rcs then wire rcs false fs
  else ensure_blocked_entry (path_join home ".profile") (sh_block rendered) fs.

(** ** The installation *)

(** From the downloaded release on: [want] is its published checksum. *)
Definition install_release (m : Machine) (dir tag : string) (a : DeviceAsset) (want sums_path : string) (w : World)
    : result string string * World :=
  let dest := path_join dir (da_executable a) in
  let tmp := path_join dir (da_executable a +:+ ".pending") in
  match curl_download (release_url tag (da_download a)) tmp (w_files w) with
  | (Err e, fs) => (Err e, set_files w (delete tmp fs))
  | (Ok _, fs) =>
      let content := default [] (fs !! tmp) in
      if bool_decide (sha256 content ≠ want) then
        (Err ("checksum mismatch for " +:+ da_download a +:+ " (want " +:+ want +:+ ", got " +:+ sha256 content
              +:+ ") — deleted, nothing installed"), set_files w (delete tmp fs))
      else
        let staged := path_join dir (da_executable a +:+ ".new") in
        let installed := if mc_locked m dest then staged else dest in
        if mc_locked m dest && mc_locked m staged then
          (Err ("install " +:+ dest +:+ ": (rename blocked — is blitz running from it?)"), set_files w fs)
        else
          let fs := delete sums_path (<[installed := content]> (delete tmp fs)) in
          (Ok installed, MkWorld (ensure_on_path m dir fs).2 ({[installed]} ∪ w_exec w))
  end.

Definition run_install (m : Machine) (args : InstallArgs) (w : World) : result string string * World :=
  match asset_for_this_device m with
  | Err e => (Err e, w)
  | Ok a =>
      match (if eq_ignore_ascii_case (in_version args) "latest" then resolve_latest
             else Ok (normalize_tag (in_version args))) with
      | Err e => (Err e, w)
      | Ok tag =>
          match require_curl, (match in_dir args with Some d => Ok d | None => default_install_dir m end) with
          | Err e, _ | Ok _, Err e => (Err e, w)
          | Ok _, Ok dir =>
              let dest := path_join dir (da_executable a) in
              let sums_path := path_join dir "SHA256SUMS.pending" in
              match curl_download (release_url tag "SHA256SUMS") sums_path (w_files w) with
              | (Err e, fs) => (Err e, set_files w fs)
              | (Ok _, fs) =>
                  let sums := default [] (fs !! sums_path) in
                  if negb (utf8_valid sums) then (Err "read checksums"%string, set_files w fs)
                  else
                    match listed_hash (da_download a) sums with
                    | None => (Err ("SHA256SUMS has no entry for " +:+ da_download a), set_files w fs)
                    | Some want =>
                        if bool_decide (sha256 <$> fs !! dest = Some want) && negb (in_force args) then
                          (Ok dest, set_files w (ensure_on_path m dir (delete sums_path fs)).2)
                        else install_release m dir tag a want sums_path (set_files w fs)
                    end
              end
          end
      end
  end.
End install.

(** ** Paths are told apart by their last name *)

Definition base_name (path : string) : list byte :=
  match split_last "/"%byte (str_bytes path) with Some (_, name) => name | None => str_bytes path end.

Lemma split_last_none c l : c ∉ l → split_last c l = None.
Proof.
  induction l as [|x l IH]; [done|]. intros [Nx N]%not_elem_of_cons. cbn. rewrite IH by done. by rewrite bool_decide_false.
Qed.

Lemma base_name_join dir name : "/"%byte ∉ str_bytes name → base_name (path_join dir name) = str_bytes name.
Proof.
  intros N. unfold base_name, path_join. case_bool_decide; [by rewrite split_last_none|].
  rewrite !str_bytes_app. change (str_bytes "/") with ["/"%byte]. cbn [app]. by rewrite split_last_app.
Qed.

Ltac no_slash := rewrite list_elem_of_In; vm_compute; intuition discriminate.

(** ** The start-up files *)

Lemma contains_here pat l : contains pat (pat ++ l) = true.
Proof.
  pose proof (strip_prefix_app pat l) as E. destruct (pat ++ l) as [|x l']; cbn [contains]; by rewrite E.
Qed.

Lemma contains_later pat l1 l2 : contains pat l2 = true → contains pat (l1 ++ l2) = true.
Proof.
  intros C. induction l1 as [|x l1 IH]; [done|]. cbn [app contains]. by destruct (strip_prefix pat (x :: l1 ++ l2)).
Qed.

(** An entry made, or found, or refused stays as it is. *)
Lemma ensure_again rc rest fs :
  let block := PATH_MARKER +:+ rest in
  let fs1 := (ensure_blocked_entry rc block fs).2 in (ensure_blocked_entry rc block fs1).2 = fs1.
Proof.
  cbv zeta. set (block := PATH_MARKER +:+ rest).
  assert (∀ text, contains (str_bytes PATH_MARKER) (text ++ str_bytes (nl +:+ block +:+ nl)) = true) as C.
  { intros text. unfold block. rewrite !str_bytes_app, <- app_assoc. do 2 apply contains_later. apply contains_here. }
  assert (∀ text, fs !! rc = Some text ∨ fs !! rc = None → (ensure_blocked_entry rc block
    (<[rc := default [] (fs !! rc) ++ str_bytes (nl +:+ block +:+ nl)]> fs)).2 =
    <[rc := default [] (fs !! rc) ++ str_bytes (nl +:+ block +:+ nl)]> fs) as A.
  { intros text _. unfold ensure_blocked_entry at 1. rewrite lookup_insert_eq. destruct (utf8_valid _); [|done]. cbn [negb].
    by rewrite C. }
  unfold ensure_blocked_entry at 2 3. destruct (fs !! rc) as [text|] eqn:E; [|apply (A []); by right].
  destruct (utf8_valid text) eqn:U; cbn [negb snd]; [|unfold ensure_blocked_entry; by rewrite E, U].
  destruct (contains (str_bytes PATH_MARKER) text) eqn:Ct; cbn [snd]; [unfold ensure_blocked_entry; by rewrite E, U, Ct|].
  apply (A text). by left.
Qed.

Lemma ensure_frame rc block fs p : p ≠ rc → (ensure_blocked_entry rc block fs).2 !! p = fs !! p.
Proof.
  intros N. unfold ensure_blocked_entry. destruct (fs !! rc); repeat case_match; cbn [snd]; try done;
    by rewrite lookup_insert_ne.
Qed.

Lemma ensure_exists rc block fs : is_Some (fs !! rc) → is_Some ((ensure_blocked_entry rc block fs).2 !! rc).
Proof.
  intros S. unfold ensure_blocked_entry. destruct (fs !! rc) eqn:E; [|by destruct S].
  repeat case_match; cbn [snd]; rewrite ?lookup_insert_eq, ?E; by eexists.
Qed.

Lemma wire_frame rcs p : p ∉ rcs.*1 → ∀ c fs, (wire rcs c fs).2 !! p = fs !! p.
Proof.
  induction rcs as [|[rc block] rcs IH]; intros N c fs; [done|]. cbn in N. apply not_elem_of_cons in N as [N1 N]. cbn [wire].
  destruct (fs !! rc); [|by apply IH]. pose proof (ensure_frame rc block fs p N1) as F.
  destruct (ensure_blocked_entry rc block fs) as [[b|e] fs1]; cbn [snd] in *; [|done]. by rewrite IH.
Qed.

Lemma wire_exists rcs p : ∀ c fs, is_Some (fs !! p) ↔ is_Some ((wire rcs c fs).2 !! p).
Proof.
  induction rcs as [|[rc block] rcs IH]; intros c fs; [done|]. cbn [wire].
  destruct (fs !! rc) as [text|] eqn:E; [|apply IH].
  assert (is_Some (fs !! p) ↔ is_Some ((ensure_blocked_entry rc block fs).2 !! p)) as S.
  { destruct (decide (p = rc)) as [->|N]; [|by rewrite ensure_frame].
    split; [apply ensure_exists|by eexists]. }
  rewrite S. destruct (ensure_blocked_entry rc block fs) as [[b|e] fs1]; cbn [snd]; [apply IH|done].
Qed.

Lemma wire_again rcs : NoDup rcs.*1 → Forall (λ rc, ∃ rest, rc.2 = PATH_MARKER +:+ rest) rcs → ∀ c c' fs,
  (wire rcs c' (wire rcs c fs).2).2 = (wire rcs c fs).2.
Proof.
  induction rcs as [|[rc block] rcs IH]; intros N F c c' fs; [done|]. cbn in N. apply NoDup_cons in N as [N1 N].
  apply Forall_cons in F as [[rest Eb] F]. cbn [snd] in Eb. cbn [wire]. destruct (fs !! rc) as [text|] eqn:E.
  - pose proof (ensure_again rc rest fs) as A. cbv zeta in A. rewrite <- Eb in A.
    pose proof (ensure_exists rc block fs ltac:(by eexists)) as S.
    destruct (ensure_blocked_entry rc block fs) as [[b|e] fs1] eqn:X; cbn [snd] in *.
    + clear X. pose proof (wire_frame rcs rc N1 (c || b) fs1) as Fr. set (fs2 := (wire rcs (c || b) fs1).2) in *.
      rewrite Fr. destruct S as [t1 E1]. rewrite E1.
      assert ((ensure_blocked_entry rc block fs2).2 = fs2) as A2.
      { revert A. unfold ensure_blocked_entry. rewrite Fr, E1. destruct (utf8_valid t1); [|done]. cbn [negb].
        destruct (contains _ t1); [done|]. cbn [snd]. intros A. apply (f_equal (.!! rc)) in A.
        rewrite lookup_insert_eq, E1 in A. injection A as A. cbn [default] in A.
        apply (f_equal length) in A. rewrite length_app, !str_bytes_app, !length_app in A. cbn in A. lia. }
      destruct (ensure_blocked_entry rc block fs2) as [[b'|e] fs3]; cbn [snd] in *; [|done]. subst fs3.
      by apply IH.
    + assert (fs1 = fs) as -> by (revert X; unfold ensure_blocked_entry; repeat case_match; by intros [=]).
      by rewrite E, X.
  - pose proof (wire_frame rcs rc N1 c fs) as Fr. rewrite Fr, E. by apply IH.
Qed.

Lemma rc_names home rendered p : p ∈ (rc_files home rendered).*1 →
  base_name p ∈ str_bytes <$> [".bashrc"; ".zshrc"; ".profile"; "config.fish"]%string.
Proof.
  cbn [rc_files fmap list_fmap fst]. rewrite !elem_of_cons. intros [->|[->|[->|[->|?%not_elem_of_nil]]]]; [| | | |done];
    (rewrite base_name_join by no_slash); set_solver.
Qed.

Lemma rc_distinct home rendered : NoDup (rc_files home rendered).*1.
Proof.
  cbn [rc_files fmap list_fmap fst].
  assert (∀ a b d d', str_bytes a ≠ str_bytes b → "/"%byte ∉ str_bytes a → "/"%byte ∉ str_bytes b →
    path_join d a ≠ path_join d' b) as D.
  { intros a b d d' N A B E. apply N. rewrite <- (base_name_join d a A), <- (base_name_join d' b B). by rewrite E. }
  repeat apply NoDup_cons_2; [..|constructor]; rewrite ?not_elem_of_cons; split_and?; try apply not_elem_of_nil;
    (apply D; [by vm_compute|no_slash|no_slash]).
Qed.

Lemma rc_blocks home rendered : Forall (λ rc, ∃ rest, rc.2 = PATH_MARKER +:+ rest) (rc_files home rendered).
Proof. repeat constructor; eexists; cbn [snd]; unfold sh_block, fish_block; reflexivity. Qed.

Lemma on_path_frame m dir fs p :
  base_name p ∉ str_bytes <$> [".bashrc"; ".zshrc"; ".profile"; "config.fish"]%string →
  (ensure_on_path m dir fs).2 !! p = fs !! p.
Proof.
  intros N. unfold ensure_on_path. cbv zeta. destruct (existsb _ _).
  - apply wire_frame. intros I%rc_names. done.
  - apply ensure_frame. intros ->. apply N. rewrite base_name_join by no_slash. set_solver.
Qed.

Lemma wire_settled rcs c fs :
  Forall (λ rc, is_Some (fs !! rc.1) → (ensure_blocked_entry rc.1 rc.2 fs).2 = fs) rcs → (wire rcs c fs).2 = fs.
Proof.
  intros F. revert c. induction F as [|[rc block] rcs S _ IH]; intros c; [done|]. cbn [wire fst snd] in *.
  destruct (fs !! rc); [|apply IH]. specialize (S ltac:(by eexists)).
  destruct (ensure_blocked_entry rc block fs) as [[b|e] fs1]; cbn [snd] in *; subst; [apply IH|done].
Qed.

Definition some_exists (rcs : list (string * string)) (fs : gmap string (list byte)) : bool :=
  existsb (λ rc, bool_decide (is_Some (fs !! rc.1))) rcs.

Lemma some_exists_iff rcs fs : some_exists rcs fs = true ↔ ∃ p, p ∈ rcs.*1 ∧ is_Some (fs !! p).
Proof.
  unfold some_exists. rewrite existsb_exists. setoid_rewrite bool_decide_eq_true. split.
  - intros (rc & I%list_elem_of_In & S). exists rc.1. split; [by apply list_elem_of_fmap_2|done].
  - intros (p & (rc & -> & I)%list_elem_of_fmap & S). exists rc. split; [by apply list_elem_of_In|done].
Qed.

(** Wiring twice is wiring once. *)
Lemma on_path_again m dir fs : (ensure_on_path m dir (ensure_on_path m dir fs).2).2 = (ensure_on_path m dir fs).2.
Proof.
  set (home := default EmptyString (mc_home m)). set (rendered := display_dir dir home).
  assert (∀ fs, ensure_on_path m dir fs =
    if some_exists (rc_files home rendered) fs then wire (rc_files home rendered) false fs
    else ensure_blocked_entry (path_join home ".profile") (sh_block rendered) fs) as U by done.
  rewrite !U. clear U. destruct (some_exists (rc_files home rendered) fs) eqn:E.
  - replace (some_exists _ _) with true; [apply wire_again; [apply rc_distinct|apply rc_blocks]|].
    symmetry. apply some_exists_iff. apply some_exists_iff in E as (p & I & S). exists p. split; [done|].
    by apply (wire_exists (rc_files home rendered) p false fs).
  - set (pro := path_join home ".profile"). set (fs1 := (ensure_blocked_entry pro (sh_block rendered) fs).2).
    assert (pro ∈ (rc_files home rendered).*1) as Ip by (cbn [rc_files fmap list_fmap fst]; set_solver).
    assert (∀ rc, rc ∈ rc_files home rendered → is_Some (fs1 !! rc.1) → rc.1 = pro) as Only.
    { intros rc I S. destruct (decide (rc.1 = pro)) as [|N]; [done|]. exfalso. unfold fs1 in S. rewrite ensure_frame in S by done.
      assert (some_exists (rc_files home rendered) fs = true) as T; [|by rewrite T in E].
      apply some_exists_iff. exists rc.1. split; [by apply list_elem_of_fmap_2|done]. }
    destruct (some_exists (rc_files home rendered) fs1) eqn:E1.
    + apply wire_settled. apply Forall_forall. intros rc I S. rewrite (Only rc I S).
      pose proof (rc_blocks home rendered) as B. rewrite Forall_forall in B. destruct (B rc I) as [rest Eb].
      assert (rc.2 = sh_block rendered) as ->; [|by apply (ensure_again pro (nl +:+ "export PATH=" +:+ dq +:+ rendered +:+ ":$PATH" +:+ dq +:+ nl))].
      pose proof (Only rc I S) as P. pose proof (rc_distinct home rendered) as D. clear -I P D. revert D P.
      unfold rc_files in *. rewrite !elem_of_cons in I. cbn [fmap list_fmap fst]. fold pro.
      intros D P. destruct I as [->|[->|[->|[->|?%not_elem_of_nil]]]]; try done. cbn [fst] in P. rewrite P in D.
      apply NoDup_cons in D as [_ D]. apply NoDup_cons in D as [_ D]. apply NoDup_cons in D as [D _]. set_solver.
    + apply (ensure_again pro (nl +:+ "export PATH=" +:+ dq +:+ rendered +:+ ":$PATH" +:+ dq +:+ nl)).
Qed.

(** ** What an installation leaves behind *)

Section verified.
Context `{Curl} `{Sha256} `{JsonBytes}.

Lemma download_frame url dest fs p : p ≠ dest → (curl_download url dest fs).2 !! p = fs !! p.
Proof.
  intros N. unfold curl_download. destruct (negb curl_installed); [done|]. repeat case_match; cbn [snd]; try done;
    by rewrite lookup_insert_ne.
Qed.

Lemma download_Ok url dest fs fs' : curl_download url dest fs = (Ok (), fs') → curl_installed = true ∧ ∃ bytes, curl_get url = Some bytes ∧ fs' = <[dest := bytes]> fs.
Proof.
  unfold curl_download. destruct curl_installed; [|done]. cbn [negb]. destruct (curl_get url) as [bytes|]; [|done].
  intros [= <-]. split; [done|]. by exists bytes.
Qed.

Lemma asset_names m a : asset_for_this_device m = Ok a → da_executable a = "blitz"%string ∨ da_executable a = "blitz.exe"%string.
Proof. unfold asset_for_this_device. repeat case_match; intros [= <-]; auto. Qed.

(** The names of the files an installation writes besides the program. *)
Definition scratch_names : list string := ["SHA256SUMS.pending"; "blitz.pending"; "blitz.exe.pending"]%string.
Definition rc_base_names : list string := [".bashrc"; ".zshrc"; ".profile"; "config.fish"]%string.
Definition touches {E A} (r : result E A) (p : string) : Prop :=
  base_name p ∈ str_bytes <$> scratch_names ∨ is_ok r = true ∧ base_name p ∈ str_bytes <$> rc_base_names.

Lemma scratch_join {E A} (r : result E A) dir name : name ∈ scratch_names → touches r (path_join dir name).
Proof.
  intros I. left. rewrite base_name_join; [by apply list_elem_of_fmap_2|].
  unfold scratch_names in I. rewrite !elem_of_cons in I. destruct I as [->|[->|[->|?%not_elem_of_nil]]]; [no_slash..|done].
Qed.

Lemma str_app_nil (s : string) : s +:+ EmptyString = s.
Proof. induction s as [|c s IH]; [done|]. change (String.String c (s +:+ EmptyString) = String.String c s). by rewrite IH. Qed.

(** The program's files are told apart from the others. *)
Lemma program_not_wired a dir suffix : (a = "blitz"%string ∨ a = "blitz.exe"%string) → (suffix = EmptyString ∨ suffix = ".new"%string) →
  base_name (path_join dir (a +:+ suffix)) ∉ str_bytes <$> rc_base_names ∧
  path_join dir (a +:+ suffix) ≠ path_join dir "SHA256SUMS.pending" ∧ path_join dir (a +:+ suffix) ≠ path_join dir (a +:+ ".pending").
Proof.
  assert (∀ x y, "/"%byte ∉ str_bytes x → "/"%byte ∉ str_bytes y → str_bytes x ≠ str_bytes y → path_join dir x ≠ path_join dir y) as D.
  { intros x y Nx Ny N E. apply N. by rewrite <- (base_name_join dir x Nx), <- (base_name_join dir y Ny), E. }
  intros [->| ->] [->| ->]; (split; [rewrite base_name_join by no_slash; rewrite list_elem_of_In; vm_compute; intuition discriminate|]);
    split; (apply D; [no_slash|no_slash|by vm_compute]).
Qed.

Definition published (a : DeviceAsset) (tag want : string) : Prop :=
  ∃ sums, curl_get (release_url tag "SHA256SUMS") = Some sums ∧ listed_hash (da_download a) sums = Some want.

Lemma release_installed m dir tag a want w r w' :
  (da_executable a = "blitz"%string ∨ da_executable a = "blitz.exe"%string) →
  install_release m dir tag a want (path_join dir "SHA256SUMS.pending") w = (r, w') →
  match r with
  | Ok path => ∃ suffix content, path = path_join dir (da_executable a +:+ suffix) ∧ (suffix = EmptyString ∨ suffix = ".new"%string) ∧
      w_files w' !! path = Some content ∧ sha256 content = want ∧ path ∈ w_exec w'
  | Err _ => w_exec w' = w_exec w
  end ∧ ∀ p, w_files w' !! p ≠ w_files w !! p → r = Ok p ∨ touches r p.
Proof.
  intros Ex. unfold install_release. cbv zeta.
  pose proof (download_frame (release_url tag (da_download a)) (path_join dir (da_executable a +:+ ".pending")) (w_files w)) as Fr.
  assert (∀ r : result string string, touches r (path_join dir (da_executable a +:+ ".pending"))) as Pend
    by (intros; apply scratch_join; destruct Ex as [-> | ->]; unfold scratch_names; set_solver).
  destruct (curl_download _ _ _) as [[[]|e] fs]; cbn [snd] in Fr.
  2: { intros [= <- <-]. split; [done|]. cbn [w_files set_files]. intros p N. right.
       destruct (decide (p = path_join dir (da_executable a +:+ ".pending"))) as [->|Np]; [apply Pend|].
       rewrite lookup_delete_ne in N by done. by rewrite Fr in N. }
  set (content := default [] (fs !! _)). case_bool_decide as Hh.
  { intros [= <- <-]. split; [done|]. cbn [w_files set_files]. intros p N. right.
    destruct (decide (p = path_join dir (da_executable a +:+ ".pending"))) as [->|Np]; [apply Pend|].
    rewrite lookup_delete_ne in N by done. by rewrite Fr in N. }
  destruct (mc_locked m (path_join dir (da_executable a))) eqn:L1, (mc_locked m (path_join dir (da_executable a +:+ ".new"))) eqn:L2;
    cbn [andb]; intros [= <- <-].
  { split; [done|]. cbn [w_files set_files]. intros p N. right.
    destruct (decide (p = path_join dir (da_executable a +:+ ".pending"))) as [->|Np]; [apply Pend|]. by rewrite Fr in N. }
  all: set (path := path_join dir _).
  all: assert (∃ suffix, path = path_join dir (da_executable a +:+ suffix) ∧ (suffix = EmptyString ∨ suffix = ".new"%string)) as (suffix & Ep & Es)
    by (first [exists ".new"%string; split; [reflexivity|by right] | exists EmptyString; split; [unfold path; f_equal; by rewrite str_app_nil|by left]]).
  all: destruct (program_not_wired _ dir suffix Ex Es) as (Nr & Ns & Np); rewrite <- Ep in Nr, Ns, Np.
  all: split; [exists suffix, content; cbn [w_files w_exec]; rewrite on_path_frame, lookup_delete_ne, lookup_insert_eq by done; set_solver|].
  all: cbn [w_files w_exec]; intros p N; destruct (decide (p = path)) as [->|Npp]; [by left|right].
  all: destruct (decide (base_name p ∈ str_bytes <$> rc_base_names)) as [Ir|Nrc]; [by right|].
  all: rewrite on_path_frame in N by done; destruct (decide (p = path_join dir "SHA256SUMS.pending")) as [->|Nsums];
    [by apply scratch_join; unfold scratch_names; set_solver|].
  all: rewrite lookup_delete_ne, lookup_insert_ne in N by done;
    destruct (decide (p = path_join dir (da_executable a +:+ ".pending"))) as [->|Npend]; [apply Pend|].
  all: rewrite lookup_delete_ne in N by done; by rewrite Fr in N.
Qed.

(** C38: An installation is verified. The path it answers holds a program whose SHA-256 is the
    one the release's checksum file publishes for this machine; when it fails no program was
    replaced or made executable; and either way it changes nothing but that path, its own
    pending files and, when it succeeds, the shells' start-up files. *)
Theorem install_is_verified m args w :
  let '(r, w') := run_install m args w in
  match r with
  | Ok path => ∃ a dir tag want suffix content, asset_for_this_device m = Ok a ∧
      path = path_join dir (da_executable a +:+ suffix) ∧ (suffix = EmptyString ∨ suffix = ".new"%string) ∧
      published a tag want ∧ w_files w' !! path = Some content ∧ sha256 content = want
  | Err _ => w_exec w' = w_exec w
  end ∧ ∀ p, w_files w' !! p ≠ w_files w !! p → r = Ok p ∨ touches r p.
Proof.
  unfold run_install. destruct (asset_for_this_device m) as [a|e] eqn:A; [|done]. pose proof (asset_names m a A) as Ex.
  destruct (if eq_ignore_ascii_case _ _ then _ else _) as [tag|e]; [|done]. destruct require_curl as [[]|e]; [|done].
  destruct (match in_dir args with Some _ => _ | None => _ end) as [dir|e]; [|done]. cbv zeta.
  set (sums_path := path_join dir "SHA256SUMS.pending").
  pose proof (download_frame (release_url tag "SHA256SUMS") sums_path (w_files w)) as Fr.
  assert (∀ r : result string string, touches r sums_path) as Ts by (intros; apply scratch_join; unfold scratch_names; set_solver).
  assert (∀ (r : result string string) (fs : gmap string (list byte)), (∀ p, p ≠ sums_path → fs !! p = w_files w !! p) → ∀ p, fs !! p ≠ w_files w !! p → r = Ok p ∨ touches r p) as Only.
  { intros r fs F p N. right. destruct (decide (p = sums_path)) as [->|Np]; [apply Ts|]. by rewrite F in N. }
  destruct (curl_download _ _ _) as [[[]|e] fs] eqn:C; cbn [snd] in Fr; [|split; [done|by apply Only]].
  apply download_Ok in C as (_ & sums & Cs & ->). rewrite lookup_insert_eq. cbn [default]. change (id sums) with sums.
  destruct (utf8_valid sums); cbn [negb]; [|split; [done|by apply Only]].
  destruct (listed_hash (da_download a) sums) as [want|] eqn:L; [|split; [done|by apply Only]].
  destruct (program_not_wired _ dir EmptyString Ex ltac:(by left)) as (Nr & Ns & _). rewrite str_app_nil in Nr, Ns.
  case_bool_decide as Hd; [destruct (in_force args); cbn [negb andb]|cbn [andb]].
  2: { split.
       - apply fmap_Some in Hd as (content & Hc & Hh). exists a, dir, tag, want, EmptyString, content. rewrite str_app_nil.
         split_and!; [done|done|by left|by exists sums| |done]. cbn [w_files set_files].
         rewrite on_path_frame, lookup_delete_ne by done. exact Hc.
       - intros p N. cbn [w_files set_files] in N. right. destruct (decide (base_name p ∈ str_bytes <$> rc_base_names)); [by right|].
         rewrite on_path_frame in N by done. destruct (decide (p = sums_path)) as [->|Np]; [apply Ts|].
         rewrite lookup_delete_ne, lookup_insert_ne in N by done. done. }
  all: destruct (install_release _ _ _ _ _ _ _) as [r w'] eqn:I; destruct (release_installed _ _ _ _ _ _ _ _ Ex I) as [R F];
    (split; [destruct r as [path|e]; [|exact R]; destruct R as (suffix & content & ? & ? & ? & ? & _);
             exists a, dir, tag, want, suffix, content; split_and!; try done; by exists sums|]);
    intros p N; destruct (decide (p = sums_path)) as [->|Np]; [right; apply Ts|]; apply F; cbn [w_files set_files];
    by rewrite lookup_insert_ne.
Qed.

(** Installing again is free: with the same release published, and no file locked, a
    second run without [--force] finds the program verified, downloads it not, and changes
    nothing. *)
Theorem reinstall_changes_nothing m args w path w' :
  in_force args = false → (∀ p, mc_locked m p = false) →
  run_install m args w = (Ok path, w') → run_install m args w' = (Ok path, w').
Proof.
  intros NF NL. unfold run_install. destruct (asset_for_this_device m) as [a|e] eqn:A; [|done]. pose proof (asset_names m a A) as Ex.
  destruct (if eq_ignore_ascii_case _ _ then _ else _) as [tag|e]; [|done]. destruct require_curl as [[]|e]; [|done].
  destruct (match in_dir args with Some _ => _ | None => _ end) as [dir|e]; [|done]. cbv zeta.
  set (sums_path := path_join dir "SHA256SUMS.pending"). set (dest := path_join dir (da_executable a)).
  destruct (curl_download _ _ (w_files w)) as [[[]|e] fs] eqn:C; [|done]. apply download_Ok in C as (Ci & sums & Cs & ->).
  assert (∀ fs, curl_download (release_url tag "SHA256SUMS") sums_path fs = (Ok (), <[sums_path := sums]> fs)) as Dl.
  { intros fs. unfold curl_download. by rewrite Ci, Cs. }
  rewrite Dl, !lookup_insert_eq. cbn [default]. change (id sums) with sums. destruct (utf8_valid sums); cbn [negb]; [|done].
  destruct (listed_hash (da_download a) sums) as [want|]; [|done]. rewrite NF. cbn [negb]. rewrite !andb_true_r.
  destruct (program_not_wired _ dir EmptyString Ex ltac:(by left)) as (Nr & Ns & Np). rewrite str_app_nil in Nr, Ns, Np. fold dest sums_path in Nr, Ns, Np.
  assert (base_name sums_path ∉ str_bytes <$> rc_base_names) as Nsr.
  { unfold sums_path. rewrite base_name_join by no_slash. rewrite list_elem_of_In. vm_compute. intuition discriminate. }
  assert (∀ fs exec, sha256 <$> (ensure_on_path m dir (delete sums_path fs)).2 !! dest = Some want →
    let w1 := MkWorld (ensure_on_path m dir (delete sums_path fs)).2 exec in
    (if bool_decide (sha256 <$> <[sums_path := sums]> (w_files w1) !! dest = Some want)
     then (Ok dest : result string string, set_files w1 (ensure_on_path m dir (delete sums_path (<[sums_path := sums]> (w_files w1)))).2)
     else install_release m dir tag a want sums_path (set_files w1 (<[sums_path := sums]> (w_files w1)))) = (Ok dest, w1)) as Again.
  { intros fs exec Hw. cbv zeta. cbn [w_files]. rewrite lookup_insert_ne, bool_decide_true by (done || exact Hw). f_equal.
    unfold set_files. cbn [w_exec]. f_equal. rewrite delete_insert_id; [apply on_path_again|].
    rewrite on_path_frame by done. apply lookup_delete_eq. }
  case_bool_decide as Hd.
  - intros [= <- <-]. unfold set_files at 1. apply Again. rewrite on_path_frame, lookup_delete_ne by done. exact Hd.
  - clear Hd. unfold install_release at 1. cbv zeta. destruct (curl_download _ _ _) as [[[]|e] fs]; [|done].
    set (content := default [] _). case_bool_decide as Hh; [done|]. rewrite !NL. cbn [andb]. fold dest.
    intros [= <- <-]. apply (Again _ ({[dest]} ∪ w_exec w)). rewrite on_path_frame, lookup_delete_ne, lookup_insert_eq by done.
    cbn. by rewrite Hh.
Qed.
End verified.

(** ** A small release *)

(** A release whose one program is the letter [A]; digests spell the size of a file. *)
Definition demo_curl : Curl := {|
  curl_installed := true;
  curl_get url := if String.eqb url (release_url "v1" "SHA256SUMS") then Some (str_bytes ("one  blitz-linux-x64" +:+ nl))
                  else if String.eqb url (release_url "v1" "blitz-linux-x64") then Some [Z_byte 65] else None;
  curl_left _ := None
|}.
Definition demo_sha256 : Sha256 := λ bytes, if (length bytes =? 1)%nat then "one"%string else "other"%string.
Definition demo_machine : Machine := MkMachine "linux" "x86_64" (Some "/home/u"%string) None (λ _, false).
Definition demo_install : InstallArgs := MkInstall "1" None false.
Definition demo_world : World := MkWorld ∅ ∅.

Example demo_installs :
  (run_install (H:=demo_curl) (H0:=demo_sha256) (H1:=demo_json_bytes) demo_machine demo_install demo_world).1 =
    Ok "/home/u/.blitzdb/bin/blitz"%string.
Proof. vm_compute. reflexivity. Qed.

Lemma reinstall_changes_nothing_witness :
  let w1 := (run_install (H:=demo_curl) (H0:=demo_sha256) (H1:=demo_json_bytes) demo_machine demo_install demo_world).2 in
  run_install (H:=demo_curl) (H0:=demo_sha256) (H1:=demo_json_bytes) demo_machine demo_install w1 =
    (Ok "/home/u/.blitzdb/bin/blitz"%string, w1).
Proof.
  apply (reinstall_changes_nothing (H:=demo_curl) (H0:=demo_sha256) (H1:=demo_json_bytes) demo_machine demo_install demo_world);
    [reflexivity|reflexivity|].
  vm_compute. reflexivity.
Defined.

(** The marker stands for any directory: a second installation elsewhere succeeds, and no shell
    will find it. *)
Example second_directory_not_wired :
  let w1 := (run_install (H:=demo_curl) (H0:=demo_sha256) (H1:=demo_json_bytes) demo_machine demo_install demo_world).2 in
  let '(r, w2) := run_install (H:=demo_curl) (H0:=demo_sha256) (H1:=demo_json_bytes) demo_machine
                    (MkInstall "1" (Some "/opt/blitz"%string) false) w1 in
  r = Ok "/opt/blitz/blitz"%string ∧ w_files w2 !! "/home/u/.profile"%string = w_files w1 !! "/home/u/.profile"%string.
Proof. vm_compute. split; reflexivity. Qed.

(** A tag published as [1.0] cannot be asked for: the name is always given a leading v. *)
Example tag_gets_a_v : normalize_tag " 1.0" = "v1.0"%string.
Proof. reflexivity. Qed.
