(* ===== verification/Dev.v ===== *)
(** [blitz-cli/src/dev.rs]: the development server's watch of its procedures. The
    directory of deploy envelopes is loaded when the server starts and polled from then
    on; a file whose time of change is not the known one is deployed anew. The listeners,
    the timer between two polls and the printing are left out. *)
From S2P Require Import Prelude Float Value HashMap Schema Sort Core Policy Codec Snapshot Wal GroupCommit Durability Tx Shard Query Text Window Changes Jobs Runtime Deploy Server.

Local Open Scope Z_scope.

(** ** The watched directory *)

(** A file of the directory: its time of change, and its bytes unless it cannot be read. *)
Record DevFile : Type := MkDevFile { df_mtime : option Z; df_text : option (list byte) }.

(** The directory at a poll, in the order [read_dir] lists it; [None] when it is none. *)
Abbreviation DevDir := (option (list (string * DevFile))).

(** The known times of change. *)
Abbreviation Watched := (gmap string (option Z)).

Definition is_envelope (kf : string * DevFile) : bool := bool_decide ((stem_ext (str_bytes kf.1)).2 = Some (str_bytes "json")).
Definition by_path (a b : string * DevFile) : comparison := str_cmp a.1 b.1.
Definition json_files (d : list (string * DevFile)) : list (string * DevFile) :=
  sort_by by_path (filter (λ kf, is_envelope kf = true) d).

(** What the watch reports of a file. *)
Inductive Outcome : Type :=
| Unreadable
| Invalid (why : string)
| DevRejected (why : string)
| Deployed (name : string) (version : Z).
Abbreviation log := (list (string * Outcome)).

Section dev.
Context `{JsonText} `{ValueText} `{Chrono} `{DeploySerde} `{DebugText} `{MapOrder} `{JsonBytes} `{PushChannel}.
Implicit Types (s : Server) (w : Watched) (d : DevDir) (files : list (string * DevFile)).

(** One file. A panic of the envelope's rewriting is nowhere caught: it ends the
    development server. *)
Definition deploy_file s (f : DevFile) : option (Outcome * Server) :=
  match df_text f with
  | None => Some (Unreadable, s)
  | Some text =>
      if negb (utf8_valid text) then Some (Unreadable, s)
      else
        match deploy_from_json text (sv_functions s) with
        | Err Panicked => None
        | Err (Rejected e) => Some (Invalid e, s)
        | Ok proc =>
            match deploy_procedure s proc with
            | (Ok v, s) => Some (Deployed (proc_name proc) v, s)
            | (Err e, s) => Some (DevRejected e, s)
            end
        end
  end.

Definition dev_state : Type := log * Server * Watched.

(** The body of both loops: the time is known from then on, whatever the outcome. *)
Definition watch_file (st : dev_state) (kf : string * DevFile) : option dev_state :=
  let '(l, s, w) := st in
  '(o, s) ← deploy_file s kf.2;
  Some (l ++ [(kf.1, o)], s, <[kf.1 := df_mtime kf.2]> w).

Fixpoint initial_files (st : dev_state) files : option dev_state :=
  match files with
  | [] => Some st
  | kf :: files => st ← watch_file st kf; initial_files st files
  end.
Definition initial_load (st : dev_state) (entries : list (string * DevFile)) : option dev_state :=
  initial_files st (json_files entries).

Fixpoint poll_files (st : dev_state) files : option dev_state :=
  match files with
  | [] => Some st
  | kf :: files =>
      st ← (if bool_decide (st.2 !! kf.1 = Some (df_mtime kf.2)) then Some st else watch_file st kf);
      poll_files st files
  end.
Definition poll_procedures (st : dev_state) d : option dev_state :=
  match d with
  | None => Some st
  | Some entries =>
      let files := json_files entries in
      '(l, s, w) ← poll_files st files;
      Some (l, s, filter (λ kt, kt.1 ∈ files.*1) w)
  end.

(** [run_dev]: the first load, when there is a directory, and then a poll every half
    second until the server is stopped. *)
Fixpoint run_polls (st : dev_state) (ds : list DevDir) : option dev_state :=
  match ds with
  | [] => Some st
  | d :: ds => st ← poll_procedures st d; run_polls st ds
  end.
Definition run_dev s (d : DevDir) (ds : list DevDir) : option dev_state :=
  let st := ([], s, ∅) in
  st ← (match d with Some entries => initial_load st entries | None => Some st end);
  run_polls st ds.

(** ** What the watch promises *)

(** A save is a file the directory shows under a time other than the one of the time before. *)
Definition mtimes files : Watched := list_to_map ((λ kf, (kf.1, df_mtime kf.2)) <$> files).
Definition changed w files : list (string * DevFile) :=
  filter (λ kf, w !! kf.1 ≠ Some (df_mtime kf.2)) files.
Fixpoint saves w (ds : list DevDir) : list (string * DevFile) :=
  match ds with
  | [] => []
  | None :: ds => saves w ds
  | Some d :: ds => changed w (json_files d) ++ saves (mtimes (json_files d)) ds
  end.

(** The procedures of the saves that can be read and are valid. *)
Definition accepted (fns : FunctionRegistry) (f : DevFile) : option Procedure :=
  text ← df_text f; if utf8_valid text then ok (deploy_from_json text fns) else None.
Definition valid_saves (fns : FunctionRegistry) (files : list (string * DevFile)) : list Procedure :=
  omap (λ kf, accepted fns kf.2) files.

(** What a registry serves under a name after some procedures of that name. *)
Definition serve (r : option RegisteredProcedure) (ps : list Procedure) : option RegisteredProcedure :=
  match last ps with
  | None => r
  | Some p => Some (MkRegistered p (wrap 64 (match r with Some r => rp_version r | None => 0 end + Z.of_nat (length ps))))
  end.
Definition named (n : string) (ps : list Procedure) : list Procedure := filter (λ p, proc_name p = n) ps.

(** All the saves, one after the other. *)
Fixpoint deploy_all (l : log) s files : option (log * Server) :=
  match files with
  | [] => Some (l, s)
  | kf :: files => '(o, s) ← deploy_file s kf.2; deploy_all (l ++ [(kf.1, o)]) s files
  end.
Lemma deploy_all_app l s f1 f2 : deploy_all l s (f1 ++ f2) = '(l, s) ← deploy_all l s f1; deploy_all l s f2.
Proof.
  revert l s. induction f1 as [|kf f1 IH]; intros l s; [done|]. cbn [app deploy_all].
  destruct (deploy_file s kf.2) as [[o s']|]; [|done]. apply IH.
Qed.

(** *** The watch deploys exactly the saves *)

Lemma json_files_names (entries : list (string * DevFile)) : NoDup entries.*1 → NoDup (json_files entries).*1.
Proof.
  intros N. unfold json_files. rewrite (sort_by_perm by_path (filter _ entries)).
  eapply sublist_NoDup; [exact N|]. apply fmap_sublist, sublist_filter.
Qed.

Lemma changed_insert k t w files : k ∉ files.*1 → changed (<[k := t]> w) files = changed w files.
Proof.
  induction files as [|kf files IH]; [done|]. rewrite fmap_cons. intros [Nk N]%not_elem_of_cons. unfold changed in *.
  rewrite !filter_cons, IH by done. by rewrite lookup_insert_ne.
Qed.

Lemma mtimes_cons kf files : mtimes (kf :: files) = <[kf.1 := df_mtime kf.2]> (mtimes files).
Proof. done. Qed.

Lemma mtimes_names files k : k ∉ files.*1 → mtimes files !! k = None.
Proof. intros N. apply not_elem_of_list_to_map_1. rewrite <- list_fmap_compose. exact N. Qed.

Lemma poll_files_saves files : NoDup files.*1 → ∀ l s w,
  poll_files (l, s, w) files = '(l, s) ← deploy_all l s (changed w files); Some (l, s, mtimes files ∪ w).
Proof.
  induction files as [|kf files IH]; intros N l s w.
  { cbn. unfold mtimes. cbn. by rewrite (left_id_L ∅ (∪)). }
  cbn in N. apply NoDup_cons in N as [N1 N]. cbn [poll_files snd]. unfold changed. rewrite filter_cons, mtimes_cons.
  pose proof (mtimes_names files _ N1) as Nm. case_bool_decide as E.
  - rewrite decide_False by (intros C; by apply C). cbn [mbind option_bind]. rewrite IH by done. unfold changed.
    destruct (deploy_all _ _ _) as [[l' s']|]; [|done]. cbn. do 2 f_equal.
    apply map_eq. intros k. destruct (decide (k = kf.1)) as [->|]; [|by rewrite !lookup_union, lookup_insert_ne].
    by rewrite !lookup_union, lookup_insert_eq, Nm, E.
  - rewrite decide_True by done. cbn [deploy_all watch_file].
    destruct (deploy_file s kf.2) as [[o s1]|]; [|done]. cbn [mbind option_bind]. rewrite IH, changed_insert by done. unfold changed.
    destruct (deploy_all _ _ _) as [[l' s']|]; [|done]. cbn. do 2 f_equal. 
    rewrite <- insert_union_r by done. by rewrite insert_union_l.
Qed.

Lemma initial_files_saves files : ∀ l s w,
  initial_files (l, s, w) files = '(l, s) ← deploy_all l s files; Some (l, s, foldl (λ w kf, <[kf.1 := df_mtime kf.2]> w) w files).
Proof.
  induction files as [|kf files IH]; intros l s w; [done|]. cbn [initial_files deploy_all foldl watch_file].
  destruct (deploy_file s kf.2) as [[o s1]|]; [|done]. cbn [mbind option_bind]. apply IH.
Qed.

Lemma initial_times files : NoDup files.*1 → ∀ w, foldl (λ w kf, <[kf.1 := df_mtime kf.2]> w) w files = mtimes files ∪ w.
Proof.
  induction files as [|kf files IH]; intros N w; [unfold mtimes; cbn; by rewrite (left_id_L ∅ (∪))|].
  rewrite fmap_cons in N. apply NoDup_cons in N as [N1 N]. cbn [foldl]. rewrite IH, mtimes_cons by done.
  rewrite <- insert_union_r by (by apply mtimes_names). by rewrite insert_union_l.
Qed.

Lemma poll_saves (entries : list (string * DevFile)) l s w : NoDup entries.*1 →
  poll_procedures (l, s, w) (Some entries) =
    '(l, s) ← deploy_all l s (changed w (json_files entries)); Some (l, s, mtimes (json_files entries)).
Proof.
  intros N%json_files_names. cbn [poll_procedures]. rewrite poll_files_saves by done.
  destruct (deploy_all _ _ _) as [[l' s']|]; [|done]. cbn. do 2 f_equal. apply map_eq. intros k. rewrite map_lookup_filter.
  destruct (decide (k ∈ (json_files entries).*1)) as [I|I].
  - rewrite lookup_union. destruct (mtimes _ !! k) as [t|] eqn:E.
    + rewrite union_Some_l. cbn. by rewrite option_guard_True.
    + exfalso. apply not_elem_of_list_to_map_2 in E. apply E. rewrite <- list_fmap_compose. exact I.
  - rewrite (mtimes_names _ _ I). destruct ((_ ∪ w) !! k); [|done]. cbn. by rewrite option_guard_False.
Qed.

Definition dir_ok d : Prop := match d with Some entries => NoDup entries.*1 | None => True end.

Lemma run_polls_saves ds : Forall dir_ok ds → ∀ l s w, ∃ w',
  run_polls (l, s, w) ds = '(l, s) ← deploy_all l s (saves w ds); Some (l, s, w').
Proof.
  induction 1 as [|d ds D _ IH]; intros l s w; [by exists w|]. cbn [run_polls saves]. destruct d as [entries|]; [|apply IH].
  rewrite poll_saves by done. destruct (IH [] s (mtimes (json_files entries))) as [w' _]. rewrite deploy_all_app.
  destruct (deploy_all l s _) as [[l1 s1]|]; [|by exists w']. cbn [mbind option_bind]. apply IH.
Qed.

Lemma run_dev_saves s d ds : Forall dir_ok (d :: ds) → ∃ w,
  run_dev s d ds = '(l, s) ← deploy_all [] s (saves ∅ (d :: ds)); Some (l, s, w).
Proof.
  intros F. apply Forall_cons in F as [D F]. unfold run_dev, initial_load. destruct d as [entries|]; cbn [saves]; [|by apply run_polls_saves].
  assert (changed ∅ (json_files entries) = json_files entries) as ->.
  { unfold changed. induction (json_files entries) as [|kf files IH]; [done|]. rewrite filter_cons, IH. by rewrite lookup_empty. }
  rewrite initial_files_saves, deploy_all_app. destruct (deploy_all [] s _) as [[l1 s1]|]; [|by exists ∅]. cbn [mbind option_bind].
  rewrite initial_times by (by apply json_files_names). rewrite (right_id_L ∅ (∪)). by apply run_polls_saves.
Qed.

(** *** What a file deploys *)

Lemma deploy_from_json_valid text fns p : deploy_from_json text fns = Ok p → validate_procedure p fns = Ok ().
Proof.
  unfold deploy_from_json. intros (? & _ & E)%result_bind_Ok. apply result_bind_Ok in E as (? & _ & E).
  apply result_bind_Ok in E as (? & _ & E). unfold deploy_from_parsed in E. repeat case_match; try done.
  apply result_bind_Ok in E as (? & _ & E). apply result_bind_Ok in E as (q & _ & E).
  apply result_bind_Ok in E as ([] & V & [= ->]). by apply map_err_Ok in V.
Qed.

Definition panics (fns : FunctionRegistry) (f : DevFile) : Prop :=
  ∃ text, df_text f = Some text ∧ utf8_valid text = true ∧ deploy_from_json text fns = Err Panicked.

(** The registry after one valid save. *)
Definition register (m : gmap string RegisteredProcedure) (p : Procedure) : gmap string RegisteredProcedure :=
  <[proc_name p := MkRegistered p (wrap 64 (match m !! proc_name p with Some r => rp_version r | None => 0 end + 1))]> m.

Lemma with_procedures_same s : with_procedures s (sv_procedures s) = s.
Proof. by destruct s. Qed.

Ltac no_panic := intros (? & ? & ? & ?); simplify_eq; congruence.

Lemma deploy_file_effect s f :
  match deploy_file s f with
  | None => panics (sv_functions s) f
  | Some (o, s') => ¬ panics (sv_functions s) f ∧ 
      s' = with_procedures s (foldl register (sv_procedures s) (option_list (accepted (sv_functions s) f)))
  end.
Proof.
  unfold deploy_file, accepted, panics. destruct (df_text f) as [text|]; cbn [mbind option_bind];
    [|split; [no_panic|symmetry; apply with_procedures_same]].
  destruct (utf8_valid text) eqn:U; cbn [negb]; [|split; [no_panic|symmetry; apply with_procedures_same]].
  destruct (deploy_from_json text (sv_functions s)) as [p|[e|]] eqn:E; cbn [ok option_list foldl].
  - unfold deploy_procedure. rewrite (deploy_from_json_valid _ _ _ E). split; [no_panic|].
    change (foldl register ?m (option_list (Some p))) with (register m p). unfold register.
    by destruct (sv_procedures s !! proc_name p).
  - split; [no_panic|]. symmetry; apply with_procedures_same.
  - by exists text.
Qed.

Lemma deploy_all_effect files : ∀ l s,
  match deploy_all l s files with
  | None => Exists (λ kf, panics (sv_functions s) kf.2) files
  | Some (l', s') => ¬ Exists (λ kf, panics (sv_functions s) kf.2) files ∧ l'.*1 = l.*1 ++ files.*1 ∧
      s' = with_procedures s (foldl register (sv_procedures s) (valid_saves (sv_functions s) files))
  end.
Proof.
  induction files as [|kf files IH]; intros l s; cbn [deploy_all].
  { rewrite Exists_nil, app_nil_r. split_and!; [tauto|done|]. symmetry; apply with_procedures_same. }
  pose proof (deploy_file_effect s kf.2) as E. destruct (deploy_file s kf.2) as [[o s1]|]; cbn [mbind option_bind]; [|by left].
  destruct E as [N ->]. specialize (IH (l ++ [(kf.1, o)])
    (with_procedures s (foldl register (sv_procedures s) (option_list (accepted (sv_functions s) kf.2))))).
  destruct (deploy_all _ _ _) as [[l' s']|]; cbn [sv_functions with_procedures sv_procedures] in IH.
  - destruct IH as (N' & L & ->). rewrite Exists_cons. split_and!; [tauto|by rewrite L, fmap_app, <- app_assoc|].
    unfold valid_saves. cbn [omap list_omap]. destruct (accepted _ _); done.
  - by right.
Qed.

Lemma registered_serves ps : ∀ m n, foldl register m ps !! n = serve (m !! n) (named n ps).
Proof.
  induction ps as [|p ps IH]; intros m n; [done|]. cbn [foldl]. rewrite IH. unfold named, register. rewrite filter_cons.
  destruct (decide (proc_name p = n)) as [<-|N]; [|by rewrite lookup_insert_ne]. rewrite lookup_insert_eq.
  unfold serve. rewrite last_cons. destruct (last (filter _ ps)) as [q|] eqn:L.
  - f_equal. f_equal. cbn [rp_version length]. unfold wrap. rewrite Zplus_mod_idemp_l. f_equal. lia.
  - apply last_None in L. by rewrite L.
Qed.

(** C37: The watch serves the last valid save of every procedure. Whatever the directory
    goes through, the saves it deploys are exactly the envelope files that show a time of
    change other than the one before, in the order of their paths at each poll; each is
    reported once; under every name the server then serves the last valid one, at a version
    that counts them; a file that was deleted or went bad leaves the procedure it deployed;
    nothing else of the server changes; and only a panic of the rewriting ends the watch. *)
Theorem dev_serves_last_valid_save s d ds :
  Forall dir_ok (d :: ds) →
  let files := saves ∅ (d :: ds) in
  match run_dev s d ds with
  | None => Exists (λ kf, panics (sv_functions s) kf.2) files
  | Some (l, s', _) =>
      ¬ Exists (λ kf, panics (sv_functions s) kf.2) files ∧ l.*1 = files.*1 ∧
      s' = with_procedures s (sv_procedures s') ∧
      ∀ n, sv_procedures s' !! n = serve (sv_procedures s !! n) (named n (valid_saves (sv_functions s) files))
  end.
Proof.
  intros F files. destruct (run_dev_saves s d ds F) as [w ->]. fold files. pose proof (deploy_all_effect files [] s) as E.
  destruct (deploy_all [] s files) as [[l s']|]; cbn [mbind option_bind]; [|done]. destruct E as (N & L & ->).
  split_and!; [done|done|done|]. intros n. apply registered_serves.
Qed.

(** The known times are those of the names, in whatever order they are listed. *)
Definition times_of (entries : list (string * DevFile)) : list (string * option Z) := (λ kf, (kf.1, df_mtime kf.2)) <$> entries.

Lemma times_of_names entries : (times_of entries).*1 = entries.*1.
Proof. unfold times_of. by rewrite <- list_fmap_compose. Qed.

Lemma json_times entries : times_of (json_files entries) ≡ₚ
  filter (λ kt, bool_decide ((stem_ext (str_bytes kt.1)).2 = Some (str_bytes "json")) = true) (times_of entries).
Proof.
  unfold json_files, times_of. rewrite (sort_by_perm by_path (filter _ entries)).
  induction entries as [|kf entries IH]; [done|]. rewrite fmap_cons, !filter_cons. cbn [fst].
  destruct (decide (is_envelope kf = true)) as [E|E]; unfold is_envelope in E;
    [rewrite (decide_True _ _ E)|rewrite (decide_False _ _ E)]; by rewrite ?fmap_cons, IH.
Qed.

Lemma mtimes_perm e1 e2 : NoDup e1.*1 → times_of e1 ≡ₚ times_of e2 → mtimes (json_files e1) = mtimes (json_files e2).
Proof.
  intros N P. unfold mtimes. change (list_to_map (times_of (json_files e1)) =@{Watched} list_to_map (times_of (json_files e2))).
  apply list_to_map_proper; [rewrite times_of_names; by apply json_files_names|]. by rewrite !json_times, P.
Qed.

Lemma run_polls_app ds : ∀ st ds', run_polls st (ds ++ ds') = st ← run_polls st ds; run_polls st ds'.
Proof.
  induction ds as [|d ds IH]; intros st ds'; [done|]. cbn [app run_polls]. destruct (poll_procedures st d); [|done]. apply IH.
Qed.

Lemma changed_none files : NoDup files.*1 → changed (mtimes files) files = [].
Proof.
  intros N. unfold changed. apply elem_of_nil_inv. intros kf [E I]%list_elem_of_filter. apply E.
  apply elem_of_list_to_map_1; [by rewrite <- list_fmap_compose|]. apply list_elem_of_fmap. by exists kf.
Qed.

(** A poll that finds nothing saved changes nothing: after any poll of a directory the
    next poll that finds the same files under the same times - in whatever order they are
    listed, and whatever they hold by then - deploys nothing and reports nothing. *)
Theorem idle_poll_changes_nothing s d ds entries entries' st :
  NoDup entries.*1 → times_of entries ≡ₚ times_of entries' →
  run_dev s d (ds ++ [Some entries]) = Some st → run_dev s d (ds ++ [Some entries; Some entries']) = Some st.
Proof.
  intros N P. unfold run_dev. destruct (match d with Some e => _ | None => _ end) as [st0|]; [|done]. cbn [mbind option_bind].
  rewrite !run_polls_app. destruct (run_polls st0 ds) as [[[l s1] w]|]; [|done]. cbn [mbind option_bind run_polls].
  rewrite (poll_saves entries) by done. destruct (deploy_all l s1 _) as [[l' s']|]; [|done]. cbn [mbind option_bind]. intros [= <-].
  assert (NoDup entries'.*1) as N' by (by rewrite <- times_of_names, <- P, times_of_names). rewrite (poll_saves entries') by done.
  rewrite (mtimes_perm entries entries') by done. by rewrite changed_none by (by apply json_files_names).
Qed.
End dev.

(** ** A watched directory *)

(** Files that hold one letter: an envelope of [p], the same with another description, a
    procedure without steps, and an envelope whose step is no object. *)
Definition demo_envelope (name : string) (ss : list json) : json :=
  JObject [("procedure"%string, JObject [("name"%string, JString name); ("steps"%string, JArray ss)]); ("v"%string, JNumber (PosInt 1))].
Definition demo_fail : json := JObject [("Fail"%string, JObject [])].
Definition demo_envelopes : JsonBytes := {|
  json_to_vec _ := [];
  json_from_slice l :=
    match String.string_of_list_byte l with
    | "a" => Some (demo_envelope "p" [demo_fail])
    | "b" => Some (demo_envelope "p" [demo_fail; demo_fail])
    | "c" => Some (demo_envelope "p" [])
    | "d" => Some (demo_envelope "p" [JObject [("Return"%string, JNumber (PosInt 5))]])
    | _ => None
    end%string
|}.
Definition demo_serde : DeploySerde := {|
  procedure_from_value j :=
    match j with
    | JObject m => match obj_get m "name", obj_get m "steps" with
                   | Some (JString n), Some (JArray ss) => Ok (MkProcedure n "" (replicate (length ss) (SFail "x")))
                   | _, _ => Err "no name"%string
                   end
    | _ => Err "no object"%string
    end;
  from_ymd_ok _ _ _ := true
|}.
#[local] Existing Instances demo_json_text demo_value_text demo_debug demo_chrono demo_order demo_envelopes demo_serde demo_channel.

Definition demo_server : Server := Server_new ServerConfig_default ∅.
Definition demo_file (mtime : Z) (text : string) : string * DevFile := ("p.json"%string, MkDevFile (Some mtime) (Some (str_bytes text))).
(** Saved, saved again, gone bad, left alone, and deleted; a note beside it is no envelope. *)
Definition demo_days : list DevDir :=
  [Some [demo_file 2 "b"; ("note.txt"%string, MkDevFile (Some 1) None)]; Some [demo_file 3 "c"]; Some [demo_file 3 "c"]; Some []].

Lemma dev_serves_last_valid_save_witness :
  match run_dev demo_server (Some [demo_file 1 "a"]) demo_days with
  | Some (l, s', _) => l.*2 = [Deployed "p" 1; Deployed "p" 2; Invalid "procedure needs at least one step"] ∧
      sv_procedures s' !! "p"%string = Some (MkRegistered (MkProcedure "p" "" [SFail "x"; SFail "x"]) 2)
  | None => False
  end.
Proof.
  pose proof (dev_serves_last_valid_save demo_server (Some [demo_file 1 "a"]) demo_days) as T. cbv zeta in T.
  assert (Forall dir_ok (Some [demo_file 1 "a"] :: demo_days)) as F by (repeat constructor; set_solver). specialize (T F).
  assert (option_map (λ st : dev_state, st.1.1.*2) (run_dev demo_server (Some [demo_file 1 "a"]) demo_days) =
    Some [Deployed "p" 1; Deployed "p" 2; Invalid "procedure needs at least one step"]) as L by (vm_compute; reflexivity).
  destruct (run_dev _ _ _) as [[[l s'] w]|]; [|done]. cbn [option_map fst] in L. injection L as L. split; [exact L|].
  destruct T as (_ & _ & _ & T). rewrite T. vm_compute. reflexivity.
Defined.

Lemma idle_poll_changes_nothing_witness :
  run_dev demo_server None [Some [demo_file 1 "a"; ("q.json"%string, MkDevFile None None)];
                            Some [("q.json"%string, MkDevFile None None); demo_file 1 "c"]] =
  run_dev demo_server None [Some [demo_file 1 "a"; ("q.json"%string, MkDevFile None None)]].
Proof.
  destruct (run_dev demo_server None [Some [demo_file 1 "a"; ("q.json"%string, MkDevFile None None)]]) as [st|] eqn:E;
    [|vm_compute in E; discriminate E].
  refine (idle_poll_changes_nothing demo_server None [] [demo_file 1 "a"; ("q.json"%string, MkDevFile None None)]
    [("q.json"%string, MkDevFile None None); demo_file 1 "c"] st _ _ E); [repeat constructor; set_solver|].
  apply perm_swap.
Defined.

(** A save within the grain of the clock is never noticed: the file holds no valid envelope
    any more, and no later poll says so. *)
Example quick_save_is_missed :
  option_map (λ st : dev_state, st.1.1.*2) (run_dev demo_server (Some [demo_file 1 "a"]) [Some [demo_file 1 "c"]]) = Some [Deployed "p" 1].
Proof. vm_compute. reflexivity. Qed.

(** A step that is no object ends the development server. *)
Example bad_step_ends_dev : run_dev demo_server (Some [demo_file 1 "d"]) [] = None.
Proof. vm_compute. reflexivity. Qed.
