(* ===== verification/Metrics.v ===== *)
(** [blitz-server/src/server.rs], what an operator reads of the server: the counters as a
    page in Prometheus' text format, the rate of slow responses, the uptime; and the
    counters of [blitz-observability/src/metrics.rs]. *)
From Stdlib Require Import SpecFloat.
From S2P Require Import Prelude Float Value Schema Core Codec Snapshot Wal GroupCommit Durability Tx Shard Query Window Changes Jobs Server Http.

Local Open Scope Z_scope.

(** ** Decimal text of a float *)

(** [{:.d}] of an [f64]: the exact number rounded to [d] decimals, ties to the even digit. *)
Definition scaled (d : Z) (m e : Z) : Z :=
  if 0 <=? e then m * 10 ^ d * 2 ^ e
  else
    let q := m * 10 ^ d / 2 ^ (- e) in
    let r := m * 10 ^ d mod 2 ^ (- e) in
    match 2 * r ?= 2 ^ (- e) with Lt => q | Gt => q + 1 | Eq => if Z.even q then q else q + 1 end.
Definition fixed_digits (d : nat) (n : Z) : list byte :=
  let whole := n / 10 ^ Z.of_nat d in
  dec_digits (num_digits 320 whole) whole ++ "."%byte :: dec_digits d (n mod 10 ^ Z.of_nat d).
Definition minus (s : bool) : list byte := if s then ["-"%byte] else [].
Definition fixed (d : nat) (b : Z) : string :=
  String.string_of_list_byte
    match f_decode F64 b with
    | S754_nan => str_bytes "NaN"
    | S754_infinity s => minus s ++ str_bytes "inf"
    | S754_zero s => minus s ++ fixed_digits d 0
    | S754_finite s m e => minus s ++ fixed_digits d (scaled (Z.of_nat d) (Z.pos m) e)
    end.

Example fixed_third : fixed 4 (f64_div (f64_of_Z 1) (f64_of_Z 3)) = "0.3333"%string.
Proof. vm_compute. reflexivity. Qed.
Example fixed_tie : fixed 1 (f64_div (f64_of_Z 1) (f64_of_Z 4)) = "0.2"%string.
Proof. vm_compute. reflexivity. Qed.
Example fixed_big : fixed 1 (f64_of_Z (-1234567)) = "-1234567.0"%string.
Proof. vm_compute. reflexivity. Qed.

(** ** The page *)

Section server.
Context `{PushChannel}.

Definition slow_rate (s : Server) : option Z :=
  if total_requests (sv_counters s) =? 0 then None
  else Some (f64_div (f64_of_Z (slow_responses (sv_counters s))) (f64_of_Z (total_requests (sv_counters s)))).

Definition wal_dropped (s : Server) : Z := wal_dropped_full (sv_counters s).
Definition fanout_pending_approx (s : Server) : Z * Z := (fanout_done (sv_counters s), fanout_dropped (sv_counters s)).

(** Whole milliseconds between two times in nanoseconds, as seconds. *)
Definition uptime_secs (s : Server) (now : Z) : option Z :=
  (λ t, f64_div (f64_of_Z (Z.quot (now - t) 1000000)) (f64_of_Z 1000)) <$> sv_started_at s.

(** The three lines of a metric. *)
Definition exposition (name help kind : string) (v : string) : string :=
  "# HELP " +:+ name +:+ " " +:+ help +:+ lf +:+ "# TYPE " +:+ name +:+ " " +:+ kind +:+ lf +:+ name +:+ " " +:+ v +:+ lf.

(** The metrics of the page, in its order: name, help, kind and value. *)
Definition metrics (s : Server) (connections shed_drops now : Z) : list (string * string * string * string) :=
  let st := stats s connections shed_drops in
  let slow := default (f64_of_Z 0) (slow_rate s) in
  let uptime := default (f64_of_Z 0) (uptime_secs s now) in
  [("blitz_connections", "live connections", "gauge", dec (st_connections st));
   ("blitz_requests_total", "dispatched frames", "counter", dec (st_total_requests st));
   ("blitz_slow_responses_total", "frames past slow_threshold", "counter", dec (st_slow_responses st));
   ("blitz_slow_rate", "slow/total", "gauge", fixed 4 slow);
   ("blitz_shed_drops_total", "shed at admission", "counter", dec (st_shed_drops st));
   ("blitz_wal_dropped_total", "WAL backpressure drops", "counter", dec (wal_dropped s));
   ("blitz_bytes_read_total", "TCP bytes read", "counter", dec (st_bytes_read st));
   ("blitz_bytes_written_total", "TCP bytes written", "counter", dec (st_bytes_written st));
   ("blitz_wal_bytes_total", "WAL bytes fsynced", "counter", dec (st_wal_bytes st));
   ("blitz_wal_ops_total", "WAL ops fsynced", "counter", dec (st_wal_ops st));
   ("blitz_active_tx", "active transactions (0: auto-commit TCP)", "gauge", dec (st_active_tx st));
   ("blitz_push_delivered_total", "stream pushes delivered", "counter", dec (st_subscription_fanout st));
   ("blitz_push_dropped_total", "slow push consumers evicted", "counter", dec (st_push_dropped st));
   ("blitz_fanout_done_total", "timeline rows materialized", "counter", dec (st_fanout_done st));
   ("blitz_fanout_dropped_total", "fanout jobs shed under pressure", "counter", dec (st_fanout_dropped st));
   ("blitz_uptime_seconds", "server uptime", "gauge", fixed 1 uptime)]%string.

Definition metrics_text (s : Server) (connections shed_drops now : Z) : string :=
  foldr (λ '(name, help, kind, v) rest, exposition name help kind v +:+ rest) EmptyString (metrics s connections shed_drops now).
End server.

(** ** What a scraper reads *)

(** Prometheus' text format, as far as the page uses it: a line is a comment, or a name
    and a value around the first space. *)
Definition sample_of (line : list byte) : option (list byte * list byte) :=
  match line with
  | b :: _ => if bool_decide (b = "#"%byte) then None else split_once " "%byte line
  | [] => None
  end.
Definition scrape (page : list byte) : list (list byte * list byte) := omap sample_of (lines page).

Lemma split_byte_line c l rest : c ∉ l → split_byte c (l ++ c :: rest) = l :: split_byte c rest.
Proof.
  induction l as [|b l IH]; intros N; cbn [app split_byte]; [by rewrite bool_decide_true|].
  apply not_elem_of_cons in N as [Nb N]. rewrite bool_decide_false by done. by rewrite IH.
Qed.

Lemma split_byte_cons c l : ∃ p ps, split_byte c l = p :: ps.
Proof.
  induction l as [|b l [p [ps E]]]; [by exists [], []|]. cbn [split_byte]. rewrite E. case_bool_decide; by do 2 eexists.
Qed.

(** A line ends where the next begins. *)
Lemma lines_cons l rest : Z_byte 10 ∉ l → Z_byte 13 ∉ l → lines (l ++ Z_byte 10 :: rest) = l :: lines rest.
Proof.
  intros N10 N13. assert (strip_cr l = l) as St.
  { unfold strip_cr. destruct (last l) as [b|] eqn:L; [|done]. rewrite bool_decide_false; [done|]. intros ->.
    apply N13. apply last_Some in L as [l' ->]. set_solver. }
  unfold lines. rewrite split_byte_line by done. destruct (split_byte_cons (Z_byte 10) rest) as (p & ps & E). rewrite E.
  change (last (l :: p :: ps)) with (last (p :: ps)). change (removelast (l :: p :: ps)) with (l :: removelast (p :: ps)).
  destruct (last (p :: ps)) as [[|b x]|] eqn:L; [|rewrite fmap_cons, St; done..|by apply last_None in L].
  by rewrite fmap_cons, St.
Qed.

Lemma scrape_cons l rest : Z_byte 10 ∉ l → Z_byte 13 ∉ l →
  scrape (l ++ Z_byte 10 :: rest) = option_list (sample_of l) ++ scrape rest.
Proof. intros. unfold scrape. rewrite lines_cons by done. cbn [omap list_omap]. by destruct (sample_of l). Qed.

Lemma split_once_at c l rest : c ∉ l → split_once c (l ++ c :: rest) = Some (l, rest).
Proof.
  induction l as [|b l IH]; intros N; cbn [app split_once]; [by rewrite bool_decide_true|].
  apply not_elem_of_cons in N as [Nb N]. rewrite bool_decide_false by done. by rewrite IH.
Qed.

(** Text of one line, and a name. *)
Definition one_line (l : list byte) : bool := forallb (λ b, negb (bool_decide (b ∈ [Z_byte 10; Z_byte 13]))) l.
Definition plain_name (l : list byte) : bool :=
  one_line l && negb (bool_decide (" "%byte ∈ l)) && match l with b :: _ => negb (bool_decide (b = "#"%byte)) | [] => false end.

Lemma one_line_spec l : one_line l = true → Z_byte 10 ∉ l ∧ Z_byte 13 ∉ l.
Proof.
  unfold one_line. rewrite forallb_forall. intros F. split; intros I%list_elem_of_In%F; by vm_compute in I.
Qed.

Lemma one_line_app a b : one_line (a ++ b) = one_line a && one_line b.
Proof. apply forallb_app. Qed.

Lemma scrape_exposition name help kind v rest :
  plain_name (str_bytes name) = true → one_line (str_bytes help) = true → one_line (str_bytes kind) = true →
  one_line (str_bytes v) = true →
  scrape (str_bytes (exposition name help kind v +:+ rest)) = (str_bytes name, str_bytes v) :: scrape (str_bytes rest).
Proof.
  intros [[Ln Ns]%andb_true_iff Nh]%andb_true_iff Lh Lk Lv.
  assert (str_bytes (exposition name help kind v +:+ rest) =
    (str_bytes "# HELP " ++ str_bytes name ++ str_bytes " " ++ str_bytes help) ++ Z_byte 10 ::
    (str_bytes "# TYPE " ++ str_bytes name ++ str_bytes " " ++ str_bytes kind) ++ Z_byte 10 ::
    (str_bytes name ++ " "%byte :: str_bytes v) ++ Z_byte 10 :: str_bytes rest) as ->.
  { unfold exposition. rewrite !str_bytes_app. rewrite <- !app_assoc. reflexivity. }
  rewrite !scrape_cons; try (apply one_line_spec; change (" "%byte :: str_bytes v) with (str_bytes " " ++ str_bytes v);
    rewrite !one_line_app, ?Ln, ?Lh, ?Lk, ?Lv; reflexivity).
  change (sample_of (str_bytes "# HELP " ++ str_bytes name ++ str_bytes " " ++ str_bytes help)) with (@None (list byte * list byte)).
  change (sample_of (str_bytes "# TYPE " ++ str_bytes name ++ str_bytes " " ++ str_bytes kind)) with (@None (list byte * list byte)).
  cbn [option_list app]. assert (sample_of (str_bytes name ++ " "%byte :: str_bytes v) = Some (str_bytes name, str_bytes v)) as ->; [|done].
  unfold sample_of. apply negb_true_iff, bool_decide_eq_false in Ns. destruct (str_bytes name) as [|b n] eqn:E; [done|].
  cbn [app]. apply negb_true_iff in Nh. rewrite Nh. change (b :: n ++ ?x) with ((b :: n) ++ x). by rewrite split_once_at.
Qed.

(** *** The values *)

Definition in_u64 (n : Z) : Prop := 0 <= n < 2 ^ 64.

Lemma wrap_u64 n : in_u64 (wrap 64 n).
Proof. apply wrap_range. lia. Qed.

Lemma dec_parse n : in_u64 n → parse_u64 (str_bytes (dec n)) = Some n.
Proof.
  intros Hn. unfold dec. rewrite str_bytes_of. pose proof (num_digits_bound 19 n) as B.
  change (10 ^ Z.of_nat 20) with (10 ^ 20) in B. unfold in_u64 in Hn. specialize (B ltac:(lia)).
  pose proof (num_digits_pos 19 n) as P. destruct (num_digits 19 n) as [|k]; [lia|]. apply parse_u64_dec; lia.
Qed.

Lemma digits_one_line k n : one_line (dec_digits k n) = true.
Proof.
  unfold one_line. apply forallb_forall. intros b I. pose proof (dec_digits_digits k n) as F.
  rewrite Forall_forall in F. specialize (F b (proj2 (list_elem_of_In _ _) I)). clear I.
  destruct b; vm_compute in F; try discriminate F; reflexivity.
Qed.

Lemma dec_line n : one_line (str_bytes (dec n)) = true.
Proof. unfold dec. rewrite str_bytes_of. apply digits_one_line. Qed.

Lemma parse_digits_digits l : ∀ acc n, parse_digits acc l = Some n → Forall (λ b, is_Some (digit_of b)) l.
Proof.
  induction l as [|b l IH]; intros acc n; [constructor|]. cbn [parse_digits]. destruct (digit_of b) as [d|] eqn:D; [|done].
  cbn [mbind option_bind]. cbv zeta. destruct (_ <? _); [|done]. intros E. constructor; [by rewrite D|]. by eapply IH.
Qed.

Lemma parse_u64_no_dot l : "."%byte ∈ l → parse_u64 l = None.
Proof.
  intros I. assert (∀ acc l, "."%byte ∈ l → parse_digits acc l = None) as N.
  { intros acc l' I'. destruct (parse_digits acc l') as [n|] eqn:E; [|done]. apply parse_digits_digits in E.
    rewrite Forall_forall in E. apply E in I'. by destruct I'. }
  unfold parse_u64. destruct l as [|b l]; [done|]. case_bool_decide as Eb; [|by apply N].
  subst b. apply elem_of_cons in I as [?|I]; [done|]. destruct l; [done|]. by apply N.
Qed.

Lemma fixed_text d b : one_line (str_bytes (fixed d b)) = true ∧ parse_u64 (str_bytes (fixed d b)) = None.
Proof.
  unfold fixed. rewrite str_bytes_of.
  assert (∀ s n, one_line (minus s ++ fixed_digits d n) = true ∧ parse_u64 (minus s ++ fixed_digits d n) = None) as D.
  { intros s n. unfold fixed_digits. cbv zeta. split.
    - change ("."%byte :: ?x) with (["."%byte] ++ x). rewrite !one_line_app, !digits_one_line. by destruct s.
    - apply parse_u64_no_dot. rewrite !elem_of_app. right. right. by left. }
  destruct (f_decode F64 b) as [s|s| |s m e]; [apply D|by destruct s|done|apply D].
Qed.

#[local] Opaque fixed dec parse_u64.

Section server.
Context `{PushChannel}.
Implicit Types s : Server.

Lemma scrape_metrics (ms : list (string * string * string * string)) :
  Forall (λ m, plain_name (str_bytes m.1.1.1) = true ∧ one_line (str_bytes m.1.1.2) = true ∧
            one_line (str_bytes m.1.2) = true ∧ one_line (str_bytes m.2) = true) ms →
  scrape (str_bytes (foldr (λ '(name, help, kind, v) rest, exposition name help kind v +:+ rest) EmptyString ms)) =
    (λ m, (str_bytes m.1.1.1, str_bytes m.2)) <$> ms.
Proof.
  induction 1 as [|[[[name help] kind] v] ms (N & L1 & L2 & L3) _ IH]; [done|]. cbn [foldr]. cbn [fst snd] in *.
  by rewrite scrape_exposition, IH.
Qed.

Definition counters_ok s (connections shed_drops : Z) : Prop :=
  let k := sv_counters s in
  Forall in_u64 [connections; shed_drops; total_requests k; slow_responses k; bytes_read k; bytes_written k; wal_dropped_full k;
    fanout_done k; fanout_dropped k; push_delivered (sv_realtime s); push_dropped (sv_realtime s)].

(** The integers among some samples. *)
Definition integers (samples : list (list byte * list byte)) : list (string * Z) :=
  omap (λ nv, n ← parse_u64 nv.2; Some (String.string_of_list_byte nv.1, n)) samples.

Lemma integers_dec name n l : in_u64 n → integers ((str_bytes name, str_bytes (dec n)) :: l) = (name, n) :: integers l.
Proof.
  intros Hn. unfold integers. cbn [omap list_omap fst snd]. rewrite dec_parse by exact Hn. cbn [mbind option_bind].
  by rewrite String.string_of_list_byte_of_string.
Qed.
Lemma integers_fixed name d b l : integers ((str_bytes name, str_bytes (fixed d b)) :: l) = integers l.
Proof. unfold integers. cbn [omap list_omap fst snd]. by rewrite (proj2 (fixed_text d b)). Qed.

(** The page says what the server counts: a scraper that reads it as Prometheus' text
    format finds sixteen samples, of which the fourteen integers are, under their names,
    exactly the server's counters; the two others are the rate of slow responses and the
    uptime, in decimals. *)
Theorem metrics_page_reads_back s connections shed_drops now :
  counters_ok s connections shed_drops →
  let page := scrape (str_bytes (metrics_text s connections shed_drops now)) in
  let st := stats s connections shed_drops in
  length page = 16%nat ∧
  integers page =
    [("blitz_connections", connections); ("blitz_requests_total", st_total_requests st);
     ("blitz_slow_responses_total", st_slow_responses st); ("blitz_shed_drops_total", shed_drops);
     ("blitz_wal_dropped_total", wal_dropped s); ("blitz_bytes_read_total", st_bytes_read st);
     ("blitz_bytes_written_total", st_bytes_written st); ("blitz_wal_bytes_total", st_wal_bytes st);
     ("blitz_wal_ops_total", st_wal_ops st); ("blitz_active_tx", 0);
     ("blitz_push_delivered_total", push_delivered (sv_realtime s)); ("blitz_push_dropped_total", push_dropped (sv_realtime s));
     ("blitz_fanout_done_total", (fanout_pending_approx s).1); ("blitz_fanout_dropped_total", (fanout_pending_approx s).2)]%string.
Proof.
  intros K page st. unfold counters_ok in K. cbv zeta in K. rewrite !Forall_cons in K.
  destruct K as (K1 & K2 & K3 & K4 & K5 & K6 & K7 & K8 & K9 & K10 & K11 & _).
  assert (page = (λ m, (str_bytes m.1.1.1, str_bytes m.2)) <$> metrics s connections shed_drops now) as ->.
  { apply scrape_metrics. unfold metrics. cbv zeta. generalize (stats s connections shed_drops), (slow_rate s), (uptime_secs s now), (wal_dropped s).
    intros t slow up dropped.
    repeat lazymatch goal with
           | |- Forall _ (_ :: _) =>
               apply Forall_cons_2; [cbn [fst snd]; split; [reflexivity|split; [reflexivity|split; [reflexivity|]]]|]
           | |- one_line (str_bytes (dec _)) = true => apply dec_line
           | |- one_line (str_bytes (fixed _ _)) = true => apply fixed_text
           | |- Forall _ [] => apply Forall_nil_2
           end. }
  split; [done|]. unfold metrics, st, stats, fanout_pending_approx, wal_dropped. cbv zeta.
  set (bytes := wrap 64 (foldr (λ g n, bytes_flushed g + n) 0 _)). set (ops := wrap 64 (foldr (λ g n, ops_flushed g + n) 0 _)).
  assert (in_u64 bytes ∧ in_u64 ops) as [W1 W2] by (split; apply wrap_u64). clearbody bytes ops.
  assert (in_u64 0) as W0 by (unfold in_u64; lia).
  cbn [st_connections st_total_requests st_slow_responses st_shed_drops st_bytes_read st_bytes_written st_active_tx
    st_subscription_fanout st_push_dropped st_fanout_done st_fanout_dropped st_wal_bytes st_wal_ops].
  rewrite !fmap_cons. cbn [fst snd].
  repeat lazymatch goal with
         | |- integers ((_, str_bytes (dec _)) :: _) = _ => etransitivity; [apply integers_dec; assumption|f_equal]
         | |- integers ((_, str_bytes (fixed _ _)) :: _) = _ => etransitivity; [apply integers_fixed|]
         end.
  reflexivity.
Qed.
End server.

(** ** [blitz-observability]: the collector *)

Record MetricsCollector : Type := MkCollector {
  mc_inserts : Z;
  mc_reads : Z;
  mc_updates : Z;
  mc_deletes : Z;
  mc_committed : Z;
  mc_rolled_back : Z;
  mc_queries : Z;
  mc_index_lookups : Z;
  mc_custom : gmap string Z
}.
Definition MetricsCollector_new : MetricsCollector := MkCollector 0 0 0 0 0 0 0 0 ∅.

Implicit Types m : MetricsCollector.

Definition record_insert m : MetricsCollector :=
  MkCollector (wrap 64 (mc_inserts m + 1)) (mc_reads m) (mc_updates m) (mc_deletes m) (mc_committed m)
    (mc_rolled_back m) (mc_queries m) (mc_index_lookups m) (mc_custom m).
Definition record_read m : MetricsCollector :=
  MkCollector (mc_inserts m) (wrap 64 (mc_reads m + 1)) (mc_updates m) (mc_deletes m) (mc_committed m)
    (mc_rolled_back m) (mc_queries m) (mc_index_lookups m) (mc_custom m).
Definition record_update m : MetricsCollector :=
  MkCollector (mc_inserts m) (mc_reads m) (wrap 64 (mc_updates m + 1)) (mc_deletes m) (mc_committed m)
    (mc_rolled_back m) (mc_queries m) (mc_index_lookups m) (mc_custom m).
Definition record_delete m : MetricsCollector :=
  MkCollector (mc_inserts m) (mc_reads m) (mc_updates m) (wrap 64 (mc_deletes m + 1)) (mc_committed m)
    (mc_rolled_back m) (mc_queries m) (mc_index_lookups m) (mc_custom m).
Definition record_transaction_commit m : MetricsCollector :=
  MkCollector (mc_inserts m) (mc_reads m) (mc_updates m) (mc_deletes m) (wrap 64 (mc_committed m + 1))
    (mc_rolled_back m) (mc_queries m) (mc_index_lookups m) (mc_custom m).
Definition record_transaction_rollback m : MetricsCollector :=
  MkCollector (mc_inserts m) (mc_reads m) (mc_updates m) (mc_deletes m) (mc_committed m)
    (wrap 64 (mc_rolled_back m + 1)) (mc_queries m) (mc_index_lookups m) (mc_custom m).
Definition record_query m : MetricsCollector :=
  MkCollector (mc_inserts m) (mc_reads m) (mc_updates m) (mc_deletes m) (mc_committed m)
    (mc_rolled_back m) (wrap 64 (mc_queries m + 1)) (mc_index_lookups m) (mc_custom m).
Definition record_index_lookup m : MetricsCollector :=
  MkCollector (mc_inserts m) (mc_reads m) (mc_updates m) (mc_deletes m) (mc_committed m)
    (mc_rolled_back m) (mc_queries m) (wrap 64 (mc_index_lookups m + 1)) (mc_custom m).

Definition get_counter m (name : string) : Z := default 0 (mc_custom m !! name).
Definition increment_counter m (name : string) : MetricsCollector :=
  MkCollector (mc_inserts m) (mc_reads m) (mc_updates m) (mc_deletes m) (mc_committed m) (mc_rolled_back m)
    (mc_queries m) (mc_index_lookups m) (<[name := wrap 64 (get_counter m name + 1)]> (mc_custom m)).

(** [MetricsSnapshot] has the collector's fields, read one after the other; [reset] clears
    them all. *)
Record MetricsSnapshot : Type := MkMetricsSnapshot { ms_counters : list Z; ms_custom : gmap string Z }.
Definition snapshot m : MetricsSnapshot :=
  MkMetricsSnapshot [mc_inserts m; mc_reads m; mc_updates m; mc_deletes m; mc_committed m; mc_rolled_back m; mc_queries m;
    mc_index_lookups m] (mc_custom m).
Definition reset m : MetricsCollector := MetricsCollector_new.

(** What a program reports. *)
Inductive metric_event : Type :=
| Recorded (kind : nat)
| Incremented (name : string)
| Reset.
#[export] Instance metric_event_eq_dec : EqDecision metric_event.
Proof. solve_decision. Defined.

Definition recorders : list (MetricsCollector → MetricsCollector) :=
  [record_insert; record_read; record_update; record_delete; record_transaction_commit; record_transaction_rollback;
   record_query; record_index_lookup].
Definition observe m (e : metric_event) : MetricsCollector :=
  match e with
  | Recorded kind => match recorders !! kind with Some record => record m | None => m end
  | Incremented name => increment_counter m name
  | Reset => reset m
  end.
Definition occurrences (e : metric_event) (l : list metric_event) : Z := Z.of_nat (length (filter (λ x, x = e) l)).
Definition since_reset (l : list metric_event) : list metric_event :=
  foldl (λ l e, if decide (e = Reset) then [] else l ++ [e]) [] l.

Lemma occurrences_snoc e l x : occurrences e (l ++ [x]) = occurrences e l + if decide (x = e) then 1 else 0.
Proof. unfold occurrences. rewrite filter_app, length_app, filter_cons, filter_nil. case_decide; cbn; lia. Qed.

Lemma wrap_succ n : wrap 64 (wrap 64 n + 1) = wrap 64 (n + 1).
Proof. unfold wrap. by rewrite Zplus_mod_idemp_l. Qed.

(** Each recorder adds one to the counter of its place, and leaves the others. *)
Lemma recorded kind record m : recorders !! kind = Some record →
  ms_counters (snapshot (record m)) = alter (λ n, wrap 64 (n + 1)) kind (ms_counters (snapshot m)) ∧ mc_custom (record m) = mc_custom m.
Proof. intros E. do 8 (destruct kind as [|kind]; [injection E as <-; done|]). done. Qed.

Lemma recorders_known kind : (kind < 8)%nat → ∃ record, recorders !! kind = Some record.
Proof. intros K. apply lookup_lt_is_Some_2. exact K. Qed.

Lemma new_counters kind name : let m := MetricsCollector_new in
  ((kind < 8)%nat → ms_counters (snapshot m) !! kind = Some 0) ∧ get_counter m name = 0.
Proof.
  split; [|unfold get_counter; cbn; by rewrite lookup_empty].
  intros K. do 8 (destruct kind as [|kind]; [done|]). lia.
Qed.

(** The collector counts. Whatever was reported, each of its eight counters is the number
    of reports of its kind since the last reset, and each named counter the number of its
    increments since then, as a [u64] counts them. *)
Theorem collector_counts (l : list metric_event) (kind : nat) (name : string) :
  let m := foldl observe MetricsCollector_new l in
  ((kind < 8)%nat → ms_counters (snapshot m) !! kind = Some (wrap 64 (occurrences (Recorded kind) (since_reset l)))) ∧
  get_counter m name = wrap 64 (occurrences (Incremented name) (since_reset l)).
Proof.
  induction l as [|e l IH] using rev_ind; [apply new_counters|].
  rewrite foldl_snoc. cbv zeta in *. unfold since_reset in *. rewrite foldl_snoc. set (m := foldl observe _ l) in *.
  destruct IH as [IHk IHn]. destruct (decide (e = Reset)) as [->|NR]; [apply new_counters|].
  rewrite !occurrences_snoc. destruct e as [kind'|name'|]; [..|done]; cbn [observe].
  - rewrite (decide_False (P := Recorded kind' = Incremented name)), Z.add_0_r by done.
    destruct (recorders !! kind') as [record|] eqn:R.
    + destruct (recorded kind' record m R) as [-> Ec]. split; [|unfold get_counter in *; by rewrite Ec].
      intros K. specialize (IHk K). destruct (decide (kind' = kind)) as [->|N].
      * rewrite list_lookup_alter_eq, IHk, decide_True by done. cbn. by rewrite wrap_succ.
      * rewrite list_lookup_alter_ne, IHk, decide_False by congruence. by rewrite Z.add_0_r.
    + split; [|done]. intros K. rewrite decide_False, Z.add_0_r; [by apply IHk|]. intros [= ->].
      destruct (recorders_known kind K). congruence.
  - rewrite (decide_False (P := Incremented name' = Recorded kind)), Z.add_0_r by done. split; [exact IHk|].
    unfold get_counter at 1. cbn [increment_counter mc_custom]. destruct (decide (name' = name)) as [->|N].
    + rewrite lookup_insert_eq, decide_True by done. cbn [default from_option]. change (id ?x) with x. by rewrite IHn, wrap_succ.
    + rewrite lookup_insert_ne, decide_False, Z.add_0_r by congruence. exact IHn.
Qed.

Lemma metrics_page_reads_back_witness :
  let s := record_io (record_request (Server_new (H := demo_channel) ServerConfig_default ∅) true) 10 (2 ^ 64 - 1) in
  counters_ok s 7 2 ∧
  firstn 4 (integers (scrape (str_bytes (metrics_text s 7 2 1000)))) =
    [("blitz_connections", 7); ("blitz_requests_total", 1); ("blitz_slow_responses_total", 1); ("blitz_shed_drops_total", 2)]%string.
Proof.
  cbv zeta. set (s := record_io _ _ _).
  assert (counters_ok s 7 2) as K by (repeat constructor; vm_compute; discriminate). split; [exact K|].
  destruct (metrics_page_reads_back s 7 2 1000 K) as [_ ->]. vm_compute. reflexivity.
Defined.

Example page_rates :
  let s := record_request (record_request (record_request (with_started_at (Server_new (H := demo_channel) ServerConfig_default ∅) (Some 0)) true) false) false in
  (slow_rate (with_counters s (MkCounters 0 0 0 0 0 0 0)), fixed 4 (default 0 (slow_rate s)), fixed 1 (default 0 (uptime_secs s 1250000000))) =
    (None, "0.3333", "1.2")%string.
Proof. vm_compute. reflexivity. Qed.
