(* ===== verification/Api.v ===== *)
(** What other programs embed of the library: the router of [blitz-api/src/handler.rs], the
    conversions into and out of a [Value] ([blitz-types/src/value.rs]), and the identifiers
    of [blitz-types/src/id.rs]. *)
From S2P Require Import Prelude Float Value Schema Core Codec Snapshot Wal GroupCommit Durability Shard.

Local Open Scope Z_scope.

(** ** The router *)

Inductive HttpMethod : Type := MGet | MPost | MPut | MDelete.
#[export] Instance HttpMethod_eq_dec : EqDecision HttpMethod.
Proof. solve_decision. Defined.
Definition method_as_str (m : HttpMethod) : string :=
  match m with MGet => "GET" | MPost => "POST" | MPut => "PUT" | MDelete => "DELETE" end.

Record ApiRequest : Type := MkApiRequest {
  ar_method : HttpMethod;
  ar_path : string;
  ar_params : values;
  ar_body : option value;
  ar_headers : gmap string string
}.
Definition request_get (path : string) : ApiRequest := MkApiRequest MGet path ∅ None ∅.
Definition request_post (path : string) (body : value) : ApiRequest := MkApiRequest MPost path ∅ (Some body) ∅.
Definition request_put (path : string) (body : value) : ApiRequest := MkApiRequest MPut path ∅ (Some body) ∅.
Definition request_delete (path : string) : ApiRequest := MkApiRequest MDelete path ∅ None ∅.
Definition with_param (r : ApiRequest) (k : string) (v : value) : ApiRequest :=
  MkApiRequest (ar_method r) (ar_path r) (<[k := v]> (ar_params r)) (ar_body r) (ar_headers r).
Definition with_header (r : ApiRequest) (k v : string) : ApiRequest :=
  MkApiRequest (ar_method r) (ar_path r) (ar_params r) (ar_body r) (<[k := v]> (ar_headers r)).
Definition method_str (r : ApiRequest) : string := method_as_str (ar_method r).

Record ApiResponse : Type := MkApiResponse { ap_status : Z; ap_body : option value; ap_error : option string }.
Definition response_ok (body : value) : ApiResponse := MkApiResponse 200 (Some body) None.
Definition response_created (body : value) : ApiResponse := MkApiResponse 201 (Some body) None.
Definition response_no_content : ApiResponse := MkApiResponse 204 None None.
Definition response_bad_request (e : string) : ApiResponse := MkApiResponse 400 None (Some e).
Definition response_not_found (e : string) : ApiResponse := MkApiResponse 404 None (Some e).
Definition response_internal (e : string) : ApiResponse := MkApiResponse 500 None (Some e).

Record Route : Type := MkRoute { rt_method : HttpMethod; rt_path : string; rt_handler : ApiRequest → ApiResponse }.
Abbreviation ApiHandler := (list Route).
Definition ApiHandler_new : ApiHandler := [].
Definition handler_get (h : ApiHandler) (path : string) (f : ApiRequest → ApiResponse) : ApiHandler := h ++ [MkRoute MGet path f].
Definition handler_post (h : ApiHandler) (path : string) (f : ApiRequest → ApiResponse) : ApiHandler := h ++ [MkRoute MPost path f].
Definition handler_put (h : ApiHandler) (path : string) (f : ApiRequest → ApiResponse) : ApiHandler := h ++ [MkRoute MPut path f].
Definition handler_delete (h : ApiHandler) (path : string) (f : ApiRequest → ApiResponse) : ApiHandler := h ++ [MkRoute MDelete path f].

Fixpoint handle (h : ApiHandler) (r : ApiRequest) : ApiResponse :=
  match h with
  | [] => response_not_found ("no route for " +:+ method_str r +:+ " " +:+ ar_path r)
  | rt :: h => if bool_decide (rt_method rt = ar_method r) && bool_decide (rt_path rt = ar_path r) then rt_handler rt r else handle h r
  end.
Definition route_count (h : ApiHandler) : nat := length h.

(** The router as a table, from method and path to the first handler registered there. *)
Definition route_table (h : ApiHandler) : gmap (string * string) (ApiRequest → ApiResponse) :=
  foldr (λ rt t, <[(method_as_str (rt_method rt), rt_path rt) := rt_handler rt]> t) ∅ h.

Lemma method_name_inj a b : method_as_str a = method_as_str b → a = b.
Proof. by destruct a, b. Qed.

(** The router is a table: a request is answered by the handler first registered for its
    method and path, whatever was registered since, and refused with its method and path
    in a 404 when there is none. *)
Theorem handle_is_table_lookup h r :
  handle h r = match route_table h !! (method_str r, ar_path r) with
               | Some f => f r
               | None => response_not_found ("no route for " +:+ method_str r +:+ " " +:+ ar_path r)
               end ∧
  (∀ rt, is_Some (route_table h !! (method_as_str (rt_method rt), rt_path rt)) → route_table (h ++ [rt]) = route_table h).
Proof.
  split.
  - induction h as [|rt h IH]; [cbn [handle route_table foldr]; by rewrite lookup_empty|]. cbn [handle route_table foldr]. unfold method_str in *.
    destruct (decide ((method_as_str (rt_method rt), rt_path rt) = (method_as_str (ar_method r), ar_path r))) as [E|N].
    + rewrite E, lookup_insert_eq. injection E as Em Ep. apply method_name_inj in Em. by rewrite !bool_decide_true.
    + rewrite lookup_insert_ne by done. destruct (bool_decide (rt_method rt = ar_method r)) eqn:Em; [|exact IH].
      apply bool_decide_eq_true in Em. rewrite bool_decide_false; [exact IH|]. intros Ep. apply N. by rewrite Em, Ep.
  - intros rt. induction h as [|r0 h IH]; [cbn [route_table foldr]; rewrite lookup_empty; by intros []|].
    cbn [app route_table foldr]. intros S. fold (route_table h) in *. fold (route_table (h ++ [rt])).
    destruct (decide ((method_as_str (rt_method r0), rt_path r0) = (method_as_str (rt_method rt), rt_path rt))) as [E|N].
    + clear IH S. rewrite E. apply map_eq. intros k. destruct (decide (k = (method_as_str (rt_method rt), rt_path rt))) as [->|Nk];
        [by rewrite !lookup_insert_eq|]. rewrite !lookup_insert_ne by done. induction h as [|r1 h IH]; [by apply lookup_insert_ne|].
      cbn [app route_table foldr]. fold (route_table h) in *. fold (route_table (h ++ [rt])).
      destruct (decide (k = (method_as_str (rt_method r1), rt_path r1))) as [->|N1]; [by rewrite !lookup_insert_eq|].
      rewrite !lookup_insert_ne by done. exact IH.
    + f_equal. apply IH. by rewrite lookup_insert_ne in S.
Qed.

(** ** Conversions *)

(** What a [Value] is built from with [From]: Rust's types, by name. *)
Inductive native : Type :=
| Nbool (b : bool)
| Ni8 (n : Z) | Ni16 (n : Z) | Ni32 (n : Z) | Ni64 (n : Z)
| Nu8 (n : Z) | Nu16 (n : Z) | Nu32 (n : Z) | Nu64 (n : Z)
| Nf32 (bits : Z) | Nf64 (bits : Z)
| NString (s : string) | Nstr (s : string)
| NVec_u8 (b : list byte)
| NUuid (u : list byte)
| NDateTime (t : Z) | NNaiveDate (d : Z)
| Njson (j : json).

Definition value_from (x : native) : value :=
  match x with
  | Nbool b => VBoolean b
  | Ni8 n => VInt8 n | Ni16 n => VInt16 n | Ni32 n => VInt32 n | Ni64 n => VInt64 n
  | Nu8 n => VUInt8 n | Nu16 n => VUInt16 n | Nu32 n => VUInt32 n | Nu64 n => VUInt64 n
  | Nf32 bits => VFloat32 bits | Nf64 bits => VFloat64 bits
  | NString s | Nstr s => VString s
  | NVec_u8 b => VBytes b
  | NUuid u => VUuid u
  | NDateTime t => VTimestamp t | NNaiveDate d => VDate d
  | Njson j => VJson j
  end.

Section conversions.
Context `{ValueText}.

(** [From<Value> for serde_json::Value] *)
Fixpoint value_into_json (v : value) : json :=
  match v with
  | VBoolean b => JBool b
  | VInt8 n | VInt16 n | VInt32 n | VInt64 n => json_of_i64 n
  | VUInt8 n | VUInt16 n | VUInt32 n | VUInt64 n => json_of_u64 n
  | VFloat32 n => json_of_f32 n
  | VFloat64 n => json_of_f64 n
  | VDecimal s => JString s
  | VString s => JString s
  | VBytes b => JArray ((λ x, json_of_u64 (byte_Z x)) <$> b)
  | VUuid u => JString (uuid_to_string u)
  | VTimestamp t => JString (to_rfc3339 t)
  | VDate d => JString (date_to_string d)
  | VJson j => j
  | VArray a => JArray (value_into_json <$> a)
  | VNull => JNull
  end.

(** The payloads of the write-ahead log and this conversion are one function, written
    twice. *)
Lemma value_into_json_is_payload v : value_into_json v = value_to_json v.
Proof. reflexivity. Qed.
End conversions.

(** What is converted into a value is read back from it unchanged. *)
Lemma value_from_reads_back x :
  match x with
  | Nbool b => as_bool (value_from x) = Some b
  | Ni8 n | Ni16 n | Ni32 n | Ni64 n => as_i64 (value_from x) = Some n
  | Nu8 n | Nu16 n | Nu32 n | Nu64 n => as_u64 (value_from x) = Some n
  | Nf64 b => as_f64 (value_from x) = Some b
  | NString s | Nstr s => as_str (value_from x) = Some s
  | _ => True
  end.
Proof. by destruct x. Qed.

(** ** Identifiers *)

Class UuidText : Type := { parse_str : string → result string (list byte); new_v4 : nat → list byte }.

Record TableId : Type := MkTableId { table_uuid : list byte }.
Record IndexId : Type := MkIndexId { index_uuid : list byte }.
Record RowId : Type := MkRowId { row_number : Z }.
Record TransactionId : Type := MkTransactionId { tx_number : Z }.

Section ids.
Context `{ValueText} `{UuidText}.

(** [new] draws the next random uuid. *)
Definition TableId_new (draw : nat) : TableId := MkTableId (new_v4 draw).
Definition IndexId_new (draw : nat) : IndexId := MkIndexId (new_v4 draw).
Definition TableId_fmt (t : TableId) : string := uuid_to_string (table_uuid t).
Definition IndexId_fmt (i : IndexId) : string := uuid_to_string (index_uuid i).
Definition TableId_from_str (s : string) : result type_error TableId := MkTableId <$> map_err InvalidId (parse_str s).

Definition RowId_next (r : RowId) : RowId := MkRowId (wrap 64 (row_number r + 1)).
Definition RowId_fmt (r : RowId) : string := dec (row_number r).
Definition TransactionId_fmt (t : TransactionId) : string := "tx-" +:+ dec (tx_number t).

(** A table id printed is the id parsed. *)
Lemma table_id_roundtrip (t : TableId) :
  parse_str (uuid_to_string (table_uuid t)) = Ok (table_uuid t) → TableId_from_str (TableId_fmt t) = Ok t.
Proof. intros E. unfold TableId_from_str, TableId_fmt. rewrite E. by destruct t. Qed.
End ids.

(** A row id after the last is the first one again. *)
Example row_ids_wrap : RowId_next (MkRowId (2 ^ 64 - 1)) = MkRowId 0.
Proof. reflexivity. Qed.
