(* ===== verification/Index.v ===== *)
(** The secondary indexes: [HashIndex] and [BTreeIndex] of [blitz-index], and the
    [HashIndex] of [blitz-core/src/index.rs]. Both maps from values to row ids are used
    through one interface, [Postings]; an index is shown to be the list of the
    (value, row id) pairs that were put into it and not taken out. *)
From S2P Require Import Prelude Float Value HashMap Sort Schema Core Snapshot Durability Runtime.

Local Open Scope Z_scope.

Inductive index_error : Type :=
| IndexNotFound (name : string)
| IndexDuplicateKey (shown : string)
| IndexInternal (why : string).

(** ** Maps from values to row ids *)

(** What an index asks of its map: [get], the [entry]/[get_mut] that puts a list under
    a key (keeping the key that is there), [remove], and the entries. *)
Class Postings (M : Type) : Type := {
  ps_empty : M;
  ps_get : M → value → option (list Z);
  ps_put : M → value → list Z → M;
  ps_del : M → value → M;
  ps_entries : M → list (value * list Z)
}.

(** Its contract: [same] is the test under which two keys meet, [inv] what the map keeps. *)
Class PostingsLaws (M : Type) `{Postings M} (same : value → value → bool) (inv : M → Prop) : Prop := {
  same_sym v w : same v w = same w v;
  same_trans u v w : same u v = true → same v w = same u w;
  inv_empty : inv ps_empty;
  inv_put m v x : inv m → inv (ps_put m v x);
  inv_del m v : inv m → inv (ps_del m v);
  get_empty v : ps_get ps_empty v = None;
  get_put m v x w : inv m → ps_get (ps_put m v x) w = if same v w then Some x else ps_get m w;
  get_del m v w : inv m → ps_get (ps_del m v) w = if same v w then None else ps_get m w;
  entries_empty : ps_entries ps_empty = [];
  put_new m v x : ps_get m v = None → ps_entries (ps_put m v x) ≡ₚ (v, x) :: ps_entries m;
  put_old m v x y : ps_get m v = Some y →
    ∃ k rest, ps_entries m ≡ₚ (k, y) :: rest ∧ ps_entries (ps_put m v x) ≡ₚ (k, x) :: rest;
  del_old m v y : ps_get m v = Some y →
    ∃ k rest, ps_entries m ≡ₚ (k, y) :: rest ∧ ps_entries (ps_del m v) ≡ₚ rest
}.

(** ** The operations every index shares *)

Section index.
Context {M : Type} `{Postings M}.
Implicit Types (m : M) (v : value) (id : Z).

(** [self.entries.entry(value).or_default().push(row_id)] *)
Definition push_entry m v id : M := ps_put m v (default [] (ps_get m v) ++ [id]).

(** [self.entries.get(value).cloned().unwrap_or_default()] *)
Definition lookup_entry m v : list Z := default [] (ps_get m v).

(** [ids.retain(..)], then dropping an empty list. *)
Definition remove_entry m v id : M :=
  match ps_get m v with
  | Some ids =>
      match filter (λ i, i ≠ id) ids with
      | [] => ps_del m v
      | ids => ps_put m v ids
      end
  | None => m
  end.

Definition entries_len m : nat := sum_list (length <$> (ps_entries m).*2).
End index.

(** ** The list of pairs an index stands for *)

Abbreviation pairs := (list (value * Z)).

Lemma filter_all {A} (Q : A → Prop) `{∀ x, Decision (Q x)} (l : list A) :
  Forall Q l → filter Q l = l.
Proof. induction 1 as [|x l Qx _ IH]; [done|]. by rewrite filter_cons, decide_True, IH. Qed.

Lemma filter_no {A} (Q : A → Prop) `{∀ x, Decision (Q x)} (l : list A) :
  Forall (λ x, ¬ Q x) l → filter Q l = [].
Proof. induction 1 as [|x l Qx _ IH]; [done|]. by rewrite filter_cons, decide_False, IH. Qed.

Section pairs.
Context (same : value → value → bool).
Implicit Types (P : pairs) (v : value) (id : Z).

Definition pairs_lookup P v : list Z := (filter (λ p, same p.1 v = true) P).*2.
Definition pairs_insert P v id : pairs := P ++ [(v, id)].
Definition pairs_remove P v id : pairs := filter (λ p, ¬ (same p.1 v = true ∧ p.2 = id)) P.

Lemma pairs_lookup_insert P v id w :
  pairs_lookup (pairs_insert P v id) w = pairs_lookup P w ++ (if same v w then [id] else []).
Proof.
  unfold pairs_lookup, pairs_insert. rewrite filter_app, fmap_app. f_equal.
  rewrite filter_cons, filter_nil. cbn [fst]. by destruct (same v w).
Qed.

Lemma length_pairs P v :
  length P = (length (pairs_lookup P v) + length (filter (λ p, same p.1 v ≠ true) P))%nat.
Proof.
  unfold pairs_lookup. rewrite length_fmap. induction P as [|p P IH]; [done|].
  rewrite !filter_cons. destruct (decide (same p.1 v = true)), (decide (same p.1 v ≠ true));
    try done; cbn [length]; rewrite IH; lia.
Qed.

Lemma pairs_remove_others P v id :
  filter (λ p, same p.1 v ≠ true) (pairs_remove P v id) = filter (λ p, same p.1 v ≠ true) P.
Proof.
  unfold pairs_remove. rewrite list_filter_filter. apply list_filter_iff. intros p. tauto.
Qed.
End pairs.

(** ** What the shared operations do to the pairs *)

Section refine.
Context {M : Type} `{PM : Postings M} {same : value → value → bool} {inv : M → Prop} {L : PostingsLaws M same inv}.
Implicit Types (m : M) (v : value) (id : Z) (P : pairs).

Record index_rel (m : M) (P : pairs) : Prop := {
  rel_inv : inv m;
  rel_lookup v : lookup_entry m v = pairs_lookup same P v;
  rel_nonempty v : ps_get m v ≠ Some [];
  rel_len : entries_len m = length P
}.

Lemma pairs_lookup_remove P v id w :
  pairs_lookup same (pairs_remove same P v id) w =
    if same v w then filter (λ i, i ≠ id) (pairs_lookup same P w) else pairs_lookup same P w.
Proof.
  unfold pairs_lookup, pairs_remove. rewrite list_filter_filter, filter_fmap, list_filter_filter.
  assert (∀ p : value * Z, same p.1 w = true → same p.1 v = same v w) as S.
  { intros p Ew. rewrite (same_sym v w). symmetry. by apply same_trans. }
  destruct (same v w) eqn:E; f_equal; apply list_filter_iff; intros p;
    destruct (same p.1 w) eqn:Ep; try rewrite (S p Ep); naive_solver.
Qed.

Lemma pairs_lookup_self P v i ids : pairs_lookup same P v = i :: ids → same v v = true.
Proof.
  unfold pairs_lookup. intros E. destruct (filter _ P) as [|p l] eqn:F; [done|].
  assert (p ∈ filter (λ p, same p.1 v = true) P) as [Ep _]%list_elem_of_filter by (rewrite F; by left).
  rewrite (same_trans p.1 v v Ep). done.
Qed.

Lemma pairs_lookup_same P v w : same v w = true → pairs_lookup same P v = pairs_lookup same P w.
Proof.
  intros E. unfold pairs_lookup. f_equal. apply list_filter_iff. intros p.
  by rewrite (same_sym p.1 v), (same_sym p.1 w), <- (same_trans _ _ p.1 E).
Qed.

Lemma rel_empty : index_rel ps_empty [].
Proof.
  split.
  - apply inv_empty.
  - intros v. unfold lookup_entry. by rewrite get_empty.
  - intros v. by rewrite get_empty.
  - unfold entries_len. by rewrite entries_empty.
Qed.

Lemma entries_len_perm m l : ps_entries m ≡ₚ l → entries_len m = sum_list (length <$> l.*2).
Proof.
  intros E. unfold entries_len. induction E; cbn; lia.
Qed.

Lemma rel_get m P v : index_rel m P →
  ps_get m v = match pairs_lookup same P v with [] => None | ids => Some ids end.
Proof.
  intros R. pose proof (rel_lookup _ _ R v) as E. pose proof (rel_nonempty _ _ R v) as N.
  unfold lookup_entry in E. destruct (ps_get m v) as [[|i ids]|]; cbn in E; [done|by rewrite <- E|by rewrite <- E].
Qed.

Lemma rel_push m P v id : index_rel m P → index_rel (push_entry m v id) (pairs_insert P v id).
Proof.
  intros R. pose proof (rel_inv _ _ R) as I. unfold push_entry. split.
  - by apply inv_put.
  - intros w. unfold lookup_entry. rewrite (get_put m v _ w I), pairs_lookup_insert.
    destruct (same v w) eqn:E; cbn [from_option].
    + fold (lookup_entry m v). by rewrite (rel_lookup _ _ R), (pairs_lookup_same P v w E).
    + rewrite app_nil_r. apply (rel_lookup _ _ R).
  - intros w. rewrite (get_put m v _ w I). destruct (same v w); [by intros [= ?%app_eq_nil]; naive_solver|].
    apply (rel_nonempty _ _ R).
  - unfold pairs_insert. rewrite length_app. cbn [length]. rewrite <- (rel_len _ _ R).
    destruct (ps_get m v) as [y|] eqn:G; simpl default.
    + destruct (put_old m v (y ++ [id]) y G) as (k & rest & E1 & E2).
      rewrite (entries_len_perm _ _ E1), (entries_len_perm _ _ E2). cbn. rewrite length_app. cbn. lia.
    + rewrite (entries_len_perm _ _ (put_new m v _ G)). unfold entries_len. cbn. lia.
Qed.

Lemma rel_remove m P v id : index_rel m P → index_rel (remove_entry m v id) (pairs_remove same P v id).
Proof.
  intros R. pose proof (rel_inv _ _ R) as I. pose proof (rel_get m P v R) as G.
  pose proof (length_pairs same P v) as LP. pose proof (length_pairs same (pairs_remove same P v id) v) as LP'.
  rewrite pairs_remove_others, pairs_lookup_remove in LP'.
  unfold remove_entry. rewrite G. destruct (pairs_lookup same P v) as [|i ids0] eqn:EL.
  { assert (pairs_remove same P v id = P) as ->; [|done].
    apply filter_all, Forall_forall. intros p Hp [E _].
    apply (not_elem_of_nil p.2). rewrite <- EL. apply list_elem_of_fmap_2, list_elem_of_filter. done. }
  pose proof (pairs_lookup_self P v i ids0 EL) as Sv. rewrite Sv in LP'.
  set (ids := i :: ids0) in *. fold ids in EL. clearbody ids.
  destruct (filter (λ i, i ≠ id) ids) as [|j ids'] eqn:F; rewrite ?F in LP'.
  - split.
    + by apply inv_del.
    + intros w. unfold lookup_entry. rewrite (get_del m v w I), pairs_lookup_remove, <- (rel_lookup _ _ R).
      destruct (same v w) eqn:E; [|done]. cbn [from_option]. rewrite (rel_lookup _ _ R).
      rewrite <- (pairs_lookup_same P v w E), EL. by rewrite F.
    + intros w. rewrite (get_del m v w I). case_match; [done|apply (rel_nonempty _ _ R)].
    + destruct (del_old m v ids G) as (k & rest & E1 & E2).
      pose proof (rel_len _ _ R) as RL. rewrite (entries_len_perm _ _ E1) in RL.
      rewrite (entries_len_perm _ _ E2). cbn in RL, LP'. lia.
  - split.
    + by apply inv_put.
    + intros w. unfold lookup_entry. rewrite (get_put m v _ w I), pairs_lookup_remove, <- (rel_lookup _ _ R).
      destruct (same v w) eqn:E; [|done]. cbn [from_option]. rewrite (rel_lookup _ _ R).
      rewrite <- (pairs_lookup_same P v w E), EL. by rewrite F.
    + intros w. rewrite (get_put m v _ w I). case_match; [done|apply (rel_nonempty _ _ R)].
    + destruct (put_old m v (j :: ids') ids G) as (k & rest & E1 & E2).
      pose proof (rel_len _ _ R) as RL. rewrite (entries_len_perm _ _ E1) in RL.
      rewrite (entries_len_perm _ _ E2). cbn in RL, LP' |- *. lia.
Qed.
End refine.

(** ** [HashMap<Value, Vec<RowId>>] as postings *)

#[export] Instance hash_postings : Postings (hmap (list Z)) := {|
  ps_empty := ∅;
  ps_get := hm_get;
  ps_put := hm_insert;
  ps_del := hm_remove;
  ps_entries := hm_entries
|}.

(** Two hash keys meet when they are the same value and that is [==] to itself. *)
Definition hash_same (v w : value) : bool := bool_decide (v = w) && value_eqb v v.

Lemma hash_same_spec v w : hash_same v w = true ↔ v = w ∧ value_eqb v v = true.
Proof. unfold hash_same. by rewrite andb_true_iff, bool_decide_eq_true. Qed.

#[export] Instance hash_postings_laws : PostingsLaws (hmap (list Z)) hash_same (λ _, True).
Proof.
  split; try done.
  - intros v w. apply eq_iff_eq_true. rewrite !hash_same_spec. naive_solver.
  - intros u v w. by intros [-> _]%hash_same_spec.
  - intros v. apply hm_get_empty.
  - intros m v x w _. cbn. rewrite hm_get_insert. unfold hash_same, hm_get. case_decide; subst.
    + rewrite bool_decide_eq_true_2 by done. cbn. by destruct (value_eqb w w).
    + by rewrite bool_decide_eq_false_2.
  - intros m v w _. cbn. rewrite hm_get_remove. unfold hash_same, hm_get. case_decide; subst.
    + rewrite bool_decide_eq_true_2 by done. cbn. by destruct (value_eqb w w).
    + by rewrite bool_decide_eq_false_2.
  - intros m v x. cbn. unfold hm_get, hm_insert, hm_entries. case_match; cbn; [|intros _].
    + intros N. rewrite map_to_list_insert by done. done.
    + by rewrite Permutation_middle.
  - intros m v x y. cbn. unfold hm_get, hm_insert, hm_entries. case_match; cbn; [|done].
    intros E. exists v, (map_to_list (delete v (hm_map m)) ++ hm_lost m). split.
    + by rewrite <- (map_to_list_delete _ v y E).
    + by rewrite <- insert_delete_eq, map_to_list_insert by apply lookup_delete_eq.
  - intros m v y. cbn. unfold hm_get, hm_remove, hm_entries. case_match; cbn; [|done].
    intros E. exists v, (map_to_list (delete v (hm_map m)) ++ hm_lost m). split; [|done].
    by rewrite <- (map_to_list_delete _ v y E).
Qed.

(** ** [BTreeMap<Value, Vec<RowId>>] as postings: its entries in key order *)

Section btree.
Context `{JsonText}.
Implicit Types (t : list (value * list Z)) (v : value).

(** The search goes down to where the key belongs. *)
Fixpoint bt_get t v : option (list Z) :=
  match t with
  | [] => None
  | (k, x) :: t => match value_cmp v k with Lt => None | Eq => Some x | Gt => bt_get t v end
  end.

Fixpoint bt_put t v (x : list Z) : list (value * list Z) :=
  match t with
  | [] => [(v, x)]
  | (k, y) :: t' => match value_cmp v k with Lt => (v, x) :: t | Eq => (k, x) :: t' | Gt => (k, y) :: bt_put t' v x end
  end.

Fixpoint bt_del t v : list (value * list Z) :=
  match t with
  | [] => []
  | (k, y) :: t' => match value_cmp v k with Lt => t | Eq => t' | Gt => (k, y) :: bt_del t' v end
  end.

#[export] Instance btree_postings : Postings (list (value * list Z)) := {|
  ps_empty := [];
  ps_get := bt_get;
  ps_put := bt_put;
  ps_del := bt_del;
  ps_entries := id
|}.

Definition btree_same (v w : value) : bool := match value_cmp v w with Eq => true | _ => false end.
Definition key_lt (p q : value * list Z) : Prop := value_cmp p.1 q.1 = Lt.
Definition bt_sorted t : Prop := StronglySorted key_lt t.

Lemma btree_same_spec v w : btree_same v w = true ↔ value_cmp v w = Eq.
Proof. unfold btree_same. by destruct (value_cmp v w). Qed.

Lemma value_cmp_sym v w : value_cmp w v = CompOpp (value_cmp v w).
Proof. apply cmp_at_anti, value_cmp_total. Qed.
Lemma value_cmp_refl v : value_cmp v v = Eq.
Proof. apply cmp_at_refl, value_cmp_total. Qed.
Lemma value_cmp_Eq_l v w u : value_cmp v w = Eq → value_cmp v u = value_cmp w u.
Proof. apply cmp_at_eq, value_cmp_total. Qed.
Lemma value_cmp_Eq_r v w u : value_cmp v w = Eq → value_cmp u v = value_cmp u w.
Proof. intros E. rewrite (value_cmp_sym v u), (value_cmp_sym w u). f_equal. by apply value_cmp_Eq_l. Qed.
Lemma value_cmp_Lt_trans u v w : value_cmp u v = Lt → value_cmp v w ≠ Gt → value_cmp u w = Lt.
Proof. apply cmp_at_lt, value_cmp_total. Qed.
Lemma value_cmp_Gt_trans u v w : value_cmp u v = Gt → value_cmp v w ≠ Lt → value_cmp u w = Gt.
Proof. apply cmp_at_gt, value_cmp_total. Qed.

Lemma below_all k x t v : bt_sorted ((k, x) :: t) → value_cmp v k ≠ Gt → Forall (λ p, value_cmp v p.1 = Lt) t.
Proof.
  intros [_ F]%StronglySorted_inv N. eapply Forall_impl; [exact F|]. intros p Lp. unfold key_lt in Lp. cbn in Lp.
  destruct (value_cmp v k) eqn:E; [|by apply (value_cmp_Lt_trans v k); [|rewrite Lp]|done].
  by rewrite (value_cmp_Eq_l _ _ _ E).
Qed.

Lemma bt_get_below t v : Forall (λ p, value_cmp v p.1 = Lt) t → bt_get t v = None.
Proof. destruct 1 as [|[k x] t E _]; cbn in *; [done|]. by rewrite E. Qed.

Lemma bt_put_elem t v x p : p ∈ bt_put t v x → p ∈ t ∨ value_cmp v p.1 = Eq.
Proof.
  induction t as [|[k y] t IH]; cbn.
  - intros ->%list_elem_of_singleton. right. apply value_cmp_refl.
  - destruct (value_cmp v k) eqn:E; intros [->|Hp]%elem_of_cons.
    + by right.
    + left. by right.
    + right. apply value_cmp_refl.
    + by left.
    + left. by left.
    + destruct (IH Hp); [left; by right|by right].
Qed.

Lemma bt_del_elem t v p : p ∈ bt_del t v → p ∈ t.
Proof.
  induction t as [|[k y] t IH]; cbn; [done|].
  destruct (value_cmp v k); [by right|done|]. intros [->|Hp]%elem_of_cons; [by left|right; auto].
Qed.

Lemma bt_put_sorted t v x : bt_sorted t → bt_sorted (bt_put t v x).
Proof.
  unfold bt_sorted. induction t as [|[k y] t IH]; intros S; cbn; [repeat constructor|].
  pose proof S as [S' F]%StronglySorted_inv. destruct (value_cmp v k) eqn:E.
  - by constructor.
  - constructor; [done|]. constructor; [exact E|].
    eapply Forall_impl; [apply (below_all k y t v S); by rewrite E|]. done.
  - constructor; [by apply IH|]. apply Forall_forall. intros p [Hp|Hp]%bt_put_elem.
    + by apply (proj1 (Forall_forall _ _) F).
    + unfold key_lt. cbn. rewrite <- (value_cmp_Eq_r _ _ k Hp), value_cmp_sym, E. done.
Qed.

Lemma bt_del_sorted t v : bt_sorted t → bt_sorted (bt_del t v).
Proof.
  unfold bt_sorted. induction t as [|[k y] t IH]; intros S; cbn; [constructor|].
  pose proof S as [S' F]%StronglySorted_inv. destruct (value_cmp v k); [done|done|].
  constructor; [by apply IH|]. apply Forall_forall. intros p Hp%bt_del_elem.
  by apply (proj1 (Forall_forall _ _) F).
Qed.

Lemma bt_get_put t v x w : bt_sorted t →
  bt_get (bt_put t v x) w = if btree_same v w then Some x else bt_get t w.
Proof.
  unfold btree_same. induction t as [|[k y] t IH]; intros S; cbn.
  - rewrite (value_cmp_sym v w). by destruct (value_cmp v w).
  - pose proof S as [S' _]%StronglySorted_inv. destruct (value_cmp v k) eqn:E; cbn.
    + rewrite <- (value_cmp_Eq_r v k w E), (value_cmp_sym v w).
      by destruct (value_cmp v w).
    + rewrite (value_cmp_sym v w). destruct (value_cmp v w) eqn:Ew; cbn; [done| |].
      * done.
      * assert (value_cmp w k = Lt) as ->; [|done].
        apply (value_cmp_Lt_trans w v k); [by rewrite value_cmp_sym, Ew|by rewrite E].
    + rewrite (IH S'). destruct (value_cmp w k) eqn:Ek; try done.
      * assert (value_cmp v w = Gt) as ->; [|done]. by rewrite (value_cmp_Eq_r w k v Ek).
      * assert (value_cmp v w = Gt) as ->; [|done].
        apply (value_cmp_Gt_trans v k w E). rewrite value_cmp_sym, Ek. done.
Qed.

Lemma bt_get_del t v w : bt_sorted t →
  bt_get (bt_del t v) w = if btree_same v w then None else bt_get t w.
Proof.
  unfold btree_same. induction t as [|[k y] t IH]; intros S; cbn; [by destruct (value_cmp v w)|].
  pose proof S as [S' _]%StronglySorted_inv. destruct (value_cmp v k) eqn:E; cbn.
  - rewrite (value_cmp_Eq_l _ _ w E), (value_cmp_sym w k).
    destruct (value_cmp w k) eqn:Ek; cbn; [| |done]; apply bt_get_below, (below_all k y t w S); by rewrite Ek.
  - destruct (value_cmp v w) eqn:Ew; try done. by rewrite <- (value_cmp_Eq_l v w k Ew), E.
  - rewrite (IH S'). destruct (value_cmp w k) eqn:Ek; [| |done].
    + by rewrite (value_cmp_Eq_r w k v Ek), E.
    + by destruct (value_cmp v w).
Qed.

Lemma bt_get_split t v x : bt_get t v = Some x →
  ∃ t1 k t2, t = t1 ++ (k, x) :: t2 ∧ (∀ y, bt_put t v y = t1 ++ (k, y) :: t2) ∧ bt_del t v = t1 ++ t2.
Proof.
  induction t as [|[k y] t IH]; cbn; [done|]. destruct (value_cmp v k) eqn:E; [|done|].
  - intros [= ->]. by exists [], k, t.
  - intros (t1 & k' & t2 & -> & P & D)%IH. exists ((k, y) :: t1), k', t2.
    split; [done|]. split; [intros z; by rewrite P|by rewrite D].
Qed.

Lemma bt_put_new t v x : bt_get t v = None → bt_put t v x ≡ₚ (v, x) :: t.
Proof.
  induction t as [|[k y] t IH]; cbn; [done|]. destruct (value_cmp v k) eqn:E; [done|done|].
  intros N. rewrite (IH N). apply perm_swap.
Qed.

#[export] Instance btree_postings_laws : PostingsLaws (list (value * list Z)) btree_same bt_sorted.
Proof.
  split.
  - intros v w. unfold btree_same. rewrite (value_cmp_sym v w). by destruct (value_cmp v w).
  - intros u v w E%btree_same_spec. unfold btree_same. by rewrite (value_cmp_Eq_l _ _ w E).
  - constructor.
  - intros. by apply bt_put_sorted.
  - intros. by apply bt_del_sorted.
  - done.
  - intros. by apply bt_get_put.
  - intros. by apply bt_get_del.
  - done.
  - intros. by apply bt_put_new.
  - intros t v x y (t1 & k & t2 & -> & P & _)%bt_get_split. exists k, (t1 ++ t2). cbn.
    rewrite P. split; by rewrite Permutation_middle.
  - intros t v y (t1 & k & t2 & -> & _ & D)%bt_get_split. exists k, (t1 ++ t2). cbn.
    rewrite D. split; [by rewrite Permutation_middle|done].
Qed.
End btree.

(** ** The operations in a row *)

Inductive index_op : Type :=
| IxInsert (v : value) (id : Z)
| IxRemove (v : value) (id : Z)
| IxClear.

(** [accepts] is the test an insert makes; it refuses without an effect. *)
Definition pairs_step (same : value → value → bool) (accepts : pairs → value → bool)
    (P : pairs) (op : index_op) : pairs :=
  match op with
  | IxInsert v id => if accepts P v then pairs_insert P v id else P
  | IxRemove v id => pairs_remove same P v id
  | IxClear => []
  end.

(** ** [BTreeIndex] *)

Section btree_index.
Context `{JsonText}.

Record BTreeIndex : Type := MkBTreeIndex { bi_column : string; bi_entries : list (value * list Z) }.
Implicit Types (ix : BTreeIndex) (v : value) (row_id : Z).

Definition BTreeIndex_with_entries ix (t : list (value * list Z)) : BTreeIndex := MkBTreeIndex (bi_column ix) t.

Definition BTreeIndex_new (column : string) : BTreeIndex := MkBTreeIndex column ps_empty.
Definition BTreeIndex_insert ix v row_id : result index_error () * BTreeIndex :=
  (Ok (), BTreeIndex_with_entries ix (push_entry (bi_entries ix) v row_id)).
Definition BTreeIndex_lookup ix v : list Z := lookup_entry (bi_entries ix) v.
Definition BTreeIndex_remove ix v row_id : BTreeIndex := BTreeIndex_with_entries ix (remove_entry (bi_entries ix) v row_id).
Definition BTreeIndex_clear ix : BTreeIndex := BTreeIndex_with_entries ix ps_empty.
Definition BTreeIndex_len ix : nat := entries_len (bi_entries ix).
Definition BTreeIndex_key_count ix : nat := length (bi_entries ix).
Definition BTreeIndex_is_empty ix : bool := match bi_entries ix with [] => true | _ => false end.
Definition BTreeIndex_min ix : option (value * list Z) := head (bi_entries ix).
Definition BTreeIndex_max ix : option (value * list Z) := last (bi_entries ix).

(** The iterator of [BTreeMap::range] starts at the first key its lower bound admits and
    ends before the first one its upper bound does not. *)
Fixpoint skip_while (before : value → bool) (t : list (value * list Z)) : list (value * list Z) :=
  match t with
  | [] => []
  | (k, x) :: t' => if before k then skip_while before t' else t
  end.
Fixpoint take_while (inside : value → bool) (t : list (value * list Z)) : list (value * list Z) :=
  match t with
  | [] => []
  | (k, x) :: t' => if inside k then (k, x) :: take_while inside t' else []
  end.

(** [None]: the standard library panics on bounds the wrong way round, and on equal
    bounds that are both excluded. *)
Definition BTreeIndex_range ix (start stop : value) : option (list (value * list Z)) :=
  if value_ltb stop start then None
  else Some (take_while (λ k, value_leb k stop) (skip_while (λ k, value_ltb k start) (bi_entries ix))).
Definition BTreeIndex_range_exclusive ix (start stop : value) : option (list (value * list Z)) :=
  if value_leb stop start then None
  else Some (take_while (λ k, value_ltb k stop) (skip_while (λ k, value_leb k start) (bi_entries ix))).

Definition BTreeIndex_step ix (op : index_op) : BTreeIndex :=
  match op with
  | IxInsert v id => (BTreeIndex_insert ix v id).2
  | IxRemove v id => BTreeIndex_remove ix v id
  | IxClear => BTreeIndex_clear ix
  end.
End btree_index.

(** ** [HashIndex] of [blitz-index] *)

Section hash_index.
Context `{JsonText} `{ValueText} `{DisplayText}.

Record HashIndex : Type := MkHashIndex { hi_column : string; hi_unique : bool; hi_entries : hmap (list Z) }.
Implicit Types (ix : HashIndex) (v : value) (row_id : Z).

Definition HashIndex_with_entries ix (m : hmap (list Z)) : HashIndex := MkHashIndex (hi_column ix) (hi_unique ix) m.

Definition HashIndex_new (column : string) (unique : bool) : HashIndex := MkHashIndex column unique ps_empty.
Definition HashIndex_insert ix v row_id : result index_error () * HashIndex :=
  if hi_unique ix then
    if hm_contains_key (hi_entries ix) v then (Err (IndexDuplicateKey (value_display v)), ix)
    else (Ok (), HashIndex_with_entries ix (hm_insert (hi_entries ix) v [row_id]))
  else (Ok (), HashIndex_with_entries ix (push_entry (hi_entries ix) v row_id)).
Definition HashIndex_lookup ix v : list Z := lookup_entry (hi_entries ix) v.
Definition HashIndex_remove ix v row_id : HashIndex := HashIndex_with_entries ix (remove_entry (hi_entries ix) v row_id).
Definition HashIndex_clear ix : HashIndex := HashIndex_with_entries ix ps_empty.
Definition HashIndex_len ix : nat := entries_len (hi_entries ix).
Definition HashIndex_key_count ix : nat := hm_len (hi_entries ix).
Definition HashIndex_is_empty ix : bool := bool_decide (hm_len (hi_entries ix) = O).

Definition HashIndex_step ix (op : index_op) : HashIndex :=
  match op with
  | IxInsert v id => (HashIndex_insert ix v id).2
  | IxRemove v id => HashIndex_remove ix v id
  | IxClear => HashIndex_clear ix
  end.
End hash_index.

(** ** [HashIndex] of [blitz-core]: unique indexes keep one row id per value *)

Section core_index.
Context `{JsonText} `{ValueText} `{DisplayText}.

Record CoreIndex : Type := MkCoreIndex {
  ci_column : string;
  ci_unique : bool;
  ci_entries : hmap (list Z);
  ci_unique_entries : hmap Z
}.
Implicit Types (ix : CoreIndex) (v : value) (row_id : Z).

Definition CoreIndex_with_entries ix (m : hmap (list Z)) : CoreIndex :=
  MkCoreIndex (ci_column ix) (ci_unique ix) m (ci_unique_entries ix).
Definition CoreIndex_with_unique_entries ix (m : hmap Z) : CoreIndex :=
  MkCoreIndex (ci_column ix) (ci_unique ix) (ci_entries ix) m.

Definition CoreIndex_new (column : string) (unique : bool) : CoreIndex := MkCoreIndex column unique ∅ ∅.
Definition CoreIndex_duplicate_message ix v : string :=
  "duplicate value '" +:+ value_display v +:+ "' in unique index on column '" +:+ ci_column ix +:+ "'".
Definition CoreIndex_insert ix v row_id : result string () * CoreIndex :=
  if ci_unique ix then
    if hm_contains_key (ci_unique_entries ix) v then (Err (CoreIndex_duplicate_message ix v), ix)
    else (Ok (), CoreIndex_with_unique_entries ix (hm_insert (ci_unique_entries ix) v row_id))
  else (Ok (), CoreIndex_with_entries ix (push_entry (ci_entries ix) v row_id)).
Definition CoreIndex_remove ix v row_id : CoreIndex :=
  if ci_unique ix then CoreIndex_with_unique_entries ix (hm_remove (ci_unique_entries ix) v)
  else CoreIndex_with_entries ix (remove_entry (ci_entries ix) v row_id).
Definition CoreIndex_lookup ix v : list Z :=
  if ci_unique ix then match hm_get (ci_unique_entries ix) v with Some id => [id] | None => [] end
  else lookup_entry (ci_entries ix) v.
Definition CoreIndex_contains ix v : bool :=
  if ci_unique ix then hm_contains_key (ci_unique_entries ix) v else hm_contains_key (ci_entries ix) v.
Definition CoreIndex_len ix : nat := if ci_unique ix then hm_len (ci_unique_entries ix) else hm_len (ci_entries ix).
Definition CoreIndex_is_empty ix : bool := bool_decide (CoreIndex_len ix = O).

Definition CoreIndex_step ix (op : index_op) : CoreIndex :=
  match op with
  | IxInsert v id => (CoreIndex_insert ix v id).2
  | IxRemove v id => CoreIndex_remove ix v id
  | IxClear => ix
  end.
End core_index.

(** ** Flattening a B-tree *)

Section flat.
Context `{JsonText}.
Implicit Types (t : list (value * list Z)) (v : value).

Definition flat t : pairs := t ≫= (λ kx, (λ id, (kx.1, id)) <$> kx.2).
Definition pair_cmp (p q : value * Z) : comparison := value_cmp p.1 q.1.

Lemma pair_cmp_total : total_cmp pair_cmp.
Proof. apply (total_cmp_map fst), value_cmp_total. Qed.

Lemma flat_ids t : (flat t).*2 = mjoin t.*2.
Proof.
  induction t as [|[k x] t IH]; [done|]. unfold flat in *. cbn [mbind list_bind]. rewrite fmap_app, IH.
  cbn. f_equal. rewrite <- list_fmap_compose. apply list_fmap_id.
Qed.

Lemma flat_elem t p : p ∈ flat t → ∃ x, (p.1, x) ∈ t.
Proof.
  unfold flat. intros ((k & x) & Hp & Ht)%list_elem_of_bind.
  apply list_elem_of_fmap in Hp as (id & -> & _). by exists x.
Qed.

Lemma flat_sorted t : bt_sorted t → StronglySorted (Sort.le_by pair_cmp) (flat t).
Proof.
  unfold bt_sorted. induction 1 as [|[k x] t S IH F]; [constructor|].
  unfold flat. cbn [mbind list_bind fst snd]. induction x as [|id x IHx]; [exact IH|].
  cbn. constructor; [exact (IHx F)|]. apply Forall_app. split.
  - apply Forall_fmap, Forall_forall. intros id' _. unfold Sort.le_by, pair_cmp. cbn. by rewrite value_cmp_refl.
  - apply Forall_forall. intros p (y & Hp)%flat_elem. apply (proj1 (Forall_forall _ _) F) in Hp.
    unfold Sort.le_by, pair_cmp. unfold key_lt in Hp. cbn in *. by rewrite Hp.
Qed.

Lemma flat_class t a : bt_sorted t →
  snd <$> Sort.class_of pair_cmp a (flat t) = default [] (bt_get t a.1).
Proof.
  unfold bt_sorted, Sort.class_of. induction t as [|[k x] t IH]; intros S; [done|].
  pose proof S as [S' _]%StronglySorted_inv. unfold flat. cbn [mbind list_bind fst snd bt_get].
  rewrite filter_app, fmap_app. fold (flat t). rewrite (IH S').
  destruct (value_cmp a.1 k) eqn:E.
  - rewrite filter_all by (apply Forall_fmap, Forall_forall; intros id _; exact E).
    rewrite (bt_get_below t a.1).
    + simpl. rewrite app_nil_r, <- list_fmap_compose. apply list_fmap_id.
    + apply (below_all k x t a.1 S). by rewrite E.
  - rewrite (bt_get_below t a.1) by (apply (below_all k x t a.1 S); by rewrite E).
    rewrite filter_no; [done|]. apply Forall_fmap, Forall_forall. intros id _. unfold pair_cmp. cbn. by rewrite E.
  - rewrite filter_no; [done|]. apply Forall_fmap, Forall_forall. intros id _. unfold pair_cmp. cbn. by rewrite E.
Qed.

Lemma bt_get_filter t v (Q : value → bool) :
  (∀ k, value_cmp v k = Eq → Q k = Q v) → bt_sorted t →
  bt_get (filter (λ p, Q p.1 = true) t) v = if Q v then bt_get t v else None.
Proof.
  unfold bt_sorted. intros C. induction t as [|[k x] t IH]; intros S; [by destruct (Q v)|].
  pose proof S as [S' _]%StronglySorted_inv. rewrite filter_cons. cbn [fst bt_get].
  destruct (value_cmp v k) eqn:E; case_decide as D; cbn [bt_get]; rewrite ?E.
  - by rewrite <- (C k E), D.
  - rewrite (IH S'). destruct (Q v) eqn:Qv; [|done]. by rewrite (C k E) in D.
  - by destruct (Q v).
  - rewrite (IH S'). rewrite (bt_get_below t v); [by destruct (Q v)|].
    apply (below_all k x t v S). by rewrite E.
  - by apply IH.
  - by apply IH.
Qed.

(** Walking a sorted list between two bounds is filtering it. *)
Definition downward (Q : value → bool) : Prop := ∀ k k', value_cmp k k' = Lt → Q k' = true → Q k = true.

Lemma later_false (Q : value → bool) k x t :
  downward Q → Forall (key_lt (k, x)) t → Q k = false → Forall (λ p, Q p.1 = false) t.
Proof.
  intros D F E. eapply Forall_impl; [exact F|]. intros p Hp. apply not_true_is_false. intros Ep.
  pose proof (D _ _ Hp Ep) as Ek. cbn in Ek. congruence.
Qed.

Lemma skip_filter t (before : value → bool) : downward before → bt_sorted t →
  skip_while before t = filter (λ p, before p.1 = false) t.
Proof.
  unfold bt_sorted. intros D. induction 1 as [|[k x] t S IH F]; [done|].
  cbn [skip_while]. rewrite filter_cons. cbn [fst]. destruct (before k) eqn:E.
  - by rewrite decide_False.
  - rewrite decide_True by done. f_equal. symmetry. apply filter_all. by apply (later_false before k x t).
Qed.

Lemma take_filter t (inside : value → bool) : downward inside → bt_sorted t →
  take_while inside t = filter (λ p, inside p.1 = true) t.
Proof.
  unfold bt_sorted. intros D. induction 1 as [|[k x] t S IH F]; [done|].
  cbn [take_while]. rewrite filter_cons. cbn [fst]. destruct (inside k) eqn:E.
  - by rewrite decide_True, IH.
  - rewrite decide_False by done. symmetry. apply filter_no.
    eapply Forall_impl; [apply (later_false inside k x t D F E)|]. intros p ->. done.
Qed.

Lemma filter_sorted t (Q : value * list Z → Prop) `{∀ p, Decision (Q p)} : bt_sorted t → bt_sorted (filter Q t).
Proof.
  unfold bt_sorted. induction 1 as [|p t S IH F]; [constructor|]. rewrite filter_cons. case_decide; [|done].
  constructor; [done|]. apply Forall_forall. intros q [_ Hq]%list_elem_of_filter.
  by apply (proj1 (Forall_forall _ _) F).
Qed.

(** The ids under the keys [Q] admits are those of the pairs it admits, sorted by key
    and, within a key, as they were inserted. *)
Lemma filtered_ids t P (Q : value → bool) :
  (∀ k k', value_cmp k k' = Eq → Q k = Q k') → index_rel (inv := bt_sorted) (same := btree_same) t P →
  mjoin (filter (λ p, Q p.1 = true) t).*2 = (Sort.sort_by pair_cmp (filter (λ p, Q p.1 = true) P)).*2.
Proof.
  intros C R. pose proof (rel_inv _ _ R) as S. rewrite <- flat_ids.
  apply (Sort.sorted_unique_by pair_cmp pair_cmp_total snd).
  - by apply flat_sorted, filter_sorted.
  - apply Sort.sort_by_sorted, pair_cmp_total.
  - intros a. rewrite Sort.sort_by_class by apply pair_cmp_total.
    rewrite flat_class, bt_get_filter by (done || by apply filter_sorted || (intros k E; symmetry; by apply C)).
    unfold Sort.class_of. rewrite list_filter_filter. destruct (Q a.1) eqn:Qa.
    + change (default [] (bt_get t a.1)) with (lookup_entry t a.1). rewrite (rel_lookup _ _ R).
      unfold pairs_lookup. f_equal. apply list_filter_iff. intros p. rewrite btree_same_spec. unfold pair_cmp.
      rewrite (value_cmp_sym p.1 a.1). destruct (value_cmp p.1 a.1) eqn:E; cbn; [|naive_solver..].
      rewrite (C _ _ E), Qa. naive_solver.
    + symmetry. rewrite filter_no; [done|]. apply Forall_forall. intros p _ [E Qp]. unfold pair_cmp in E.
      rewrite <- (C _ _ E) in Qp. congruence.
Qed.
End flat.

(** ** Theorems *)

Section btree_theorems.
Context `{JsonText}.

Lemma value_ltb_spec a b : value_ltb a b = true ↔ value_cmp a b = Lt.
Proof. unfold value_ltb. by destruct (value_cmp a b). Qed.
Lemma value_leb_spec a b : value_leb a b = true ↔ value_cmp a b ≠ Gt.
Proof. unfold value_leb. by destruct (value_cmp a b). Qed.

Lemma below_downward w : downward (λ k, value_leb k w) ∧ downward (λ k, value_ltb k w).
Proof.
  split; intros k k' L.
  - rewrite !value_leb_spec. intros N. by rewrite (value_cmp_Lt_trans k k' w L N).
  - rewrite !value_ltb_spec. intros N. apply (value_cmp_Lt_trans k k' w L). by rewrite N.
Qed.

Lemma bi_steps_rel ops ix P :
  index_rel (inv := bt_sorted) (same := btree_same) (bi_entries ix) P →
  index_rel (inv := bt_sorted) (same := btree_same) (bi_entries (foldl BTreeIndex_step ix ops))
    (foldl (pairs_step btree_same (λ _ _, true)) P ops).
Proof.
  revert ix P. induction ops as [|op ops IH]; intros ix P R; [done|]. cbn [foldl]. apply IH.
  destruct op as [v id|v id|]; [exact (rel_push _ _ v id R)|exact (rel_remove _ _ v id R)|exact rel_empty].
Qed.

Lemma sorted_ends t q : bt_sorted t → q ∈ t →
  ∃ lo hi, head t = Some lo ∧ last t = Some hi ∧ value_cmp lo.1 q.1 ≠ Gt ∧ value_cmp q.1 hi.1 ≠ Gt.
Proof.
  unfold bt_sorted. intros S. revert q. induction S as [|p t S IH F]; intros q Hq; [by apply elem_of_nil in Hq|].
  destruct t as [|p' t].
  { apply list_elem_of_singleton in Hq as ->. exists p, p. by rewrite !value_cmp_refl. }
  rewrite last_cons_cons. apply elem_of_cons in Hq as [->|Hq].
  - destruct (IH p' (list_elem_of_here p' t)) as (_ & hi & _ & L & _ & N). exists p, hi.
    rewrite value_cmp_refl. apply Forall_cons in F as [F _]. unfold key_lt in F.
    by rewrite (value_cmp_Lt_trans _ _ _ F N).
  - destruct (IH q Hq) as (lo & hi & _ & L & _ & N). exists p, hi. split; [done|]. split; [done|]. split; [|done].
    apply (proj1 (Forall_forall _ _) F) in Hq. unfold key_lt in Hq. by rewrite Hq.
Qed.

Lemma rel_elem t P p : index_rel (inv := bt_sorted) (same := btree_same) t P → p ∈ P →
  ∃ q, q ∈ t ∧ value_cmp p.1 q.1 = Eq.
Proof.
  intros R Hp. pose proof (rel_get t P p.1 R) as G.
  assert (p.2 ∈ pairs_lookup btree_same P p.1) as Hl.
  { apply list_elem_of_fmap_2, list_elem_of_filter. split; [|done]. apply btree_same_spec, value_cmp_refl. }
  destruct (pairs_lookup btree_same P p.1) as [|i ids]; [by apply elem_of_nil in Hl|].
  cbn in G. clear -G. induction t as [|[k x] t IH]; [done|]. cbn in G. destruct (value_cmp p.1 k) eqn:E; [|done|].
  - exists (k, x). split; [by left|done].
  - destruct (IH G) as (q & Hq & Eq). exists q. split; [by right|done].
Qed.

Lemma rel_null t P : index_rel (inv := bt_sorted) (same := btree_same) t P → t = [] ↔ P = [].
Proof.
  intros R. split.
  - intros ->. destruct P as [|p P]; [done|].
    destruct (rel_elem _ _ p R (list_elem_of_here _ _)) as (q & Hq & _). by apply elem_of_nil in Hq.
  - intros ->. destruct t as [|[k x] t]; [done|]. pose proof (rel_get _ _ k R) as G. cbn in G.
    by rewrite value_cmp_refl in G.
Qed.

(** What lies between two bounds, included or not. *)
Definition between (start stop : value) (p : value * Z) : bool :=
  value_leb start p.1 && value_leb p.1 stop.
Definition strictly_between (start stop : value) (p : value * Z) : bool :=
  value_ltb start p.1 && value_ltb p.1 stop.

(** A window of keys gives the entries, and so the pairs, whose keys are in it. *)
Lemma window_ids t P (before inside Q : value → bool) :
  downward before → downward inside → (∀ k k', value_cmp k k' = Eq → Q k = Q k') →
  (∀ k, Q k = negb (before k) && inside k) → index_rel (inv := bt_sorted) (same := btree_same) t P →
  mjoin (take_while inside (skip_while before t)).*2 = (Sort.sort_by pair_cmp (filter (λ p, Q p.1 = true) P)).*2.
Proof.
  intros Db Di C E R. pose proof (rel_inv _ _ R) as S. rewrite <- (filtered_ids t P Q C R).
  rewrite skip_filter, take_filter, list_filter_filter by (done || by apply filter_sorted).
  do 2 f_equal. apply list_filter_iff. intros p. cbv beta. rewrite E. destruct (before p.1), (inside p.1); naive_solver.
Qed.

(** An entry holds the ids of the pairs under its key, and some. *)
Lemma rel_entry t P q : index_rel (inv := bt_sorted) (same := btree_same) t P → q ∈ t →
  q.2 = pairs_lookup btree_same P q.1 ∧ q.2 ≠ [].
Proof.
  intros R Hq. pose proof (rel_inv _ _ R) as S.
  assert (bt_get t q.1 = Some q.2) as G.
  { clear R. unfold bt_sorted in S. induction S as [|[k x] t S IH F]; [by apply elem_of_nil in Hq|].
    cbn [bt_get]. apply elem_of_cons in Hq as [->|Hq]; [cbn; by rewrite value_cmp_refl|].
    apply (proj1 (Forall_forall _ _) F) in Hq as K. unfold key_lt in K. cbn in K.
    rewrite value_cmp_sym, K. by apply IH. }
  split.
  - rewrite <- (rel_lookup _ _ R). change (lookup_entry t q.1) with (default [] (bt_get t q.1)). by rewrite G.
  - intros E. rewrite E in G. by apply (rel_nonempty _ _ R q.1).
Qed.

(** C29: A B-tree index is the list of pairs put into it and not taken out: a lookup gives
    the row ids stored under a value in the order they were inserted; a range between two
    bounds, both included or both excluded, gives exactly the ids of the pairs between
    them, by value and then by insertion, each entry with all the ids of its key - and
    panics exactly when its start is past its end (or, excluded, not before it); the
    smallest and largest entries are keys of the index with their ids, and bound every
    pair, and are missing exactly when the index is empty; and the length counts the
    pairs. *)
Theorem btree_index_refines column ops :
  let ix := foldl BTreeIndex_step (BTreeIndex_new column) ops in
  let P := foldl (pairs_step btree_same (λ _ _, true)) [] ops in
  let entry_ok (q : value * list Z) := q.2 = pairs_lookup btree_same P q.1 ∧ q.2 ≠ [] in
  (∀ v, BTreeIndex_lookup ix v = pairs_lookup btree_same P v) ∧
  (∀ start stop, match BTreeIndex_range ix start stop with
     | Some l => value_cmp start stop ≠ Gt ∧ Forall entry_ok l ∧
         mjoin l.*2 = (Sort.sort_by pair_cmp (filter (λ p, between start stop p = true) P)).*2
     | None => value_cmp start stop = Gt end) ∧
  (∀ start stop, match BTreeIndex_range_exclusive ix start stop with
     | Some l => value_cmp start stop = Lt ∧ Forall entry_ok l ∧
         mjoin l.*2 = (Sort.sort_by pair_cmp (filter (λ p, strictly_between start stop p = true) P)).*2
     | None => value_cmp start stop ≠ Lt end) ∧
  match BTreeIndex_min ix, BTreeIndex_max ix with
  | Some lo, Some hi => entry_ok lo ∧ entry_ok hi ∧ ∀ p, p ∈ P → between lo.1 hi.1 p = true
  | None, None => P = []
  | _, _ => False
  end ∧
  BTreeIndex_len ix = length P ∧ (BTreeIndex_is_empty ix = true ↔ P = []).
Proof.
  intros ix P entry_ok. assert (index_rel (inv := bt_sorted) (same := btree_same) (bi_entries ix) P) as R
    by apply bi_steps_rel, rel_empty.
  pose proof (rel_inv _ _ R) as S.
  assert (∀ q, q ∈ bi_entries ix → entry_ok q) as En by (intros q Hq; by apply rel_entry with (t := bi_entries ix)).
  assert (∀ before inside, downward before → downward inside →
    Forall entry_ok (take_while inside (skip_while before (bi_entries ix)))) as Win.
  { intros before inside Db Di. rewrite skip_filter, take_filter by (done || by apply filter_sorted).
    apply Forall_forall. intros q [_ [_ Hq]%list_elem_of_filter]%list_elem_of_filter. by apply En. }
  split; [apply (rel_lookup _ _ R)|]. split; [|split; [|split; [|split]]].
  - intros start stop. unfold BTreeIndex_range. destruct (value_ltb stop start) eqn:L.
    { apply value_ltb_spec in L. by rewrite value_cmp_sym, L. }
    rewrite <- not_true_iff_false, value_ltb_spec, value_cmp_sym in L.
    split_and!; [by destruct (value_cmp start stop)|apply Win; apply below_downward|].
    apply (window_ids _ _ _ _ (λ k, value_leb start k && value_leb k stop)); [apply below_downward..| | |exact R].
    + intros k k' E. unfold value_leb. by rewrite (value_cmp_Eq_r _ _ start E), (value_cmp_Eq_l _ _ stop E).
    + intros k. f_equal. unfold value_leb, value_ltb. rewrite (value_cmp_sym start k). by destruct (value_cmp start k).
  - intros start stop. unfold BTreeIndex_range_exclusive. destruct (value_leb stop start) eqn:L.
    { apply value_leb_spec in L. rewrite value_cmp_sym in L. by destruct (value_cmp start stop). }
    rewrite <- not_true_iff_false, value_leb_spec, value_cmp_sym in L.
    split_and!; [destruct (value_cmp start stop); naive_solver|apply Win; apply below_downward|].
    apply (window_ids _ _ _ _ (λ k, value_ltb start k && value_ltb k stop)); [apply below_downward..| | |exact R].
    + intros k k' E. unfold value_ltb. by rewrite (value_cmp_Eq_r _ _ start E), (value_cmp_Eq_l _ _ stop E).
    + intros k. f_equal. unfold value_leb, value_ltb. rewrite (value_cmp_sym start k). by destruct (value_cmp start k).
  - destruct (bi_entries ix) as [|q0 t] eqn:T.
    { unfold BTreeIndex_min, BTreeIndex_max. rewrite T. by apply (rel_null _ _ R). }
    destruct (sorted_ends _ q0 S (list_elem_of_here q0 t)) as (lo & hi & L1 & L2 & _).
    unfold BTreeIndex_min, BTreeIndex_max. rewrite T, L1, L2.
    split_and!; [by apply En, head_Some_elem_of|by apply En, last_Some_elem_of|].
    intros p Hp. destruct (rel_elem _ _ p R Hp) as (q & Hq & E).
    destruct (sorted_ends _ q S Hq) as (lo' & hi' & L1' & L2' & N1 & N2). simplify_eq.
    unfold between. rewrite andb_true_iff, !value_leb_spec. by rewrite (value_cmp_Eq_r _ _ lo.1 E), (value_cmp_Eq_l _ _ hi.1 E).
  - apply (rel_len _ _ R).
  - rewrite <- (rel_null _ _ R). unfold BTreeIndex_is_empty. by destruct (bi_entries ix).
Qed.
End btree_theorems.

Section hash_theorems.
Context `{JsonText} `{ValueText} `{DisplayText}.

Lemma hash_get_nonempty (m : hmap (list Z)) P v :
  index_rel (inv := λ _, True) (same := hash_same) m P →
  hm_contains_key m v = negb (bool_decide (pairs_lookup hash_same P v = [])).
Proof.
  intros R. pose proof (rel_get m P v R) as G. cbn in G. unfold hm_contains_key. rewrite G.
  by destruct (pairs_lookup hash_same P v).
Qed.

(** The test of an insert: a unique index refuses a value it has. *)
Definition admits (unique : bool) (P : pairs) (v : value) : bool :=
  negb unique || bool_decide (pairs_lookup hash_same P v = []).

Lemma hi_steps_rel ops ix P :
  index_rel (inv := λ _, True) (same := hash_same) (hi_entries ix) P →
  let ix' := foldl HashIndex_step ix ops in
  hi_unique ix' = hi_unique ix ∧
  index_rel (inv := λ _, True) (same := hash_same) (hi_entries ix')
    (foldl (pairs_step hash_same (admits (hi_unique ix))) P ops).
Proof.
  revert ix P. induction ops as [|op ops IH]; intros ix P R; [done|]. cbn [foldl].
  assert (hi_unique (HashIndex_step ix op) = hi_unique ix ∧
          index_rel (inv := λ _, True) (same := hash_same) (hi_entries (HashIndex_step ix op))
            (pairs_step hash_same (admits (hi_unique ix)) P op)) as [<- R'].
  { destruct op as [v id|v id|]; cbn [HashIndex_step pairs_step].
    - unfold HashIndex_insert, admits. destruct (hi_unique ix) eqn:U; cbn [negb orb].
      + rewrite (hash_get_nonempty _ P) by exact R. case_bool_decide as E; cbn [negb]; [|done].
        split; [done|]. pose proof (rel_push _ _ v id R) as R'. unfold push_entry in R'.
        rewrite (rel_get _ _ v R), E in R'. exact R'.
      + split; [done|]. exact (rel_push _ _ v id R).
    - split; [done|]. exact (rel_remove _ _ v id R).
    - split; [done|]. exact rel_empty. }
  by apply IH.
Qed.

Lemma admits_at_most_one P op v :
  (length (pairs_lookup hash_same P v) <= 1)%nat →
  (length (pairs_lookup hash_same (pairs_step hash_same (admits true) P op) v) <= 1)%nat.
Proof.
  intros L. destruct op as [w id|w id|]; cbn [pairs_step]; [| |cbn; lia].
  - unfold admits. cbn [negb orb]. case_bool_decide as E; [|done]. rewrite pairs_lookup_insert.
    destruct (hash_same w v) eqn:S; [|by rewrite app_nil_r].
    by rewrite <- (pairs_lookup_same P w v S), E.
  - rewrite pairs_lookup_remove. destruct (hash_same w v); [|done]. etransitivity; [apply length_filter|done].
Qed.

(** A hash index of [blitz-index] is the list of pairs put into it and not taken out,
    where a value that is not [==] to itself is never found: a lookup gives the row ids
    of a value in insertion order, the length counts the pairs, and an insert fails
    exactly when the index is unique and has the value, without an effect; so a unique
    index never has two rows under a value. *)
Theorem hash_index_refines column unique ops :
  let ix := foldl HashIndex_step (HashIndex_new column unique) ops in
  let P := foldl (pairs_step hash_same (admits unique)) [] ops in
  (∀ v, HashIndex_lookup ix v = pairs_lookup hash_same P v) ∧
  HashIndex_len ix = length P ∧
  (∀ v id, HashIndex_insert ix v id =
     if admits unique P v then (Ok (), HashIndex_step ix (IxInsert v id))
     else (Err (IndexDuplicateKey (value_display v)), ix)) ∧
  (unique = true → ∀ v, (length (HashIndex_lookup ix v) <= 1)%nat).
Proof.
  intros ix P.
  destruct (hi_steps_rel ops (HashIndex_new column unique) [] rel_empty) as [U R].
  cbn [hi_unique HashIndex_new] in U, R. fold ix P in U, R.
  split; [apply (rel_lookup _ _ R)|]. split; [apply (rel_len _ _ R)|]. split.
  - intros v id. cbn [HashIndex_step]. unfold HashIndex_insert, admits. rewrite U.
    rewrite (hash_get_nonempty _ P v R). destruct unique; cbn [negb orb]; [|done]. by case_bool_decide.
  - intros -> v. change (HashIndex_lookup ix v) with (lookup_entry (hi_entries ix) v).
    rewrite (rel_lookup _ _ R). subst P. clear R U ix.
    assert (length (pairs_lookup hash_same [] v) <= 1)%nat as L by (cbn; lia). revert L.
    generalize (@nil (value * Z)). induction ops as [|op ops IH]; intros P L; [done|].
    cbn [foldl]. by apply IH, admits_at_most_one.
Qed.

(** In the core's unique index a removal names only the value. *)
Definition core_step (unique : bool) (P : pairs) (op : index_op) : pairs :=
  match op with
  | IxRemove v id =>
      if unique then filter (λ p, hash_same p.1 v ≠ true) P else pairs_remove hash_same P v id
  | IxInsert v id => if admits unique P v then pairs_insert P v id else P
  | IxClear => P
  end.

Definition core_rel (ix : CoreIndex) (P : pairs) : Prop :=
  if ci_unique ix
  then (∀ v, option_list (hm_get (ci_unique_entries ix) v) = pairs_lookup hash_same P v)
  else index_rel (inv := λ _, True) (same := hash_same) (ci_entries ix) P.

Lemma core_contains ix P v : ci_unique ix = true → core_rel ix P →
  hm_contains_key (ci_unique_entries ix) v = negb (bool_decide (pairs_lookup hash_same P v = [])).
Proof.
  unfold core_rel. intros -> R. rewrite <- (R v). unfold hm_contains_key.
  by destruct (hm_get (ci_unique_entries ix) v).
Qed.

Lemma hash_same_get {A} (m : hmap A) v w : hm_get m w = None → hash_same v w = true → hm_get m v = None.
Proof. by intros N [-> _]%hash_same_spec. Qed.

Lemma core_step_rel ix P op : core_rel ix P →
  ci_unique (CoreIndex_step ix op) = ci_unique ix ∧
  core_rel (CoreIndex_step ix op) (core_step (ci_unique ix) P op).
Proof.
  intros R. destruct op as [v id|v id|]; cbn [CoreIndex_step core_step]; [| |done].
  - unfold CoreIndex_insert, admits. destruct (ci_unique ix) eqn:U; cbn [negb orb].
    + rewrite (core_contains ix P v U R). case_bool_decide as E; cbn [negb]; [|done]. split; [done|].
      unfold core_rel in *. cbn [snd CoreIndex_with_unique_entries ci_unique ci_unique_entries].
      rewrite U in *. intros w. rewrite hm_get_insert, pairs_lookup_insert, <- R.
      pose proof (R v) as Rv. rewrite E in Rv. unfold hash_same. case_decide; subst.
      * rewrite bool_decide_eq_true_2 by done. cbn [andb].
        destruct (hm_get (ci_unique_entries ix) w) eqn:G; [done|]. by destruct (value_eqb w w).
      * rewrite bool_decide_eq_false_2 by done. by rewrite app_nil_r.
    + split; [done|]. unfold core_rel in *. cbn. rewrite U in *. exact (rel_push _ _ v id R).
  - unfold CoreIndex_remove. destruct (ci_unique ix) eqn:U.
    + split; [done|]. unfold core_rel in *.
      cbn [CoreIndex_with_unique_entries ci_unique ci_unique_entries]. rewrite U in *. intros w.
      rewrite hm_get_remove. unfold pairs_lookup in *. rewrite list_filter_filter. case_decide; subst.
      * rewrite filter_no; [done|]. apply Forall_forall. naive_solver.
      * rewrite R. f_equal. apply list_filter_iff. intros p. split; [|naive_solver].
        intros E. split; [done|]. apply hash_same_spec in E as [E _]. rewrite hash_same_spec. naive_solver.
    + split; [done|]. unfold core_rel in *. cbn. rewrite U in *. exact (rel_remove _ _ v id R).
Qed.

(** The core's hash index is the list of pairs put into it and not taken out, but in
    a unique index a removal takes out whatever row holds the value, whichever row it
    names: a lookup gives the ids of a value in insertion order, and an insert fails
    exactly when the index is unique and has the value. *)
Theorem core_index_refines column unique ops :
  let ix := foldl CoreIndex_step (CoreIndex_new column unique) ops in
  let P := foldl (core_step unique) [] ops in
  (∀ v, CoreIndex_lookup ix v = pairs_lookup hash_same P v) ∧
  (∀ v, CoreIndex_contains ix v = negb (bool_decide (pairs_lookup hash_same P v = []))) ∧
  (∀ v id, CoreIndex_insert ix v id =
     if admits unique P v then (Ok (), CoreIndex_step ix (IxInsert v id))
     else (Err (CoreIndex_duplicate_message ix v), ix)).
Proof.
  intros ix P. assert (ci_unique ix = unique ∧ core_rel ix P) as [U R].
  { subst ix P. assert (core_rel (CoreIndex_new column unique) []) as R.
    { unfold core_rel. cbn. destruct unique; [|exact rel_empty]. intros v. by rewrite hm_get_empty. }
    revert R. assert (ci_unique (CoreIndex_new column unique) = unique) as U by done. revert U.
    generalize (CoreIndex_new column unique), (@nil (value * Z)).
    induction ops as [|op ops IH]; intros ix P U R; [done|]. cbn [foldl].
    destruct (core_step_rel ix P op R) as [U' R']. rewrite U in U', R'. by apply IH. }
  assert (∀ v, CoreIndex_contains ix v = negb (bool_decide (pairs_lookup hash_same P v = []))) as C.
  { intros v. unfold CoreIndex_contains. destruct (ci_unique ix) eqn:E; [by apply core_contains|].
    unfold core_rel in R. rewrite E in R. by apply hash_get_nonempty. }
  split; [|split; [exact C|]].
  - intros v. unfold CoreIndex_lookup, core_rel in *. destruct (ci_unique ix).
    + rewrite <- R. by destruct (hm_get _ v).
    + apply (rel_lookup _ _ R).
  - intros v id. specialize (C v). cbn [CoreIndex_step]. unfold CoreIndex_contains in C.
    unfold CoreIndex_insert, admits. rewrite U in *.
    destruct unique; cbn [negb orb]; [|done]. rewrite C. by case_bool_decide.
Qed.
End hash_theorems.

(** Removing a row from a core unique index under a value another row holds takes that
    other row out. *)
Example unique_remove_ignores_row :
  let _ := demo_json_text in
  let ix := (CoreIndex_insert (H := demo_json_text) (H0 := Build_ValueText (λ _, "") (λ _, "") (λ _, ""))
    (H1 := Build_DisplayText (λ _, "") (λ _, "") (λ _, "") id) (CoreIndex_new "k" true) (VInt64 7) 1).2 in
  CoreIndex_lookup ix (VInt64 7) = [1] ∧ CoreIndex_lookup (CoreIndex_remove ix (VInt64 7) 2) (VInt64 7) = [].
Proof. vm_compute. done. Qed.
