(* ===== verification/Client.v ===== *)
(** [blitz-client]: the typed errors of [error.rs], and of [client.rs] the requests each
    call sends, what it makes of the answer, the version check, and the worker that
    batches queued calls, flushes them and retries. A socket is what it lets through:
    whether a write finishes in time, and the chunks reads deliver until they fail. *)
From S2P Require Import Prelude Float Value HashMap Schema Core Policy Codec Snapshot Wal GroupCommit Durability Tx Shard Query Text Window Changes Jobs Runtime Deploy Server Dispatch Serving.

Local Open Scope Z_scope.

(** ** Typed errors *)

Inductive SdkError : Type :=
| Transport (why : string)
| Timeout (ms : Z)
| Auth (why : string)
| Retryable (why : string)
| NotFound (why : string)
| Invalid (why : string)
| ServerError (why : string)
| Closed.

Definition map_server_error (msg : string) : SdkError :=
  let has := str_contains msg in
  if starts_with msg "unauthorized" || starts_with msg "forbidden" then Auth msg
  else if starts_with msg "WAL backpressure" || starts_with msg "group full" || starts_with msg "rotation in progress"
  then Retryable msg
  else if has "not found"%string || String.eqb msg "not found" then NotFound msg
  else if has "requires values"%string || has "requires row_id"%string || has "too large"%string
          || has "DuplicateKey"%string || has "duplicate value"%string || has "not supported"%string
          || has "not unique"%string || has "validation"%string || has "schema error"%string
          || has "type error"%string
  then Invalid msg
  else ServerError msg.

(** ** Version compatibility *)

Definition MIN_SERVER_VERSION : string := "0.1.0".

(** [core.split(['-', '+']).next()] *)
Fixpoint until_suffix (l : list byte) : list byte :=
  match l with
  | [] => []
  | b :: l => if bool_decide (b = "-"%byte) || bool_decide (b = "+"%byte) then [] else b :: until_suffix l
  end.

Definition parse_version (v : string) : option (Z * Z * Z) :=
  match split_byte "."%byte (until_suffix (str_bytes v)) with
  | a :: b :: c :: _ => a ← parse_u64 a; b ← parse_u64 b; c ← parse_u64 c; Some (a, b, c)
  | _ => None
  end.

(** [v >= floor] on triples. *)
Definition version_geb (v floor : Z * Z * Z) : bool :=
  match v.1.1 ?= floor.1.1, v.1.2 ?= floor.1.2, v.2 ?= floor.2 with
  | Gt, _, _ => true
  | Lt, _, _ => false
  | Eq, Gt, _ => true
  | Eq, Lt, _ => false
  | Eq, Eq, Lt => false
  | Eq, Eq, _ => true
  end.

(** [own] is the client's own version, a build constant that only messages show. *)
Definition check_compat (own server : string) (protocol : Z) : result SdkError () :=
  if negb (protocol =? PROTOCOL_VERSION) then
    Err (ServerError ("BlitzDB client v" +:+ own +:+ " (protocol " +:+ dec PROTOCOL_VERSION +:+ ") requires server protocol "
      +:+ dec PROTOCOL_VERSION +:+ " (server v" +:+ server +:+ " speaks v" +:+ dec protocol +:+ ")"))
  else
    let floor := default (0, 1, 0) (parse_version MIN_SERVER_VERSION) in
    let too_old := Err (ServerError ("BlitzDB client v" +:+ own +:+ " requires BlitzDB server >= " +:+ MIN_SERVER_VERSION
      +:+ " (found " +:+ server +:+ ")")) in
    match parse_version server with
    | Some v => if version_geb v floor then Ok () else too_old
    | None => too_old
    end.

(** What the handshake reads off the answer to [Version]. *)
Definition version_answer `{DebugText} (own : string) (resp : Response) : result SdkError () :=
  if negb (resp_ok resp) then Err (Transport ("version refused: " +:+
      match resp_error resp with Some e => "Some(" +:+ str_debug e +:+ ")" | None => "None" end))
  else
    match resp_rows resp with
    | [] => Err (Transport "empty version response")
    | row :: _ =>
        match rv_values row !! "server"%string with
        | Some (VString server) =>
            match rv_values row !! "protocol"%string with
            | Some (VInt64 n) | Some (VUInt64 n) => check_compat own server (wrap 8 n)
            | _ => Err (Transport "version response missing protocol int")
            end
        | _ => Err (Transport "version response missing server string")
        end
    end.

(** What one read of the handshake yields; no bytes are the end of the stream. *)
Inductive wire_read : Type := WireRead (chunk : list byte) | WireLate | WireFailed (why : string).

Definition version_request : Request := MkRequest 0 OVersion EmptyString None None.

(** The loop of [check_wire_compat]; [None]: it still waits for a read. The detail that
    follows the text of a framing or decoding error is left out. *)
Fixpoint await_version `{DebugText} `{Chrono} (own : string) (ms : Z) (buf : list byte) (reads : list wire_read)
    : option (result SdkError ()) :=
  match reads with
  | [] => None
  | WireLate :: _ => Some (Err (Timeout ms))
  | WireFailed why :: _ => Some (Err (Transport ("version read: " +:+ why)))
  | WireRead [] :: _ => Some (Err (Transport "server closed during version check"))
  | WireRead chunk :: reads =>
      match feed DEFAULT_MAX_FRAME (buf ++ chunk) with
      | (Err _, _) => Some (Err (Transport "version framing"))
      | (Ok (Some payload), _) =>
          Some (resp ← map_err (λ _, Transport "version decode") (decode_response payload); version_answer own resp)
      | (Ok None, buf) =>
          if 65536 <? Z.of_nat (length buf) then Some (Err (Transport "version response too large"))
          else await_version own ms buf reads
      end
  end.

(** [check_wire_compat]; [write]: what writing the request comes to. *)
Definition check_wire_compat `{DebugText} `{Chrono} `{MapOrder} (own : string) (ms : Z) (write : result SdkError ()) (reads : list wire_read)
    : option (result SdkError ()) :=
  match encode_request DEFAULT_MAX_FRAME version_request, write with
  | Err _, _ => Some (Err (Transport "version encode"))
  | Ok _, Err e => Some (Err e)
  | Ok _, Ok _ => await_version own ms [] reads
  end.

(** ** Requests *)

Record Client : Type := MkClient {
  cl_next_id : Z;
  cl_idem_prefix : string;
  cl_idem_next : Z
}.

(** [connect]: the prefix is a fresh uuid. *)
Definition Client_new (prefix : string) : Client := MkClient 1 prefix 1.

Definition alloc_id (c : Client) : Z * Client :=
  (cl_next_id c, MkClient (wrap 64 (cl_next_id c + 1)) (cl_idem_prefix c) (cl_idem_next c)).
Definition alloc_idem (c : Client) : string * Client :=
  (cl_idem_prefix c +:+ "-" +:+ dec (cl_idem_next c),
   MkClient (cl_next_id c) (cl_idem_prefix c) (wrap 64 (cl_idem_next c + 1))).

(** The calls of the API, as the request they send. *)
Inductive call : Type :=
| CAuthenticate (token : string)
| CPing
| CInsert (table : string) (vs : values)
| CInsertFast (table : string) (vs : values)
| CGet (table : string) (id : Z)
| CUpdate (table : string) (id : Z) (vs : values)
| CDelete (table : string) (id : Z)
| CScan (table : string) (limit : Z) (cursor : option Z) (desc : bool)
| CFind (table column : string) (v : value)
| CSearch (table query : string) (limit : Z)
| CCreateTable (schema : json)
| CCall (name : string) (args : values).

Definition scan_values (limit : Z) (cursor : option Z) (desc : bool) : values :=
  let vs : values := {["_limit"%string := VInt64 (sign 64 limit)]} in
  let vs := if desc then <["_order"%string := VString "desc"]> vs else vs in
  match cursor with Some c => <["_cursor"%string := VUInt64 c]> vs | None => vs end.

(** What the call puts in its request; the idempotency key of an insert is drawn first. *)
Definition call_body (c : Client) (k : call) : (Op * string * option Z * option values) * Client :=
  match k with
  | CAuthenticate token => ((Ping, EmptyString, None, Some {["_auth"%string := VString token]}), c)
  | CPing => ((Ping, EmptyString, None, None), c)
  | CInsert table vs =>
      let '(key, c) := alloc_idem c in
      ((OInsert, table, None, Some (<["_idem"%string := VString key]> vs)), c)
  | CInsertFast table vs => ((OInsert, table, None, Some vs), c)
  | CGet table id => ((OGet, table, Some id, None), c)
  | CUpdate table id vs => ((OUpdate, table, Some id, Some vs), c)
  | CDelete table id => ((ODelete, table, Some id, None), c)
  | CScan table limit cursor desc => ((OScan, table, None, Some (scan_values limit cursor desc)), c)
  | CFind table column v => ((OFind, table, None, Some (<["_col"%string := VString column]> {["_val"%string := v]})), c)
  | CSearch table query limit =>
      ((OSearch, table, None, Some (<["_q"%string := VString query]> {["_limit"%string := VInt64 (sign 64 limit)]})), c)
  | CCreateTable schema => ((OTableCreate, EmptyString, None, Some {["schema"%string := VJson schema]}), c)
  | CCall name args => ((OCall, "fn:" +:+ name, None, Some args), c)
  end.

Definition call_request (c : Client) (k : call) : Request * Client :=
  let '((op, table, id, vs), c) := call_body c k in
  let '(rid, c) := alloc_id c in (MkRequest rid op table id vs, c).

(** Which calls may be sent twice: [exec]'s flag, and [exec_direct]. *)
Definition retry_safe_call (k : call) : bool :=
  match k with
  | CAuthenticate _ | CPing | CInsert _ _ | CGet _ _ | CScan _ _ _ _ | CFind _ _ _ | CSearch _ _ _ => true
  | CInsertFast _ _ | CUpdate _ _ _ | CDelete _ _ | CCreateTable _ | CCall _ _ => false
  end.
Definition direct_call (k : call) : bool :=
  match k with CAuthenticate _ | CPing => true | _ => false end.

(** ** Answers *)

Abbreviation answer := (result SdkError).

Definition error_of (resp : Response) : string := default "unknown error"%string (resp_error resp).
Definition ok_rows (resp : Response) : answer (list RowView) :=
  if resp_ok resp then Ok (resp_rows resp) else Err (map_server_error (error_of resp)).

Definition unit_answer (r : answer Response) : answer () :=
  resp ← r; rows ← ok_rows resp; mret ().
Definition rows_answer (r : answer Response) : answer (list RowView) := resp ← r; ok_rows resp.
(** [rows.pop()], for insert, update, create_table and call. *)
Definition pop_answer (what : string) (r : answer Response) : answer RowView :=
  rows ← rows_answer r; ok_or (last rows) (ServerError (what +:+ " returned no rows")).

Definition optional_answer (missing : string → bool) (r : answer Response) : answer (option RowView) :=
  resp ← r;
  if resp_ok resp then Ok (head (resp_rows resp))
  else if missing (error_of resp) then Ok None else Err (map_server_error (error_of resp)).
Definition get_answer : answer Response → answer (option RowView) :=
  optional_answer (λ msg, starts_with msg "row not found").
Definition find_answer : answer Response → answer (option RowView) :=
  optional_answer (λ msg, String.eqb msg "not found").

Definition create_table_answer (r : answer Response) : answer string :=
  row ← pop_answer "table_create" r;
  match rv_values row !! "table"%string with
  | Some (VString t) => Ok t
  | _ => Err (ServerError "table_create response missing table")
  end.

(** [v.get(key)] on any JSON value. *)
Definition json_field (v : json) (key : string) : option json := m ← as_object v; obj_get m key.
Definition applied_entry (v : json) : option (string * Z) :=
  t ← json_field v "table" ≫= json_as_str;
  i ← json_field v "id" ≫= (λ i, match i with JNumber n => num_as_u64 n | _ => None end);
  Some (t, i).

Record CallResult : Type := MkCallResult { cr_values : values; cr_applied : list (string * Z) }.
Definition call_answer (r : answer Response) : answer CallResult :=
  row ← pop_answer "call" r;
  let applied := match rv_values row !! "_applied"%string with
                 | Some (VJson (JArray arr)) => omap applied_entry arr
                 | _ => []
                 end in
  Ok (MkCallResult (delete "_applied"%string (rv_values row)) applied).

(** ** One frame there and back *)

Record Link : Type := MkLink { lk_written : bool; lk_reads : list (list byte) }.

Section worker.
Context `{Chrono} `{MapOrder}.

Definition request_frame (reqs : list Request) : result protocol_error (list byte) :=
  match reqs with
  | [r] => encode_request DEFAULT_MAX_FRAME r
  | _ => encode_batch_request DEFAULT_MAX_FRAME (MkBatchRequest (default 0 (req_id <$> head reqs)) reqs)
  end.

(** What a complete payload says to [n] requests. *)
Definition payload_answers (n : nat) (payload : list byte) : option (list (answer Response)) :=
  if (n =? 1)%nat then resp ← ok (decode_response payload); Some [Ok resp]
  else
    bresp ← ok (decode_batch_response payload);
    if (length (bresp_results bresp) =? n)%nat then Some (Ok <$> bresp_results bresp) else None.

(** Reading until a frame is complete; an empty read is the end of the stream. *)
Fixpoint read_answers (n : nat) (buf : list byte) (reads : list (list byte)) : option (list (answer Response)) * list byte :=
  match feed DEFAULT_MAX_FRAME buf with
  | (Err _, buf) => (None, buf)
  | (Ok (Some payload), buf) => (payload_answers n payload, buf)
  | (Ok None, buf) =>
      match reads with
      | [] | [] :: _ => (None, buf)
      | chunk :: reads => read_answers n (buf ++ chunk) reads
      end
  end.

(** [flush_once]: the answers, the buffer, and the bytes it set out to write. *)
Definition flush_once (buf : list byte) (reqs : list Request) (lk : Link)
    : option (list (answer Response)) * list byte * list (list byte) :=
  match request_frame reqs with
  | Err _ => (None, buf, [])
  | Ok f =>
      if lk_written lk then let '(r, buf) := read_answers (length reqs) buf (lk_reads lk) in (r, buf, [f])
      else (None, buf, [f])
  end.

(** ** Flushing a run of pending calls *)

(** A pending call; [p_reply] names the caller's one-shot channel. *)
Record Pending : Type := MkPending {
  p_req : Request;
  p_reply : nat;
  p_retry_safe : bool;
  p_enqueued : Z
}.

Definition reply : Type := nat * answer Response.

Definition fail_all (batch : list Pending) (e : SdkError) : list reply := (λ p, (p_reply p, Err e)) <$> batch.

(** What the world does while one run is flushed: the clock, the connection, and the
    connection that a reconnect gets, if any. *)
Record FlushEnv : Type := MkFlushEnv { fe_now : Z; fe_link : Link; fe_reconnect : option Link }.

(** The queue deadline. *)
Definition expired (timeout : Z) (env : FlushEnv) (p : Pending) : bool :=
  timeout <=? Z.max 0 (fe_now env - p_enqueued p).

(** The replies, the buffer of the connection that goes on ([None]: it is lost), and the
    frames that were sent. *)
Definition flush_pending (timeout : Z) (env : FlushEnv) (buf : list byte) (batch : list Pending)
    : list reply * option (list byte) * list (list byte) :=
  let late := filter (λ p, expired timeout env p = true) batch in
  let fresh := filter (λ p, expired timeout env p = false) batch in
  let replies := fail_all late (Timeout timeout) in
  match fresh with
  | [] => (replies, Some buf, [])
  | _ =>
      let reqs := p_req <$> fresh in
      match flush_once buf reqs (fe_link env) with
      | (Some rs, buf, sent) => (replies ++ zip (p_reply <$> fresh) rs, Some buf, sent)
      | (None, _, sent) =>
          if forallb p_retry_safe fresh then
            match fe_reconnect env with
            | None => (replies ++ fail_all fresh (Transport "flush failed; reconnect failed"), None, sent)
            | Some lk =>
                match flush_once [] reqs lk with
                | (Some rs, buf, again) => (replies ++ zip (p_reply <$> fresh) rs, Some buf, sent ++ again)
                | (None, _, again) => (replies ++ fail_all fresh (Transport "flush failed after reconnect"), None, sent ++ again)
                end
            end
          else (replies ++ fail_all fresh (Transport "flush failed (not retry-safe; retry manually)"), None, sent)
      end
  end.

(** ** The worker *)

Inductive Cmd : Type := CmdBatch (p : Pending) | CmdDirect (p : Pending).
Definition cmd_pending (c : Cmd) : Pending := match c with CmdBatch p | CmdDirect p => p end.
Definition fail_cmd (c : Cmd) (msg : string) : reply := (p_reply (cmd_pending c), Err (Transport msg)).

Definition MAX_FLUSH_OPS : nat := 4096.
Definition FLUSH_CHUNK : nat := 16.

(** Up to [n] batchable commands in a row. *)
Fixpoint take_run (n : nat) (cmds : list Cmd) : list Pending * list Cmd :=
  match n, cmds with
  | S n, CmdBatch p :: cmds => let '(run, rest) := take_run n cmds in (p :: run, rest)
  | _, _ => ([], cmds)
  end.

(** The next run: a direct command alone, or batchable ones together. *)
Definition next_run (cmds : list Cmd) : list Pending * list Cmd :=
  match cmds with
  | CmdDirect p :: cmds => ([p], cmds)
  | _ => take_run FLUSH_CHUNK cmds
  end.

(** The segments of a drain, each flushed in turn; [envs] tells them apart. *)
Fixpoint flush_segments (fuel : nat) (timeout : Z) (envs : nat → FlushEnv) (buf : list byte) (cmds : list Cmd)
    : option (list reply * option (list byte) * list (list byte)) :=
  match cmds, fuel with
  | [], _ => Some ([], Some buf, [])
  | _, O => None
  | _, S fuel =>
      let '(run, rest) := next_run cmds in
      match flush_pending timeout (envs O) buf run with
      | (rs, Some buf, sent) =>
          '(rs', buf, sent') ← flush_segments fuel timeout (λ n, envs (S n)) buf rest;
          Some (rs ++ rs', buf, sent ++ sent')
      | (rs, None, sent) => Some (rs ++ ((λ c, fail_cmd c "connection lost during flush") <$> rest), None, sent)
      end
  end.

(** The worker between two receives: the connection's buffer, [None] when it is lost, and
    the commands that are queued. *)
Record Worker : Type := MkWorker { wk_buf : option (list byte); wk_queue : list Cmd }.

(** One turn of [worker_loop], from a receive to the end of its drain; [None]: it blocks.
    [reconnects]: what a connect attempt gives. *)
Definition worker_turn (timeout : Z) (envs : nat → FlushEnv) (reconnects : bool) (w : Worker)
    : option (list reply * Worker * list (list byte)) :=
  match wk_queue w with
  | [] => None
  | first :: queue =>
      match (match wk_buf w with Some buf => Some buf | None => if reconnects then Some [] else None end) with
      | None => Some ([fail_cmd first "connection lost; reconnect failed"], MkWorker None queue, [])
      | Some buf =>
          let cmds := firstn MAX_FLUSH_OPS (first :: queue) in
          '(rs, buf, sent) ← flush_segments (length cmds) timeout envs buf cmds;
          Some (rs, MkWorker buf (skipn MAX_FLUSH_OPS (first :: queue)), sent)
      end
  end.
End worker.

(** ** Lemmas: one reply per pending call *)

Section worker_lemmas.
Context `{Chrono} `{MapOrder}.

Lemma payload_answers_length n payload rs : payload_answers n payload = Some rs → length rs = n.
Proof.
  unfold payload_answers. destruct (Nat.eqb_spec n 1) as [->|N].
  - destruct (decode_response payload); cbn; [|done]. by intros [= <-].
  - destruct (decode_batch_response payload) as [b|]; cbn; [|done].
    destruct (Nat.eqb_spec (length (bresp_results b)) n); [|done]. intros [= <-]. by rewrite length_fmap.
Qed.

Lemma read_answers_length n reads : ∀ buf rs buf',
  read_answers n buf reads = (Some rs, buf') → length rs = n.
Proof.
  induction reads as [|c reads IH]; intros buf rs buf'; cbn [read_answers];
    destruct (feed DEFAULT_MAX_FRAME buf) as [[[p|]|e] b]; try done.
  - intros [= E _]. by eapply payload_answers_length.
  - intros [= E _]. by eapply payload_answers_length.
  - destruct c as [|x c]; [done|]. apply IH.
Qed.

Lemma flush_once_spec buf reqs lk r buf' sent : flush_once buf reqs lk = (r, buf', sent) →
  (∀ rs, r = Some rs → length rs = length reqs) ∧
  match request_frame reqs with Ok f => sent = [f] | Err _ => sent = [] ∧ r = None end.
Proof.
  unfold flush_once. destruct (request_frame reqs) as [f|]; [|by intros [= <- _ <-]].
  destruct (lk_written lk).
  - destruct (read_answers _ _ _) as [r' b] eqn:R. intros [= <- _ <-]. split; [|done].
    intros rs ->. by eapply read_answers_length.
  - by intros [= <- _ <-].
Qed.

Lemma fail_all_slots batch e : (fail_all batch e).*1 = p_reply <$> batch.
Proof. unfold fail_all. by rewrite <- list_fmap_compose. Qed.

Lemma zip_slots batch (rs : list (answer Response)) :
  length rs = length batch → (zip (p_reply <$> batch) rs).*1 = p_reply <$> batch.
Proof. intros L. apply fst_zip. by rewrite length_fmap, L. Qed.

Lemma late_fresh_perm (f : Pending → bool) batch :
  filter (λ p, f p = true) batch ++ filter (λ p, f p = false) batch ≡ₚ batch.
Proof.
  induction batch as [|p batch IH]; [done|]. rewrite !filter_cons. destruct (f p); simpl.
  - by rewrite IH.
  - by rewrite <- Permutation_middle, IH.
Qed.

(** Every pending call of a run gets exactly one reply, whatever the world does. *)
Lemma flush_pending_slots timeout env buf batch rs buf' sent :
  flush_pending timeout env buf batch = (rs, buf', sent) → rs.*1 ≡ₚ p_reply <$> batch.
Proof.
  unfold flush_pending. intros E. rewrite <- (late_fresh_perm (expired timeout env) batch), fmap_app.
  destruct (filter (λ p, expired timeout env p = false) batch) as [|p0 fresh0] eqn:F.
  { injection E as <- _ _. rewrite fail_all_slots. by rewrite app_nil_r. }
  set (fresh := p0 :: fresh0) in *. clearbody fresh.
  destruct (flush_once buf (p_req <$> fresh) (fe_link env)) as [[r b] s] eqn:O.
  destruct (flush_once_spec _ _ _ _ _ _ O) as [L _].
  destruct r as [ans|].
  { injection E as <- _ _. rewrite fmap_app, fail_all_slots, zip_slots; [done|].
    by rewrite (L ans eq_refl), length_fmap. }
  destruct (forallb p_retry_safe fresh).
  - destruct (fe_reconnect env) as [lk|].
    + destruct (flush_once [] (p_req <$> fresh) lk) as [[[ans|] b'] s'] eqn:O'; injection E as <- _ _.
      * destruct (flush_once_spec _ _ _ _ _ _ O') as [L' _].
        rewrite fmap_app, fail_all_slots, zip_slots; [done|]. by rewrite (L' ans eq_refl), length_fmap.
      * by rewrite fmap_app, !fail_all_slots.
    + injection E as <- _ _. by rewrite fmap_app, !fail_all_slots.
  - injection E as <- _ _. by rewrite fmap_app, !fail_all_slots.
Qed.

Definition slots (cmds : list Cmd) : list nat := (λ c, p_reply (cmd_pending c)) <$> cmds.

Lemma take_run_slots n : ∀ cmds run rest, take_run n cmds = (run, rest) →
  slots cmds = (p_reply <$> run) ++ slots rest ∧ length cmds = (length run + length rest)%nat.
Proof.
  induction n as [|n IH]; intros cmds run rest; cbn; [by intros [= <- <-]|].
  destruct cmds as [|[p|p] cmds]; try by intros [= <- <-].
  destruct (take_run n cmds) as [r rs] eqn:T. intros [= <- <-].
  destruct (IH _ _ _ T) as [E L]. split; [|cbn; lia].
  unfold slots in *. rewrite !fmap_cons, E. done.
Qed.

Lemma take_run_first n p cmds run rest :
  take_run (S n) (CmdBatch p :: cmds) = (run, rest) → (length rest <= length cmds)%nat.
Proof.
  intros T. destruct (take_run_slots _ _ _ _ T) as [_ L]. cbn [take_run] in T.
  destruct (take_run n cmds) as [r rs]. injection T as <- <-. cbn in L. lia.
Qed.

Lemma next_run_slots c cmds run rest : next_run (c :: cmds) = (run, rest) →
  slots (c :: cmds) = (p_reply <$> run) ++ slots rest ∧ (length rest <= length cmds)%nat.
Proof.
  destruct c as [p|p]; cbn [next_run].
  - intros T. destruct (take_run_slots _ _ _ _ T) as [E L]. split; [exact E|].
    by apply (take_run_first 15 p cmds run).
  - by intros [= <- <-].
Qed.

Lemma flush_segments_slots timeout fuel : ∀ envs buf cmds, (length cmds <= fuel)%nat →
  ∃ rs buf' sent, flush_segments fuel timeout envs buf cmds = Some (rs, buf', sent) ∧ rs.*1 ≡ₚ slots cmds.
Proof.
  induction fuel as [|fuel IH]; intros envs buf cmds L.
  { destruct cmds; [|cbn in L; lia]. eexists _, _, _. done. }
  destruct cmds as [|c cmds]; [by eexists _, _, _|]. cbn [flush_segments].
  destruct (next_run (c :: cmds)) as [run rest] eqn:N.
  destruct (next_run_slots _ _ _ _ N) as [E Lr]. cbn [length] in L.
  destruct (flush_pending timeout (envs O) buf run) as [[rs b] s] eqn:F.
  apply flush_pending_slots in F. destruct b as [b|].
  - destruct (IH (λ n, envs (S n)) b rest) as (rs' & b' & s' & -> & P); [lia|]. cbn [mbind option_bind].
    eexists _, _, _. split; [done|]. by rewrite E, fmap_app, F, P.
  - eexists _, _, _. split; [done|]. rewrite E, fmap_app, F. f_equiv.
    unfold slots. by rewrite <- list_fmap_compose.
Qed.

Lemma worker_turn_slots timeout envs reconnects w : wk_queue w ≠ [] →
  ∃ rs w' sent, worker_turn timeout envs reconnects w = Some (rs, w', sent) ∧
    rs.*1 ++ slots (wk_queue w') ≡ₚ slots (wk_queue w) ∧
    (length (wk_queue w') < length (wk_queue w))%nat.
Proof.
  intros N. unfold worker_turn. destruct (wk_queue w) as [|first queue]; [done|]. clear N.
  destruct (match wk_buf w with Some buf => Some buf | None => _ end) as [buf|].
  - destruct (flush_segments_slots timeout _ envs buf (firstn MAX_FLUSH_OPS (first :: queue)) (le_n _))
      as (rs & b & s & -> & P). cbn [mbind option_bind]. eexists _, _, _. split; [done|]. cbn [wk_queue]. split.
    + rewrite P. unfold slots. by rewrite <- fmap_app, firstn_skipn.
    + rewrite length_skipn. unfold MAX_FLUSH_OPS. cbn [length]. lia.
  - eexists _, _, _. split; [done|]. cbn [wk_queue length]. split; [done|lia].
Qed.

(** Turn after turn, each in a world of its own, until the queue is empty. *)
Fixpoint worker_run (fuel : nat) (timeout : Z) (worlds : nat → (nat → FlushEnv) * bool) (w : Worker)
    : list reply * Worker :=
  match fuel with
  | O => ([], w)
  | S fuel =>
      match worker_turn timeout (worlds O).1 (worlds O).2 w with
      | None => ([], w)
      | Some (rs, w, _) => let '(rs', w) := worker_run fuel timeout (λ n, worlds (S n)) w in (rs ++ rs', w)
      end
  end.

(** C27: Every call that was queued gets exactly one reply, an answer or an error: whatever
    the clock, the connections and the server do, and however calls are batched, as many
    turns of the worker as there are calls empty the queue, and the replies go to exactly
    the calls that were in it. *)
Theorem every_call_answered_once timeout worlds w :
  let '(rs, w') := worker_run (length (wk_queue w)) timeout worlds w in
  wk_queue w' = [] ∧ rs.*1 ≡ₚ slots (wk_queue w).
Proof.
  remember (length (wk_queue w)) as n eqn:En. assert (length (wk_queue w) <= n)%nat as L by lia. clear En.
  revert worlds w L. induction n as [|n IH]; intros worlds w L.
  { cbn. destruct (wk_queue w); [done|cbn in L; lia]. }
  cbn [worker_run]. destruct (decide (wk_queue w = [])) as [E|N].
  { unfold worker_turn. rewrite E. done. }
  destruct (worker_turn_slots timeout (worlds O).1 (worlds O).2 w N) as (rs & w1 & s & -> & P & Lt).
  specialize (IH (λ n, worlds (S n)) w1 ltac:(lia)). destruct (worker_run n _ _ w1) as [rs' w'].
  destruct IH as [-> P']. split; [done|]. by rewrite fmap_app, P', P.
Qed.
End worker_lemmas.

(** ** What is sent twice *)

Section resend.
Context `{Chrono} `{MapOrder}.

(** A request that may be applied twice without harm: it reads, or it is an insert under
    an idempotency key. *)
Definition repeatable (req : Request) : Prop :=
  match req_op req with
  | Ping | OGet | OScan | OFind | OSearch => True
  | OInsert => ∃ vs key, req_values req = Some vs ∧ vs !! "_idem"%string = Some (VString key)
  | _ => False
  end.

Lemma call_request_repeatable c k : retry_safe_call k = true → repeatable (call_request c k).1.
Proof.
  destruct k; try done; intros _; cbn; try exact I.
  unfold repeatable. cbn. eexists _, _. split; [done|]. by rewrite lookup_insert_eq.
Qed.

(** C28: The client sends a frame a second time only on a new connection, at most once,
    byte for byte, and only when every call in it may be repeated; and the calls it marks
    so are reads, pings, and inserts that carry an idempotency key of their own. *)
Theorem resends_only_repeatable timeout env buf batch :
  Forall (λ p, p_retry_safe p = true → ∃ c k, p_req p = (call_request c k).1 ∧ retry_safe_call k = true) batch →
  let fresh := filter (λ p, expired timeout env p = false) batch in
  let '(_, _, sent) := flush_pending timeout env buf batch in
  sent = [] ∨ ∃ f, request_frame (p_req <$> fresh) = Ok f ∧
    (sent = [f] ∨
     sent = [f; f] ∧ is_Some (fe_reconnect env) ∧ Forall (λ p, repeatable (p_req p)) fresh).
Proof.
  intros A fresh.
  assert (Forall (λ p, p_retry_safe p = true → repeatable (p_req p)) fresh) as R.
  { apply Forall_forall. intros p [_ Hp]%list_elem_of_filter S.
    destruct (proj1 (Forall_forall _ _) A p Hp S) as (c & k & -> & K). by apply call_request_repeatable. }
  destruct (flush_pending timeout env buf batch) as [[rs bf] sent] eqn:E. unfold flush_pending in E. fold fresh in E.
  clearbody fresh. destruct fresh as [|p0 fresh0]; [injection E as _ _ <-; by left|].
  set (fresh := p0 :: fresh0) in *. clearbody fresh.
  destruct (flush_once buf (p_req <$> fresh) (fe_link env)) as [[r b] s] eqn:O.
  destruct (flush_once_spec _ _ _ _ _ _ O) as [_ Es].
  destruct (request_frame (p_req <$> fresh)) as [f|e] eqn:F.
  - right. exists f. split; [done|]. subst s. destruct r as [ans|]; [injection E as _ _ <-; by left|].
    destruct (forallb p_retry_safe fresh) eqn:S; [|injection E as _ _ <-; by left].
    destruct (fe_reconnect env) as [lk|]; [|injection E as _ _ <-; by left]. right.
    assert (Forall (λ p, repeatable (p_req p)) fresh) as R'.
    { apply Forall_forall. intros p Hp. apply (proj1 (Forall_forall _ _) R p Hp).
      apply list_elem_of_In in Hp. by apply (proj1 (forallb_forall _ _) S). }
    destruct (flush_once [] (p_req <$> fresh) lk) as [[[ans|] b'] s'] eqn:O';
      destruct (flush_once_spec _ _ _ _ _ _ O') as [_ Es']; rewrite F in Es'; subst s';
      injection E as _ _ <-; eauto.
  - destruct Es as [-> ->]. left. destruct (forallb p_retry_safe fresh); [|by injection E as _ _ <-].
    destruct (fe_reconnect env) as [lk|]; [|by injection E as _ _ <-].
    destruct (flush_once [] (p_req <$> fresh) lk) as [[[ans|] b'] s'] eqn:O';
      destruct (flush_once_spec _ _ _ _ _ _ O') as [_ Es']; rewrite F in Es'; destruct Es' as [-> ?]; [done|].
    by injection E as _ _ <-.
Qed.
End resend.

(** ** Against the server *)

Lemma starts_with_pattern (pat s : string) : starts_with (pat +:+ s) pat = true.
Proof. unfold starts_with. rewrite str_bytes_app, strip_prefix_app. by rewrite bool_decide_true. Qed.

Section answers.
Context `{Chrono} `{MapOrderLaws}.

(** A frame that arrives in pieces is read as the payload it carries. *)
Lemma read_answers_frame n payload f reads : ∀ buf,
  frame DEFAULT_MAX_FRAME payload = Ok f → buf ++ mjoin reads = f → Forall (λ c, c ≠ []) reads →
  read_answers n buf reads = (payload_answers n payload, []).
Proof.
  intros buf F. pose proof (frame_ok DEFAULT_MAX_FRAME payload f ltac:(done) F []) as W.
  rewrite app_nil_r in W. clear F. revert buf. induction reads as [|c reads IH]; intros buf E N.
  { change (mjoin []) with (@nil byte) in E. rewrite app_nil_r in E. subst buf. cbn [read_answers]. by rewrite W. }
  change (mjoin (c :: reads)) with (c ++ mjoin reads) in E. rewrite <- E in W.
  apply Forall_cons in N as [Nc N]. destruct c as [|x c]; [done|]. cbn [read_answers].
  destruct (feed DEFAULT_MAX_FRAME buf) as [[[p|]|e] b] eqn:Fd.
  - destruct (feed_some _ _ _ _ ((x :: c) ++ mjoin reads) Fd) as [W' _]. rewrite W in W'.
    injection W' as _ W'. by destruct b.
  - apply feed_none in Fd as ->. apply IH; [|done]. by rewrite <- app_assoc.
  - destruct (feed_err _ _ _ _ ((x :: c) ++ mjoin reads) Fd) as [_ W']. rewrite W in W'. done.
Qed.

Lemma flush_once_reads req r f reads w :
  encode_request DEFAULT_MAX_FRAME req = Ok w →
  encode_response DEFAULT_MAX_FRAME r = Ok f → response_okb r = true →
  mjoin reads = f → Forall (λ c, c ≠ []) reads →
  flush_once [] [req] (MkLink true reads) = (Some [Ok r], [], [w]).
Proof.
  intros W F O E N. unfold flush_once. cbn [request_frame]. rewrite W. cbn [lk_written lk_reads length].
  rewrite (read_answers_frame 1 _ f reads [] F E N). unfold payload_answers. cbn [Nat.eqb].
  by rewrite decode_response_payload.
Qed.
End answers.

Section against_server.
Context `{JsonText} `{ValueText} `{JsonBytes} `{DisplayText} `{DebugText} `{Chrono} `{MapOrderLaws} `{RowOrder}
  `{TableHash} `{KeyOrder} `{DeploySerde} `{PushChannel}.

(** The server's refusals reach the caller as what they are: authorization errors as
    [Auth], a refusal of the write-ahead log as [Retryable], a row [Get] misses and a value
    [Find] misses as an absent row. *)
Theorem server_errors_classified (id global : Z) (why : string) :
  (∀ e, map_server_error (auth_error_text e) = Auth (auth_error_text e)) ∧
  map_server_error ("WAL backpressure: " +:+ why) = Retryable ("WAL backpressure: " +:+ why) ∧
  get_answer (Ok (Response_err id (row_not_found global))) = Ok None ∧
  find_answer (Ok (Response_err id "not found")) = Ok None.
Proof.
  split_and!.
  - by intros [].
  - unfold map_server_error.
    assert (starts_with ("WAL backpressure: " +:+ why) "unauthorized" = false) as -> by reflexivity.
    assert (starts_with ("WAL backpressure: " +:+ why) "forbidden" = false) as -> by reflexivity.
    assert (starts_with ("WAL backpressure: " +:+ why) "WAL backpressure" = true) as -> by reflexivity. done.
  - unfold get_answer, optional_answer. cbn [mbind result_bind resp_ok Response_err].
    change (error_of _) with ("row not found: " +:+ dec global).
    pose proof (starts_with_pattern "row not found" (": " +:+ dec global)) as S.
    change ("row not found" +:+ _) with ("row not found: " +:+ dec global) in S. by rewrite S.
  - done.
Qed.

Lemma acknowledged_insert_recorded env s authed req key r s' :
  (req_values req ≫= λ vs, vs !! "_idem"%string) = Some (VString key) → idem_lookup s key = None →
  dispatch_insert env s authed req = (r, s') → resp_ok r = true →
  ∃ vs view, req_values req = Some vs ∧ resp_rows r = [view] ∧ rv_values view = delete "_idem"%string vs ∧
    r = Response_ok (req_id req) [view] ∧ blob_too_large (req_table req) vs = false ∧
    idem_lookup s' key = Some (rv_id view).
Proof.
  intros K N D Ok. unfold dispatch_insert in D. destruct (req_values req) as [vs|]; [|done]. cbn in K.
  destruct (blob_too_large _ _) eqn:B; [by injection D as <- <-|]. unfold take_idem in D. rewrite K in D.
  cbn [mbind option_bind] in D. rewrite N in D.
  destruct (enforce_owner _ _ _ _ _); [|by injection D as <- <-].
  unfold insert_row in D. destruct (route_insert _ _ _) as [physical shard].
  destruct (if skip_validation (sv_config s) then _ else _) as [[local|er] e]; [|by injection D as <- <-].
  destruct (wal_log _ _ _ _ _) as [[[]|w] s1]; [|by injection D as <- <-].
  fold (acked env s1 req (Some key) physical local (compose_id shard local) (delete "_idem"%string vs)) in D.
  injection D as <- <-. eexists vs, _. split_and!; try done. apply acked_idem.
Qed.

(** C16: An insert whose answer is lost is applied once: when the first frame was applied
    and acknowledged but the client never read the answer, the frame it resends on a new
    connection, as long as the server still holds the insert's idempotency key, changes
    nothing on the server, and its answer, in whatever pieces it arrives, gives the caller
    exactly the row the first one stored. *)
Theorem retried_insert_applies_once c table vs env env' s s1 s2 authed authed' r timeout now enq buf slot lk f reads :
  let req := (call_request c (CInsert table vs)).1 in
  let key := (alloc_idem c).1 in
  fresh_ids (sv_engine s) → idem_lookup s key = None →
  dispatch_insert env s authed req = (r, s1) → resp_ok r = true →
  (flush_once buf [req] lk).1.1 = None → Z.max 0 (now - enq) < timeout →
  idem_lookup s2 key = idem_lookup s1 key →
  let again := dispatch_insert env' s2 authed' req in
  is_ok (encode_request DEFAULT_MAX_FRAME req) = true →
  encode_response DEFAULT_MAX_FRAME again.1 = Ok f → response_okb again.1 = true →
  mjoin reads = f → Forall (λ c, c ≠ []) reads →
  again.2 = s2 ∧ ∃ view,
    inserted s s1 req (delete "_idem"%string vs) view ∧
    (flush_pending timeout (MkFlushEnv now lk (Some (MkLink true reads))) buf [MkPending req slot true enq]).1.1 =
      [(slot, Ok r)] ∧
    pop_answer "insert" (Ok r) = Ok view.
Proof.
  intros req key. assert (∃ rid, req = MkRequest rid OInsert table None (Some (<["_idem"%string := VString key]> vs))) as [rid Q].
  { eexists. reflexivity. }
  clearbody req key. intros F N D Ok L T K again. subst again.
  destruct (dispatch_insert env' s2 authed' req) as [r2 s3] eqn:D2. cbn [fst snd].
  intros W E2 O2 J NE.
  assert ((req_values req ≫= λ vs, vs !! "_idem"%string) = Some (VString key)) as Ki.
  { subst req. cbn. by rewrite lookup_insert_eq. }
  destruct (acknowledged_insert_recorded env s authed req key r s1 Ki N D Ok)
    as (vs' & view & V & Rows & Vv & Er & B & I).
  assert (r2 = r ∧ s3 = s2) as [-> ->].
  { unfold dispatch_insert in D2. rewrite V, B in D2. unfold take_idem in D2. rewrite V in Ki. cbn in Ki.
    rewrite Ki in D2. cbn [mbind option_bind] in D2. rewrite K, I in D2. injection D2 as <- <-. split; [|done].
    rewrite Er. by destruct view; cbn in *; subst. }
  assert (vs' = <["_idem"%string := VString key]> vs) as Evs by (subst req; cbn in V; by injection V).
  assert (delete "_idem"%string vs' = delete "_idem"%string vs) as Ed by (by rewrite Evs, delete_insert_eq).
  split; [done|]. exists view. split; [|split].
  - pose proof D as D'. unfold dispatch_insert in D'. rewrite V, B in D'. unfold take_idem in D'. rewrite V in Ki.
    cbn in Ki. rewrite Ki in D'. cbn [mbind option_bind] in D'. rewrite N in D'.
    destruct (enforce_owner _ _ _ _ _); [|injection D' as <- <-; done].
    destruct (insert_row_outcome _ _ _ _ _ _ _ F D') as [[Er' _]|(_ & view' & Hv & Ins)]; [congruence|].
    rewrite Rows in Hv. injection Hv as <-. by rewrite Ed in Ins.
  - destruct (encode_request DEFAULT_MAX_FRAME req) as [w|] eqn:Ew; [|done].
    set (p := MkPending req slot true enq). set (fenv := MkFlushEnv now lk (Some (MkLink true reads))).
    assert (expired timeout fenv p = false) as Ex by (apply Z.leb_gt; exact T).
    unfold flush_pending. rewrite (filter_cons_False (λ p, expired timeout fenv p = true) p) by congruence.
    rewrite (filter_cons_True (λ p, expired timeout fenv p = false) p) by exact Ex.
    rewrite !filter_nil. cbn [fmap list_fmap p_req p fe_link fe_reconnect fenv].
    destruct (flush_once buf [req] lk) as [[o b] sent] eqn:FO. cbn in L. subst o. cbn [forallb p_retry_safe andb].
    by rewrite (flush_once_reads req r f reads w).
  - unfold pop_answer, rows_answer. cbn [mbind result_bind]. unfold ok_rows. by rewrite Ok, Rows.
Qed.
End against_server.

(** ** Concrete runs *)

#[local] Existing Instances demo_json_text demo_value_text demo_json_bytes demo_display demo_debug demo_chrono
  demo_order demo_order_laws demo_row_order demo_hash demo_key_order demo_serde demo_channel.

Definition demo_client : Client := Client_new "c".
Definition demo_insert : Request := (call_request demo_client (CInsert "docs" (doc "alice"))).1.
Definition demo_first : Response * Server := dispatch_insert demo_env (serving true false) (Some alice) demo_insert.
Definition demo_answer : list byte :=
  match encode_response DEFAULT_MAX_FRAME (dispatch_insert demo_env demo_first.2 (Some alice) demo_insert).1 with
  | Ok f => f
  | Err _ => []
  end.

Lemma retried_insert_applies_once_witness :
  let again := dispatch_insert demo_env demo_first.2 (Some alice) demo_insert in
  again.2 = demo_first.2 ∧ ∃ view,
    inserted (serving true false) demo_first.2 demo_insert (delete "_idem"%string (doc "alice")) view ∧
    (flush_pending 5000 (MkFlushEnv 0 (MkLink false []) (Some (MkLink true [demo_answer]))) []
      [MkPending demo_insert 0 true 0]).1.1 = [(0%nat, Ok demo_first.1)] ∧
    pop_answer "insert" (Ok demo_first.1) = Ok view.
Proof.
  apply (retried_insert_applies_once demo_client "docs" (doc "alice") demo_env demo_env (serving true false)
    demo_first.2 demo_first.2 (Some alice) (Some alice) demo_first.1 5000 0 0 [] 0%nat (MkLink false []) demo_answer
    [demo_answer]).
  - apply serving_fresh.
  - vm_compute. reflexivity.
  - unfold demo_first. apply surjective_pairing.
  - vm_compute. reflexivity.
  - vm_compute. reflexivity.
  - lia.
  - done.
  - vm_compute. reflexivity.
  - vm_compute. reflexivity.
  - vm_compute. reflexivity.
  - apply app_nil_r.
  - constructor; [|constructor]. vm_compute. discriminate.
Defined.

Lemma resends_only_repeatable_witness :
  let env := MkFlushEnv 0 (MkLink false []) (Some (MkLink false [])) in
  ∃ f, request_frame [demo_insert] = Ok f ∧
    (flush_pending 5000 env [] [MkPending demo_insert 0 true 0]).2 = [f; f] ∧ repeatable demo_insert.
Proof.
  cbv zeta. pose proof (resends_only_repeatable 5000 (MkFlushEnv 0 (MkLink false []) (Some (MkLink false []))) []
    [MkPending demo_insert 0 true 0]) as T.
  assert (length (flush_pending 5000 (MkFlushEnv 0 (MkLink false []) (Some (MkLink false []))) []
    [MkPending demo_insert 0 true 0]).2 = 2%nat) as L by (vm_compute; reflexivity).
  destruct (flush_pending _ _ _ _) as [[rs b] sent]. cbn [snd] in *. destruct T as [->|(f & F & [->|(-> & _ & R)])].
  - constructor; [|constructor]. intros _. exists demo_client, (CInsert "docs" (doc "alice")). split; reflexivity.
  - discriminate L.
  - discriminate L.
  - exists f. split; [exact F|]. split; [reflexivity|].
    refine (proj1 (Forall_forall _ _) R (MkPending demo_insert 0 true 0) _).
    apply list_elem_of_filter. split; [reflexivity|apply list_elem_of_here].
Defined.

(** A prefix of a frame is no frame: the bytes of a frame that stop short of its end. *)
Lemma feed_short max buf rest p : feed max (buf ++ rest) = (Ok (Some p), []) → rest ≠ [] → feed max buf = (Ok None, buf).
Proof.
  intros F N. destruct (feed max buf) as [[[q|]|e] b] eqn:E.
  - destruct (feed_some _ _ _ _ rest E) as [F' _]. rewrite F in F'. injection F' as _ X. symmetry in X.
    by apply app_eq_nil in X as [_ ?].
  - by rewrite (feed_none _ _ _ E).
  - destruct (feed_err _ _ _ _ rest E) as [_ F']. by rewrite F in F'.
Qed.

(** The handshake's answer does not depend on how the stream cuts the server's response. *)
Lemma handshake_whatever_the_chunks `{DebugText} `{Chrono} `{MapOrderLaws} own ms r bs chunks later :
  response_okb r = true → encode_response DEFAULT_MAX_FRAME r = Ok bs → Z.of_nat (length bs) <= 65536 →
  mjoin chunks = bs → Forall (λ c, c ≠ []) chunks →
  check_wire_compat own ms (Ok ()) ((WireRead <$> chunks) ++ later) = Some (version_answer own r).
Proof.
  intros O E L J N. unfold check_wire_compat.
  assert (∃ f, encode_request DEFAULT_MAX_FRAME version_request = Ok f) as [f ->] by (eexists; reflexivity).
  destruct (response_roundtrip DEFAULT_MAX_FRAME r bs [] O ltac:(done) E) as [(payload & F & D) _]. rewrite app_nil_r in F.
  assert (∀ buf, buf ++ mjoin chunks = bs → chunks ≠ [] →
    await_version own ms buf ((WireRead <$> chunks) ++ later) = Some (version_answer own r)) as G.
  { clear J. induction N as [|c chunks Nc N IH]; intros buf J M; [done|]. cbn [fmap list_fmap app await_version].
    destruct c as [|x c]; [done|]. cbn [mjoin list_join] in J. rewrite app_assoc in J.
    destruct chunks as [|c' chunks].
    - cbn in J. rewrite app_nil_r in J. rewrite J, F, D. done.
    - rewrite (feed_short _ _ (mjoin (c' :: chunks)) payload); [|by rewrite <- F, <- J|by inversion N; subst; destruct c'].
      rewrite (proj2 (Z.ltb_ge _ _)); [by apply IH|]. rewrite <- J, length_app in L. lia. }
  apply (G []); [done|]. intros ->. subst bs. discriminate F.
Qed.

(** The answer of a server of this version, byte by byte. *)
Example handshake_byte_by_byte :
  (bs ← ok (encode_response DEFAULT_MAX_FRAME (Response_ok 0 [MkRowView 0 (<["server"%string := VString "0.2.4"]>
     {["protocol"%string := VInt64 2]})]));
   check_wire_compat "0.2.4" 5000 (Ok ()) ((λ b, WireRead [b]) <$> bs)) = Some (Ok ()) ∧
  check_wire_compat "0.2.4" 5000 (Ok ()) [WireRead [Z_byte 2]; WireLate] = Some (Err (Timeout 5000)) ∧
  check_wire_compat "0.2.4" 5000 (Ok ()) [WireRead [Z_byte 9; Z_byte 0; Z_byte 0; Z_byte 0; Z_byte 0]] = Some (Err (Transport "version framing")).
Proof. vm_compute. done. Qed.

(** The handshake reads the protocol number modulo 256: a server that speaks protocol 258
    passes for one that speaks 2. *)
Example protocol_number_wraps :
  version_answer "0.2.4" (Response_ok 0 [MkRowView 0 (<["server"%string := VString "0.2.4"]>
    {["protocol"%string := VInt64 258]})]) = Ok ().
Proof. vm_compute. reflexivity. Qed.
