(* ===== verification/Store.v ===== *)
(** The storage abstractions beside the core engine: [MemoryStore] of
    [blitz-memory/src/store.rs], [Table] of [blitz-table/src/table.rs] and the object
    pools of [blitz-core/src/pool.rs]. *)
From S2P Require Import Prelude Float Value HashMap Schema Core Policy Codec Snapshot Wal GroupCommit Durability Tx Shard Text.

Local Open Scope Z_scope.

(** ** [MemoryStore] *)

Record TableData : Type := MkTableData {
  td_schema : TableSchema;
  td_rows : gmap Z Row;
  td_next_id : Z
}.

Abbreviation MemoryStore := (gmap string TableData).

Definition MemoryStore_new : MemoryStore := ∅.

Definition missing_table (name : string) : string := "table '" +:+ name +:+ "' not found".
Definition table_data (m : MemoryStore) (name : string) : result string TableData :=
  ok_or (m !! name) (missing_table name).

Definition MemoryStore_create_table (m : MemoryStore) (schema : TableSchema) : result string () * MemoryStore :=
  let name := schema_name schema in
  match m !! name with
  | Some _ => (Err ("table '" +:+ name +:+ "' already exists"), m)
  | None => (Ok (), <[name := MkTableData schema ∅ 1]> m)
  end.

Definition MemoryStore_drop_table (m : MemoryStore) (name : string) : result string () * MemoryStore :=
  match m !! name with
  | Some _ => (Ok (), delete name m)
  | None => (Err (missing_table name), m)
  end.

Definition MemoryStore_table_exists (m : MemoryStore) (name : string) : bool := bool_decide (is_Some (m !! name)).

Definition MemoryStore_schema (m : MemoryStore) (name : string) : result string TableSchema :=
  td_schema <$> table_data m name.

Definition MemoryStore_insert (m : MemoryStore) (name : string) (row : Row) : result string Z * MemoryStore :=
  match table_data m name with
  | Err e => (Err e, m)
  | Ok t =>
      match validate_row_values (td_schema t) (row_values row) with
      | Err e => (Err (type_error_text e), m)
      | Ok _ =>
          let id := td_next_id t in
          (Ok id, <[name := MkTableData (td_schema t) (<[id := MkRow id (row_values row)]> (td_rows t))
                              (wrap 64 (id + 1))]> m)
      end
  end.

Definition MemoryStore_get (m : MemoryStore) (name : string) (id : Z) : result string (option Row) :=
  t ← table_data m name; Ok (td_rows t !! id).

Definition MemoryStore_update (m : MemoryStore) (name : string) (id : Z) (vs : values)
    : result string Row * MemoryStore :=
  match table_data m name with
  | Err e => (Err e, m)
  | Ok t =>
      match td_rows t !! id with
      | None => (Err ("row " +:+ dec id +:+ " not found"), m)
      | Some cur =>
          let row := MkRow (row_id cur) (vs ∪ row_values cur) in
          (Ok row, <[name := MkTableData (td_schema t) (<[id := row]> (td_rows t)) (td_next_id t)]> m)
      end
  end.

Definition MemoryStore_delete (m : MemoryStore) (name : string) (id : Z) : result string bool * MemoryStore :=
  match table_data m name with
  | Err e => (Err e, m)
  | Ok t => (Ok (bool_decide (is_Some (td_rows t !! id))),
             <[name := MkTableData (td_schema t) (delete id (td_rows t)) (td_next_id t)]> m)
  end.

(** The order of the store's own [HashMap]s: their random state is not the engine's. *)
Class StoreOrder : Type := store_enum : gmap Z Row → list (Z * Row).
Class StoreOrderLaws `{StoreOrder} : Prop := store_enum_perm m : store_enum m ≡ₚ map_to_list m.

Definition MemoryStore_scan `{StoreOrder} (m : MemoryStore) (name : string) : result string (list Row) :=
  t ← table_data m name; Ok (store_enum (td_rows t)).*2.

Definition MemoryStore_count (m : MemoryStore) (name : string) : result string nat :=
  t ← table_data m name; Ok (size (td_rows t)).

(** ** [Table]: an engine with one table *)

Inductive table_error : Type :=
| TblNotFound (name : string)
| TblAlreadyExists (name : string)
| TblRowNotFound (id : Z)
| TblConstraintViolation (why : string)
| TblTypeError (e : type_error)
| TblCoreError (e : core_error)
| TblInternal (why : string).

Record Table : Type := MkTableOf { tb_engine : Engine; tb_name : string }.

(** Creating a table in an empty engine cannot fail, so [unwrap] does not panic. *)
Definition Table_with_schema (s : TableSchema) : Table := MkTableOf (create_table ∅ s).2 (schema_name s).
Definition Table_new (uuid : list byte) (name : string) : Table := Table_with_schema (TableSchema_new uuid name).

Definition Table_insert (t : Table) (row : Row) : result table_error Z * Table :=
  let '(r, e) := insert (tb_engine t) (tb_name t) row in (map_err TblCoreError r, MkTableOf e (tb_name t)).
Definition Table_get (t : Table) (id : Z) : result table_error (option Row) :=
  map_err TblCoreError (get (tb_engine t) (tb_name t) id).
Definition Table_update (t : Table) (id : Z) (vs : values) : result table_error Row * Table :=
  let '(r, e) := update (tb_engine t) (tb_name t) id vs in (map_err TblCoreError r, MkTableOf e (tb_name t)).
Definition Table_delete (t : Table) (id : Z) : result table_error bool * Table :=
  let '(r, e) := delete_row (tb_engine t) (tb_name t) id in (map_err TblCoreError r, MkTableOf e (tb_name t)).
Definition Table_scan `{RowOrder} (t : Table) : result table_error (list Row) :=
  map_err TblCoreError (scan (tb_engine t) (tb_name t)).
Definition Table_count (t : Table) : result table_error nat := map_err TblCoreError (count (tb_engine t) (tb_name t)).
Definition Table_schema (t : Table) : result table_error TableSchema :=
  map_err TblCoreError (engine_schema (tb_engine t) (tb_name t)).

(** ** Object pools *)

(** [free] is a deque; the factories of the crate are constant. *)
Record ObjectPool (A : Type) : Type := MkPool {
  free : list A;
  factory : A;
  max_size : Z;
  total_created : Z
}.
Arguments MkPool {A} _ _ _ _.
Arguments free {A} _.
Arguments factory {A} _.
Arguments max_size {A} _.
Arguments total_created {A} _.

Section pool.
Context {A : Type}.
Implicit Types p : ObjectPool A.

Definition ObjectPool_new (factory : A) (initial_cap : nat) (max_size : Z) : ObjectPool A :=
  MkPool (replicate initial_cap factory) factory max_size (Z.of_nat initial_cap).

Definition checkout p : A * ObjectPool A :=
  match last (free p) with
  | Some obj => (obj, MkPool (removelast (free p)) (factory p) (max_size p) (total_created p))
  | None =>
      (factory p,
       MkPool (free p) (factory p) (max_size p)
         (if (max_size p =? 0) || (total_created p <? max_size p) then total_created p + 1 else total_created p))
  end.

Definition checkin p (obj : A) : ObjectPool A :=
  if (max_size p =? 0) || (Z.of_nat (length (free p)) <? max_size p)
  then MkPool (free p ++ [obj]) (factory p) (max_size p) (total_created p)
  else p.

Definition ObjectPool_len p : nat := length (free p).
Definition ObjectPool_is_empty p : bool := match free p with [] => true | _ => false end.
End pool.

Definition RowPool_new : ObjectPool Row := ObjectPool_new (Row_new 0) 16 64.
Definition RowPool_checkout (p : ObjectPool Row) : Row * ObjectPool Row :=
  let '(_, p) := checkout p in (MkRow 0 ∅, p).
Definition RowPool_checkin (p : ObjectPool Row) (row : Row) : ObjectPool Row := checkin p (MkRow (row_id row) ∅).

Definition RowIdVecPool_new : ObjectPool (list Z) := ObjectPool_new [] 16 64.
Definition RowIdVecPool_checkout (p : ObjectPool (list Z)) : list Z * ObjectPool (list Z) :=
  let '(_, p) := checkout p in ([], p).
Definition RowIdVecPool_checkin (p : ObjectPool (list Z)) (v : list Z) : ObjectPool (list Z) := checkin p [].

(** ** Runs of operations, on a store and on the core engine *)

Section runs.
Context `{StoreOrderLaws} `{RowOrderLaws}.

Inductive store_op : Type :=
| SCreate (s : TableSchema)
| SDrop (name : string)
| SInsert (name : string) (row : Row)
| SGet (name : string) (id : Z)
| SUpdate (name : string) (id : Z) (vs : values)
| SDelete (name : string) (id : Z)
| SScan (name : string)
| SCount (name : string).

(** What an operation answers, its error text apart. *)
Inductive store_out : Type :=
| OutErr
| OutUnit
| OutId (id : Z)
| OutRow (row : option Row)
| OutUpdated (row : Row)
| OutBool (b : bool)
| OutRows (rows : list Row)
| OutCount (n : nat).

Definition out {E A} (f : A → store_out) (r : result E A) : store_out :=
  match r with Ok a => f a | Err _ => OutErr end.

Definition store_step (m : MemoryStore) (op : store_op) : store_out * MemoryStore :=
  match op with
  | SCreate s => let '(r, m) := MemoryStore_create_table m s in (out (λ _, OutUnit) r, m)
  | SDrop n => let '(r, m) := MemoryStore_drop_table m n in (out (λ _, OutUnit) r, m)
  | SInsert n row => let '(r, m) := MemoryStore_insert m n row in (out OutId r, m)
  | SGet n id => (out OutRow (MemoryStore_get m n id), m)
  | SUpdate n id vs => let '(r, m) := MemoryStore_update m n id vs in (out OutUpdated r, m)
  | SDelete n id => let '(r, m) := MemoryStore_delete m n id in (out OutBool r, m)
  | SScan n => (out OutRows (MemoryStore_scan m n), m)
  | SCount n => (out OutCount (MemoryStore_count m n), m)
  end.

Definition engine_step (e : Engine) (op : store_op) : store_out * Engine :=
  match op with
  | SCreate s => let '(r, e) := create_table e s in (out (λ _, OutUnit) r, e)
  | SDrop n => let '(r, e) := drop_table e n in (out (λ _, OutUnit) r, e)
  | SInsert n row => let '(r, e) := insert e n row in (out OutId r, e)
  | SGet n id => (out OutRow (get e n id), e)
  | SUpdate n id vs => let '(r, e) := update e n id vs in (out OutUpdated r, e)
  | SDelete n id => let '(r, e) := delete_row e n id in (out OutBool r, e)
  | SScan n => (out OutRows (scan e n), e)
  | SCount n => (out OutCount (count e n), e)
  end.

Fixpoint answers_of {S} (step : S → store_op → store_out * S) (s : S) (ops : list store_op) : list store_out :=
  match ops with
  | [] => []
  | op :: ops => let '(o, s) := step s op in o :: answers_of step s ops
  end.

(** The same answer; rows come in the order of the map that was scanned. *)
Inductive same_out : store_out → store_out → Prop :=
| same_rows l l' : l ≡ₚ l' → same_out (OutRows l) (OutRows l')
| same_other o : match o with OutRows _ => False | _ => True end → same_out o o.

(** A store and an engine with the same tables, none of them with a unique column. *)
Definition same_data (d : TableData) (t : InMemoryTable) : Prop :=
  td_schema d = t_schema t ∧ td_rows d = t_rows t ∧ td_next_id d = t_next_id t ∧
  t_uniq t = ∅ ∧ uniq_cols t = [].
Definition same_tables (m : MemoryStore) (e : Engine) : Prop := ∀ n, option_Forall2 same_data (m !! n) (e !! n).

Lemma same_tables_insert m e n d t :
  same_tables m e → same_data d t → same_tables (<[n := d]> m) (<[n := t]> e).
Proof.
  intros S D k. destruct (decide (k = n)) as [->|]; [|by rewrite !lookup_insert_ne].
  rewrite !lookup_insert_eq. by constructor.
Qed.

Lemma same_tables_delete m e n : same_tables m e → same_tables (delete n m) (delete n e).
Proof.
  intros S k. destruct (decide (k = n)) as [->|]; [|by rewrite !lookup_delete_ne].
  rewrite !lookup_delete_eq. constructor.
Qed.

Definition plain_op (op : store_op) : Prop :=
  match op with SCreate s => schema_uniq_cols s = [] | _ => True end.

Lemma same_tables_at m e n : same_tables m e →
  (∃ d t, m !! n = Some d ∧ e !! n = Some t ∧ same_data d t) ∨ (m !! n = None ∧ e !! n = None).
Proof. intros S. specialize (S n). inversion S as [d t D Em Ee|Em Ee]; [left; by exists d, t|by right]. Qed.

Lemma t_insert_plain d t row : same_data d t →
  t_insert t row = match validate_row_values (td_schema d) (row_values row) with
                   | Err er => (Err (CoreTypeError er), t)
                   | Ok _ => (Ok (td_next_id d), MkTable (td_schema d) (<[td_next_id d := MkRow (td_next_id d) (row_values row)]> (td_rows d))
                                (wrap 64 (td_next_id d + 1)) ∅)
                   end.
Proof.
  intros (-> & -> & -> & U & C). unfold t_insert, t_insert_unchecked. rewrite C.
  destruct (validate_row_values _ _); [|done]. cbn. by rewrite U.
Qed.

Lemma t_update_plain_cols d t id vs : same_data d t →
  t_update t id vs = match td_rows d !! id with
                     | None => (Err (RowNotFound id), t)
                     | Some cur =>
                         let row := MkRow (row_id cur) (vs ∪ row_values cur) in
                         (Ok row, MkTable (td_schema d) (<[id := row]> (td_rows d)) (td_next_id d) ∅)
                     end.
Proof.
  intros (-> & -> & -> & U & C). destruct t as [s rows next u]. unfold uniq_cols in C. cbn in U, C. subst u.
  unfold t_update, uniq_cols. cbn. destruct (rows !! id); [|done]. cbn. by rewrite C.
Qed.

Lemma t_take_plain_cols d t id : same_data d t →
  t_take t id = (td_rows d !! id, MkTable (td_schema d) (delete id (td_rows d)) (td_next_id d) ∅).
Proof.
  intros (-> & -> & -> & U & C). destruct t as [s rows next u]. unfold uniq_cols in C. cbn in U, C. subst u.
  unfold t_take, uniq_cols. cbn. destruct (rows !! id) eqn:E; cbn; [by rewrite C|].
  by rewrite delete_id.
Qed.

Lemma store_step_sim m e op : same_tables m e → plain_op op →
  same_out (store_step m op).1 (engine_step e op).1 ∧ same_tables (store_step m op).2 (engine_step e op).2.
Proof.
  intros S P. assert (∀ o, match o with OutRows _ => False | _ => True end → same_out o o) as So by apply same_other.
  destruct op as [s|n|n row|n id|n id vs|n id|n|n]; cbn [store_step engine_step].
  - unfold MemoryStore_create_table, create_table, create_check, table_exists.
    destruct (same_tables_at m e (schema_name s) S) as [(d & t & -> & -> & D)|[-> ->]]; cbn; (split; [by apply So|]); [done|].
    by apply same_tables_insert.
  - unfold MemoryStore_drop_table, drop_table.
    destruct (same_tables_at m e n S) as [(d & t & -> & -> & D)|[-> ->]]; cbn; (split; [by apply So|]); [|done].
    by apply same_tables_delete.
  - unfold MemoryStore_insert, table_data, insert, with_table, table.
    destruct (same_tables_at m e n S) as [(d & t & -> & Ee & D)|[-> ->]]; cbn [ok_or]; [|split; [by apply So|done]].
    rewrite Ee. cbn [ok_or]. rewrite (t_insert_plain d t row D). destruct (validate_row_values _ _); (split; [by apply So|]).
    + apply same_tables_insert; [done|]. destruct D as (Es & _ & _ & _ & C).
      repeat split. unfold uniq_cols in *. cbn. by rewrite Es.
    + cbn [snd]. by rewrite insert_id.
  - unfold MemoryStore_get, table_data, get, table.
    destruct (same_tables_at m e n S) as [(d & t & -> & -> & _ & R & _)|[-> ->]]; [|split; [by apply So|done]].
    split; [|done]. cbn. unfold t_get. rewrite R. by apply So.
  - unfold MemoryStore_update, table_data, update, with_table, table.
    destruct (same_tables_at m e n S) as [(d & t & -> & Ee & D)|[-> ->]]; cbn [ok_or]; [|split; [by apply So|done]].
    rewrite Ee. cbn [ok_or]. rewrite (t_update_plain_cols d t id vs D). destruct (td_rows d !! id); (split; [by apply So|]).
    + apply same_tables_insert; [done|]. destruct D as (Es & _ & _ & _ & C).
      repeat split. unfold uniq_cols in *. cbn. by rewrite Es.
    + cbn [snd]. by rewrite insert_id.
  - unfold MemoryStore_delete, table_data, delete_row, take, with_table, table.
    destruct (same_tables_at m e n S) as [(d & t & -> & Ee & D)|[-> ->]]; cbn [ok_or]; [|split; [by apply So|done]].
    rewrite Ee. cbn [ok_or]. rewrite (t_take_plain_cols d t id D). cbn.
    split; [by apply So|]. apply same_tables_insert; [done|]. destruct D as (Es & _ & _ & _ & C).
    repeat split. unfold uniq_cols in *. cbn. by rewrite Es.
  - unfold MemoryStore_scan, table_data, scan, table.
    destruct (same_tables_at m e n S) as [(d & t & -> & -> & _ & R & _)|[-> ->]]; (split; [|done]); [|by apply So].
    cbn. unfold t_scan. rewrite <- R. apply same_rows. by rewrite store_enum_perm, row_enum_perm.
  - unfold MemoryStore_count, table_data, count, table.
    destruct (same_tables_at m e n S) as [(d & t & -> & -> & _ & R & _)|[-> ->]]; (split; [|done]); [|by apply So].
    cbn. unfold t_count. rewrite R. by apply So.
Qed.

(** C39: Over tables without primary-key and unique columns the in-memory store and the
    core engine answer alike: any sequence of table and row operations gets the same
    answers from both, whatever was answered before - the texts of errors apart, and a scan
    the same rows in the order of either map. *)
Theorem memory_store_is_engine ops :
  Forall plain_op ops → Forall2 same_out (answers_of store_step MemoryStore_new ops) (answers_of engine_step ∅ ops).
Proof.
  assert (∀ m e, same_tables m e → Forall plain_op ops →
    Forall2 same_out (answers_of store_step m ops) (answers_of engine_step e ops)) as G.
  { induction ops as [|op ops IH]; intros m e S F; [constructor|]. apply Forall_cons in F as [P F]. cbn [answers_of].
    destruct (store_step_sim m e op S P) as [E S'].
    destruct (store_step m op) as [o m'], (engine_step e op) as [o' e']. constructor; [exact E|by apply IH]. }
  apply G. intros n. rewrite !lookup_empty. constructor.
Qed.
End runs.

(** ** A table is the one table of its engine *)

Section table.
Context `{RowOrder}.

Inductive row_op : Type := RInsert (row : Row) | RUpdate (id : Z) (vs : values) | RDelete (id : Z).

Definition Table_step (t : Table) (op : row_op) : Table :=
  match op with
  | RInsert row => (Table_insert t row).2
  | RUpdate id vs => (Table_update t id vs).2
  | RDelete id => (Table_delete t id).2
  end.
Definition t_step (t : InMemoryTable) (op : row_op) : InMemoryTable :=
  match op with
  | RInsert row => (t_insert t row).2
  | RUpdate id vs => (t_update t id vs).2
  | RDelete id => (t_take t id).2
  end.

Lemma Table_steps ops : ∀ T t,
  tb_engine T = {[tb_name T := t]} →
  tb_name (foldl Table_step T ops) = tb_name T ∧
  tb_engine (foldl Table_step T ops) = {[tb_name T := foldl t_step t ops]}.
Proof.
  induction ops as [|op ops IH]; intros T t E; [done|]. cbn [foldl].
  assert (tb_name (Table_step T op) = tb_name T ∧
          tb_engine (Table_step T op) = {[tb_name T := t_step t op]}) as [En Ee].
  { destruct op as [row|id vs|id]; cbn [Table_step t_step];
      unfold Table_insert, Table_update, Table_delete, insert, update, delete_row, take, with_table, table;
      rewrite E, lookup_singleton_eq; cbn [ok_or].
    - destruct (t_insert t row) as [r t']. cbn. by rewrite insert_singleton_eq.
    - destruct (t_update t id vs) as [r t']. cbn. by rewrite insert_singleton_eq.
    - destruct (t_take t id) as [r t']. cbn. by rewrite insert_singleton_eq. }
  rewrite <- En. apply IH. by rewrite En.
Qed.

(** A [Table] never fails to find its table: after any operations it is exactly the
    core table those operations lead to from an empty one, and each of its methods
    answers what the core table answers. *)
Theorem table_is_its_core_table s ops :
  let T := foldl Table_step (Table_with_schema s) ops in
  let t := foldl t_step (InMemoryTable_new s) ops in
  tb_engine T = {[schema_name s := t]} ∧
  (∀ row, (Table_insert T row).1 = map_err TblCoreError (t_insert t row).1) ∧
  (∀ id vs, (Table_update T id vs).1 = map_err TblCoreError (t_update t id vs).1) ∧
  (∀ id, (Table_delete T id).1 = Ok (bool_decide (is_Some (t_get t id)))) ∧
  (∀ id, Table_get T id = Ok (t_get t id)) ∧
  Table_scan T = Ok (t_scan t) ∧ Table_count T = Ok (t_count t) ∧ Table_schema T = Ok (t_schema t).
Proof.
  intros T t. destruct (Table_steps ops (Table_with_schema s) (InMemoryTable_new s)) as [En Ee]; [done|].
  fold T t in En, Ee. cbn [tb_name Table_with_schema] in En, Ee. split; [exact Ee|].
  unfold Table_insert, Table_update, Table_delete, Table_get, Table_scan, Table_count, Table_schema,
    insert, update, delete_row, take, get, scan, count, engine_schema, with_table, table.
  rewrite En, Ee, lookup_singleton_eq. cbn [ok_or]. split_and!.
  - intros row. by destruct (t_insert t row).
  - intros id vs. by destruct (t_update t id vs).
  - intros id. unfold t_take, t_get. done.
  - done.
  - done.
  - done.
  - done.
Qed.
End table.

(** ** Pools *)

Section pools.
Context {A : Type}.
Implicit Types p : ObjectPool A.

Inductive pool_op : Type := PCheckout | PCheckin (obj : A).
Definition pool_step p (op : pool_op) : ObjectPool A :=
  match op with PCheckout => (checkout p).2 | PCheckin obj => checkin p obj end.

Record pool_inv (p0 : ObjectPool A) p : Prop := {
  pi_same : max_size p = max_size p0 ∧ factory p = factory p0;
  pi_len : Z.of_nat (length (free p)) <= max_size p0;
  pi_created : total_created p0 <= total_created p <= max_size p0
}.

Lemma length_removelast (l : list A) x : last l = Some x → length l = S (length (removelast l)).
Proof.
  intros [l' ->]%last_Some. rewrite removelast_last, length_app. cbn. lia.
Qed.

Lemma pool_inv_step p0 p op : 0 < max_size p0 → pool_inv p0 p → pool_inv p0 (pool_step p op).
Proof.
  intros Pos [[M F] L C]. destruct op as [|obj]; cbn [pool_step].
  - unfold checkout. destruct (last (free p)) as [x|] eqn:E; cbn [snd].
    + apply length_removelast in E. split; cbn; [done|lia|done].
    + split; cbn; [done|done|]. rewrite M. destruct (Z.eqb_spec (max_size p0) 0); [lia|]. cbn [orb].
      destruct (Z.ltb_spec (total_created p) (max_size p0)); lia.
  - unfold checkin. rewrite M. destruct (Z.eqb_spec (max_size p0) 0); [lia|]. cbn [orb].
    destruct (Z.ltb_spec (Z.of_nat (length (free p))) (max_size p0)); [|done].
    split; cbn; [done| |done]. rewrite length_app. cbn. lia.
Qed.
End pools.

(** A row pool never holds more than its 64 rows, however often rows are taken out
    and given back, and a row taken out is always blank, whatever was left in the one
    that was given back; the counter of created rows stays between 16 and 64. *)
Theorem row_pool_bounded ops :
  let p := foldl pool_step RowPool_new ops in
  (length (free p) <= 64)%nat ∧ 16 <= total_created p <= 64 ∧ (RowPool_checkout p).1 = Row_new 0 ∧
  ∀ row, (RowPool_checkout (RowPool_checkin p row)).1 = Row_new 0.
Proof.
  intros p. assert (pool_inv RowPool_new p) as [_ L C].
  { subst p. assert (pool_inv RowPool_new RowPool_new) as I by (split; [done|cbn; lia|cbn; lia]).
    revert I. generalize RowPool_new at 2 4. induction ops as [|op ops IH]; intros p I; [done|]. cbn [foldl].
    apply IH. by apply pool_inv_step. }
  cbn [max_size total_created RowPool_new ObjectPool_new] in *. split; [lia|]. split; [lia|].
  unfold RowPool_checkout. split; [by destruct (checkout p)|]. intros row. by destruct (checkout _).
Qed.

(** [total_created] is said to count the objects ever created, but objects made once the
    pool has created [max_size] are not counted. *)
Example created_objects_not_counted :
  let p := Nat.iter 66 (λ p, (checkout p).2) RowPool_new in total_created p = 64 ∧ free p = [].
Proof. vm_compute. done. Qed.

(** The store's update does not validate: a required column can be set to null. *)
Example memory_update_not_validated :
  let s := with_column (TableSchema_new [] "t") (ColumnDef_new "c" TInt64) in
  let m := (MemoryStore_insert (MemoryStore_create_table ∅ s).2 "t" (MkRow 0 {["c"%string := VInt64 1]})).2 in
  (MemoryStore_insert m "t" (MkRow 0 {["c"%string := VNull]})).1 = Err (type_error_text NullValue) ∧
  (MemoryStore_update m "t" 1 {["c"%string := VNull]}).1 = Ok (MkRow 1 {["c"%string := VNull]}).
Proof. vm_compute. done. Qed.

Definition demo_store_schema : TableSchema := with_column (TableSchema_new [] "t") (ColumnDef_new "c" TInt64).
Definition demo_store_ops : list store_op :=
  [SCreate demo_store_schema; SInsert "t" (MkRow 0 {["c"%string := VInt64 1]}); SUpdate "t" 1 {["c"%string := VInt64 2]};
   SInsert "t" (MkRow 0 {["c"%string := VInt64 7]}); SDelete "t" 3; SGet "t" 1; SScan "t"; SDrop "u"].

(** Two maps that enumerate the same rows in opposite orders. *)
#[local] Instance demo_store_order : StoreOrder := λ m, rev (map_to_list m).
#[local] Instance demo_store_order_laws : StoreOrderLaws.
Proof. intros m. unfold store_enum, demo_store_order. by rewrite <- Permutation_rev. Qed.
#[local] Instance demo_engine_order : RowOrder := λ m, map_to_list m.
#[local] Instance demo_engine_order_laws : RowOrderLaws.
Proof. by intros m. Qed.

Lemma memory_store_is_engine_witness :
  Forall plain_op demo_store_ops ∧
  Forall2 same_out (answers_of store_step MemoryStore_new demo_store_ops) (answers_of engine_step ∅ demo_store_ops) ∧
  answers_of store_step MemoryStore_new demo_store_ops ≠ answers_of engine_step ∅ demo_store_ops.
Proof.
  assert (Forall plain_op demo_store_ops) as P by (repeat constructor).
  split; [exact P|]. split; [exact (memory_store_is_engine demo_store_ops P)|vm_compute; discriminate].
Defined.
