(* ===== verification/Cluster.v ===== *)
(** Cluster membership ([blitz-cluster/src/membership.rs]) and the replication log
    ([blitz-replication/src/replicator.rs]). Clocks and fresh uuids are arguments. *)
From S2P Require Import Prelude Value Schema Shard Changes.

Local Open Scope Z_scope.

(** ** Nodes *)

Inductive NodeStatus : Type := Alive | Suspect | Dead.
Inductive NodeRole : Type := Leader | Follower | Observer.
#[export] Instance NodeStatus_eq_dec : EqDecision NodeStatus.
Proof. solve_decision. Defined.
#[export] Instance NodeRole_eq_dec : EqDecision NodeRole.
Proof. solve_decision. Defined.

Record Node : Type := MkNode {
  node_id : string;
  node_name : string;
  node_host : string;
  node_port : Z;
  node_status : NodeStatus;
  node_role : NodeRole;
  node_metadata : gmap string string;
  node_last_heartbeat : Z;
  node_joined_at : Z
}.

Definition Node_new (id address : string) (port now : Z) : Node :=
  MkNode id EmptyString address port Alive Follower ∅ now now.
Definition Node_with_name (n : Node) (name : string) : Node :=
  MkNode (node_id n) name (node_host n) (node_port n) (node_status n) (node_role n) (node_metadata n)
    (node_last_heartbeat n) (node_joined_at n).
Definition Node_with_role (n : Node) (role : NodeRole) : Node :=
  MkNode (node_id n) (node_name n) (node_host n) (node_port n) (node_status n) role (node_metadata n)
    (node_last_heartbeat n) (node_joined_at n).
Definition Node_with_metadata (n : Node) (key v : string) : Node :=
  MkNode (node_id n) (node_name n) (node_host n) (node_port n) (node_status n) (node_role n)
    (<[key := v]> (node_metadata n)) (node_last_heartbeat n) (node_joined_at n).
Definition Node_is_alive (n : Node) : bool := bool_decide (node_status n = Alive).
Definition Node_address (n : Node) : string := node_host n +:+ ":" +:+ dec (node_port n).

(** ** Membership *)

Record ClusterMembership : Type := MkCluster { cm_nodes : gmap string Node; cm_local_id : string }.

(** The order in which the node map is iterated: any. *)
Class NodeOrder : Type := node_enum : gmap string Node → list Node.
Class NodeOrderLaws `{NodeOrder} : Prop := node_enum_perm m : node_enum m ≡ₚ (map_to_list m).*2.

Section membership.
Implicit Types c : ClusterMembership.

Definition ClusterMembership_new (local_id : string) : ClusterMembership := MkCluster ∅ local_id.
Definition with_nodes c (m : gmap string Node) : ClusterMembership := MkCluster m (cm_local_id c).

Definition add_node c (n : Node) : ClusterMembership := with_nodes c (<[node_id n := n]> (cm_nodes c)).
Definition remove_node c (id : string) : bool * ClusterMembership :=
  (bool_decide (is_Some (cm_nodes c !! id)), with_nodes c (delete id (cm_nodes c))).
Definition get_node c (id : string) : option Node := cm_nodes c !! id.
Definition local_node c : option Node := cm_nodes c !! cm_local_id c.

(** [if let Some(node) = self.nodes.get_mut(id)] *)
Definition touch_node c (id : string) (f : Node → Node) : bool * ClusterMembership :=
  match cm_nodes c !! id with
  | Some n => (true, with_nodes c (<[id := f n]> (cm_nodes c)))
  | None => (false, c)
  end.
Definition set_status (s : NodeStatus) (n : Node) : Node :=
  MkNode (node_id n) (node_name n) (node_host n) (node_port n) s (node_role n) (node_metadata n)
    (node_last_heartbeat n) (node_joined_at n).
Definition beat (now : Z) (n : Node) : Node :=
  MkNode (node_id n) (node_name n) (node_host n) (node_port n) Alive (node_role n) (node_metadata n)
    now (node_joined_at n).
Definition heartbeat c (now : Z) (id : string) : bool * ClusterMembership := touch_node c id (beat now).
Definition mark_suspect c (id : string) : bool * ClusterMembership := touch_node c id (set_status Suspect).
Definition mark_dead c (id : string) : bool * ClusterMembership := touch_node c id (set_status Dead).

Context `{NodeOrder}.
Definition all_nodes c : list Node := node_enum (cm_nodes c).
Definition alive_nodes c : list Node := filter (λ n, Node_is_alive n = true) (node_enum (cm_nodes c)).
Definition nodes_by_role c (role : NodeRole) : list Node := filter (λ n, node_role n = role) (node_enum (cm_nodes c)).
Definition leader c : option Node :=
  head (filter (λ n, node_role n = Leader ∧ Node_is_alive n = true) (node_enum (cm_nodes c))).
Definition alive_count c : nat := length (alive_nodes c).
Definition total_count c : nat := size (cm_nodes c).
Definition has_quorum c : bool :=
  let alive := Z.of_nat (alive_count c) in
  let total := Z.of_nat (total_count c) in
  if total =? 0 then false else total / 2 <? alive.
End membership.

(** ** Histories of a membership *)

Inductive cluster_op : Type :=
| ClAdd (n : Node)
| ClRemove (id : string)
| ClHeartbeat (now : Z) (id : string)
| ClSuspect (id : string)
| ClDead (id : string).

Definition cluster_step (c : ClusterMembership) (op : cluster_op) : ClusterMembership :=
  match op with
  | ClAdd n => add_node c n
  | ClRemove id => (remove_node c id).2
  | ClHeartbeat now id => (heartbeat c now id).2
  | ClSuspect id => (mark_suspect c id).2
  | ClDead id => (mark_dead c id).2
  end.

(** What one node's status is after an operation; the other nodes do not matter. *)
Definition status_step (id : string) (s : option NodeStatus) (op : cluster_op) : option NodeStatus :=
  match op with
  | ClAdd n => if bool_decide (node_id n = id) then Some (node_status n) else s
  | ClRemove id' => if bool_decide (id' = id) then None else s
  | ClHeartbeat _ id' => if bool_decide (id' = id) then (λ _, Alive) <$> s else s
  | ClSuspect id' => if bool_decide (id' = id) then (λ _, Suspect) <$> s else s
  | ClDead id' => if bool_decide (id' = id) then (λ _, Dead) <$> s else s
  end.

Section history.
Context `{NodeOrderLaws}.
Implicit Types c : ClusterMembership.

Definition alive_ids c : gset string := dom (filter (λ p, Node_is_alive p.2 = true) (cm_nodes c)).

Lemma elem_of_alive_ids c id : id ∈ alive_ids c ↔ ∃ n, cm_nodes c !! id = Some n ∧ Node_is_alive n = true.
Proof.
  unfold alive_ids. rewrite elem_of_dom. split.
  - intros [n [L A]%map_lookup_filter_Some]. by exists n.
  - intros (n & L & A). exists n. by apply map_lookup_filter_Some.
Qed.

Lemma alive_count_size c : alive_count c = size (alive_ids c).
Proof.
  unfold alive_count, alive_nodes, alive_ids. rewrite size_dom, node_enum_perm, filter_fmap, length_fmap.
  rewrite <- length_map_to_list. by rewrite map_to_list_filter.
Qed.

Lemma has_quorum_iff c : has_quorum c = true ↔ (total_count c < 2 * alive_count c)%nat.
Proof.
  unfold has_quorum. destruct (Z.eqb_spec (Z.of_nat (total_count c)) 0) as [E|N].
  - split; [done|]. intros L. exfalso. assert (alive_count c <= total_count c)%nat; [|lia].
    rewrite alive_count_size. unfold alive_ids, total_count. rewrite size_dom. apply map_size_filter.
  - rewrite Z.ltb_lt. pose proof (Z.div_mod (Z.of_nat (total_count c)) 2 ltac:(lia)).
    pose proof (Z.mod_pos_bound (Z.of_nat (total_count c)) 2 ltac:(lia)). split; intros; lia.
Qed.
End history.

(** ** What a membership is after any operations *)

Section membership_spec.
Context `{NodeOrderLaws}.

Lemma touch_node_spec c id f k :
  (∀ n, node_id (f n) = node_id n) →
  cm_nodes (touch_node c id f).2 !! k = if bool_decide (id = k) then f <$> cm_nodes c !! k else cm_nodes c !! k.
Proof.
  intros Fi. unfold touch_node. destruct (cm_nodes c !! id) as [n|] eqn:E; cbn.
  - case_bool_decide as D; [subst k; by rewrite lookup_insert_eq, E|by rewrite lookup_insert_ne].
  - case_bool_decide as D; [subst k; by rewrite E|done].
Qed.

Record cluster_inv (st : string → option NodeStatus) (c : ClusterMembership) : Prop := {
  ci_keys : ∀ k n, cm_nodes c !! k = Some n → node_id n = k;
  ci_status : ∀ k, node_status <$> cm_nodes c !! k = st k
}.

Lemma cluster_step_inv st c op :
  cluster_inv st c → cluster_inv (λ k, status_step k (st k) op) (cluster_step c op).
Proof.
  intros [K S].
  assert (∀ id f s, (∀ n, node_id (f n) = node_id n ∧ node_status (f n) = s) →
    cluster_inv (λ k, if bool_decide (id = k) then (λ _, s) <$> st k else st k) (touch_node c id f).2) as T.
  { intros id f s F. split; intros k; rewrite (touch_node_spec _ _ _ _ (λ n, proj1 (F n))).
    - intros n. case_bool_decide; [|apply K]. intros (n' & E & ->)%fmap_Some. rewrite (proj1 (F n')). by apply K.
    - rewrite <- S. case_bool_decide; [|done]. destruct (cm_nodes c !! k); [|done]. cbn. f_equal. apply F. }
  destruct op as [n|id|now id|id|id]; cbn [cluster_step status_step]; try by apply T.
  - split; cbn; intros k; rewrite lookup_insert.
    + intros n'. case_decide; [by intros [= <-]|apply K].
    + rewrite <- S. case_decide; [by rewrite bool_decide_true|by rewrite bool_decide_false].
  - split; cbn; intros k; rewrite lookup_delete.
    + intros n'. case_decide; [done|apply K].
    + rewrite <- S. case_decide; [by rewrite bool_decide_true|by rewrite bool_decide_false].
Qed.

(** After any operations a node's status is what the operations on that node alone
    say (added with it, heartbeat revives it, marks change it only while it is a member),
    nodes are filed under their own ids, [leader] is an alive leader and is missing only
    when there is none, and [has_quorum] says that more than half of the members are
    alive. *)
Theorem membership_history local_id ops :
  let c := foldl cluster_step (ClusterMembership_new local_id) ops in
  (∀ id, node_status <$> get_node c id = foldl (status_step id) None ops) ∧
  (∀ id n, get_node c id = Some n → node_id n = id) ∧
  match leader c with
  | Some n => get_node c (node_id n) = Some n ∧ node_role n = Leader ∧ node_status n = Alive
  | None => ∀ id n, get_node c id = Some n → node_role n = Leader → node_status n ≠ Alive
  end ∧
  (has_quorum c = true ↔ (total_count c < 2 * alive_count c)%nat).
Proof.
  intros c.
  assert (∀ st c0, cluster_inv st c0 →
    cluster_inv (λ k, foldl (status_step k) (st k) ops) (foldl cluster_step c0 ops)) as G.
  { induction ops as [|op ops IH]; intros st c0 I; [done|]. cbn [foldl].
    apply (IH (λ k, status_step k (st k) op)). by apply cluster_step_inv. }
  destruct (G (λ _, None) (ClusterMembership_new local_id)) as [K S]; [by split; intros k; cbn; rewrite lookup_empty|].
  fold c in K, S. split_and!; [exact S|exact K| |apply has_quorum_iff].
  assert (∀ n, n ∈ node_enum (cm_nodes c) ↔ get_node c (node_id n) = Some n) as M.
  { intros n. rewrite node_enum_perm, list_elem_of_fmap. split.
    - intros ([k n'] & -> & E%elem_of_map_to_list). unfold get_node. cbn. by rewrite (K _ _ E).
    - intros E. exists (node_id n, n). split; [done|]. by apply elem_of_map_to_list. }
  unfold leader. set (L := filter _ _).
  assert (∀ n, n ∈ L ↔ (node_role n = Leader ∧ Node_is_alive n = true) ∧ n ∈ node_enum (cm_nodes c)) as EL
    by (intros n; unfold L; by rewrite list_elem_of_filter).
  unfold Node_is_alive in EL. destruct L as [|n L]; cbn [head].
  - intros id n E R A. assert (n ∈ []) as []%not_elem_of_nil. apply EL. rewrite M, (K _ _ E).
    split_and!; [done|by apply bool_decide_eq_true|done].
  - destruct (proj1 (EL n)) as [[R A] E]; [left|]. apply bool_decide_eq_true in A. by apply M in E.
Qed.

(** Two views of a cluster with the same members that both have a quorum agree on an
    alive node: no two majorities are disjoint. *)
Theorem quorums_intersect c c' :
  dom (cm_nodes c) = dom (cm_nodes c') → has_quorum c = true → has_quorum c' = true →
  ∃ id n n', get_node c id = Some n ∧ get_node c' id = Some n' ∧ node_status n = Alive ∧ node_status n' = Alive.
Proof.
  rewrite !has_quorum_iff, !alive_count_size. intros D Q Q'.
  assert (∀ c, alive_ids c ⊆ dom (cm_nodes c)) as Sub.
  { intros x. apply dom_filter_subseteq. }
  destruct (decide (alive_ids c ∩ alive_ids c' = ∅)) as [E|N].
  - exfalso. assert (size (alive_ids c ∪ alive_ids c') <= size (dom (cm_nodes c)))%nat as Le.
    { apply subseteq_size. pose proof (Sub c). pose proof (Sub c'). set_solver. }
    rewrite size_union in Le by set_solver. unfold total_count in Q, Q'.
    assert (size (cm_nodes c') = size (cm_nodes c)) as Es by (rewrite <- !size_dom; by rewrite D).
    rewrite size_dom in Le. lia.
  - apply set_choose_L in N as [id [(n & E & A)%elem_of_alive_ids (n' & E' & A')%elem_of_alive_ids]%elem_of_intersection].
    unfold Node_is_alive in A, A'. apply bool_decide_eq_true in A, A'. by exists id, n, n'.
Qed.
End membership_spec.

Definition demo_nodes (dead : list string) : ClusterMembership :=
  foldl cluster_step (ClusterMembership_new "n1")
    ([ClAdd (Node_with_role (Node_new "n1" "127.0.0.1" 7001 0) Leader); ClAdd (Node_new "n2" "127.0.0.1" 7002 0);
      ClAdd (Node_new "n3" "127.0.0.1" 7003 0)] ++ (ClDead <$> dead)).
#[local] Instance demo_node_order : NodeOrder := λ m, (map_to_list m).*2.
#[local] Instance demo_node_order_laws : NodeOrderLaws.
Proof. by intros m. Qed.

Lemma quorums_intersect_witness :
  has_quorum (demo_nodes ["n1"]%string) = true ∧
  ∃ id n n', get_node (demo_nodes ["n1"]%string) id = Some n ∧ get_node (demo_nodes ["n2"]%string) id = Some n' ∧
    node_status n = Alive ∧ node_status n' = Alive.
Proof.
  split; [by vm_compute|]. apply quorums_intersect; [by vm_compute|by vm_compute|by vm_compute].
Defined.

(** ** The replication log *)

Inductive Operation : Type :=
| RepInsert (table : string) (row_id : Z) (data : values)
| RepUpdate (table : string) (row_id : Z) (data : values)
| RepDelete (table : string) (row_id : Z).

Record OpEntry : Type := MkOpEntry {
  oe_id : list byte;
  oe_seq : Z;
  oe_timestamp : Z;
  oe_op : Operation
}.

Record PeerState : Type := MkPeer { peer_id : string; last_applied_seq : Z; peer_state_lag : Z }.

Record Replicator : Type := MkReplicator {
  oplog : list OpEntry;
  max_oplog_size : Z;
  next_seq : Z;
  peers : gmap string PeerState
}.

Section replicator.
Implicit Types r : Replicator.

Definition Replicator_new : Replicator := MkReplicator [] 10000 1 ∅.
Definition with_max_oplog_size r (max : Z) : Replicator := MkReplicator (oplog r) max (next_seq r) (peers r).

(** [append]; [uuid] and [now] are drawn in it. The sequence number wraps around in a
    release build. *)
Definition append_op r (uuid : list byte) (now : Z) (op : Operation) : Z * Replicator :=
  let seq := next_seq r in
  let log := oplog r ++ [MkOpEntry uuid seq now op] in
  (seq, MkReplicator (last_n (Z.to_nat (max_oplog_size r)) log) (max_oplog_size r) (wrap 64 (seq + 1)) (peers r)).

Definition entries_since r (since : Z) : list OpEntry := filter (λ e, since < oe_seq e) (oplog r).
Definition latest_seq r : Z := Z.max 0 (next_seq r - 1).
Definition oplog_size r : nat := length (oplog r).

Definition set_peers r (ps : gmap string PeerState) : Replicator :=
  MkReplicator (oplog r) (max_oplog_size r) (next_seq r) ps.
Definition register_peer r (id : string) : Replicator :=
  set_peers r (match peers r !! id with Some _ => peers r | None => <[id := MkPeer id 0 0]> (peers r) end).
Definition update_peer r (id : string) (seq : Z) : Replicator :=
  match peers r !! id with
  | Some p => set_peers r (<[id := MkPeer (peer_id p) seq (Z.max 0 (latest_seq r - seq))]> (peers r))
  | None => r
  end.
Definition peer_lag r (id : string) : option Z := peer_state_lag <$> peers r !! id.
Definition remove_peer r (id : string) : bool * Replicator :=
  (bool_decide (is_Some (peers r !! id)), set_peers r (delete id (peers r))).
End replicator.

(** A log that operations are appended to, each with its uuid and its time. *)
Definition append_all (r : Replicator) (ops : list (list byte * Z * Operation)) : Replicator :=
  foldl (λ r o, (append_op r o.1.1 o.1.2 o.2).2) r ops.

(** The entries of operations numbered from [n]. *)
Fixpoint numbered_from (n : Z) (ops : list (list byte * Z * Operation)) : list OpEntry :=
  match ops with
  | [] => []
  | o :: ops => MkOpEntry o.1.1 n o.1.2 o.2 :: numbered_from (n + 1) ops
  end.

Lemma numbered_from_snoc ops : ∀ n o,
  numbered_from n (ops ++ [o]) = numbered_from n ops ++ [MkOpEntry o.1.1 (n + Z.of_nat (length ops)) o.1.2 o.2].
Proof.
  induction ops as [|x ops IH]; intros n o; cbn; [by rewrite Z.add_0_r|]. rewrite IH. do 4 f_equal. lia.
Qed.

Lemma length_numbered_from ops : ∀ n, length (numbered_from n ops) = length ops.
Proof. induction ops; intros n; cbn; [done|by f_equal]. Qed.

Lemma numbered_from_ops ops : ∀ n, oe_op <$> numbered_from n ops = ops.*2.
Proof. induction ops as [|o ops IH]; intros n; cbn; [done|]. f_equal. apply IH. Qed.

Lemma numbered_from_drop k : ∀ ops n,
  drop k (numbered_from n ops) = numbered_from (n + Z.of_nat k) (drop k ops).
Proof.
  induction k as [|k IH]; intros [|o ops] n; cbn [drop numbered_from]; rewrite ?Z.add_0_r; try done.
  rewrite IH. f_equal. lia.
Qed.

Lemma numbered_from_since ops : ∀ n s,
  filter (λ e, s < oe_seq e) (numbered_from n ops) = drop (Z.to_nat (s + 1 - n)) (numbered_from n ops).
Proof.
  induction ops as [|o ops IH]; intros n s; cbn [numbered_from]; [by rewrite drop_nil|].
  destruct (decide (s < n)) as [L|G].
  - replace (Z.to_nat (s + 1 - n)) with O by lia. rewrite filter_cons_True by done. f_equal.
    rewrite IH. by replace (Z.to_nat (s + 1 - (n + 1))) with O by lia.
  - rewrite filter_cons_False by done. rewrite IH.
    replace (Z.to_nat (s + 1 - n)) with (S (Z.to_nat (s + 1 - (n + 1)))) by lia. done.
Qed.

(** Where the log stands after appending [ops] to a fresh one: its last [max] entries. *)
Lemma append_all_spec max ops :
  0 <= max → Z.of_nat (length ops) + 1 < 2 ^ 64 →
  let r := append_all (with_max_oplog_size Replicator_new max) ops in
  oplog r = last_n (Z.to_nat max) (numbered_from 1 ops) ∧ next_seq r = 1 + Z.of_nat (length ops) ∧
  max_oplog_size r = max.
Proof.
  intros M. induction ops as [|o ops IH] using rev_ind; intros L r; [done|].
  unfold r, append_all in *. rewrite foldl_app. cbn [foldl]. rewrite length_app in L |- *. cbn [length] in L |- *.
  destruct IH as (Eo & En & Em); [lia|]. set (r0 := foldl _ _ ops) in *. clearbody r0.
  unfold append_op. cbn. rewrite Eo, En, Em. split_and!; [|rewrite wrap_small; lia|done].
  rewrite numbered_from_snoc. apply last_n_snoc.
Qed.

Lemma reported_lag r peer seq :
  peer_lag (update_peer (register_peer r peer) peer seq) peer = Some (Z.max 0 (latest_seq r - seq)).
Proof.
  unfold register_peer. destruct (peers r !! peer) as [p|] eqn:E; unfold peer_lag, update_peer, set_peers; cbn.
  - rewrite E. cbn. by rewrite lookup_insert_eq.
  - rewrite lookup_insert_eq. cbn. by rewrite lookup_insert_eq.
Qed.

(** What a replica that has applied everything up to [seq] is handed is the rest of
    the log, in order, exactly when no more than [max] operations came since, for trimmed
    entries are left out; and when the replica reports [seq] its lag is the number of
    operations it has not applied. *)
Theorem replica_catches_up max ops seq peer :
  0 <= max → Z.of_nat (length ops) + 1 < 2 ^ 64 → 0 <= seq <= Z.of_nat (length ops) →
  let r := append_all (with_max_oplog_size Replicator_new max) ops in
  let missing := drop (Z.to_nat seq) ops.*2 in
  (oe_op <$> entries_since r seq = missing ↔ Z.of_nat (length missing) <= max) ∧
  oe_op <$> entries_since r seq = last_n (Z.to_nat max) missing ∧
  peer_lag (update_peer (register_peer r peer) peer seq) peer = Some (Z.of_nat (length missing)) ∧
  latest_seq r = Z.of_nat (length ops).
Proof.
  intros M L B r missing. destruct (append_all_spec max ops M L) as (Eo & En & Em). fold r in Eo, En, Em.
  assert (length missing = length ops - Z.to_nat seq)%nat as Lm by (unfold missing; rewrite length_drop, length_fmap; done).
  assert (oe_op <$> entries_since r seq = last_n (Z.to_nat max) missing) as E.
  { unfold entries_since. rewrite Eo. unfold last_n. rewrite length_numbered_from, numbered_from_drop, numbered_from_since.
    rewrite numbered_from_drop, numbered_from_ops, drop_drop, fmap_drop. unfold missing.
    rewrite drop_drop. f_equal. rewrite length_drop, length_fmap. lia. }
  split_and!.
  - rewrite E. split; intros H.
    + apply (f_equal length) in H. rewrite length_last_n in H. lia.
    + apply last_n_all. lia.
  - exact E.
  - rewrite reported_lag. unfold latest_seq. f_equal. lia.
  - unfold latest_seq. lia.
Qed.

Definition demo_op (n : Z) : list byte * Z * Operation := ([], n, RepDelete "t" n).

Lemma replica_catches_up_witness :
  oe_op <$> entries_since (append_all (with_max_oplog_size Replicator_new 2) [demo_op 7; demo_op 8; demo_op 9]) 1
    = [RepDelete "t" 8; RepDelete "t" 9].
Proof.
  assert (Z.of_nat (length (drop (Z.to_nat 1) ([demo_op 7; demo_op 8; demo_op 9].*2))) <= 2) as L by (by vm_compute).
  refine (proj2 (proj1 (replica_catches_up 2 [demo_op 7; demo_op 8; demo_op 9] 1 "p" _ _ _)) L); [lia|by vm_compute|by vm_compute].
Defined.

(** A peer that registers late is shown as not lagging at all until it reports. *)
Example late_peer_shows_no_lag :
  let r := append_all Replicator_new [demo_op 7; demo_op 8] in
  peer_lag (register_peer r "p") "p" = Some 0 ∧ length (entries_since r 0) = 2%nat.
Proof. by vm_compute. Qed.

(** A replica that lags behind the trimmed log is handed later operations only. *)
Example trimmed_operations_are_skipped :
  let r := append_all (with_max_oplog_size Replicator_new 1) [demo_op 7; demo_op 8] in
  oe_op <$> entries_since r 0 = [RepDelete "t" 8].
Proof. by vm_compute. Qed.
