(* ===== verification/Streams.v ===== *)
(** Fan-out to subscribers inside the process: [EventEmitter] of
    [blitz-events/src/{event,emitter}.rs] and [SubscriptionManager] with its deltas of
    [blitz-realtime/src/subscription.rs]. Both are a map of filtered subscribers with a
    bounded log; what the map does is shown once. A callback is a name here: a call of it
    is what the model answers. *)
From S2P Require Import Prelude Value HashMap Schema Core Changes.

Local Open Scope Z_scope.

(** ** A map of subscribers *)

(** The order in which a hash map is iterated: any. *)
Class EnumOrder (K A : Type) `{Countable K} : Type := enum_of : gmap K A → list (K * A).
Class EnumOrderLaws (K A : Type) `{EnumOrder K A} : Prop := enum_of_perm m : enum_of m ≡ₚ map_to_list m.

Section hub.
Context {K S M : Type} `{Countable K} (matches : S → M → bool).
Implicit Types subs : gmap K S.

(** The subscribers a message goes to. *)
Definition notified `{!EnumOrder K S} subs (msg : M) : list (K * S) :=
  filter (λ p, matches p.2 msg = true) (enum_of subs).

Inductive hub_op : Type := HubSub (k : K) (s : S) | HubUnsub (k : K) | HubClear | HubSend (msg : M).

Definition hub_step `{!EnumOrder K S} subs (op : hub_op) : list (K * S * M) * gmap K S :=
  match op with
  | HubSub k s => ([], <[k := s]> subs)
  | HubUnsub k => ([], delete k subs)
  | HubClear => ([], ∅)
  | HubSend msg => ((λ p, (p, msg)) <$> notified subs msg, subs)
  end.

Fixpoint hub_run `{!EnumOrder K S} subs (ops : list hub_op) : list (K * S * M) :=
  match ops with
  | [] => []
  | op :: ops => let '(out, subs) := hub_step subs op in out ++ hub_run subs ops
  end.

(** The same for one subscriber by itself. *)
Fixpoint alone (k : K) (sub : option S) (ops : list hub_op) : list (S * M) :=
  match ops with
  | [] => []
  | HubSub k' s :: ops => alone k (if bool_decide (k' = k) then Some s else sub) ops
  | HubUnsub k' :: ops => alone k (if bool_decide (k' = k) then None else sub) ops
  | HubClear :: ops => alone k None ops
  | HubSend msg :: ops =>
      match sub with
      | Some s => if matches s msg then (s, msg) :: alone k sub ops else alone k sub ops
      | None => alone k sub ops
      end
  end.

Definition calls_of (k : K) (out : list (K * S * M)) : list (S * M) :=
  (λ c, (c.1.2, c.2)) <$> filter (λ c, c.1.1 = k) out.

Context `{!EnumOrder K S} `{!EnumOrderLaws K S}.

Lemma notified_at subs msg k :
  filter (λ p, p.1 = k) (notified subs msg) =
    match subs !! k with Some s => if matches s msg then [(k, s)] else [] | None => [] end.
Proof.
  assert (∀ p, p ∈ filter (λ p, p.1 = k) (notified subs msg) ↔ p.1 = k ∧ matches p.2 msg = true ∧ subs !! p.1 = Some p.2) as E.
  { intros [k' s]. unfold notified. rewrite !list_elem_of_filter, enum_of_perm, elem_of_map_to_list. done. }
  assert (NoDup (filter (λ p, p.1 = k) (notified subs msg))) as N.
  { unfold notified. apply NoDup_filter, NoDup_filter. rewrite enum_of_perm. apply NoDup_map_to_list. }
  destruct (subs !! k) as [s|] eqn:L; [|].
  - destruct (NoDup_singleton_or_nil (k, s) _ N) as [Z|Z].
    { intros [k' s'] (? & _ & L')%E. cbn in *. subst k'. rewrite L in L'. by injection L' as ->. }
    + rewrite Z. destruct (matches s msg) eqn:Mt; [|done]. exfalso.
      assert ((k, s) ∈ []) as []%not_elem_of_nil. rewrite <- Z. by apply E.
    + rewrite Z. destruct (proj1 (E (k, s))) as (_ & Mt & _); [rewrite Z; left|]. cbn in Mt. by rewrite Mt.
  - destruct (filter _ _) as [|p l] eqn:F in E |- *; [done|]. exfalso.
    destruct (proj1 (E p)) as (? & _ & L'); [left|]. congruence.
Qed.

Lemma calls_of_app k out out' : calls_of k (out ++ out') = calls_of k out ++ calls_of k out'.
Proof. unfold calls_of. by rewrite filter_app, fmap_app. Qed.

Lemma calls_of_send k subs msg :
  calls_of k ((λ p, (p, msg)) <$> notified subs msg) =
    match subs !! k with Some s => if matches s msg then [(s, msg)] else [] | None => [] end.
Proof.
  unfold calls_of. rewrite filter_fmap. cbn. rewrite (notified_at subs msg k).
  destruct (subs !! k) as [s|]; [|done]. by destruct (matches s msg).
Qed.

(** Each subscriber is called as if it were alone. *)
Lemma hub_run_alone k ops : ∀ subs, calls_of k (hub_run subs ops) = alone k (subs !! k) ops.
Proof.
  induction ops as [|op ops IH]; intros subs; [done|].
  destruct op as [k' s|k'| |msg]; cbn [hub_run hub_step alone]; rewrite calls_of_app, IH; cbn [calls_of].
  - cbn. rewrite lookup_insert. by repeat case_decide || case_bool_decide.
  - cbn. rewrite lookup_delete. by repeat case_decide || case_bool_decide.
  - cbn. by rewrite lookup_empty.
  - rewrite calls_of_send. destruct (subs !! k) as [s|]; [|done]. by destruct (matches s msg).
Qed.
End hub.
Arguments hub_op : clear implicits.

(** ** Events *)

Inductive EventKind : Type :=
| TableCreated
| TableDropped
| RowInserted
| RowUpdated
| RowDeleted
| TransactionCommitted
| TransactionRolledBack
| Custom (name : string).
#[export] Instance EventKind_eq_dec : EqDecision EventKind.
Proof. solve_decision. Defined.

Definition EventKind_as_str (k : EventKind) : string :=
  match k with
  | TableCreated => "table.created"
  | TableDropped => "table.dropped"
  | RowInserted => "row.inserted"
  | RowUpdated => "row.updated"
  | RowDeleted => "row.deleted"
  | TransactionCommitted => "tx.committed"
  | TransactionRolledBack => "tx.rolled_back"
  | Custom s => s
  end.

#[export] Instance EventKind_countable : Countable EventKind.
Proof.
  refine (inj_countable'
    (λ k, match k with
          | TableCreated => inl 0%nat | TableDropped => inl 1%nat | RowInserted => inl 2%nat | RowUpdated => inl 3%nat
          | RowDeleted => inl 4%nat | TransactionCommitted => inl 5%nat | TransactionRolledBack => inl 6%nat
          | Custom s => inr s
          end)
    (λ c, match c with
          | inl 0%nat => TableCreated | inl 1%nat => TableDropped | inl 2%nat => RowInserted | inl 3%nat => RowUpdated
          | inl 4%nat => RowDeleted | inl 5%nat => TransactionCommitted | inl _ => TransactionRolledBack
          | inr s => Custom s
          end) _).
  by intros [].
Defined.

Record Event : Type := MkEvent {
  ev_id : list byte;
  ev_kind : EventKind;
  ev_timestamp : Z;
  ev_table : option string;
  ev_data : values
}.

Definition Event_new (uuid : list byte) (now : Z) (kind : EventKind) : Event := MkEvent uuid kind now None ∅.
Definition Event_with_table (e : Event) (table : string) : Event :=
  MkEvent (ev_id e) (ev_kind e) (ev_timestamp e) (Some table) (ev_data e).
Definition Event_with_data (e : Event) (key : string) (v : value) : Event :=
  MkEvent (ev_id e) (ev_kind e) (ev_timestamp e) (ev_table e) (<[key := v]> (ev_data e)).
Definition Event_get (e : Event) (key : string) : option value := ev_data e !! key.

Section emitter.
Context {CB : Type}.

Record Subscriber : Type := MkSubscriber {
  sub_id : string;
  sub_kinds : option (gset EventKind);
  sub_tables : option (gset string);
  sub_callback : CB
}.

Record EventEmitter : Type := MkEmitter {
  em_subscribers : gmap string Subscriber;
  em_buffer : list Event;
  em_history : list Event;
  em_max_history : Z
}.
Implicit Types e : EventEmitter.

Definition EventEmitter_new : EventEmitter := MkEmitter ∅ [] [] 1000.
Definition with_max_history e (max : Z) : EventEmitter := MkEmitter (em_subscribers e) (em_buffer e) (em_history e) max.
Definition set_subscribers e (m : gmap string Subscriber) : EventEmitter :=
  MkEmitter m (em_buffer e) (em_history e) (em_max_history e).

Definition add_subscriber e (s : Subscriber) : EventEmitter := set_subscribers e (<[sub_id s := s]> (em_subscribers e)).
Definition subscribe e (id : string) (cb : CB) : EventEmitter := add_subscriber e (MkSubscriber id None None cb).
Definition subscribe_kind e (id : string) (kinds : list EventKind) (cb : CB) : EventEmitter :=
  add_subscriber e (MkSubscriber id (Some (list_to_set kinds)) None cb).
Definition subscribe_table e (id : string) (tables : list string) (cb : CB) : EventEmitter :=
  add_subscriber e (MkSubscriber id None (Some (list_to_set tables)) cb).
Definition unsubscribe e (id : string) : bool * EventEmitter :=
  (bool_decide (is_Some (em_subscribers e !! id)), set_subscribers e (delete id (em_subscribers e))).
Definition clear_subscribers e : EventEmitter := set_subscribers e ∅.
Definition subscriber_count e : nat := size (em_subscribers e).

Definition event_matches (s : Subscriber) (ev : Event) : bool :=
  match sub_kinds s with Some kinds => bool_decide (ev_kind ev ∈ kinds) | None => true end &&
  match sub_tables s with
  | Some tables => match ev_table ev with Some t => bool_decide (t ∈ tables) | None => false end
  | None => true
  end.

(** [emit]: the subscribers called, and the emitter. *)
Definition emit `{!EnumOrder string Subscriber} e (ev : Event) : list Subscriber * EventEmitter :=
  ((notified event_matches (em_subscribers e) ev).*2,
   MkEmitter (em_subscribers e) (em_buffer e ++ [ev]) (last_n (Z.to_nat (em_max_history e)) (em_history e ++ [ev]))
     (em_max_history e)).

Definition drain_events e : list Event * EventEmitter :=
  (em_buffer e, MkEmitter (em_subscribers e) [] (em_history e) (em_max_history e)).

(** A run of an emitter: the calls it makes and the events it hands out. *)
Inductive emitter_op : Type :=
| EmSubscribe (id : string) (cb : CB)
| EmSubscribeKind (id : string) (kinds : list EventKind) (cb : CB)
| EmSubscribeTable (id : string) (tables : list string) (cb : CB)
| EmUnsubscribe (id : string)
| EmClear
| EmEmit (ev : Event)
| EmDrain.

Definition emitter_step `{!EnumOrder string Subscriber} e (op : emitter_op)
    : list (Subscriber * Event) * list Event * EventEmitter :=
  match op with
  | EmSubscribe id cb => ([], [], subscribe e id cb)
  | EmSubscribeKind id kinds cb => ([], [], subscribe_kind e id kinds cb)
  | EmSubscribeTable id tables cb => ([], [], subscribe_table e id tables cb)
  | EmUnsubscribe id => ([], [], (unsubscribe e id).2)
  | EmClear => ([], [], clear_subscribers e)
  | EmEmit ev => let '(called, e) := emit e ev in ((λ s, (s, ev)) <$> called, [], e)
  | EmDrain => let '(evs, e) := drain_events e in ([], evs, e)
  end.

Fixpoint emitter_run `{!EnumOrder string Subscriber} e (ops : list emitter_op)
    : list (Subscriber * Event) * list Event * EventEmitter :=
  match ops with
  | [] => ([], [], e)
  | op :: ops =>
      let '(calls, drained, e) := emitter_step e op in
      let '(calls', drained', e) := emitter_run e ops in
      (calls ++ calls', drained ++ drained', e)
  end.

Definition hub_ops (op : emitter_op) : list (hub_op string Subscriber Event) :=
  match op with
  | EmSubscribe id cb => [HubSub id (MkSubscriber id None None cb)]
  | EmSubscribeKind id kinds cb => [HubSub id (MkSubscriber id (Some (list_to_set kinds)) None cb)]
  | EmSubscribeTable id tables cb => [HubSub id (MkSubscriber id None (Some (list_to_set tables)) cb)]
  | EmUnsubscribe id => [HubUnsub id]
  | EmClear => [HubClear]
  | EmEmit ev => [HubSend ev]
  | EmDrain => []
  end.

Definition emitted_events (ops : list emitter_op) : list Event :=
  omap (λ op, match op with EmEmit ev => Some ev | _ => None end) ops.

Context `{!EnumOrder string Subscriber} `{!EnumOrderLaws string Subscriber}.

Definition filed e : Prop := ∀ k s, em_subscribers e !! k = Some s → sub_id s = k.

Lemma filed_step e op : filed e → filed (emitter_step e op).2.
Proof.
  intros F. destruct op as [id cb|id kinds cb|id tables cb|id| |ev|]; cbn; intros k s'; cbn; rewrite ?lookup_insert, ?lookup_delete, ?lookup_empty;
    repeat case_decide; try (intros [= <-]); try done; by apply F.
Qed.

Lemma notified_filed e ev : filed e →
  notified event_matches (em_subscribers e) ev = (λ s, (sub_id s, s)) <$> (notified event_matches (em_subscribers e) ev).*2.
Proof.
  intros F. rewrite <- list_fmap_compose. symmetry. rewrite <- (list_fmap_id (notified _ _ _)) at 2.
  apply list_fmap_ext. intros i [k s] E%list_elem_of_lookup_2. cbn.
  unfold notified in E. apply list_elem_of_filter in E as [_ E]. rewrite enum_of_perm, elem_of_map_to_list in E.
  by rewrite (F _ _ E).
Qed.

(** The calls of a run are those of its map of subscribers. *)
Lemma emitter_run_hub ops : ∀ e, filed e →
  (λ c, (sub_id c.1, c.1, c.2)) <$> (emitter_run e ops).1.1 = hub_run event_matches (em_subscribers e) (ops ≫= hub_ops).
Proof.
  induction ops as [|op ops IH]; intros e F; [done|]. cbn [emitter_run]. pose proof (filed_step e op F) as F'.
  specialize (IH (emitter_step e op).2 F'). destruct op as [id cb|id kinds cb|id tables cb|id| |ev|]; cbn in IH |- *;
    destruct (emitter_run _ ops) as [[calls drained] e']; cbn in IH |- *; rewrite ?IH; try done.
  rewrite fmap_app, IH. f_equal. rewrite (notified_filed e ev F) at 2. by rewrite <- !list_fmap_compose.
Qed.

Lemma emitter_run_log ops : ∀ e,
  let '(_, drained, e') := emitter_run e ops in
  drained ++ em_buffer e' = em_buffer e ++ emitted_events ops ∧ em_max_history e' = em_max_history e ∧
  (∀ h, em_history e = last_n (Z.to_nat (em_max_history e)) h →
    em_history e' = last_n (Z.to_nat (em_max_history e)) (h ++ emitted_events ops)).
Proof.
  induction ops as [|op ops IH]; intros e; cbn [emitter_run].
  { unfold emitted_events. cbn. rewrite app_nil_r. split_and!; [done|done|]. intros h. by rewrite app_nil_r. }
  assert (emitted_events (op :: ops) = match op with EmEmit ev => [ev] | _ => [] end ++ emitted_events ops) as Em by by destruct op.
  rewrite Em. specialize (IH (emitter_step e op).2). destruct op as [id cb|id kinds cb|id tables cb|id| |ev|]; cbn in IH |- *;
    destruct (emitter_run _ ops) as [[calls drained] e']; destruct IH as (B & Mx & Hi); cbn in B, Mx, Hi |- *.
  1, 2, 3, 4, 5: split_and!; [done|done|exact Hi].
  - split_and!; [by rewrite B, <- app_assoc|done|]. intros h E. rewrite (Hi (h ++ [ev])); [by rewrite <- app_assoc|].
    by rewrite E, last_n_snoc.
  - split_and!; [by rewrite <- app_assoc, B|done|exact Hi].
Qed.

(** What a subscriber by itself should see: the callback and the events it accepts, as its
    latest registration says. *)
Definition registration (id : string) (cur : option (CB * (Event → bool))) (op : emitter_op) : option (CB * (Event → bool)) :=
  match op with
  | EmSubscribe id' cb => if bool_decide (id' = id) then Some (cb, λ _, true) else cur
  | EmSubscribeKind id' kinds cb =>
      if bool_decide (id' = id) then Some (cb, λ ev, bool_decide (ev_kind ev ∈ kinds)) else cur
  | EmSubscribeTable id' tables cb =>
      if bool_decide (id' = id)
      then Some (cb, λ ev, match ev_table ev with Some t => bool_decide (t ∈ tables) | None => false end) else cur
  | EmUnsubscribe id' => if bool_decide (id' = id) then None else cur
  | EmClear => None
  | EmEmit _ | EmDrain => cur
  end.
Fixpoint seen_by (id : string) (cur : option (CB * (Event → bool))) (ops : list emitter_op) : list (CB * Event) :=
  match ops with
  | [] => []
  | op :: ops =>
      match op, cur with
      | EmEmit ev, Some (cb, accepts) => if accepts ev then [(cb, ev)] else []
      | _, _ => []
      end ++ seen_by id (registration id cur op) ops
  end.

(** A stored subscriber is the registration it came from. *)
Definition stands_for (sub : option Subscriber) (cur : option (CB * (Event → bool))) : Prop :=
  match sub, cur with
  | Some s, Some (cb, accepts) => sub_callback s = cb ∧ ∀ ev, event_matches s ev = accepts ev
  | None, None => True
  | _, _ => False
  end.

Lemma stands_for_all id cb : stands_for (Some (MkSubscriber id None None cb)) (Some (cb, λ _, true)).
Proof. done. Qed.
Lemma stands_for_kinds id kinds cb :
  stands_for (Some (MkSubscriber id (Some (list_to_set kinds)) None cb)) (Some (cb, λ ev, bool_decide (ev_kind ev ∈ kinds))).
Proof. split; [done|]. intros ev. unfold event_matches. cbn. rewrite andb_true_r. apply bool_decide_ext, elem_of_list_to_set. Qed.
Lemma stands_for_tables id tables cb :
  stands_for (Some (MkSubscriber id None (Some (list_to_set tables)) cb))
    (Some (cb, λ ev, match ev_table ev with Some t => bool_decide (t ∈ tables) | None => false end)).
Proof.
  split; [done|]. intros ev. unfold event_matches. cbn. destruct (ev_table ev); [|done]. apply bool_decide_ext, elem_of_list_to_set.
Qed.

Lemma alone_seen_by id ops : ∀ sub cur, stands_for sub cur →
  (λ c, (sub_callback c.1, c.2)) <$> alone event_matches id sub (ops ≫= hub_ops) = seen_by id cur ops.
Proof.
  induction ops as [|op ops IH]; intros sub cur St; [done|].
  destruct op as [id' cb|id' kinds cb|id' tables cb|id'| |ev|]; cbn [mbind list_bind hub_ops app alone seen_by registration].
  - case_bool_decide; apply IH; [apply stands_for_all|exact St].
  - case_bool_decide; apply IH; [apply stands_for_kinds|exact St].
  - case_bool_decide; apply IH; [apply stands_for_tables|exact St].
  - case_bool_decide; apply IH; [done|exact St].
  - by apply IH.
  - destruct sub as [s|], cur as [[cb accepts]|]; cbn in St; try done; [|by apply IH]. destruct St as [<- E].
  rewrite (E ev). destruct (accepts ev); cbn; [f_equal|]; by apply IH.
  - by apply IH.
Qed.

Lemma emitter_run_subs id ops : ∀ e cur, stands_for (em_subscribers e !! id) cur →
  stands_for (em_subscribers (emitter_run e ops).2 !! id) (foldl (registration id) cur ops).
Proof.
  induction ops as [|op ops IH]; intros e cur St; [done|]. cbn [emitter_run foldl].
  assert (stands_for (em_subscribers (emitter_step e op).2 !! id) (registration id cur op)) as St'.
  { destruct op as [id' cb|id' kinds cb|id' tables cb|id'| |ev|]; cbn [emitter_step snd registration]; try done.
    - cbn. rewrite lookup_insert. case_decide; case_bool_decide; done.
    - cbn. rewrite lookup_insert. case_decide; case_bool_decide; try done. apply stands_for_kinds.
    - cbn. rewrite lookup_insert. case_decide; case_bool_decide; try done. apply stands_for_tables.
    - cbn. rewrite lookup_delete. case_decide; case_bool_decide; done. }
  specialize (IH (emitter_step e op).2 _ St'). destruct (emitter_step e op) as [[c d] e1]. cbn [snd] in IH.
  by destruct (emitter_run e1 ops) as [[c' d'] e2].
Qed.

(** C30: Every subscriber is called for exactly the events emitted while it was registered
    that its registration accepts - all of them, those of the kinds or those on the tables
    it subscribed to - each once, in order and on the callback of its latest registration,
    whoever else is registered; removing a subscriber reports whether it was registered;
    the history is the last events emitted, up to its limit; and every event emitted is
    handed out by exactly one [drain], in order, or still in the buffer. *)
Theorem subscriber_sees_its_events max ops :
  let '(calls, drained, e) := emitter_run (with_max_history EventEmitter_new max) ops in
  (∀ id, (λ c, (sub_callback c.1, c.2)) <$> filter (λ c, sub_id c.1 = id) calls = seen_by id None ops) ∧
  (∀ id, (unsubscribe e id).1 = bool_decide (is_Some (foldl (registration id) None ops))) ∧
  em_history e = last_n (Z.to_nat max) (emitted_events ops) ∧
  drained ++ em_buffer e = emitted_events ops.
Proof.
  set (e0 := with_max_history EventEmitter_new max).
  assert (filed e0) as F by (intros k s; cbn; by rewrite lookup_empty).
  pose proof (emitter_run_hub ops e0 F) as Hub. pose proof (emitter_run_log ops e0) as Log.
  assert (∀ id, stands_for (em_subscribers (emitter_run e0 ops).2 !! id) (foldl (registration id) None ops)) as Reg
    by (intros id; apply emitter_run_subs; cbn; by rewrite lookup_empty).
  destruct (emitter_run e0 ops) as [[calls drained] e]. destruct Log as (B & _ & Hi). cbn in Hub, Reg.
  split_and!; [| |by apply (Hi [])|exact B]; intros id.
  - rewrite <- (alone_seen_by id ops None None I). f_equal.
    rewrite <- (lookup_empty (M := gmap string) id : _ = None).
    rewrite <- (hub_run_alone event_matches id (ops ≫= hub_ops) ∅), <- Hub. unfold calls_of.
    rewrite filter_fmap, <- list_fmap_compose. cbn. rewrite <- (list_fmap_id (filter _ calls)) at 1.
    apply list_fmap_ext. by intros i [s ev] _.
  - specialize (Reg id). cbn. apply bool_decide_ext. unfold stands_for in Reg.
    destruct (em_subscribers e !! id), (foldl _ _ ops) as [[]|]; try done; split; by eexists.
Qed.
End emitter.

Definition demo_event (now : Z) (table : string) : Event := Event_with_table (Event_new [] now RowInserted) table.
Definition demo_emitter_ops : list (emitter_op (CB := nat)) :=
  [EmSubscribeTable "a" ["t"%string] 1%nat; EmEmit (demo_event 1 "t"); EmEmit (demo_event 2 "u");
   EmDrain; EmUnsubscribe "a"; EmEmit (demo_event 3 "t")].

Lemma subscriber_sees_its_events_witness :
  let '(calls, drained, e) := @emitter_run nat map_to_list (with_max_history EventEmitter_new 2) demo_emitter_ops in
  (λ c, (sub_callback c.1, ev_timestamp c.2)) <$> filter (λ c, sub_id c.1 = "a"%string) calls = [(1%nat, 1)] ∧
  em_history e = [demo_event 2 "u"; demo_event 3 "t"] ∧ drained ++ em_buffer e = emitted_events demo_emitter_ops.
Proof.
  assert (@EnumOrderLaws string (Subscriber (CB := nat)) _ _ map_to_list) as L by (by intros m).
  pose proof (@subscriber_sees_its_events nat map_to_list L 2 demo_emitter_ops) as T.
  destruct (@emitter_run nat map_to_list (with_max_history EventEmitter_new 2) demo_emitter_ops) as [[calls drained] e].
  destruct T as (C & _ & Hi & D). rewrite Hi. split; [|split; [reflexivity|exact D]].
  transitivity ((λ c : nat * Event, (c.1, ev_timestamp c.2)) <$> seen_by "a" None demo_emitter_ops); [|reflexivity].
  rewrite <- (C "a"%string), <- list_fmap_compose. done.
Defined.

(** ** Deltas *)

Inductive DeltaKind : Type := DeltaInsert | DeltaUpdate | DeltaDelete.
#[export] Instance DeltaKind_eq_dec : EqDecision DeltaKind.
Proof. solve_decision. Defined.

Record Delta : Type := MkDelta {
  delta_row_id : Z;
  delta_change : DeltaKind;
  old_row : option Row;
  new_row : option Row;
  changed_columns : gmap string (option value * option value)
}.

(** [==] on [Option<Value>] *)
Definition opt_value_eqb (a b : option value) : bool :=
  match a, b with
  | Some a, Some b => value_eqb a b
  | None, None => true
  | _, _ => false
  end.

Definition Delta_insert (row_id : Z) (new : Row) : Delta :=
  MkDelta row_id DeltaInsert None (Some new) ((λ v, (None, Some v)) <$> row_values new).
Definition Delta_delete (row_id : Z) (old : Row) : Delta :=
  MkDelta row_id DeltaDelete (Some old) None ((λ v, (Some v, None)) <$> row_values old).

Definition diff_column (old new : values) (m : gmap string (option value * option value)) (col : string)
    : gmap string (option value * option value) :=
  let o := old !! col in
  let n := new !! col in
  if opt_value_eqb o n then m else <[col := (o, n)]> m.
Definition diff_values (old new : values) : gmap string (option value * option value) :=
  foldl (diff_column old new) ∅ (elements (dom old ∪ dom new)).
Definition Delta_update (row_id : Z) (old new : Row) : Delta :=
  MkDelta row_id DeltaUpdate (Some old) (Some new) (diff_values (row_values old) (row_values new)).

Definition column_changed (d : Delta) (col : string) : bool := bool_decide (is_Some (changed_columns d !! col)).
Definition old_value (d : Delta) (col : string) : option value := p ← changed_columns d !! col; p.1.
Definition new_value (d : Delta) (col : string) : option value := p ← changed_columns d !! col; p.2.

Lemma diff_fold_lookup old new cols : ∀ m col,
  foldl (diff_column old new) m cols !! col =
    if bool_decide (col ∈ cols) && negb (opt_value_eqb (old !! col) (new !! col))
    then Some (old !! col, new !! col) else m !! col.
Proof.
  induction cols as [|c cols IH]; intros m col; [done|]. cbn [foldl]. rewrite IH. unfold diff_column at 1.
  destruct (opt_value_eqb (old !! col) (new !! col)) eqn:E; cbn.
  - rewrite !andb_false_r. destruct (opt_value_eqb (old !! c) (new !! c)) eqn:E'; [done|].
    rewrite lookup_insert_ne; [done|congruence].
  - rewrite !andb_true_r. destruct (decide (col = c)) as [->|N].
    + rewrite (bool_decide_true (c ∈ c :: cols)) by left. rewrite E, lookup_insert_eq. by case_bool_decide.
    + rewrite (bool_decide_ext (col ∈ c :: cols) (col ∈ cols)) by set_solver.
      destruct (opt_value_eqb (old !! c) (new !! c)); [done|]. by rewrite lookup_insert_ne.
Qed.

Lemma diff_lookup old new col :
  diff_values old new !! col =
    if opt_value_eqb (old !! col) (new !! col) then None else Some (old !! col, new !! col).
Proof.
  unfold diff_values. rewrite diff_fold_lookup, lookup_empty.
  destruct (opt_value_eqb _ _) eqn:E; [by rewrite andb_false_r|]. rewrite bool_decide_true; [done|].
  rewrite elem_of_elements, elem_of_union, !elem_of_dom.
  destruct (old !! col); [by left|]. destruct (new !! col); [by right|done].
Qed.

(** A delta replayed on the columns of a row. *)
Definition replay_delta (vs : values) (changes : gmap string (option value * option value)) : values :=
  merge (λ v c, match c with Some (_, n) => n | None => v end) vs changes.

(** A delta says exactly what changed: an update lists the columns whose values differ
    with both values, replaying it on the old row gives the new one column by column (a
    column it does not list is equal in both), and inserts and deletes are the updates from
    and to a row without columns. *)
Theorem delta_replays id old new :
  (∀ col, changed_columns (Delta_update id old new) !! col =
     if opt_value_eqb (row_values old !! col) (row_values new !! col) then None
     else Some (row_values old !! col, row_values new !! col)) ∧
  (∀ col, let replayed := replay_delta (row_values old) (changed_columns (Delta_update id old new)) !! col in
     replayed = row_values new !! col ∨ opt_value_eqb replayed (row_values new !! col) = true) ∧
  changed_columns (Delta_insert id new) = changed_columns (Delta_update id (MkRow id ∅) new) ∧
  changed_columns (Delta_delete id old) = changed_columns (Delta_update id old (MkRow id ∅)).
Proof.
  split_and!; cbn.
  - intros col. apply diff_lookup.
  - intros col. unfold replay_delta. rewrite lookup_merge, diff_lookup. destruct (opt_value_eqb _ _) eqn:E; cbn.
    + right. by destruct (row_values old !! col).
    + left. by destruct (row_values old !! col).
  - apply map_eq. intros col. rewrite lookup_fmap, diff_lookup, lookup_empty. by destruct (row_values new !! col).
  - apply map_eq. intros col. rewrite lookup_fmap, diff_lookup, lookup_empty. by destruct (row_values old !! col).
Qed.

(** ** Subscriptions *)

Record SubscriptionFilter : Type := MkFilter {
  sf_tables : option (gset string);
  sf_changes : option (list DeltaKind);
  sf_columns : option (gset string)
}.

Definition SubscriptionFilter_new : SubscriptionFilter := MkFilter None None None.
Definition filter_tables (f : SubscriptionFilter) (tables : list string) : SubscriptionFilter :=
  MkFilter (Some (list_to_set tables)) (sf_changes f) (sf_columns f).
Definition filter_changes (f : SubscriptionFilter) (kinds : list DeltaKind) : SubscriptionFilter :=
  MkFilter (sf_tables f) (Some kinds) (sf_columns f).
Definition filter_columns (f : SubscriptionFilter) (cols : list string) : SubscriptionFilter :=
  MkFilter (sf_tables f) (sf_changes f) (Some (list_to_set cols)).

Definition filter_matches (f : SubscriptionFilter) (table : option string) (d : Delta) : bool :=
  match sf_tables f with
  | Some tables => match table with Some t => bool_decide (t ∈ tables) | None => false end
  | None => true
  end &&
  match sf_changes f with Some kinds => bool_decide (delta_change d ∈ kinds) | None => true end &&
  match sf_columns f with
  | Some cols => existsb (λ c, bool_decide (c.1 ∈ cols)) (map_to_list (changed_columns d))
  | None => true
  end.

Section manager.
Context {CB : Type}.

Record Subscription : Type := MkSubscription { sn_id : list byte; sn_filter : SubscriptionFilter; sn_callback : CB }.

Record SubscriptionManager : Type := MkManager {
  sm_subscriptions : gmap (list byte) Subscription;
  sm_change_log : list Delta;
  sm_max_log_size : Z
}.
Implicit Types m : SubscriptionManager.

Definition SubscriptionManager_new : SubscriptionManager := MkManager ∅ [] 1000.
Definition with_max_log_size m (max : Z) : SubscriptionManager := MkManager (sm_subscriptions m) (sm_change_log m) max.
Definition set_subscriptions m (s : gmap (list byte) Subscription) : SubscriptionManager :=
  MkManager s (sm_change_log m) (sm_max_log_size m).

(** The uuid is drawn in [subscribe]. *)
Definition sm_subscribe m (uuid : list byte) (f : SubscriptionFilter) (cb : CB) : list byte * SubscriptionManager :=
  (uuid, set_subscriptions m (<[uuid := MkSubscription uuid f cb]> (sm_subscriptions m))).
Definition sm_unsubscribe m (id : list byte) : bool * SubscriptionManager :=
  (bool_decide (is_Some (sm_subscriptions m !! id)), set_subscriptions m (delete id (sm_subscriptions m))).
Definition sm_clear m : SubscriptionManager := set_subscriptions m ∅.
Definition subscription_count m : nat := size (sm_subscriptions m).

Definition subscription_matches (s : Subscription) (msg : option string * Delta) : bool :=
  filter_matches (sn_filter s) msg.1 msg.2.

(** [notify]: the subscriptions called, and the manager. *)
Definition notify `{!EnumOrder (list byte) Subscription} m (table : option string) (d : Delta)
    : list Subscription * SubscriptionManager :=
  ((notified subscription_matches (sm_subscriptions m) (table, d)).*2,
   MkManager (sm_subscriptions m) (last_n (Z.to_nat (sm_max_log_size m)) (sm_change_log m ++ [d])) (sm_max_log_size m)).
End manager.
Arguments Subscription : clear implicits.
Arguments SubscriptionManager : clear implicits.
Arguments Subscriber : clear implicits.
Arguments EventEmitter : clear implicits.

(** ** [insert_row] and [delete_row] of [blitz-server/src/server.rs] *)

Section observed.
Context {CB : Type} `{!EnumOrder string (Subscriber CB)} `{!EnumOrder (list byte) (Subscription CB)}.

Record Observed : Type := MkObserved {
  ob_engine : Engine;
  ob_emitter : EventEmitter CB;
  ob_manager : SubscriptionManager CB
}.

(** A call of a callback: of an event subscriber, or of a subscription. *)
Inductive observation : Type := Saw (cb : CB) (ev : Event) | SawDelta (cb : CB) (d : Delta).

Definition emit_on (o : Observed) (ev : Event) : list observation * Observed :=
  let '(called, e) := emit (ob_emitter o) ev in
  ((λ s, Saw (sub_callback s) ev) <$> called, MkObserved (ob_engine o) e (ob_manager o)).
Definition notify_on (o : Observed) (table : option string) (d : Delta) : list observation * Observed :=
  let '(called, m) := notify (ob_manager o) table d in
  ((λ s, SawDelta (sn_callback s) d) <$> called, MkObserved (ob_engine o) (ob_emitter o) m).

Definition insert_row_observed (o : Observed) (uuid : list byte) (now : Z) (table : string) (row_id : Z) (data : values)
    : result core_error () * list observation * Observed :=
  match insert (ob_engine o) table (MkRow row_id data) with
  | (Err e, engine) => (Err e, [], MkObserved engine (ob_emitter o) (ob_manager o))
  | (Ok assigned, engine) =>
      let o := MkObserved engine (ob_emitter o) (ob_manager o) in
      let '(seen, o) := emit_on o (Event_with_table (Event_new uuid now RowInserted) table) in
      match get engine table assigned with
      | Ok (Some new) =>
          let '(seen', o) := notify_on o (Some table) (Delta_insert assigned new) in (Ok (), seen ++ seen', o)
      | _ => (Ok (), seen, o)
      end
  end.

Definition delete_row_observed (o : Observed) (uuid : list byte) (now : Z) (table : string) (row_id : Z)
    : result core_error () * list observation * Observed :=
  match take (ob_engine o) table row_id with
  | (Err e, engine) => (Err e, [], MkObserved engine (ob_emitter o) (ob_manager o))
  | (Ok None, engine) => (Ok (), [], MkObserved engine (ob_emitter o) (ob_manager o))
  | (Ok (Some old), engine) =>
      let o := MkObserved engine (ob_emitter o) (ob_manager o) in
      let '(seen, o) := emit_on o (Event_with_table (Event_new uuid now RowDeleted) table) in
      let '(seen', o) := notify_on o (Some table) (Delta_delete row_id old) in (Ok (), seen ++ seen', o)
  end.

Lemma inserted_row_is_read e name row_id data id engine :
  insert e name (MkRow row_id data) = (Ok id, engine) →
  get engine name id = Ok (Some (MkRow id data)).
Proof.
  intros (t & t' & _ & (_ & R & _)%t_insert_rows & ->)%with_table_ok.
  unfold get, table, t_get. rewrite lookup_insert_eq. cbn. by rewrite R, lookup_insert_eq.
Qed.

Lemma insert_err_same e name row er e' : insert e name row = (Err er, e') → e' = e.
Proof.
  unfold insert, with_table, table. destruct (e !! name) as [t|] eqn:E; cbn; [|by intros [=]].
  destruct (t_insert t row) as [r t'] eqn:I. intros [= -> <-]. apply t_insert_err in I as ->. by apply insert_id.
Qed.

Lemma take_spec e name id :
  match take e name id with
  | (Err _, e') => e' = e
  | (Ok r, e') => get e name id = Ok r ∧ get e' name id = Ok None ∧ (r = None → e' = e)
  end.
Proof.
  unfold take, with_table, get, table. destruct (e !! name) as [t|] eqn:E; cbn [ok_or]; [|done].
  destruct (t_take t id) as [r t'] eqn:T. pose proof T as (-> & R & _)%t_take_rows.
  rewrite lookup_insert_eq. cbn [ok_or mbind result_bind]. unfold t_get. rewrite R, lookup_delete_eq. split_and!; [done|done|].
  intros N. rewrite <- (insert_id e name t E) at 2. f_equal.
  unfold t_take in T. rewrite N in T. injection T as <-. destruct t. unfold set_rows. cbn in *. by rewrite delete_id.
Qed.

(** The event and delta calls that one change makes. *)
Definition calls_for (o : Observed) (table : string) (ev : Event) (d : Delta) : list observation :=
  ((λ s, Saw (sub_callback s) ev) <$> (notified event_matches (em_subscribers (ob_emitter o)) ev).*2) ++
  ((λ s, SawDelta (sn_callback s) d) <$> (notified subscription_matches (sm_subscriptions (ob_manager o)) (Some table, d)).*2).

Definition logs_change (o o' : Observed) (ev : Event) (d : Delta) : Prop :=
  em_history (ob_emitter o') = last_n (Z.to_nat (em_max_history (ob_emitter o))) (em_history (ob_emitter o) ++ [ev]) ∧
  sm_change_log (ob_manager o') = last_n (Z.to_nat (sm_max_log_size (ob_manager o))) (sm_change_log (ob_manager o) ++ [d]).

(** Through [insert_row] and [delete_row] observers see exactly what happened: a write
    that fails, or deletes a row that is not there, calls nobody and changes nothing; one
    that succeeds stores (removes) one row and shows it, as it is stored (as it was), to
    exactly the subscribers whose filters accept it. *)
Theorem observers_see_the_writes o uuid now table row_id data :
  (let '(r, seen, o') := insert_row_observed o uuid now table row_id data in
   match r with
   | Err _ => seen = [] ∧ o' = o
   | Ok _ => ∃ id, let row := MkRow id data in
       let ev := Event_with_table (Event_new uuid now RowInserted) table in
       get (ob_engine o') table id = Ok (Some row) ∧
       seen = calls_for o table ev (Delta_insert id row) ∧ logs_change o o' ev (Delta_insert id row)
   end) ∧
  (let '(r, seen, o') := delete_row_observed o uuid now table row_id in
   match r with
   | Err _ => seen = [] ∧ o' = o
   | Ok _ => get (ob_engine o') table row_id = Ok None ∧
       match get (ob_engine o) table row_id with
       | Ok (Some row) =>
           let ev := Event_with_table (Event_new uuid now RowDeleted) table in
           seen = calls_for o table ev (Delta_delete row_id row) ∧ logs_change o o' ev (Delta_delete row_id row)
       | _ => seen = [] ∧ o' = o
       end
   end).
Proof.
  split.
  - unfold insert_row_observed. destruct (insert _ _ _) as [[id|er] engine] eqn:I.
    + cbn [emit_on emit]. pose proof (inserted_row_is_read _ _ _ _ _ _ I) as G. rewrite G.
      cbn [notify_on notify]. exists id. split; [exact G|]. split; [done|]. split; done.
    + apply insert_err_same in I as ->. by destruct o.
  - unfold delete_row_observed. pose proof (take_spec (ob_engine o) table row_id) as T.
    destruct (take _ _ _) as [[[row|]|er] engine].
    + destruct T as (-> & G & _). cbn. split; [exact G|]. done.
    + destruct T as (-> & G & E). specialize (E eq_refl). subst engine. split; [exact G|]. split; [done|]. by destruct o.
    + subst engine. split; [done|]. by destruct o.
Qed.
End observed.
