(* ===== verification/Recovery.v ===== *)
(** [blitz-storage/src/recovery.rs]: the storage crate's own recovery, from the newest
    snapshot and the write-ahead log. [bincode] is a parameter; the files are their
    bytes. *)
From S2P Require Import Prelude Float Value HashMap Schema Core Policy Codec Snapshot Wal GroupCommit Durability Tx Shard Text.

Local Open Scope Z_scope.

(** [bincode::deserialize] of a row and of a map of values. *)
Class Bincode : Type := {
  bincode_row : list byte → option Row;
  bincode_values : list byte → option values
}.

Inductive recovery_error : Type :=
| RecIo
| RecWal (e : wal_error)
| RecSnapshot (e : snapshot_error)
| RecDeserialization
| RecEngine (why : string)
| RecCorruption (why : string).

(** ** JSON to values and columns *)

Fixpoint json_to_value (j : json) : value :=
  match j with
  | JNull => VNull
  | JBool b => VBoolean b
  | JNumber n =>
      match num_as_i64 n with
      | Some i => VInt64 i
      | None => match num_as_f64 n with Some f => VFloat64 f | None => VNull end
      end
  | JString s => VString s
  | JArray items => VArray (json_to_value <$> items)
  | JObject _ => VJson j
  end.

Definition json_to_column_type (j : json) : column_type :=
  match j with
  | JNull => TString
  | JBool _ => TBoolean
  | JNumber n => match num_as_i64 n with Some _ => TInt64 | None => TFloat64 end
  | JString _ => TString
  | JArray _ => TArray
  | JObject _ => TJson
  end.

(** The schema of a table: a primary key [id], and a column for each field of its first
    row. The uuid is drawn in [TableSchema::new]. *)
Definition infer_schema (uuid : list byte) (name : string) (rows : list SnapshotRow) : TableSchema :=
  let schema := with_column (TableSchema_new uuid name) (with_primary_key (ColumnDef_new "id" TInt64)) in
  match rows with
  | [] => schema
  | first :: _ =>
      foldl (λ s kv, if String.eqb kv.1 "id" then s else with_column s (ColumnDef_new kv.1 (json_to_column_type kv.2)))
        schema (sr_values first)
  end.

(** The row a saved row becomes. *)
Definition saved_values (r : SnapshotRow) : values :=
  foldl (λ vs kv, if String.eqb kv.1 "id" then vs else <[kv.1 := json_to_value kv.2]> vs)
    {["id"%string := VInt64 (sign 64 (sr_id r))]} (sr_values r).

Section recovery.
Context `{DebugText} `{Bincode} `{Crc32}.

Abbreviation recovered := (result recovery_error Engine).

Definition engine_result {A} (r : result core_error A * Engine) : recovered :=
  match r with
  | (Ok _, e) => Ok e
  | (Err er, _) => Err (RecEngine (core_error_text er))
  end.

Fixpoint restore_rows (name : string) (rows : list SnapshotRow) (e : Engine) : recovered :=
  match rows with
  | [] => Ok e
  | r :: rows => e ← engine_result (insert e name (MkRow (sr_id r) (saved_values r))); restore_rows name rows e
  end.

Definition restore_table (uuid : list byte) (e : Engine) (t : SnapshotTable) : recovered :=
  e ← engine_result (create_table e (infer_schema uuid (st_name t) (st_rows t)));
  restore_rows (st_name t) (st_rows t) e.

Fixpoint restore_tables (uuids : string → list byte) (tables : list SnapshotTable) (e : Engine) : recovered :=
  match tables with
  | [] => Ok e
  | t :: tables => e ← restore_table (uuids (st_name t)) e t; restore_tables uuids tables e
  end.

Definition restore_snapshot (uuids : string → list byte) (s : Snapshot) : recovered :=
  restore_tables uuids (snap_tables s) ∅.

(** ** Replay *)

Definition apply_entry (e : Engine) (w : WalEntry) : recovered :=
  match e_type w with
  | EInsert =>
      match bincode_row (e_data w) with
      | None => Err RecDeserialization
      | Some row => engine_result (insert e (e_table w) row)
      end
  | EUpdate =>
      match bincode_values (e_data w) with
      | None => Err RecDeserialization
      | Some vs => engine_result (update e (e_table w) (e_row w) vs)
      end
  | EDelete => engine_result (delete_row e (e_table w) (e_row w))
  | ECommit | ERollback => Ok e
  end.

Fixpoint apply_entries (e : Engine) (ws : list WalEntry) : recovered :=
  match ws with
  | [] => Ok e
  | w :: ws => e ← apply_entry e w; apply_entries e ws
  end.

(** The loop over the entries, and what is left pending applied after it. *)
Fixpoint replay_loop (after : Z) (pending : list WalEntry) (ws : list WalEntry) (e : Engine) : recovered :=
  match ws with
  | [] => apply_entries e pending
  | w :: ws =>
      if e_seq w <=? after then replay_loop after pending ws e
      else
        match e_type w with
        | ECommit => e ← apply_entries e pending; replay_loop after [] ws e
        | ERollback => replay_loop after [] ws e
        | _ => replay_loop after (pending ++ [w]) ws e
        end
  end.

Definition replay_wal (file : list byte) (after : Z) (e : Engine) : recovered :=
  w ← map_err RecWal (open file);
  entries ← map_err RecWal (read_all (wal_file w));
  replay_loop after [] entries e.

(** [recover]: the snapshot directory, and the log if there is one. *)
Definition recover_storage `{SnapshotText} `{DirOrder} (uuids : string → list byte) (snapshots : Dir)
    (wal : option (list byte)) : recovered :=
  '(e, seq) ← match load_latest snapshots with
              | Ok (Some (s, seq)) => e ← restore_snapshot uuids s; Ok (e, seq)
              | Ok None => Ok (∅, 0)
              | Err _ => Ok (∅, 0)
              end;
  match wal with
  | Some file => replay_wal file seq e
  | None => Ok e
  end.

(** ** Which entries a replay applies *)

Definition is_marker (w : WalEntry) : bool :=
  match e_type w with ECommit | ERollback => true | _ => false end.
(** The first marker decides what becomes of the entries before it. *)
Definition rolled_back (ws : list WalEntry) : bool :=
  match head (filter (λ w, is_marker w = true) ws) with
  | Some w => bool_decide (e_type w = ERollback)
  | None => false
  end.
Fixpoint survivors (ws : list WalEntry) : list WalEntry :=
  match ws with
  | [] => []
  | w :: ws => if is_marker w || rolled_back ws then survivors ws else w :: survivors ws
  end.

Lemma apply_entries_app ws ws' : ∀ e,
  apply_entries e (ws ++ ws') = e ← apply_entries e ws; apply_entries e ws'.
Proof.
  induction ws as [|w ws IH]; intros e; [done|]. cbn [apply_entries app].
  destruct (apply_entry e w) as [e'|er]; cbn; [apply IH|done].
Qed.

Lemma replay_loop_spec after ws : ∀ pending e,
  let live := filter (λ w, after < e_seq w) ws in
  replay_loop after pending ws e =
    apply_entries e ((if rolled_back live then [] else pending) ++ survivors live).
Proof.
  induction ws as [|w ws IH]; intros pending e live; [by rewrite app_nil_r|]. cbn [replay_loop].
  unfold live. destruct (Z.leb_spec (e_seq w) after) as [L|G].
  { rewrite filter_cons_False by lia. apply IH. }
  rewrite filter_cons_True by done. set (rest := filter (λ w, after < e_seq w) ws) in *.
  assert (rolled_back (w :: rest) = if is_marker w then bool_decide (e_type w = ERollback) else rolled_back rest) as Rb.
  { unfold rolled_back. rewrite filter_cons. destruct (is_marker w) eqn:M.
    - by rewrite decide_True.
    - by rewrite decide_False. }
  rewrite Rb. cbn [survivors].
  assert (is_marker w = match e_type w with ECommit | ERollback => true | _ => false end) as M by done.
  destruct (e_type w) eqn:T; rewrite M; cbn [orb bool_decide].
  4: { rewrite bool_decide_false by done. rewrite apply_entries_app. destruct (apply_entries e pending) as [e'|er].
       - cbn. rewrite IH. fold rest. by destruct (rolled_back rest).
       - done. }
  4: { rewrite bool_decide_true by done. cbn. rewrite IH. fold rest. by destruct (rolled_back rest). }
  all: rewrite IH; fold rest; destruct (rolled_back rest); [done|by rewrite <- app_assoc].
Qed.

(** Replaying a log applies, in their order, exactly the entries past the snapshot
    whose next commit or rollback marker, if there is one, is not a rollback - entries no
    marker follows among them - and stops at the first one that fails. *)
Theorem replay_applies_survivors file w entries after e :
  open file = Ok w → read_all (wal_file w) = Ok entries →
  replay_wal file after e = apply_entries e (survivors (filter (λ w, after < e_seq w) entries)).
Proof.
  intros O R. unfold replay_wal. rewrite O. cbn [map_err mbind result_bind]. rewrite R. cbn [map_err mbind result_bind].
  rewrite replay_loop_spec. cbv zeta. by destruct (rolled_back _).
Qed.

(** ** What a snapshot is restored to *)

Definition renumbered (rows : list SnapshotRow) : list (Z * Row) :=
  imap (λ k r, (Z.of_nat k + 1, MkRow (Z.of_nat k + 1) (saved_values r))) rows.

Lemma renumbered_snoc rows r :
  list_to_map (M := gmap Z Row) (renumbered (rows ++ [r])) =
    <[Z.of_nat (length rows) + 1 := MkRow (Z.of_nat (length rows) + 1) (saved_values r)]> (list_to_map (renumbered rows)).
Proof.
  unfold renumbered. rewrite imap_app. cbn. rewrite Nat.add_0_r. apply list_to_map_snoc.
  intros (p & E & (k & y & Ep & L)%elem_of_lookup_imap)%list_elem_of_fmap. rewrite Ep in E. cbn in E.
  apply lookup_lt_Some in L. lia.
Qed.

Lemma engine_result_ok {A} (r : result core_error A * Engine) e :
  engine_result r = Ok e → ∃ a, r = (Ok a, e).
Proof. destruct r as [[a|er] e']; [|done]. intros [= ->]. by exists a. Qed.

Lemma restore_rows_spec name rows : ∀ past e t e',
  e !! name = Some t → t_rows t = list_to_map (renumbered past) → t_next_id t = Z.of_nat (length past) + 1 →
  Z.of_nat (length past + length rows) + 1 < 2 ^ 64 → restore_rows name rows e = Ok e' →
  (∃ t', e' !! name = Some t' ∧ t_rows t' = list_to_map (renumbered (past ++ rows))) ∧
  (∀ m, m ≠ name → e' !! m = e !! m).
Proof.
  induction rows as [|r rows IH]; intros past e t e' E R N L; cbn [restore_rows].
  { intros [= <-]. rewrite app_nil_r. split; [by exists t|done]. }
  intros (e1 & [id (t0 & t1 & E0 & (-> & R1 & N1 & _)%t_insert_rows & ->)%with_table_ok]%engine_result_ok & Ok')%result_bind_Ok.
  rewrite E in E0. injection E0 as <-. cbn [length] in L.
  destruct (IH (past ++ [r]) (<[name := t1]> e) t1 e') as [T Ne].
  - apply lookup_insert_eq.
  - by rewrite R1, renumbered_snoc, R, N.
  - rewrite N1, N, length_app. cbn [length]. rewrite wrap_small; lia.
  - rewrite length_app. cbn [length]. lia.
  - exact Ok'.
  - rewrite <- app_assoc in T. split; [exact T|]. intros m D. rewrite Ne by done. by rewrite lookup_insert_ne.
Qed.

Lemma restore_table_spec uuid e t e' :
  Z.of_nat (length (st_rows t)) + 1 < 2 ^ 64 → restore_table uuid e t = Ok e' →
  e !! st_name t = None ∧
  (∃ T, e' !! st_name t = Some T ∧ t_rows T = list_to_map (renumbered (st_rows t))) ∧
  (∀ m, m ≠ st_name t → e' !! m = e !! m).
Proof.
  intros L (e1 & [[] C]%engine_result_ok & R)%result_bind_Ok.
  assert (∀ rows, schema_name (infer_schema uuid (st_name t) rows) = st_name t) as Nm.
  { intros rows. unfold infer_schema. destruct rows as [|first rows]; [done|].
    set (s0 := with_column _ _). assert (schema_name s0 = st_name t) as S0 by done. revert S0. generalize s0. clear.
    induction (sr_values first) as [|kv vs IH]; intros s0 S0; [done|]. cbn [foldl]. apply IH.
    by destruct (String.eqb kv.1 "id"). }
  unfold create_table, create_check, table_exists, create_put in C. rewrite Nm in C.
  destruct (e !! st_name t) as [T|] eqn:E; cbn in C; [done|]. injection C as <-.
  eapply (restore_rows_spec _ _ []) in R as [T Ne]; [|apply lookup_insert_eq|done|done|exact L].
  split_and!; [done|exact T|]. intros m D. rewrite Ne by done. by rewrite lookup_insert_ne.
Qed.

Lemma restore_tables_spec uuids tables : ∀ e e',
  Forall (λ t, Z.of_nat (length (st_rows t)) + 1 < 2 ^ 64) tables → restore_tables uuids tables e = Ok e' →
  (∀ m, is_Some (e !! m) → e' !! m = e !! m) ∧
  (∀ t, t ∈ tables → ∃ T, e' !! st_name t = Some T ∧ t_rows T = list_to_map (renumbered (st_rows t))).
Proof.
  induction tables as [|t tables IH]; intros e e' F; cbn [restore_tables].
  { intros [= <-]. split; [done|]. by intros t ?%not_elem_of_nil. }
  apply Forall_cons in F as [Lt F]. intros (e1 & R & Rs)%result_bind_Ok.
  apply restore_table_spec in R as (E & (T & E1 & Er) & Ne); [|done].
  destruct (IH _ _ F Rs) as [Keep Each]. split.
  - intros m I. assert (m ≠ st_name t) as D by (intros ->; rewrite E in I; by destruct I).
    rewrite Keep by (by rewrite Ne). by apply Ne.
  - intros t' [->|I]%elem_of_cons; [|by apply Each]. exists T. by rewrite Keep, E1 by (rewrite E1; eauto).
Qed.

(** Restoring a snapshot gives each of its tables back with exactly its rows and their
    values, the saved id in the column [id], but numbered anew from 1 in the order of the
    snapshot. *)
Theorem restore_renumbers uuids s e :
  Forall (λ t, Z.of_nat (length (st_rows t)) + 1 < 2 ^ 64) (snap_tables s) → restore_snapshot uuids s = Ok e →
  ∀ t, t ∈ snap_tables s → ∃ T, e !! st_name t = Some T ∧ t_rows T = list_to_map (renumbered (st_rows t)).
Proof. intros F R. by apply (restore_tables_spec uuids _ ∅ e F R). Qed.
End recovery.

#[local] Existing Instances demo_debug demo_crc32.
#[local] Instance demo_bincode : Bincode := {| bincode_row := λ _, Some (MkRow 0 ∅); bincode_values := λ _, Some ∅ |}.

Definition demo_mark (seq : Z) (ty : EntryType) (row : Z) : WalEntry := MkWalEntry seq ty "t" row [].
Definition demo_recovery_log : list WalEntry :=
  [demo_mark 1 EDelete 1; demo_mark 2 ERollback 0; demo_mark 3 EDelete 2; demo_mark 4 ECommit 0; demo_mark 5 EDelete 3].
Definition demo_log_file : list byte := header_bytes fresh_header ++ demo_recovery_log ≫= entry_bytes.
Definition demo_saved : SnapshotTable :=
  MkSnapshotTable "t" [MkSnapshotRow 5 [("name"%string, JString "a")]; MkSnapshotRow 7 [("name"%string, JString "b")]].

Lemma replay_applies_survivors_witness :
  replay_wal demo_log_file 0 ∅ = apply_entries ∅ [demo_mark 3 EDelete 2; demo_mark 5 EDelete 3].
Proof.
  apply (replay_applies_survivors demo_log_file (MkWal demo_log_file [] 6 (Z.of_nat (length demo_log_file))) demo_recovery_log 0 ∅);
    by vm_compute.
Defined.

Lemma restore_renumbers_witness :
  ∃ e T, restore_snapshot (λ _, []) (MkSnapshot 1 [demo_saved] []) = Ok e ∧ e !! "t"%string = Some T ∧
    t_rows T = list_to_map (renumbered (st_rows demo_saved)).
Proof.
  destruct (restore_snapshot (λ _, []) (MkSnapshot 1 [demo_saved] [])) as [e|er] eqn:R; [|by vm_compute in R].
  exists e. destruct (restore_renumbers (λ _, []) (MkSnapshot 1 [demo_saved] []) e) with (t := demo_saved) as (T & E & Rows).
  - repeat constructor.
  - exact R.
  - left.
  - by exists T.
Defined.

(** The row saved under id 5 comes back under id 1, so a logged update of row 5 no longer
    finds it, and recovery fails. *)
Example logged_update_misses_its_row :
  (e ← restore_snapshot (λ _, []) (MkSnapshot 1 [demo_saved] []); apply_entry e (demo_mark 1 EUpdate 5))
    = Err (RecEngine "row not found: 5").
Proof. by vm_compute. Qed.

(** A null in the first row of a saved table makes its column a required string, and the
    row itself is refused. *)
Example saved_null_stops_recovery :
  is_ok (restore_snapshot (λ _, []) (MkSnapshot 1 [MkSnapshotTable "t" [MkSnapshotRow 1 [("bio"%string, JNull)]]] [])) = false.
Proof. by vm_compute. Qed.

(** Entries that no commit follows are applied as well. *)
Example uncommitted_entries_are_applied :
  survivors [demo_mark 1 EInsert 1; demo_mark 2 EUpdate 1] = [demo_mark 1 EInsert 1; demo_mark 2 EUpdate 1].
Proof. done. Qed.
