(* ===== verification/FullText.v ===== *)
(** [blitz-search/src/engine.rs]: the full-text engine, an inverted index with BM25
    scores. The Unicode tables behind [to_lowercase] and [is_alphanumeric] and the
    platform's logarithm are parameters; scores are [f64] bit patterns. *)
From Stdlib Require Import Floats.SpecFloat.
From S2P Require Import Prelude Float Value HashMap Sort Schema Core Query.

Local Open Scope Z_scope.

(** [text.split(|c| !c.is_alphanumeric())] *)
Class Words : Type := words : string → list string.
(** [f64::ln], on bits. *)
Class Ln : Type := f64_ln : Z → Z.
(** The order in which a map of scores is iterated: any. *)
Class ScoreOrder : Type := score_enum : gmap Z (Z * list string) → list (Z * (Z * list string)).
Class ScoreOrderLaws `{ScoreOrder} : Prop := score_enum_perm m : score_enum m ≡ₚ map_to_list m.

(** ** Floating-point arithmetic *)

Definition f64_sub (a b : Z) : Z := f_encode F64 (SFsub (f_prec F64) (f_emax F64) (f_decode F64 a) (f_decode F64 b)).
Definition f64_mul (a b : Z) : Z := f_encode F64 (SFmul (f_prec F64) (f_emax F64) (f_decode F64 a) (f_decode F64 b)).
Definition f64_zero : Z := 0.
Definition f64_one : Z := f64_of_Z 1.
Definition f64_half : Z := 0x3FE0000000000000.
(** [1.5] and [0.75]. *)
Definition bm25_k1 : Z := 0x3FF8000000000000.
Definition bm25_b : Z := 0x3FE8000000000000.

(** ** Documents and the index *)

Record Document : Type := MkDocument { doc_id : Z; doc_fields : gmap string string }.
Definition Document_new (id : Z) : Document := MkDocument id ∅.
Definition with_field (d : Document) (key v : string) : Document := MkDocument (doc_id d) (<[key := v]> (doc_fields d)).
Definition get_text (d : Document) (field : string) : option string := doc_fields d !! field.

Record SearchHit : Type := MkHit { hit_id : Z; hit_score : Z; hit_fields : list string }.

(** Document to the fields a term occurs in, with the counts. *)
Record IndexEntry : Type := MkIndexEntry { ie_postings : gmap Z (list (string * Z)); ie_total : Z }.

Record SearchEngine : Type := MkSearchEngine {
  se_index : gmap string IndexEntry;
  se_documents : gmap Z Document;
  se_lengths : gmap Z Z
}.
Definition SearchEngine_new : SearchEngine := MkSearchEngine ∅ ∅ ∅.

Section engine.
Context `{Lowercase} `{Words}.

Definition tokenize (text : string) : list string :=
  filter (λ s, (1 < length (str_bytes s))%nat) (words (to_lowercase text)).

Definition count_term (m : gmap string Z) (t : string) : gmap string Z := <[t := default 0 (m !! t) + 1]> m.
Definition term_counts (text : string) : gmap string Z := foldl count_term ∅ (tokenize text).

Definition push_field (field : string) (m : gmap string (list (string * Z))) (tc : string * Z)
    : gmap string (list (string * Z)) :=
  <[tc.1 := default [] (m !! tc.1) ++ [(field, tc.2)]]> m.
(** One field of the document: its terms pushed, its tokens counted. *)
Definition add_field (d : Document) (acc : gmap string (list (string * Z)) * Z) (field : string)
    : gmap string (list (string * Z)) * Z :=
  match doc_fields d !! field with
  | None => acc
  | Some text =>
      let counts := map_to_list (term_counts text) in
      (foldl (push_field field) acc.1 counts, foldl (λ n tc, n + tc.2) acc.2 counts)
  end.
Definition terms_per_field (d : Document) (fields : list string) : gmap string (list (string * Z)) * Z :=
  foldl (add_field d) (∅, 0) fields.

Definition add_postings (id : Z) (ix : gmap string IndexEntry) (te : string * list (string * Z)) : gmap string IndexEntry :=
  let entry := default (MkIndexEntry ∅ 0) (ix !! te.1) in
  <[te.1 := MkIndexEntry (<[id := te.2]> (ie_postings entry)) (ie_total entry + foldl (λ n fc, n + fc.2) 0 te.2)]> ix.

Definition index_document (e : SearchEngine) (d : Document) (fields : list string) : SearchEngine :=
  let '(terms, total) := terms_per_field d fields in
  MkSearchEngine (foldl (add_postings (doc_id d)) (se_index e) (map_to_list terms))
    (<[doc_id d := d]> (se_documents e)) (<[doc_id d := total]> (se_lengths e)).

Definition drop_posting (id : Z) (ix : gmap string IndexEntry) (tc : string * Z) : gmap string IndexEntry :=
  match ix !! tc.1 with
  | None => ix
  | Some entry =>
      let ps := delete id (ie_postings entry) in
      if bool_decide (ps = ∅) then delete tc.1 ix
      else <[tc.1 := MkIndexEntry ps (Z.max 0 (ie_total entry - tc.2))]> ix
  end.

Definition remove_document (e : SearchEngine) (id : Z) : SearchEngine :=
  match se_documents e !! id with
  | None => MkSearchEngine (se_index e) (se_documents e) (delete id (se_lengths e))
  | Some d =>
      let drop_field ix (kv : string * string) := foldl (drop_posting id) ix (map_to_list (term_counts kv.2)) in
      MkSearchEngine (foldl drop_field (se_index e) (map_to_list (doc_fields d)))
        (delete id (se_documents e)) (delete id (se_lengths e))
  end.

(** ** Search *)

Context `{Ln}.

Definition push_new (fs : list string) (f : string) : list string := if bool_decide (f ∈ fs) then fs else fs ++ [f].

Definition idf_of (total_docs : Z) (entry : IndexEntry) : Z :=
  let n := f64_of_Z (Z.of_nat (size (ie_postings entry))) in
  f64_ln (f64_add (f64_div (f64_add (f64_sub total_docs n) f64_half) (f64_add n f64_half)) f64_one).

(** The part of the score one term gives one document. *)
Definition term_score (idf avg_doc_len doc_len : Z) (occurrences : list (string * Z)) : Z :=
  let tf := foldl (λ s fc, f64_add s (f64_of_Z fc.2)) f64_zero occurrences in
  let norm := f64_add (f64_sub f64_one bm25_b) (f64_div (f64_mul bm25_b doc_len) avg_doc_len) in
  f64_mul idf (f64_div (f64_mul tf (f64_add bm25_k1 f64_one)) (f64_add tf (f64_mul bm25_k1 norm))).

Definition score_posting (e : SearchEngine) (idf avg_doc_len : Z) (scores : gmap Z (Z * list string))
    (p : Z * list (string * Z)) : gmap Z (Z * list string) :=
  let doc_len := f64_of_Z (default 0 (se_lengths e !! p.1)) in
  let '(score, fields) := default (f64_zero, []) (scores !! p.1) in
  <[p.1 := (f64_add score (term_score idf avg_doc_len doc_len p.2), foldl push_new fields (foldl push_new [] p.2.*1))]> scores.

Definition score_token (e : SearchEngine) (total_docs avg_doc_len : Z) (scores : gmap Z (Z * list string)) (token : string)
    : gmap Z (Z * list string) :=
  match se_index e !! token with
  | None => scores
  | Some entry => foldl (score_posting e (idf_of total_docs entry) avg_doc_len) scores (map_to_list (ie_postings entry))
  end.

Definition by_score (a b : SearchHit) : comparison := default Eq (f_compare F64 (hit_score b) (hit_score a)).

Definition search `{ScoreOrder} (e : SearchEngine) (query : string) (limit : nat) : list SearchHit :=
  let tokens := tokenize query in
  let total_docs := f64_of_Z (Z.of_nat (size (se_lengths e))) in
  if bool_decide (tokens = []) || bool_decide (size (se_lengths e) = O) then []
  else
    let sum := foldl (λ n p, n + p.2) 0 (map_to_list (se_lengths e)) in
    let avg_doc_len := f64_div (f64_of_Z sum) total_docs in
    let scores := foldl (score_token e total_docs avg_doc_len) ∅ tokens in
    firstn limit (sort_by by_score ((λ p, MkHit p.1 p.2.1 p.2.2) <$> score_enum scores)).

Definition document_count (e : SearchEngine) : nat := size (se_documents e).
Definition term_count (e : SearchEngine) : nat := size (se_index e).
Definition has_document (e : SearchEngine) (id : Z) : bool := bool_decide (is_Some (se_documents e !! id)).
Definition get_document (e : SearchEngine) (id : Z) : option Document := se_documents e !! id.
End engine.

(** ** What the index holds *)

Section contents.
Context `{Lowercase} `{Words}.

(** The fields [fields] of [d] contain the term. *)
Definition contains_term (d : Document) (fields : list string) (t : string) : Prop :=
  ∃ f text, f ∈ fields ∧ doc_fields d !! f = Some text ∧ t ∈ tokenize text.

Definition posted (ix : gmap string IndexEntry) (t : string) (id : Z) : Prop :=
  ∃ entry, ix !! t = Some entry ∧ is_Some (ie_postings entry !! id).

Lemma count_terms_some l t : ∀ m, is_Some (foldl count_term m l !! t) ↔ is_Some (m !! t) ∨ t ∈ l.
Proof.
  induction l as [|x l IH]; intros m; cbn [foldl]; [set_solver|]. rewrite IH. unfold count_term.
  rewrite lookup_insert_is_Some, elem_of_cons. destruct (decide (x = t)); naive_solver.
Qed.

Lemma term_counts_keys text t : t ∈ (map_to_list (term_counts text)).*1 ↔ t ∈ tokenize text.
Proof.
  rewrite list_elem_of_fmap. split.
  - intros ([t' n] & -> & E%elem_of_map_to_list). cbn.
    apply mk_is_Some in E. apply count_terms_some in E as [[? N]|]; [|done]. by rewrite lookup_empty in N.
  - intros T. destruct (proj2 (count_terms_some (tokenize text) t ∅)) as [n E]; [by right|].
    exists (t, n). split; [done|]. by apply elem_of_map_to_list.
Qed.

Lemma push_fields_some field l t : ∀ m,
  is_Some (foldl (push_field field) m l !! t) ↔ is_Some (m !! t) ∨ t ∈ l.*1.
Proof.
  induction l as [|[x n] l IH]; intros m; cbn [foldl fmap list_fmap]; [set_solver|]. rewrite IH. unfold push_field.
  cbn. rewrite lookup_insert_is_Some, elem_of_cons. destruct (decide (x = t)); naive_solver.
Qed.

Lemma add_fields_some d fields t : ∀ acc,
  is_Some ((foldl (add_field d) acc fields).1 !! t) ↔ is_Some (acc.1 !! t) ∨ contains_term d fields t.
Proof.
  induction fields as [|f fields IH]; intros acc; cbn [foldl].
  { split; [by left|]. intros [?|(f & ? & []%not_elem_of_nil & _)]. done. }
  rewrite IH. unfold add_field at 1. destruct (doc_fields d !! f) as [text|] eqn:E; cbn [fst].
  - rewrite push_fields_some, term_counts_keys. unfold contains_term. setoid_rewrite elem_of_cons. naive_solver.
  - unfold contains_term. setoid_rewrite elem_of_cons. naive_solver.
Qed.

Lemma terms_per_field_keys d fields t :
  t ∈ (map_to_list (terms_per_field d fields).1).*1 ↔ contains_term d fields t.
Proof.
  rewrite list_elem_of_fmap. split.
  - intros ([t' n] & -> & E%elem_of_map_to_list). cbn.
    apply mk_is_Some in E. apply add_fields_some in E as [[? N]|]; [|done]. cbn in N. by rewrite lookup_empty in N.
  - intros T. destruct (proj2 (add_fields_some d fields t (∅, 0))) as [n E]; [by right|].
    exists (t, n). split; [done|]. by apply elem_of_map_to_list.
Qed.

Lemma add_postings_posted id l t k : ∀ ix,
  posted (foldl (add_postings id) ix l) t k ↔ (k = id ∧ t ∈ l.*1) ∨ posted ix t k.
Proof.
  induction l as [|[x es] l IH]; intros ix; cbn [foldl fmap list_fmap]; [set_solver|]. rewrite IH.
  assert (posted (add_postings id ix (x, es)) t k ↔ (k = id ∧ t = x) ∨ posted ix t k) as ->; [|set_solver].
  unfold posted, add_postings. cbn. destruct (decide (x = t)) as [->|N].
  - rewrite lookup_insert_eq. split.
    + intros (e & [= <-] & P). cbn in P. rewrite lookup_insert_is_Some in P.
      destruct P as [->|[_ P]]; [by left|right]. destruct (ix !! t) as [e|]; cbn in P; [by exists e|by apply is_Some_None in P].
    + intros [[-> _]|(e & E & P)]; eexists; (split; [done|]); cbn; rewrite lookup_insert_is_Some; [by left|].
      rewrite E. cbn. destruct (decide (id = k)); naive_solver.
  - rewrite lookup_insert_ne by done. naive_solver.
Qed.

Lemma drop_posting_posted id tc ix t k :
  posted (drop_posting id ix tc) t k ↔ posted ix t k ∧ ¬ (k = id ∧ t = tc.1).
Proof.
  unfold drop_posting. destruct tc as [x n]. cbn. destruct (ix !! x) as [entry|] eqn:E.
  2: { split; [|tauto]. intros P. split; [done|]. intros [-> ->]. destruct P as (e & E' & _). congruence. }
  unfold posted. destruct (decide (x = t)) as [->|N].
  - case_bool_decide as Em.
    + rewrite lookup_delete_eq. split; [by intros (? & ? & _)|]. intros [(e & E' & [p P]) D]. exfalso.
      rewrite E in E'. injection E' as <-. apply D. split; [|done].
      destruct (decide (k = id)) as [|Nk]; [done|]. exfalso.
      pose proof (f_equal (lookup k) Em) as L. rewrite lookup_delete_ne, lookup_empty in L by done. congruence.
    + rewrite lookup_insert_eq. split.
      * intros (e & [= <-] & P). cbn in P. rewrite lookup_delete_is_Some in P. naive_solver.
      * intros [(e & E' & P) D]. rewrite E in E'. injection E' as <-. eexists. split; [done|]. cbn.
        rewrite lookup_delete_is_Some. naive_solver.
  - case_bool_decide; rewrite ?lookup_delete_ne, ?lookup_insert_ne by done; naive_solver.
Qed.

Lemma drop_postings_posted id l t k : ∀ ix,
  posted (foldl (drop_posting id) ix l) t k ↔ posted ix t k ∧ ¬ (k = id ∧ t ∈ l.*1).
Proof.
  induction l as [|tc l IH]; intros ix; cbn [foldl fmap list_fmap]; [set_solver|].
  rewrite IH, drop_posting_posted, elem_of_cons. tauto.
Qed.

Lemma drop_fields_posted id l t k : ∀ ix,
  posted (foldl (λ ix (kv : string * string), foldl (drop_posting id) ix (map_to_list (term_counts kv.2))) ix l) t k ↔
    posted ix t k ∧ ¬ (k = id ∧ ∃ kv, kv ∈ l ∧ t ∈ tokenize kv.2).
Proof.
  induction l as [|kv l IH]; intros ix; cbn [foldl]; [set_solver|].
  rewrite IH, drop_postings_posted, term_counts_keys. setoid_rewrite elem_of_cons. naive_solver.
Qed.

(** The documents a run has put in and not taken out, with the fields they were indexed by. *)
Abbreviation indexed := (gmap Z (Document * list string)).

Record contents (g : indexed) (e : SearchEngine) : Prop := {
  ct_posted : ∀ t id, posted (se_index e) t id ↔ ∃ d fields, g !! id = Some (d, fields) ∧ contains_term d fields t;
  ct_documents : ∀ id, se_documents e !! id = fst <$> g !! id;
  ct_lengths : ∀ id, is_Some (se_lengths e !! id) ↔ is_Some (g !! id)
}.

Lemma contents_new : contents ∅ SearchEngine_new.
Proof.
  split; cbn.
  - intros t id. split; [intros (e & E & _)|intros (d & fs & E & _)]; by rewrite lookup_empty in E.
  - intros id. by rewrite !lookup_empty.
  - intros id. by rewrite !lookup_empty.
Qed.

Lemma contents_index g e d fields :
  g !! doc_id d = None → contents g e → contents (<[doc_id d := (d, fields)]> g) (index_document e d fields).
Proof.
  intros N [P D L]. unfold index_document. pose proof (terms_per_field_keys d fields) as K.
  destruct (terms_per_field d fields) as [terms total]. cbn [fst] in K. split; cbn.
  - intros t id. rewrite add_postings_posted, K, P. destruct (decide (id = doc_id d)) as [->|Ne].
    + rewrite lookup_insert_eq, N. naive_solver.
    + rewrite lookup_insert_ne by done. naive_solver.
  - intros id. destruct (decide (id = doc_id d)) as [->|Ne]; [by rewrite !lookup_insert_eq|by rewrite !lookup_insert_ne].
  - intros id. rewrite !lookup_insert_is_Some, L. done.
Qed.

Lemma contents_remove g e id : contents g e → contents (delete id g) (remove_document e id).
Proof.
  intros [P D L]. unfold remove_document.
  assert (∀ k, is_Some (delete id (se_lengths e) !! k) ↔ is_Some (delete id g !! k)) as L'.
  { intros k. by rewrite !lookup_delete_is_Some, L. }
  destruct (se_documents e !! id) as [d|] eqn:Ed; split; cbn; try exact L'.
  - intros t k. rewrite drop_fields_posted, P. rewrite D in Ed. apply fmap_Some in Ed as ([d' fields] & Eg & ->). cbn.
    destruct (decide (k = id)) as [->|N].
    + rewrite lookup_delete_eq. split; [|naive_solver]. intros [(d & fs & E & f & text & _ & Ef & T) Ne]. exfalso.
      rewrite Eg in E. injection E as -> ->. apply Ne. split; [done|]. exists (f, text).
      split; [by apply elem_of_map_to_list|done].
    + rewrite lookup_delete_ne by done. naive_solver.
  - intros k. destruct (decide (k = id)) as [->|N]; [by rewrite !lookup_delete_eq|by rewrite !lookup_delete_ne].
  - rewrite D in Ed. destruct (g !! id) eqn:Eg; [done|]. rewrite delete_id by done. exact P.
  - rewrite D in Ed. destruct (g !! id) eqn:Eg; [done|]. by rewrite delete_id.
Qed.
End contents.

(** ** Sorting by score *)

(** Where a number stands: its class, then exponent and mantissa; NaN before all. *)
Definition sf_key (x : spec_float) : Z * (Z * Z) :=
  match x with
  | S754_nan => (-3, (0, 0))
  | S754_infinity true => (-2, (0, 0))
  | S754_finite true m e => (-1, (- e, Z.neg m))
  | S754_zero _ => (0, (0, 0))
  | S754_finite false m e => (1, (e, Z.pos m))
  | S754_infinity false => (2, (0, 0))
  end.
Definition key_cmp (a b : Z * (Z * Z)) : comparison := then_cmp (a.1 ?= b.1) (then_cmp (a.2.1 ?= b.2.1) (a.2.2 ?= b.2.2)).

Lemma key_cmp_total : total_cmp key_cmp.
Proof.
  apply (total_cmp_then (λ a b : Z * (Z * Z), a.1 ?= b.1) (λ a b, then_cmp (a.2.1 ?= b.2.1) (a.2.2 ?= b.2.2))).
  - apply (total_cmp_map fst), total_cmp_Z.
  - apply (total_cmp_map (λ a : Z * (Z * Z), a.2) (λ a b : Z * Z, then_cmp (a.1 ?= b.1) (a.2 ?= b.2))).
    apply (total_cmp_then (λ a b : Z * Z, a.1 ?= b.1) (λ a b, a.2 ?= b.2)); [apply (total_cmp_map fst), total_cmp_Z|apply (total_cmp_map snd), total_cmp_Z].
Qed.

Lemma SFcompare_key x y : x ≠ S754_nan → y ≠ S754_nan → SFcompare x y = Some (key_cmp (sf_key x) (sf_key y)).
Proof.
  intros Nx Ny. unfold key_cmp, then_cmp. destruct x as [|[]| |[] m e], y as [|[]| |[] m' e']; try done; cbn -[Z.opp].
  - rewrite Z.compare_opp, (Z.compare_antisym e e'). by destruct (e ?= e').
  - by destruct (e ?= e').
Qed.

(** A sort only looks at how the elements of its list compare. *)
Lemma sort_by_ext {A} (f g : A → A → comparison) l :
  (∀ x y, x ∈ l → y ∈ l → f x y = g x y) → sort_by f l = sort_by g l.
Proof.
  induction l as [|x l IH]; intros E; [done|]. cbn [sort_by foldr]. fold (sort_by f l) (sort_by g l).
  rewrite IH by (intros; apply E; by right).
  assert (∀ y, y ∈ sort_by g l → f x y = g x y) as Ex by (intros y Hy; rewrite (sort_by_perm g l) in Hy; apply E; [left|by right]).
  clear IH E. induction (sort_by g l) as [|y l' IHl]; [done|]. cbn [insert_by]. rewrite (Ex y) by left.
  destruct (g x y); try done. f_equal. apply IHl. intros z Hz. apply Ex. by right.
Qed.

Lemma total_cmp_flip {A} (f : A → A → comparison) : total_cmp f → total_cmp (λ a b, f b a).
Proof.
  intros T a. pose proof (cmp_at_anti _ _ (T a)) as An. split; [apply T|intros b; apply (cmp_at_anti _ _ (T b))|intros b c..].
  - intros E. pose proof (cmp_at_eq _ _ (T a) b c) as Q. rewrite !An, (cmp_at_anti _ _ (T b) c) in *.
    rewrite Q; [done|]. by destruct (f a b).
  - intros E1 E2. rewrite An, (cmp_at_anti _ _ (T b) c) in *. rewrite (cmp_at_gt _ _ (T a) b c); [done|by destruct (f a b)|by destruct (f b c)].
  - intros E1 E2. rewrite An, (cmp_at_anti _ _ (T b) c) in *. rewrite (cmp_at_lt _ _ (T a) b c); [done|by destruct (f a b)|by destruct (f b c)].
Qed.

(** Better or equal, as numbers. *)
Definition no_worse (a b : SearchHit) : Prop :=
  ∃ c, f_compare F64 (hit_score a) (hit_score b) = Some c ∧ c ≠ Lt.

Lemma sorted_by_score l : Forall (λ h, f_decode F64 (hit_score h) ≠ S754_nan) l → StronglySorted no_worse (sort_by by_score l).
Proof.
  intros N. set (cmp (a b : SearchHit) := key_cmp (sf_key (f_decode F64 (hit_score b))) (sf_key (f_decode F64 (hit_score a)))).
  assert (total_cmp cmp) as T.
  { apply (total_cmp_flip (λ a b : SearchHit, key_cmp (sf_key (f_decode F64 (hit_score a))) (sf_key (f_decode F64 (hit_score b))))).
    apply (total_cmp_map (λ h, sf_key (f_decode F64 (hit_score h)))), key_cmp_total. }
  rewrite Forall_forall in N. rewrite (sort_by_ext by_score cmp).
  2: { intros a b Ha Hb. unfold by_score, f_compare, cmp. by rewrite SFcompare_key by auto. }
  pose proof (sort_by_sorted cmp T l) as S. pose proof (sort_by_perm cmp l) as P.
  assert (∀ h, h ∈ sort_by cmp l → f_decode F64 (hit_score h) ≠ S754_nan) as N' by (intros h; rewrite P; apply N).
  clear P. induction S as [|a l' S IH F]; constructor; [apply IH; intros; apply N'; by right|].
  apply Forall_forall. intros b Hb. rewrite Forall_forall in F. specialize (F b Hb). unfold le_by, cmp in F.
  unfold no_worse, f_compare. rewrite SFcompare_key by (apply N'; first [left|by right]).
  eexists. split; [done|]. rewrite (cmp_at_anti _ _ (key_cmp_total (sf_key (f_decode F64 (hit_score b))))).
  by destruct (key_cmp (sf_key (f_decode F64 (hit_score b))) _).
Qed.

(** ** What a search finds *)

Inductive ft_op : Type := FtIndex (d : Document) (fields : list string) | FtRemove (id : Z).

Section found.
Context `{Lowercase} `{Words} `{Ln} `{ScoreOrderLaws}.

Definition ft_step (e : SearchEngine) (op : ft_op) : SearchEngine :=
  match op with
  | FtIndex d fields => index_document e d fields
  | FtRemove id => remove_document e id
  end.
Definition ft_ghost (g : gmap Z (Document * list string)) (op : ft_op) : gmap Z (Document * list string) :=
  match op with
  | FtIndex d fields => <[doc_id d := (d, fields)]> g
  | FtRemove id => delete id g
  end.
(** No document is indexed again before it is removed. *)
Fixpoint ft_fresh (g : gmap Z (Document * list string)) (ops : list ft_op) : bool :=
  match ops with
  | [] => true
  | op :: ops =>
      match op with FtIndex d _ => bool_decide (g !! doc_id d = None) | FtRemove _ => true end && ft_fresh (ft_ghost g op) ops
  end.

Lemma ft_run_contents ops : ∀ g e,
  contents g e → ft_fresh g ops = true → contents (foldl ft_ghost g ops) (foldl ft_step e ops).
Proof.
  induction ops as [|op ops IH]; intros g e C F; [done|]. cbn [ft_fresh foldl] in F |- *.
  apply andb_true_iff in F as [F1 F2]. apply IH; [|done]. destruct op as [d fields|id]; cbn.
  - apply contents_index; [|done]. by apply bool_decide_eq_true in F1.
  - by apply contents_remove.
Qed.

Lemma score_postings_some e idf avg ps k : ∀ scores,
  is_Some (foldl (score_posting e idf avg) scores ps !! k) ↔ is_Some (scores !! k) ∨ k ∈ ps.*1.
Proof.
  induction ps as [|p ps IH]; intros scores; cbn [foldl fmap list_fmap]; [set_solver|]. rewrite IH, elem_of_cons.
  assert (is_Some (score_posting e idf avg scores p !! k) ↔ k = p.1 ∨ is_Some (scores !! k)) as ->; [|tauto].
  unfold score_posting. destruct (default _ (scores !! p.1)) as [score fields].
  rewrite lookup_insert_is_Some. destruct (decide (p.1 = k)); naive_solver.
Qed.

Lemma score_tokens_some e total avg tokens k : ∀ scores,
  is_Some (foldl (score_token e total avg) scores tokens !! k) ↔
    is_Some (scores !! k) ∨ ∃ t, t ∈ tokens ∧ posted (se_index e) t k.
Proof.
  induction tokens as [|t tokens IH]; intros scores; cbn [foldl]; [set_solver|]. rewrite IH.
  setoid_rewrite elem_of_cons.
  assert (is_Some (score_token e total avg scores t !! k) ↔ is_Some (scores !! k) ∨ posted (se_index e) t k) as ->; [|naive_solver].
  unfold score_token, posted. destruct (se_index e !! t) as [entry|]; [|naive_solver].
  rewrite score_postings_some, list_elem_of_fmap. split.
  - intros [?|([k' ps] & -> & E%elem_of_map_to_list)]; [by left|right]. exists entry. split; [done|]. by exists ps.
  - intros [?|(e' & [= <-] & ps & E)]; [by left|right]. exists (k, ps). split; [done|]. by apply elem_of_map_to_list.
Qed.

(** The score of a document by itself: the terms of the query in order, each weighed by
    how often it occurs in the document, how long that is and how rare the term is. *)
Definition doc_score (e : SearchEngine) (query : string) (id : Z) : Z :=
  let total_docs := f64_of_Z (Z.of_nat (size (se_lengths e))) in
  let avg := f64_div (f64_of_Z (foldl (λ n p, n + p.2) 0 (map_to_list (se_lengths e)))) total_docs in
  let len := f64_of_Z (default 0 (se_lengths e !! id)) in
  foldl (λ score t,
    match se_index e !! t with
    | Some entry => match ie_postings entry !! id with
                    | Some occurrences => f64_add score (term_score (idf_of total_docs entry) avg len occurrences)
                    | None => score
                    end
    | None => score
    end) f64_zero (tokenize query).

Lemma score_postings_at e idf avg id ps : NoDup ps.*1 → ∀ scores,
  default f64_zero (fst <$> foldl (score_posting e idf avg) scores ps !! id) =
    let old := default f64_zero (fst <$> scores !! id) in
    match snd <$> list_find (λ p, p.1 = id) ps with
    | Some p => f64_add old (term_score idf avg (f64_of_Z (default 0 (se_lengths e !! id))) p.2)
    | None => old
    end.
Proof.
  induction ps as [|p ps IH]; intros N scores; [done|]. rewrite fmap_cons in N. apply NoDup_cons in N as [Np N].
  cbn [foldl list_find]. rewrite (IH N). cbv zeta. unfold score_posting at 1 2.
  destruct (decide (p.1 = id)) as [<-|Ne].
  - assert (list_find (λ q, q.1 = p.1) ps = None) as ->.
    { apply list_find_None, Forall_forall. intros q Hq E. apply Np. rewrite <- E. by apply list_elem_of_fmap_2. }
    cbn. destruct (scores !! p.1) as [[old fs]|]; cbn; by rewrite lookup_insert_eq.
  - destruct (default (f64_zero, []) (scores !! p.1)) as [old fs]. rewrite lookup_insert_ne by done.
    destruct (list_find (λ q, q.1 = id) ps) as [[i q]|]; done.
Qed.

Lemma score_tokens_at e total avg id tokens : ∀ scores,
  default f64_zero (fst <$> foldl (score_token e total avg) scores tokens !! id) =
    foldl (λ score t,
      match se_index e !! t with
      | Some entry => match ie_postings entry !! id with
                      | Some occurrences => f64_add score (term_score (idf_of total entry) avg (f64_of_Z (default 0 (se_lengths e !! id))) occurrences)
                      | None => score
                      end
      | None => score
      end) (default f64_zero (fst <$> scores !! id)) tokens.
Proof.
  induction tokens as [|t tokens IH]; intros scores; [done|]. cbn [foldl]. rewrite IH. f_equal. unfold score_token.
  destruct (se_index e !! t) as [entry|]; [|done]. rewrite score_postings_at by apply NoDup_fst_map_to_list. cbv zeta.
  destruct (list_find _ (map_to_list (ie_postings entry))) as [[i [k occ]]|] eqn:L; cbn.
  - apply list_find_Some in L as (L & K & _). cbn in K. subst k. apply list_elem_of_lookup_2, elem_of_map_to_list in L. by rewrite L.
  - rewrite list_find_None in L. destruct (ie_postings entry !! id) as [occ|] eqn:E; [|done]. exfalso.
    apply elem_of_map_to_list in E. rewrite Forall_forall in L. by apply (L _ E).
Qed.

(** C32: A search finds exactly the documents that contain a term of the query in one of
    the fields they were indexed by, each once and with its own score - a sum over the
    terms of the query that no other hit enters into - and answers the first [limit] of
    them in decreasing order of the scores, when all of these are numbers; after any
    indexing and removing that indexes no document again before it is removed. *)
Theorem search_finds_exactly ops query limit :
  ft_fresh ∅ ops = true →
  let e := foldl ft_step SearchEngine_new ops in
  let indexed := foldl ft_ghost ∅ ops in
  ∃ found, search e query limit = firstn limit found ∧ NoDup (hit_id <$> found) ∧
    (∀ id, id ∈ hit_id <$> found ↔
       ∃ d fields t, indexed !! id = Some (d, fields) ∧ t ∈ tokenize query ∧ contains_term d fields t) ∧
    Forall (λ h, hit_score h = doc_score e query (hit_id h)) found ∧
    (Forall (λ h, f_decode F64 (hit_score h) ≠ S754_nan) found → StronglySorted no_worse found).
Proof.
  intros F e g. destruct (ft_run_contents ops ∅ SearchEngine_new contents_new F) as [P _ L]. fold e g in P, L.
  unfold search. destruct (bool_decide (tokenize query = []) || bool_decide (size (se_lengths e) = O)) eqn:B.
  - exists []. split_and!; [by rewrite firstn_nil|constructor| |constructor|constructor]. intros id. split; [by intros ?%not_elem_of_nil|].
    intros (d & fs & t & E & T & _). exfalso. apply orb_true_iff in B as [B|B]; apply bool_decide_eq_true in B.
    + rewrite B in T. by apply not_elem_of_nil in T.
    + apply map_size_empty_inv in B. destruct (proj2 (L id)) as [n Ln]; [by eexists|]. by rewrite B, lookup_empty in Ln.
  - set (scores := foldl _ ∅ _). eexists. split; [done|].
    set (hits := (λ p, MkHit p.1 p.2.1 p.2.2) <$> score_enum scores).
    assert (hit_id <$> sort_by by_score hits ≡ₚ (map_to_list scores).*1) as Pm.
    { rewrite sort_by_perm. unfold hits. rewrite <- list_fmap_compose. rewrite score_enum_perm. by apply fmap_Permutation. }
    split_and!.
    + rewrite Pm. apply NoDup_fst_map_to_list.
    + intros id. rewrite Pm, list_elem_of_fmap. transitivity (is_Some (scores !! id)).
      { split; [intros ([k s] & -> & E%elem_of_map_to_list); by eexists|]. intros [s E]. exists (id, s).
        split; [done|]. by apply elem_of_map_to_list. }
      unfold scores. rewrite score_tokens_some, lookup_empty. split.
      * intros [[? ?]|(t & T & Po)]; [done|]. apply P in Po as (d & fs & E & C). by exists d, fs, t.
      * intros (d & fs & t & E & T & C). right. exists t. split; [done|]. apply P. by exists d, fs.
    + rewrite sort_by_perm. apply Forall_forall. intros h ([id [sc fs]] & -> & Hin)%list_elem_of_fmap.
      rewrite score_enum_perm, elem_of_map_to_list in Hin. cbn [hit_score hit_id fst snd].
      pose proof (score_tokens_at e (f64_of_Z (Z.of_nat (size (se_lengths e))))
        (f64_div (f64_of_Z (foldl (λ n p, n + p.2) 0 (map_to_list (se_lengths e)))) (f64_of_Z (Z.of_nat (size (se_lengths e))))) id (tokenize query) ∅) as Sc.
      fold scores in Sc. rewrite Hin, lookup_empty in Sc. exact Sc.
    + intros N. apply sorted_by_score. by rewrite sort_by_perm in N.
Qed.
End found.

(** Words of ASCII text. *)
Fixpoint ascii_words (l cur : list byte) : list string :=
  match l with
  | [] => [String.string_of_list_byte cur]
  | b :: l =>
      let n := byte_Z b in
      if ((97 <=? n) && (n <=? 122)) || ((48 <=? n) && (n <=? 57)) then ascii_words l (cur ++ [b])
      else String.string_of_list_byte cur :: ascii_words l []
  end.
#[local] Existing Instance demo_lowercase.
#[local] Instance demo_words : Words := λ s, ascii_words (str_bytes s) [].
#[local] Instance demo_ln : Ln := λ x, x.
#[local] Instance demo_score_order : ScoreOrder := λ m, map_to_list m.
#[local] Instance demo_score_order_laws : ScoreOrderLaws.
Proof. by intros m. Qed.

Definition demo_doc (id : Z) (body : string) : Document := with_field (Document_new id) "body" body.
Definition demo_ft_ops : list ft_op :=
  [FtIndex (demo_doc 1 "The Great Gatsby") ["body"%string]; FtIndex (demo_doc 2 "a great dream") ["body"%string]; FtRemove 2].

Lemma search_finds_exactly_witness :
  ft_fresh ∅ demo_ft_ops = true ∧
  ∃ found, search (foldl ft_step SearchEngine_new demo_ft_ops) "great" 10 = firstn 10 found ∧ NoDup (hit_id <$> found).
Proof.
  assert (ft_fresh ∅ demo_ft_ops = true) as F by (by vm_compute). split; [exact F|].
  destruct (search_finds_exactly demo_ft_ops "great" 10 F) as (found & E & N & _ & _ & _). exists found. exact (conj E N).
Defined.

Example search_runs : hit_id <$> search (foldl ft_step SearchEngine_new demo_ft_ops) "great" 10 = [1].
Proof. by vm_compute. Qed.

(** Indexing a document again keeps the terms of its old text, and removing it then leaves
    them behind: the document is found after it is gone. *)
Example removed_document_is_found :
  let e := foldl ft_step SearchEngine_new
    [FtIndex (demo_doc 1 "cats") ["body"%string]; FtIndex (demo_doc 1 "dogs") ["body"%string];
     FtIndex (demo_doc 2 "birds") ["body"%string]; FtRemove 1] in
  hit_id <$> search e "cats" 10 = [1] ∧ has_document e 1 = false.
Proof. by vm_compute. Qed.
