(* ===== verification/Compat.v ===== *)
(** [blitz-cli/src/compat.rs]: template manifests, their discovery in priority order, the
    compatibility resolver and [blitz init]. The [semver] crate and serde's reading of a
    manifest are parameters; directories are what listing and reading them gives, and the
    terminal is the lines it delivers. The errors of libraries that messages quote after a
    colon are left out of them. *)
From S2P Require Import Prelude Float Value HashMap Sort Schema Core Policy Codec Snapshot Wal GroupCommit Durability Tx Shard Query Text Window Changes Jobs Runtime Deploy Server Dispatch Serving Bridge Http.

Local Open Scope Z_scope.

(** ** Manifests *)

Record SdkReq : Type := MkSdkReq { sdk_name : string; sdk_range : string }.
Record ProtocolReq : Type := MkProtocolReq { proto_min : Z; proto_max : Z }.

Record TemplateManifest : Type := MkManifest {
  tm_manifest : Z;
  tm_name : string;
  tm_version : string;
  tm_language : string;
  tm_framework : string;
  tm_description : string;
  tm_sdk : SdkReq;
  tm_protocol : ProtocolReq;
  tm_server_min : string
}.

Record DiscoveredTemplate : Type := MkDiscovered {
  dt_manifest : TemplateManifest;
  dt_files : list (string * list byte);
  dt_source : string
}.
Definition dt_name (t : DiscoveredTemplate) : string := tm_name (dt_manifest t).

Record ProjectRecord : Type := MkProject {
  pr_blitz_project : Z;
  pr_template : string;
  pr_template_version : string;
  pr_sdk : string;
  pr_sdk_version : string;
  pr_protocol : Z;
  pr_server_min : string;
  pr_verified : bool
}.

Record KnownVersions : Type := MkKnown {
  kv_sdks : gmap string string;
  kv_server : option string;
  kv_protocol : option Z
}.
Definition KnownVersions_default : KnownVersions := MkKnown ∅ None None.

(** [semver]: versions in their precedence order, and requirements. *)
Class Semver : Type := {
  sv_version : Type;
  sv_req : Type;
  version_parse : string → option sv_version;
  req_parse : string → option sv_req;
  req_matches : sv_req → sv_version → bool;
  version_lt : sv_version → sv_version → bool
}.
(** [serde_json::from_str], with the text of its error. *)
Class ManifestJson : Type := manifest_from_str : string → result string TemplateManifest.

Definition TEMPLATE_MANIFEST : string := "blitz.template.json".
Definition PROJECT_FILE : string := "blitz.project.json".
Definition MANIFEST_VERSION : Z := 1.
Definition nl : string := String.string_of_list_byte [Z_byte 10].

Section compat.
Context `{Semver} `{ManifestJson}.

Definition is_semver (s : string) : bool := bool_decide (is_Some (version_parse s)).

(** The checks of [TemplateManifest::parse], in their order. *)
Definition validate_manifest (m : TemplateManifest) : result string TemplateManifest :=
  if negb (tm_manifest m =? MANIFEST_VERSION) then
    Err ("unsupported manifest version " +:+ dec (tm_manifest m) +:+ " (want " +:+ dec MANIFEST_VERSION +:+ ")")
  else if bool_decide (tm_name m = EmptyString) || (128 <? Z.of_nat (length (str_bytes (tm_name m)))) then
    Err "template name must be 1..=128 chars"%string
  else if negb (is_semver (tm_version m)) then Err ("template version is not semver: " +:+ tm_version m)
  else if bool_decide (tm_language m = EmptyString) then Err "template language is required"%string
  else if bool_decide (sdk_name (tm_sdk m) = EmptyString) then Err "template sdk.name is required"%string
  else if negb (bool_decide (is_Some (req_parse (sdk_range (tm_sdk m))))) then
    Err ("sdk range is not a valid semver req: " +:+ sdk_range (tm_sdk m))
  else if (proto_min (tm_protocol m) =? 0) || (proto_max (tm_protocol m) <? proto_min (tm_protocol m)) then
    Err "protocol window is empty (need 1 <= min <= max)"%string
  else if negb (is_semver (tm_server_min m)) then Err ("server.min is not semver: " +:+ tm_server_min m)
  else Ok m.

Definition TemplateManifest_parse (text : string) : result string TemplateManifest :=
  m ← map_err (λ e, "malformed manifest: " +:+ e) (manifest_from_str text); validate_manifest m.

(** ** Discovery *)

(** A subdirectory as the disk shows it: its path, what reading its manifest gives (or
    whether it is a file at all), and what collecting its files gives, unsorted. *)
Record TemplateDir : Type := MkTemplateDir {
  td_path : string;
  td_manifest_text : option string;
  td_manifest_is_file : bool;
  td_files : result string (list (string * list byte))
}.

(** Files are sorted by path, then content. *)
Definition file_cmp (a b : string * list byte) : comparison :=
  then_cmp (str_cmp a.1 b.1) (bytes_cmp a.2 b.2).
Definition sort_files (files : list (string * list byte)) : list (string * list byte) := sort_by file_cmp files.

Definition read_template_dir (d : TemplateDir) : result string (TemplateManifest * list (string * list byte)) :=
  match td_manifest_text d with
  | None => Err ("no " +:+ TEMPLATE_MANIFEST)
  | Some text =>
      m ← map_err (λ e, td_path d +:+ "/" +:+ TEMPLATE_MANIFEST +:+ ": " +:+ e) (TemplateManifest_parse text);
      files ← td_files d;
      Ok (m, sort_files files)
  end.

Definition by_name (a b : DiscoveredTemplate) : comparison := str_cmp (dt_name a) (dt_name b).

(** One directory of templates: its name, and its subdirectories unless it cannot be read. *)
Definition discover_dir (acc : list DiscoveredTemplate * list string) (dir : string * option (list TemplateDir))
    : list DiscoveredTemplate * list string :=
  match dir.2 with
  | None => acc
  | Some entries =>
      foldl (λ acc d,
        match read_template_dir d with
        | Ok (m, files) => (acc.1 ++ [MkDiscovered m files dir.1], acc.2)
        | Err e => if td_manifest_is_file d then (acc.1, acc.2 ++ [td_path d +:+ ": " +:+ e]) else acc
        end) acc entries
  end.
Definition discover (dirs : list (string * option (list TemplateDir))) : list DiscoveredTemplate * list string :=
  let '(found, warnings) := foldl discover_dir ([], []) dirs in (sort_by by_name found, warnings).

(** The templates built into the binary, as (template, path, bytes), grouped by name. *)
Definition bundled_groups (bundled : list (string * string * list byte)) : list (string * list (string * list byte)) :=
  let groups := foldl (λ m f, <[f.1.1 := default [] (m !! f.1.1) ++ [(f.1.2, f.2)]]> m)
                  (∅ : gmap string (list (string * list byte))) bundled in
  sort_by (λ a b, str_cmp a.1 b.1) (map_to_list groups).

Definition bundled_one (acc : list DiscoveredTemplate * list string) (g : string * list (string * list byte))
    : list DiscoveredTemplate * list string :=
  let '(name, files) := g in
  let files := sort_files files in
  match list_find (λ f, f.1 = TEMPLATE_MANIFEST) files with
  | None => (acc.1, acc.2 ++ ["bundled template '" +:+ name +:+ "' lacks a manifest (build bug)"])
  | Some (_, f) =>
      match TemplateManifest_parse (String.string_of_list_byte (from_utf8_lossy f.2)) with
      | Err e => (acc.1, acc.2 ++ ["bundled template '" +:+ name +:+ "': " +:+ e])
      | Ok m =>
          (acc.1 ++ [MkDiscovered m files "bundled"],
           if String.eqb (tm_name m) name then acc.2
           else acc.2 ++ ["bundled template dir '" +:+ name +:+ "' declares name '" +:+ tm_name m +:+ "' (using declared name)"])
      end
  end.
Definition discover_bundled (bundled : list (string * string * list byte)) : list DiscoveredTemplate * list string :=
  let '(found, warnings) := foldl bundled_one ([], []) (bundled_groups bundled) in (sort_by by_name found, warnings).

(** [consider]: what is found so far, its names, and the warnings. *)
Definition shadow_warning (t : DiscoveredTemplate) : string :=
  "template '" +:+ dt_name t +:+ "' from " +:+ dt_source t +:+ " shadows same-named template (using the first)".
Definition consider_one (acc : list DiscoveredTemplate * gset string * list string) (t : DiscoveredTemplate)
    : list DiscoveredTemplate * gset string * list string :=
  let '(found, seen, warns) := acc in
  if bool_decide (dt_name t ∈ seen) then (found, seen, warns ++ [shadow_warning t])
  else (found ++ [t], {[dt_name t]} ∪ seen, warns).
Definition consider (acc : list DiscoveredTemplate * gset string * list string)
    (batch : list DiscoveredTemplate * list string) : list DiscoveredTemplate * gset string * list string :=
  let '(found, seen, warnings) := acc in
  let '(found, seen, warns) := foldl consider_one (found, seen, batch.2) batch.1 in (found, seen, warnings ++ warns).

(** [user]: the user's directory of templates, when there is one. *)
Definition discover_all (explicit : list (string * option (list TemplateDir)))
    (user : option (string * option (list TemplateDir))) (bundled : list (string * string * list byte))
    : list DiscoveredTemplate * list string :=
  let acc := consider ([], ∅, []) (discover explicit) in
  let acc := match user with Some dir => consider acc (discover [dir]) | None => acc end in
  let '(found, _, warnings) := consider acc (discover_bundled bundled) in
  (sort_by by_name found, warnings).

(** [HOME], then [USERPROFILE], unless empty. *)
Definition home_dir (home userprofile : option string) : option string :=
  match home with
  | Some h => if bool_decide (h = EmptyString) then p ← userprofile; if bool_decide (p = EmptyString) then None else Some p
              else Some h
  | None => p ← userprofile; if bool_decide (p = EmptyString) then None else Some p
  end.

(** ** Resolution *)

Definition window_text (m : TemplateManifest) : string :=
  "v" +:+ dec (proto_min (tm_protocol m)) +:+ "–v" +:+ dec (proto_max (tm_protocol m)).
Definition needs (m : TemplateManifest) : string := "template '" +:+ tm_name m +:+ "' needs ".

Definition resolve (t : DiscoveredTemplate) (known : KnownVersions) : result string ProjectRecord :=
  let m := dt_manifest t in
  sdk_version ← ok_or (kv_sdks known !! sdk_name (tm_sdk m))
    (needs m +:+ "SDK '" +:+ sdk_name (tm_sdk m) +:+ "' (" +:+ sdk_range (tm_sdk m) +:+ "), which is not installed/known."
     +:+ nl +:+ "Install it or pass --sdk-version name=version.");
  sdk_v ← ok_or (version_parse sdk_version) ("known SDK version is not semver: " +:+ sdk_version);
  req ← ok_or (req_parse (sdk_range (tm_sdk m))) "unreachable: range pre-validated"%string;
  if negb (req_matches req sdk_v) then
    Err ("template '" +:+ tm_name m +:+ "' v" +:+ tm_version m +:+ " needs " +:+ sdk_name (tm_sdk m) +:+ " "
         +:+ sdk_range (tm_sdk m) +:+ ", but " +:+ sdk_version +:+ " is installed." +:+ nl
         +:+ "Install a compatible SDK or pick another template.")
  else
  protocol ← ok_or (kv_protocol known)
    (needs m +:+ "protocol " +:+ window_text m +:+ ", but no server was probed." +:+ nl
     +:+ "Run against a live server or pass --protocol N.");
  if (protocol <? proto_min (tm_protocol m)) || (proto_max (tm_protocol m) <? protocol) then
    Err (needs m +:+ "protocol " +:+ window_text m +:+ ", but the server speaks v" +:+ dec protocol +:+ "." +:+ nl
         +:+ "Upgrade the server or pick another template.")
  else
  server ← ok_or (kv_server known)
    (needs m +:+ "server >= " +:+ tm_server_min m +:+ ", but no server was probed." +:+ nl
     +:+ "Run against a live server or pass --server-version X.Y.Z.");
  server_v ← ok_or (version_parse server) ("server version is not semver: " +:+ server);
  floor ← ok_or (version_parse (tm_server_min m)) "unreachable: floor pre-validated"%string;
  if version_lt server_v floor then
    Err (needs m +:+ "BlitzDB server >= " +:+ tm_server_min m +:+ ", but " +:+ server +:+ " is running." +:+ nl
         +:+ "Upgrade the server or pick another template.")
  else
    Ok (MkProject 1 (tm_name m) (tm_version m) (sdk_name (tm_sdk m)) sdk_version protocol (tm_server_min m) true).

Definition known_complete (known : KnownVersions) : bool :=
  negb (bool_decide (kv_sdks known = ∅)) && bool_decide (is_Some (kv_server known)) && bool_decide (is_Some (kv_protocol known)).

Definition unverified_record (t : DiscoveredTemplate) : ProjectRecord :=
  let m := dt_manifest t in
  MkProject 1 (tm_name m) (tm_version m) (sdk_name (tm_sdk m)) EmptyString (proto_min (tm_protocol m)) (tm_server_min m) false.
End compat.

(** ** [blitz init] *)

Record InitArgs : Type := MkInitArgs {
  ia_template : option string;
  ia_sdk_version : list string;
  ia_server : option string;
  ia_server_version : option string;
  ia_protocol : option Z;
  ia_yes : bool
}.

(** What the version handshake reads off the answer. *)
Definition probe_answer (resp : Response) : result string (string * Z) :=
  if negb (resp_ok resp) then Err "server refused version check"%string
  else
    match resp_rows resp with
    | [] => Err "empty version response"%string
    | row :: _ =>
        match rv_values row !! "server"%string with
        | Some (VString server) =>
            match rv_values row !! "protocol"%string with
            | Some (VInt64 n) | Some (VUInt64 n) => Ok (server, wrap 8 n)
            | _ => Err "version response missing protocol int"%string
            end
        | _ => Err "version response missing server string"%string
        end
    end.

(** [probe_server] past its connection: the chunks it reads until a frame is complete. *)
Fixpoint probe_read `{Chrono} (stash : list byte) (reads : list (list byte)) : result string (string * Z) :=
  match reads with
  | [] => Err "read timed out"%string
  | [] :: _ => Err "server closed the connection"%string
  | chunk :: reads =>
      match feed DEFAULT_MAX_FRAME (stash ++ chunk) with
      | (Ok None, stash) => probe_read stash reads
      | (Ok (Some payload), _) =>
          match decode_response payload with
          | Ok resp => probe_answer resp
          | Err _ => Err "decode failed (protocol mismatch?)"%string
          end
      | (Err _, _) => Err "framing failed (protocol mismatch?)"%string
      end
  end.

(** [kv.split_once(c)] on text. *)
Definition str_split_once (c : byte) (s : string) : option (string * string) :=
  '(a, b) ← split_once c (str_bytes s); Some (String.string_of_list_byte a, String.string_of_list_byte b).
Definition parse_u16 (s : string) : option Z :=
  n ← parse_u64 (str_bytes s); if n <? 2 ^ 16 then Some n else None.

Inductive init_outcome : Type :=
| InitErr (why : string)
| InitAborted
| InitDone (record : ProjectRecord) (files : list (string * list byte)).

Section init.
Context `{Semver} `{DebugText}.
(** A probe of a host and port. *)
Variable probe : string → Z → result string (string * Z).

Definition sdk_flag (acc : result string KnownVersions) (kv : string) : result string KnownVersions :=
  known ← acc;
  '(name, ver) ← ok_or (str_split_once "="%byte kv) ("--sdk-version must be name=version, got " +:+ str_debug kv);
  Ok (MkKnown (<[name := ver]> (kv_sdks known)) (kv_server known) (kv_protocol known)).

(** Flags first, a live probe fills the server's, explicit versions override it. *)
Definition known_versions (args : InitArgs) : result string KnownVersions :=
  known ← foldl sdk_flag (Ok KnownVersions_default) (ia_sdk_version args);
  known ← match ia_server args with
          | None => Ok known
          | Some addr =>
              '(host, port) ← ok_or (str_split_once ":"%byte addr) ("--server must be host:port, got " +:+ str_debug addr);
              port ← ok_or (parse_u16 port) ("bad port in --server " +:+ str_debug addr);
              '(server, protocol) ← map_err (λ e, "server probe failed: " +:+ e) (probe host port);
              Ok (MkKnown (kv_sdks known) (Some server) (Some protocol))
          end;
  let known := match ia_server_version args with
               | Some v => MkKnown (kv_sdks known) (Some v) (kv_protocol known) | None => known end in
  Ok (match ia_protocol args with
      | Some p => MkKnown (kv_sdks known) (kv_server known) (Some p) | None => known end).

(** The terminal: a line, or the end of input. *)
Definition read_line (stdin : list string) : option string * list string :=
  match stdin with [] => (None, []) | l :: stdin => (Some l, stdin) end.

Definition first_position (ok : DiscoveredTemplate → bool) (found : list DiscoveredTemplate) : option Z :=
  (λ p, Z.of_nat p.1 + 1) <$> list_find (λ t, ok t = true) found.

Definition pick_template (found : list DiscoveredTemplate) (known : KnownVersions) (strict : bool) (stdin : list string)
    : result string DiscoveredTemplate * list string :=
  let '(line, stdin) := read_line stdin in
  let n := match line with
           | None => ok_or (first_position (λ t, is_ok (resolve t known) || negb strict) found)
                       "no compatible template (all failed resolution; see list above)"%string
           | Some line => ok_or (parse_u64 (trim (str_bytes line)))
                            ("expected a number, got " +:+ str_debug (String.string_of_list_byte (trim (str_bytes line))))
           end in
  (n ← n;
   let out_of_range := Err ("choice out of range 1..=" +:+ dec (Z.of_nat (length found))) in
   if (n <? 1) || (Z.of_nat (length found) <? n) then out_of_range
   else match found !! Z.to_nat (n - 1) with
        | None => out_of_range
        | Some t =>
            match resolve t known with
            | Err e => if strict then Err ("that template is incompatible:" +:+ nl +:+ e) else Ok t
            | Ok _ => Ok t
            end
        end,
   stdin).

Definition choose_template (args : InitArgs) (found : list DiscoveredTemplate) (known : KnownVersions) (stdin : list string)
    : result string DiscoveredTemplate * list string :=
  match ia_template args with
  | Some name =>
      (match list_find (λ t, dt_name t = name) found with
       | Some (_, t) => Ok t
       | None => Err ("template " +:+ str_debug name +:+ " not found among: " +:+ String.concat ", " (dt_name <$> found))
       end, stdin)
  | None =>
      if ia_yes args then
        (if negb (known_complete known) then
           Err ("cannot verify compatibility non-interactively: no SDK/server versions known." +:+ nl
                +:+ "Pass --sdk-version name=ver with --server-version X.Y.Z --protocol N," +:+ nl
                +:+ "or --server host:port for a live probe, or pick interactively.")
         else match list_find (λ t, is_ok (resolve t known) = true) found with
              | Some (_, t) => Ok t
              | None => Err "--yes given but no template is fully compatible (see --help for overrides)"%string
              end, stdin)
      else pick_template found known (known_complete known) stdin
  end.

Definition declined (line : option string) : bool :=
  let l := ascii_lower <$> trim (str_bytes (default EmptyString line)) in
  bool_decide (l = str_bytes "n") || bool_decide (l = str_bytes "no").

(** [run_init]: [dir_empty] is [None] when the target directory does not exist. *)
Definition run_init (args : InitArgs) (dir : string) (dir_empty : option bool) (found : list DiscoveredTemplate)
    (stdin : list string) : init_outcome :=
  match dir_empty with
  | Some false => InitErr ("directory " +:+ dir +:+ " exists and is not empty")
  | _ =>
      match found with
      | [] => InitErr ("no templates found (explicit --templates dirs, ~/.blitzdb/templates, bundled)." +:+ nl
                +:+ "Point --templates <dir> (repeatable) at directories whose "
                +:+ "immediate subdirectories each carry a blitz.template.json.")
      | _ =>
          match known_versions args with
          | Err e => InitErr e
          | Ok known =>
              match choose_template args found known stdin with
              | (Err e, _) => InitErr e
              | (Ok chosen, stdin) =>
                  if negb (ia_yes args) && declined (read_line stdin).1 then InitAborted
                  else if known_complete known then
                    match resolve chosen known with
                    | Err e => InitErr ("incompatible template:" +:+ nl +:+ e)
                    | Ok record => InitDone record (dt_files chosen)
                    end
                  else InitDone (unverified_record chosen) (dt_files chosen)
              end
          end
      end
  end.
End init.

(** [sdk_install_hint] *)
Definition sdk_install_hint (sdk language : string) : option string :=
  let l := String.string_of_list_byte (ascii_lower <$> str_bytes language) in
  if str_contains l "typescript" || str_contains l "javascript" then Some ("npm install " +:+ sdk)
  else if str_contains l "python" then Some ("pip install " +:+ sdk)
  else if str_contains l "go" then Some ("go get " +:+ sdk)
  else if str_contains l "rust" then Some ("cargo add " +:+ sdk)
  else None.

(** [release_check], up to the scaffolding dry run, which writes the files to a scratch
    directory: [own] is the version of the binary. *)
Record ReleaseCheck : Type := MkCheck { rc_name : string; rc_pass : bool; rc_detail : string }.

Section release.
Context `{Semver} `{ManifestJson}.

Definition template_problems (own_server : sv_version) (t : DiscoveredTemplate) : list string :=
  let m := dt_manifest t in
  (if (PROTOCOL_VERSION <? proto_min (tm_protocol m)) || (proto_max (tm_protocol m) <? PROTOCOL_VERSION)
   then ["protocol window " +:+ window_text m +:+ " excludes this binary (v" +:+ dec PROTOCOL_VERSION +:+ ")"] else []) ++
  (match version_parse (tm_server_min m) with
   | Some floor => if version_lt own_server floor
                   then ["server floor " +:+ tm_server_min m +:+ " is newer than this binary (" +:+ SERVER_VERSION +:+ ")"] else []
   | None => ["server.min is not semver: " +:+ tm_server_min m]
   end) ++
  (match dt_files t with [] => ["template has no files"%string] | _ => [] end).

Definition check_template (own_server : sv_version) (t : DiscoveredTemplate) : ReleaseCheck :=
  let m := dt_manifest t in
  match template_problems own_server t with
  | [] => MkCheck "template" true (tm_name m +:+ " v" +:+ tm_version m +:+ " (" +:+ dec (Z.of_nat (length (dt_files t))) +:+ " files)")
  | ps => MkCheck "template" false (tm_name m +:+ ": " +:+ String.concat "; " ps)
  end.

Definition release_check (own : string) (bundled : list (string * string * list byte)) : list ReleaseCheck :=
  let version := if is_semver own then MkCheck "version-metadata" true ("blitz-cli v" +:+ own)
                 else MkCheck "version-metadata" false "CARGO_PKG_VERSION is not semver" in
  let '(found, warnings) := discover_bundled bundled in
  let out := version :: ((λ w, MkCheck "bundled-manifest" false w) <$> warnings) in
  match found with
  | [] => out ++ [MkCheck "bundled-templates" false "no bundled templates (release without templates is a build bug)"]
  | _ =>
      match version_parse SERVER_VERSION with
      | None => out ++ [MkCheck "server-version" false "SERVER_VERSION is not semver"]
      | Some own_server => out ++ (check_template own_server <$> found)
      end
  end.
End release.

(** ** What resolution guarantees *)

Section resolution.
Context `{Semver}.

(** The template's requirements hold for these versions. *)
Definition compatible (m : TemplateManifest) (known : KnownVersions) (sdk_version : string) (protocol : Z) : Prop :=
  ∃ sdk_v req server server_v floor,
    kv_sdks known !! sdk_name (tm_sdk m) = Some sdk_version ∧ version_parse sdk_version = Some sdk_v ∧
    req_parse (sdk_range (tm_sdk m)) = Some req ∧ req_matches req sdk_v = true ∧
    kv_protocol known = Some protocol ∧ proto_min (tm_protocol m) <= protocol <= proto_max (tm_protocol m) ∧
    kv_server known = Some server ∧ version_parse server = Some server_v ∧
    version_parse (tm_server_min m) = Some floor ∧ version_lt server_v floor = false.

Lemma resolve_spec t known record :
  resolve t known = Ok record ↔
    ∃ sdk_version protocol, let m := dt_manifest t in
      compatible m known sdk_version protocol ∧
      record = MkProject 1 (tm_name m) (tm_version m) (sdk_name (tm_sdk m)) sdk_version protocol (tm_server_min m) true.
Proof.
  unfold resolve, compatible. set (m := dt_manifest t). cbv zeta. split.
  - intros (sv & Es%ok_or_Ok & R)%result_bind_Ok. apply result_bind_Ok in R as (v & Pv%ok_or_Ok & R).
    apply result_bind_Ok in R as (req & Pr%ok_or_Ok & R). destruct (req_matches req v) eqn:M; [|done]. cbn [negb] in R.
    apply result_bind_Ok in R as (p & Ep%ok_or_Ok & R). destruct (_ || _) eqn:W; [done|].
    apply result_bind_Ok in R as (s & Es'%ok_or_Ok & R). apply result_bind_Ok in R as (s_v & Psv%ok_or_Ok & R).
    apply result_bind_Ok in R as (fl & Pf%ok_or_Ok & R). destruct (version_lt s_v fl) eqn:L; [done|]. injection R as <-.
    apply orb_false_iff in W as [W1 W2]. exists sv, p. split; [|done]. exists v, req, s, s_v, fl. split_and!; try done; lia.
  - intros (sv & p & (v & req & s & s_v & fl & -> & Pv & Pr & M & -> & W & -> & Psv & Pf & L) & ->).
    cbn [ok_or mbind result_bind]. rewrite Pv. cbn [ok_or mbind result_bind]. rewrite Pr. cbn [ok_or mbind result_bind].
    rewrite M. cbn [negb]. rewrite (proj2 (orb_false_iff _ _)) by lia. cbn [ok_or mbind result_bind]. rewrite Psv.
    cbn [ok_or mbind result_bind]. rewrite Pf. cbn [ok_or mbind result_bind]. by rewrite L.
Qed.

Lemma list_find_in {A} (P : A → Prop) `{∀ x, Decision (P x)} l i x : list_find P l = Some (i, x) → x ∈ l ∧ P x.
Proof. intros (L & Px & _)%list_find_Some. split; [by eapply list_elem_of_lookup_2|done]. Qed.

Context `{DebugText}.

Lemma choose_template_in args found known stdin t rest :
  choose_template args found known stdin = (Ok t, rest) →
  t ∈ found ∧ (ia_template args = None → ia_yes args = true → known_complete known = true).
Proof.
  unfold choose_template. destruct (ia_template args) as [name|].
  { destruct (list_find _ found) as [[i x]|] eqn:L; [|done]. intros [= -> _]. apply list_find_in in L as [I _]. done. }
  destruct (ia_yes args).
  - destruct (known_complete known); cbn [negb]; [|done].
    destruct (list_find _ found) as [[i x]|] eqn:L; [|done]. intros [= -> _]. apply list_find_in in L as [I _]. done.
  - unfold pick_template. destruct (read_line stdin) as [line stdin']. intros [= R _].
    apply result_bind_Ok in R as (n & _ & R). destruct (_ || _); [done|].
    destruct (found !! Z.to_nat (n - 1)) as [x|] eqn:L; [|done]. apply list_elem_of_lookup_2 in L.
    split; [|done]. destruct (resolve x known) as [r|e]; [by injection R as ->|].
    destruct (known_complete known); [done|by injection R as ->].
Qed.

(** C33: [blitz init] never writes into a directory that is not empty, writes the files of a
    template it found, and records it as verified only after checking that the SDK, the
    protocol and the server it was told of meet the template's requirements, pinning
    exactly those versions; otherwise it records the template's minimums as unverified.
    Without a template named, [--yes] never goes ahead unverified. *)
Theorem init_pins_what_it_checked probe args dir dir_empty found stdin record files :
  run_init probe args dir dir_empty found stdin = InitDone record files →
  dir_empty ≠ Some false ∧
  ∃ t known, t ∈ found ∧ files = dt_files t ∧ known_versions probe args = Ok known ∧
    pr_template record = dt_name t ∧
    (if pr_verified record
     then compatible (dt_manifest t) known (pr_sdk_version record) (pr_protocol record)
     else record = unverified_record t ∧ known_complete known = false) ∧
    (ia_template args = None → ia_yes args = true → pr_verified record = true).
Proof.
  intros R. split; [intros ->; done|]. revert R. unfold run_init.
  assert (∀ A (a b : A), match dir_empty with Some false => a | _ => b end = if bool_decide (dir_empty = Some false) then a else b) as E
    by (intros; by destruct dir_empty as [[]|]).
  rewrite E. case_bool_decide; [done|]. destruct found as [|t0 found']; [done|]. set (found := t0 :: found').
  destruct (known_versions probe args) as [known|e]; [|done].
  destruct (choose_template args found known stdin) as [[t|e] rest] eqn:C; [|done].
  apply choose_template_in in C as [I Y]. destruct (_ && declined _); [done|].
  destruct (known_complete known) eqn:K.
  - destruct (resolve t known) as [r|e] eqn:R; [|done]. intros [= <- <-]. exists t, known.
    apply resolve_spec in R as (sv & p & Cm & ->). by split_and!.
  - intros [= <- <-]. exists t, known. split_and!; try done.
Qed.
End resolution.

(** ** Templates shadow one another by priority *)

Section shadowing.
Context `{Semver} `{ManifestJson}.

(** The first template of each name not in [seen]. *)
Fixpoint firsts (seen : gset string) (l : list DiscoveredTemplate) : list DiscoveredTemplate :=
  match l with
  | [] => []
  | t :: l => if bool_decide (dt_name t ∈ seen) then firsts seen l else t :: firsts ({[dt_name t]} ∪ seen) l
  end.
Definition names_of (l : list DiscoveredTemplate) : gset string := list_to_set (dt_name <$> l).

Lemma consider_fold l : ∀ found seen warns,
  ∃ warns', foldl consider_one (found, seen, warns) l = (found ++ firsts seen l, names_of l ∪ seen, warns').
Proof.
  induction l as [|t l IH]; intros found seen warns; cbn [foldl firsts].
  { exists warns. unfold names_of. cbn. by rewrite app_nil_r, union_empty_l_L. }
  unfold consider_one at 2. destruct (decide (dt_name t ∈ seen)) as [I|N].
  - rewrite bool_decide_true by done. destruct (IH found seen (warns ++ [shadow_warning t])) as [w ->]. exists w.
    f_equal. f_equal. unfold names_of. cbn. set_solver.
  - rewrite bool_decide_false by done. destruct (IH (found ++ [t]) ({[dt_name t]} ∪ seen) warns) as [w ->]. exists w.
    rewrite <- app_assoc. f_equal. f_equal. unfold names_of. cbn. set_solver.
Qed.

Lemma firsts_app l l' : ∀ seen, firsts seen (l ++ l') = firsts seen l ++ firsts (names_of l ∪ seen) l'.
Proof.
  induction l as [|t l IH]; intros seen; cbn [firsts app]; [unfold names_of; cbn; by rewrite union_empty_l_L|].
  case_bool_decide as I; rewrite IH; cbn; f_equal; [|f_equal]; f_equal; unfold names_of; cbn; set_solver.
Qed.

Lemma consider_spec found seen warnings batch :
  ∃ warns, consider (found, seen, warnings) batch = (found ++ firsts seen batch.1, names_of batch.1 ∪ seen, warns).
Proof.
  unfold consider. destruct (consider_fold batch.1 found seen batch.2) as [w E].
  destruct (foldl consider_one (found, seen, batch.2) batch.1) as [[f s] ws]. injection E as -> -> ->. by eexists.
Qed.

Lemma firsts_spec l : ∀ seen t,
  t ∈ firsts seen l ↔
    dt_name t ∉ seen ∧ ∃ i, l !! i = Some t ∧ ∀ j t', (j < i)%nat → l !! j = Some t' → dt_name t' ≠ dt_name t.
Proof.
  induction l as [|x l IH]; intros seen t; cbn [firsts].
  { split; [by intros ?%not_elem_of_nil|]. by intros (_ & i & ? & _). }
  case_bool_decide as I.
  - rewrite IH. split.
    + intros (N & i & L & F). split; [done|]. exists (S i). split; [done|]. intros [|j] t' Lt; cbn.
      * intros [= <-]. congruence.
      * intros L'. apply (F j t'); [lia|done].
    + intros (N & [|i] & L & F); cbn in L; [injection L as ->; done|]. split; [done|]. exists i. split; [done|].
      intros j t' Lt L'. apply (F (S j) t'); [lia|done].
  - rewrite elem_of_cons, IH. split.
    + intros [->|(N & i & L & F)].
      * split; [done|]. exists O. split; [done|]. lia.
      * split; [set_solver|]. exists (S i). split; [done|]. intros [|j] t' Lt; cbn.
        -- intros [= <-]. set_solver.
        -- intros L'. apply (F j t'); [lia|done].
    + intros (N & [|i] & L & F); cbn in L; [left; congruence|right].
      assert (dt_name x ≠ dt_name t) as D by (apply (F O x); [lia|done]). split; [set_solver|]. exists i. split; [done|].
      intros j t' Lt L'. apply (F (S j) t'); [lia|done].
Qed.

Lemma firsts_NoDup l : ∀ seen, NoDup (dt_name <$> firsts seen l).
Proof.
  induction l as [|x l IH]; intros seen; cbn [firsts]; [constructor|]. case_bool_decide; [apply IH|]. cbn. constructor; [|apply IH].
  intros (t & E & T)%list_elem_of_fmap. apply firsts_spec in T as [N _]. set_solver.
Qed.

(** Of the templates found in the explicit directories, the user's and the binary, in
    this order, exactly the first of each name is offered, and the offer is sorted by
    name: no name is offered twice, and none is lost. *)
Theorem shadowing_is_by_priority explicit user bundled :
  let offered := (discover_all explicit user bundled).1 in
  let all := (discover explicit).1 ++ (match user with Some dir => (discover [dir]).1 | None => [] end) ++ (discover_bundled bundled).1 in
  NoDup (dt_name <$> offered) ∧ StronglySorted (le_by by_name) offered ∧
  (∀ t, t ∈ offered ↔ ∃ i, all !! i = Some t ∧ ∀ j t', (j < i)%nat → all !! j = Some t' → dt_name t' ≠ dt_name t).
Proof.
  intros offered all. assert (∃ warnings, discover_all explicit user bundled = (sort_by by_name (firsts ∅ all), warnings)) as [w E].
  { unfold discover_all, all. destruct (consider_spec [] ∅ [] (discover explicit)) as [w1 ->].
    destruct user as [dir|].
    - destruct (consider_spec ([] ++ firsts ∅ (discover explicit).1) (names_of (discover explicit).1 ∪ ∅) w1 (discover [dir])) as [w2 ->].
      edestruct consider_spec as [w3 ->]. exists w3. rewrite !firsts_app, !app_assoc. cbn [app].
      do 3 f_equal.
    - edestruct consider_spec as [w3 ->]. exists w3. rewrite !firsts_app. cbn [app firsts]. do 3 f_equal.
      unfold names_of. cbn. by rewrite union_empty_l_L. }
  unfold offered. rewrite E. cbn [fst].
  assert (total_cmp by_name) as T by (apply (total_cmp_map dt_name), total_cmp_str). split_and!.
  - rewrite sort_by_perm. apply firsts_NoDup.
  - by apply sort_by_sorted.
  - intros t. rewrite sort_by_perm, firsts_spec. set_solver.
Qed.
End shadowing.

(** Versions that are one number. *)
#[local] Instance demo_semver : Semver := {|
  sv_version := Z;
  sv_req := Z;
  version_parse s := parse_u64 (str_bytes s);
  req_parse s := parse_u64 (str_bytes s);
  req_matches r v := r <=? v;
  version_lt := Z.ltb
|}.
#[local] Existing Instance demo_debug.

Definition demo_manifest (name : string) : TemplateManifest :=
  MkManifest 1 name "1" "rust" EmptyString EmptyString (MkSdkReq "sdk" "2") (MkProtocolReq 2 2) "3".
Definition demo_template : DiscoveredTemplate := MkDiscovered (demo_manifest "app") [("main.rs"%string, [])] "bundled".
Definition no_probe (host : string) (port : Z) : result string (string * Z) := Err "unreachable"%string.
Definition demo_init_args : InitArgs := MkInitArgs (Some "app"%string) ["sdk=2"%string] None (Some "4"%string) (Some 2) true.

Lemma init_pins_what_it_checked_witness :
  ∃ record, run_init no_probe demo_init_args "p" None [demo_template] [] = InitDone record [("main.rs"%string, [])] ∧
    pr_verified record = true ∧ pr_template record = dt_name demo_template.
Proof.
  destruct (run_init no_probe demo_init_args "p" None [demo_template] []) as [w| |record files] eqn:R; [by vm_compute in R..|].
  destruct (init_pins_what_it_checked no_probe demo_init_args "p" None [demo_template] [] record files R)
    as (_ & t & known & I & F & _ & N & _).
  apply list_elem_of_singleton in I as ->. exists record. split; [by rewrite F|]. split; [|exact N].
  vm_compute in R. by injection R as <- <-.
Defined.

(** With the template named, [--yes] goes ahead without any version to check. *)
Example named_template_is_not_checked :
  run_init no_probe (MkInitArgs (Some "app"%string) [] None None None true) "p" None [demo_template] []
    = InitDone (unverified_record demo_template) [("main.rs"%string, [])].
Proof. by vm_compute. Qed.
