(* ===== verification/Bundle.v ===== *)
(** [blitz-cli/build.rs]: the official templates, walked and sorted into the list that is
    compiled into the binary and read back by [Compat.discover_bundled]; and the walk of
    [compat.rs] over a template on disk, which finds the same files. The text of the
    generated Rust file is left out; the tree is the directory as [read_dir] lists it. *)
From S2P Require Import Prelude Float Value Sort Schema Core Codec Shard Http Install Compat.

(** ** A directory tree *)

(** Whether an entry is a file or a directory, whose entries come in any order. *)
Inductive dir_tree : Type := TFile (bytes : list byte) | TDir (entries : list (string * dir_tree)).

Section tree_induction.
Context (P : dir_tree → Prop).
Context (Pfile : ∀ bytes, P (TFile bytes)) (Pdir : ∀ es, Forall (λ e, P e.2) es → P (TDir es)).
Fixpoint tree_nested_ind (t : dir_tree) : P t :=
  match t with
  | TFile bytes => Pfile bytes
  | TDir es => Pdir es ((fix go (es : list (string * dir_tree)) : Forall (λ e, P e.2) es :=
                           match es with
                           | [] => Forall_nil_2 _
                           | e :: es => Forall_cons_2 _ e es (tree_nested_ind e.2) (go es)
                           end) es)
  end.
End tree_induction.

(** ** The walk *)

Definition by_entry {A} (a b : string * A) : comparison := str_cmp a.1 b.1.

(** [.replace('\\', "/")] *)
Definition slashes (rel : string) : string :=
  String.string_of_list_byte ((λ b, if bool_decide (b = Z_byte 92) then Z_byte 47 else b) <$> str_bytes rel).

(** [collect]: the files below an entry whose path from the template's directory is [rel]. *)
Fixpoint collect (rel : string) (t : dir_tree) : list (string * list byte) :=
  match t with
  | TFile bytes => [(slashes rel, bytes)]
  | TDir es => (sort_by by_entry ((λ e, (e.1, collect (path_join rel e.1) e.2)) <$> es)) ≫= snd
  end.

Definition is_file (t : option dir_tree) : bool := match t with Some (TFile _) => true | _ => false end.
Definition entry (es : list (string * dir_tree)) (name : string) : option dir_tree := snd <$> head (filter (λ e, e.1 = name) es).

Definition child (t : dir_tree) (name : string) : option dir_tree := match t with TDir es => entry es name | TFile _ => None end.

(** [dir_names], each with its directory. *)
Definition dir_names (es : list (string * dir_tree)) : list (string * dir_tree) :=
  filter (λ e, match e.2 with TDir _ => true | TFile _ => false end = true) es.

Definition bundled_file : Type := string * string * list byte.
Definition by_file (a b : bundled_file) : comparison := then_cmp (str_cmp a.1.1 b.1.1) (str_cmp a.1.2 b.1.2).

(** The loop over the templates in the order of their names; a missing manifest panics. *)
Fixpoint collect_templates (ds : list (string * dir_tree)) : option (list bundled_file) :=
  match ds with
  | [] => Some []
  | (name, t) :: ds =>
      if is_file (child t TEMPLATE_MANIFEST) then
        files ← collect_templates ds;
        Some (((λ f, (name, f.1, f.2)) <$> collect EmptyString t) ++ files)
      else None
  end.

(** [main]: [None] is a build that fails. *)
Definition bundle (templates : option dir_tree) : option (list bundled_file) :=
  match templates with
  | Some (TDir es) =>
      files ← collect_templates (sort_by by_entry (dir_names es));
      if bool_decide (files = []) then None else Some (sort_by by_file files)
  | _ => None
  end.

(** ** The same walk by the command *)

Section disk.
(** What reading a path fails with, if it does. *)
Context (unreadable : string → option string).

Definition read_at {A} (path : string) (a : A) : result string A :=
  match unreadable path with Some e => Err ("read " +:+ path +:+ ": " +:+ e) | None => Ok a end.

(** [Compat]'s [collect_files], in the order of listing; [path] is where [rel] is. *)
Fixpoint collect_files (path rel : string) (t : dir_tree) : result string (list (string * list byte)) :=
  match t with
  | TFile bytes => read_at path [(slashes rel, bytes)]
  | TDir es =>
      _ ← read_at path ();
      (fix entries (es : list (string * dir_tree)) : result string (list (string * list byte)) :=
         match es with
         | [] => Ok []
         | e :: es =>
             files ← collect_files (path_join path e.1) (path_join rel e.1) e.2;
             more ← entries es;
             Ok (files ++ more)
         end) es
  end.

(** What [Compat.read_template_dir] finds in a directory. *)
Definition template_dir_of (path : string) (t : dir_tree) : TemplateDir :=
  MkTemplateDir path
    match child t TEMPLATE_MANIFEST, unreadable (path_join path TEMPLATE_MANIFEST) with
    | Some (TFile bytes), None => if utf8_valid bytes then Some (bytes_str bytes) else None
    | _, _ => None
    end
    (is_file (child t TEMPLATE_MANIFEST)) (collect_files path EmptyString t).

(** A directory of templates as [Compat.discover] takes it. *)
Definition templates_in (path : string) (t : option dir_tree) : string * option (list TemplateDir) :=
  (path, match t, unreadable path with
         | Some (TDir es), None => Some ((λ e, template_dir_of (path_join path e.1) e.2) <$> dir_names es)
         | _, _ => None
         end).
End disk.

(** ** What is bundled *)

(** The files of a tree, by the names that lead to them. *)
Inductive file_at : dir_tree → list string → list byte → Prop :=
| at_file bytes : file_at (TFile bytes) [] bytes
| at_entry es name t path bytes : (name, t) ∈ es → file_at t path bytes → file_at (TDir es) (name :: path) bytes.

Definition path_of (rel : string) (path : list string) : string := foldl path_join rel path.

Lemma collect_spec t : ∀ rel r bytes, (r, bytes) ∈ collect rel t ↔ ∃ path, r = slashes (path_of rel path) ∧ file_at t path bytes.
Proof.
  induction t as [b|es IH] using tree_nested_ind; intros rel r bytes; cbn [collect].
  - rewrite list_elem_of_singleton. split.
    + intros [= -> ->]. exists []. split; [done|constructor].
    + intros (path & -> & F). by inversion F; subst.
  - rewrite list_elem_of_bind. split.
    + intros ([name fs] & Hf & Hx). rewrite (sort_by_perm by_entry (fmap _ es)) in Hx.
      apply list_elem_of_fmap_1 in Hx as ([n t] & [= -> ->] & Hin). cbn [fst snd] in Hf.
      rewrite Forall_forall in IH. apply (IH _ Hin) in Hf as (path & -> & F). exists (n :: path).
      split; [done|]. by econstructor.
    + intros (path & -> & F). inversion F as [|? name t path' ? Hin F']; subst.
      exists (name, collect (path_join rel name) t). split.
      * rewrite Forall_forall in IH. apply (IH _ Hin). by exists path'.
      * rewrite (sort_by_perm by_entry (fmap _ es)). apply list_elem_of_fmap. by exists (name, t).
Qed.

(** *** The order of listing does not matter *)

Lemma by_entry_total {A} : total_cmp (by_entry (A := A)).
Proof. apply (total_cmp_map fst), total_cmp_str. Qed.

Lemma one_of_perm {A} (a b : list A) : (length a <= 1)%nat → a ≡ₚ b → a = b.
Proof.
  intros L P. destruct a as [|x [|y a]]; cbn in L; [by apply Permutation_nil_l in P|by apply Permutation_singleton_l in P|lia].
Qed.

(** Entries of different names have one sorted order. *)
Lemma sort_entries_perm {A} (a b : list (string * A)) : NoDup a.*1 → a ≡ₚ b → sort_by by_entry a = sort_by by_entry b.
Proof.
  intros N P. pose proof (by_entry_total (A := A)) as T.
  apply (sorted_unique by_entry T); [by apply sort_by_sorted|by apply sort_by_sorted|]. intros k.
  rewrite !(sort_by_class by_entry T). apply one_of_perm; [|unfold class_of; by rewrite P].
  clear -N. induction a as [|x l IH]; [cbn; lia|]. rewrite fmap_cons in N. apply NoDup_cons in N as [Nx N].
  unfold class_of in *. rewrite filter_cons. case_decide as E; [|by apply IH]. cbn [length].
  enough (filter (λ x, by_entry k x = Eq) l = []) as -> by (cbn; lia).
  apply elem_of_nil_inv. intros y [Ey Iy]%list_elem_of_filter. apply Nx.
  assert (x.1 = y.1) as ->; [|by apply list_elem_of_fmap_2]. unfold by_entry in *. apply str_cmp_eq in E, Ey. congruence.
Qed.

(** The same tree, listed in another order at any level. *)
Inductive relisted : dir_tree → dir_tree → Prop :=
| relisted_file bytes : relisted (TFile bytes) (TFile bytes)
| relisted_dir es es1 es2 : NoDup es.*1 → Forall2 (λ a b, a.1 = b.1 ∧ relisted a.2 b.2) es es1 → es1 ≡ₚ es2 →
    relisted (TDir es) (TDir es2).

Lemma relisted_collect t : ∀ t' rel, relisted t t' → collect rel t = collect rel t'.
Proof.
  induction t as [b|es IH] using tree_nested_ind; intros t' rel R; inversion R as [|? es1 es2 N F P]; subst; [done|].
  cbn [collect]. f_equal.
  assert ((λ e, (e.1, collect (path_join rel e.1) e.2)) <$> es = (λ e, (e.1, collect (path_join rel e.1) e.2)) <$> es1) as ->.
  { clear -IH F. revert es1 F. induction IH as [|[n t] es E _ IH]; intros es1 F; inversion F as [|? [n' t'] ? ? [En Et] F']; subst; [done|].
    cbn in *. subst n'. rewrite (E _ _ Et). f_equal. by apply IH. }
  assert (NoDup es1.*1) as N1 by (clear -N F; replace es1.*1 with es.*1; [done|]; induction F as [|? ? ? ? [E _] _ IH]; [done|];
    rewrite !fmap_cons, E; f_equal; apply IH; rewrite fmap_cons in N; by apply NoDup_cons in N as [_ ?]).
  apply sort_entries_perm; [by rewrite <- list_fmap_compose|by rewrite P].
Qed.

Lemma entry_perm (a b : list (string * dir_tree)) n : NoDup a.*1 → a ≡ₚ b → entry a n = entry b n.
Proof.
  intros N P. unfold entry. f_equal. f_equal. apply one_of_perm; [|by rewrite P]. clear -N.
  induction a as [|x l IH]; [cbn; lia|]. rewrite fmap_cons in N. apply NoDup_cons in N as [Nx N]. rewrite filter_cons.
  case_decide as E; [|by apply IH]. cbn [length]. enough (filter (λ e, e.1 = n) l = []) as -> by (cbn; lia).
  apply elem_of_nil_inv. intros y [Ey Iy]%list_elem_of_filter. apply Nx. rewrite E, <- Ey. by apply list_elem_of_fmap_2.
Qed.

Lemma relisted_names es es1 : Forall2 (λ a b : string * dir_tree, a.1 = b.1 ∧ relisted a.2 b.2) es es1 → es1.*1 = es.*1.
Proof. induction 1 as [|? ? ? ? [E _] _ IH]; [done|]. by rewrite !fmap_cons, E, IH. Qed.

Lemma relisted_child t t' n : relisted t t' → is_file (child t n) = is_file (child t' n).
Proof.
  intros R. destruct R as [|es es1 es2 N F P]; [done|]. cbn [child].
  rewrite <- (entry_perm es1 es2 n) by (by rewrite ?(relisted_names _ _ F)). clear N P. unfold entry.
  induction F as [|[m t] [m' t'] l l' [E R] _ IH]; [done|]. cbn in E, R. subst m'. rewrite !filter_cons. cbn [fst].
  case_decide; [|exact IH]. cbn. by destruct R.
Qed.

Lemma collect_templates_relisted ds ds' : Forall2 (λ a b : string * dir_tree, a.1 = b.1 ∧ relisted a.2 b.2) ds ds' →
  collect_templates ds = collect_templates ds'.
Proof.
  induction 1 as [|[n t] [n' t'] l l' [E R] _ IH]; [done|]. cbn in E, R. subst n'. cbn [collect_templates].
  by rewrite (relisted_child t t' _ R), IH, (relisted_collect t t' _ R).
Qed.

Lemma insert_related (R : string * dir_tree → string * dir_tree → Prop) x x' l l' : (∀ a b, R a b → a.1 = b.1) → R x x' → Forall2 R l l' →
  Forall2 R (insert_by by_entry x l) (insert_by by_entry x' l').
Proof.
  intros K Rx F. induction F as [|y y' l l' Ry F IH]; cbn [insert_by]; [by repeat constructor|].
  assert (by_entry x' y' = by_entry x y) as -> by (unfold by_entry; by rewrite (K _ _ Rx), (K _ _ Ry)).
  destruct (by_entry x y); by repeat constructor.
Qed.

Lemma sort_related (R : string * dir_tree → string * dir_tree → Prop) l l' : (∀ a b, R a b → a.1 = b.1) → Forall2 R l l' →
  Forall2 R (sort_by by_entry l) (sort_by by_entry l').
Proof. intros K. induction 1 as [|x x' l l' Rx _ IH]; [constructor|]. by apply insert_related. Qed.

Lemma dir_names_related es es1 : Forall2 (λ a b : string * dir_tree, a.1 = b.1 ∧ relisted a.2 b.2) es es1 →
  Forall2 (λ a b, a.1 = b.1 ∧ relisted a.2 b.2) (dir_names es) (dir_names es1).
Proof.
  unfold dir_names. induction 1 as [|[n t] [n' t'] l l' [E R] _ IH]; [constructor|]. rewrite !filter_cons. cbn in E, R |- *.
  destruct R; cbn; [exact IH|]. constructor; [|exact IH]. split; [done|]. by econstructor.
Qed.

Lemma bundle_relisted es es' : relisted (TDir es) (TDir es') → bundle (Some (TDir es)) = bundle (Some (TDir es')).
Proof.
  intros R. inversion R as [|? es1 es2 N F P]; subst. unfold bundle.
  assert (sort_by by_entry (dir_names es') = sort_by by_entry (dir_names es1)) as ->.
  { apply (sort_entries_perm (dir_names es') (dir_names es1)); [|unfold dir_names; by rewrite P].
    unfold dir_names. eapply sublist_NoDup; [|apply fmap_sublist, sublist_filter]. rewrite <- P. by rewrite (relisted_names _ _ F). }
  rewrite (collect_templates_relisted (sort_by by_entry (dir_names es)) (sort_by by_entry (dir_names es1))); [done|].
  apply sort_related; [by intros ?? [? _]|]. by apply dir_names_related.
Qed.

(** *** The bundle *)

Lemma collect_templates_spec ds :
  match collect_templates ds with
  | Some files => (∀ e, e ∈ ds → is_file (child e.2 TEMPLATE_MANIFEST) = true) ∧
      ∀ name rel bytes, (name, rel, bytes) ∈ files ↔ ∃ t, (name, t) ∈ ds ∧ (rel, bytes) ∈ collect EmptyString t
  | None => ∃ e, e ∈ ds ∧ is_file (child e.2 TEMPLATE_MANIFEST) = false
  end.
Proof.
  induction ds as [|[n t] ds IH]; cbn [collect_templates]; [split; set_solver|].
  destruct (is_file (child t TEMPLATE_MANIFEST)) eqn:M; [|exists (n, t); split; [by left|done]].
  destruct (collect_templates ds) as [files|]; cbn [mbind option_bind]; [|destruct IH as (e & I & E); exists e; split; [by right|done]].
  destruct IH as [IHm IH]. split; [intros e [->|I]%elem_of_cons; [done|by apply IHm]|].
  intros name rel bytes. rewrite elem_of_app, IH, list_elem_of_fmap. split.
  - intros [([r b] & [= -> -> ->] & I)|(t' & I & C)]; [exists t; split; [by left|done]|exists t'; split; [by right|done]].
  - intros (t' & [[= -> ->]|I]%elem_of_cons & C); [left; by exists (rel, bytes)|right; by exists t'].
Qed.

Lemma by_file_total : total_cmp by_file.
Proof. apply (total_cmp_then (λ a b : bundled_file, str_cmp a.1.1 b.1.1) (λ a b, str_cmp a.1.2 b.1.2)); [apply (total_cmp_map (λ a : bundled_file, a.1.1)), total_cmp_str|apply (total_cmp_map (λ a : bundled_file, a.1.2)), total_cmp_str]. Qed.

Lemma elem_of_dir_names es name t : (name, t) ∈ dir_names es ↔ (name, t) ∈ es ∧ ∃ sub, t = TDir sub.
Proof. unfold dir_names. rewrite list_elem_of_filter. cbn. destruct t; naive_solver. Qed.

(** *** Discovery from disk *)

Lemma bind_of_Ok {E A B} (a : A) (f : A → result E B) : Ok a ≫= f = f a.
Proof. done. Qed.

Lemma collect_files_all t : ∀ path rel, ∃ fs, collect_files (λ _, None) path rel t = Ok fs ∧ fs ≡ₚ collect rel t.
Proof.
  induction t as [b|es IH] using tree_nested_ind; intros path rel; [by eexists|]. cbn [collect_files collect read_at].
  rewrite bind_of_Ok. assert (∀ l : list (string * list (string * list byte)), sort_by by_entry l ≫= snd ≡ₚ l ≫= snd) as P
    by (intros l; by rewrite (sort_by_perm by_entry l)).
  induction IH as [|[n t] es E _ (fs & F & Pf)]; [by eexists|]. destruct (E (path_join path n) (path_join rel n)) as (gs & G & Pg).
  cbn [fst snd] in *. rewrite G, bind_of_Ok, F, bind_of_Ok. eexists. split; [done|]. rewrite Pf, P, P. cbn. by rewrite Pg.
Qed.

Lemma file_cmp_total : total_cmp file_cmp.
Proof. apply (total_cmp_then (λ a b : string * list byte, str_cmp a.1 b.1) (λ a b, bytes_cmp a.2 b.2)); [apply (total_cmp_map fst), total_cmp_str|apply (total_cmp_map snd), total_cmp_bytes]. Qed.

Lemma file_cmp_eq a b : file_cmp a b = Eq → a = b.
Proof.
  unfold file_cmp, then_cmp. destruct a, b; cbn. destruct (str_cmp _ _) eqn:E; try done. apply str_cmp_eq in E as ->.
  intros E%bytes_cmp_eq. by subst.
Qed.

Lemma sort_files_perm l l' : l ≡ₚ l' → sort_files l = sort_files l'.
Proof.
  intros P. pose proof file_cmp_total as T. apply (sorted_unique file_cmp T); [by apply sort_by_sorted|by apply sort_by_sorted|].
  intros k. unfold sort_files. rewrite !(sort_by_class file_cmp T).
  assert (∀ l, class_of file_cmp k l = replicate (length (class_of file_cmp k l)) k) as R.
  { intros m. symmetry. apply replicate_as_elem_of. split; [done|]. by intros x [->%file_cmp_eq _]%list_elem_of_filter. }
  rewrite (R l), (R l'). f_equal. unfold class_of. by rewrite P.
Qed.

(** The files of a template in a bundle. *)
Definition files_of (name : string) (bundled : list bundled_file) : list (string * list byte) :=
  (λ f, (f.1.2, f.2)) <$> filter (λ f, f.1.1 = name) bundled.

Lemma groups_lookup bundled name : ∀ m : gmap string (list (string * list byte)),
  foldl (λ m (f : bundled_file), <[f.1.1 := default [] (m !! f.1.1) ++ [(f.1.2, f.2)]]> m) m bundled !! name =
  match files_of name bundled with [] => m !! name | fs => Some (default [] (m !! name) ++ fs) end.
Proof.
  induction bundled as [|[[n r] b] bundled IH]; intros m; [done|]. cbn [foldl]. rewrite IH. unfold files_of. rewrite filter_cons. cbn [fst snd].
  destruct (decide (n = name)) as [->|N]; [|by rewrite lookup_insert_ne].
  rewrite lookup_insert_eq. cbn. destruct (_ <$> _); cbn; by rewrite <- ?app_assoc.
Qed.

Lemma bundled_groups_spec bundled name : files_of name bundled ≠ [] → (name, files_of name bundled) ∈ bundled_groups bundled.
Proof.
  intros N. unfold bundled_groups. rewrite (sort_by_perm _ (map_to_list _)). apply elem_of_map_to_list. rewrite groups_lookup.
  by destruct (files_of name bundled).
Qed.

(** C31: The binary bundles exactly its templates. A build that succeeds embeds, in the order
    of template and path, the files below the template directories and nothing else, each
    template with its manifest; one that fails lacks templates or the manifest of one;
    and the result does not depend on the order in which any directory is listed. *)
Theorem bundle_is_the_tree es :
  match bundle (Some (TDir es)) with
  | Some files => StronglySorted (le_by by_file) files ∧
      (∀ name rel bytes, (name, rel, bytes) ∈ files ↔
         ∃ sub path, (name, TDir sub) ∈ es ∧ rel = slashes (path_of EmptyString path) ∧ file_at (TDir sub) path bytes) ∧
      (∀ name sub, (name, TDir sub) ∈ es → ∃ bytes, (name, TEMPLATE_MANIFEST, bytes) ∈ files)
  | None => (∀ name sub, (name, TDir sub) ∉ es) ∨
      ∃ name sub, (name, TDir sub) ∈ es ∧ is_file (child (TDir sub) TEMPLATE_MANIFEST) = false
  end ∧ (∀ es', relisted (TDir es) (TDir es') → bundle (Some (TDir es')) = bundle (Some (TDir es))).
Proof.
  split; [|intros es' R; symmetry; by apply bundle_relisted]. unfold bundle.
  pose proof (collect_templates_spec (sort_by by_entry (dir_names es))) as S.
  assert (∀ e, e ∈ sort_by by_entry (dir_names es) ↔ e ∈ dir_names es) as Es by (intros; by rewrite (sort_by_perm by_entry (dir_names es))).
  destruct (collect_templates _) as [files|]; cbn [mbind option_bind].
  2: { destruct S as ([n t] & I & M). right. rewrite Es, elem_of_dir_names in I. destruct I as [I [sub ->]]. by exists n, sub. }
  destruct S as [Sm Sf].
  assert (∀ name sub, (name, TDir sub) ∈ es → ∃ bytes, (name, TEMPLATE_MANIFEST, bytes) ∈ files) as Man.
  { intros name sub I. assert ((name, TDir sub) ∈ sort_by by_entry (dir_names es)) as I' by (rewrite Es, elem_of_dir_names; split; [done|by eexists]).
    specialize (Sm _ I'). cbn [snd child] in Sm. unfold entry in Sm.
    destruct (head (filter (λ e, e.1 = TEMPLATE_MANIFEST) sub)) as [[n [bytes|]]|] eqn:Hd; try done.
    apply head_Some_elem_of, list_elem_of_filter in Hd as [En In]. cbn in En. subst n. exists bytes. apply Sf.
    exists (TDir sub). split; [done|]. apply collect_spec. exists [TEMPLATE_MANIFEST]. split; [done|]. econstructor; [done|constructor]. }
  case_bool_decide as Ef.
  - left. intros name sub I. destruct (Man _ _ I) as [bytes B]. rewrite Ef in B. by apply not_elem_of_nil in B.
  - split_and!; [apply sort_by_sorted, by_file_total| |].
    + intros name rel bytes. rewrite (sort_by_perm by_file files), Sf. split.
      * intros (t & I & C). rewrite Es, elem_of_dir_names in I. destruct I as [I [sub ->]]. apply collect_spec in C as (path & -> & F). by exists sub, path.
      * intros (sub & path & I & -> & F). exists (TDir sub). rewrite Es, elem_of_dir_names. split; [split; [done|by eexists]|].
        apply collect_spec. by exists path.
    + intros name sub I. destruct (Man _ _ I) as [bytes B]. exists bytes. by rewrite (sort_by_perm by_file files).
Qed.

Lemma files_of_templates name t ds : ∀ files, NoDup ds.*1 → collect_templates ds = Some files → (name, t) ∈ ds →
  files_of name files = collect EmptyString t.
Proof.
  assert (∀ (l : list (string * list byte)) n (fs : list bundled_file),
    files_of name (((λ f, (n, f.1, f.2)) <$> l) ++ fs) = (if decide (n = name) then l else []) ++ files_of name fs) as A.
  { intros l n fs. unfold files_of. rewrite filter_app, fmap_app. f_equal.
    induction l as [|[r b] l IH]; [by destruct (decide _)|]. rewrite fmap_cons, filter_cons. cbn [fst snd].
    destruct (decide (n = name)); [|done]. by rewrite fmap_cons, IH. }
  induction ds as [|[n u] ds IH]; intros files N C I; [by apply not_elem_of_nil in I|]. cbn [collect_templates] in C.
  destruct (is_file _); [|done]. destruct (collect_templates ds) as [more|] eqn:M; [|done]. injection C as <-. rewrite A.
  rewrite fmap_cons in N. apply NoDup_cons in N as [Nn N]. apply elem_of_cons in I as [[= <- <-]|I].
  - rewrite decide_True by done. enough (files_of name more = []) as -> by apply app_nil_r.
    apply elem_of_nil_inv. intros y (([n' r] & b) & -> & [E F]%list_elem_of_filter)%list_elem_of_fmap. cbn in E. subst n'. apply Nn.
    pose proof (collect_templates_spec ds) as S. rewrite M in S. apply S in F as (v & I & _). by apply (list_elem_of_fmap_2 fst) in I.
  - rewrite decide_False; [by apply IH|]. intros ->. apply Nn. by apply (list_elem_of_fmap_2 fst) in I.
Qed.

(** A template in the binary has the files that the command finds in its directory. *)
Theorem bundled_like_disk es files name sub path : NoDup es.*1 → bundle (Some (TDir es)) = Some files → (name, TDir sub) ∈ es →
  ∃ fs ds, (name, fs) ∈ bundled_groups files ∧
    td_files (template_dir_of (λ _, None) path (TDir sub)) = Ok ds ∧ sort_files fs = sort_files ds.
Proof.
  intros N B I. destruct (collect_files_all (TDir sub) path EmptyString) as (ds & D & P).
  unfold bundle in B. destruct (collect_templates _) as [fs|] eqn:C; [|done]. cbn [mbind option_bind] in B.
  case_bool_decide; [done|]. injection B as <-.
  assert (files_of name (sort_by by_file fs) ≡ₚ ds) as Q.
  { rewrite P, <- (files_of_templates name (TDir sub) (sort_by by_entry (dir_names es)) fs); [unfold files_of; by rewrite (sort_by_perm by_file fs)| |exact C|].
    - rewrite (sort_by_perm by_entry (dir_names es)). unfold dir_names. eapply sublist_NoDup; [exact N|apply fmap_sublist, sublist_filter].
    - rewrite (sort_by_perm by_entry (dir_names es)). apply elem_of_dir_names. split; [done|by eexists]. }
  exists (files_of name (sort_by by_file fs)), ds. split_and!; [|exact D|by apply sort_files_perm].
  apply bundled_groups_spec. intros E. pose proof (collect_templates_spec (sort_by by_entry (dir_names es))) as S. rewrite C in S.
  destruct S as [M _]. specialize (M (name, TDir sub)). rewrite (sort_by_perm by_entry (dir_names es)), elem_of_dir_names in M.
  specialize (M (conj I (ex_intro _ _ eq_refl))). cbn [snd child] in M. rewrite E in Q. apply Permutation_nil_l in Q. subst ds.
  unfold entry in M. destruct (head _) as [[n [bytes|]]|] eqn:Hd; try done.
  apply head_Some_elem_of, list_elem_of_filter in Hd as [En In]. cbn in En. subst n.
  assert ((slashes TEMPLATE_MANIFEST, bytes) ∈ collect EmptyString (TDir sub)) as X.
  { apply collect_spec. exists [TEMPLATE_MANIFEST]. split; [done|]. econstructor; [done|constructor]. }
  rewrite <- P in X. by apply not_elem_of_nil in X.
Qed.

(** A loose file beside the templates is no template; a template's own directories are. *)
Example demo_bundle :
  bundle (Some (TDir [("b", TDir [("src", TDir [("m", TFile [])]); ("blitz.template.json", TFile [])]); ("README", TFile []);
    ("a", TDir [("blitz.template.json", TFile [])])]%string)) =
  Some [("a", "blitz.template.json", []); ("b", "blitz.template.json", []); ("b", "src/m", [])]%string.
Proof. reflexivity. Qed.
