(* ===== verification/Generate.v ===== *)
(** [blitz-cli/src/generate.rs]: bindings generated from schemas and procedures, and the
    check that they are up to date. The project's files are a map from paths to contents;
    [serde_json]'s pretty printer is a parameter, and the errors of libraries that messages
    quote are left out of them. *)
From S2P Require Import Prelude Float Value HashMap Sort Schema Core Policy Codec Snapshot Wal GroupCommit Durability Tx Shard Query Text Window Changes Jobs Runtime Deploy Server Dispatch Serving Bridge Http Compat.

Local Open Scope Z_scope.

(** [serde_json::to_string_pretty] *)
Class JsonPretty : Type := json_pretty : json → string.

Definition dq : string := String.string_of_list_byte [Z_byte 34].
Definition line (s : string) : string := s +:+ nl.

(** ** Names *)

Definition ascii_upper (b : byte) : byte :=
  let z := byte_Z b in if (97 <=? z) && (z <=? 122) then Z_byte (z - 32) else b.

(** The characters of a text: a byte that does not continue a character is one. *)
Definition char_bytes (s : string) : list byte := filter (λ b, negb (utf8_cont (byte_Z b)) = true) (str_bytes s).
Definition is_word (b : byte) : bool := is_ascii_alphanumeric b || bool_decide (b = "_"%byte).

(** [chars().map(|c| if .. { c } else { '_' }).collect()] *)
Definition underscored (s : string) : list byte := (λ b, if is_word b then b else "_"%byte) <$> char_bytes s.
Definition scream (s : string) : string :=
  String.string_of_list_byte ((λ b, if is_ascii_alphanumeric b then ascii_upper b else "_"%byte) <$> char_bytes s).

(** [split(|c| !c.is_ascii_alphanumeric())] *)
Fixpoint split_words (l : list byte) : list (list byte) :=
  match l with
  | [] => [[]]
  | b :: l =>
      if is_ascii_alphanumeric b then
        match split_words l with w :: ws => (b :: w) :: ws | [] => [[b]] end
      else [] :: split_words l
  end.
Definition pascal_case (s : string) : string :=
  String.string_of_list_byte
    (filter (λ w, w ≠ []) (split_words (str_bytes s)) ≫= λ w, match w with [] => [] | b :: w => ascii_upper b :: w end).

(** The end both identifier makers share: no leading digit, no keyword. *)
Definition identifier (keywords : list string) (l : list byte) : string :=
  let l := match l with
           | [] => ["_"%byte]
           | b :: _ => if is_ascii_digit b then "_"%byte :: l else l
           end in
  let s := String.string_of_list_byte l in
  if bool_decide (s ∈ keywords) then s +:+ "_" else s.

Definition ts_keywords : list string :=
  ["break"; "case"; "catch"; "class"; "const"; "continue"; "debugger"; "default"; "delete"; "do"; "else"; "enum";
   "export"; "extends"; "false"; "finally"; "for"; "function"; "if"; "import"; "in"; "instanceof"; "new"; "null";
   "return"; "super"; "switch"; "this"; "throw"; "true"; "try"; "typeof"; "var"; "void"; "while"; "with"; "yield";
   "let"; "static"; "implements"; "interface"; "package"; "private"; "protected"; "public"]%string.
Definition rs_keywords : list string :=
  ["as"; "break"; "const"; "continue"; "crate"; "else"; "enum"; "extern"; "false"; "fn"; "for"; "if"; "impl"; "in";
   "let"; "loop"; "match"; "mod"; "move"; "mut"; "pub"; "ref"; "return"; "self"; "Self"; "static"; "struct"; "super";
   "trait"; "true"; "type"; "unsafe"; "use"; "where"; "while"; "async"; "await"; "dyn"; "abstract"; "become"; "box";
   "do"; "final"; "macro"; "override"; "priv"; "typeof"; "unsized"; "virtual"; "yield"; "try"]%string.

Definition rust_ident (name : string) : string := identifier ts_keywords (underscored name).
Definition rust_field (name : string) : string := identifier rs_keywords (underscored name).

(** ** Types and values *)

Definition ts_base (t : column_type) : string :=
  match t with
  | TBoolean => "boolean"
  | TInt8 | TInt16 | TInt32 | TUInt8 | TUInt16 | TUInt32 => "number"
  | TInt64 | TUInt64 => "number | bigint"
  | TFloat32 | TFloat64 => "number"
  | TDecimal | TString => "string"
  | TBytes => "Uint8Array"
  | TUuid => "string"
  | TTimestamp => "Date"
  | TDate => "{ $date: string }"
  | TJson => "unknown"
  | TArray => "unknown[]"
  end.
Definition ts_type_of (c : ColumnDef) : string :=
  if nullable c then ts_base (col_type c) +:+ " | null" else ts_base (col_type c).

Definition rs_base (t : column_type) : string :=
  match t with
  | TBoolean => "bool" | TInt8 => "i8" | TInt16 => "i16" | TInt32 => "i32" | TInt64 => "i64"
  | TUInt8 => "u8" | TUInt16 => "u16" | TUInt32 => "u32" | TUInt64 => "u64"
  | TFloat32 => "f32" | TFloat64 => "f64"
  | TDecimal | TString => "String"
  | TBytes => "Vec<u8>"
  | TUuid | TTimestamp | TDate => "String"
  | TJson => "serde_json::Value"
  | TArray => "Vec<serde_json::Value>"
  end.
Definition rs_type_of (c : ColumnDef) : string :=
  if nullable c then "Option<" +:+ rs_base (col_type c) +:+ ">" else rs_base (col_type c).

Definition conv_int (field : string) (nullable : bool) (variant : string) : string :=
  if nullable then field +:+ ".map(Value::" +:+ variant +:+ ").unwrap_or(Value::Null)"
  else "Value::" +:+ variant +:+ "(" +:+ field +:+ ")".
Definition conv_clone (field : string) (nullable : bool) (variant : string) : string :=
  if nullable then field +:+ ".clone().map(Value::" +:+ variant +:+ ").unwrap_or(Value::Null)"
  else "Value::" +:+ variant +:+ "(" +:+ field +:+ ".clone())".
Definition rs_to_value (c : ColumnDef) : string :=
  let field := "self." +:+ rust_field (col_name c) in
  match col_type c with
  | TBoolean => conv_int field (nullable c) "Boolean"
  | TInt8 => conv_int field (nullable c) "Int8"
  | TInt16 => conv_int field (nullable c) "Int16"
  | TInt32 => conv_int field (nullable c) "Int32"
  | TInt64 => conv_int field (nullable c) "Int64"
  | TUInt8 => conv_int field (nullable c) "UInt8"
  | TUInt16 => conv_int field (nullable c) "UInt16"
  | TUInt32 => conv_int field (nullable c) "UInt32"
  | TUInt64 => conv_int field (nullable c) "UInt64"
  | TFloat32 => conv_int field (nullable c) "Float32"
  | TFloat64 => conv_int field (nullable c) "Float64"
  | TDecimal | TString => conv_clone field (nullable c) "String"
  | TBytes => conv_clone field (nullable c) "Bytes"
  | TUuid | TTimestamp | TDate => conv_clone field (nullable c) "String"
  | TJson => conv_clone field (nullable c) "Json"
  | TArray => conv_clone field (nullable c) "Array"
  end.

(** ** Rendering *)

Definition concat_map {A} (f : A → string) (l : list A) : string := String.concat EmptyString (f <$> l).

Definition header (lang : string) : string :=
  line "// Generated by `blitz generate` — do not hand-edit." +:+ line "// Regenerate: blitz generate [--check]"
  +:+ line ("// " +:+ lang +:+ " bindings below.") +:+ nl.

Definition render_ts_table (s : TableSchema) : string :=
  line ("export const TABLE_" +:+ scream (schema_name s) +:+ " = '" +:+ schema_name s +:+ "';")
  +:+ line ("export interface " +:+ pascal_case (schema_name s) +:+ "Row {")
  +:+ concat_map (λ c, line ("  " +:+ col_name c +:+ ": " +:+ ts_type_of c +:+ ";")) (columns s)
  +:+ line "}" +:+ nl.
Definition render_ts_tables (schemas : list (string * TableSchema)) : string :=
  header "TypeScript"
  +:+ line "// int64/uint64 are `number | bigint`: narrow with V.i64()/V.u64()"
  +:+ line "// when writing strict columns; reads may arrive as either."
  +:+ line "// Row ids travel alongside (RowView.id); only columns are listed." +:+ nl
  +:+ concat_map (λ s, render_ts_table s.2) schemas.

Definition render_ts_functions (procs : list (string * Procedure)) : string :=
  header "TypeScript"
  +:+ line "import type { Client, CallResult } from '@blitzdb/client';"
  +:+ line "import type { Value } from '@blitzdb/client';" +:+ nl
  +:+ line "// Procedure names (deploy with `blitz dev` or ProcDeploy)."
  +:+ concat_map (λ p, line ("export const FN_" +:+ scream (proc_name p.2) +:+ " = '" +:+ proc_name p.2 +:+ "';")) procs
  +:+ nl
  +:+ line "// Argument shapes are caller-declared: procedures reference $vars"
  +:+ line "// without declared signatures (see PROTOCOL.md), so each wrapper"
  +:+ line "// takes the args record the procedure documents. Typed arg schemas"
  +:+ line "// are future work — not faked here."
  +:+ concat_map (λ p,
        line ("export async function " +:+ rust_ident (proc_name p.2)
              +:+ "(db: Client, args: Record<string, Value>): Promise<CallResult> {")
        +:+ line ("  return db.call('" +:+ proc_name p.2 +:+ "', args);") +:+ line "}" +:+ nl) procs.

Definition render_rs_table (s : TableSchema) : string :=
  let strukt := pascal_case (schema_name s) +:+ "Row" in
  line ("pub const TABLE_" +:+ scream (schema_name s) +:+ ": &str = " +:+ dq +:+ schema_name s +:+ dq +:+ ";")
  +:+ line "#[derive(Debug, Clone, Default)]" +:+ line ("pub struct " +:+ strukt +:+ " {")
  +:+ concat_map (λ c, line ("    pub " +:+ rust_field (col_name c) +:+ ": " +:+ rs_type_of c +:+ ",")) (columns s)
  +:+ line "}" +:+ nl
  +:+ line ("impl " +:+ strukt +:+ " {")
  +:+ line "    pub fn values(&self) -> HashMap<String, Value> {" +:+ line "        let mut m = HashMap::new();"
  +:+ concat_map (λ c, line ("        m.insert(" +:+ dq +:+ col_name c +:+ dq +:+ ".to_string(), " +:+ rs_to_value c +:+ ");")) (columns s)
  +:+ line "        m" +:+ line "    }" +:+ line "}" +:+ nl.
Definition render_rs_tables (schemas : list (string * TableSchema)) : string :=
  header "Rust"
  +:+ line "use std::collections::HashMap;" +:+ line "use blitz_types::value::Value;" +:+ nl
  +:+ line "// Row structs mirror table shapes (see ts/tables.ts for docs)."
  +:+ line "// `values()` converts back to a write map (skips None fields)." +:+ nl
  +:+ concat_map (λ s, render_rs_table s.2) schemas.

(** ** The fingerprint *)

Definition fnv_step (h : Z) (b : byte) : Z := wrap 64 (Z.lxor h (byte_Z b) * 0x100000001b3).
Definition rotate_left (w k z : Z) : Z := wrap w (Z.lor (Z.shiftl z k) (Z.shiftr z (w - k))).
(** [{:016x}] *)
Fixpoint hex_digits (n : nat) (z : Z) : list byte :=
  match n with O => [] | S n => hex_digits n (z / 16) ++ [hex_digit (z mod 16)] end.
Definition sha256_hex (data : list byte) : string :=
  let h := foldl fnv_step 0xcbf29ce484222325 data in
  String.string_of_list_byte (hex_digits 16 (Z.lxor (rotate_left 64 13 h) 0x9e3779b97f4a7c15) ++ hex_digits 16 h).

(** ** A run *)

(** An input file: its path, its stem if it is text, and its contents. *)
Record InputFile : Type := MkInput { if_path : string; if_stem : option string; if_text : string }.
Record GeneratedSet : Type := MkGenerated { gs_files : list (string * string); gs_manifest : string }.

Definition sort_inputs (files : list InputFile) : list InputFile := sort_by (λ a b, str_cmp (if_path a) (if_path b)) files.
Definition file_stem (f : InputFile) : result string string := ok_or (if_stem f) ("bad filename: " +:+ if_path f).

Section generate.
Context `{JsonText} `{JsonBytes} `{JsonPretty} `{ValueText} `{Chrono} `{DeploySerde} `{DebugText} `{MapOrder}.

Definition deploy_error_text (e : deploy_error) : string := match e with Rejected why => why | Panicked => "panicked" end.

(** A file under [blitz/schema]; the uuid is drawn in [TableSchema::new]. *)
Definition read_schema (uuid : list byte) (f : InputFile) : result string (string * TableSchema) :=
  j ← ok_or (json_from_slice (str_bytes (if_text f))) (if_path f +:+ ": malformed JSON");
  s ← map_err (λ e, if_path f +:+ ": " +:+ schema_json_error_text e) (from_json uuid j);
  stem ← file_stem f;
  Ok (stem, s).
(** A file under [blitz/functions], against the built-in functions. *)
Definition read_procedure (fns : FunctionRegistry) (f : InputFile) : result string (string * Procedure) :=
  p ← map_err (λ e, if_path f +:+ ": " +:+ deploy_error_text e) (deploy_from_json (str_bytes (if_text f)) fns);
  stem ← file_stem f;
  Ok (stem, p).

Definition schema_names (s : TableSchema) : json :=
  JArray ((λ c, JArray [JString (col_name c); JString (column_type_name (col_type c))]) <$> columns s).
Definition fingerprint_input (schemas : list (string * TableSchema)) (procs : list (string * Procedure)) : string :=
  concat_map (λ s, s.1 +:+ ":" +:+ json_to_string (schema_names s.2) +:+ ";") schemas
  +:+ concat_map (λ p, p.1 +:+ ":" +:+ proc_name p.2 +:+ ";") procs.

Definition manifest_path : string := "blitz.generated/manifest.json".

(** What is generated from the parsed inputs; [own] is the version of the tool. *)
Definition generated (own : string) (schemas : list (string * TableSchema)) (procs : list (string * Procedure)) : GeneratedSet :=
  let schemas := sort_by (λ a b, str_cmp (schema_name a.2) (schema_name b.2)) schemas in
  let procs := sort_by (λ a b, str_cmp (proc_name a.2) (proc_name b.2)) procs in
  let files := [("blitz.generated/rs/tables.rs"%string, render_rs_tables schemas);
                ("blitz.generated/ts/functions.ts"%string, render_ts_functions procs);
                ("blitz.generated/ts/tables.ts"%string, render_ts_tables schemas)] in
  let manifest := json_pretty (JObject
    [("files"%string, JArray (JString <$> files.*1));
     ("generator"%string, JString ("blitz-cli " +:+ own));
     ("inputs_sha256"%string, JString (sha256_hex (str_bytes (fingerprint_input schemas procs))))]) in
  MkGenerated files manifest.

(** Reading every input, in the order of their paths. *)
Definition generate (own : string) (uuids : string → list byte) (fns : FunctionRegistry)
    (schema_dir functions_dir : option (list InputFile)) : result string GeneratedSet :=
  match schema_dir, functions_dir with
  | None, None => Err "no blitz/schema or blitz/functions"%string
  | _, _ =>
      schemas ← mapM (λ f, read_schema (uuids (if_path f)) f) (sort_inputs (default [] schema_dir));
      procs ← mapM (read_procedure fns) (sort_inputs (default [] functions_dir));
      Ok (generated own schemas procs)
  end.

Definition all_outputs (g : GeneratedSet) : list (string * string) := gs_files g ++ [(manifest_path, gs_manifest g)].

Definition verify_unchanged (project : gmap string string) (g : GeneratedSet) : result string () :=
  match filter (λ f, project !! f.1 ≠ Some f.2) (all_outputs g) with
  | [] => Ok ()
  | stale => Err ("stale generated files (run `blitz generate`): " +:+ String.concat ", " stale.*1)
  end.
Definition write_outputs (project : gmap string string) (g : GeneratedSet) : gmap string string :=
  foldl (λ p f, <[f.1 := f.2]> p) project (all_outputs g).

(** [run_generate]: the result, and the project's files after it. *)
Definition run_generate (own : string) (uuids : string → list byte) (fns : FunctionRegistry) (check : bool)
    (schema_dir functions_dir : option (list InputFile)) (project : gmap string string)
    : result string GeneratedSet * gmap string string :=
  match generate own uuids fns schema_dir functions_dir with
  | Err e => (Err e, project)
  | Ok g =>
      if check then (_ ← verify_unchanged project g; Ok g, project)
      else (Ok g, write_outputs project g)
  end.
End generate.

(** ** Generated names are identifiers *)

Definition is_identifier (keywords : list string) (s : string) : Prop :=
  s ∉ keywords ∧
  match str_bytes s with [] => False | b :: l => is_ascii_digit b = false ∧ Forall (λ b, is_word b = true) (b :: l) end.

Lemma underscored_words s : Forall (λ b, is_word b = true) (underscored s).
Proof.
  unfold underscored. apply Forall_fmap, Forall_true. intros b. cbn. by destruct (is_word b) eqn:E.
Qed.

Lemma identifier_ok keywords l :
  Forall (λ k, last (str_bytes k) ≠ Some "_"%byte) keywords → Forall (λ b, is_word b = true) l →
  is_identifier keywords (identifier keywords l).
Proof.
  intros K W. unfold identifier.
  set (l' := match l with [] => _ | b :: _ => _ end).
  assert (Forall (λ b, is_word b = true) l' ∧ ∃ b r, l' = b :: r ∧ is_ascii_digit b = false) as [W' (b & r & E & D)].
  { unfold l'. destruct l as [|b l]; [by split; [repeat constructor|eauto]|].
    destruct (is_ascii_digit b) eqn:D; (split; [|by eauto]); [by constructor|done]. }
  case_bool_decide as I; unfold is_identifier.
  - split.
    + intros I'. apply (proj1 (Forall_forall _ _) K _ I'). rewrite str_bytes_app. apply last_snoc.
    + rewrite str_bytes_app, str_bytes_of.
      assert (Forall (λ b, is_word b = true) (l' ++ ["_"%byte])) as F by (apply Forall_app; split; [done|repeat constructor]).
      change (str_bytes "_") with ["_"%byte]. rewrite E in F |- *. done.
  - split; [done|]. rewrite str_bytes_of. rewrite E in W' |- *. done.
Qed.

(** The field and function names made of any name, empty ones, keywords and any text
    included, are words that start with no digit and are no keywords. *)
Theorem generated_names_are_identifiers name :
  is_identifier rs_keywords (rust_field name) ∧ is_identifier ts_keywords (rust_ident name).
Proof.
  split; (apply identifier_ok; [by repeat constructor|apply underscored_words]).
Qed.

(** Two columns can end up as one field. *)
Example fields_collide : rust_field "a-b" = rust_field "a_b".
Proof. by vm_compute. Qed.
(** A column named [_] becomes a field that Rust does not accept. *)
Example underscore_field : rust_field "_" = "_"%string.
Proof. by vm_compute. Qed.

(** ** Generation is reproducible *)

(** The parts of a schema the generator sees. *)
Definition same_shape (a b : TableSchema) : Prop := schema_name a = schema_name b ∧ columns a = columns b.
Definition same_result {E A} (R : A → A → Prop) (a b : result E A) : Prop :=
  match a, b with Ok a, Ok b => R a b | Err e, Err e' => e = e' | _, _ => False end.

Lemma concat_map_ext {A} (f : A → string) (R : A → A → Prop) l l' :
  (∀ a b, R a b → f a = f b) → Forall2 R l l' → concat_map f l = concat_map f l'.
Proof.
  intros E F. unfold concat_map. f_equal. induction F as [|a b l l' Rab _ IH]; [done|]. cbn. by rewrite IH, (E a b).
Qed.

Lemma sort_by_Forall2 {A} (R : A → A → Prop) (cmp : A → A → comparison) l l' :
  (∀ a a' b b', R a a' → R b b' → cmp a b = cmp a' b') → Forall2 R l l' → Forall2 R (sort_by cmp l) (sort_by cmp l').
Proof.
  intros C. assert (∀ a a' l l', R a a' → Forall2 R l l' → Forall2 R (insert_by cmp a l) (insert_by cmp a' l')) as I.
  { intros a a' k k' Ra F. induction F as [|b b' k k' Rb F IH]; cbn [insert_by]; [by repeat constructor|].
    rewrite (C a a' b b' Ra Rb). destruct (cmp a' b'); by repeat constructor. }
  induction 1 as [|a a' l l' Ra F IH]; [constructor|]. by apply I.
Qed.

Lemma columns_from_json_shape cols : ∀ i a b,
  same_shape a b →
  same_result same_shape (columns_from_json i cols a) (columns_from_json i cols b).
Proof.
  induction cols as [|c cols IH]; intros i a b S; cbn [columns_from_json]; [done|].
  destruct (column_from_json i c) as [def|e]; cbn [mbind result_bind]; [|done]. apply IH.
  destruct S as [N C]. split; cbn; [done|by rewrite C].
Qed.

Lemma same_result_bind {E A B} (R : A → A → Prop) (Q : B → B → Prop) (x x' : result E A) (f f' : A → result E B) :
  same_result R x x' → (∀ a a', R a a' → same_result Q (f a) (f' a')) → same_result Q (x ≫= f) (x' ≫= f').
Proof. destruct x as [a|e], x' as [a'|e']; cbn; intros X F; try done; by apply F. Qed.

Lemma same_result_refl {E A} (R : A → A → Prop) `{!Reflexive R} (x : result E A) : same_result R x x.
Proof. destruct x; cbn; reflexivity. Qed.

Lemma from_json_shape u u' j : same_result same_shape (from_json u j) (from_json u' j).
Proof.
  unfold from_json. apply (same_result_bind eq); [by apply same_result_refl|]. intros obj _ <-.
  apply (same_result_bind eq); [by apply same_result_refl|]. intros table _ <-.
  destruct (negb (name_ok table)); [done|].
  apply (same_result_bind eq); [by apply same_result_refl|]. intros cols _ <-.
  destruct (_ || _); [done|]. by apply columns_from_json_shape.
Qed.

Lemma mapM_same {E A B} (R : B → B → Prop) (f f' : A → result E B) l :
  (∀ a, same_result R (f a) (f' a)) → same_result (Forall2 R) (mapM f l) (mapM f' l).
Proof.
  intros F. induction l as [|a l IH]; [constructor|]. cbn [mapM].
  apply (same_result_bind R); [apply F|]. intros b b' Rb. apply (same_result_bind (Forall2 R)); [exact IH|].
  intros k k' Rk. by constructor.
Qed.

Section reproducible.
Context `{JsonText} `{JsonBytes} `{JsonPretty} `{ValueText} `{Chrono} `{DeploySerde} `{DebugText} `{MapOrder}.

Definition same_input (a b : string * TableSchema) : Prop := a.1 = b.1 ∧ same_shape a.2 b.2.

Lemma read_schema_same u u' f : same_result same_input (read_schema u f) (read_schema u' f).
Proof.
  unfold read_schema. apply (same_result_bind eq); [by apply same_result_refl|]. intros j _ <-.
  apply (same_result_bind same_shape).
  { pose proof (from_json_shape u u' j) as S. destruct (from_json u j), (from_json u' j); cbn in S |- *; congruence || done. }
  intros s s' S. apply (same_result_bind eq); [by apply same_result_refl|]. intros stem _ <-. done.
Qed.

Lemma render_ts_table_same a b : same_input a b → render_ts_table a.2 = render_ts_table b.2.
Proof. intros (_ & N & C). unfold render_ts_table. by rewrite N, C. Qed.
Lemma render_rs_table_same a b : same_input a b → render_rs_table a.2 = render_rs_table b.2.
Proof. intros (_ & N & C). unfold render_rs_table. by rewrite N, C. Qed.

Lemma generated_same own schemas schemas' procs :
  Forall2 same_input schemas schemas' → generated own schemas procs = generated own schemas' procs.
Proof.
  intros F. unfold generated.
  apply (sort_by_Forall2 same_input (λ a b, str_cmp (schema_name a.2) (schema_name b.2))) in F.
  2: { intros a a' b b' (_ & N & _) (_ & N' & _). by rewrite N, N'. }
  set (s1 := sort_by _ schemas) in *. set (s2 := sort_by _ schemas') in *.
  assert (render_ts_tables s1 = render_ts_tables s2) as -> by
    (unfold render_ts_tables; by rewrite (concat_map_ext _ same_input s1 s2 render_ts_table_same F)).
  assert (render_rs_tables s1 = render_rs_tables s2) as -> by
    (unfold render_rs_tables; by rewrite (concat_map_ext _ same_input s1 s2 render_rs_table_same F)).
  assert (fingerprint_input s1 (sort_by (λ a b, str_cmp (proc_name a.2) (proc_name b.2)) procs) =
          fingerprint_input s2 (sort_by (λ a b, str_cmp (proc_name a.2) (proc_name b.2)) procs)) as -> by
    (unfold fingerprint_input; f_equal; apply (concat_map_ext _ same_input); [|exact F];
     intros a b (E & _ & C); unfold schema_names; by rewrite E, C).
  done.
Qed.

Lemma generate_same own u u' fns sd fd : generate own u fns sd fd = generate own u' fns sd fd.
Proof.
  assert (same_result eq
    (schemas ← mapM (λ f, read_schema (u (if_path f)) f) (sort_inputs (default [] sd));
     procs ← mapM (read_procedure fns) (sort_inputs (default [] fd)); Ok (generated own schemas procs))
    (schemas ← mapM (λ f, read_schema (u' (if_path f)) f) (sort_inputs (default [] sd));
     procs ← mapM (read_procedure fns) (sort_inputs (default [] fd)); Ok (generated own schemas procs))) as S.
  { apply (same_result_bind (Forall2 same_input)); [apply mapM_same; intros f; apply read_schema_same|].
    intros s s' F. apply (same_result_bind eq); [by apply same_result_refl|]. intros procs _ <-. cbn.
    by apply generated_same. }
  unfold generate. destruct sd, fd; try done; destruct (_ ≫= _), (_ ≫= _); cbn in S; congruence || done.
Qed.

Lemma generate_paths own u fns sd fd g :
  generate own u fns sd fd = Ok g → NoDup (all_outputs g).*1.
Proof.
  intros G. assert ((all_outputs g).*1 = ["blitz.generated/rs/tables.rs"; "blitz.generated/ts/functions.ts";
    "blitz.generated/ts/tables.ts"; manifest_path]%string) as ->.
  { unfold generate in G.
    assert (∀ (x : result string GeneratedSet), x = Ok g → x = Ok g) by done.
    destruct sd, fd; try done; apply result_bind_Ok in G as (s & _ & G); apply result_bind_Ok in G as (p & _ & G);
      injection G as <-; done. }
  repeat constructor; set_solver by done.
Qed.

Lemma write_lookup p l path : NoDup l.*1 →
  foldl (λ p f, <[f.1 := f.2]> p) p l !! path =
    match list_find (λ f : string * string, f.1 = path) l with Some (_, f) => Some f.2 | None => (p : gmap string string) !! path end.
Proof.
  revert p. induction l as [|f l IH]; intros p N; [done|]. cbn [foldl fmap list_fmap] in N |- *. apply NoDup_cons in N as [N1 N].
  rewrite (IH _ N). cbn [list_find]. destruct (decide (f.1 = path)) as [<-|D].
  - assert (list_find (λ g : string * string, g.1 = f.1) l = None) as ->; [|by rewrite lookup_insert_eq].
    apply list_find_None, Forall_forall. intros g I E. apply N1. rewrite <- E. by apply list_elem_of_fmap_2.
  - rewrite lookup_insert_ne by done. by destruct (list_find _ l) as [[i g]|].
Qed.

Lemma verify_ok project g :
  is_ok (verify_unchanged project g) = true ↔ ∀ f, f ∈ all_outputs g → project !! f.1 = Some f.2.
Proof.
  unfold verify_unchanged. set (stale := filter _ _).
  assert (∀ f, f ∈ stale ↔ project !! f.1 ≠ Some f.2 ∧ f ∈ all_outputs g) as S by (intros f; unfold stale; by rewrite list_elem_of_filter).
  destruct stale as [|x l]; cbn.
  - split; [|done]. intros _ f I. destruct (decide (project !! f.1 = Some f.2)) as [|N]; [done|].
    assert (f ∈ []) as []%not_elem_of_nil. by apply S.
  - split; [done|]. intros F. destruct (proj1 (S x)) as [N I]; [left|]. by apply F in I.
Qed.

(** C34: Generation depends on the inputs alone, whatever ids the schemas draw: a check right
    after a run passes and gives the same output, a check passes exactly when every output
    file holds what would be generated, and a run touches no other file and none when an
    input is wrong. *)
Theorem generate_then_check own u u' fns sd fd project :
  let '(r, project') := run_generate own u fns false sd fd project in
  match r with
  | Err _ => project' = project
  | Ok g =>
      run_generate own u' fns true sd fd project' = (Ok g, project') ∧
      (∀ path, path ∉ (all_outputs g).*1 → project' !! path = project !! path) ∧
      (∀ other, is_ok (run_generate own u' fns true sd fd other).1 = true ↔
         ∀ f, f ∈ all_outputs g → other !! f.1 = Some f.2)
  end.
Proof.
  unfold run_generate. rewrite (generate_same own u' u). destruct (generate own u fns sd fd) as [g|e] eqn:G; [|done].
  pose proof (generate_paths _ _ _ _ _ _ G) as N.
  assert (∀ other, is_ok (_ ← verify_unchanged other g; Ok g : result string GeneratedSet) = true ↔
    ∀ f, f ∈ all_outputs g → other !! f.1 = Some f.2) as V.
  { intros other. rewrite <- verify_ok. by destruct (verify_unchanged other g). }
  split_and!; [| |exact V].
  - assert (verify_unchanged (write_outputs project g) g = Ok ()) as ->; [|done].
    destruct (verify_unchanged (write_outputs project g) g) as [[]|e] eqn:E; [done|]. exfalso.
    assert (is_ok (verify_unchanged (write_outputs project g) g) = true) as T; [|by rewrite E in T].
    apply verify_ok. intros f I. unfold write_outputs. rewrite write_lookup by done.
    destruct (list_find _ _) as [[i f']|] eqn:L.
    + apply list_find_Some in L as (L & P & _). f_equal. apply list_elem_of_lookup_1 in I as [j J].
      assert (i = j) as ->; [|congruence]. eapply NoDup_lookup; [exact N| |];
        rewrite list_lookup_fmap; [by rewrite L|rewrite J; cbn; by rewrite P].
    + apply list_find_None in L. rewrite Forall_forall in L. exfalso. by apply (L f I).
  - intros path D. unfold write_outputs. rewrite write_lookup by done.
    destruct (list_find _ _) as [[i f']|] eqn:L; [|done]. apply list_find_Some in L as (L & <- & _). exfalso. apply D.
    apply list_elem_of_fmap_2. by eapply list_elem_of_lookup_2.
Qed.

(** The fingerprint of the manifest sees names and types alone: making a column nullable
    changes no manifest. *)
Lemma manifest_ignores_nullability own name n t stem uuid :
  gs_manifest (generated own [(stem, with_column (TableSchema_new uuid name) (MkColumnDef n t true false false None))] []) =
  gs_manifest (generated own [(stem, with_column (TableSchema_new uuid name) (MkColumnDef n t false false false None))] []).
Proof. done. Qed.
End reproducible.
