(* ===== verification/Cli.v ===== *)
(** [blitz-cli/src/main.rs], what the commands decide before they hand over: the options of
    [serve], [db init] and [db rotate], [install] and [upgrade], the exit code of
    [release-check]. Listening, the timers and the printing are left out. *)
From S2P Require Import Prelude Float Value HashMap Schema Core Policy Codec Snapshot Wal GroupCommit Durability Rotation Shard Query Text Window Changes Jobs Runtime Deploy Server Http Install Compat Generate.

Local Open Scope Z_scope.

(** ** [serve] *)

Record ServeArgs : Type := MkServe {
  sa_host : string;
  sa_port : Z;
  sa_data_dir : option string;
  sa_durability : string;
  sa_snapshot_secs : Z;
  sa_metrics_port : Z;
  sa_tls_cert : option string;
  sa_tls_key : option string;
  sa_tls_port : Z
}.

Definition durability_mode (name : string) : option DurabilityMode :=
  match name with
  | "near-sync" => Some near_sync
  | "every-sec" => Some every_sec
  | "none" => Some ModeNone
  | _ => None
  end%string.

(** The first check, before the server is built; an [Err] exits with code 2. *)
Definition serve_config (a : ServeArgs) : result string ServerConfig :=
  mode ← ok_or (durability_mode (sa_durability a)) ("unknown --durability '" +:+ sa_durability a +:+ "' (none|near-sync|every-sec)");
  if is_durable mode && bool_decide (sa_data_dir a = None) then Err "--durability requires --data-dir"%string
  else
    let d := ServerConfig_default in
    Ok (MkServerConfig (sa_host a) (sa_port a) (sa_data_dir a) (max_connections d) (enable_auth d) (max_message_size d)
          (shed_at_connections d) (slow_threshold_ms d) (skip_validation d) mode (sa_snapshot_secs a) (idle_timeout_secs d)
          (max_connections_per_ip d) (require_auth d) (auth_tokens d) (table_shards d) (row_owner d) (http_cors_origins d)).

(** The second, once the plain listener is bound: the TLS listener, if any, and its files. *)
Definition serve_tls_listener (a : ServeArgs) : result string (option (string * string * Z)) :=
  match sa_tls_cert a, sa_tls_key a with
  | Some c, Some k => if 0 <? sa_tls_port a then Ok (Some (c, k, sa_tls_port a)) else Err "TLS needs --tls-cert + --tls-key + --tls-port together"%string
  | None, None => if sa_tls_port a =? 0 then Ok None else Err "TLS needs --tls-cert + --tls-key + --tls-port together"%string
  | _, _ => Err "TLS needs --tls-cert + --tls-key + --tls-port together"%string
  end.

(** Whether the periodic snapshots, and the one at shutdown, are taken. *)
Definition periodic_snapshots (a : ServeArgs) : bool := (0 <? sa_snapshot_secs a) && bool_decide (is_Some (sa_data_dir a)).
Definition shutdown_snapshot (a : ServeArgs) : bool := bool_decide (is_Some (sa_data_dir a)).

(** ** The other commands *)

(** [db init]: the file it writes. *)
Definition db_init `{JsonPretty} (dir : string) (fs : gmap string (list byte)) : gmap string (list byte) :=
  let config := JObject [("data_dir"%string, JString dir); ("host"%string, JString "127.0.0.1");
                         ("port"%string, JNumber (PosInt 7420)); ("version"%string, JString "0.1.0")] in
  <[path_join dir "blitz.json" := str_bytes (json_pretty config)]> fs.

Section commands.
Context `{Curl} `{Sha256} `{JsonBytes}.
Definition cli_install (m : Machine) (release : string) (dir : option string) (force : bool) (w : World) : result string string * World :=
  run_install m (MkInstall release dir force) w.
Definition cli_upgrade (m : Machine) (dir : option string) (w : World) : result string string * World :=
  run_install m (MkInstall "latest" dir true) w.
End commands.

(** The exit code of [release-check]. *)
Definition release_exit (checks : list ReleaseCheck) : Z :=
  if (0 <? length (filter (λ c, rc_pass c = false) checks))%nat then 1 else 0.

(** ** What the options guarantee *)

(** A server that is started says what it keeps. One that was asked for durability in
    any mode has a directory to keep its data in, and one without takes no snapshots; an
    unknown mode, durability without a directory, and TLS options that do not come all
    together start no server; and nothing but the options named changes from the defaults. *)
Theorem serve_options_are_coherent a :
  match serve_config a with
  | Ok c => durability_mode (sa_durability a) = Some (durability c) ∧
      (is_durable (durability c) = true → is_Some (data_dir c)) ∧
      (data_dir c = None → periodic_snapshots a = false ∧ shutdown_snapshot a = false) ∧
      require_auth c = require_auth ServerConfig_default ∧ max_message_size c = max_message_size ServerConfig_default
  | Err _ => durability_mode (sa_durability a) = None ∨ (sa_durability a ≠ "none"%string ∧ sa_data_dir a = None)
  end ∧
  (∀ r, serve_tls_listener a = Ok r →
     match r with
     | Some (c, k, p) => sa_tls_cert a = Some c ∧ sa_tls_key a = Some k ∧ p = sa_tls_port a ∧ 0 < p
     | None => sa_tls_cert a = None ∧ sa_tls_key a = None ∧ sa_tls_port a = 0
     end).
Proof.
  split.
  - unfold serve_config. destruct (durability_mode (sa_durability a)) as [mode|] eqn:M; cbn [ok_or mbind result_bind]; [|by left].
    destruct (is_durable mode && bool_decide (sa_data_dir a = None)) eqn:D.
    + right. apply andb_true_iff in D as [D ?%bool_decide_eq_true]. split; [|done]. intros E. rewrite E in M. injection M as <-. done.
    + cbn [durability data_dir require_auth max_message_size]. split_and!; [done| | |done|done].
      * intros Dm. rewrite Dm in D. apply bool_decide_eq_false in D. by destruct (sa_data_dir a); [eexists|].
      * intros N. unfold periodic_snapshots, shutdown_snapshot. rewrite N. split; [by rewrite andb_false_r|done].
  - intros r. unfold serve_tls_listener. destruct (sa_tls_cert a) as [c|], (sa_tls_key a) as [k|]; try done.
    + destruct (Z.ltb_spec 0 (sa_tls_port a)); [|done]. by intros [= <-].
    + destruct (Z.eqb_spec (sa_tls_port a) 0); [|done]. by intros [= <-].
Qed.

Lemma release_exit_zero checks : release_exit checks = 0 ↔ Forall (λ c, rc_pass c = true) checks.
Proof.
  unfold release_exit. induction checks as [|c cs IH]; [done|]. rewrite filter_cons, Forall_cons.
  destruct (rc_pass c) eqn:E.
  - rewrite decide_False by done. rewrite IH. by split; [split|intros []].
  - rewrite decide_True by done. cbn. split; [done|by intros []].
Qed.

(** The default [--durability none] loses a data directory's writes until a snapshot is
    taken: [serve --data-dir d] alone is accepted. *)
Example data_dir_without_durability :
  is_ok (serve_config (MkServe "h" 1 (Some "d"%string) "none" 0 0 None None 0)) = true.
Proof. reflexivity. Qed.
